(* ===== verification/_CoqProject ===== *)
-Q . S2P
Prelude.v
ScriptError.v
ScriptNum.v
Stack.v
OpcodeTable.v
Script.v
ScriptBuilder.v
Transaction.v
Sha256.v
Serialization.v
Crypto.v
SigHash.v
SigCache.v
Engine.v
EngineSafety.v
EngineRun.v
EngineLogic.v
EngineProps.v
UtxoDiff.v
UtxoAlgebra.v
UtxoAcceptance.v
UtxoRefs.v
UtxoIterator.v
Float64.v
Interval.v
Reachability.v
ReachTree.v
ReachCount.v
ReachPropagate.v
ReachReindex.v
ReachAdd.v
ReachDag.v
ReachConcentrate.v
ReachHistory.v
Difficulty.v
DagTopology.v
Ghostdag.v
GhostdagOrder.v
GhostdagMerge.v
GhostdagColor.v
GhostdagProps.v
DagHistory.v
