(* ===== verification/Prelude.v ===== *)
(** * A verification library for the HTND node

    HTND is the full node of the Hoosat network, a proof-of-work network whose blocks form
    a DAG.  The library is a shallow embedding of the parts of the node on which nodes have
    to agree: whether a script lets a coin be spent, what a signature signs, how blocks
    change the set of unspent coins, and how the blocks of the DAG are ordered.

    ** How the parts interact

    A transaction spends outputs of earlier ones.  Each input has a signature script, the
    output it spends a public key script; the script engine runs both, parses them into
    opcodes, and checks signatures against a hash of the transaction, with a cache of
    signatures that were found valid.  The effect of a block on the unspent outputs is a
    UTXO diff: diffs are composed, reversed and compared while the node moves between
    blocks, and block headers commit to the resulting set by a multiset hash.  A block has
    several parents; GHOSTDAG selects one of them and colors the other blocks it merges blue
    or red, by questions about ancestors.  The reachability manager answers these from
    intervals it keeps on the tree of selected parents and from future covering sets, and
    it builds both from the data GHOSTDAG stored for the blocks.

    ** Files

    Paths are below [src/]; [utils/] and [processes/] stand for
    [domain/consensus/utils/] and [domain/consensus/processes/].

    - [Prelude]: bytes, machine integers, the state-and-error monad, lemmas and tactics.

    Scripts, of [utils/txscript/]:
    - [ScriptError] ([error.go]), [ScriptNum] ([scriptnum.go]), [Stack] ([stack.go]);
    - [OpcodeTable] and [Script]: the opcodes of [opcode.go], the parser and the counts of
      signature operations of [script.go];
    - [ScriptBuilder] ([scriptbuilder.go]);
    - [SigCache] ([sigcache.go], [sigcache_ecdsa.go], [sigcache_mldsa44.go]);
    - [Engine]: the machine of [engine.go] and all handlers of [opcode.go];
      [EngineSafety], [EngineRun], [EngineLogic] and [EngineProps] prove things of it.

    Transactions and hashes:
    - [Transaction] ([domain/consensus/model/externalapi/transaction.go] and constants);
    - [Serialization] ([util/binaryserializer/], [utils/serialization/common.go], the
      encodings of [utils/consensushashing/transaction.go] and
      [utils/utxo/serialization.go]);
    - [Sha256], [Crypto] and [SigHash]: the hash writers of [utils/hashes/] and the
      transaction and signature hashes of [utils/consensushashing/].

    The UTXO set, of [utils/utxo/]:
    - [UtxoDiff] ([utxo_collection.go], [diff_algebra.go], [mutable_utxo_diff.go] by
      value) and [UtxoAlgebra], the meaning of diffs;
    - [UtxoAcceptance] ([acceptance.go]);
    - [UtxoRefs]: the sharing of mutable and immutable diffs ([mutable_utxo_diff.go],
      [immutable_utxo_diff.go], [changed_outpoints.go]) in a heap;
    - [UtxoIterator] ([utxo_iterator.go], [utxo_iterator_with_diff.go]).

    The DAG:
    - [Float64] and [Interval] ([processes/reachabilitymanager/interval.go]);
    - [Reachability]: the other files of [processes/reachabilitymanager/]; [ReachTree],
      [ReachCount], [ReachPropagate], [ReachReindex], [ReachAdd], [ReachDag],
      [ReachConcentrate] and [ReachHistory] prove things of it;
    - [Difficulty] ([util/difficulty/difficulty.go]);
    - [DagTopology] ([processes/dagtopologymanager/dagtopologymanager.go]);
    - [Ghostdag] ([ghostdag.go], [mergeset.go] and [compare.go] of
      [processes/ghostdagmanager/]); [GhostdagOrder], [GhostdagMerge], [GhostdagColor] and
      [GhostdagProps] prove things of it;
    - [DagHistory]: the managers together, as
      [processes/pruningproofmanager/pruningproofmanager.go] drives them.

    ** How the code is translated

    A definition has the name of the function it models, with a prefix where two types have
    a method of one name.  A function without effects is a function.  One that changes its
    receiver or fails is a computation of the monad [M]: a function from the state to an
    outcome (a value, an error, or a run-time panic) and the state after it, which an error
    does not undo.  The state of the script engine is the [Engine] record; that of a builder
    or a writer is what has been built or written; that of [UtxoRefs] is a heap of objects;
    that of the managers of the DAG is the record [dagState] of their stores, with the
    staging area and the database behind it as one map.  Integers are [Z], and wrap where
    the code's type does.  Where Go leaves the order of a map iteration or the value of a
    conversion open, it is a parameter.

    Third-party code is a parameter with its documented laws: the hash functions and
    signature schemes ([Crypto], [CryptoSpec]), and the multiset hash ([MultisetWriter],
    [MultisetLaws]).  The ranking of [dagknight.go] is a parameter of [Ghostdag].

    ** What the theorems show

    - Engine: a run ends without a panic, within the limits on stack and operations; an
      output of a standard form is spent only with a signature of its key, or with the
      script it commits to; multisignatures, lock times, skipped branches and unspendable
      outputs work as described; a reused engine is a new one; caches never change a result.
    - Hashes: a signature hash determines what it is to commit to, reused values do not
      change it, and encodings of transactions are injective.
    - Parsing, numbers, builder, serialization: round trips in both directions, so that only
      canonical encodings are accepted where that is intended, and sizes are exact.
    - UTXO: the operations on diffs are composition, difference and reversal of changes of
      the set, and leave a diff as it was when they fail; replaying acceptance data refines a
      ledger, the multiset commits to it, and removing undoes it; immutable views do not
      change, the comparison restricted to changed outpoints is the full one, and an iterator
      with a diff yields each entry of the changed set once.
    - Reachability: every call keeps the intervals an index of the tree, and over any history
      the queries answer what the GHOSTDAG data say.
    - DAG: over any history of blocks that come after their parents no manager fails,
      [IsAncestorOf] is the closure of the parents, the stored GHOSTDAG data satisfy their
      specification, and the order in which parents are listed does not matter.

    Theorems with hypotheses are followed by an instance at concrete values.

    ** Bounds and fuel

    Recursion that is not structural runs on fuel.  The parser gets the length of the script,
    the loop of [Execute] three times the maximal script size and one more, since at most
    three scripts run, the multisignature loop the number of keys and two more, and the
    resolution of conflicts the size of a collection and one more; these are shown to be
    enough, so results are total.
    The loops of the reachability manager and of GHOSTDAG take their fuel as an argument, and
    are shown to end when it exceeds the number of blocks.  A history may have [n] events as
    long as [n * ((2 * slack + 2) * (n + 2))] is below [2 ^ 64 - 1]: every step takes at most
    [(2 * slack + 2)] units of the interval of the root for each block, so nothing runs out.
    With the [slack] of 4096 of the code this is more than 40 million events.

    ** What is not modelled

    Text output (disassembly, [String] methods, logs) and timers; standard script templates
    and signing ([standard.go], [sign.go], [mldsa44_multisig.go]); the ranking of
    [dagknight.go]; traversal, difficulty adjustment, median time, merge depth and finality;
    validation of blocks and transactions, the consensus state, pruning beyond the insertion
    of the blocks of a proof, and synchronisation; proof of work, merkle trees and MuHash;
    the stores, their caches and the database; mempool and mining; addresses and wallets;
    network, RPC and commands.  Of these, the stores, the network and the commands are input
    and output around the parts modelled here. *)

From Stdlib Require Export ZArith Lia.
From coqutil Require Export Byte Word.LittleEndianList.
From stdpp Require Export base gmap list strings numbers.

Open Scope Z_scope.

(** ** Bytes and byte strings *)

Abbreviation bytes := (list byte).

#[export] Instance byte_eq_decision : EqDecision Init.Byte.byte := Byte.byte_eq_dec.

#[export] Instance byte_countable : Countable Init.Byte.byte :=
  inj_countable Byte.to_N Byte.of_N Byte.of_to_N.

(** [bz b] is the value of a Go [byte]; [zb z] is the conversion [byte(z)]. *)
Abbreviation bz := byte.unsigned.
Abbreviation zb := byte.of_Z.

(** A byte string literal. *)
Definition bytes_of (l : list Z) : bytes := map zb l.

(** The length of a Go slice, as the [int] the code compares. *)
Definition len {A} (l : list A) : Z := Z.of_nat (length l).

(** ** Machine integers

    Values of Go's sized integer types are kept as [Z]; every operation of the
    code that can leave the range of its type is wrapped explicitly. *)

Definition u8 (z : Z) : Z := z mod 2 ^ 8.
Definition u16 (z : Z) : Z := z mod 2 ^ 16.
Definition u32 (z : Z) : Z := z mod 2 ^ 32.
Definition u64 (z : Z) : Z := z mod 2 ^ 64.
Definition i32 (z : Z) : Z := (z + 2 ^ 31) mod 2 ^ 32 - 2 ^ 31.
Definition i64 (z : Z) : Z := (z + 2 ^ 63) mod 2 ^ 64 - 2 ^ 63.

Definition MaxInt32 : Z := 2 ^ 31 - 1.
Definition MinInt32 : Z := - 2 ^ 31.
Definition MaxInt64 : Z := 2 ^ 63 - 1.
Definition MinInt64 : Z := - 2 ^ 63.
Definition MaxUint16 : Z := 2 ^ 16 - 1.
Definition MaxUint32 : Z := 2 ^ 32 - 1.
Definition MaxUint64 : Z := 2 ^ 64 - 1.

Definition is_u8 (z : Z) : Prop := 0 <= z <= 2 ^ 8 - 1.
Definition is_u16 (z : Z) : Prop := 0 <= z <= MaxUint16.
Definition is_u32 (z : Z) : Prop := 0 <= z <= MaxUint32.
Definition is_u64 (z : Z) : Prop := 0 <= z <= MaxUint64.
Definition is_i64 (z : Z) : Prop := MinInt64 <= z <= MaxInt64.

(** ** Outcomes and the state-and-error monad

    A Go function that mutates its receiver and returns [(value, error)] is a
    function from the state to an outcome and the state it leaves behind; the
    state is kept on the error path too, because Go keeps it.  A run-time panic
    (an index out of range, a nil dereference, an explicit [panic]) is an
    outcome of its own. *)

Inductive outcome (E A : Type) : Type :=
| Ret (a : A)
| Err (e : E)
| Panic.
Arguments Ret {E A} a.
Arguments Err {E A} e.
Arguments Panic {E A}.

Definition M (S E A : Type) : Type := S -> outcome E A * S.

Section Monad.
Context {S E : Type}.

Definition ret {A} (a : A) : M S E A := fun s => (Ret a, s).
Definition throw {A} (e : E) : M S E A := fun s => (Err e, s).
Definition panic {A} : M S E A := fun s => (Panic, s).
Definition get : M S E S := fun s => (Ret s, s).
Definition gets {A} (f : S -> A) : M S E A := fun s => (Ret (f s), s).
Definition modify (f : S -> S) : M S E unit := fun s => (Ret tt, f s).

Definition bind {A B} (m : M S E A) (k : A -> M S E B) : M S E B :=
  fun s =>
    match m s with
    | (Ret a, s') => k a s'
    | (Err e, s') => (Err e, s')
    | (Panic, s') => (Panic, s')
    end.

(** [if c { return err }] *)
Definition guard_err (c : bool) (e : E) : M S E unit :=
  if c then throw e else ret tt.

(** An outcome computed without touching the state. *)
Definition lift {A} (o : outcome E A) : M S E A := fun s => (o, s).

(** [x := l[i]] with Go's bounds check. *)
Definition index {A} (l : list A) (i : Z) : M S E A :=
  match (if 0 <=? i then l !! Z.to_nat i else None) with
  | Some a => ret a
  | None => panic
  end.

(** Run a computation on one field of a larger state. *)
Definition zoom {T A} (proj : S -> T) (upd : T -> S -> S) (m : M T E A) : M S E A :=
  fun s => let '(o, t) := m (proj s) in (o, upd t s).

(** Run a computation and observe its error instead of propagating it. *)
Definition try {A} (m : M S E A) : M S E (A + E) :=
  fun s =>
    match m s with
    | (Ret a, s') => (Ret (inl a), s')
    | (Err e, s') => (Ret (inr e), s')
    | (Panic, s') => (Panic, s')
    end.

(** [for i := 0; i < n; i++ { m }] *)
Fixpoint repeatM (n : nat) (m : M S E unit) : M S E unit :=
  match n with
  | O => ret tt
  | Datatypes.S n' => bind m (fun _ => repeatM n' m)
  end.

(** The same, collecting the results in order. *)
Fixpoint collectM {A} (n : nat) (m : M S E A) : M S E (list A) :=
  match n with
  | O => ret []
  | Datatypes.S n' => bind m (fun a => bind (collectM n' m) (fun l => ret (a :: l)))
  end.

(** [for _, x := range l { r = append(r, f(x)) }] *)
Fixpoint traverse {A B} (f : A -> M S E B) (l : list A) : M S E (list B) :=
  match l with
  | [] => ret []
  | x :: l' => bind (f x) (fun y => bind (traverse f l') (fun r => ret (y :: r)))
  end.
End Monad.

Declare Scope go_scope.
Delimit Scope go_scope with go.
Notation "x <- c1 ;; c2" := (bind c1 (fun x => c2))
  (at level 100, c1 at next level, right associativity) : go_scope.
Notation "c1 ;;; c2" := (bind c1 (fun _ => c2))
  (at level 100, right associativity) : go_scope.
Open Scope go_scope.

(** Running a bind whose first computation is known to return. *)
Lemma bind_Ret {S E A B} (m : M S E A) (k : A -> M S E B) (s s' : S) (a : A) :
  m s = (Ret a, s') -> bind m k s = k a s'.
Proof. intros H. unfold bind. by rewrite H. Qed.

Lemma bind_Ret_inv {S E A B} (m : M S E A) (k : A -> M S E B) (s s'' : S) (b : B) :
  bind m k s = (Ret b, s'') -> exists a s', m s = (Ret a, s') /\ k a s' = (Ret b, s'').
Proof. unfold bind. destruct (m s) as [[a| |] s']; try done. eauto. Qed.

Lemma bind_Err {S E A B} (m : M S E A) (k : A -> M S E B) (s s' : S) (e : E) :
  m s = (Err e, s') -> bind m k s = (Err e, s').
Proof. intros H. unfold bind. by rewrite H. Qed.

(** Binds associate. *)
Lemma bind_assoc {S E A B C} (m : M S E A) (f : A -> M S E B) (g : B -> M S E C) s :
  (b <- (a <- m ;; f a) ;; g b) s = (a <- m ;; b <- f a ;; g b) s.
Proof. unfold bind. by destruct (m s) as [[]]. Qed.

Lemma bind_assoc3 {S E A} (m1 m2 m3 : M S E unit) (k : M S E A) s :
  ((m1 ;;; m2 ;;; m3) ;;; k) s = (m1 ;;; m2 ;;; m3 ;;; k) s.
Proof. unfold bind. destruct (m1 s) as [[] s1]; [|done..]. by destruct (m2 s1) as [[] ?]. Qed.

(** ** Reasoning about the monad

    [wp m Q s]: run from [s], the computation does not panic, and if it returns
    normally its result and final state satisfy [Q].  (An error return is
    allowed; properties that exclude errors are stated on the run itself.) *)

Definition wp {S E A} (m : M S E A) (Q : A -> S -> Prop) (s : S) : Prop :=
  match m s with
  | (Ret a, s') => Q a s'
  | (Err _, _) => True
  | (Panic, _) => False
  end.

#[global] Arguments wp : simpl never.

Section Wp.
Context {S E : Type}.
Implicit Types s : S.

Lemma wp_ret {A} (a : A) (Q : A -> S -> Prop) s : Q a s -> wp (E:=E) (ret a) Q s.
Proof. done. Qed.

Lemma wp_throw {A} (e : E) (Q : A -> S -> Prop) s : wp (throw e) Q s.
Proof. done. Qed.

Lemma wp_bind {A B} (m : M S E A) (k : A -> M S E B) Q s :
  wp m (fun a s' => wp (k a) Q s') s -> wp (bind m k) Q s.
Proof. unfold wp, bind. by destruct (m s) as [[]]. Qed.

Lemma wp_mono {A} (m : M S E A) (P Q : A -> S -> Prop) s :
  wp m P s -> (forall a s', P a s' -> Q a s') -> wp m Q s.
Proof. unfold wp. destruct (m s) as [[]]; auto. Qed.

Lemma wp_conj {A} (m : M S E A) (P Q : A -> S -> Prop) s :
  wp m P s -> wp m Q s -> wp m (fun a s' => P a s' /\ Q a s') s.
Proof. unfold wp. destruct (m s) as [[]]; auto. Qed.

Lemma wp_get (Q : S -> S -> Prop) s : Q s s -> wp (E:=E) get Q s.
Proof. done. Qed.

Lemma wp_gets {A} (f : S -> A) (Q : A -> S -> Prop) s : Q (f s) s -> wp (E:=E) (gets f) Q s.
Proof. done. Qed.

Lemma wp_modify (f : S -> S) (Q : unit -> S -> Prop) s : Q tt (f s) -> wp (E:=E) (modify f) Q s.
Proof. done. Qed.

Lemma wp_guard_err (c : bool) (e : E) (Q : unit -> S -> Prop) s :
  (c = false -> Q tt s) -> wp (guard_err c e) Q s.
Proof. unfold wp, guard_err. destruct c; cbn; auto. Qed.

Lemma wp_index {A} (l : list A) (i : Z) (Q : A -> S -> Prop) s :
  0 <= i < len l -> (forall a, l !! Z.to_nat i = Some a -> Q a s) -> wp (E:=E) (index l i) Q s.
Proof.
  intros Hi HQ. unfold wp, index, len in *. destruct (Z.leb_spec 0 i); [|lia].
  destruct (lookup_lt_is_Some_2 l (Z.to_nat i)) as [a Ha]; [lia|].
  rewrite Ha. cbn. auto.
Qed.

Lemma wp_lift {A} (o : outcome E A) (Q : A -> S -> Prop) s :
  (forall a, o = Ret a -> Q a s) -> o <> Panic -> wp (lift o) Q s.
Proof. unfold wp, lift. destruct o; auto. Qed.

Lemma wp_zoom {T A} (proj : S -> T) (upd : T -> S -> S) (m : M T E A) (Q : A -> S -> Prop) s :
  wp m (fun a t => Q a (upd t s)) (proj s) -> wp (zoom proj upd m) Q s.
Proof. unfold wp, zoom. by destruct (m (proj s)) as [[]]. Qed.

Lemma wp_try {A} (m : M S E A) (Q : A + E -> S -> Prop) s :
  wp m (fun a s' => Q (inl a) s') s ->
  (forall e s', m s = (Err e, s') -> Q (inr e) s') ->
  wp (try m) Q s.
Proof. unfold wp, try. destruct (m s) as [[]]; cbn; auto. Qed.

Lemma wp_repeatM (n : nat) (m : M S E unit) (I : nat -> S -> Prop) (Q : unit -> S -> Prop) s :
  I O s ->
  (forall k s', (k < n)%nat -> I k s' -> wp m (fun _ s'' => I (Datatypes.S k) s'') s') ->
  (forall s', I n s' -> Q tt s') ->
  wp (repeatM n m) Q s.
Proof.
  revert I s. induction n as [|n IH]; intros I s H0 Hstep HQ; cbn [repeatM]; [by apply wp_ret, HQ|].
  apply wp_bind. eapply wp_mono; [apply (Hstep O); [lia|done]|]. cbn beta. intros _ s1 H1.
  apply (IH (fun k => I (Datatypes.S k))); [done| |done]. intros k s' Hk. apply Hstep. lia.
Qed.

Lemma wp_collectM {A} (n : nat) (m : M S E A) (I : nat -> S -> Prop) (Q : list A -> S -> Prop) s :
  I O s ->
  (forall k s', I k s' -> wp m (fun _ s'' => I (Datatypes.S k) s'') s') ->
  (forall l s', length l = n -> I n s' -> Q l s') ->
  wp (collectM n m) Q s.
Proof.
  intros H0 Hstep HQ.
  cut (forall n' k s', I k s' ->
         wp (collectM n' m) (fun l s'' => length l = n' /\ I (k + n')%nat s'') s').
  { intros Hgen. eapply wp_mono; [apply (Hgen n O s H0)|]. intros l s' []. auto. }
  induction n' as [|n' IH]; intros k s' HI; cbn [collectM].
  { apply wp_ret. by rewrite Nat.add_0_r. }
  apply wp_bind. eapply wp_mono; [by apply Hstep|]. cbn beta. intros a s1 H1.
  apply wp_bind. eapply wp_mono; [by apply IH|]. cbn beta. intros l s2 [Hl H2].
  apply wp_ret. cbn [length]. split; [lia|]. by rewrite <- Nat.add_succ_comm.
Qed.
End Wp.

(** Step through a monadic computation one primitive at a time. *)
Ltac wp_step :=
  lazymatch goal with
  | |- wp (bind _ _) _ _ => apply wp_bind
  | |- wp (ret _) _ _ => apply wp_ret
  | |- wp (throw _) _ _ => apply wp_throw
  | |- wp get _ _ => apply wp_get
  | |- wp (gets _) _ _ => apply wp_gets
  | |- wp (modify _) _ _ => apply wp_modify
  | |- wp (guard_err _ _) _ _ => apply wp_guard_err; intros ?
  | |- wp (if ?c then _ else _) _ _ => destruct c eqn:?
  end.
Ltac wp_steps := repeat (wp_step; cbn beta).

(** ** Boolean tests of the code, reflected *)

Ltac zbool :=
  repeat match goal with
  | H : (_ && _)%bool = true |- _ => apply andb_prop in H; destruct H
  | H : (_ || _)%bool = false |- _ => apply orb_false_elim in H; destruct H
  | H : negb _ = true |- _ => apply negb_true_iff in H
  | H : negb _ = false |- _ => apply negb_false_iff in H
  | H : (_ <? _) = true |- _ => apply Z.ltb_lt in H
  | H : (_ <? _) = false |- _ => apply Z.ltb_ge in H
  | H : (_ <=? _) = true |- _ => apply Z.leb_le in H
  | H : (_ <=? _) = false |- _ => apply Z.leb_gt in H
  | H : (_ >? _) = true |- _ => rewrite Z.gtb_ltb in H
  | H : (_ >? _) = false |- _ => rewrite Z.gtb_ltb in H
  | H : (_ >=? _) = true |- _ => rewrite Z.geb_leb in H
  | H : (_ >=? _) = false |- _ => rewrite Z.geb_leb in H
  | H : (_ =? _) = true |- _ => apply Z.eqb_eq in H
  | H : (_ =? _) = false |- _ => apply Z.eqb_neq in H
  end.

(** ** Byte facts *)

Lemma bz_range (b : byte) : 0 <= bz b < 256.
Proof. apply byte.unsigned_range. Qed.

Lemma bz_zb (z : Z) : bz (zb z) = z mod 256.
Proof. apply byte.unsigned_of_Z. Qed.

Lemma bz_zb_small (z : Z) : 0 <= z < 256 -> bz (zb z) = z.
Proof. intros. rewrite bz_zb. by apply Z.mod_small. Qed.

Lemma zb_bz (b : byte) : zb (bz b) = b.
Proof. apply byte.of_Z_unsigned. Qed.

Lemma len_nonneg {A} (l : list A) : 0 <= len l.
Proof. unfold len. lia. Qed.

Lemma len_single {A} (a : A) : len [a] = 1.
Proof. done. Qed.

Lemma len_cons {A} (a : A) (l : list A) : len (a :: l) = 1 + len l.
Proof. unfold len. cbn [length]. lia. Qed.

Lemma len_app {A} (l k : list A) : len (l ++ k) = len l + len k.
Proof. unfold len. rewrite length_app. lia. Qed.

(** Indexing inside a list. *)
Lemma index_run {S E A} (l : list A) (k : nat) a (s : S) :
  l !! k = Some a -> index (E:=E) l (Z.of_nat k) s = (Ret a, s).
Proof.
  intros Hk. unfold index. rewrite (proj2 (Z.leb_le 0 _)), Nat2Z.id, Hk by lia. done.
Qed.

Lemma index_middle {S E A} (l r : list A) (x : A) (n : Z) (s : S) :
  n = len l -> index (E:=E) (l ++ x :: r) n s = (Ret x, s).
Proof.
  intros ->. unfold index. pose proof (len_nonneg l).
  destruct (Z.leb_spec 0 (len l)); [|lia].
  rewrite list_lookup_middle; [done|]. unfold len. lia.
Qed.

(** Lengths and ranges: normalise [len], unfold ranges and finish with [lia]. *)
Ltac len_simpl :=
  rewrite ?len_app, ?len_cons in *;
  repeat match goal with
  | |- context [len (@nil ?A)] => change (len (@nil A)) with 0
  | H : context [len (@nil ?A)] |- _ => change (len (@nil A)) with 0 in H
  end.
Ltac unfold_ranges :=
  unfold is_u8, is_u16, is_u32, is_u64, is_i64, MaxInt32, MinInt32, MaxInt64, MinInt64,
    MaxUint16, MaxUint32, MaxUint64 in *.

Create HintDb go.
#[export] Hint Resolve wp_ret wp_throw wp_get wp_gets wp_modify len_nonneg : go.

(** ** Machine-integer facts *)

Lemma i64_id (z : Z) : - 2 ^ 63 <= z < 2 ^ 63 -> i64 z = z.
Proof. intros. unfold i64. rewrite Z.mod_small; lia. Qed.

Lemma i32_id (z : Z) : - 2 ^ 31 <= z < 2 ^ 31 -> i32 z = z.
Proof. intros. unfold i32. rewrite Z.mod_small; lia. Qed.

Lemma i64_high (z : Z) : 2 ^ 63 <= z < 2 ^ 64 -> i64 z = z - 2 ^ 64.
Proof.
  intros. unfold i64.
  replace (z + 2 ^ 63) with (z - 2 ^ 63 + 1 * 2 ^ 64) by lia.
  rewrite Z.mod_add, Z.mod_small; lia.
Qed.

Lemma i64_range (z : Z) : - 2 ^ 63 <= i64 z < 2 ^ 63.
Proof. unfold i64. pose proof (Z.mod_pos_bound (z + 2 ^ 63) (2 ^ 64)). lia. Qed.

(** Bits 0 to 62 of [int64(z)] are those of [z]. *)
Lemma i64_mod_low (z k : Z) : 0 <= k <= 64 -> i64 z mod 2 ^ k = z mod 2 ^ k.
Proof.
  intros Hk. unfold i64.
  rewrite (Z.mod_eq (z + 2 ^ 63) (2 ^ 64)) by lia.
  replace (z + 2 ^ 63 - 2 ^ 64 * ((z + 2 ^ 63) / 2 ^ 64) - 2 ^ 63)
    with (z + - ((z + 2 ^ 63) / 2 ^ 64) * 2 ^ (64 - k) * 2 ^ k).
  - apply Z.mod_add. lia.
  - rewrite <- Z.mul_assoc, <- Z.pow_add_r by lia.
    replace (64 - k + k) with 64 by lia. lia.
Qed.

(** ** Little-endian encodings *)

Lemma testbit_small (a n i : Z) : 0 <= a < 2 ^ n -> n <= i -> Z.testbit a i = false.
Proof.
  intros Ha Hi. destruct (decide (0 <= n)).
  - rewrite <- (Z.mod_small a (2 ^ n)) by lia. apply Z.mod_pow2_bits_high. lia.
  - rewrite Z.pow_neg_r in Ha by lia. lia.
Qed.

Lemma lor_add_low (a b n : Z) : 0 <= n -> 0 <= a < 2 ^ n -> Z.lor a (b * 2 ^ n) = a + b * 2 ^ n.
Proof.
  intros Hn Ha. symmetry. apply Z.add_nocarry_lor.
  apply Z.bits_inj'. intros i Hi. rewrite Z.land_spec, Z.bits_0.
  destruct (Z.ltb_spec i n).
  - rewrite Z.mul_pow2_bits_low by lia. apply andb_false_r.
  - by rewrite (testbit_small a n i).
Qed.

Lemma le_combine_cons (b : byte) (l : bytes) :
  le_combine (b :: l) = bz b + 2 ^ 8 * le_combine l.
Proof.
  change (le_combine (b :: l)) with (Z.lor (bz b) (Z.shiftl (le_combine l) 8)).
  rewrite Z.shiftl_mul_pow2, lor_add_low by (lia || apply bz_range). lia.
Qed.

Lemma le_combine_snoc (l : bytes) (b : byte) :
  le_combine (l ++ [b]) = le_combine l + bz b * 2 ^ (8 * len l).
Proof.
  rewrite le_combine_app, le_combine_1. unfold len.
  rewrite Z.shiftl_mul_pow2, (Z.mul_comm (Z.of_nat _)) by lia.
  apply lor_add_low; [lia|]. apply le_combine_bound.
Qed.

Lemma le_combine_lt (l : bytes) (n : Z) : len l <= n -> le_combine l < 2 ^ (8 * n).
Proof.
  intros Hn. pose proof (le_combine_bound l). unfold len in Hn.
  pose proof (Z.pow_le_mono_r 2 (8 * Z.of_nat (length l)) (8 * n)). lia.
Qed.

Lemma le_combine_le_split (n : nat) (z : Z) :
  0 <= z < 2 ^ (8 * Z.of_nat n) -> le_combine (le_split n z) = z.
Proof. intros. rewrite le_combine_split, Z.mod_small; [done|]. by rewrite Z.mul_comm. Qed.

Lemma len_le_split (n : nat) (z : Z) : len (le_split n z) = Z.of_nat n.
Proof. unfold len. by rewrite length_le_split. Qed.

(** A statement about [zb n] for a byte value [n], by cases on the 256 bytes. *)
Lemma byte_cases (P : Z -> byte -> Prop) (n : Z) :
  (forall b, P (bz b) b) -> 0 <= n < 256 -> P n (zb n).
Proof. intros HP Hn. specialize (HP (zb n)). by rewrite bz_zb_small in HP. Qed.
