(* ===== verification/ScriptError.v ===== *)
(** * Script errors

    The error values of [src/domain/consensus/utils/txscript/error.go].  A Go
    error is modelled by its code; the human-readable description that
    accompanies it is not kept. *)

From S2P Require Import Prelude.

Inductive ErrorCode : Type :=
| ErrInternal
| ErrInvalidFlags
| ErrInvalidIndex
| ErrUnsupportedScriptVersion
| ErrUnsupportedAddress
| ErrNotMultisigScript
| ErrTooManyRequiredSigs
| ErrEarlyReturn
| ErrEmptyStack
| ErrEvalFalse
| ErrScriptUnfinished
| ErrInvalidProgramCounter
| ErrScriptTooBig
| ErrElementTooBig
| ErrTooManyOperations
| ErrStackOverflow
| ErrInvalidPubKeyCount
| ErrInvalidSignatureCount
| ErrNumberTooBig
| ErrVerify
| ErrEqualVerify
| ErrNumEqualVerify
| ErrCheckSigVerify
| ErrCheckMultiSigVerify
| ErrDisabledOpcode
| ErrReservedOpcode
| ErrMalformedPush
| ErrInvalidStackOperation
| ErrUnbalancedConditional
| ErrMinimalData
| ErrInvalidSigHashType
| ErrSigLength
| ErrSigHighS
| ErrNotPushOnly
| ErrPubKeyFormat
| ErrCleanStack
| ErrNullFail
| ErrNegativeLockTime
| ErrUnsatisfiedLockTime
| ErrMinimalIf.

#[export] Instance ErrorCode_eq_dec : EqDecision ErrorCode.
Proof. solve_decision. Defined.

(** [ScriptError c] is an [Error] built by [scriptError]; [OtherError] is an
    error made by another package ([errors.New], [errors.Errorf]). *)
Inductive error : Type :=
| ScriptError (c : ErrorCode)
| OtherError.

#[export] Instance error_eq_dec : EqDecision error.
Proof. solve_decision. Defined.

Definition scriptError {S A} (c : ErrorCode) : M S error A := throw (ScriptError c).

Definition IsErrorCode (e : error) (c : ErrorCode) : bool :=
  match e with
  | ScriptError c' => bool_decide (c' = c)
  | OtherError => false
  end.
