(* ===== verification/ScriptNum.v ===== *)
(** * Script numbers

    The numeric encoding of the script engine,
    [src/domain/consensus/utils/txscript/scriptnum.go].  A [scriptNum] is an
    [int64], kept as a [Z]; the encoding is little endian with a sign bit in
    the most significant byte. *)

From S2P Require Import Prelude ScriptError.

Definition maxInt32 : Z := MaxInt32.
Definition minInt32 : Z := MinInt32.
Definition defaultScriptNumLen : Z := 4.

Definition checkMinimalDataEncoding {S} (v : bytes) : M S error unit :=
  if len v =? 0 then ret tt
  else
    last <- index v (len v - 1) ;;
    if Z.land (bz last) 0x7f =? 0 then
      if len v =? 1 then scriptError ErrMinimalData
      else
        prev <- index v (len v - 2) ;;
        if Z.land (bz prev) 0x80 =? 0 then scriptError ErrMinimalData else ret tt
    else ret tt.

(** The loop [for n > 0 { result = append(result, byte(n&0xff)); n >>= 8 }].
    Eight rounds are enough for every [int64]. *)
Fixpoint encodeLoop (fuel : nat) (n : Z) : bytes :=
  match fuel with
  | O => []
  | S fuel => if n >? 0 then zb (Z.land n 0xff) :: encodeLoop fuel (Z.shiftr n 8) else []
  end.

Definition scriptNum_Bytes {S} (n : Z) : M S error bytes :=
  if n =? 0 then ret []
  else
    let isNegative := n <? 0 in
    let n := if isNegative then i64 (- n) else n in
    let result := encodeLoop 8 n in
    last <- index result (len result - 1) ;;
    if negb (Z.land (bz last) 0x80 =? 0) then
      let extraByte := if isNegative then 0x80 else 0x00 in
      ret (result ++ [zb extraByte])
    else if isNegative then
      ret (<[pred (length result) := zb (Z.lor (bz last) 0x80)]> result)
    else ret result.

Definition scriptNum_Int32 (n : Z) : Z :=
  if n >? maxInt32 then maxInt32
  else if n <? minInt32 then minInt32
  else if n >=? 0 then i32 (u32 n)
  else i32 (- i32 (u32 (i64 (- n)))).

(** The loop [for i, val := range v { result |= int64(val) << (i*8) }]. *)
Fixpoint decodeLoop (i : Z) (v : bytes) (result : Z) : Z :=
  match v with
  | [] => result
  | val :: v' => decodeLoop (i + 1) v' (Z.lor result (i64 (Z.shiftl (bz val) (i * 8))))
  end.

Definition makeScriptNum {S} (v : bytes) (scriptNumLen : Z) : M S error Z :=
  if len v >? scriptNumLen then scriptError ErrNumberTooBig
  else if len v >? 8 then scriptError ErrNumberTooBig
  else
    checkMinimalDataEncoding v ;;;
    if len v =? 0 then ret 0
    else
      let result := decodeLoop 0 v 0 in
      last <- index v (len v - 1) ;;
      if negb (Z.land (bz last) 0x80 =? 0) then
        let result := Z.land result (Z.lnot (i64 (Z.shiftl 0x80 (8 * (len v - 1))))) in
        ret (i64 (- result))
      else ret result.

(** ** The encoding described arithmetically

    [sn_value v] is the integer the byte string [v] stands for, and
    [sn_minimal v] says that no shorter byte string stands for it.  Both are
    independent of the loops and bit operations of the code. *)

Definition sn_value (v : bytes) : Z :=
  match list.last v with
  | None => 0
  | Some x =>
      if 128 <=? bz x then - (le_combine v - 2 ^ (8 * len v - 1)) else le_combine v
  end.

Definition sn_minimal (v : bytes) : bool :=
  match reverse v with
  | [] => true
  | x :: t =>
      negb (bz x mod 128 =? 0) ||
      match t with [] => false | y :: _ => 128 <=? bz y end
  end.

(** *** Bit facts on single bytes *)

Lemma land_7f (b : byte) : Z.land (bz b) 0x7f = bz b mod 128.
Proof. exact (Z.land_ones (bz b) 7 ltac:(lia)). Qed.

Lemma land_80 (b : byte) : (Z.land (bz b) 0x80 =? 0) = negb (128 <=? bz b).
Proof. by destruct b. Qed.

Lemma lor_80 (b : byte) : bz b < 128 -> Z.lor (bz b) 0x80 = bz b + 128.
Proof. destruct b; vm_compute; congruence. Qed.

(** *** Decoding *)

Lemma index_last {S E A} (u : list A) (x : A) (s : S) :
  index (E:=E) (u ++ [x]) (len (u ++ [x]) - 1) s = (Ret x, s).
Proof.
  unfold index. len_simpl.
  pose proof (len_nonneg u). match goal with |- context [0 <=? ?z] => destruct (Z.leb_spec 0 z); [|lia] end.
  rewrite list_lookup_middle; [done|]. unfold len. lia.
Qed.

Lemma index_before_last {S E A} (u : list A) (y x : A) (s : S) :
  index (E:=E) (u ++ [y; x]) (len (u ++ [y; x]) - 2) s = (Ret y, s).
Proof.
  unfold index. len_simpl.
  pose proof (len_nonneg u). match goal with |- context [0 <=? ?z] => destruct (Z.leb_spec 0 z); [|lia] end.
  rewrite list_lookup_middle; [done|]. unfold len. lia.
Qed.

Lemma checkMinimalDataEncoding_spec {S} (v : bytes) (s : S) :
  checkMinimalDataEncoding v s =
  (if sn_minimal v then Ret tt else Err (ScriptError ErrMinimalData), s).
Proof.
  unfold checkMinimalDataEncoding, sn_minimal.
  destruct v as [|x u _] using rev_ind; [done|].
  rewrite reverse_snoc.
  destruct (Z.eqb_spec (len (u ++ [x])) 0).
  { len_simpl. pose proof (len_nonneg u). lia. }
  unfold bind. rewrite index_last, land_7f.
  destruct (bz x mod 128 =? 0); cbn [negb orb]; [|done].
  destruct u as [|y u _] using rev_ind; [done|].
  rewrite reverse_snoc, <- app_assoc. cbn [app].
  destruct (Z.eqb_spec (len (u ++ [y; x])) 1).
  { len_simpl. pose proof (len_nonneg u). lia. }
  rewrite index_before_last, land_80. by destruct (128 <=? bz y).
Qed.

Lemma lor_shift_byte (acc i : Z) (b : byte) :
  0 <= i <= 7 -> 0 <= acc < 2 ^ (8 * i) ->
  Z.lor (i64 acc) (i64 (Z.shiftl (bz b) (i * 8))) = i64 (acc + bz b * 2 ^ (8 * i)).
Proof.
  intros Hi Hacc. pose proof (bz_range b) as Hb.
  rewrite Z.shiftl_mul_pow2, (Z.mul_comm i) by lia.
  assert (2 ^ (8 * i) <= 2 ^ 56) by (apply Z.pow_le_mono_r; lia).
  assert (0 < 2 ^ (8 * i)) by lia.
  rewrite (i64_id acc) by lia.
  destruct (decide (bz b * 2 ^ (8 * i) < 2 ^ 63)) as [Hlow|Hhigh].
  - rewrite (i64_id (bz b * _)) by nia. rewrite lor_add_low by lia.
    symmetry. apply i64_id. split; [nia|].
    assert (i = 7 \/ i <= 6) as [->|] by lia.
    + assert (bz b < 128) by lia. lia.
    + assert (2 ^ (8 * i) <= 2 ^ 48) by (apply Z.pow_le_mono_r; lia). nia.
  - assert (i = 7) as ->.
    { assert (i = 7 \/ i <= 6) as [->|] by lia; [done|].
      assert (2 ^ (8 * i) <= 2 ^ 48) by (apply Z.pow_le_mono_r; lia). nia. }
    change (8 * 7) with 56 in *.
    rewrite (i64_high (bz b * _)), (i64_high (acc + _)) by lia.
    replace (bz b * 2 ^ 56 - 2 ^ 64) with ((bz b - 256) * 2 ^ 56) by lia.
    rewrite lor_add_low by lia. lia.
Qed.

Lemma decodeLoop_spec (v : bytes) (i acc : Z) :
  0 <= i -> i + len v <= 8 -> 0 <= acc < 2 ^ (8 * i) ->
  decodeLoop i v (i64 acc) = i64 (acc + 2 ^ (8 * i) * le_combine v).
Proof.
  revert i acc. induction v as [|b v IH]; intros i acc Hi Hlen Hacc; cbn [decodeLoop].
  { rewrite le_combine_nil. f_equal. lia. }
  len_simpl. pose proof (len_nonneg v). pose proof (bz_range b).
  rewrite lor_shift_byte, IH by (lia || (rewrite ?Z.mul_add_distr_l, ?Z.pow_add_r by lia; nia)).
  f_equal. rewrite le_combine_cons, Z.mul_add_distr_l, Z.pow_add_r by lia. lia.
Qed.

(** Clearing the sign bit leaves the magnitude. *)
Lemma clear_sign_bit (u : bytes) (x : byte) :
  len u <= 7 -> 128 <= bz x ->
  Z.land (i64 (le_combine (u ++ [x]))) (Z.lnot (i64 (Z.shiftl 0x80 (8 * len u)))) =
  le_combine (u ++ [x]) - 2 ^ (8 * len (u ++ [x]) - 1).
Proof.
  intros Hu Hx. pose proof (len_nonneg u). pose proof (bz_range x).
  set (n := 8 * len u + 7).
  assert (8 * len (u ++ [x]) - 1 = n) as -> by (len_simpl; lia).
  assert (2 ^ n = 128 * 2 ^ (8 * len u)) as Hn by (unfold n; rewrite Z.pow_add_r by lia; lia).
  pose proof (le_combine_bound u) as Hbu. fold (len u) in Hbu.
  rewrite le_combine_snoc. set (m := le_combine u + (bz x - 128) * 2 ^ (8 * len u)).
  assert (0 <= m < 2 ^ n) by (unfold m; nia).
  replace (le_combine u + bz x * 2 ^ (8 * len u)) with (m + 2 ^ n) by (unfold m; lia).
  replace (m + 2 ^ n - 2 ^ n) with m by lia.
  replace (Z.shiftl 0x80 (8 * len u)) with (2 ^ n)
    by (rewrite Z.shiftl_mul_pow2 by lia; lia).
  destruct (decide (len u = 7)) as [E|E].
  - assert (n = 63) as -> by (unfold n; lia).
    rewrite (i64_high (m + _)), (i64_high (2 ^ 63)) by lia.
    change (Z.lnot (2 ^ 63 - 2 ^ 64)) with (Z.ones 63).
    rewrite Z.land_ones by lia.
    replace (m + 2 ^ 63 - 2 ^ 64) with (m + (-1) * 2 ^ 63) by lia.
    rewrite Z.mod_add, Z.mod_small; lia.
  - assert (2 ^ n <= 2 ^ 62) by (apply Z.pow_le_mono_r; unfold n; lia).
    rewrite !i64_id by lia. fold (Z.ldiff (m + 2 ^ n) (2 ^ n)).
    apply Z.bits_inj'. intros i Hi. rewrite Z.land_spec, Z.lnot_spec, Z.pow2_bits_eqb by lia.
    rewrite <- (Z.mul_1_l (2 ^ n)), <- lor_add_low, Z.lor_spec by lia.
    rewrite Z.mul_1_l, Z.pow2_bits_eqb by lia.
    destruct (Z.eqb_spec n i) as [<-|]; cbn.
    + rewrite (testbit_small m n n) by lia. done.
    + by rewrite orb_false_r, andb_true_r.
Qed.

Lemma makeScriptNum_spec {S} (v : bytes) (k : Z) (s : S) :
  makeScriptNum v k s =
  (if (len v >? k) || (len v >? 8) then Err (ScriptError ErrNumberTooBig)
   else if sn_minimal v then Ret (sn_value v) else Err (ScriptError ErrMinimalData), s).
Proof.
  unfold makeScriptNum. destruct (len v >? k); [done|].
  destruct (len v >? 8) eqn:H8; [done|]. cbn [orb]. unfold bind.
  rewrite checkMinimalDataEncoding_spec. destruct (sn_minimal v); [|done].
  unfold sn_value. destruct v as [|x u _] using rev_ind; [done|].
  zbool. rewrite last_snoc.
  assert (len (u ++ [x]) - 1 = len u) as Hl by (len_simpl; lia).
  pose proof (len_nonneg u).
  destruct (Z.eqb_spec (len (u ++ [x])) 0); [lia|].
  rewrite index_last, Hl.
  pose proof (decodeLoop_spec (u ++ [x]) 0 0) as Hd. change (i64 0) with 0 in Hd.
  rewrite Hd by lia. rewrite Z.add_0_l, Z.mul_1_l, land_80, negb_involutive.
  pose proof (le_combine_bound u) as Hb. fold (len u) in Hb.
  assert (2 ^ (8 * len u) <= 2 ^ 56) by (apply Z.pow_le_mono_r; lia).
  pose proof (bz_range x).
  destruct (Z.leb_spec 128 (bz x)) as [Hx|Hx]; unfold ret; do 2 f_equal.
  - rewrite clear_sign_bit by lia. apply i64_id.
    replace (8 * len (u ++ [x]) - 1) with (8 * len u + 7) by lia.
    rewrite le_combine_snoc, Z.pow_add_r by lia. nia.
  - rewrite le_combine_snoc. apply i64_id. nia.
Qed.

(** *** Encoding *)

(** A magnitude without leading zero bytes. *)
Definition no_leading_zero (w : bytes) : Prop :=
  match list.last w with Some x => 0 < bz x | None => True end.

Lemma no_leading_zero_tail (b : byte) (w : bytes) :
  no_leading_zero (b :: w) -> no_leading_zero w.
Proof. destruct w as [|c w]; [done|]. unfold no_leading_zero. by rewrite last_cons_cons. Qed.

Lemma no_leading_zero_pos (w : bytes) : no_leading_zero w -> w <> [] -> 0 < le_combine w.
Proof.
  destruct w as [|x u _] using rev_ind; [done|]. unfold no_leading_zero.
  rewrite last_snoc, le_combine_snoc. intros Hx _.
  pose proof (le_combine_bound u). pose proof (len_nonneg u).
  assert (0 < 2 ^ (8 * len u)) by lia. nia.
Qed.

Lemma encodeLoop_value (fuel : nat) (n : Z) :
  0 <= n < 2 ^ (8 * Z.of_nat fuel) ->
  le_combine (encodeLoop fuel n) = n /\ no_leading_zero (encodeLoop fuel n) /\
  (length (encodeLoop fuel n) <= fuel)%nat.
Proof.
  revert n. induction fuel as [|fuel IH]; intros n Hn; cbn [encodeLoop].
  { assert (n = 0) as -> by (change (2 ^ _) with 1 in Hn; lia). done. }
  destruct (Z.gtb_spec n 0) as [Hp|]; cycle 1.
  { assert (n = 0) as -> by lia. split_and!; [done|done|cbn; lia]. }
  rewrite Z.shiftr_div_pow2 by lia. change 0xff with (Z.ones 8). rewrite Z.land_ones by lia.
  replace (8 * Z.of_nat (S fuel)) with (8 + 8 * Z.of_nat fuel) in Hn by lia.
  rewrite Z.pow_add_r in Hn by lia.
  destruct (IH (n / 2 ^ 8)) as (Hv & Hz & Hl).
  { split; [apply Z.div_pos; lia|]. apply Z.div_lt_upper_bound; lia. }
  assert (bz (zb (n mod 2 ^ 8)) = n mod 2 ^ 8) as Hb
    by (apply bz_zb_small, Z.mod_pos_bound; lia).
  pose proof (Z.div_mod n (2 ^ 8) ltac:(lia)) as Hdm.
  split_and!; [rewrite le_combine_cons, Hv, Hb; lia| |cbn; lia].
  destruct (encodeLoop fuel (n / 2 ^ 8)) as [|c w] eqn:E.
  - rewrite le_combine_nil in Hv. unfold no_leading_zero. cbn. rewrite Hb. lia.
  - unfold no_leading_zero in *. by rewrite last_cons_cons.
Qed.

Lemma encodeLoop_combine (w : bytes) (fuel : nat) :
  no_leading_zero w -> (length w <= fuel)%nat -> encodeLoop fuel (le_combine w) = w.
Proof.
  revert fuel. induction w as [|b w IH]; intros fuel Hz Hl.
  { rewrite le_combine_nil. by destruct fuel. }
  destruct fuel as [|fuel]; [cbn in Hl; lia|]. cbn [encodeLoop].
  pose proof (no_leading_zero_pos _ Hz) as Hp. specialize (Hp ltac:(done)).
  destruct (Z.gtb_spec (le_combine (b :: w)) 0); [|lia].
  rewrite Z.shiftr_div_pow2 by lia. change 0xff with (Z.ones 8).
  rewrite Z.land_ones, le_combine_cons by lia.
  pose proof (bz_range b). rewrite (Z.mul_comm (2 ^ 8)).
  rewrite Z.div_add, Z.mod_add, Z.div_small, Z.mod_small, zb_bz by lia.
  f_equal. apply IH; [by eapply no_leading_zero_tail|cbn in Hl; lia].
Qed.

(** The bytes appended or merged for the sign. *)
Definition with_sign (neg : bool) (u : bytes) (x : byte) : bytes :=
  if 128 <=? bz x then u ++ [x; zb (if neg then 0x80 else 0)]
  else u ++ [if neg then zb (bz x + 128) else x].

Lemma scriptNum_Bytes_shape {S} (n : Z) (u : bytes) (x : byte) (s : S) :
  n <> 0 -> encodeLoop 8 (if n <? 0 then i64 (- n) else n) = u ++ [x] ->
  scriptNum_Bytes n s = (Ret (with_sign (n <? 0) u x), s).
Proof.
  intros Hn E. unfold scriptNum_Bytes, with_sign. rewrite E.
  destruct (Z.eqb_spec n 0); [done|]. unfold bind.
  rewrite index_last, land_80, negb_involutive.
  destruct (Z.leb_spec 128 (bz x)) as [Hx|Hx]; [by rewrite <- app_assoc|].
  destruct (n <? 0); [|done]. unfold ret. rewrite lor_80 by lia. do 2 f_equal.
  rewrite length_app, Nat.add_comm. cbn [length Nat.add Nat.pred].
  by rewrite <- (Nat.add_0_r (length u)), insert_app_r.
Qed.

Lemma with_sign_value (neg : bool) (u : bytes) (x : byte) :
  sn_value (with_sign neg u x) =
  (if neg then -1 else 1) * le_combine (u ++ [x]).
Proof.
  unfold with_sign, sn_value. pose proof (bz_range x). pose proof (len_nonneg u).
  destruct (Z.leb_spec 128 (bz x)) as [Hx|Hx].
  - replace (u ++ [x; zb (if neg then 0x80 else 0)])
      with ((u ++ [x]) ++ [zb (if neg then 0x80 else 0)]) by by rewrite <- app_assoc.
    rewrite last_snoc, le_combine_snoc. len_simpl.
    destruct neg; rewrite bz_zb_small by lia.
    + replace (8 * (len u + (1 + 0) + (1 + 0)) - 1) with (8 * (len u + (1 + 0)) + 7) by lia.
      rewrite Z.pow_add_r by lia. cbn [Z.leb]. change (128 <=? 128) with true. cbn iota. lia.
    + change (128 <=? 0) with false. cbn iota. lia.
  - rewrite last_snoc, !le_combine_snoc. len_simpl.
    destruct neg.
    + rewrite bz_zb_small by lia. destruct (Z.leb_spec 128 (bz x + 128)); [|lia].
      replace (8 * (len u + (1 + 0)) - 1) with (8 * len u + 7) by lia.
      rewrite Z.pow_add_r by lia. lia.
    + destruct (Z.leb_spec 128 (bz x)); lia.
Qed.

Lemma with_sign_minimal (neg : bool) (u : bytes) (x : byte) :
  0 < bz x -> sn_minimal (with_sign neg u x) = true.
Proof.
  intros Hx. pose proof (bz_range x). unfold with_sign, sn_minimal.
  destruct (Z.leb_spec 128 (bz x)).
  - rewrite reverse_app. cbn. destruct (Z.leb_spec 128 (bz x)); [|lia].
    apply orb_true_r.
  - rewrite reverse_snoc. destruct neg.
    + rewrite bz_zb_small by lia.
      replace (bz x + 128) with (bz x + 1 * 128) by lia.
      rewrite Z.mod_add, Z.mod_small by lia. by destruct (Z.eqb_spec (bz x) 0); [lia|].
    + rewrite Z.mod_small by lia. by destruct (Z.eqb_spec (bz x) 0); [lia|].
Qed.

(** Every [int64] but the least one has an encoding, which is minimal and
    stands for it. *)
Lemma scriptNum_Bytes_spec (n : Z) :
  MinInt64 < n <= MaxInt64 ->
  exists bs, sn_minimal bs = true /\ sn_value bs = n /\
    forall S (s : S), scriptNum_Bytes n s = (Ret bs, s).
Proof.
  unfold_ranges. intros Hn.
  destruct (decide (n = 0)) as [->|Hn0]; [by exists []|].
  set (m := if n <? 0 then i64 (- n) else n).
  assert (m = Z.abs n) as Hm.
  { unfold m. destruct (Z.ltb_spec n 0); [rewrite i64_id|]; lia. }
  destruct (encodeLoop_value 8 m) as (Hv & Hz & _).
  { change (8 * Z.of_nat 8) with 64. lia. }
  destruct (encodeLoop 8 m) as [|x u _] eqn:E using rev_ind.
  { rewrite le_combine_nil in Hv. lia. }
  unfold no_leading_zero in Hz. rewrite last_snoc in Hz.
  exists (with_sign (n <? 0) u x). split_and!.
  - by apply with_sign_minimal.
  - rewrite with_sign_value, Hv, Hm. destruct (Z.ltb_spec n 0); lia.
  - intros S s. by apply scriptNum_Bytes_shape.
Qed.

(** Every minimal non-empty encoding is a magnitude with a sign. *)
Lemma sn_minimal_decompose (v : bytes) :
  sn_minimal v = true -> v <> [] ->
  exists neg u x, v = with_sign neg u x /\ 0 < bz x /\
    len v = len u + (if 128 <=? bz x then 2 else 1).
Proof.
  destruct v as [|x u _] using rev_ind; [done|]. intros Hm _.
  unfold sn_minimal in Hm. rewrite reverse_snoc in Hm. pose proof (bz_range x).
  destruct (Z.eqb_spec (bz x mod 128) 0) as [E|E]; cbn [negb orb] in Hm.
  - destruct u as [|y u _] using rev_ind; [done|].
    rewrite reverse_snoc in Hm. zbool. exists (128 <=? bz x), u, y.
    unfold with_sign. destruct (Z.leb_spec 128 (bz y)); [|lia].
    split_and!; [|lia|len_simpl; lia].
    rewrite <- app_assoc. cbn [app]. do 3 f_equal. rewrite <- (zb_bz x) at 1. f_equal.
    destruct (Z.leb_spec 128 (bz x)).
    + assert (bz x = 128 + (bz x - 128)) as Hx by lia. rewrite Hx in E.
      rewrite <- Z.add_mod_idemp_l in E by lia. change (128 mod 128) with 0 in E.
      rewrite Z.mod_small in E; lia.
    + rewrite Z.mod_small in E; lia.
  - set (x' := zb (bz x mod 128)).
    assert (bz x' = bz x mod 128) as Hx'.
    { apply bz_zb_small. pose proof (Z.mod_pos_bound (bz x) 128). lia. }
    pose proof (Z.mod_pos_bound (bz x) 128 ltac:(lia)).
    exists (128 <=? bz x), u, x'. unfold with_sign.
    destruct (Z.leb_spec 128 (bz x')); [lia|].
    split_and!; [|lia|len_simpl; lia]. do 2 f_equal.
    rewrite Hx'. destruct (Z.leb_spec 128 (bz x)).
    + rewrite <- (zb_bz x) at 1. f_equal.
      replace (bz x) with (bz x - 128 + 1 * 128) at 2 by lia.
      rewrite Z.mod_add, Z.mod_small; lia.
    + unfold x'. by rewrite Z.mod_small, zb_bz by lia.
Qed.

(** A minimal encoding is the one the encoder produces for its value. *)
Lemma scriptNum_Bytes_value {S} (v : bytes) (s : S) :
  sn_minimal v = true -> len v <= 8 -> scriptNum_Bytes (sn_value v) s = (Ret v, s).
Proof.
  intros Hm Hl. destruct (decide (v = [])) as [->|Hv]; [done|].
  destruct (sn_minimal_decompose v Hm Hv) as (neg & u & x & -> & Hx & Hlen).
  rewrite with_sign_value.
  pose proof (bz_range x). pose proof (len_nonneg u).
  pose proof (le_combine_bound u) as Hb. fold (len u) in Hb.
  set (m := le_combine (u ++ [x])).
  assert (0 < m < 2 ^ 63) as Hmr.
  { unfold m. rewrite le_combine_snoc. split; [nia|].
    destruct (Z.leb_spec 128 (bz x)).
    - assert (2 ^ (8 * len u) <= 2 ^ 48) by (apply Z.pow_le_mono_r; lia). nia.
    - assert (2 ^ (8 * len u) <= 2 ^ 56) by (apply Z.pow_le_mono_r; lia). nia. }
  set (n := (if neg then -1 else 1) * m).
  assert ((n <? 0) = neg) as Hneg by (unfold n; destruct neg; lia).
  rewrite <- Hneg. apply scriptNum_Bytes_shape; [unfold n; destruct neg; lia|].
  assert ((if n <? 0 then i64 (- n) else n) = m) as ->.
  { rewrite Hneg. unfold n. destruct neg; [rewrite i64_id|]; lia. }
  apply encodeLoop_combine.
  - unfold no_leading_zero. by rewrite last_snoc.
  - assert (len (u ++ [x]) <= 8) as H8 by (len_simpl; destruct (128 <=? bz x); lia).
    unfold len in H8. lia.
Qed.

(** A minimal encoding is as short as the magnitude of its value allows. *)
Lemma sn_minimal_length (v : bytes) (k : Z) :
  sn_minimal v = true -> 1 <= k -> - 2 ^ (8 * k - 1) < sn_value v < 2 ^ (8 * k - 1) -> len v <= k.
Proof.
  intros Hm Hk Hr. destruct (decide (v = [])) as [->|Hv]; [len_simpl; lia|].
  destruct (sn_minimal_decompose v Hm Hv) as (neg & u & x & -> & Hx & ->).
  rewrite with_sign_value in Hr. rewrite le_combine_snoc in Hr.
  pose proof (bz_range x). pose proof (len_nonneg u).
  pose proof (le_combine_bound u) as Hb.
  destruct (Z.leb_spec 128 (bz x)).
  - assert (2 ^ (8 * len u + 7) < 2 ^ (8 * k - 1)) as Hlt%Z.pow_lt_mono_r_iff; [|lia..].
    rewrite Z.pow_add_r by lia. destruct neg; nia.
  - assert (2 ^ (8 * len u) < 2 ^ (8 * k - 1)) as Hlt%Z.pow_lt_mono_r_iff; [|lia..].
    destruct neg; nia.
Qed.

Lemma sn_value_range (v : bytes) (k : Z) :
  len v <= k -> 1 <= k -> - 2 ^ (8 * k - 1) < sn_value v < 2 ^ (8 * k - 1).
Proof.
  intros Hl Hk. unfold sn_value. destruct v as [|x u _] using rev_ind;
    [cbn; assert (0 < 2 ^ (8 * k - 1)) by (apply Z.pow_pos_nonneg; lia); lia|].
  rewrite last_snoc, le_combine_snoc. len_simpl. pose proof (bz_range x).
  pose proof (len_nonneg u). pose proof (le_combine_bound u) as Hb. fold (len u) in Hb.
  replace (8 * (len u + (1 + 0)) - 1) with (8 * len u + 7) by lia.
  assert (2 ^ (8 * len u + 7) <= 2 ^ (8 * k - 1)) as Hle by (apply Z.pow_le_mono_r; lia).
  rewrite Z.pow_add_r in * by lia.
  destruct (Z.leb_spec 128 (bz x)); nia.
Qed.

(** The codomain of [PopInt]: four bytes give the range the code documents. *)
Lemma makeScriptNum_range {S} (v : bytes) (k n : Z) (s s' : S) :
  1 <= k <= 8 -> makeScriptNum v k s = (Ret n, s') -> - 2 ^ (8 * k - 1) < n < 2 ^ (8 * k - 1).
Proof.
  intros Hk. rewrite makeScriptNum_spec.
  destruct ((len v >? k) || (len v >? 8)) eqn:E; [done|].
  destruct (sn_minimal v); [|done]. intros [= <- _]. zbool. apply sn_value_range; lia.
Qed.

(** ** Properties *)

(** C36. Encoding then decoding a script number is the identity: every integer
    whose magnitude fits [k] sign-and-magnitude bytes ([k] at most 8) is encoded
    without error and decoded, under the length limit [k], to itself. *)
Theorem makeScriptNum_Bytes_roundtrip (n k : Z) :
  1 <= k <= 8 -> - 2 ^ (8 * k - 1) < n < 2 ^ (8 * k - 1) ->
  forall S (s : S), exists bs,
    scriptNum_Bytes n s = (Ret bs, s) /\ makeScriptNum bs k s = (Ret n, s).
Proof.
  intros Hk Hn S s.
  assert (2 ^ (8 * k - 1) <= 2 ^ 63) by (apply Z.pow_le_mono_r; lia).
  destruct (scriptNum_Bytes_spec n) as (bs & Hm & Hv & Hb); [unfold_ranges; lia|].
  exists bs. split; [by apply Hb|]. rewrite makeScriptNum_spec, Hm, Hv.
  assert (len bs <= k) by (apply sn_minimal_length; [done|lia|by rewrite Hv]).
  destruct (Z.gtb_spec (len bs) k); [lia|]. by destruct (Z.gtb_spec (len bs) 8); [lia|].
Qed.

Lemma makeScriptNum_Bytes_roundtrip_witness :
  exists bs, scriptNum_Bytes (-2147483647) tt = (Ret bs, tt) /\
    makeScriptNum bs 4 tt = (Ret (-2147483647), tt).
Proof. apply (makeScriptNum_Bytes_roundtrip (-2147483647) 4); lia. Defined.

(** C37. Script numbers have no malleable encodings: a byte string accepted by
    [makeScriptNum] is exactly the byte string that encodes its value. *)
Theorem makeScriptNum_canonical {S} (v : bytes) (k n : Z) (s s' : S) :
  makeScriptNum v k s = (Ret n, s') -> scriptNum_Bytes n s = (Ret v, s).
Proof.
  rewrite makeScriptNum_spec. destruct ((len v >? k) || (len v >? 8)) eqn:E; [done|].
  destruct (sn_minimal v) eqn:Hm; [|done]. intros [= <- _]. zbool.
  apply scriptNum_Bytes_value; [done|lia].
Qed.

Lemma makeScriptNum_canonical_witness :
  scriptNum_Bytes (-128) tt = (Ret [zb 0x80; zb 0x80], tt).
Proof. apply (makeScriptNum_canonical [zb 0x80; zb 0x80] 4 (-128) tt tt). reflexivity. Defined.

(** Encoding an [int64] fails exactly on the least one: [-n] wraps around to
    itself there, the encoding loop does not run, and the index of the last byte
    of the empty result is out of range. *)
Theorem scriptNum_Bytes_panic {S} (n : Z) (s : S) :
  is_i64 n -> (scriptNum_Bytes n s = (Panic, s) <-> n = MinInt64).
Proof.
  intros Hn. split; [|by intros ->].
  intros Hp. destruct (decide (n = MinInt64)) as [|Hne]; [done|exfalso].
  destruct (scriptNum_Bytes_spec n) as (bs & _ & _ & Hb); [unfold_ranges; lia|].
  rewrite Hb in Hp. done.
Qed.

Lemma scriptNum_Bytes_panic_witness :
  scriptNum_Bytes (-9223372036854775808) tt = (Panic, tt) <-> -9223372036854775808 = MinInt64.
Proof. apply (scriptNum_Bytes_panic (-9223372036854775808) tt). unfold_ranges. lia. Defined.
