(* ===== verification/Stack.v ===== *)
(** * The script stack

    [src/domain/consensus/utils/txscript/stack.go].  A stack is the slice the
    code keeps, bottom first, so the top item is the last element and
    [[... x1 x2]] of the source's comments is [l ++ [x1; x2]].  Every method is
    a computation on that slice which may fail with a script error, or panic. *)

From S2P Require Import Prelude ScriptError ScriptNum.

Abbreviation stack := (list bytes).

Definition checkedStackSize {S} (size : Z) : M S error Z :=
  if size >? MaxInt32 then panic else ret (i32 size).

Fixpoint asBool (t : bytes) : bool :=
  match t with
  | [] => false
  | b :: t' =>
      if negb (bz b =? 0) then negb (bool_decide (t' = []) && (bz b =? 0x80))
      else asBool t'
  end.

Definition fromBool (v : bool) : bytes := if v then [zb 1] else [].

Definition Depth : M stack error Z :=
  stk <- get ;;
  checkedStackSize (len stk).

Definition PushByteArray (so : bytes) : M stack error unit :=
  modify (fun stk => stk ++ [so]).

Definition PushInt (val : Z) : M stack error unit :=
  so <- scriptNum_Bytes val ;;
  PushByteArray so.

Definition PushBool (val : bool) : M stack error unit := PushByteArray (fromBool val).

Definition nipN (idx : Z) : M stack error bytes :=
  stk <- get ;;
  sz <- checkedStackSize (len stk) ;;
  if (idx <? 0) || (idx >? sz - 1) then scriptError ErrInvalidStackOperation
  else
    so <- index stk (sz - idx - 1) ;;
    (if idx =? 0 then modify (fun stk => take (Z.to_nat (sz - 1)) stk)
     else if idx =? sz - 1 then modify (fun stk => drop 1 stk)
     else modify (fun stk =>
       take (Z.to_nat (sz - idx - 1)) stk ++ drop (Z.to_nat (sz - idx)) stk)) ;;;
    ret so.

Definition PopByteArray : M stack error bytes := nipN 0.

Definition PopInt : M stack error Z :=
  so <- PopByteArray ;;
  makeScriptNum so defaultScriptNumLen.

Definition PopBool : M stack error bool :=
  so <- PopByteArray ;;
  ret (asBool so).

Definition PeekByteArray (idx : Z) : M stack error bytes :=
  stk <- get ;;
  sz <- checkedStackSize (len stk) ;;
  if (idx <? 0) || (idx >=? sz) then scriptError ErrInvalidStackOperation
  else index stk (sz - idx - 1).

Definition PeekInt (idx : Z) : M stack error Z :=
  so <- PeekByteArray idx ;;
  makeScriptNum so defaultScriptNumLen.

Definition PeekBool (idx : Z) : M stack error bool :=
  so <- PeekByteArray idx ;;
  ret (asBool so).

Definition NipN (idx : Z) : M stack error unit :=
  nipN idx ;;;
  ret tt.

Definition Tuck : M stack error unit :=
  so2 <- PopByteArray ;;
  so1 <- PopByteArray ;;
  PushByteArray so2 ;;;
  PushByteArray so1 ;;;
  PushByteArray so2.

Definition DropN (n : Z) : M stack error unit :=
  if n <? 1 then scriptError ErrInvalidStackOperation
  else repeatM (Z.to_nat n) (PopByteArray ;;; ret tt).

Definition DupN (n : Z) : M stack error unit :=
  if n <? 1 then scriptError ErrInvalidStackOperation
  else repeatM (Z.to_nat n) (so <- PeekByteArray (n - 1) ;; PushByteArray so).

Definition RotN (n : Z) : M stack error unit :=
  if n <? 1 then scriptError ErrInvalidStackOperation
  else
    let entry := i32 (i32 (3 * n) - 1) in
    repeatM (Z.to_nat n) (so <- nipN entry ;; PushByteArray so).

Definition SwapN (n : Z) : M stack error unit :=
  if n <? 1 then scriptError ErrInvalidStackOperation
  else
    let entry := i32 (i32 (2 * n) - 1) in
    repeatM (Z.to_nat n) (so <- nipN entry ;; PushByteArray so).

Definition OverN (n : Z) : M stack error unit :=
  if n <? 1 then scriptError ErrInvalidStackOperation
  else
    let entry := i32 (i32 (2 * n) - 1) in
    repeatM (Z.to_nat n) (so <- PeekByteArray entry ;; PushByteArray so).

Definition PickN (n : Z) : M stack error unit :=
  so <- PeekByteArray n ;;
  PushByteArray so.

Definition RollN (n : Z) : M stack error unit :=
  so <- nipN n ;;
  PushByteArray so.

(** ** Elementary operations *)

(** The size a stack must stay below for its depth to be an [int32]. *)
Definition fits (stk : stack) : Prop := len stk <= MaxInt32.

Lemma checkedStackSize_fits {S} (stk : stack) (s : S) :
  fits stk -> checkedStackSize (len stk) s = (Ret (len stk), s).
Proof.
  unfold fits, checkedStackSize. intros H. pose proof (len_nonneg stk).
  destruct (Z.gtb_spec (len stk) MaxInt32); [lia|].
  unfold ret. rewrite i32_id; [done|]. unfold_ranges. lia.
Qed.

Lemma PeekByteArray_middle (l r : stack) (x : bytes) :
  fits (l ++ x :: r) -> PeekByteArray (len r) (l ++ x :: r) = (Ret x, l ++ x :: r).
Proof.
  intros Hf. unfold PeekByteArray, bind, get. rewrite checkedStackSize_fits by done.
  pose proof (len_nonneg l). pose proof (len_nonneg r).
  destruct (Z.ltb_spec (len r) 0); [lia|]. rewrite Z.geb_leb.
  destruct (Z.leb_spec (len (l ++ x :: r)) (len r)); [len_simpl; lia|]. cbn [orb].
  apply index_middle. len_simpl. lia.
Qed.

Lemma nipN_middle (l r : stack) (x : bytes) :
  fits (l ++ x :: r) -> nipN (len r) (l ++ x :: r) = (Ret x, l ++ r).
Proof.
  intros Hf. unfold nipN, bind, get. rewrite checkedStackSize_fits by done.
  pose proof (len_nonneg l). pose proof (len_nonneg r).
  destruct (Z.ltb_spec (len r) 0); [lia|].
  destruct (Z.gtb_spec (len r) (len (l ++ x :: r) - 1)); [len_simpl; lia|]. cbn [orb].
  rewrite index_middle by (len_simpl; lia).
  destruct (Z.eqb_spec (len r) 0) as [E|E].
  { destruct r as [|y r]; [|rewrite len_cons in E; pose proof (len_nonneg r); lia].
    unfold modify, ret. f_equal. rewrite app_nil_r.
    rewrite take_app_length'; [done|]. len_simpl. unfold len. lia. }
  destruct (Z.eqb_spec (len r) (len (l ++ x :: r) - 1)) as [E'|E'].
  { destruct l as [|y l]; [done|]. rewrite len_app, !len_cons in E'.
    pose proof (len_nonneg l). lia. }
  unfold modify, ret. f_equal.
  replace (Z.to_nat (len (l ++ x :: r) - len r - 1)) with (length l)
    by (len_simpl; unfold len; lia).
  replace (Z.to_nat (len (l ++ x :: r) - len r)) with (S (length l))
    by (len_simpl; unfold len; lia).
  rewrite take_app_length. f_equal.
  change (x :: r) with ([x] ++ r). rewrite app_assoc, drop_app_length'; [done|].
  rewrite length_app. cbn. lia.
Qed.

Lemma PopByteArray_snoc (l : stack) (x : bytes) :
  fits (l ++ [x]) -> PopByteArray (l ++ [x]) = (Ret x, l).
Proof.
  intros Hf. unfold PopByteArray. pose proof (nipN_middle l [] x Hf) as H.
  by rewrite app_nil_r in H.
Qed.

Lemma PushByteArray_run (l : stack) (x : bytes) : PushByteArray x l = (Ret tt, l ++ [x]).
Proof. done. Qed.

Lemma PopByteArray_nil : PopByteArray [] = (Err (ScriptError ErrInvalidStackOperation), []).
Proof. reflexivity. Qed.

(** ** Block operations: the two loops *)

Lemma repeat_nip_push (k : nat) (l w : stack) :
  fits (l ++ w) -> (k <= length w)%nat ->
  repeatM k (so <- nipN (len w - 1) ;; PushByteArray so) (l ++ w) =
  (Ret tt, l ++ drop k w ++ take k w).
Proof.
  revert w. induction k as [|k IH]; intros w Hf Hk; cbn [repeatM].
  { unfold ret. by rewrite drop_0, take_0, app_nil_r. }
  destruct w as [|x w]; [cbn in Hk; lia|]. unfold bind at 1 2.
  replace (len (x :: w) - 1) with (len w) by (len_simpl; lia).
  rewrite nipN_middle, PushByteArray_run by done.
  specialize (IH (w ++ [x])).
  replace (len (w ++ [x]) - 1) with (len w) in IH by (len_simpl; lia).
  rewrite <- app_assoc, IH.
  - cbn [take drop]. cbn in Hk. rewrite take_app_le, drop_app_le by lia.
    by rewrite <- app_assoc.
  - unfold fits in *. len_simpl. lia.
  - rewrite length_app. cbn in *. lia.
Qed.

Lemma repeat_peek_push (k : nat) (l w : stack) :
  fits (l ++ w ++ take k w) -> (k <= length w)%nat ->
  repeatM k (so <- PeekByteArray (len w - 1) ;; PushByteArray so) (l ++ w) =
  (Ret tt, l ++ w ++ take k w).
Proof.
  intros Hf Hk.
  cut (forall j i, (i + j = k)%nat ->
    repeatM j (so <- PeekByteArray (len w - 1) ;; PushByteArray so) (l ++ w ++ take i w) =
    (Ret tt, l ++ w ++ take k w)).
  { intros Hgen. specialize (Hgen k 0%nat eq_refl). by rewrite take_0, app_nil_r in Hgen. }
  induction j as [|j IH]; intros i Hij; cbn [repeatM].
  { unfold ret. by replace i with k by lia. }
  destruct (lookup_lt_is_Some_2 w i) as [x Hx]; [lia|].
  unfold bind at 1 2.
  assert (l ++ w ++ take i w = (l ++ take i w) ++ x :: (drop (S i) w ++ take i w)) as Hsplit.
  { rewrite <- (take_drop_middle w i x Hx) at 1. by rewrite <- !app_assoc. }
  assert (len (drop (S i) w ++ take i w) = len w - 1) as Hlen.
  { apply lookup_lt_Some in Hx. unfold len. rewrite length_app, length_drop, length_take. lia. }
  rewrite Hsplit, <- Hlen, PeekByteArray_middle.
  - rewrite <- Hsplit, Hlen. rewrite PushByteArray_run.
    assert ((l ++ w ++ take i w) ++ [x] = l ++ w ++ take (S i) w) as ->.
    { by rewrite <- !app_assoc, (take_S_r w i x Hx). }
    apply IH. lia.
  - rewrite <- Hsplit. unfold fits, len in *. rewrite !length_app, !length_take in *. lia.
Qed.

Lemma DropN_loop (l a : stack) :
  fits (l ++ a) -> repeatM (length a) (PopByteArray ;;; ret tt) (l ++ a) = (Ret tt, l).
Proof.
  induction a as [|x a IH] using rev_ind; intros Hf.
  { by rewrite app_nil_r. }
  rewrite length_app, Nat.add_comm. cbn [length Nat.add repeatM]. unfold bind at 1 2.
  rewrite app_assoc, PopByteArray_snoc by by rewrite <- app_assoc.
  unfold ret at 1. apply IH. unfold fits in *. len_simpl. lia.
Qed.

(** ** How operations change the depth

    Weakest preconditions that keep only the depth of the stack and a property [P]
    of its items, for the proofs that no handler panics, grows the stacks past
    their limit or makes an item too long. *)

Section Depths.
Context (P : bytes -> Prop).
Implicit Types s l : stack.

Lemma wp_Depth (Q : Z -> stack -> Prop) s : fits s -> Q (len s) s -> wp Depth Q s.
Proof. intros Hf HQ. unfold Depth, wp, bind, get. by rewrite checkedStackSize_fits. Qed.

Lemma wp_PushByteArray x (Q : unit -> stack -> Prop) s :
  Forall P s -> P x -> (forall l, len l = len s + 1 -> Forall P l -> Q tt l) ->
  wp (PushByteArray x) Q s.
Proof. intros Hs Hx HQ. apply wp_modify, HQ; [by len_simpl|]. by apply Forall_app_2; [|constructor]. Qed.

Lemma wp_PushInt v (Q : unit -> stack -> Prop) s :
  Forall P s -> (forall b, len b <= 8 -> P b) -> - 2 ^ 63 < v < 2 ^ 63 ->
  (forall l, len l = len s + 1 -> Forall P l -> Q tt l) -> wp (PushInt v) Q s.
Proof.
  intros Hs HP Hv HQ. unfold PushInt, wp, bind.
  destruct (scriptNum_Bytes_spec v) as (b & Hm & Hb & Hrun); [unfold_ranges; lia|].
  rewrite Hrun. cbn. apply HQ; [by len_simpl|]. apply Forall_app_2; [done|].
  constructor; [|done]. apply HP, sn_minimal_length; [done|lia|]. rewrite Hb. lia.
Qed.

Lemma wp_nipN i (Q : bytes -> stack -> Prop) s :
  fits s -> Forall P s -> (forall x l, len s = len l + 1 -> P x -> Forall P l -> Q x l) ->
  wp (nipN i) Q s.
Proof.
  intros Hf Hs HQ. unfold wp.
  destruct (decide (0 <= i < len s)) as [Hi|Hi].
  - assert (exists l x r, s = l ++ x :: r /\ i = len r) as (l & x & r & -> & ->).
    { destruct (lookup_lt_is_Some_2 s (Z.to_nat (len s - i - 1))) as [x Hx]; [unfold len in *; lia|].
      exists (take (Z.to_nat (len s - i - 1)) s), x, (drop (S (Z.to_nat (len s - i - 1))) s).
      split; [by rewrite take_drop_middle|]. unfold len in *. rewrite length_drop. lia. }
    rewrite nipN_middle by done. apply Forall_app in Hs as [Hl Hr]. apply Forall_cons_1 in Hr as [Hx Hr].
    apply HQ; [len_simpl; lia|done|]. by apply Forall_app_2.
  - unfold nipN, bind, get. rewrite checkedStackSize_fits by done.
    assert ((i <? 0) || (i >? len s - 1) = true) as ->; [|done].
    rewrite Z.gtb_ltb. apply orb_true_iff. rewrite !Z.ltb_lt. lia.
Qed.

Lemma wp_PeekByteArray i (Q : bytes -> stack -> Prop) s :
  fits s -> Forall P s -> (forall x, P x -> Q x s) -> wp (PeekByteArray i) Q s.
Proof.
  intros Hf Hs HQ. unfold PeekByteArray. apply wp_bind, wp_get, wp_bind.
  unfold wp at 1. rewrite checkedStackSize_fits by done.
  destruct (_ || _) eqn:Hb; [done|]. zbool. apply wp_index; [lia|].
  intros x Hx. apply HQ. by apply (Forall_lookup_1 _ _ _ _ Hs Hx).
Qed.

Lemma wp_PopByteArray_eq (Q : bytes -> stack -> Prop) s :
  fits s -> (forall l x, s = l ++ [x] -> Q x l) -> wp PopByteArray Q s.
Proof.
  intros Hf HQ. destruct s as [|x l _] using rev_ind; [done|].
  unfold wp. rewrite PopByteArray_snoc by done. by apply HQ.
Qed.

Lemma wp_PopByteArray (Q : bytes -> stack -> Prop) s :
  fits s -> Forall P s -> (forall x l, len s = len l + 1 -> P x -> Forall P l -> Q x l) ->
  wp PopByteArray Q s.
Proof. apply wp_nipN. Qed.

Lemma wp_PopInt_eq (Q : Z -> stack -> Prop) s :
  fits s ->
  (forall l x v, s = l ++ [x] -> v = sn_value x -> - 2 ^ 31 < v < 2 ^ 31 -> Q v l) -> wp PopInt Q s.
Proof.
  intros Hf HQ. unfold PopInt. apply wp_bind, wp_PopByteArray_eq; [done|]. intros l x ->.
  unfold wp. destruct (makeScriptNum x defaultScriptNumLen l) as [o l'] eqn:Hm.
  pose proof Hm as Ho. rewrite makeScriptNum_spec in Ho. apply (f_equal snd) in Ho as Hl'.
  apply (f_equal fst) in Ho. cbn in Hl', Ho. subst l'.
  destruct o as [v|e|]; [|done|by repeat case_match].
  apply (HQ l x v); [done|by repeat case_match; simplify_eq|].
  apply makeScriptNum_range in Hm; [exact Hm|unfold defaultScriptNumLen; lia].
Qed.

Lemma wp_PopInt (Q : Z -> stack -> Prop) s :
  fits s -> Forall P s ->
  (forall v l, len s = len l + 1 -> - 2 ^ 31 < v < 2 ^ 31 -> Forall P l -> Q v l) ->
  wp PopInt Q s.
Proof.
  intros Hf Hs HQ. apply wp_PopInt_eq; [done|]. intros l x v -> _ Hv.
  apply Forall_app in Hs as [Hl _]. apply HQ; [by len_simpl|done..].
Qed.

Lemma wp_PopBool (Q : bool -> stack -> Prop) s :
  fits s -> Forall P s -> (forall b l, len s = len l + 1 -> Forall P l -> Q b l) -> wp PopBool Q s.
Proof.
  intros Hf Hs HQ. unfold PopBool. apply wp_bind, wp_PopByteArray; [done..|]. intros x l Hl _ HP.
  by apply wp_ret, HQ.
Qed.

Lemma wp_nip_push i (Q : unit -> stack -> Prop) s :
  fits s -> Forall P s -> (forall l, len l = len s -> Forall P l -> Q tt l) ->
  wp (so <- nipN i ;; PushByteArray so) Q s.
Proof.
  intros Hf Hs HQ. apply wp_bind, wp_nipN; [done..|]. intros x l Hl Hx HP.
  apply wp_PushByteArray; [done..|]. intros l' Hl' HP'. apply HQ; [lia|done].
Qed.

Lemma wp_peek_push i (Q : unit -> stack -> Prop) s :
  fits s -> Forall P s -> (forall l, len l = len s + 1 -> Forall P l -> Q tt l) ->
  wp (so <- PeekByteArray i ;; PushByteArray so) Q s.
Proof.
  intros Hf Hs HQ. apply wp_bind, wp_PeekByteArray; [done..|]. intros x Hx.
  by apply wp_PushByteArray.
Qed.

Lemma wp_moves n i (Q : unit -> stack -> Prop) s :
  fits s -> Forall P s -> (forall l, len l = len s -> Forall P l -> Q tt l) ->
  wp (repeatM n (so <- nipN i ;; PushByteArray so)) Q s.
Proof.
  intros Hf Hs HQ. apply (wp_repeatM _ _ (fun _ l => len l = len s /\ Forall P l)); [done| |].
  - intros _ l _ [Hl HP]. apply wp_nip_push; [unfold fits in *; lia|done|]. intros l' Hl' HP'.
    split; [lia|done].
  - intros l [Hl HP]. auto.
Qed.

Lemma wp_copies n i (Q : unit -> stack -> Prop) s :
  len s + Z.of_nat n <= MaxInt32 -> Forall P s ->
  (forall l, len l = len s + Z.of_nat n -> Forall P l -> Q tt l) ->
  wp (repeatM n (so <- PeekByteArray i ;; PushByteArray so)) Q s.
Proof.
  intros Hf Hs HQ.
  apply (wp_repeatM _ _ (fun k l => len l = len s + Z.of_nat k /\ Forall P l)); [by split; [lia|]| |].
  - intros k l Hk [Hl HP]. apply wp_peek_push; [unfold fits in *; lia|done|]. intros l' Hl' HP'.
    split; [lia|done].
  - intros l [Hl HP]. auto.
Qed.

Lemma wp_DropN n (Q : unit -> stack -> Prop) s :
  fits s -> Forall P s -> (forall l, len l <= len s -> Forall P l -> Q tt l) -> wp (DropN n) Q s.
Proof.
  intros Hf Hs HQ. unfold DropN. destruct (n <? 1); [done|].
  apply (wp_repeatM _ _ (fun _ l => len l <= len s /\ Forall P l)); [by split; [lia|]| |].
  - intros _ l _ [Hl HP]. apply wp_bind, wp_PopByteArray; [unfold fits in *; lia|done|].
    intros x l' Hl' _ HP'. apply wp_ret. split; [lia|done].
  - intros l [Hl HP]. auto.
Qed.

Lemma wp_DupN n (Q : unit -> stack -> Prop) s :
  len s + Z.max 0 n <= MaxInt32 -> Forall P s ->
  (forall l, len l <= len s + Z.max 0 n -> Forall P l -> Q tt l) -> wp (DupN n) Q s.
Proof.
  intros Hf Hs HQ. unfold DupN. destruct (n <? 1); [done|].
  apply wp_copies; [lia|done|]. intros l Hl. apply HQ. lia.
Qed.

Lemma wp_OverN n (Q : unit -> stack -> Prop) s :
  len s + Z.max 0 n <= MaxInt32 -> Forall P s ->
  (forall l, len l <= len s + Z.max 0 n -> Forall P l -> Q tt l) -> wp (OverN n) Q s.
Proof.
  intros Hf Hs HQ. unfold OverN. destruct (n <? 1); [done|].
  apply wp_copies; [lia|done|]. intros l Hl. apply HQ. lia.
Qed.

Lemma wp_RotN n (Q : unit -> stack -> Prop) s :
  fits s -> Forall P s -> (forall l, len l = len s -> Forall P l -> Q tt l) -> wp (RotN n) Q s.
Proof. intros Hf Hs HQ. unfold RotN. destruct (n <? 1); [done|]. by apply wp_moves. Qed.

Lemma wp_SwapN n (Q : unit -> stack -> Prop) s :
  fits s -> Forall P s -> (forall l, len l = len s -> Forall P l -> Q tt l) -> wp (SwapN n) Q s.
Proof. intros Hf Hs HQ. unfold SwapN. destruct (n <? 1); [done|]. by apply wp_moves. Qed.

Lemma wp_NipN n (Q : unit -> stack -> Prop) s :
  fits s -> Forall P s -> (forall l, len s = len l + 1 -> Forall P l -> Q tt l) -> wp (NipN n) Q s.
Proof.
  intros Hf Hs HQ. unfold NipN. apply wp_bind, wp_nipN; [done..|]. intros x l Hl _ HP.
  by apply wp_ret, HQ.
Qed.

Lemma wp_Tuck (Q : unit -> stack -> Prop) s :
  fits s -> Forall P s -> (forall l, len l = len s + 1 -> Forall P l -> Q tt l) -> wp Tuck Q s.
Proof.
  intros Hf Hs HQ. unfold Tuck. apply wp_bind, wp_PopByteArray; [done..|]. intros x2 l2 H2 P2 F2.
  apply wp_bind, wp_PopByteArray; [unfold fits in *; lia|done|]. intros x1 l1 H1 P1 F1.
  apply wp_bind, wp_PushByteArray; [done..|]. intros l3 H3 F3.
  apply wp_bind, wp_PushByteArray; [done..|]. intros l4 H4 F4.
  apply wp_PushByteArray; [done..|]. intros l5 H5 F5. apply HQ; [lia|done].
Qed.
End Depths.

(** ** Properties *)

(** The block operations move whole blocks the way their comments say: for
    blocks [a], [b], [c] of [n] items each on top of any stack, [SwapN] swaps the
    two top blocks, [RotN] rotates the third block to the top, [OverN] copies the
    second block to the top, [DupN] duplicates the top block and [DropN] removes
    it (as long as the stack stays within the [int32] limit of its depth). *)
Theorem stack_block_operations (l a b c : stack) (n : Z) :
  1 <= n -> len a = n -> len b = n -> len c = n -> len l + 4 * n <= MaxInt32 ->
  DropN n (l ++ a) = (Ret tt, l) /\
  DupN n (l ++ a) = (Ret tt, l ++ a ++ a) /\
  SwapN n (l ++ a ++ b) = (Ret tt, l ++ b ++ a) /\
  OverN n (l ++ a ++ b) = (Ret tt, l ++ a ++ b ++ a) /\
  RotN n (l ++ a ++ b ++ c) = (Ret tt, l ++ b ++ c ++ a).
Proof.
  intros Hn Ha Hb Hc Hl. unfold DropN, DupN, SwapN, OverN, RotN, MaxInt32 in *.
  pose proof (len_nonneg l).
  assert (forall w k : stack, len w + len k = n + n -> len l + len w + len k <= MaxInt32)
    by (unfold MaxInt32; lia).
  destruct (Z.ltb_spec n 1); [lia|].
  rewrite !i32_id by (rewrite ?i32_id; lia).
  assert (Hlen : Z.to_nat n = length a) by (unfold len in Ha; lia).
  split_and!.
  - rewrite Hlen. by apply DropN_loop; unfold fits, MaxInt32; len_simpl; lia.
  - rewrite Hlen, <- Ha, repeat_peek_push by (try lia; rewrite take_ge by lia; unfold fits, MaxInt32; len_simpl; lia).
    by rewrite take_ge by lia.
  - replace (2 * n - 1) with (len (a ++ b) - 1) by (len_simpl; lia).
    rewrite Hlen, repeat_nip_push.
    + by rewrite drop_app_length, take_app_length.
    + unfold fits, MaxInt32. len_simpl. lia.
    + rewrite length_app. lia.
  - replace (2 * n - 1) with (len (a ++ b) - 1) by (len_simpl; lia).
    rewrite Hlen, repeat_peek_push.
    + by rewrite take_app_length, <- app_assoc.
    + rewrite take_app_length. unfold fits, MaxInt32. len_simpl. lia.
    + rewrite length_app. lia.
  - replace (3 * n - 1) with (len (a ++ b ++ c) - 1) by (len_simpl; lia).
    rewrite Hlen, repeat_nip_push.
    + by rewrite drop_app_length, take_app_length, <- app_assoc.
    + unfold fits, MaxInt32. len_simpl. lia.
    + rewrite length_app. lia.
Qed.

Lemma stack_block_operations_witness :
  let i n := [zb n] in
  DropN 2 [i 0; i 1; i 2] = (Ret tt, [i 0]) /\
  DupN 2 [i 0; i 1; i 2] = (Ret tt, [i 0; i 1; i 2; i 1; i 2]) /\
  SwapN 2 [i 0; i 1; i 2; i 3; i 4] = (Ret tt, [i 0; i 3; i 4; i 1; i 2]) /\
  OverN 2 [i 0; i 1; i 2; i 3; i 4] = (Ret tt, [i 0; i 1; i 2; i 3; i 4; i 1; i 2]) /\
  RotN 2 [i 0; i 1; i 2; i 3; i 4; i 5; i 6] = (Ret tt, [i 0; i 3; i 4; i 5; i 6; i 1; i 2]).
Proof.
  intros i.
  apply (stack_block_operations [i 0] [i 1; i 2] [i 3; i 4] [i 5; i 6] 2); first [lia | reflexivity | unfold_ranges; len_simpl; lia].
Defined.
