(* ===== verification/OpcodeTable.v ===== *)
(** * The opcode table

    The opcode constants and [opcodeArray] of
    [src/domain/consensus/utils/txscript/opcode.go].  The table entries carry the
    handler as a name ([opfunc]); [Engine.v] maps each name to the handler, which
    breaks the recursion between the Go types [opcode], [parsedOpcode] and
    [Engine]. *)

From S2P Require Import Prelude.

(** ** Opcode values *)

Definition Op0 : Z := 0x00.
Definition OpFalse : Z := 0x00.
Definition OpData1 : Z := 0x01.
Definition OpData2 : Z := 0x02.
Definition OpData3 : Z := 0x03.
Definition OpData4 : Z := 0x04.
Definition OpData5 : Z := 0x05.
Definition OpData6 : Z := 0x06.
Definition OpData7 : Z := 0x07.
Definition OpData8 : Z := 0x08.
Definition OpData9 : Z := 0x09.
Definition OpData10 : Z := 0x0a.
Definition OpData11 : Z := 0x0b.
Definition OpData12 : Z := 0x0c.
Definition OpData13 : Z := 0x0d.
Definition OpData14 : Z := 0x0e.
Definition OpData15 : Z := 0x0f.
Definition OpData16 : Z := 0x10.
Definition OpData17 : Z := 0x11.
Definition OpData18 : Z := 0x12.
Definition OpData19 : Z := 0x13.
Definition OpData20 : Z := 0x14.
Definition OpData21 : Z := 0x15.
Definition OpData22 : Z := 0x16.
Definition OpData23 : Z := 0x17.
Definition OpData24 : Z := 0x18.
Definition OpData25 : Z := 0x19.
Definition OpData26 : Z := 0x1a.
Definition OpData27 : Z := 0x1b.
Definition OpData28 : Z := 0x1c.
Definition OpData29 : Z := 0x1d.
Definition OpData30 : Z := 0x1e.
Definition OpData31 : Z := 0x1f.
Definition OpData32 : Z := 0x20.
Definition OpData33 : Z := 0x21.
Definition OpData34 : Z := 0x22.
Definition OpData35 : Z := 0x23.
Definition OpData36 : Z := 0x24.
Definition OpData37 : Z := 0x25.
Definition OpData38 : Z := 0x26.
Definition OpData39 : Z := 0x27.
Definition OpData40 : Z := 0x28.
Definition OpData41 : Z := 0x29.
Definition OpData42 : Z := 0x2a.
Definition OpData43 : Z := 0x2b.
Definition OpData44 : Z := 0x2c.
Definition OpData45 : Z := 0x2d.
Definition OpData46 : Z := 0x2e.
Definition OpData47 : Z := 0x2f.
Definition OpData48 : Z := 0x30.
Definition OpData49 : Z := 0x31.
Definition OpData50 : Z := 0x32.
Definition OpData51 : Z := 0x33.
Definition OpData52 : Z := 0x34.
Definition OpData53 : Z := 0x35.
Definition OpData54 : Z := 0x36.
Definition OpData55 : Z := 0x37.
Definition OpData56 : Z := 0x38.
Definition OpData57 : Z := 0x39.
Definition OpData58 : Z := 0x3a.
Definition OpData59 : Z := 0x3b.
Definition OpData60 : Z := 0x3c.
Definition OpData61 : Z := 0x3d.
Definition OpData62 : Z := 0x3e.
Definition OpData63 : Z := 0x3f.
Definition OpData64 : Z := 0x40.
Definition OpData65 : Z := 0x41.
Definition OpData66 : Z := 0x42.
Definition OpData67 : Z := 0x43.
Definition OpData68 : Z := 0x44.
Definition OpData69 : Z := 0x45.
Definition OpData70 : Z := 0x46.
Definition OpData71 : Z := 0x47.
Definition OpData72 : Z := 0x48.
Definition OpData73 : Z := 0x49.
Definition OpData74 : Z := 0x4a.
Definition OpData75 : Z := 0x4b.
Definition OpPushData1 : Z := 0x4c.
Definition OpPushData2 : Z := 0x4d.
Definition OpPushData4 : Z := 0x4e.
Definition Op1Negate : Z := 0x4f.
Definition OpReserved : Z := 0x50.
Definition Op1 : Z := 0x51.
Definition OpTrue : Z := 0x51.
Definition Op2 : Z := 0x52.
Definition Op3 : Z := 0x53.
Definition Op4 : Z := 0x54.
Definition Op5 : Z := 0x55.
Definition Op6 : Z := 0x56.
Definition Op7 : Z := 0x57.
Definition Op8 : Z := 0x58.
Definition Op9 : Z := 0x59.
Definition Op10 : Z := 0x5a.
Definition Op11 : Z := 0x5b.
Definition Op12 : Z := 0x5c.
Definition Op13 : Z := 0x5d.
Definition Op14 : Z := 0x5e.
Definition Op15 : Z := 0x5f.
Definition Op16 : Z := 0x60.
Definition OpNop : Z := 0x61.
Definition OpVer : Z := 0x62.
Definition OpIf : Z := 0x63.
Definition OpNotIf : Z := 0x64.
Definition OpVerIf : Z := 0x65.
Definition OpVerNotIf : Z := 0x66.
Definition OpElse : Z := 0x67.
Definition OpEndIf : Z := 0x68.
Definition OpVerify : Z := 0x69.
Definition OpReturn : Z := 0x6a.
Definition OpToAltStack : Z := 0x6b.
Definition OpFromAltStack : Z := 0x6c.
Definition Op2Drop : Z := 0x6d.
Definition Op2Dup : Z := 0x6e.
Definition Op3Dup : Z := 0x6f.
Definition Op2Over : Z := 0x70.
Definition Op2Rot : Z := 0x71.
Definition Op2Swap : Z := 0x72.
Definition OpIfDup : Z := 0x73.
Definition OpDepth : Z := 0x74.
Definition OpDrop : Z := 0x75.
Definition OpDup : Z := 0x76.
Definition OpNip : Z := 0x77.
Definition OpOver : Z := 0x78.
Definition OpPick : Z := 0x79.
Definition OpRoll : Z := 0x7a.
Definition OpRot : Z := 0x7b.
Definition OpSwap : Z := 0x7c.
Definition OpTuck : Z := 0x7d.
Definition OpCat : Z := 0x7e.
Definition OpSubStr : Z := 0x7f.
Definition OpLeft : Z := 0x80.
Definition OpRight : Z := 0x81.
Definition OpSize : Z := 0x82.
Definition OpInvert : Z := 0x83.
Definition OpAnd : Z := 0x84.
Definition OpOr : Z := 0x85.
Definition OpXor : Z := 0x86.
Definition OpEqual : Z := 0x87.
Definition OpEqualVerify : Z := 0x88.
Definition OpReserved1 : Z := 0x89.
Definition OpReserved2 : Z := 0x8a.
Definition Op1Add : Z := 0x8b.
Definition Op1Sub : Z := 0x8c.
Definition Op2Mul : Z := 0x8d.
Definition Op2Div : Z := 0x8e.
Definition OpNegate : Z := 0x8f.
Definition OpAbs : Z := 0x90.
Definition OpNot : Z := 0x91.
Definition Op0NotEqual : Z := 0x92.
Definition OpAdd : Z := 0x93.
Definition OpSub : Z := 0x94.
Definition OpMul : Z := 0x95.
Definition OpDiv : Z := 0x96.
Definition OpMod : Z := 0x97.
Definition OpLShift : Z := 0x98.
Definition OpRShift : Z := 0x99.
Definition OpBoolAnd : Z := 0x9a.
Definition OpBoolOr : Z := 0x9b.
Definition OpNumEqual : Z := 0x9c.
Definition OpNumEqualVerify : Z := 0x9d.
Definition OpNumNotEqual : Z := 0x9e.
Definition OpLessThan : Z := 0x9f.
Definition OpGreaterThan : Z := 0xa0.
Definition OpLessThanOrEqual : Z := 0xa1.
Definition OpGreaterThanOrEqual : Z := 0xa2.
Definition OpMin : Z := 0xa3.
Definition OpMax : Z := 0xa4.
Definition OpWithin : Z := 0xa5.
Definition OpCheckSigMLDSA44 : Z := 0xa6.
Definition OpUnknown167 : Z := 0xa7.
Definition OpSHA256 : Z := 0xa8.
Definition OpCheckMultiSigECDSA : Z := 0xa9.
Definition OpBlake2b : Z := 0xaa.
Definition OpCheckSigECDSA : Z := 0xab.
Definition OpCheckSig : Z := 0xac.
Definition OpCheckSigVerify : Z := 0xad.
Definition OpCheckMultiSig : Z := 0xae.
Definition OpCheckMultiSigVerify : Z := 0xaf.
Definition OpCheckLockTimeVerify : Z := 0xb0.
Definition OpCheckSequenceVerify : Z := 0xb1.
Definition OpUnknown178 : Z := 0xb2.
Definition OpUnknown179 : Z := 0xb3.
Definition OpUnknown180 : Z := 0xb4.
Definition OpUnknown181 : Z := 0xb5.
Definition OpUnknown182 : Z := 0xb6.
Definition OpUnknown183 : Z := 0xb7.
Definition OpUnknown184 : Z := 0xb8.
Definition OpUnknown185 : Z := 0xb9.
Definition OpUnknown186 : Z := 0xba.
Definition OpUnknown187 : Z := 0xbb.
Definition OpUnknown188 : Z := 0xbc.
Definition OpUnknown189 : Z := 0xbd.
Definition OpUnknown190 : Z := 0xbe.
Definition OpUnknown191 : Z := 0xbf.
Definition OpUnknown192 : Z := 0xc0.
Definition OpUnknown193 : Z := 0xc1.
Definition OpUnknown194 : Z := 0xc2.
Definition OpUnknown195 : Z := 0xc3.
Definition OpUnknown196 : Z := 0xc4.
Definition OpUnknown197 : Z := 0xc5.
Definition OpUnknown198 : Z := 0xc6.
Definition OpUnknown199 : Z := 0xc7.
Definition OpUnknown200 : Z := 0xc8.
Definition OpUnknown201 : Z := 0xc9.
Definition OpUnknown202 : Z := 0xca.
Definition OpUnknown203 : Z := 0xcb.
Definition OpUnknown204 : Z := 0xcc.
Definition OpUnknown205 : Z := 0xcd.
Definition OpUnknown206 : Z := 0xce.
Definition OpUnknown207 : Z := 0xcf.
Definition OpUnknown208 : Z := 0xd0.
Definition OpUnknown209 : Z := 0xd1.
Definition OpUnknown210 : Z := 0xd2.
Definition OpUnknown211 : Z := 0xd3.
Definition OpUnknown212 : Z := 0xd4.
Definition OpUnknown213 : Z := 0xd5.
Definition OpUnknown214 : Z := 0xd6.
Definition OpUnknown215 : Z := 0xd7.
Definition OpUnknown216 : Z := 0xd8.
Definition OpUnknown217 : Z := 0xd9.
Definition OpUnknown218 : Z := 0xda.
Definition OpUnknown219 : Z := 0xdb.
Definition OpUnknown220 : Z := 0xdc.
Definition OpUnknown221 : Z := 0xdd.
Definition OpUnknown222 : Z := 0xde.
Definition OpUnknown223 : Z := 0xdf.
Definition OpUnknown224 : Z := 0xe0.
Definition OpUnknown225 : Z := 0xe1.
Definition OpUnknown226 : Z := 0xe2.
Definition OpUnknown227 : Z := 0xe3.
Definition OpUnknown228 : Z := 0xe4.
Definition OpUnknown229 : Z := 0xe5.
Definition OpUnknown230 : Z := 0xe6.
Definition OpUnknown231 : Z := 0xe7.
Definition OpUnknown232 : Z := 0xe8.
Definition OpUnknown233 : Z := 0xe9.
Definition OpUnknown234 : Z := 0xea.
Definition OpUnknown235 : Z := 0xeb.
Definition OpUnknown236 : Z := 0xec.
Definition OpUnknown237 : Z := 0xed.
Definition OpUnknown238 : Z := 0xee.
Definition OpUnknown239 : Z := 0xef.
Definition OpUnknown240 : Z := 0xf0.
Definition OpUnknown241 : Z := 0xf1.
Definition OpUnknown242 : Z := 0xf2.
Definition OpUnknown243 : Z := 0xf3.
Definition OpUnknown244 : Z := 0xf4.
Definition OpUnknown245 : Z := 0xf5.
Definition OpUnknown246 : Z := 0xf6.
Definition OpUnknown247 : Z := 0xf7.
Definition OpUnknown248 : Z := 0xf8.
Definition OpUnknown249 : Z := 0xf9.
Definition OpSmallInteger : Z := 0xfa.
Definition OpPubKeys : Z := 0xfb.
Definition OpUnknown252 : Z := 0xfc.
Definition OpPubKeyHash : Z := 0xfd.
Definition OpPubKey : Z := 0xfe.
Definition OpInvalidOpCode : Z := 0xff.

(** ** The table *)

(** One constructor per handler; [f_nil] is the zero value of the field. *)
Inductive opfunc : Type :=
| f_opcodeFalse
| f_opcodePushData
| f_opcode1Negate
| f_opcodeReserved
| f_opcodeN
| f_opcodeNop
| f_opcodeIf
| f_opcodeNotIf
| f_opcodeElse
| f_opcodeEndif
| f_opcodeVerify
| f_opcodeReturn
| f_opcodeCheckLockTimeVerify
| f_opcodeCheckSequenceVerify
| f_opcodeToAltStack
| f_opcodeFromAltStack
| f_opcode2Drop
| f_opcode2Dup
| f_opcode3Dup
| f_opcode2Over
| f_opcode2Rot
| f_opcode2Swap
| f_opcodeIfDup
| f_opcodeDepth
| f_opcodeDrop
| f_opcodeDup
| f_opcodeNip
| f_opcodeOver
| f_opcodePick
| f_opcodeRoll
| f_opcodeRot
| f_opcodeSwap
| f_opcodeTuck
| f_opcodeDisabled
| f_opcodeSize
| f_opcodeEqual
| f_opcodeEqualVerify
| f_opcode1Add
| f_opcode1Sub
| f_opcode2Mul
| f_opcode2Div
| f_opcodeNegate
| f_opcodeAbs
| f_opcodeNot
| f_opcode0NotEqual
| f_opcodeAdd
| f_opcodeSub
| f_opcodeMul
| f_opcodeDiv
| f_opcodeMod
| f_opcodeLShift
| f_opcodeRShift
| f_opcodeBoolAnd
| f_opcodeBoolOr
| f_opcodeNumEqual
| f_opcodeNumEqualVerify
| f_opcodeNumNotEqual
| f_opcodeLessThan
| f_opcodeGreaterThan
| f_opcodeLessThanOrEqual
| f_opcodeGreaterThanOrEqual
| f_opcodeMin
| f_opcodeMax
| f_opcodeWithin
| f_opcodeCheckMultiSigECDSA
| f_opcodeSha256
| f_opcodeBlake2b
| f_opcodeCheckSigECDSA
| f_opcodeCheckSig
| f_opcodeCheckSigVerify
| f_opcodeCheckMultiSig
| f_opcodeCheckMultiSigVerify
| f_opcodeCheckSigMLDSA44
| f_opcodeInvalid
| f_nil.

#[export] Instance opfunc_eq_dec : EqDecision opfunc.
Proof. solve_decision. Defined.

Record opcode : Type := Opcode {
  op_value : Z;
  op_name : string;
  op_length : Z;
  op_func : opfunc
}.

#[export] Instance opcode_eq_dec : EqDecision opcode.
Proof. solve_decision. Defined.

(** The zero value of the Go struct, held by array cells without an entry. *)
Definition zeroOpcode : opcode := Opcode 0 "" 0 f_nil.

Definition dataPushOpcodes : list (Z * opcode) := [
  (OpFalse, Opcode OpFalse "OP_0" 1 f_opcodeFalse);
  (OpData1, Opcode OpData1 "OP_DATA_1" 2 f_opcodePushData);
  (OpData2, Opcode OpData2 "OP_DATA_2" 3 f_opcodePushData);
  (OpData3, Opcode OpData3 "OP_DATA_3" 4 f_opcodePushData);
  (OpData4, Opcode OpData4 "OP_DATA_4" 5 f_opcodePushData);
  (OpData5, Opcode OpData5 "OP_DATA_5" 6 f_opcodePushData);
  (OpData6, Opcode OpData6 "OP_DATA_6" 7 f_opcodePushData);
  (OpData7, Opcode OpData7 "OP_DATA_7" 8 f_opcodePushData);
  (OpData8, Opcode OpData8 "OP_DATA_8" 9 f_opcodePushData);
  (OpData9, Opcode OpData9 "OP_DATA_9" 10 f_opcodePushData);
  (OpData10, Opcode OpData10 "OP_DATA_10" 11 f_opcodePushData);
  (OpData11, Opcode OpData11 "OP_DATA_11" 12 f_opcodePushData);
  (OpData12, Opcode OpData12 "OP_DATA_12" 13 f_opcodePushData);
  (OpData13, Opcode OpData13 "OP_DATA_13" 14 f_opcodePushData);
  (OpData14, Opcode OpData14 "OP_DATA_14" 15 f_opcodePushData);
  (OpData15, Opcode OpData15 "OP_DATA_15" 16 f_opcodePushData);
  (OpData16, Opcode OpData16 "OP_DATA_16" 17 f_opcodePushData);
  (OpData17, Opcode OpData17 "OP_DATA_17" 18 f_opcodePushData);
  (OpData18, Opcode OpData18 "OP_DATA_18" 19 f_opcodePushData);
  (OpData19, Opcode OpData19 "OP_DATA_19" 20 f_opcodePushData);
  (OpData20, Opcode OpData20 "OP_DATA_20" 21 f_opcodePushData);
  (OpData21, Opcode OpData21 "OP_DATA_21" 22 f_opcodePushData);
  (OpData22, Opcode OpData22 "OP_DATA_22" 23 f_opcodePushData);
  (OpData23, Opcode OpData23 "OP_DATA_23" 24 f_opcodePushData);
  (OpData24, Opcode OpData24 "OP_DATA_24" 25 f_opcodePushData);
  (OpData25, Opcode OpData25 "OP_DATA_25" 26 f_opcodePushData);
  (OpData26, Opcode OpData26 "OP_DATA_26" 27 f_opcodePushData);
  (OpData27, Opcode OpData27 "OP_DATA_27" 28 f_opcodePushData);
  (OpData28, Opcode OpData28 "OP_DATA_28" 29 f_opcodePushData);
  (OpData29, Opcode OpData29 "OP_DATA_29" 30 f_opcodePushData);
  (OpData30, Opcode OpData30 "OP_DATA_30" 31 f_opcodePushData);
  (OpData31, Opcode OpData31 "OP_DATA_31" 32 f_opcodePushData);
  (OpData32, Opcode OpData32 "OP_DATA_32" 33 f_opcodePushData);
  (OpData33, Opcode OpData33 "OP_DATA_33" 34 f_opcodePushData);
  (OpData34, Opcode OpData34 "OP_DATA_34" 35 f_opcodePushData);
  (OpData35, Opcode OpData35 "OP_DATA_35" 36 f_opcodePushData);
  (OpData36, Opcode OpData36 "OP_DATA_36" 37 f_opcodePushData);
  (OpData37, Opcode OpData37 "OP_DATA_37" 38 f_opcodePushData);
  (OpData38, Opcode OpData38 "OP_DATA_38" 39 f_opcodePushData);
  (OpData39, Opcode OpData39 "OP_DATA_39" 40 f_opcodePushData);
  (OpData40, Opcode OpData40 "OP_DATA_40" 41 f_opcodePushData);
  (OpData41, Opcode OpData41 "OP_DATA_41" 42 f_opcodePushData);
  (OpData42, Opcode OpData42 "OP_DATA_42" 43 f_opcodePushData);
  (OpData43, Opcode OpData43 "OP_DATA_43" 44 f_opcodePushData);
  (OpData44, Opcode OpData44 "OP_DATA_44" 45 f_opcodePushData);
  (OpData45, Opcode OpData45 "OP_DATA_45" 46 f_opcodePushData);
  (OpData46, Opcode OpData46 "OP_DATA_46" 47 f_opcodePushData);
  (OpData47, Opcode OpData47 "OP_DATA_47" 48 f_opcodePushData);
  (OpData48, Opcode OpData48 "OP_DATA_48" 49 f_opcodePushData);
  (OpData49, Opcode OpData49 "OP_DATA_49" 50 f_opcodePushData);
  (OpData50, Opcode OpData50 "OP_DATA_50" 51 f_opcodePushData);
  (OpData51, Opcode OpData51 "OP_DATA_51" 52 f_opcodePushData);
  (OpData52, Opcode OpData52 "OP_DATA_52" 53 f_opcodePushData);
  (OpData53, Opcode OpData53 "OP_DATA_53" 54 f_opcodePushData);
  (OpData54, Opcode OpData54 "OP_DATA_54" 55 f_opcodePushData);
  (OpData55, Opcode OpData55 "OP_DATA_55" 56 f_opcodePushData);
  (OpData56, Opcode OpData56 "OP_DATA_56" 57 f_opcodePushData);
  (OpData57, Opcode OpData57 "OP_DATA_57" 58 f_opcodePushData);
  (OpData58, Opcode OpData58 "OP_DATA_58" 59 f_opcodePushData);
  (OpData59, Opcode OpData59 "OP_DATA_59" 60 f_opcodePushData);
  (OpData60, Opcode OpData60 "OP_DATA_60" 61 f_opcodePushData);
  (OpData61, Opcode OpData61 "OP_DATA_61" 62 f_opcodePushData);
  (OpData62, Opcode OpData62 "OP_DATA_62" 63 f_opcodePushData);
  (OpData63, Opcode OpData63 "OP_DATA_63" 64 f_opcodePushData);
  (OpData64, Opcode OpData64 "OP_DATA_64" 65 f_opcodePushData);
  (OpData65, Opcode OpData65 "OP_DATA_65" 66 f_opcodePushData);
  (OpData66, Opcode OpData66 "OP_DATA_66" 67 f_opcodePushData);
  (OpData67, Opcode OpData67 "OP_DATA_67" 68 f_opcodePushData);
  (OpData68, Opcode OpData68 "OP_DATA_68" 69 f_opcodePushData);
  (OpData69, Opcode OpData69 "OP_DATA_69" 70 f_opcodePushData);
  (OpData70, Opcode OpData70 "OP_DATA_70" 71 f_opcodePushData);
  (OpData71, Opcode OpData71 "OP_DATA_71" 72 f_opcodePushData);
  (OpData72, Opcode OpData72 "OP_DATA_72" 73 f_opcodePushData);
  (OpData73, Opcode OpData73 "OP_DATA_73" 74 f_opcodePushData);
  (OpData74, Opcode OpData74 "OP_DATA_74" 75 f_opcodePushData);
  (OpData75, Opcode OpData75 "OP_DATA_75" 76 f_opcodePushData);
  (OpPushData1, Opcode OpPushData1 "OP_PUSHDATA1" (-1) f_opcodePushData);
  (OpPushData2, Opcode OpPushData2 "OP_PUSHDATA2" (-2) f_opcodePushData);
  (OpPushData4, Opcode OpPushData4 "OP_PUSHDATA4" (-4) f_opcodePushData);
  (Op1Negate, Opcode Op1Negate "OP_1NEGATE" 1 f_opcode1Negate);
  (OpReserved, Opcode OpReserved "OP_RESERVED" 1 f_opcodeReserved);
  (OpTrue, Opcode OpTrue "OP_1" 1 f_opcodeN);
  (Op2, Opcode Op2 "OP_2" 1 f_opcodeN);
  (Op3, Opcode Op3 "OP_3" 1 f_opcodeN);
  (Op4, Opcode Op4 "OP_4" 1 f_opcodeN);
  (Op5, Opcode Op5 "OP_5" 1 f_opcodeN);
  (Op6, Opcode Op6 "OP_6" 1 f_opcodeN);
  (Op7, Opcode Op7 "OP_7" 1 f_opcodeN);
  (Op8, Opcode Op8 "OP_8" 1 f_opcodeN);
  (Op9, Opcode Op9 "OP_9" 1 f_opcodeN);
  (Op10, Opcode Op10 "OP_10" 1 f_opcodeN);
  (Op11, Opcode Op11 "OP_11" 1 f_opcodeN);
  (Op12, Opcode Op12 "OP_12" 1 f_opcodeN);
  (Op13, Opcode Op13 "OP_13" 1 f_opcodeN);
  (Op14, Opcode Op14 "OP_14" 1 f_opcodeN);
  (Op15, Opcode Op15 "OP_15" 1 f_opcodeN);
  (Op16, Opcode Op16 "OP_16" 1 f_opcodeN)
]%string.

Definition controlOpcodes : list (Z * opcode) := [
  (OpNop, Opcode OpNop "OP_NOP" 1 f_opcodeNop);
  (OpVer, Opcode OpVer "OP_VER" 1 f_opcodeReserved);
  (OpIf, Opcode OpIf "OP_IF" 1 f_opcodeIf);
  (OpNotIf, Opcode OpNotIf "OP_NOTIF" 1 f_opcodeNotIf);
  (OpVerIf, Opcode OpVerIf "OP_VERIF" 1 f_opcodeReserved);
  (OpVerNotIf, Opcode OpVerNotIf "OP_VERNOTIF" 1 f_opcodeReserved);
  (OpElse, Opcode OpElse "OP_ELSE" 1 f_opcodeElse);
  (OpEndIf, Opcode OpEndIf "OP_ENDIF" 1 f_opcodeEndif);
  (OpVerify, Opcode OpVerify "OP_VERIFY" 1 f_opcodeVerify);
  (OpReturn, Opcode OpReturn "OP_RETURN" 1 f_opcodeReturn);
  (OpCheckLockTimeVerify, Opcode OpCheckLockTimeVerify "OP_CHECKLOCKTIMEVERIFY" 1 f_opcodeCheckLockTimeVerify);
  (OpCheckSequenceVerify, Opcode OpCheckSequenceVerify "OP_CHECKSEQUENCEVERIFY" 1 f_opcodeCheckSequenceVerify)
]%string.

Definition stackOpcodes : list (Z * opcode) := [
  (OpToAltStack, Opcode OpToAltStack "OP_TOALTSTACK" 1 f_opcodeToAltStack);
  (OpFromAltStack, Opcode OpFromAltStack "OP_FROMALTSTACK" 1 f_opcodeFromAltStack);
  (Op2Drop, Opcode Op2Drop "OP_2DROP" 1 f_opcode2Drop);
  (Op2Dup, Opcode Op2Dup "OP_2DUP" 1 f_opcode2Dup);
  (Op3Dup, Opcode Op3Dup "OP_3DUP" 1 f_opcode3Dup);
  (Op2Over, Opcode Op2Over "OP_2OVER" 1 f_opcode2Over);
  (Op2Rot, Opcode Op2Rot "OP_2ROT" 1 f_opcode2Rot);
  (Op2Swap, Opcode Op2Swap "OP_2SWAP" 1 f_opcode2Swap);
  (OpIfDup, Opcode OpIfDup "OP_IFDUP" 1 f_opcodeIfDup);
  (OpDepth, Opcode OpDepth "OP_DEPTH" 1 f_opcodeDepth);
  (OpDrop, Opcode OpDrop "OP_DROP" 1 f_opcodeDrop);
  (OpDup, Opcode OpDup "OP_DUP" 1 f_opcodeDup);
  (OpNip, Opcode OpNip "OP_NIP" 1 f_opcodeNip);
  (OpOver, Opcode OpOver "OP_OVER" 1 f_opcodeOver);
  (OpPick, Opcode OpPick "OP_PICK" 1 f_opcodePick);
  (OpRoll, Opcode OpRoll "OP_ROLL" 1 f_opcodeRoll);
  (OpRot, Opcode OpRot "OP_ROT" 1 f_opcodeRot);
  (OpSwap, Opcode OpSwap "OP_SWAP" 1 f_opcodeSwap);
  (OpTuck, Opcode OpTuck "OP_TUCK" 1 f_opcodeTuck)
]%string.

Definition spliceOpcodes : list (Z * opcode) := [
  (OpCat, Opcode OpCat "OP_CAT" 1 f_opcodeDisabled);
  (OpSubStr, Opcode OpSubStr "OP_SUBSTR" 1 f_opcodeDisabled);
  (OpLeft, Opcode OpLeft "OP_LEFT" 1 f_opcodeDisabled);
  (OpRight, Opcode OpRight "OP_RIGHT" 1 f_opcodeDisabled);
  (OpSize, Opcode OpSize "OP_SIZE" 1 f_opcodeSize)
]%string.

Definition bitwiseOpcodes : list (Z * opcode) := [
  (OpInvert, Opcode OpInvert "OP_INVERT" 1 f_opcodeDisabled);
  (OpAnd, Opcode OpAnd "OP_AND" 1 f_opcodeDisabled);
  (OpOr, Opcode OpOr "OP_OR" 1 f_opcodeDisabled);
  (OpXor, Opcode OpXor "OP_XOR" 1 f_opcodeDisabled);
  (OpEqual, Opcode OpEqual "OP_EQUAL" 1 f_opcodeEqual);
  (OpEqualVerify, Opcode OpEqualVerify "OP_EQUALVERIFY" 1 f_opcodeEqualVerify);
  (OpReserved1, Opcode OpReserved1 "OP_RESERVED1" 1 f_opcodeReserved);
  (OpReserved2, Opcode OpReserved2 "OP_RESERVED2" 1 f_opcodeReserved)
]%string.

Definition numericOpcodes : list (Z * opcode) := [
  (Op1Add, Opcode Op1Add "OP_1ADD" 1 f_opcode1Add);
  (Op1Sub, Opcode Op1Sub "OP_1SUB" 1 f_opcode1Sub);
  (Op2Mul, Opcode Op2Mul "OP_2MUL" 1 f_opcode2Mul);
  (Op2Div, Opcode Op2Div "OP_2DIV" 1 f_opcode2Div);
  (OpNegate, Opcode OpNegate "OP_NEGATE" 1 f_opcodeNegate);
  (OpAbs, Opcode OpAbs "OP_ABS" 1 f_opcodeAbs);
  (OpNot, Opcode OpNot "OP_NOT" 1 f_opcodeNot);
  (Op0NotEqual, Opcode Op0NotEqual "OP_0NOTEQUAL" 1 f_opcode0NotEqual);
  (OpAdd, Opcode OpAdd "OP_ADD" 1 f_opcodeAdd);
  (OpSub, Opcode OpSub "OP_SUB" 1 f_opcodeSub);
  (OpMul, Opcode OpMul "OP_MUL" 1 f_opcodeMul);
  (OpDiv, Opcode OpDiv "OP_DIV" 1 f_opcodeDiv);
  (OpMod, Opcode OpMod "OP_MOD" 1 f_opcodeMod);
  (OpLShift, Opcode OpLShift "OP_LSHIFT" 1 f_opcodeLShift);
  (OpRShift, Opcode OpRShift "OP_RSHIFT" 1 f_opcodeRShift);
  (OpBoolAnd, Opcode OpBoolAnd "OP_BOOLAND" 1 f_opcodeBoolAnd);
  (OpBoolOr, Opcode OpBoolOr "OP_BOOLOR" 1 f_opcodeBoolOr);
  (OpNumEqual, Opcode OpNumEqual "OP_NUMEQUAL" 1 f_opcodeNumEqual);
  (OpNumEqualVerify, Opcode OpNumEqualVerify "OP_NUMEQUALVERIFY" 1 f_opcodeNumEqualVerify);
  (OpNumNotEqual, Opcode OpNumNotEqual "OP_NUMNOTEQUAL" 1 f_opcodeNumNotEqual);
  (OpLessThan, Opcode OpLessThan "OP_LESSTHAN" 1 f_opcodeLessThan);
  (OpGreaterThan, Opcode OpGreaterThan "OP_GREATERTHAN" 1 f_opcodeGreaterThan);
  (OpLessThanOrEqual, Opcode OpLessThanOrEqual "OP_LESSTHANOREQUAL" 1 f_opcodeLessThanOrEqual);
  (OpGreaterThanOrEqual, Opcode OpGreaterThanOrEqual "OP_GREATERTHANOREQUAL" 1 f_opcodeGreaterThanOrEqual);
  (OpMin, Opcode OpMin "OP_MIN" 1 f_opcodeMin);
  (OpMax, Opcode OpMax "OP_MAX" 1 f_opcodeMax);
  (OpWithin, Opcode OpWithin "OP_WITHIN" 1 f_opcodeWithin)
]%string.

Definition cryptoOpcodes : list (Z * opcode) := [
  (OpCheckMultiSigECDSA, Opcode OpCheckMultiSigECDSA "OP_CHECKMULTISIGECDSA" 1 f_opcodeCheckMultiSigECDSA);
  (OpSHA256, Opcode OpSHA256 "OP_SHA256" 1 f_opcodeSha256);
  (OpBlake2b, Opcode OpBlake2b "OP_BLAKE2B" 1 f_opcodeBlake2b);
  (OpCheckSigECDSA, Opcode OpCheckSigECDSA "OP_CHECKSIGECDSA" 1 f_opcodeCheckSigECDSA);
  (OpCheckSig, Opcode OpCheckSig "OP_CHECKSIG" 1 f_opcodeCheckSig);
  (OpCheckSigVerify, Opcode OpCheckSigVerify "OP_CHECKSIGVERIFY" 1 f_opcodeCheckSigVerify);
  (OpCheckMultiSig, Opcode OpCheckMultiSig "OP_CHECKMULTISIG" 1 f_opcodeCheckMultiSig);
  (OpCheckMultiSigVerify, Opcode OpCheckMultiSigVerify "OP_CHECKMULTISIGVERIFY" 1 f_opcodeCheckMultiSigVerify);
  (OpCheckSigMLDSA44, Opcode OpCheckSigMLDSA44 "OP_CHECKSIGMLDSA44" 1 f_opcodeCheckSigMLDSA44)
]%string.

Definition undefinedOpcodes : list (Z * opcode) := [
  (OpUnknown167, Opcode OpUnknown167 "OP_UNKNOWN167" 1 f_opcodeInvalid);
  (OpUnknown178, Opcode OpUnknown188 "OP_UNKNOWN178" 1 f_opcodeInvalid);
  (OpUnknown179, Opcode OpUnknown189 "OP_UNKNOWN179" 1 f_opcodeInvalid);
  (OpUnknown180, Opcode OpUnknown190 "OP_UNKNOWN180" 1 f_opcodeInvalid);
  (OpUnknown181, Opcode OpUnknown191 "OP_UNKNOWN181" 1 f_opcodeInvalid);
  (OpUnknown182, Opcode OpUnknown192 "OP_UNKNOWN182" 1 f_opcodeInvalid);
  (OpUnknown183, Opcode OpUnknown193 "OP_UNKNOWN183" 1 f_opcodeInvalid);
  (OpUnknown184, Opcode OpUnknown194 "OP_UNKNOWN184" 1 f_opcodeInvalid);
  (OpUnknown185, Opcode OpUnknown195 "OP_UNKNOWN185" 1 f_opcodeInvalid);
  (OpUnknown186, Opcode OpUnknown196 "OP_UNKNOWN186" 1 f_opcodeInvalid);
  (OpUnknown187, Opcode OpUnknown197 "OP_UNKNOWN187" 1 f_opcodeInvalid);
  (OpUnknown188, Opcode OpUnknown188 "OP_UNKNOWN188" 1 f_opcodeInvalid);
  (OpUnknown189, Opcode OpUnknown189 "OP_UNKNOWN189" 1 f_opcodeInvalid);
  (OpUnknown190, Opcode OpUnknown190 "OP_UNKNOWN190" 1 f_opcodeInvalid);
  (OpUnknown191, Opcode OpUnknown191 "OP_UNKNOWN191" 1 f_opcodeInvalid);
  (OpUnknown192, Opcode OpUnknown192 "OP_UNKNOWN192" 1 f_opcodeInvalid);
  (OpUnknown193, Opcode OpUnknown193 "OP_UNKNOWN193" 1 f_opcodeInvalid);
  (OpUnknown194, Opcode OpUnknown194 "OP_UNKNOWN194" 1 f_opcodeInvalid);
  (OpUnknown195, Opcode OpUnknown195 "OP_UNKNOWN195" 1 f_opcodeInvalid);
  (OpUnknown196, Opcode OpUnknown196 "OP_UNKNOWN196" 1 f_opcodeInvalid);
  (OpUnknown197, Opcode OpUnknown197 "OP_UNKNOWN197" 1 f_opcodeInvalid);
  (OpUnknown198, Opcode OpUnknown198 "OP_UNKNOWN198" 1 f_opcodeInvalid);
  (OpUnknown199, Opcode OpUnknown199 "OP_UNKNOWN199" 1 f_opcodeInvalid);
  (OpUnknown200, Opcode OpUnknown200 "OP_UNKNOWN200" 1 f_opcodeInvalid);
  (OpUnknown201, Opcode OpUnknown201 "OP_UNKNOWN201" 1 f_opcodeInvalid);
  (OpUnknown202, Opcode OpUnknown202 "OP_UNKNOWN202" 1 f_opcodeInvalid);
  (OpUnknown203, Opcode OpUnknown203 "OP_UNKNOWN203" 1 f_opcodeInvalid);
  (OpUnknown204, Opcode OpUnknown204 "OP_UNKNOWN204" 1 f_opcodeInvalid);
  (OpUnknown205, Opcode OpUnknown205 "OP_UNKNOWN205" 1 f_opcodeInvalid);
  (OpUnknown206, Opcode OpUnknown206 "OP_UNKNOWN206" 1 f_opcodeInvalid);
  (OpUnknown207, Opcode OpUnknown207 "OP_UNKNOWN207" 1 f_opcodeInvalid);
  (OpUnknown208, Opcode OpUnknown208 "OP_UNKNOWN208" 1 f_opcodeInvalid);
  (OpUnknown209, Opcode OpUnknown209 "OP_UNKNOWN209" 1 f_opcodeInvalid);
  (OpUnknown210, Opcode OpUnknown210 "OP_UNKNOWN210" 1 f_opcodeInvalid);
  (OpUnknown211, Opcode OpUnknown211 "OP_UNKNOWN211" 1 f_opcodeInvalid);
  (OpUnknown212, Opcode OpUnknown212 "OP_UNKNOWN212" 1 f_opcodeInvalid);
  (OpUnknown213, Opcode OpUnknown213 "OP_UNKNOWN213" 1 f_opcodeInvalid);
  (OpUnknown214, Opcode OpUnknown214 "OP_UNKNOWN214" 1 f_opcodeInvalid);
  (OpUnknown215, Opcode OpUnknown215 "OP_UNKNOWN215" 1 f_opcodeInvalid);
  (OpUnknown216, Opcode OpUnknown216 "OP_UNKNOWN216" 1 f_opcodeInvalid);
  (OpUnknown217, Opcode OpUnknown217 "OP_UNKNOWN217" 1 f_opcodeInvalid);
  (OpUnknown218, Opcode OpUnknown218 "OP_UNKNOWN218" 1 f_opcodeInvalid);
  (OpUnknown219, Opcode OpUnknown219 "OP_UNKNOWN219" 1 f_opcodeInvalid);
  (OpUnknown220, Opcode OpUnknown220 "OP_UNKNOWN220" 1 f_opcodeInvalid);
  (OpUnknown221, Opcode OpUnknown221 "OP_UNKNOWN221" 1 f_opcodeInvalid);
  (OpUnknown222, Opcode OpUnknown222 "OP_UNKNOWN222" 1 f_opcodeInvalid);
  (OpUnknown223, Opcode OpUnknown223 "OP_UNKNOWN223" 1 f_opcodeInvalid);
  (OpUnknown224, Opcode OpUnknown224 "OP_UNKNOWN224" 1 f_opcodeInvalid);
  (OpUnknown225, Opcode OpUnknown225 "OP_UNKNOWN225" 1 f_opcodeInvalid);
  (OpUnknown226, Opcode OpUnknown226 "OP_UNKNOWN226" 1 f_opcodeInvalid);
  (OpUnknown227, Opcode OpUnknown227 "OP_UNKNOWN227" 1 f_opcodeInvalid);
  (OpUnknown228, Opcode OpUnknown228 "OP_UNKNOWN228" 1 f_opcodeInvalid);
  (OpUnknown229, Opcode OpUnknown229 "OP_UNKNOWN229" 1 f_opcodeInvalid);
  (OpUnknown230, Opcode OpUnknown230 "OP_UNKNOWN230" 1 f_opcodeInvalid);
  (OpUnknown231, Opcode OpUnknown231 "OP_UNKNOWN231" 1 f_opcodeInvalid);
  (OpUnknown232, Opcode OpUnknown232 "OP_UNKNOWN232" 1 f_opcodeInvalid);
  (OpUnknown233, Opcode OpUnknown233 "OP_UNKNOWN233" 1 f_opcodeInvalid);
  (OpUnknown234, Opcode OpUnknown234 "OP_UNKNOWN234" 1 f_opcodeInvalid);
  (OpUnknown235, Opcode OpUnknown235 "OP_UNKNOWN235" 1 f_opcodeInvalid);
  (OpUnknown236, Opcode OpUnknown236 "OP_UNKNOWN236" 1 f_opcodeInvalid);
  (OpUnknown237, Opcode OpUnknown237 "OP_UNKNOWN237" 1 f_opcodeInvalid);
  (OpUnknown238, Opcode OpUnknown238 "OP_UNKNOWN238" 1 f_opcodeInvalid);
  (OpUnknown239, Opcode OpUnknown239 "OP_UNKNOWN239" 1 f_opcodeInvalid);
  (OpUnknown240, Opcode OpUnknown240 "OP_UNKNOWN240" 1 f_opcodeInvalid);
  (OpUnknown241, Opcode OpUnknown241 "OP_UNKNOWN241" 1 f_opcodeInvalid);
  (OpUnknown242, Opcode OpUnknown242 "OP_UNKNOWN242" 1 f_opcodeInvalid);
  (OpUnknown243, Opcode OpUnknown243 "OP_UNKNOWN243" 1 f_opcodeInvalid);
  (OpUnknown244, Opcode OpUnknown244 "OP_UNKNOWN244" 1 f_opcodeInvalid);
  (OpUnknown245, Opcode OpUnknown245 "OP_UNKNOWN245" 1 f_opcodeInvalid);
  (OpUnknown246, Opcode OpUnknown246 "OP_UNKNOWN246" 1 f_opcodeInvalid);
  (OpUnknown247, Opcode OpUnknown247 "OP_UNKNOWN247" 1 f_opcodeInvalid);
  (OpUnknown248, Opcode OpUnknown248 "OP_UNKNOWN248" 1 f_opcodeInvalid);
  (OpUnknown249, Opcode OpUnknown249 "OP_UNKNOWN249" 1 f_opcodeInvalid);
  (OpSmallInteger, Opcode OpSmallInteger "OP_SMALLINTEGER" 1 f_opcodeInvalid);
  (OpPubKeys, Opcode OpPubKeys "OP_PUBKEYS" 1 f_opcodeInvalid);
  (OpUnknown252, Opcode OpUnknown252 "OP_UNKNOWN252" 1 f_opcodeInvalid);
  (OpPubKeyHash, Opcode OpPubKeyHash "OP_PUBKEYHASH" 1 f_opcodeInvalid);
  (OpPubKey, Opcode OpPubKey "OP_PUBKEY" 1 f_opcodeInvalid);
  (OpInvalidOpCode, Opcode OpInvalidOpCode "OP_INVALIDOPCODE" 1 f_opcodeInvalid)
]%string.

Definition opcodeEntries : list (Z * opcode) :=
  dataPushOpcodes ++ controlOpcodes ++ stackOpcodes ++ spliceOpcodes ++
  bitwiseOpcodes ++ numericOpcodes ++ cryptoOpcodes ++ undefinedOpcodes.

(** The cell a keyed array literal gives to index [i]. *)
Fixpoint entryAt (i : Z) (entries : list (Z * opcode)) : opcode :=
  match entries with
  | [] => zeroOpcode
  | (k, op) :: entries' => if k =? i then op else entryAt i entries'
  end.

Definition opcodeArray : list opcode :=
  Eval vm_compute in map (fun i => entryAt (Z.of_nat i) opcodeEntries) (seq 0 256).

(** [opcodes[b]] for a byte [b]: the array has 256 cells, so the index is always
    in range. *)
Definition opcodeAt (opcodes : list opcode) (b : byte) : opcode :=
  nth (Z.to_nat (bz b)) opcodes zeroOpcode.
