(* ===== verification/Script.v ===== *)
(** * Parsed scripts

    The script-level functions of
    [src/domain/consensus/utils/txscript/script.go] and the [parsedOpcode]
    methods of [opcode.go] that do not run the engine: parsing, unparsing,
    minimal pushes, classification of opcodes and the counting of signature
    operations.

    [parseScriptTemplate] walks the script by index; the model walks the suffix
    of the script that starts at that index, with one unit of fuel per iteration
    ([parseLoop]).  [parseLoop_total] shows that the fuel given by
    [parseScriptTemplate] is enough for every table whose lengths are not 0. *)

From Stdlib Require Import Btauto.
From S2P Require Import Prelude ScriptError OpcodeTable.

(** ** Data *)

Record parsedOpcode : Type := ParsedOpcode {
  pop_opcode : opcode;
  pop_data : bytes
}.

#[export] Instance parsedOpcode_eq_dec : EqDecision parsedOpcode.
Proof. solve_decision. Defined.

Definition pop_value (pop : parsedOpcode) : Z := op_value (pop_opcode pop).

Definition maxScriptInt : Z := MaxInt64.

Definition checkedUintToInt (value : Z) : Z * bool :=
  if maxScriptInt <? value then (0, false) else (value, true).

Definition MaxOpsPerScript : Z := 201.
Definition MaxPubKeysPerMultiSig : Z := 20.
Definition MaxScriptElementSize : Z := 520.

Definition ScriptFlags := Z.
Definition ScriptNoFlags : ScriptFlags := 0.
Definition ScriptEnableDisabledOpcodes : ScriptFlags := 1.
Definition ScriptEnableMLDSA44 : ScriptFlags := 2.

(** [flags&flag != 0] *)
Definition hasFlag (flags flag : ScriptFlags) : bool := negb (Z.land flags flag =? 0).

(** ** Classification of one opcode *)

Definition isDisabled (pop : parsedOpcode) : bool :=
  existsb (Z.eqb (pop_value pop))
    [OpCat; OpSubStr; OpLeft; OpRight; OpInvert; OpAnd; OpOr; OpXor; Op2Mul;
     Op2Div; OpMul; OpDiv; OpMod; OpLShift; OpRShift].

Definition alwaysIllegal (pop : parsedOpcode) : bool :=
  existsb (Z.eqb (pop_value pop)) [OpVerIf; OpVerNotIf].

Definition isConditional (pop : parsedOpcode) : bool :=
  existsb (Z.eqb (pop_value pop)) [OpIf; OpNotIf; OpElse; OpEndIf].

(** [data[0]], read by the code only under a guard on the length. *)
Definition byte0 (data : bytes) : Z :=
  match data with [] => 0 | b :: _ => bz b end.

Definition checkMinimalDataPush {S} (pop : parsedOpcode) : M S error unit :=
  let data := pop_data pop in
  let dataLen := len data in
  let opcode := pop_value pop in
  if (dataLen =? 0) && negb (opcode =? Op0) then scriptError ErrMinimalData
  else if (dataLen =? 1) && (1 <=? byte0 data) && (byte0 data <=? 16) then
    guard_err (negb (opcode =? u8 (Op1 + byte0 data - 1))) (ScriptError ErrMinimalData)
  else if (dataLen =? 1) && (byte0 data =? 0x81) then
    guard_err (negb (opcode =? Op1Negate)) (ScriptError ErrMinimalData)
  else if dataLen <=? 75 then
    guard_err (negb (opcode =? dataLen)) (ScriptError ErrMinimalData)
  else if dataLen <=? 255 then
    guard_err (negb (opcode =? OpPushData1)) (ScriptError ErrMinimalData)
  else if dataLen <=? 65535 then
    guard_err (negb (opcode =? OpPushData2)) (ScriptError ErrMinimalData)
  else ret tt.

Definition isSmallInt (op : opcode) : bool :=
  (op_value op =? Op0) || ((Op1 <=? op_value op) && (op_value op <=? Op16)).

Definition asSmallInt (op : opcode) : Z :=
  if op_value op =? Op0 then 0 else u8 (op_value op - (Op1 - 1)).

Definition canonicalPush (pop : parsedOpcode) : bool :=
  let opcode := pop_value pop in
  let dataLen := len (pop_data pop) in
  if Op16 <? opcode then true
  else if (opcode <? OpPushData1) && (Op0 <? opcode)
          && ((dataLen =? 1) && (byte0 (pop_data pop) <=? 16)) then false
  else if (opcode =? OpPushData1) && (dataLen <? OpPushData1) then false
  else if (opcode =? OpPushData2) && (dataLen <=? 0xff) then false
  else if (opcode =? OpPushData4) && (dataLen <=? 0xffff) then false
  else true.

(** ** Parsing *)

(** The little-endian length that follows an OP_PUSHDATA opcode, read from the
    script after the opcode; [None] for an opcode length that has no case. *)
Definition pushLength (oplen : Z) (s : bytes) : option Z :=
  match oplen, s with
  | -1, b0 :: _ => Some (bz b0)
  | -2, b0 :: b1 :: _ => Some (Z.lor (Z.shiftl (bz b1) 8) (bz b0))
  | -4, b0 :: b1 :: b2 :: b3 :: _ =>
      Some (Z.lor (Z.lor (Z.lor (Z.shiftl (bz b3) 24) (Z.shiftl (bz b2) 16))
                         (Z.shiftl (bz b1) 8)) (bz b0))
  | _, _ => None
  end.

(** One iteration of the loop of [parseScriptTemplate] at [script[i:] = instr :: rest]:
    the parsed opcode and the script at the next index, or the error. *)
Definition parseStep (opcodes : list opcode) (instr : byte) (rest : bytes)
  : (parsedOpcode * bytes) + ErrorCode :=
  let op := opcodeAt opcodes instr in
  let script := instr :: rest in
  if op_length op =? 1 then inl (ParsedOpcode op [], rest)
  else if 1 <? op_length op then
    if len script <? op_length op then inr ErrMalformedPush
    else inl (ParsedOpcode op (take (Z.to_nat (op_length op - 1)) rest),
              drop (Z.to_nat (op_length op - 1)) rest)
  else if op_length op <? 0 then
    if len rest <? - op_length op then inr ErrMalformedPush
    else match pushLength (op_length op) rest with
    | None => inr ErrMalformedPush
    | Some l =>
        let data := drop (Z.to_nat (- op_length op)) rest in
        let '(dataLen, ok) := checkedUintToInt l in
        if negb ok || (len data <? dataLen) || (dataLen <? 0)
        then inr ErrMalformedPush
        else inl (ParsedOpcode op (take (Z.to_nat dataLen) data),
                  drop (Z.to_nat dataLen) data)
    end
  else inl (ParsedOpcode op [], script).

(** The opcodes parsed so far come with the error, as in the code. *)
Fixpoint parseLoop (opcodes : list opcode) (fuel : nat) (script : bytes)
  : option (list parsedOpcode * option ErrorCode) :=
  match fuel, script with
  | _, [] => Some ([], None)
  | O, _ :: _ => None
  | S fuel, instr :: rest =>
      match parseStep opcodes instr rest with
      | inr e => Some ([], Some e)
      | inl (pop, script') =>
          match parseLoop opcodes fuel script' with
          | Some (pops, e) => Some (pop :: pops, e)
          | None => None
          end
      end
  end.

Definition parseScriptTemplate (script : bytes) (opcodes : list opcode)
  : option (list parsedOpcode * option ErrorCode) :=
  parseLoop opcodes (List.length script) script.

(** The loop of [countScriptOpcodes]: a fixed-size push is stepped over without
    checking that the script holds it. *)
Fixpoint countLoop (opcodes : list opcode) (fuel : nat) (script : bytes) (count : Z)
  : option Z :=
  match fuel, script with
  | _, [] => Some count
  | O, _ :: _ => None
  | S fuel, instr :: rest =>
      let op := opcodeAt opcodes instr in
      if op_length op =? 1 then countLoop opcodes fuel rest (count + 1)
      else if 1 <? op_length op then
        countLoop opcodes fuel (drop (Z.to_nat (op_length op)) script) (count + 1)
      else if len rest <? - op_length op then Some (count + 1)
      else match pushLength (op_length op) rest with
      | None => Some (count + 1)
      | Some l =>
          let data := drop (Z.to_nat (- op_length op)) rest in
          let '(dataLen, ok) := checkedUintToInt l in
          if negb ok || (len data <? dataLen) || (dataLen <? 0) then Some (count + 1)
          else countLoop opcodes fuel (drop (Z.to_nat dataLen) data) (count + 1)
      end
  end.

Definition countScriptOpcodes (script : bytes) (opcodes : list opcode) : option Z :=
  countLoop opcodes (List.length script) script 0.

(** [parseScriptTemplate] at the table of the program, where it is total
    ([ParseScript_template]). *)
Definition ParseScript (script : bytes) : list parsedOpcode * option ErrorCode :=
  default ([], None) (parseScriptTemplate script opcodeArray).

(** ** Unparsing *)

(** The switch of [bytes] that appends the length of the data after the opcode
    byte and computes the expected total; other lengths leave both unchanged. *)
Definition lengthPrefix (value : byte) (oplen l : Z) : bytes * Z :=
  match oplen with
  | -1 =>
      let retbytes := [value; zb l] in
      (retbytes, bz (zb l) + len retbytes)
  | -2 =>
      let lenbytes := [zb (Z.land l 0xff); zb (Z.land (Z.shiftr l 8) 0xff)] in
      let retbytes := value :: lenbytes in
      (retbytes, le_combine lenbytes + len retbytes)
  | -4 =>
      let lenbytes :=
        [zb (Z.land l 0xff); zb (Z.land (Z.shiftr l 8) 0xff);
         zb (Z.land (Z.shiftr l 16) 0xff); zb (Z.land (Z.shiftr l 24) 0xff)] in
      let retbytes := value :: lenbytes in
      (retbytes, le_combine lenbytes + len retbytes)
  | _ => ([value], oplen)
  end.

Definition pop_bytes {S} (pop : parsedOpcode) : M S error bytes :=
  let op := pop_opcode pop in
  let data := pop_data pop in
  let value := zb (op_value op) in
  if op_length op =? 1 then
    if negb (len data =? 0) then scriptError ErrInternal else ret [value]
  else
    let '(retbytes, nbytes) := lengthPrefix value (op_length op) (len data) in
    let retbytes := retbytes ++ data in
    if negb (len retbytes =? nbytes) then scriptError ErrInternal else ret retbytes.

Fixpoint unparseScript {S} (pops : list parsedOpcode) : M S error bytes :=
  match pops with
  | [] => ret []
  | pop :: pops =>
      b <- pop_bytes pop ;;
      script <- unparseScript pops ;;
      ret (b ++ script)
  end.

(** ** Script classification and signature operations *)

Definition isScriptHash (pops : list parsedOpcode) : bool :=
  match pops with
  | [p0; p1; p2] =>
      (pop_value p0 =? OpBlake2b) && (pop_value p1 =? OpData32)
      && (pop_value p2 =? OpEqual)
  | _ => false
  end.

Definition IsPayToScriptHash (script : bytes) : bool :=
  match ParseScript script with
  | (_, Some _) => false
  | (pops, None) => isScriptHash pops
  end.

Definition isPushOnly (pops : list parsedOpcode) : bool :=
  forallb (fun pop => negb (Op16 <? pop_value pop)) pops.

Definition IsPushOnlyScript {S} (script : bytes) : M S error bool :=
  match ParseScript script with
  | (_, Some e) => scriptError e
  | (pops, None) => ret (isPushOnly pops)
  end.

(** What the opcode [pop] adds to the count, [prev] being [pops[i-1]] when [i > 0]. *)
Definition sigOpsOf (precise : bool) (flags : ScriptFlags)
    (prev : option parsedOpcode) (pop : parsedOpcode) : Z :=
  let v := pop_value pop in
  if existsb (Z.eqb v) [OpCheckSig; OpCheckSigVerify; OpCheckSigECDSA] then 1
  else if v =? OpCheckSigMLDSA44 then
    if hasFlag flags ScriptEnableMLDSA44 then 1 else 0
  else if existsb (Z.eqb v)
            [OpCheckMultiSig; OpCheckMultiSigVerify; OpCheckMultiSigECDSA] then
    match prev with
    | Some p =>
        if precise && (Op1 <=? pop_value p) && (pop_value p <=? Op16)
        then asSmallInt (pop_opcode p) else MaxPubKeysPerMultiSig
    | None => MaxPubKeysPerMultiSig
    end
  else 0.

Fixpoint getSigOpLoop (precise : bool) (flags : ScriptFlags)
    (prev : option parsedOpcode) (pops : list parsedOpcode) (nSigs : Z) : Z :=
  match pops with
  | [] => nSigs
  | pop :: pops =>
      getSigOpLoop precise flags (Some pop) pops (nSigs + sigOpsOf precise flags prev pop)
  end.

Definition getSigOpCount (pops : list parsedOpcode) (precise : bool)
    (flags : ScriptFlags) : Z :=
  getSigOpLoop precise flags None pops 0.

Definition GetSigOpCount (script : bytes) : Z :=
  getSigOpCount (ParseScript script).1 false ScriptNoFlags.

Definition getPreciseSigOpCountFromParsedScript (scriptSig : bytes)
    (pops : list parsedOpcode) (flags : ScriptFlags) : Z :=
  if negb (isScriptHash pops) then getSigOpCount pops true flags
  else match ParseScript scriptSig with
  | (_, Some _) => 0
  | (sigPops, None) =>
      if negb (isPushOnly sigPops) then 0
      else match list.last sigPops with
      | None => 0
      | Some pop =>
          if len (pop_data pop) =? 0 then 0
          else getSigOpCount (ParseScript (pop_data pop)).1 true flags
      end
  end.

Definition GetPreciseSigOpCountWithFlags (scriptSig scriptPubKey : bytes)
    (flags : ScriptFlags) : Z :=
  getPreciseSigOpCountFromParsedScript scriptSig (ParseScript scriptPubKey).1 flags.

Definition GetPreciseSigOpCount (scriptSig scriptPubKey : bytes) : Z :=
  GetPreciseSigOpCountWithFlags scriptSig scriptPubKey ScriptNoFlags.

Definition IsUnspendable (scriptPubKey : bytes) : bool :=
  match ParseScript scriptPubKey with
  | (_, Some _) => true
  | (pop :: _, None) => pop_value pop =? OpReturn
  | ([], None) => false
  end.

(** ** Reference encoding of one opcode *)

(** The number of length bytes of an OP_PUSHDATA opcode. *)
Definition lengthBytes (oplen : Z) : option nat :=
  match oplen with -1 => Some 1%nat | -2 => Some 2%nat | -4 => Some 4%nat | _ => None end.

(** The bytes that follow the opcode byte in a script, when the data fits the opcode. *)
Definition operand (pop : parsedOpcode) : option bytes :=
  let oplen := op_length (pop_opcode pop) in
  let data := pop_data pop in
  if oplen =? 1 then (if len data =? 0 then Some [] else None)
  else if 1 <? oplen then (if len data + 1 =? oplen then Some data else None)
  else match lengthBytes oplen with
  | Some k => if len data <? 2 ^ (8 * Z.of_nat k)
              then Some (le_split k (len data) ++ data) else None
  | None => None
  end.

(** A table entry whose value is the index of a cell holding that entry. *)
Definition self_indexed (pop : parsedOpcode) : Prop :=
  opcodeAt opcodeArray (zb (pop_value pop)) = pop_opcode pop.

#[export] Instance self_indexed_dec pop : Decision (self_indexed pop).
Proof. unfold self_indexed. apply _. Defined.

(** ** Lemmas on one opcode *)

Lemma zb_land_255 (z : Z) : zb (Z.land z 0xff) = zb z.
Proof.
  apply byte.unsigned_inj. change 0xff with (Z.ones 8).
  rewrite !bz_zb, Z.land_ones by lia. apply Z.mod_mod. lia.
Qed.

Lemma lengthBytes_Some (oplen : Z) k :
  lengthBytes oplen = Some k ->
  (oplen = -1 /\ k = 1%nat) \/ (oplen = -2 /\ k = 2%nat) \/ (oplen = -4 /\ k = 4%nat).
Proof. unfold lengthBytes. intros. repeat case_match; simplify_eq; auto. Qed.

Lemma pushLength_combine (oplen : Z) (s : bytes) :
  - oplen <= len s ->
  pushLength oplen s = (k ← lengthBytes oplen; Some (le_combine (take k s))).
Proof.
  intros Hlen. destruct (lengthBytes oplen) as [k|] eqn:Hk; cbn [mbind option_bind].
  - apply lengthBytes_Some in Hk as [[-> ->] | [[-> ->] | [-> ->]]];
      repeat (destruct s as [|? s]; [unfold len in Hlen; cbn in Hlen; lia|]);
      cbn -[Z.lor Z.shiftl byte.unsigned]; unfold le_combine; f_equal;
      rewrite ?Z.shiftl_lor, ?Z.shiftl_shiftl, ?Z.shiftl_0_l by lia;
      apply Z.bits_inj'; intros i Hi; rewrite !Z.lor_spec, ?Z.bits_0;
      change (8 + (8 + 8)) with 24; change (8 + 8) with 16; btauto.
  - revert Hk. unfold lengthBytes, pushLength.
    repeat (case_match; try done).
Qed.

Lemma le_split_2_land (l : Z) :
  [zb (Z.land l 0xff); zb (Z.land (Z.shiftr l 8) 0xff)] = le_split 2 l.
Proof. by rewrite !zb_land_255. Qed.

Lemma le_split_4_land (l : Z) :
  [zb (Z.land l 0xff); zb (Z.land (Z.shiftr l 8) 0xff);
   zb (Z.land (Z.shiftr l 16) 0xff); zb (Z.land (Z.shiftr l 24) 0xff)] = le_split 4 l.
Proof. rewrite !zb_land_255. unfold le_split. by rewrite !Z.shiftr_shiftr by lia. Qed.

(** The final length check of [bytes] for an opcode with [n] length bytes. *)
Lemma length_check_le_split {S} (n : nat) (v : byte) (data : bytes) (s : S) :
  let retbytes := v :: le_split n (len data) in
  (if negb (len (retbytes ++ data) =? le_combine (le_split n (len data)) + len retbytes)
   then scriptError ErrInternal else ret (retbytes ++ data)) s
  = (match if len data <? 2 ^ (8 * Z.of_nat n)
           then Some (le_split n (len data) ++ data) else None with
     | Some X => Ret (v :: X)
     | None => Err (ScriptError ErrInternal)
     end, s).
Proof.
  cbn zeta. rewrite len_app, !len_cons, len_le_split, le_combine_split, (Z.mul_comm _ 8).
  pose proof (len_nonneg data).
  pose proof (Z.mod_pos_bound (len data) (2 ^ (8 * Z.of_nat n))).
  destruct (Z.ltb_spec (len data) (2 ^ (8 * Z.of_nat n))).
  - rewrite Z.mod_small, (proj2 (Z.eqb_eq _ _)) by lia. done.
  - rewrite (proj2 (Z.eqb_neq _ _)) by lia. done.
Qed.

Lemma lengthPrefix_other (value : byte) (oplen l : Z) :
  lengthBytes oplen = None -> lengthPrefix value oplen l = ([value], oplen).
Proof. unfold lengthBytes, lengthPrefix. intros. repeat (case_match; try done). Qed.

Lemma pop_bytes_operand {S} (pop : parsedOpcode) (s : S) :
  pop_bytes pop s =
    (match operand pop with
     | Some X => Ret (zb (pop_value pop) :: X)
     | None => Err (ScriptError ErrInternal)
     end, s).
Proof.
  destruct pop as [[v nm l f] data]. unfold pop_bytes, operand, pop_value.
  cbn [pop_opcode pop_data op_length op_value].
  pose proof (len_nonneg data) as Hd.
  destruct (Z.eqb_spec l 1) as [->|H1]; [by destruct (len data =? 0)|].
  destruct (lengthBytes l) as [k|] eqn:Hk.
  - apply lengthBytes_Some in Hk as [[-> ->] | [[-> ->] | [-> ->]]];
      change (1 <? _) with false; cbn [lengthPrefix];
      rewrite <- (length_check_le_split _ (zb v) data s).
    + change (le_split 1 (len data)) with [zb (len data)].
      by rewrite le_combine_cons, Z.add_0_r.
    + by rewrite le_split_2_land.
    + by rewrite le_split_4_land.
  - rewrite lengthPrefix_other by done. cbn [app]. len_simpl.
    destruct (Z.ltb_spec 1 l).
    + rewrite (Z.add_comm 1). by destruct (_ =? _).
    + by rewrite (proj2 (Z.eqb_neq _ _)) by lia.
Qed.

Lemma take_drop_len {A} (n : Z) (l : list A) :
  0 <= n <= len l -> len (take (Z.to_nat n) l) = n.
Proof. unfold len. intros. rewrite length_take_le; lia. Qed.

Lemma take_drop_app {A} (n : Z) (l k : list A) :
  len l = n -> take (Z.to_nat n) (l ++ k) = l /\ drop (Z.to_nat n) (l ++ k) = k.
Proof.
  intros <-. unfold len. rewrite Nat2Z.id. by rewrite take_app_length, drop_app_length.
Qed.

(** A push with length bytes reads its length back. *)
Lemma pushLength_le_split (k : nat) (oplen : Z) (data t : bytes) :
  lengthBytes oplen = Some k -> len data < 2 ^ (8 * Z.of_nat k) ->
  pushLength oplen (le_split k (len data) ++ t) = Some (len data).
Proof.
  intros Hk Hlt. pose proof (len_nonneg t). pose proof (len_nonneg data).
  rewrite pushLength_combine.
  - rewrite Hk. cbn. rewrite take_app_length' by (symmetry; apply length_le_split).
    by rewrite le_combine_le_split.
  - rewrite len_app, len_le_split.
    apply lengthBytes_Some in Hk as [[-> ->] | [[-> ->] | [-> ->]]]; lia.
Qed.

Lemma checkedUintToInt_small (l : Z) :
  l < 2 ^ 32 -> checkedUintToInt l = (l, true).
Proof.
  intros. unfold checkedUintToInt.
  by rewrite (proj2 (Z.ltb_ge _ _)) by (unfold maxScriptInt, MaxInt64; lia).
Qed.

(** Reading an opcode: [parseStep] succeeds on exactly the encodings of an
    opcode of the table followed by the rest of the script. *)
Lemma parseStep_app opcodes instr pop X s' :
  opcodeAt opcodes instr = pop_opcode pop -> operand pop = Some X ->
  parseStep opcodes instr (X ++ s') = inl (pop, s').
Proof.
  destruct pop as [op data]. cbn. intros Hop HX. unfold operand in HX. cbn in HX.
  unfold parseStep. rewrite Hop. clear Hop.
  pose proof (len_nonneg data). pose proof (len_nonneg s').
  destruct (Z.eqb_spec (op_length op) 1).
  { case_match; simplify_eq/=. destruct data; [done|]. rewrite len_cons in *.
    pose proof (len_nonneg data). lia. }
  destruct (Z.ltb_spec 1 (op_length op)).
  { case_match; simplify_eq/=. rewrite len_cons, len_app, (proj2 (Z.ltb_ge _ _)) by lia.
    destruct (take_drop_app (op_length op - 1) X s') as [-> ->]; [lia|done]. }
  destruct (lengthBytes (op_length op)) as [k|] eqn:Hk; [|done].
  destruct (Z.ltb_spec (len data) (2 ^ (8 * Z.of_nat k))); simplify_eq/=.
  rewrite <- app_assoc, (pushLength_le_split k) by done.
  rewrite !len_app, len_le_split.
  assert (Hk' : op_length op = - Z.of_nat k /\ 0 < Z.of_nat k <= 4).
  { apply lengthBytes_Some in Hk as [[-> ->] | [[-> ->] | [-> ->]]]; lia. }
  destruct Hk' as [-> Hk4].
  rewrite (proj2 (Z.ltb_lt _ _)), (proj2 (Z.ltb_ge _ _)) by lia.
  rewrite Z.opp_involutive.
  destruct (take_drop_app (Z.of_nat k) (le_split k (len data)) (data ++ s')) as [_ ->];
    [apply len_le_split|].
  rewrite checkedUintToInt_small.
  2:{ pose proof (Z.pow_le_mono_r 2 (8 * Z.of_nat k) 32). lia. }
  cbn [negb orb]. rewrite len_app, !(proj2 (Z.ltb_ge _ _)) by lia. cbn [orb].
  by destruct (take_drop_app (len data) data s') as [-> ->].
Qed.

Lemma parseStep_inv opcodes instr rest pop s' :
  op_length (opcodeAt opcodes instr) <> 0 ->
  parseStep opcodes instr rest = inl (pop, s') ->
  opcodeAt opcodes instr = pop_opcode pop /\
  exists X, operand pop = Some X /\ rest = X ++ s'.
Proof.
  unfold parseStep. intros H0. set (op := opcodeAt opcodes instr) in *.
  destruct (Z.eqb_spec (op_length op) 1) as [H1|H1].
  { intros [= <- <-]. split; [done|]. exists []. unfold operand; cbn. by rewrite H1. }
  destruct (Z.ltb_spec 1 (op_length op)).
  { rewrite len_cons. destruct (Z.ltb_spec (1 + len rest) (op_length op)); [done|].
    intros [= <- <-]. split; [done|]. eexists. rewrite take_drop. split; [|done].
    unfold operand; cbn. rewrite (proj2 (Z.eqb_neq _ _)), (proj2 (Z.ltb_lt 1 _)) by done.
    rewrite take_drop_len, (proj2 (Z.eqb_eq _ _)) by lia. done. }
  rewrite (proj2 (Z.ltb_lt _ _)) by lia.
  destruct (Z.ltb_spec (len rest) (- op_length op)); [done|].
  rewrite pushLength_combine by lia.
  destruct (lengthBytes (op_length op)) as [k|] eqn:Hk; [|done]. cbn [mbind option_bind].
  assert (Hk' : op_length op = - Z.of_nat k /\ 0 < Z.of_nat k <= 4).
  { apply lengthBytes_Some in Hk as [[-> ->] | [[-> ->] | [-> ->]]]; lia. }
  destruct Hk' as [Hopl Hk4]. rewrite Hopl, Z.opp_involutive, Nat2Z.id.
  pose proof (le_combine_bound (take k rest)) as Hb.
  rewrite length_take_le in Hb by (unfold len in *; lia).
  rewrite checkedUintToInt_small.
  2:{ pose proof (Z.pow_le_mono_r 2 (8 * Z.of_nat k) 32). lia. }
  cbn [negb orb]. set (n := le_combine (take k rest)) in *.
  destruct (Z.ltb_spec (len (drop k rest)) n); [done|]. cbn [orb].
  rewrite (proj2 (Z.ltb_ge _ _)) by lia. intros [= <- <-]. split; [done|].
  exists (take k rest ++ take (Z.to_nat n) (drop k rest)).
  rewrite <- app_assoc, !take_drop. split; [|done].
  unfold operand; cbn. rewrite (proj2 (Z.eqb_neq _ _)), (proj2 (Z.ltb_ge 1 _)) by lia.
  rewrite Hk, take_drop_len, (proj2 (Z.ltb_lt _ _)) by lia. do 2 f_equal.
  unfold n. rewrite <- (split_le_combine (take k rest)) at 2.
  by rewrite length_take_le by (unfold len in *; lia).
Qed.

(** ** Lemmas on the parsing loop *)

Section Table.
Context (opcodes : list opcode).
Hypothesis lengths_nonzero : forall b, op_length (opcodeAt opcodes b) <> 0.

Lemma parseStep_suffix instr rest pop s' :
  parseStep opcodes instr rest = inl (pop, s') ->
  exists X, operand pop = Some X /\ rest = X ++ s' /\ (List.length s' <= List.length rest)%nat.
Proof.
  intros H. apply parseStep_inv in H as [_ (X & HX & ->)]; [|done].
  exists X. rewrite length_app. auto with lia.
Qed.

Lemma parseLoop_total fuel script :
  (List.length script <= fuel)%nat ->
  exists pops e, parseLoop opcodes fuel script = Some (pops, e).
Proof.
  revert script. induction fuel as [|fuel IH]; intros [|instr rest] Hf;
    cbn [parseLoop]; try (cbn in Hf; lia); eauto.
  destruct (parseStep opcodes instr rest) as [[pop s']|e] eqn:Hstep; [|eauto].
  apply parseStep_suffix in Hstep as (X & _ & _ & Hlen).
  destruct (IH s') as (pops & e & ->); [cbn in Hf; lia|eauto].
Qed.

(** More fuel does not change the result. *)
Lemma parseLoop_fuel fuel fuel' script :
  (List.length script <= fuel)%nat -> (List.length script <= fuel')%nat ->
  parseLoop opcodes fuel script = parseLoop opcodes fuel' script.
Proof.
  revert fuel' script. induction fuel as [|fuel IH]; intros [|fuel'] [|instr rest] H H';
    cbn [parseLoop]; cbn in H, H'; try lia; try done.
  destruct (parseStep opcodes instr rest) as [[pop s']|e] eqn:Hstep; [|done].
  apply parseStep_suffix in Hstep as (X & _ & _ & Hlen).
  by rewrite (IH fuel' s') by lia.
Qed.

Lemma parseScriptTemplate_cons instr rest :
  parseScriptTemplate (instr :: rest) opcodes =
  match parseStep opcodes instr rest with
  | inr e => Some ([], Some e)
  | inl (pop, s') => '(pops, e) ← parseScriptTemplate s' opcodes; Some (pop :: pops, e)
  end.
Proof.
  unfold parseScriptTemplate. cbn [List.length parseLoop].
  destruct (parseStep opcodes instr rest) as [[pop s']|e] eqn:Hstep; [|done].
  apply parseStep_suffix in Hstep as (X & _ & _ & Hlen).
  rewrite (parseLoop_fuel _ (List.length s')) by lia.
  by destruct (parseLoop _ _ s') as [[]|].
Qed.

Lemma countLoop_parseLoop fuel script count pops e :
  parseLoop opcodes fuel script = Some (pops, e) ->
  countLoop opcodes fuel script count
  = Some (count + len pops + (if e is Some _ then 1 else 0)).
Proof.
  revert script count pops. induction fuel as [|fuel IH]; intros [|instr rest] count pops Hp;
    cbn [parseLoop countLoop] in *; try done.
  1,2: injection Hp as <- <-; f_equal; len_simpl; lia.
  assert (Hgo : forall p s', match parseLoop opcodes fuel s' with
      | Some (ps, e') => Some (p :: ps, e') | None => None end = Some (pops, e) ->
      countLoop opcodes fuel s' (count + 1) = Some (count + len pops + (if e is Some _ then 1 else 0))).
  { intros p s' H. destruct (parseLoop opcodes fuel s') as [[ps e']|] eqn:Hps; [|done].
    injection H as <- <-. erewrite IH by done. rewrite len_cons. f_equal. lia. }
  assert (Hend : Some ([], Some ErrMalformedPush) = Some (pops, e) ->
      Some (count + 1) = Some (count + len pops + (if e is Some _ then 1 else 0))).
  { intros [= <- <-]. f_equal. len_simpl. lia. }
  unfold parseStep in Hp.
  destruct (Z.eqb_spec (op_length (opcodeAt opcodes instr)) 1); [by eapply Hgo|].
  destruct (Z.ltb_spec 1 (op_length (opcodeAt opcodes instr))).
  { replace (Z.to_nat (op_length (opcodeAt opcodes instr)))
      with (S (Z.to_nat (op_length (opcodeAt opcodes instr) - 1))) by lia.
    cbn [drop].
    destruct (Z.ltb_spec (len (instr :: rest)) (op_length (opcodeAt opcodes instr)));
      [|by eapply Hgo].
    rewrite drop_ge by (rewrite len_cons in *; unfold len in *; lia).
    destruct fuel; cbn [countLoop]; auto. }
  rewrite (proj2 (Z.ltb_lt _ 0)) in Hp by (specialize (lengths_nonzero instr); lia).
  destruct (len rest <? _); [auto|].
  destruct (pushLength _ rest); [|auto].
  destruct (checkedUintToInt _) as [dataLen []]; cbn [negb orb] in *; [|auto].
  destruct (_ || _); [auto|by eapply Hgo].
Qed.

End Table.

Lemma opcodeArray_length : List.length opcodeArray = 256%nat.
Proof. reflexivity. Qed.

(** A decidable property of all entries of the table holds of every cell. *)
Lemma opcodeArray_forall (P : opcode -> Prop) `{!forall op, Decision (P op)} :
  forallb (fun op => bool_decide (P op)) opcodeArray = true ->
  forall b, P (opcodeAt opcodeArray b).
Proof.
  rewrite forallb_forall. intros HP b. unfold opcodeAt.
  apply (bool_decide_eq_true_1 (P _)), HP, nth_In. rewrite opcodeArray_length.
  pose proof (bz_range b). lia.
Qed.

(** Every cell of the table has an entry, with a length the parser handles. *)
Lemma opcodeArray_shape (b : byte) :
  let op := opcodeAt opcodeArray b in
  (op_length op = 1 /\ (op_value op = 0 \/ 78 < op_value op)) \/
  (2 <= op_length op <= 76 /\ op_value op = op_length op - 1) \/
  (op_length op = -1 /\ op_value op = OpPushData1) \/
  (op_length op = -2 /\ op_value op = OpPushData2) \/
  (op_length op = -4 /\ op_value op = OpPushData4).
Proof.
  revert b. cbn zeta. apply (opcodeArray_forall (fun op =>
    (op_length op = 1 /\ (op_value op = 0 \/ 78 < op_value op)) \/
    (2 <= op_length op <= 76 /\ op_value op = op_length op - 1) \/
    (op_length op = -1 /\ op_value op = OpPushData1) \/
    (op_length op = -2 /\ op_value op = OpPushData2) \/
    (op_length op = -4 /\ op_value op = OpPushData4))). vm_compute. reflexivity.
Qed.

Lemma opcodeArray_lengths (b : byte) : op_length (opcodeAt opcodeArray b) <> 0.
Proof. pose proof (opcodeArray_shape b). cbn zeta in *. lia. Qed.

Lemma opcodeArray_value (b : byte) :
  op_value (opcodeAt opcodeArray b)
  = if (178 <=? bz b) && (bz b <=? 187) then bz b + 10 else bz b.
Proof. destruct b; reflexivity. Qed.

#[export] Hint Resolve opcodeArray_lengths : go.

Lemma ParseScript_template script :
  parseScriptTemplate script opcodeArray = Some (ParseScript script).
Proof.
  unfold ParseScript, parseScriptTemplate.
  destruct (parseLoop_total opcodeArray opcodeArray_lengths (List.length script) script)
    as (pops & e & ->); done.
Qed.

Lemma ParseScript_cons instr rest :
  ParseScript (instr :: rest) =
  match parseStep opcodeArray instr rest with
  | inr e => ([], Some e)
  | inl (pop, s') => let '(pops, e) := ParseScript s' in (pop :: pops, e)
  end.
Proof.
  pose proof (ParseScript_template (instr :: rest)) as H.
  rewrite parseScriptTemplate_cons in H by auto with go.
  destruct (parseStep opcodeArray instr rest) as [[pop s']|e]; [|by injection H].
  rewrite ParseScript_template in H. cbn in H.
  destruct (ParseScript s'). by injection H.
Qed.

(** Induction on a script that follows its parsing. *)
Lemma ParseScript_ind (P : bytes -> Prop) :
  P [] ->
  (forall instr rest e, parseStep opcodeArray instr rest = inr e ->
     ParseScript (instr :: rest) = ([], Some e) -> P (instr :: rest)) ->
  (forall instr X s' pop pops e,
     opcodeAt opcodeArray instr = pop_opcode pop -> operand pop = Some X ->
     ParseScript s' = (pops, e) -> ParseScript (instr :: X ++ s') = (pop :: pops, e) ->
     P s' -> P (instr :: X ++ s')) ->
  forall script, P script.
Proof.
  intros Hnil Herr Hcons script.
  remember (List.length script) as n eqn:Hn. revert script Hn.
  induction n as [n IH] using lt_wf_ind. intros [|instr rest] ->; [done|].
  pose proof (ParseScript_cons instr rest) as Hp.
  destruct (parseStep opcodeArray instr rest) as [[pop s']|e] eqn:Hstep; [|by eapply Herr].
  apply parseStep_inv in Hstep as [Hop (X & HX & ->)]; [|auto with go].
  destruct (ParseScript s') as [pops e] eqn:Hs'.
  eapply Hcons; [done..|]. eapply IH; [|done]. cbn. rewrite length_app. lia.
Qed.

(** Bytes of a script before the parse error, if any. *)
Lemma ParseScript_operands script :
  Forall (fun pop => is_Some (operand pop) /\ exists b, opcodeAt opcodeArray b = pop_opcode pop)
    (ParseScript script).1.
Proof.
  induction script as [|instr rest e _ Hp|instr X s' pop pops e Hop HX Hs' Hp IH] using ParseScript_ind;
    rewrite ?Hp, ?Hs' in *; cbn in *; eauto.
Qed.

Lemma operand_data pop X : operand pop = Some X -> len (pop_data pop) <= len X.
Proof.
  unfold operand. intros HX. repeat case_match; simplify_eq; zbool; len_simpl; try lia.
  rewrite len_le_split. lia.
Qed.

(** No script has more opcodes than bytes, and no push more data. *)
Lemma ParseScript_sizes script :
  len (ParseScript script).1 <= len script /\
  Forall (fun pop => len (pop_data pop) <= len script) (ParseScript script).1.
Proof.
  induction script as [|instr rest e _ Hp|instr X s' pop pops e Hop HX Hs' Hp [IHn IHd]]
    using ParseScript_ind; rewrite ?Hp, ?Hs' in *; cbn [fst] in *.
  - split; [done|constructor].
  - split; [apply len_nonneg|constructor].
  - pose proof (operand_data pop X HX). pose proof (len_nonneg X). pose proof (len_nonneg s').
    assert (Hl : len (instr :: X ++ s') = 1 + len X + len s') by (rewrite len_cons, len_app; lia).
    rewrite Hl. split; [rewrite len_cons; lia|]. constructor; [lia|].
    eapply Forall_impl; [|exact IHd]. cbn beta. lia.
Qed.

(** A script that is not empty has an opcode, unless it does not parse. *)
Lemma ParseScript_nonempty script pops :
  ParseScript script = (pops, None) -> script <> [] -> pops <> [].
Proof.
  destruct script as [|instr rest]; [done|]. intros Hp _. rewrite ParseScript_cons in Hp.
  destruct (parseStep opcodeArray instr rest) as [[pop s']|e]; [|done].
  destruct (ParseScript s'). by injection Hp as <- _.
Qed.

Lemma parseStep_error opcodes instr rest e :
  parseStep opcodes instr rest = inr e -> e = ErrMalformedPush.
Proof. unfold parseStep. intros Herr. by repeat (case_match; simplify_eq). Qed.

Lemma ParseScript_error script e :
  (ParseScript script).2 = Some e -> e = ErrMalformedPush.
Proof.
  induction script as [|instr rest e' Herr Hp|instr X s' pop pops e' Hop HX Hs' Hp IH]
    using ParseScript_ind; rewrite ?Hp, ?Hs' in *; cbn [snd] in *; auto; [done|].
  intros [= <-]. by apply parseStep_error in Herr.
Qed.

Lemma unparseScript_cons {S} pop pops (s : S) X t :
  operand pop = Some X -> unparseScript pops s = (Ret t, s) ->
  unparseScript (pop :: pops) s = (Ret (zb (pop_value pop) :: X ++ t), s).
Proof.
  intros HX Ht. cbn [unparseScript]. unfold bind. by rewrite pop_bytes_operand, HX, Ht.
Qed.

Lemma sigOpsOf_range precise flags prev pop :
  0 <= sigOpsOf precise flags prev pop <= MaxPubKeysPerMultiSig.
Proof.
  unfold sigOpsOf, asSmallInt, u8, MaxPubKeysPerMultiSig, Op1, Op16, Op0, pop_value.
  repeat case_match; zbool; try lia.
  match goal with |- _ <= ?x mod _ <= _ => rewrite (Z.mod_small x) by lia end. lia.
Qed.

(** Counts add up, so they compare opcode by opcode. *)
Lemma getSigOpLoop_mono pr1 pr2 fl1 fl2 pops prev n1 n2 :
  (forall prev pop, sigOpsOf pr1 fl1 prev pop <= sigOpsOf pr2 fl2 prev pop) ->
  n1 <= n2 -> getSigOpLoop pr1 fl1 prev pops n1 <= getSigOpLoop pr2 fl2 prev pops n2.
Proof.
  intros Hle. revert prev n1 n2. induction pops as [|pop pops IH]; intros; cbn; [done|].
  apply IH. specialize (Hle prev pop). lia.
Qed.

Lemma getSigOpLoop_range precise flags pops prev n :
  n <= getSigOpLoop precise flags prev pops n <= n + MaxPubKeysPerMultiSig * len pops.
Proof.
  revert prev n. induction pops as [|pop pops IH]; intros; cbn [getSigOpLoop].
  - len_simpl. lia.
  - pose proof (sigOpsOf_range precise flags prev pop).
    specialize (IH (Some pop) (n + sigOpsOf precise flags prev pop)).
    rewrite len_cons. lia.
Qed.

Lemma sigOpsOf_precise flags prev pop :
  sigOpsOf true flags prev pop <= sigOpsOf false flags prev pop.
Proof.
  pose proof (sigOpsOf_range true flags prev pop) as Hr. revert Hr.
  unfold sigOpsOf. repeat (case_match; try lia).
Qed.

Lemma sigOpsOf_mldsa precise flags prev pop :
  sigOpsOf precise flags prev pop
  <= sigOpsOf precise (Z.lor flags ScriptEnableMLDSA44) prev pop.
Proof.
  unfold sigOpsOf. repeat (case_match; try lia).
  match goal with H : hasFlag (Z.lor _ _) _ = false |- _ => revert H end.
  unfold hasFlag. rewrite Z.land_lor_distr_l, Z.land_diag.
  destruct (Z.eqb_spec (Z.lor (Z.land flags ScriptEnableMLDSA44) ScriptEnableMLDSA44) 0)
    as [Hz|]; [|done].
  by apply Z.lor_eq_0_iff in Hz as [_ ?].
Qed.

(** ** Properties *)

(** C35. [countScriptOpcodes] computes exactly the capacity [parseScriptTemplate]
    needs: for every table without a zero length, parsing terminates within one
    iteration per byte of the script, and the count is the number of parsed
    opcodes, plus one when parsing stops at a malformed push. *)
Theorem countScriptOpcodes_exact (script : bytes) (opcodes : list opcode) :
  (forall b, op_length (opcodeAt opcodes b) <> 0) ->
  exists pops e, parseScriptTemplate script opcodes = Some (pops, e) /\
    countScriptOpcodes script opcodes = Some (len pops + (if e is Some _ then 1 else 0)).
Proof.
  intros Hnz. destruct (parseLoop_total opcodes Hnz (List.length script) script)
    as (pops & e & Hp); [done|].
  exists pops, e. split; [done|]. unfold countScriptOpcodes.
  by erewrite countLoop_parseLoop.
Qed.

Lemma countScriptOpcodes_exact_witness :
  exists pops e, parseScriptTemplate (bytes_of [0x02; 0x01; 0x02; 0xac; 0x4c]) opcodeArray = Some (pops, e) /\
    countScriptOpcodes (bytes_of [0x02; 0x01; 0x02; 0xac; 0x4c]) opcodeArray
    = Some (len pops + (if e is Some _ then 1 else 0)).
Proof.
  apply (countScriptOpcodes_exact (bytes_of [0x02; 0x01; 0x02; 0xac; 0x4c]) opcodeArray).
  exact opcodeArray_lengths.
Defined.

(** C33. Unparsing a script that parses always succeeds, keeps the length, and
    gives the script back exactly when every opcode of it sits in the table at
    the index equal to its value. *)
Theorem unparse_ParseScript {S} (script : bytes) (pops : list parsedOpcode) (s : S) :
  ParseScript script = (pops, None) ->
  exists script', unparseScript pops s = (Ret script', s) /\
    len script' = len script /\
    (script' = script <-> Forall self_indexed pops).
Proof.
  cut ((ParseScript script).2 = None -> exists script',
    unparseScript (ParseScript script).1 s = (Ret script', s) /\
    len script' = len script /\ (script' = script <-> Forall self_indexed (ParseScript script).1)).
  { intros H Hp. rewrite Hp in H. auto. }
  clear pops. induction script as [|instr rest e _ Hp|instr X s' pop pops e Hop HX Hs' Hp IH]
    using ParseScript_ind; rewrite ?Hp, ?Hs' in *; cbn [fst snd] in *; intros He; [|done|].
  - exists []. repeat split; auto.
  - destruct (IH He) as (t & Ht & Hlen & Heq).
    exists (zb (pop_value pop) :: X ++ t). split; [by apply unparseScript_cons|].
    split; [rewrite !len_cons, !len_app; lia|].
    unfold self_indexed, pop_value in *. split.
    + intros Hc. injection Hc as Hv Ht'. apply app_inv_head in Ht'. constructor; [by rewrite Hv|by apply Heq].
    + intros Hall. apply Forall_cons_1 in Hall as [Hv Hpops].
      apply Heq in Hpops as ->. f_equal.
      revert Hv. rewrite <- Hop. clear. destruct instr; by vm_compute.
Qed.

Lemma unparse_ParseScript_witness :
  exists script', unparseScript (S:=unit) (ParseScript (bytes_of [0x01; 0xff; 0x51; 0xac])).1 tt = (Ret script', tt)
    /\ len script' = len (bytes_of [0x01; 0xff; 0x51; 0xac]) /\
    (script' = (bytes_of [0x01; 0xff; 0x51; 0xac]) <-> Forall self_indexed (ParseScript (bytes_of [0x01; 0xff; 0x51; 0xac])).1).
Proof.
  apply (unparse_ParseScript (bytes_of [0x01; 0xff; 0x51; 0xac]) (ParseScript (bytes_of [0x01; 0xff; 0x51; 0xac])).1 tt).
  vm_compute. reflexivity.
Defined.



(** The cells 178 to 187 are the only ones whose entry has another value than
    its index, so unparsing changes exactly the scripts that use those opcodes. *)
Theorem opcodeArray_self_indexed (b : byte) (data : bytes) :
  self_indexed (ParsedOpcode (opcodeAt opcodeArray b) data) <-> ~ (178 <= bz b <= 187).
Proof. destruct b; vm_compute; intuition congruence. Qed.

(** Signature operations are counted within bounds: every count is between 0
    and 20 per opcode, hence 20 per byte of the script, precise counting never
    exceeds the quick count, and enabling ML-DSA-44 never lowers a count. *)
Theorem getSigOpCount_bounds (pops : list parsedOpcode) (flags : ScriptFlags) :
  0 <= getSigOpCount pops true flags /\
  getSigOpCount pops true flags <= getSigOpCount pops false flags /\
  getSigOpCount pops false flags <= MaxPubKeysPerMultiSig * len pops /\
  getSigOpCount pops true flags
    <= getSigOpCount pops true (Z.lor flags ScriptEnableMLDSA44).
Proof.
  unfold getSigOpCount.
  pose proof (getSigOpLoop_range true flags pops None 0).
  pose proof (getSigOpLoop_range false flags pops None 0).
  repeat split; try lia; apply getSigOpLoop_mono; try done; intros;
    auto using sigOpsOf_precise, sigOpsOf_mldsa.
Qed.
