(* ===== verification/ScriptBuilder.v ===== *)
(** * The script builder

    [ScriptBuilder] of [src/domain/consensus/utils/txscript/scriptbuilder.go].
    A builder keeps its first error and ignores every later call; the methods are
    computations on the builder, whose only possible failure is the panic of
    [scriptNum.Bytes] in [AddInt64]. *)

From S2P Require Import Prelude ScriptError ScriptNum OpcodeTable Script.

Definition MaxScriptSize : Z := 10000.

(** [ErrScriptNotCanonical] is the only error a builder stores. *)
Record ScriptBuilder : Type := MkScriptBuilder {
  sb_script : bytes;
  sb_err : bool
}.

Definition NewScriptBuilder : ScriptBuilder := MkScriptBuilder [] false.

Definition builder := M ScriptBuilder error.

(** [b.script = append(b.script, bs...)] *)
Definition sb_append (bs : bytes) : builder unit :=
  modify (fun b => MkScriptBuilder (sb_script b ++ bs) (sb_err b)).

(** [b.err = ErrScriptNotCanonical(str)] *)
Definition sb_fail : builder unit :=
  modify (fun b => MkScriptBuilder (sb_script b) true).

(** [if b.err != nil { return b }] before the rest of a method. *)
Definition unless_err (m : builder unit) : builder unit :=
  b <- get ;; if sb_err b then ret tt else m.

Definition AddOp (opcode : Z) : builder unit :=
  unless_err (
    b <- get ;;
    if MaxScriptSize <? len (sb_script b) + 1 then sb_fail
    else sb_append [zb opcode]).

Definition AddOps (opcodes : bytes) : builder unit :=
  unless_err (
    b <- get ;;
    if MaxScriptSize <? len (sb_script b) + len opcodes then sb_fail
    else sb_append opcodes).

Definition canonicalDataSize (data : bytes) : Z :=
  let dataLen := len data in
  if dataLen =? 0 then 1
  else if (dataLen =? 1) && (byte0 data <=? 16) then 1
  else if (dataLen =? 1) && (byte0 data =? 0x81) then 1
  else if dataLen <? OpPushData1 then 1 + dataLen
  else if dataLen <=? 0xff then 2 + dataLen
  else if dataLen <=? 0xffff then 3 + dataLen
  else 5 + dataLen.

Definition addData (data : bytes) : builder unit :=
  let dataLen := len data in
  if (dataLen =? 0) || ((dataLen =? 1) && (byte0 data =? 0)) then sb_append [zb Op0]
  else if (dataLen =? 1) && (byte0 data <=? 16) then
    sb_append [zb ((Op1 - 1) + byte0 data)]
  else if (dataLen =? 1) && (byte0 data =? 0x81) then sb_append [zb Op1Negate]
  else
    (if dataLen <? OpPushData1 then sb_append [zb ((OpData1 - 1) + dataLen)]
     else if dataLen <=? 0xff then sb_append [zb OpPushData1; zb dataLen]
     else if dataLen <=? 0xffff then
       sb_append [zb OpPushData2] ;;; sb_append (le_split 2 (u16 dataLen))
     else
       sb_append [zb OpPushData4] ;;; sb_append (le_split 4 (u32 dataLen))) ;;;
    sb_append data.

Definition AddFullData (data : bytes) : builder unit := unless_err (addData data).

Definition AddData (data : bytes) : builder unit :=
  unless_err (
    b <- get ;;
    if MaxScriptSize <? len (sb_script b) + canonicalDataSize data then sb_fail
    else if MaxScriptElementSize <? len data then sb_fail
    else addData data).

Definition AddInt64 (val : Z) : builder unit :=
  unless_err (
    b <- get ;;
    if MaxScriptSize <? len (sb_script b) + 1 then sb_fail
    else if val =? 0 then sb_append [zb Op0]
    else if (val =? -1) || ((1 <=? val) && (val <=? 16)) then
      sb_append [zb ((Op1 - 1) + val)]
    else bs <- scriptNum_Bytes val ;; AddData bs).

(** The loop that drops the zero bytes at the end, from the last byte on. *)
Fixpoint trimZeros (rev_bs : bytes) : bytes :=
  match rev_bs with
  | b :: rest => if bz b =? 0 then trimZeros rest else rev_bs
  | [] => []
  end.

Definition addLockTimeOrSequence (lockTimeOrSequence : Z) : builder unit :=
  unless_err (AddData (reverse (trimZeros (reverse (le_split 8 lockTimeOrSequence))))).

Definition AddLockTimeNumber (lockTime : Z) : builder unit := addLockTimeOrSequence lockTime.

Definition AddSequenceNumber (sequence : Z) : builder unit := addLockTimeOrSequence sequence.

Definition ScriptBuilder_Reset : builder unit := modify (fun _ => MkScriptBuilder [] false).

(** The script and whether an error came with it. *)
Definition ScriptBuilder_Script (b : ScriptBuilder) : bytes * bool := (sb_script b, sb_err b).

(** ** What a push opcode leaves on the stack *)

(** The item an executed push opcode (up to OP_16, OP_RESERVED apart) pushes:
    the handlers [opcodeFalse], [opcodePushData], [opcode1Negate] and [opcodeN]. *)
Definition pushedValue (pop : parsedOpcode) : bytes :=
  if (op_value (pop_opcode pop) =? Op1Negate) then [zb 0x81]
  else if (Op1 <=? pop_value pop) && (pop_value pop <=? Op16)
  then [zb (pop_value pop - (Op1 - 1))]
  else pop_data pop.

(** [E] encodes one canonical, minimal opcode that pushes [data]. *)
Definition encodes_push (E data : bytes) : Prop :=
  exists pop,
    (forall rest, ParseScript (E ++ rest)
       = (pop :: (ParseScript rest).1, (ParseScript rest).2)) /\
    canonicalPush pop = true /\
    (pop_value pop <= OpPushData4 -> checkMinimalDataPush pop tt = (Ret tt, tt)) /\
    pushedValue pop = data.

Lemma ParseScript_encoded pop X rest instr :
  opcodeAt opcodeArray instr = pop_opcode pop -> operand pop = Some X ->
  ParseScript (instr :: X ++ rest) = (pop :: (ParseScript rest).1, (ParseScript rest).2).
Proof.
  intros Hop HX. rewrite ParseScript_cons, (parseStep_app _ _ pop X rest) by done.
  by destruct (ParseScript rest).
Qed.

Lemma opcodeAt_data (n : Z) :
  1 <= n <= 75 ->
  op_length (opcodeAt opcodeArray (zb n)) = n + 1 /\ op_value (opcodeAt opcodeArray (zb n)) = n.
Proof.
  intros Hn. assert (Hn' : 0 <= n < 256) by lia. revert Hn.
  apply (byte_cases (fun n b => 1 <= n <= 75 ->
    op_length (opcodeAt opcodeArray b) = n + 1 /\ op_value (opcodeAt opcodeArray b) = n));
    [|done].
  intros b. destruct b; vm_compute; intuition congruence.
Qed.

Lemma opcodeAt_small (n : Z) :
  81 <= n <= 96 ->
  op_length (opcodeAt opcodeArray (zb n)) = 1 /\ op_value (opcodeAt opcodeArray (zb n)) = n.
Proof.
  intros Hn. assert (Hn' : 0 <= n < 256) by lia. revert Hn.
  apply (byte_cases (fun n b => 81 <= n <= 96 ->
    op_length (opcodeAt opcodeArray b) = 1 /\ op_value (opcodeAt opcodeArray b) = n));
    [|done].
  intros b. destruct b; vm_compute; intuition congruence.
Qed.

(** The bytes [addData] appends. *)
Definition pushEncoding (data : bytes) : bytes :=
  let dataLen := len data in
  if (dataLen =? 0) || ((dataLen =? 1) && (byte0 data =? 0)) then [zb Op0]
  else if (dataLen =? 1) && (byte0 data <=? 16) then [zb ((Op1 - 1) + byte0 data)]
  else if (dataLen =? 1) && (byte0 data =? 0x81) then [zb Op1Negate]
  else if dataLen <? OpPushData1 then zb dataLen :: data
  else if dataLen <=? 0xff then zb OpPushData1 :: le_split 1 dataLen ++ data
  else if dataLen <=? 0xffff then zb OpPushData2 :: le_split 2 dataLen ++ data
  else zb OpPushData4 :: le_split 4 dataLen ++ data.

Definition extend (b : ScriptBuilder) (E : bytes) : ScriptBuilder :=
  MkScriptBuilder (sb_script b ++ E) (sb_err b).

Lemma addData_run (data : bytes) (b : ScriptBuilder) :
  len data < 2 ^ 32 -> addData data b = (Ret tt, extend b (pushEncoding data)).
Proof.
  intros Hlen. pose proof (len_nonneg data).
  unfold addData, pushEncoding, extend, bind, sb_append, modify.
  destruct (_ || _); [done|]. destruct (_ && _); [done|]. destruct (_ && _); [done|].
  unfold u16, u32.
  destruct (Z.ltb_spec (len data) OpPushData1); [by cbn; rewrite <- app_assoc|].
  destruct (Z.leb_spec (len data) 0xff); [by cbn; rewrite <- app_assoc|].
  destruct (Z.leb_spec (len data) 0xffff); cbn [sb_script sb_err];
    rewrite Z.mod_small, <- !app_assoc by lia; done.
Qed.

Lemma canonicalDataSize_pushEncoding (data : bytes) :
  canonicalDataSize data = len (pushEncoding data).
Proof.
  unfold canonicalDataSize, pushEncoding. pose proof (len_nonneg data).
  repeat case_match; zbool; rewrite ?len_cons, ?len_app, ?len_le_split;
    change (len (@nil byte)) with 0; try lia.
Qed.

Ltac unfold_ops :=
  unfold pop_value, Op0, OpData1, OpPushData1, OpPushData2, OpPushData4, Op1Negate,
    Op1, Op16 in *.

(** Opcodes 1 to 78 push their operand's data. *)
Lemma encodes_push_data instr X data :
  let pop := ParsedOpcode (opcodeAt opcodeArray instr) data in
  operand pop = Some X -> pop_value pop <= OpPushData4 ->
  canonicalPush pop = true -> checkMinimalDataPush pop tt = (Ret tt, tt) ->
  encodes_push (instr :: X) data.
Proof.
  intros pop HX Hv Hc Hm. exists pop. split; [|split; [done|split; [done|]]].
  - intros rest. by apply ParseScript_encoded.
  - unfold pushedValue. unfold_ops.
    destruct (Z.eqb_spec (op_value (pop_opcode pop)) 79); [lia|].
    destruct (Z.leb_spec 81 (op_value (pop_opcode pop))); [lia|done].
Qed.

(** Opcodes 81 to 96 push their number. *)
Lemma encodes_push_small (d : byte) :
  1 <= bz d <= 16 -> encodes_push [zb ((Op1 - 1) + bz d)] [d].
Proof.
  intros Hd. unfold_ops. change (81 - 1) with 80.
  destruct (opcodeAt_small (80 + bz d)) as [Hl Hv]; [lia|].
  exists (ParsedOpcode (opcodeAt opcodeArray (zb (80 + bz d))) []).
  split; [|split; [|split]].
  - intros rest. apply (ParseScript_encoded _ []); [done|].
    unfold operand. cbn [pop_opcode pop_data]. by rewrite Hl.
  - unfold canonicalPush. unfold_ops. cbn [pop_opcode pop_data]. rewrite Hv.
    repeat case_match; zbool; unfold_ops; (lia || done).
  - unfold_ops. cbn [pop_opcode]. rewrite Hv. lia.
  - unfold pushedValue. unfold_ops. cbn [pop_opcode]. rewrite Hv.
    rewrite (proj2 (Z.eqb_neq _ _)), !(proj2 (Z.leb_le _ _)) by lia. cbn [andb].
    replace (80 + bz d - (81 - 1)) with (bz d) by lia. by rewrite zb_bz.
Qed.

Lemma byte0_len1 (data : bytes) : len data = 1 -> data = [zb (byte0 data)].
Proof.
  destruct data as [|d [|d' data]]; [done| |].
  - intros _. cbn. by rewrite zb_bz.
  - rewrite !len_cons. pose proof (len_nonneg data). lia.
Qed.

Lemma encodes_push_OpData data :
  1 <= len data <= 75 ->
  ~ (len data = 1 /\ (byte0 data <= 16 \/ byte0 data = 0x81)) ->
  encodes_push (zb (len data) :: data) data.
Proof.
  intros Hn Hsmall. destruct (opcodeAt_data (len data) Hn) as [Hl Hv].
  apply encodes_push_data; cbn zeta; unfold_ops; cbn [pop_opcode pop_data].
  - unfold operand. cbn [pop_opcode pop_data]. rewrite Hl.
    rewrite (proj2 (Z.eqb_neq _ _)), (proj2 (Z.ltb_lt _ _)), Z.eqb_refl by lia. done.
  - lia.
  - unfold canonicalPush. unfold_ops. cbn [pop_opcode pop_data]. rewrite Hv.
    repeat case_match; zbool; unfold_ops; (lia || done).
  - unfold checkMinimalDataPush, guard_err. unfold_ops. cbn [pop_opcode pop_data]. rewrite Hv.
    repeat case_match; zbool; unfold_ops; (lia || done).
Qed.

Lemma encodes_push_PushData (k : nat) (lo v : Z) data :
  let op := opcodeAt opcodeArray (zb v) in
  (k = 1%nat /\ lo = 75 /\ v = OpPushData1) \/ (k = 2%nat /\ lo = 255 /\ v = OpPushData2) \/
  (k = 4%nat /\ lo = 65535 /\ v = OpPushData4) ->
  lo < len data < 2 ^ (8 * Z.of_nat k) ->
  encodes_push (zb v :: le_split k (len data) ++ data) data.
Proof.
  intros op Hk Hn.
  assert (Hop : op_value op = v /\ op_length op = - Z.of_nat k).
  { unfold op. destruct Hk as [(-> & _ & ->)|[(-> & _ & ->)|(-> & _ & ->)]]; done. }
  destruct Hop as [Hv Hl]. subst op.
  apply encodes_push_data; cbn zeta; unfold_ops; cbn [pop_opcode pop_data].
  - unfold operand. cbn [pop_opcode pop_data]. rewrite Hl.
    destruct Hk as [(-> & _ & ->)|[(-> & _ & ->)|(-> & _ & ->)]];
      change (- Z.of_nat 1) with (-1); change (- Z.of_nat 2) with (-2);
      change (- Z.of_nat 4) with (-4); cbn -[Z.of_nat Z.pow le_split Z.ltb];
      change (1 <? _) with false; cbn iota;
      by rewrite (proj2 (Z.ltb_lt _ _)) by lia.
  - rewrite Hv. lia.
  - unfold canonicalPush. unfold_ops. cbn [pop_opcode pop_data]. rewrite Hv.
    repeat case_match; zbool; unfold_ops; (lia || done).
  - unfold checkMinimalDataPush, guard_err. unfold_ops. cbn [pop_opcode pop_data]. rewrite Hv.
    destruct Hk as [(-> & -> & ->)|[(-> & -> & ->)|(-> & -> & ->)]];
      cbn in Hn; repeat case_match; zbool; unfold_ops; (lia || done).
Qed.

Lemma pushEncoding_encodes (data : bytes) :
  len data < 2 ^ 32 -> data <> [zb 0] -> encodes_push (pushEncoding data) data.
Proof.
  intros Hlen Hne. pose proof (len_nonneg data). unfold pushEncoding.
  destruct (Z.eqb_spec (len data) 0) as [H0|H0]; cbn [orb].
  { destruct data; [|rewrite len_cons in *; pose proof (len_nonneg data); lia].
    apply (encodes_push_data (zb Op0) []); done. }
  assert (H1 : len data = 1 -> byte0 data <> 0 /\ data = [zb (byte0 data)]).
  { intros H1. pose proof (byte0_len1 data H1) as Hd. split; [|done].
    intros Hz. by rewrite Hz in Hd. }
  destruct (Z.eqb_spec (len data) 1) as [Hl1|Hl1]; cbn [andb].
  - destruct (H1 Hl1) as [Hb Hd].
    assert (0 <= byte0 data < 256) by (rewrite Hd; cbn; apply bz_range).
    rewrite (proj2 (Z.eqb_neq _ _)) by done.
    destruct (Z.leb_spec (byte0 data) 16).
    { rewrite Hd at 2. rewrite <- (bz_zb_small (byte0 data)) at 1 by done.
      apply encodes_push_small. rewrite bz_zb_small by done. lia. }
    destruct (Z.eqb_spec (byte0 data) 0x81) as [Hn|].
    { rewrite Hd, Hn. exists (ParsedOpcode (opcodeAt opcodeArray (zb Op1Negate)) []).
      split; [|split; [done|split; [|done]]].
      - intros. by apply (ParseScript_encoded _ []).
      - intros Hc. by vm_compute in Hc. }
    rewrite (proj2 (Z.ltb_lt _ _)) by (rewrite Hl1; done).
    apply encodes_push_OpData; lia.
  - unfold_ops. repeat case_match; zbool.
    + apply encodes_push_OpData; lia.
    + apply (encodes_push_PushData 1 75); unfold_ops; lia.
    + apply (encodes_push_PushData 2 255); unfold_ops; lia.
    + apply (encodes_push_PushData 4 65535); unfold_ops; lia.
Qed.

(** ** Sequences of builder calls *)

(** A call of a method that enforces the size limits ([AddFullData] does not). *)
Inductive builderOp : Type :=
| CallAddOp (opcode : Z)
| CallAddOps (opcodes : bytes)
| CallAddData (data : bytes)
| CallAddInt64 (val : Z)
| CallAddLockTimeNumber (lockTime : Z)
| CallAddSequenceNumber (sequence : Z)
| CallReset.

#[export] Instance builderOp_eq_dec : EqDecision builderOp.
Proof. solve_decision. Defined.

Definition call (op : builderOp) : builder unit :=
  match op with
  | CallAddOp opcode => AddOp opcode
  | CallAddOps opcodes => AddOps opcodes
  | CallAddData data => AddData data
  | CallAddInt64 val => AddInt64 val
  | CallAddLockTimeNumber lockTime => AddLockTimeNumber lockTime
  | CallAddSequenceNumber sequence => AddSequenceNumber sequence
  | CallReset => ScriptBuilder_Reset
  end.

Fixpoint calls (ops : list builderOp) : builder unit :=
  match ops with
  | [] => ret tt
  | op :: ops => call op ;;; calls ops
  end.

Definition valid_op (op : builderOp) : Prop :=
  match op with CallAddInt64 val => MinInt64 < val <= MaxInt64 | _ => True end.

(** One call other than [Reset]: the script grows by some bytes within the limit,
    or stays the same and the builder is in error. *)
Definition grows (m : builder unit) : Prop :=
  forall b, exists E err, m b = (Ret tt, MkScriptBuilder (sb_script b ++ E) err) /\
    (sb_err b = true -> E = [] /\ err = true) /\
    (E = [] \/ err = false) /\
    (len (sb_script b) <= MaxScriptSize -> len (sb_script b ++ E) <= MaxScriptSize).

Lemma grows_fail_or_append (E : bytes) (c : ScriptBuilder -> bool) :
  (forall b, c b = false -> len (sb_script b ++ E) <= MaxScriptSize) ->
  grows (unless_err (b <- get ;; if c b then sb_fail else sb_append E)).
Proof.
  intros Hc [scr err]. unfold unless_err, bind, get. cbn.
  destruct err.
  - exists [], true. rewrite app_nil_r. auto.
  - destruct (c _) eqn:Hcb; cbn.
    + exists [], true. rewrite app_nil_r. auto.
    + exists E, false. split; [done|split; [done|split; [auto|]]]. intros _. by apply (Hc (MkScriptBuilder scr false)).
Qed.

Lemma AddOp_grows opcode : grows (AddOp opcode).
Proof.
  apply grows_fail_or_append. intros b Hb. zbool. rewrite len_app, len_cons.
  change (len []) with 0. lia.
Qed.

Lemma AddOps_grows opcodes : grows (AddOps opcodes).
Proof. apply grows_fail_or_append. intros b Hb. zbool. rewrite len_app. lia. Qed.

Lemma AddData_run (data : bytes) (b : ScriptBuilder) :
  AddData data b =
    (Ret tt,
     if sb_err b then b
     else if (MaxScriptSize <? len (sb_script b) + canonicalDataSize data)
             || (MaxScriptElementSize <? len data)
     then MkScriptBuilder (sb_script b) true
     else extend b (pushEncoding data)).
Proof.
  unfold AddData, unless_err, bind, get. destruct (sb_err b) eqn:Hb; [by destruct b|].
  destruct (MaxScriptSize <? _); [done|]. cbn [orb].
  destruct (Z.ltb_spec MaxScriptElementSize (len data)); [done|].
  rewrite addData_run; [done|]. unfold MaxScriptElementSize in *. lia.
Qed.

Lemma AddData_grows data : grows (AddData data).
Proof.
  intros b. rewrite AddData_run. destruct b as [scr err]. cbn.
  destruct err; [exists [], true; rewrite app_nil_r; auto|].
  destruct (_ || _) eqn:Hc; [exists [], true; rewrite app_nil_r; auto|].
  exists (pushEncoding data), false. split; [done|split; [done|split; [auto|]]].
  intros _. zbool.
  rewrite len_app, <- canonicalDataSize_pushEncoding. lia.
Qed.

Lemma grows_unless_err m : grows m -> grows (unless_err m).
Proof.
  intros Hm b. unfold unless_err, bind, get. cbn. destruct (sb_err b) eqn:Hb; [|specialize (Hm b); rewrite Hb in Hm; done].
  exists [], true. rewrite app_nil_r. destruct b; cbn in *. subst. auto.
Qed.

Lemma AddInt64_grows val : MinInt64 < val <= MaxInt64 -> grows (AddInt64 val).
Proof.
  intros Hval b. unfold AddInt64, unless_err, bind, get. cbn.
  destruct b as [scr []]; cbn; [exists [], true; rewrite app_nil_r; auto|].
  destruct (Z.ltb_spec MaxScriptSize (len scr + 1)) as [H|H];
    [exists [], true; rewrite app_nil_r; auto|].
  assert (Hsingle : forall x : byte, len (scr ++ [x]) <= MaxScriptSize).
  { intros x. rewrite len_app, len_single. lia. }
  destruct (val =? 0); [exists [zb Op0], false; clear Hval; naive_solver|].
  destruct (_ || _); [eexists [_], false; clear Hval; naive_solver|].
  destruct (scriptNum_Bytes_spec val Hval) as (bs & _ & _ & Hbs). rewrite Hbs.
  apply (AddData_grows bs (MkScriptBuilder scr false)).
Qed.

Lemma call_grows op : valid_op op -> op <> CallReset -> grows (call op).
Proof.
  destruct op; cbn; intros Hv Hne; auto using AddOp_grows, AddOps_grows, AddData_grows,
    AddInt64_grows; try (apply grows_unless_err, AddData_grows); done.
Qed.

(** ** The bytes of a lock time *)

Lemma trimZeros_suffix (l : bytes) :
  le_combine (reverse (trimZeros l)) = le_combine (reverse l) /\
  reverse (trimZeros l) <> [zb 0] /\ (List.length (trimZeros l) <= List.length l)%nat.
Proof.
  induction l as [|b l IH]; cbn [trimZeros]; [done|].
  destruct (Z.eqb_spec (bz b) 0) as [Hb|Hb].
  - destruct IH as (IH1 & IH2 & IH3). split; [|split; [done|cbn; lia]].
    rewrite IH1, reverse_cons, le_combine_snoc, Hb. lia.
  - split; [done|split; [|done]]. intros Hr. apply (f_equal reverse) in Hr.
    rewrite reverse_involutive in Hr. cbn in Hr. injection Hr as -> _. done.
Qed.

(** ** Properties *)



(** A builder never panics on script numbers above the smallest [int64] and
    never exceeds [MaxScriptSize]: after any sequence of calls the script fits,
    and once a call has failed, later calls other than [Reset] change nothing. *)
Theorem builder_within_limits (ops : list builderOp) (b : ScriptBuilder) :
  Forall valid_op ops -> len (sb_script b) <= MaxScriptSize ->
  exists b', calls ops b = (Ret tt, b') /\ len (sb_script b') <= MaxScriptSize /\
    (sb_err b = true -> CallReset ∉ ops -> b' = b).
Proof.
  intros Hops. revert b. induction Hops as [|op ops Hop _ IH]; intros b Hb; cbn [calls].
  { exists b. auto. }
  destruct (decide (op = CallReset)) as [->|Hne].
  - destruct (IH (MkScriptBuilder [] false)) as (b' & Hrun & Hlen & _); [done|].
    exists b'. split; [done|split; [done|]]. intros _ Hin. set_solver.
  - destruct (call_grows op Hop Hne b) as (E & err & Hcall & Herr & _ & Hlen).
    destruct (IH (MkScriptBuilder (sb_script b ++ E) err)) as (b' & Hrun & Hlen' & Heq);
      [by apply Hlen|].
    exists b'. unfold bind. rewrite Hcall. split; [done|split; [done|]].
    intros Hb' Hin. destruct (Herr Hb') as [-> ->].
    rewrite Heq; [|done|intros ?; apply Hin; by right].
    destruct b; cbn in *. by rewrite app_nil_r, Hb'.
Qed.

Lemma builder_within_limits_witness :
  exists b', calls [CallAddOp OpDup; CallAddInt64 1000; CallAddLockTimeNumber 77]
      NewScriptBuilder = (Ret tt, b') /\ len (sb_script b') <= MaxScriptSize /\
    (sb_err NewScriptBuilder = true ->
     CallReset ∉ [CallAddOp OpDup; CallAddInt64 1000; CallAddLockTimeNumber 77] ->
     b' = NewScriptBuilder).
Proof.
  apply (builder_within_limits [CallAddOp OpDup; CallAddInt64 1000; CallAddLockTimeNumber 77]).
  - repeat constructor; vm_compute; congruence.
  - vm_compute. congruence.
Defined.

(** [AddLockTimeNumber] (and [AddSequenceNumber]) push the little-endian
    bytes of the number without its high zero bytes: at most 8 bytes whose value
    is the lock time, which is what OP_CHECKLOCKTIMEVERIFY reads back. *)
Theorem AddLockTimeNumber_value (lockTime : Z) (b : ScriptBuilder) :
  is_u64 lockTime -> sb_err b = false -> len (sb_script b) + 9 <= MaxScriptSize ->
  exists E bs, AddLockTimeNumber lockTime b = (Ret tt, MkScriptBuilder (sb_script b ++ E) false)
    /\ encodes_push E bs /\ len bs <= 8 /\ le_combine bs = lockTime.
Proof.
  intros Hu Hb Hsize.
  destruct (trimZeros_suffix (reverse (le_split 8 lockTime))) as (Hv & Hne & Hlen).
  rewrite reverse_involutive, le_combine_le_split in Hv by (unfold_ranges; lia).
  rewrite length_reverse, length_le_split in Hlen.
  set (bs := reverse (trimZeros (reverse (le_split 8 lockTime)))) in *.
  assert (Hl : len bs <= 8) by (unfold len, bs; rewrite length_reverse; lia).
  exists (pushEncoding bs), bs. split; [|split; [|done]].
  - unfold AddLockTimeNumber, addLockTimeOrSequence, unless_err, bind, get. rewrite Hb.
    fold bs. rewrite AddData_run, Hb. unfold extend. rewrite Hb.
    rewrite !(proj2 (Z.ltb_ge _ _)); [done|unfold MaxScriptElementSize; lia|].
    unfold canonicalDataSize. pose proof (len_nonneg bs).
    repeat case_match; zbool; unfold_ops; lia.
  - apply pushEncoding_encodes; [lia|done].
Qed.

Lemma AddLockTimeNumber_value_witness :
  exists E bs, AddLockTimeNumber 500000000000 NewScriptBuilder
      = (Ret tt, MkScriptBuilder ([] ++ E) false)
    /\ encodes_push E bs /\ len bs <= 8 /\ le_combine bs = 500000000000.
Proof.
  apply (AddLockTimeNumber_value 500000000000 NewScriptBuilder).
  - unfold_ranges. lia.
  - reflexivity.
  - vm_compute. congruence.
Defined.
