(* ===== verification/Transaction.v ===== *)
(** * Transactions

    The transaction data model of
    [src/domain/consensus/model/externalapi/transaction.go], the UTXO entry of
    [src/domain/consensus/utils/utxo/utxo_entry.go], the constants of
    [utils/constants], [utils/subnetworks] and [utils/transactionhelper] the
    script engine and the hashes use, and the [Equal] methods.

    A hash, transaction ID or subnetwork ID is the byte string of its array
    ([wf_hash], [wf_subnetworkID] fix the size).  The slices of a transaction hold
    non-nil pointers; the interface value [UTXOEntry] of an input may be nil. *)

From S2P Require Import Prelude.

(** ** Constants *)

Definition DomainHashSize : Z := 32.
Definition DomainSubnetworkIDSize : Z := 20.
Definition MaxTransactionVersion : Z := 0.
Definition MaxScriptPublicKeyVersion : Z := 0.
Definition SompiPerHoosat : Z := 100000000.
Definition MaxSompi : Z := 17100000000 * SompiPerHoosat.
Definition MaxTxInSequenceNum : Z := MaxUint64.
Definition SequenceLockTimeDisabled : Z := Z.shiftl 1 63.
Definition SequenceLockTimeMask : Z := 0x00000000ffffffff.
Definition LockTimeThreshold : Z := 500000000000.
Definition UnacceptedDAAScore : Z := MaxUint64.

Definition zeroHash : bytes := replicate 32 (zb 0).
Definition SubnetworkIDNative : bytes := replicate 20 (zb 0).
Definition SubnetworkIDCoinbase : bytes := zb 1 :: replicate 19 (zb 0).

(** ** Data *)

Record DomainOutpoint : Type := MkOutpoint {
  TransactionID : bytes;
  Index : Z
}.

#[export] Instance DomainOutpoint_eq_dec : EqDecision DomainOutpoint.
Proof. solve_decision. Defined.

#[export] Instance DomainOutpoint_countable : Countable DomainOutpoint.
Proof.
  apply (inj_countable' (fun o => (TransactionID o, Index o)) (fun p => MkOutpoint p.1 p.2)).
  by intros [].
Defined.

Record ScriptPublicKey : Type := MkScriptPublicKey {
  spk_Script : bytes;
  spk_Version : Z
}.

#[export] Instance ScriptPublicKey_eq_dec : EqDecision ScriptPublicKey.
Proof. solve_decision. Defined.

(** [utxoEntry], the only implementation of the interface [UTXOEntry]. *)
Record UTXOEntry : Type := MkUTXOEntry {
  amount : Z;
  scriptPublicKey : ScriptPublicKey;
  blockDAAScore : Z;
  isCoinbase : bool
}.

#[export] Instance UTXOEntry_eq_dec : EqDecision UTXOEntry.
Proof. solve_decision. Defined.

Record DomainTransactionInput : Type := MkInput {
  PreviousOutpoint : DomainOutpoint;
  SignatureScript : bytes;
  Sequence : Z;
  SigOpCount : Z;
  in_UTXOEntry : option UTXOEntry
}.

Record DomainTransactionOutput : Type := MkOutput {
  Value : Z;
  out_ScriptPublicKey : ScriptPublicKey
}.

Record DomainTransaction : Type := MkTransaction {
  tx_Version : Z;
  Inputs : list DomainTransactionInput;
  Outputs : list DomainTransactionOutput;
  LockTime : Z;
  SubnetworkID : bytes;
  Gas : Z;
  Payload : bytes;
  Fee : Z;
  Mass : Z;
  ID : option bytes
}.

#[export] Instance DomainTransactionInput_eq_dec : EqDecision DomainTransactionInput.
Proof. solve_decision. Defined.

#[export] Instance DomainTransactionOutput_eq_dec : EqDecision DomainTransactionOutput.
Proof. solve_decision. Defined.

Definition NewUTXOEntry (amount : Z) (scriptPubKey : ScriptPublicKey) (isCoinbase : bool)
    (blockDAAScore : Z) : UTXOEntry :=
  MkUTXOEntry amount (MkScriptPublicKey (spk_Script scriptPubKey) (spk_Version scriptPubKey))
    blockDAAScore isCoinbase.

Definition NewDomainOutpoint (id : bytes) (index : Z) : DomainOutpoint := MkOutpoint id index.

Definition IsCoinBase (tx : DomainTransaction) : bool :=
  bool_decide (SubnetworkID tx = SubnetworkIDCoinbase).

(** Field values in the range of their Go type. *)
Definition wf_hash (h : bytes) : Prop := len h = DomainHashSize.
Definition wf_subnetworkID (id : bytes) : Prop := len id = DomainSubnetworkIDSize.

Definition wf_spk (spk : ScriptPublicKey) : Prop :=
  is_u16 (spk_Version spk) /\ len (spk_Script spk) < 2 ^ 63.

Definition wf_outpoint (o : DomainOutpoint) : Prop :=
  wf_hash (TransactionID o) /\ is_u32 (Index o).

Definition wf_input (i : DomainTransactionInput) : Prop :=
  wf_outpoint (PreviousOutpoint i) /\ len (SignatureScript i) < 2 ^ 63 /\
  is_u64 (Sequence i) /\ is_u8 (SigOpCount i).

Definition wf_output (o : DomainTransactionOutput) : Prop :=
  is_u64 (Value o) /\ wf_spk (out_ScriptPublicKey o).

Definition wf_transaction (tx : DomainTransaction) : Prop :=
  is_u16 (tx_Version tx) /\ Forall wf_input (Inputs tx) /\ Forall wf_output (Outputs tx) /\
  len (Inputs tx) < 2 ^ 63 /\ len (Outputs tx) < 2 ^ 63 /\
  is_u64 (LockTime tx) /\ wf_subnetworkID (SubnetworkID tx) /\ is_u64 (Gas tx) /\
  len (Payload tx) < 2 ^ 63.

(** ** Equality methods *)

Definition ScriptPublicKey_Equal (spk other : ScriptPublicKey) : bool :=
  if negb (spk_Version spk =? spk_Version other) then false
  else bool_decide (spk_Script spk = spk_Script other).

Definition UTXOEntry_Equal (u other : UTXOEntry) : bool :=
  if negb (amount u =? amount other) then false
  else if negb (ScriptPublicKey_Equal (scriptPublicKey u) (scriptPublicKey other)) then false
  else if negb (blockDAAScore u =? blockDAAScore other) then false
  else if negb (bool_decide (isCoinbase u = isCoinbase other)) then false
  else true.

Definition DomainOutpoint_Equal (op other : DomainOutpoint) : bool := bool_decide (op = other).

Definition Output_Equal (output other : DomainTransactionOutput) : bool :=
  if negb (Value output =? Value other) then false
  else ScriptPublicKey_Equal (out_ScriptPublicKey output) (out_ScriptPublicKey other).

Definition Input_Equal {S E} (input other : DomainTransactionInput) : M S E bool :=
  if negb (DomainOutpoint_Equal (PreviousOutpoint input) (PreviousOutpoint other)) then ret false
  else if negb (bool_decide (SignatureScript input = SignatureScript other)) then ret false
  else if negb (Sequence input =? Sequence other) then ret false
  else if negb (SigOpCount input =? SigOpCount other) then ret false
  else match in_UTXOEntry input, in_UTXOEntry other with
  | Some u, Some u' => if negb (UTXOEntry_Equal u u') then panic else ret true
  | _, _ => ret true
  end.

(** [for i, input := range inputs { if !input.Equal(others[i]) { return false } }] *)
Fixpoint Inputs_Equal {S E} (inputs others : list DomainTransactionInput) : M S E bool :=
  match inputs, others with
  | [], _ => ret true
  | input :: inputs, other :: others =>
      eq <- Input_Equal input other ;;
      if negb eq then ret false else Inputs_Equal inputs others
  | _ :: _, [] => panic
  end.

Fixpoint Outputs_Equal {S E} (outputs others : list DomainTransactionOutput) : M S E bool :=
  match outputs, others with
  | [], _ => ret true
  | output :: outputs, other :: others =>
      if negb (Output_Equal output other) then ret false else Outputs_Equal outputs others
  | _ :: _, [] => panic
  end.

Definition DomainTransaction_Equal {S E} (tx other : option DomainTransaction) : M S E bool :=
  match tx, other with
  | None, None => ret true
  | None, Some _ | Some _, None => ret false
  | Some tx, Some other =>
      if negb (tx_Version tx =? tx_Version other) then ret false
      else if negb (len (Inputs tx) =? len (Inputs other)) then ret false
      else
      inputsEqual <- Inputs_Equal (Inputs tx) (Inputs other) ;;
      if negb inputsEqual then ret false
      else if negb (len (Outputs tx) =? len (Outputs other)) then ret false
      else
      outputsEqual <- Outputs_Equal (Outputs tx) (Outputs other) ;;
      if negb outputsEqual then ret false
      else if negb (LockTime tx =? LockTime other) then ret false
      else if negb (bool_decide (SubnetworkID tx = SubnetworkID other)) then ret false
      else if negb (Gas tx =? Gas other) then ret false
      else if negb (bool_decide (Payload tx = Payload other)) then ret false
      else if negb (Fee tx =? 0) && negb (Fee other =? 0) && negb (Fee tx =? Fee other) then panic
      else if negb (Mass tx =? 0) && negb (Mass other =? 0) && negb (Mass tx =? Mass other)
      then panic
      else match ID tx, ID other with
      | Some id, Some otherID => if negb (bool_decide (id = otherID)) then panic else ret true
      | _, _ => ret true
      end
  end.

(** ** The fields a transaction is identified by *)

(** A transaction without the lazily populated fields: the UTXO entries of its
    inputs, its fee, its mass and its cached ID. *)
Definition strip_input (i : DomainTransactionInput) : DomainTransactionInput :=
  MkInput (PreviousOutpoint i) (SignatureScript i) (Sequence i) (SigOpCount i) None.

Definition strip (tx : DomainTransaction) : DomainTransaction :=
  MkTransaction (tx_Version tx) (map strip_input (Inputs tx)) (Outputs tx) (LockTime tx)
    (SubnetworkID tx) (Gas tx) (Payload tx) 0 0 None.

(** The lazily populated fields of two transactions do not contradict each other. *)
Definition agree {A} (a b : option A) : Prop :=
  match a, b with Some x, Some y => x = y | _, _ => True end.

Definition nonzero (z : Z) : option Z := if z =? 0 then None else Some z.

Definition consistent (tx other : DomainTransaction) : Prop :=
  Forall2 (fun i j => agree (in_UTXOEntry i) (in_UTXOEntry j)) (Inputs tx) (Inputs other) /\
  agree (nonzero (Fee tx)) (nonzero (Fee other)) /\
  agree (nonzero (Mass tx)) (nonzero (Mass other)) /\
  agree (ID tx) (ID other).

(** ** Lemmas *)

Lemma ScriptPublicKey_Equal_spec spk other :
  ScriptPublicKey_Equal spk other = bool_decide (spk = other).
Proof.
  unfold ScriptPublicKey_Equal. destruct spk as [s v], other as [s' v']; cbn.
  destruct (Z.eqb_spec v v') as [->|Hne]; cbn.
  - apply bool_decide_ext. split; [by intros ->|by intros [=]].
  - symmetry. apply bool_decide_eq_false. by intros [=].
Qed.

Lemma UTXOEntry_Equal_spec u other : UTXOEntry_Equal u other = bool_decide (u = other).
Proof.
  unfold UTXOEntry_Equal. rewrite ScriptPublicKey_Equal_spec.
  destruct u as [a s d c], other as [a' s' d' c']; cbn.
  symmetry. repeat case_bool_decide; repeat case_match; zbool; subst; try done; congruence.
Qed.

Lemma Output_Equal_spec output other :
  Output_Equal output other = true <-> output = other.
Proof.
  unfold Output_Equal. rewrite ScriptPublicKey_Equal_spec.
  destruct output as [v s], other as [v' s']; cbn.
  destruct (Z.eqb_spec v v') as [->|]; cbn; [|split; congruence].
  rewrite bool_decide_eq_true. split; congruence.
Qed.

Lemma Outputs_Equal_spec {S E} outputs others (s : S) :
  List.length outputs = List.length others ->
  exists b, Outputs_Equal (E:=E) outputs others s = (Ret b, s) /\ (b = true <-> outputs = others).
Proof.
  revert others. induction outputs as [|o os IH]; intros [|o' os'] Hl; try done; cbn.
  - by exists true.
  - pose proof (Output_Equal_spec o o') as Ho. destruct (Output_Equal o o'); cbn.
    + destruct (IH os') as (b & Hb & Hiff); [by injection Hl|].
      exists b. split; [done|]. rewrite Hiff. split; [|congruence].
      intros ->. f_equal. by apply Ho.
    + exists false. split; [done|]. split; [done|]. intros [= -> ->]. by apply Ho.
Qed.

Lemma strip_input_eq i j :
  strip_input i = strip_input j <->
  PreviousOutpoint i = PreviousOutpoint j /\ SignatureScript i = SignatureScript j /\
  Sequence i = Sequence j /\ SigOpCount i = SigOpCount j.
Proof. unfold strip_input. split; [by intros [=]|intros (-> & -> & -> & ->); done]. Qed.

(** [Input_Equal] decides equality of the stripped inputs, and panics only when
    equal inputs carry different UTXO entries. *)
Lemma Input_Equal_spec {S E} i j (s : S) :
  Input_Equal (E:=E) i j s =
    (if bool_decide (strip_input i = strip_input j) then
       match in_UTXOEntry i, in_UTXOEntry j with
       | Some u, Some u' => if bool_decide (u = u') then Ret true else Panic
       | _, _ => Ret true
       end
     else Ret false, s).
Proof.
  unfold Input_Equal, DomainOutpoint_Equal.
  case_bool_decide as Hp; cbn.
  2:{ rewrite bool_decide_eq_false_2; [done|]. rewrite strip_input_eq. tauto. }
  case_bool_decide as Hs; cbn.
  2:{ rewrite bool_decide_eq_false_2; [done|]. rewrite strip_input_eq. tauto. }
  destruct (Z.eqb_spec (Sequence i) (Sequence j)) as [Hq|Hq]; cbn.
  2:{ rewrite bool_decide_eq_false_2; [done|]. rewrite strip_input_eq. tauto. }
  destruct (Z.eqb_spec (SigOpCount i) (SigOpCount j)) as [Hc|Hc]; cbn.
  2:{ rewrite bool_decide_eq_false_2; [done|]. rewrite strip_input_eq. tauto. }
  rewrite bool_decide_eq_true_2 by (by rewrite strip_input_eq).
  destruct (in_UTXOEntry i), (in_UTXOEntry j); try done.
  rewrite UTXOEntry_Equal_spec. by case_bool_decide.
Qed.

Lemma Inputs_Equal_spec {S E} inputs others (s : S) :
  Forall2 (fun i j => agree (in_UTXOEntry i) (in_UTXOEntry j)) inputs others ->
  exists b, Inputs_Equal (E:=E) inputs others s = (Ret b, s) /\
    (b = true <-> map strip_input inputs = map strip_input others).
Proof.
  induction 1 as [|i j xs ys Hag _ (b & Hb & Hiff)]; cbn; [by exists true|].
  unfold bind. rewrite Input_Equal_spec. case_bool_decide as Hij.
  - assert (H : match in_UTXOEntry i, in_UTXOEntry j with
       | Some u, Some u' => if bool_decide (u = u') then Ret (E:=E) true else Panic
       | _, _ => Ret true end = Ret true).
    { destruct (in_UTXOEntry i), (in_UTXOEntry j); cbn in Hag; try done.
      subst. by rewrite bool_decide_eq_true_2. }
    rewrite H. cbn. exists b. split; [done|]. rewrite Hiff, Hij.
    split; [by intros ->|apply app_inv_head with (l := [_])].
  - exists false. split; [done|]. split; [done|]. intros Hc. destruct Hij. apply (inj Some), (f_equal head Hc).
Qed.

(** ** Properties *)

(** [Equal] on two transactions whose lazily populated fields do not
    contradict each other never panics, and returns true exactly when they agree
    on every other field. *)
Theorem DomainTransaction_Equal_spec {S E} (tx other : DomainTransaction) (s : S) :
  consistent tx other ->
  exists b, DomainTransaction_Equal (E:=E) (Some tx) (Some other) s = (Ret b, s) /\
    (b = true <-> strip tx = strip other).
Proof.
  intros (Hin & Hfee & Hmass & Hid).
  destruct (Inputs_Equal_spec (E:=E) _ _ s Hin) as (bi & Hbi & Hi).
  unfold DomainTransaction_Equal, bind.
  assert (Hno : forall P : Prop, ~ P -> exists b, (Ret (E:=E) false, s) = (Ret b, s) /\ (b = true <-> P)).
  { intros P HP. exists false. split; [done|]. split; [done|]. tauto. }
  destruct (Z.eqb_spec (tx_Version tx) (tx_Version other)); cbn; [|apply Hno; intros [=]; done].
  rewrite (proj2 (Z.eqb_eq _ _)) by (unfold len; by rewrite (Forall2_length Hin)). cbn.
  rewrite Hbi. destruct bi; cbn.
  2:{ apply Hno. intros Hs. by pose proof (proj2 Hi (f_equal Inputs Hs)). }
  destruct (Z.eqb_spec (len (Outputs tx)) (len (Outputs other))) as [Hl|Hl]; cbn.
  2:{ apply Hno. intros Hs. apply Hl. by rewrite (f_equal Outputs Hs : Outputs tx = Outputs other). }
  destruct (Outputs_Equal_spec (E:=E) (Outputs tx) (Outputs other) s) as (bo & Hbo & Ho);
    [unfold len in Hl; lia|].
  rewrite Hbo. destruct bo; cbn.
  2:{ apply Hno. intros Hs. by pose proof (proj2 Ho (f_equal Outputs Hs)). }
  destruct (Z.eqb_spec (LockTime tx) (LockTime other)); cbn; [|apply Hno; intros [=]; done].
  case_bool_decide; cbn; [|apply Hno; intros [=]; done].
  destruct (Z.eqb_spec (Gas tx) (Gas other)); cbn; [|apply Hno; intros [=]; done].
  case_bool_decide; cbn; [|apply Hno; intros [=]; done].
  assert (Hag : forall a b, agree (nonzero a) (nonzero b) ->
    negb (a =? 0) && negb (b =? 0) && negb (a =? b) = false).
  { intros a b. unfold agree, nonzero. destruct (a =? 0), (b =? 0); cbn; try done.
    intros ->. by rewrite Z.eqb_refl. }
  rewrite !Hag by done.
  exists true. split.
  - destruct (ID tx), (ID other); cbn in Hid; try done. subst.
    by rewrite bool_decide_eq_true_2.
  - split; [|done]. intros _. unfold strip. rewrite (proj1 Hi eq_refl), (proj1 Ho eq_refl).
    congruence.
Qed.

Lemma DomainTransaction_Equal_spec_witness :
  let tx := MkTransaction 0 [] [] 7 SubnetworkIDNative 0 [] 0 3 None in
  let other := MkTransaction 0 [] [] 7 SubnetworkIDNative 0 [] 5 0 (Some zeroHash) in
  exists b, DomainTransaction_Equal (E:=unit) (Some tx) (Some other) tt = (Ret b, tt) /\
    (b = true <-> strip tx = strip other).
Proof.
  apply (DomainTransaction_Equal_spec (MkTransaction 0 [] [] 7 SubnetworkIDNative 0 [] 0 3 None)
           (MkTransaction 0 [] [] 7 SubnetworkIDNative 0 [] 5 0 (Some zeroHash)) tt).
  repeat split; constructor.
Defined.
