(* ===== verification/Sha256.v ===== *)
(** * SHA-256

    [crypto/sha256.Sum256] of the Go standard library, used by OP_SHA256 and by
    the ECDSA and ML-DSA-44 signature hashes.  The definition follows FIPS 180-4:
    padding, message schedule, compression and the final big-endian digest. *)

From S2P Require Import Prelude.

Definition rotr (n x : Z) : Z :=
  Z.lor (Z.shiftr x n) (u32 (Z.shiftl x (32 - n))).

Definition add32 (x y : Z) : Z := u32 (x + y).

Definition Ch (x y z : Z) : Z := Z.lxor (Z.land x y) (Z.land (Z.lxor x 0xffffffff) z).
Definition Maj (x y z : Z) : Z :=
  Z.lxor (Z.lxor (Z.land x y) (Z.land x z)) (Z.land y z).
Definition bigSigma0 (x : Z) : Z := Z.lxor (Z.lxor (rotr 2 x) (rotr 13 x)) (rotr 22 x).
Definition bigSigma1 (x : Z) : Z := Z.lxor (Z.lxor (rotr 6 x) (rotr 11 x)) (rotr 25 x).
Definition smallSigma0 (x : Z) : Z := Z.lxor (Z.lxor (rotr 7 x) (rotr 18 x)) (Z.shiftr x 3).
Definition smallSigma1 (x : Z) : Z := Z.lxor (Z.lxor (rotr 17 x) (rotr 19 x)) (Z.shiftr x 10).

(** FIPS 180-4 takes its constants from the first primes: the leading 32 bits of
    the fractional parts of cube roots (rounds) and of square roots (initial
    value). *)
Definition isPrime (n : Z) : bool :=
  forallb (fun d => negb (n mod d =? 0)) (seqZ 2 (n - 2)).

Definition primesBelow (n : Z) : list Z := List.filter isPrime (seqZ 2 (n - 2)).

(** The integer cube root of n, one bit at a time from bit k - 1. *)
Fixpoint cubeRootFrom (k : nat) (acc n : Z) : Z :=
  match k with
  | O => acc
  | S k =>
      let acc' := acc + 2 ^ Z.of_nat k in
      cubeRootFrom k (if acc' * acc' * acc' <=? n then acc' else acc) n
  end.

Definition cubeRootBits (p : Z) : Z := u32 (cubeRootFrom 35 0 (p * 2 ^ 96)).
Definition squareRootBits (p : Z) : Z := u32 (Z.sqrt (p * 2 ^ 64)).

(** 312 lies just above the 64th prime. *)
Definition roundConstants : list Z :=
  Eval vm_compute in List.map cubeRootBits (primesBelow 312).

(** The eight working variables and chaining values. *)
Record digest : Type := Digest { hA : Z; hB : Z; hC : Z; hD : Z; hE : Z; hF : Z; hG : Z; hH : Z }.

Definition initialDigest : digest :=
  Eval vm_compute in
    match List.map squareRootBits (primesBelow 20) with
    | [a; b; c; d; e; f; g; h] => Digest a b c d e f g h
    | _ => Digest 0 0 0 0 0 0 0 0
    end.

Definition round (d : digest) (k w : Z) : digest :=
  let t1 := add32 (add32 (add32 (add32 (hH d) (bigSigma1 (hE d))) (Ch (hE d) (hF d) (hG d))) k) w in
  let t2 := add32 (bigSigma0 (hA d)) (Maj (hA d) (hB d) (hC d)) in
  Digest (add32 t1 t2) (hA d) (hB d) (hC d) (add32 (hD d) t1) (hE d) (hF d) (hG d).

(** The next word of the schedule from the last sixteen. *)
Definition nextWord (w : list Z) : Z :=
  add32 (add32 (smallSigma1 (nth 14 w 0)) (nth 9 w 0)) (add32 (smallSigma0 (nth 1 w 0)) (nth 0 w 0)).

(** Rounds over a sliding window of sixteen schedule words. *)
Fixpoint rounds (ks : list Z) (w : list Z) (d : digest) : digest :=
  match ks, w with
  | k :: ks, w0 :: w' => rounds ks (w' ++ [nextWord w]) (round d k w0)
  | _, _ => d
  end.

Definition compress (d : digest) (block : list Z) : digest :=
  let r := rounds roundConstants block d in
  Digest (add32 (hA d) (hA r)) (add32 (hB d) (hB r)) (add32 (hC d) (hC r)) (add32 (hD d) (hD r))
         (add32 (hE d) (hE r)) (add32 (hF d) (hF r)) (add32 (hG d) (hG r)) (add32 (hH d) (hH r)).

Definition be_split (n : nat) (z : Z) : bytes := reverse (le_split n z).
Definition be_combine (l : bytes) : Z := le_combine (reverse l).

(** 0x80, zero bytes up to 56 modulo 64, and the length in bits. *)
Definition pad (msg : bytes) : bytes :=
  msg ++ [zb 0x80] ++ replicate (Z.to_nat ((55 - len msg) mod 64)) (zb 0)
      ++ be_split 8 (u64 (8 * len msg)).

(** Big-endian words of four bytes. *)
Fixpoint words (l : bytes) : list Z :=
  match l with
  | b0 :: b1 :: b2 :: b3 :: rest => be_combine [b0; b1; b2; b3] :: words rest
  | _ => []
  end.

(** All blocks of sixteen words. *)
Fixpoint blocks (fuel : nat) (w : list Z) (d : digest) : digest :=
  match fuel, w with
  | S fuel, _ :: _ => blocks fuel (drop 16 w) (compress d (take 16 w))
  | _, _ => d
  end.

Definition digestBytes (d : digest) : bytes :=
  be_split 4 (hA d) ++ be_split 4 (hB d) ++ be_split 4 (hC d) ++ be_split 4 (hD d) ++
  be_split 4 (hE d) ++ be_split 4 (hF d) ++ be_split 4 (hG d) ++ be_split 4 (hH d).

Definition Sum256 (msg : bytes) : bytes :=
  let w := words (pad msg) in
  digestBytes (blocks (List.length w) w initialDigest).

Lemma Sum256_length (msg : bytes) : List.length (Sum256 msg) = 32%nat.
Proof.
  unfold Sum256, digestBytes, be_split.
  by rewrite !length_app, !length_reverse, !length_le_split.
Qed.

(** The digest of the three bytes of the string abc, from FIPS 180-4. *)
Example Sum256_abc :
  Sum256 (bytes_of [0x61; 0x62; 0x63]) =
  be_split 32 0xba7816bf8f01cfea414140de5dae2223b00361a396177a9cb410ff61f20015ad.
Proof. vm_compute. reflexivity. Qed.
