(* ===== verification/Serialization.v ===== *)
(** * Binary serialization

    [src/util/binaryserializer], [WriteElement] and [ReadElement] of
    [src/domain/consensus/utils/serialization/common.go], the transaction
    encoding of [utils/consensushashing/transaction.go] and the UTXO encoding of
    [utils/utxo/serialization.go].

    A writer is a computation on the bytes written so far; the writers of the
    program ([bytes.Buffer] and the hash functions) never return an error.  A
    reader is a computation on the bytes that remain ([bytes.Reader]). *)

From S2P Require Import Prelude Transaction.

(** ** Errors *)

(** [EOF] and [UnexpectedEOF] are the errors of [io.ReadFull]; [ErrRange] is the
    error of a signed integer that does not fit, [ErrHashSize] the error of
    [NewDomainHashFromByteSlice]. *)
Inductive serError : Type :=
| EOF
| UnexpectedEOF
| errMalformed
| ErrRange
| ErrHashSize
| errNoEncodingForType.

#[export] Instance serError_eq_dec : EqDecision serError.
Proof. solve_decision. Defined.

Definition writer := M bytes serError.
Definition reader := M bytes serError.

(** [w.Write(bs)] *)
Definition write (bs : bytes) : writer unit := modify (fun w => w ++ bs).

(** [io.ReadFull(r, buf)] with a buffer of [n] bytes. *)
Definition readFull (n : Z) : reader bytes := fun r =>
  if n =? 0 then (Ret [], r)
  else if len r =? 0 then (Err EOF, r)
  else if len r <? n then (Err UnexpectedEOF, [])
  else (Ret (take (Z.to_nat n) r), drop (Z.to_nat n) r).

(** ** binaryserializer *)

Definition PutUint8 (v : Z) : writer unit := write [zb v].
Definition PutUint16 (v : Z) : writer unit := write (le_split 2 v).
Definition PutUint32 (v : Z) : writer unit := write (le_split 4 v).
Definition PutUint64 (v : Z) : writer unit := write (le_split 8 v).

Definition Uint8 : reader Z := buf <- readFull 1 ;; ret (le_combine buf).
Definition Uint16 : reader Z := buf <- readFull 2 ;; ret (le_combine buf).
Definition Uint32 : reader Z := buf <- readFull 4 ;; ret (le_combine buf).
Definition Uint64 : reader Z := buf <- readFull 8 ;; ret (le_combine buf).

(** ** Elements *)

(** The dynamic types [WriteElement] tells apart; [EOther] is any other type. *)
Inductive element : Type :=
| EBytes (e : bytes)
| EInt16 (e : Z)
| EUint16 (e : Z)
| EInt32 (e : Z)
| EUint32 (e : Z)
| EInt64 (e : Z)
| EUint64 (e : Z)
| EUint8 (e : Z)
| EBool (e : bool)
| EHash (e : bytes)
| ETransactionID (e : bytes)
| ESubnetworkID (e : bytes)
| EOther.

Definition WriteElement (e : element) : writer unit :=
  match e with
  | EBytes e => PutUint64 (len e) ;;; write e
  | EInt16 e => if e <? 0 then throw ErrRange else PutUint16 e
  | EUint16 e => PutUint16 e
  | EInt32 e => if e <? 0 then throw ErrRange else PutUint32 e
  | EUint32 e => PutUint32 e
  | EInt64 e => PutUint64 (u64 e)
  | EUint64 e => PutUint64 e
  | EUint8 e => PutUint8 e
  | EBool e => if e then PutUint8 0x01 else PutUint8 0x00
  | EHash e => write e
  | ETransactionID e => write e
  | ESubnetworkID e => write e
  | EOther => throw errNoEncodingForType
  end.

Fixpoint WriteElements (es : list element) : writer unit :=
  match es with
  | [] => ret tt
  | e :: es => WriteElement e ;;; WriteElements es
  end.

(** The pointer types [ReadElement] tells apart. *)
Inductive elementType : Type :=
| TInt16 | TUint16 | TInt32 | TUint32 | TInt64 | TUint64 | TUint8 | TBool | TOther.

Definition ReadElement (t : elementType) : reader element :=
  match t with
  | TInt16 => rv <- Uint16 ;; if 2 ^ 15 - 1 <? rv then throw ErrRange else ret (EInt16 rv)
  | TUint16 => rv <- Uint16 ;; ret (EUint16 rv)
  | TInt32 => rv <- Uint32 ;; if MaxInt32 <? rv then throw ErrRange else ret (EInt32 rv)
  | TUint32 => rv <- Uint32 ;; ret (EUint32 rv)
  | TInt64 => rv <- Uint64 ;; if MaxInt64 <? rv then throw ErrRange else ret (EInt64 rv)
  | TUint64 => rv <- Uint64 ;; ret (EUint64 rv)
  | TUint8 => rv <- Uint8 ;; ret (EUint8 rv)
  | TBool =>
      rv <- Uint8 ;;
      if rv =? 0x00 then ret (EBool false)
      else if rv =? 0x01 then ret (EBool true)
      else throw errMalformed
  | TOther => throw errNoEncodingForType
  end.

(** ** Transactions *)

(** [iota] is 1 on the line of the flag, so its value is [1 << 1]. *)
Definition txEncodingFull : Z := 0.
Definition txEncodingExcludeSignatureScript : Z := 2.

Definition writeVarBytes (data : bytes) : writer unit :=
  WriteElement (EUint64 (len data)) ;;; write data.

Definition writeOutpoint (outpoint : DomainOutpoint) : writer unit :=
  write (TransactionID outpoint) ;;; PutUint32 (Index outpoint).

Definition writeTransactionInput (ti : DomainTransactionInput) (encodingFlags : Z) : writer unit :=
  writeOutpoint (PreviousOutpoint ti) ;;;
  (if negb (Z.land encodingFlags txEncodingExcludeSignatureScript
            =? txEncodingExcludeSignatureScript)
   then writeVarBytes (SignatureScript ti) ;;; write [zb (SigOpCount ti)]
   else writeVarBytes []) ;;;
  PutUint64 (Sequence ti).

Definition writeTxOut (to : DomainTransactionOutput) : writer unit :=
  PutUint64 (Value to) ;;;
  PutUint16 (spk_Version (out_ScriptPublicKey to)) ;;;
  writeVarBytes (spk_Script (out_ScriptPublicKey to)).

(** [for _, x := range l { if err := f(x); err != nil { return err } }] *)
Fixpoint forEach {A} (f : A -> writer unit) (l : list A) : writer unit :=
  match l with
  | [] => ret tt
  | x :: l => f x ;;; forEach f l
  end.

Definition serializeTransaction (tx : DomainTransaction) (encodingFlags : Z) : writer unit :=
  PutUint16 (tx_Version tx) ;;;
  WriteElement (EUint64 (len (Inputs tx))) ;;;
  forEach (fun input => writeTransactionInput input encodingFlags) (Inputs tx) ;;;
  WriteElement (EUint64 (len (Outputs tx))) ;;;
  forEach writeTxOut (Outputs tx) ;;;
  PutUint64 (LockTime tx) ;;;
  write (SubnetworkID tx) ;;;
  PutUint64 (Gas tx) ;;;
  writeVarBytes (Payload tx).

(** ** UTXOs *)

(** [make([]byte, n)] panics above the largest allocation of the run time on
    64-bit platforms. *)
Definition maxAlloc : Z := 2 ^ 48.

Definition makeBytes {S E} (n : Z) : M S E unit := if maxAlloc <? n then panic else ret tt.

Definition serializeOutpoint (outpoint : DomainOutpoint) : writer unit :=
  write (TransactionID outpoint) ;;; WriteElement (EUint32 (Index outpoint)).

Definition serializeUTXOEntry (entry : UTXOEntry) : writer unit :=
  WriteElements [EUint64 (blockDAAScore entry); EUint64 (amount entry);
                 EBool (isCoinbase entry)] ;;;
  WriteElement (EUint16 (spk_Version (scriptPublicKey entry))) ;;;
  WriteElement (EUint64 (len (spk_Script (scriptPublicKey entry)))) ;;;
  write (spk_Script (scriptPublicKey entry)).

(** The bytes of the buffer a writer filled, or its error. *)
Definition SerializeUTXO (entry : UTXOEntry) (outpoint : DomainOutpoint) : outcome serError bytes :=
  match (serializeOutpoint outpoint ;;; serializeUTXOEntry entry) [] with
  | (Ret _, w) => Ret w
  | (Err e, _) => Err e
  | (Panic, _) => Panic
  end.

(** [ReadElement] into a variable of the given type. *)
Definition readUint16 : reader Z :=
  e <- ReadElement TUint16 ;; match e with EUint16 v => ret v | _ => panic end.
Definition readUint32 : reader Z :=
  e <- ReadElement TUint32 ;; match e with EUint32 v => ret v | _ => panic end.
Definition readUint64 : reader Z :=
  e <- ReadElement TUint64 ;; match e with EUint64 v => ret v | _ => panic end.
Definition readBool : reader bool :=
  e <- ReadElement TBool ;; match e with EBool v => ret v | _ => panic end.

Definition deserializeOutpoint : reader DomainOutpoint :=
  transactionIDBytes <- readFull DomainHashSize ;;
  guard_err (negb (len transactionIDBytes =? DomainHashSize)) ErrHashSize ;;;
  index <- readUint32 ;;
  ret (MkOutpoint transactionIDBytes index).

Definition deserializeUTXOEntry : reader UTXOEntry :=
  blockDAAScore <- readUint64 ;;
  amount <- readUint64 ;;
  isCoinbase <- readBool ;;
  version <- readUint16 ;;
  scriptPubKeyLen <- readUint64 ;;
  makeBytes scriptPubKeyLen ;;;
  scriptPubKeyScript <- readFull scriptPubKeyLen ;;
  ret (NewUTXOEntry amount (MkScriptPublicKey scriptPubKeyScript version) isCoinbase blockDAAScore).

Definition DeserializeUTXO (utxoBytes : bytes) : outcome serError (UTXOEntry * DomainOutpoint) :=
  ((outpoint <- deserializeOutpoint ;;
    entry <- deserializeUTXOEntry ;;
    ret (entry, outpoint)) utxoBytes).1.

(** ** What the writers write *)

(** Started on any buffer, the writer appends [bs] and returns no error. *)
Definition emits (w : writer unit) (bs : bytes) : Prop :=
  forall buf, w buf = (Ret tt, buf ++ bs).

Lemma emits_write bs : emits (write bs) bs.
Proof. done. Qed.

Lemma emits_bind w k bs bs' : emits w bs -> emits k bs' -> emits (w ;;; k) (bs ++ bs').
Proof. intros Hw Hk buf. unfold bind. by rewrite Hw, Hk, app_assoc. Qed.

Lemma emits_ret : emits (ret tt) [].
Proof. intros buf. by rewrite app_nil_r. Qed.

#[export] Hint Resolve emits_write emits_ret : go.

Ltac emit := repeat first [apply emits_bind | solve [auto with go] | apply emits_write].

(** The encodings, as functions. *)
Definition encVarBytes (data : bytes) : bytes := le_split 8 (len data) ++ data.

Definition encOutpoint (o : DomainOutpoint) : bytes := TransactionID o ++ le_split 4 (Index o).

Definition encInput (full : bool) (i : DomainTransactionInput) : bytes :=
  encOutpoint (PreviousOutpoint i) ++
  (if full then encVarBytes (SignatureScript i) ++ [zb (SigOpCount i)] else encVarBytes []) ++
  le_split 8 (Sequence i).

Definition encOutput (o : DomainTransactionOutput) : bytes :=
  le_split 8 (Value o) ++ le_split 2 (spk_Version (out_ScriptPublicKey o)) ++
  encVarBytes (spk_Script (out_ScriptPublicKey o)).

Definition encList {A} (enc : A -> bytes) (l : list A) : bytes :=
  le_split 8 (len l) ++ concat (map enc l).

Definition encTransaction (full : bool) (tx : DomainTransaction) : bytes :=
  le_split 2 (tx_Version tx) ++ encList (encInput full) (Inputs tx) ++
  encList encOutput (Outputs tx) ++ le_split 8 (LockTime tx) ++ SubnetworkID tx ++
  le_split 8 (Gas tx) ++ encVarBytes (Payload tx).

Lemma emits_forEach {A} (f : A -> writer unit) (enc : A -> bytes) l :
  (forall x, emits (f x) (enc x)) -> emits (forEach f l) (concat (map enc l)).
Proof. intros Hf. induction l; cbn; emit; auto. Qed.

Lemma writeVarBytes_emits data : emits (writeVarBytes data) (encVarBytes data).
Proof. unfold writeVarBytes, encVarBytes. emit. Qed.

Lemma writeOutpoint_emits o : emits (writeOutpoint o) (encOutpoint o).
Proof. unfold writeOutpoint. emit. Qed.

#[export] Hint Resolve writeVarBytes_emits writeOutpoint_emits : go.

Definition isFull (encodingFlags : Z) : bool :=
  negb (Z.land encodingFlags txEncodingExcludeSignatureScript =? txEncodingExcludeSignatureScript).

Lemma writeTransactionInput_emits i flags :
  emits (writeTransactionInput i flags) (encInput (isFull flags) i).
Proof.
  unfold writeTransactionInput, encInput. fold (isFull flags).
  apply emits_bind; [auto with go|]. apply emits_bind; [|emit].
  destruct (isFull flags); emit.
Qed.

Lemma writeTxOut_emits o : emits (writeTxOut o) (encOutput o).
Proof. unfold writeTxOut, encOutput. emit. Qed.

Lemma serializeTransaction_emits tx flags :
  emits (serializeTransaction tx flags) (encTransaction (isFull flags) tx).
Proof.
  unfold serializeTransaction, encTransaction, encList. rewrite <- !app_assoc. cbn.
  emit; apply emits_forEach; auto using writeTransactionInput_emits, writeTxOut_emits.
Qed.

(** ** Uniquely readable encodings *)

(** An encoding of the values satisfying [P] that can be read back, whatever
    bytes follow it. *)
Class PrefixInj {A} (enc : A -> bytes) (P : A -> Prop) : Prop :=
  prefix_inj : forall x y r r', P x -> P y -> enc x ++ r = enc y ++ r' -> x = y /\ r = r'.

Lemma fixed_length_inj {A} (enc : A -> bytes) (P : A -> Prop) (n : nat) :
  (forall x, P x -> List.length (enc x) = n) ->
  (forall x y, P x -> P y -> enc x = enc y -> x = y) -> PrefixInj enc P.
Proof.
  intros Hlen Hinj x y r r' Hx Hy Heq.
  apply app_inj_1 in Heq as [He ->]; [|rewrite !Hlen; done]. auto.
Qed.

#[export] Instance le_split_inj (n : nat) (P : Z -> Prop) :
  (forall z, P z -> 0 <= z < 2 ^ (8 * Z.of_nat n)) -> PrefixInj (le_split n) P | 100.
Proof.
  intros HP. apply fixed_length_inj with n; [intros; apply length_le_split|].
  intros x y Hx%HP Hy%HP Heq. apply (f_equal le_combine) in Heq.
  by rewrite !le_combine_le_split in Heq.
Qed.

Lemma le_split_u64 : PrefixInj (le_split 8) is_u64.
Proof. apply le_split_inj. intros z. unfold_ranges. cbn. lia. Qed.
Lemma le_split_u32 : PrefixInj (le_split 4) is_u32.
Proof. apply le_split_inj. intros z. unfold_ranges. cbn. lia. Qed.
Lemma le_split_u16 : PrefixInj (le_split 2) is_u16.
Proof. apply le_split_inj. intros z. unfold_ranges. cbn. lia. Qed.

#[export] Existing Instances le_split_u64 le_split_u32 le_split_u16.

#[export] Instance encVarBytes_inj : PrefixInj encVarBytes (fun d => len d < 2 ^ 63).
Proof.
  intros x y r r' Hx Hy. unfold encVarBytes. rewrite <- !app_assoc. intros Heq.
  pose proof (len_nonneg x). pose proof (len_nonneg y).
  apply (prefix_inj (P := is_u64)) in Heq as [Hl Heq]; [|unfold_ranges; lia..].
  apply app_inj_1 in Heq; [done|]. unfold len in Hl. lia.
Qed.

#[export] Instance encOutpoint_inj : PrefixInj encOutpoint wf_outpoint.
Proof.
  intros [t i] [t' i'] r r' [Ht Hi] [Ht' Hi']. unfold encOutpoint. cbn in *.
  rewrite <- !app_assoc. intros Heq.
  apply app_inj_1 in Heq as [-> Heq]; [|unfold wf_hash, len in *; lia].
  by apply (prefix_inj (P := is_u32)) in Heq as [-> ->].
Qed.

(** Elements one after the other, their number given. *)
Lemma concat_inj {A} (enc : A -> bytes) (P : A -> Prop) `{!PrefixInj enc P} l k r r' :
  Forall P l -> Forall P k -> List.length l = List.length k ->
  concat (map enc l) ++ r = concat (map enc k) ++ r' -> l = k /\ r = r'.
Proof.
  intros Hl. revert k. induction Hl as [|x l Hx _ IH]; intros [|y k] Hk Hlen; cbn; try done.
  apply Forall_cons_1 in Hk as [Hy Hk]. rewrite <- !app_assoc. intros Heq.
  apply (prefix_inj (P := P)) in Heq as [-> Heq]; [|done..].
  destruct (IH k Hk) as [-> ->]; auto.
Qed.

#[export] Instance encList_inj {A} (enc : A -> bytes) (P : A -> Prop) :
  PrefixInj enc P -> PrefixInj (encList enc) (fun l => Forall P l /\ len l < 2 ^ 63).
Proof.
  intros Henc l k r r' [Hl Hl'] [Hk Hk']. unfold encList. rewrite <- !app_assoc. intros Heq.
  pose proof (len_nonneg l). pose proof (len_nonneg k).
  apply (prefix_inj (P := is_u64)) in Heq as [Hlen Heq]; [|unfold_ranges; lia..].
  by apply (concat_inj enc P) in Heq; [|done..|unfold len in Hlen; lia].
Qed.

(** An input or transaction without its signature scripts and their counts. *)
Definition unsigned_input (i : DomainTransactionInput) : DomainTransactionInput :=
  MkInput (PreviousOutpoint i) [] (Sequence i) 0 None.

Definition unsigned (tx : DomainTransaction) : DomainTransaction :=
  MkTransaction (tx_Version tx) (map unsigned_input (Inputs tx)) (Outputs tx) (LockTime tx)
    (SubnetworkID tx) (Gas tx) (Payload tx) 0 0 None.

(** The input as the encoding sees it. *)
Definition seen_input (full : bool) (i : DomainTransactionInput) : DomainTransactionInput :=
  if full then strip_input i else unsigned_input i.

Definition seen (full : bool) (tx : DomainTransaction) : DomainTransaction :=
  if full then strip tx else unsigned tx.

Lemma seen_Inputs full tx : Inputs (seen full tx) = map (seen_input full) (Inputs tx).
Proof. by destruct full. Qed.

Lemma encInput_seen full i : encInput full (seen_input full i) = encInput full i.
Proof. by destruct full. Qed.

Lemma encInputs_seen full l :
  le_split 8 (len l) ++ concat (map (encInput full) l)
  = encList (encInput full) (map (seen_input full) l).
Proof.
  unfold encList, len. rewrite length_map, map_map. do 2 f_equal.
  apply map_ext. intros i. by rewrite encInput_seen.
Qed.

Lemma encTransaction_seen full tx : encTransaction full (seen full tx) = encTransaction full tx.
Proof.
  unfold encTransaction. rewrite seen_Inputs, <- encInputs_seen. by destruct full.
Qed.

#[export] Instance encInput_inj full :
  PrefixInj (encInput full) (fun i => wf_input i /\ i = seen_input full i).
Proof.
  intros [o s q c u] [o' s' q' c' u'] r r' [(Ho & Hs & Hq & Hc) Hi] [(Ho' & Hs' & Hq' & Hc') Hi'].
  unfold encInput. cbn in *. rewrite <- !app_assoc. intros Heq.
  apply (prefix_inj (P := wf_outpoint)) in Heq as [-> Heq]; [|done..].
  destruct full; cbn in Hi, Hi'.
  - injection Hi as ->. injection Hi' as ->. rewrite <- !app_assoc in Heq.
    apply (prefix_inj (P := fun d => len d < 2 ^ 63)) in Heq as [-> Heq]; [|done..].
    apply (app_inj_1 [zb c] [zb c']) in Heq as [Hcc Heq]; [|done]. injection Hcc as Hcc.
    apply (prefix_inj (P := is_u64)) in Heq as [-> ->]; [|done..].
    apply (f_equal bz) in Hcc. rewrite !bz_zb_small in Hcc by (unfold_ranges; lia).
    by subst.
  - injection Hi as -> -> ->. injection Hi' as -> -> ->.
    apply app_inv_head in Heq. by apply (prefix_inj (P := is_u64)) in Heq as [-> ->].
Qed.

#[export] Instance encOutput_inj : PrefixInj encOutput wf_output.
Proof.
  intros [v [s ver]] [v' [s' ver']] r r' (Hv & Hver & Hs) (Hv' & Hver' & Hs').
  unfold encOutput. cbn in *. rewrite <- !app_assoc. intros Heq.
  apply (prefix_inj (P := is_u64)) in Heq as [-> Heq]; [|done..].
  apply (prefix_inj (P := is_u16)) in Heq as [-> Heq]; [|done..].
  by apply (prefix_inj (P := fun d => len d < 2 ^ 63)) in Heq as [-> ->].
Qed.

Lemma wf_seen_input full i : wf_input i -> wf_input (seen_input full i).
Proof.
  destruct full; [done|]. intros (Ho & _ & Hq & _).
  split; [done|split; [done|split; [done|]]]. cbn. unfold_ranges. lia.
Qed.

Lemma seen_input_idemp full i : seen_input full i = seen_input full (seen_input full i).
Proof. by destruct full. Qed.

Lemma wf_seen_inputs full l :
  Forall wf_input l -> len l < 2 ^ 63 ->
  Forall (fun i => wf_input i /\ i = seen_input full i) (map (seen_input full) l) /\
  len (map (seen_input full) l) < 2 ^ 63.
Proof.
  intros Hl Hlen. split; [clear Hlen|unfold len; by rewrite length_map].
  induction Hl; cbn; constructor; auto using wf_seen_input, seen_input_idemp.
Qed.

Lemma encTransaction_inj full tx tx' :
  wf_transaction tx -> wf_transaction tx' ->
  encTransaction full tx = encTransaction full tx' -> seen full tx = seen full tx'.
Proof.
  intros (Hv & Hin & Hout & Hli & Hlo & Hlt & Hsub & Hg & Hp)
         (Hv' & Hin' & Hout' & Hli' & Hlo' & Hlt' & Hsub' & Hg' & Hp').
  unfold encTransaction. unfold encList at 1 3. rewrite !encInputs_seen. intros Heq.
  apply (prefix_inj (P := is_u16)) in Heq as [Ev Heq]; [|done..].
  apply (prefix_inj (P := fun l => Forall (fun i => wf_input i /\ i = seen_input full i) l
    /\ len l < 2 ^ 63)) in Heq as [Ei Heq]; [|by apply wf_seen_inputs..].
  apply (prefix_inj (P := fun l => Forall wf_output l /\ len l < 2 ^ 63)) in Heq as [Eo Heq];
    [|done..].
  apply (prefix_inj (P := is_u64)) in Heq as [El Heq]; [|done..].
  apply app_inj_1 in Heq as [Es Heq]; [|unfold wf_subnetworkID, len in *; lia].
  apply (prefix_inj (P := is_u64)) in Heq as [Eg Heq]; [|done..].
  rewrite <- (app_nil_r (encVarBytes (Payload tx))),
    <- (app_nil_r (encVarBytes (Payload tx'))) in Heq.
  apply (prefix_inj (P := fun d => len d < 2 ^ 63)) in Heq as [Ep _]; [|done..].
  destruct full; unfold seen, strip, unsigned;
    [change (map strip_input (Inputs tx) = map strip_input (Inputs tx')) in Ei
    |change (map unsigned_input (Inputs tx) = map unsigned_input (Inputs tx')) in Ei];
    congruence.
Qed.

(** ** Reading *)

Lemma readFull_app (n : Z) bs r : 0 <= n -> len bs = n -> readFull n (bs ++ r) = (Ret bs, r).
Proof.
  intros Hn Hl. unfold readFull. rewrite len_app. pose proof (len_nonneg r).
  destruct (Z.eqb_spec n 0).
  - destruct bs as [|b bs]; [done|]. rewrite len_cons in Hl. pose proof (len_nonneg bs). lia.
  - rewrite (proj2 (Z.eqb_neq _ _)), (proj2 (Z.ltb_ge _ _)) by lia.
    unfold len in Hl. replace (Z.to_nat n) with (List.length bs) by lia.
    by rewrite take_app_length, drop_app_length.
Qed.

Lemma readFull_inv (n : Z) r bs r' :
  0 <= n -> readFull n r = (Ret bs, r') -> r = bs ++ r' /\ len bs = n.
Proof.
  intros Hn. unfold readFull. destruct (Z.eqb_spec n 0) as [->|]; [by intros [= <- <-]|].
  destruct (_ =? 0); [done|]. destruct (Z.ltb_spec (len r) n); [done|].
  intros [= <- <-]. rewrite take_drop. split; [done|].
  unfold len in *. rewrite length_take_le; lia.
Qed.

Lemma readUint_app (k : nat) (v : Z) r :
  0 <= v < 2 ^ (8 * Z.of_nat k) ->
  (buf <- readFull (Z.of_nat k) ;; ret (le_combine buf)) (le_split k v ++ r) = (Ret v, r).
Proof.
  intros Hv. unfold bind. rewrite readFull_app by (lia || apply len_le_split).
  cbn. by rewrite le_combine_le_split.
Qed.

Lemma readUint_inv (k : nat) (v : Z) r r' :
  (buf <- readFull (Z.of_nat k) ;; ret (le_combine buf)) r = (Ret v, r') ->
  0 <= v < 2 ^ (8 * Z.of_nat k) /\ r = le_split k v ++ r'.
Proof.
  unfold bind. destruct (readFull (Z.of_nat k) r) as [[bs| |] r''] eqn:H; try done.
  apply readFull_inv in H as [-> Hl]; [|lia]. cbn. intros [= <- <-].
  pose proof (le_combine_bound bs). unfold len in Hl.
  split; [by replace k with (List.length bs) by lia|].
  rewrite <- (split_le_combine bs) at 1. do 2 f_equal. lia.
Qed.

(** The type a written element is read back as, and the values it can hold. *)
Definition typeOf (e : element) : elementType :=
  match e with
  | EInt16 _ => TInt16 | EUint16 _ => TUint16 | EInt32 _ => TInt32 | EUint32 _ => TUint32
  | EInt64 _ => TInt64 | EUint64 _ => TUint64 | EUint8 _ => TUint8 | EBool _ => TBool
  | _ => TOther
  end.

Definition readable (e : element) : Prop :=
  match e with
  | EInt16 v => 0 <= v < 2 ^ 15
  | EUint16 v => is_u16 v
  | EInt32 v => 0 <= v <= MaxInt32
  | EUint32 v => is_u32 v
  | EInt64 v => 0 <= v <= MaxInt64
  | EUint64 v => is_u64 v
  | EUint8 v => is_u8 v
  | EBool _ => True
  | _ => False
  end.

(** The bytes [WriteElement] writes for a readable element. *)
Definition encElement (e : element) : bytes :=
  match e with
  | EInt16 v | EUint16 v => le_split 2 v
  | EInt32 v | EUint32 v => le_split 4 v
  | EInt64 v | EUint64 v => le_split 8 v
  | EUint8 v => le_split 1 v
  | EBool b => le_split 1 (if b then 1 else 0)
  | _ => []
  end.

Lemma WriteElement_emits e : readable e -> emits (WriteElement e) (encElement e).
Proof.
  destruct e; cbn; unfold_ranges; intros He; try done; try apply emits_write.
  - rewrite (proj2 (Z.ltb_ge _ _)) by lia. apply emits_write.
  - rewrite (proj2 (Z.ltb_ge _ _)) by lia. apply emits_write.
  - unfold u64. rewrite Z.mod_small by lia. apply emits_write.
  - destruct e; apply emits_write.
Qed.

Lemma ReadElement_app e r :
  readable e -> ReadElement (typeOf e) (encElement e ++ r) = (Ret e, r).
Proof.
  intros He.
  assert (Hk : forall (k : nat) v (f : Z -> reader element),
    0 <= v < 2 ^ (8 * Z.of_nat k) ->
    (rv <- (buf <- readFull (Z.of_nat k) ;; ret (le_combine buf)) ;; f rv) (le_split k v ++ r)
    = f v r).
  { intros k v f Hv. pose proof (readUint_app k v r Hv) as H. unfold bind at 1. by rewrite H. }
  destruct e; cbn [typeOf encElement ReadElement readable] in *; try done;
    unfold Uint8, Uint16, Uint32, Uint64, is_u8, is_u16, is_u32, is_u64 in *.
  1,2: rewrite (Hk 2%nat) by (unfold_ranges; cbn; lia).
  3,4: rewrite (Hk 4%nat) by (unfold_ranges; cbn; lia).
  5,6: rewrite (Hk 8%nat) by (unfold_ranges; cbn; lia).
  7: rewrite (Hk 1%nat) by (unfold_ranges; cbn; lia).
  8: destruct e; by rewrite (Hk 1%nat) by (cbn; lia).
  all: rewrite ?(proj2 (Z.ltb_ge _ _)) by lia; done.
Qed.

Lemma ReadElement_inv t r e r' :
  ReadElement t r = (Ret e, r') -> typeOf e = t /\ readable e /\ r = encElement e ++ r'.
Proof.
  assert (Hk : forall (k : nat) (f : Z -> reader element),
    (rv <- (buf <- readFull (Z.of_nat k) ;; ret (le_combine buf)) ;; f rv) r = (Ret e, r') ->
    exists v r'', 0 <= v < 2 ^ (8 * Z.of_nat k) /\ r = le_split k v ++ r'' /\ f v r'' = (Ret e, r')).
  { intros k f. unfold bind at 1.
    destruct ((buf <- readFull (Z.of_nat k) ;; ret (le_combine buf)) r) as [[v| |] r''] eqn:H;
      try done.
    apply readUint_inv in H as [Hv ->]. eauto. }
  destruct t; cbn [ReadElement]; unfold Uint8, Uint16, Uint32, Uint64; [..|done].
  all: intros H.
  1,2: apply (Hk 2%nat) in H.
  3,4: apply (Hk 4%nat) in H.
  5,6: apply (Hk 8%nat) in H.
  7,8: apply (Hk 1%nat) in H.
  all: destruct H as (v & r'' & Hv & -> & H); cbn in Hv.
  all: repeat (case_match; try done); injection H as <- <-; zbool;
    repeat split; unfold_ranges; cbn; try lia; subst; done.
Qed.

(** ** Lemmas on the UTXO encoding *)

Definition wf_entry (entry : UTXOEntry) : Prop :=
  is_u64 (amount entry) /\ is_u64 (blockDAAScore entry) /\
  is_u16 (spk_Version (scriptPublicKey entry)) /\
  len (spk_Script (scriptPublicKey entry)) <= maxAlloc.

Definition encEntry (entry : UTXOEntry) : bytes :=
  encElement (EUint64 (blockDAAScore entry)) ++ encElement (EUint64 (amount entry)) ++
  encElement (EBool (isCoinbase entry)) ++
  encElement (EUint16 (spk_Version (scriptPublicKey entry))) ++
  encElement (EUint64 (len (spk_Script (scriptPublicKey entry)))) ++
  spk_Script (scriptPublicKey entry).

Lemma SerializeUTXO_bytes entry outpoint :
  wf_entry entry ->
  SerializeUTXO entry outpoint = Ret (encOutpoint outpoint ++ encEntry entry).
Proof.
  intros (Ha & Hd & Hv & Hl). unfold SerializeUTXO.
  pose proof (len_nonneg (spk_Script (scriptPublicKey entry))).
  assert (He : emits (serializeOutpoint outpoint ;;; serializeUTXOEntry entry)
    (encOutpoint outpoint ++ encEntry entry)).
  { apply emits_bind; [unfold serializeOutpoint, encOutpoint; emit|].
    unfold serializeUTXOEntry.
    replace (encEntry entry) with
      ((encElement (EUint64 (blockDAAScore entry)) ++ encElement (EUint64 (amount entry)) ++
        encElement (EBool (isCoinbase entry)) ++ []) ++
       encElement (EUint16 (spk_Version (scriptPublicKey entry))) ++
       encElement (EUint64 (len (spk_Script (scriptPublicKey entry)))) ++
       spk_Script (scriptPublicKey entry)) by (unfold encEntry; by rewrite app_nil_r, <- !app_assoc).
    repeat (apply emits_bind || apply emits_ret || (apply WriteElement_emits; try done)
      || apply emits_write).
    unfold maxAlloc in *. cbn. unfold_ranges. lia. }
  by rewrite He.
Qed.

Lemma read_Z (e : Z -> element) (f : element -> reader Z) v r :
  readable (e v) -> (forall w, f (e w) = ret w) ->
  (x <- ReadElement (typeOf (e v)) ;; f x) (encElement (e v) ++ r) = (Ret v, r).
Proof. intros He Hf. unfold bind. by rewrite ReadElement_app, Hf. Qed.

Lemma readUint16_app z r : is_u16 z -> readUint16 (encElement (EUint16 z) ++ r) = (Ret z, r).
Proof.
  intros Hz. by apply (read_Z EUint16 (fun x => match x with EUint16 v => ret v | _ => panic end)).
Qed.

Lemma readUint32_app z r : is_u32 z -> readUint32 (encElement (EUint32 z) ++ r) = (Ret z, r).
Proof.
  intros Hz. by apply (read_Z EUint32 (fun x => match x with EUint32 v => ret v | _ => panic end)).
Qed.

Lemma readUint64_app z r : is_u64 z -> readUint64 (encElement (EUint64 z) ++ r) = (Ret z, r).
Proof.
  intros Hz. by apply (read_Z EUint64 (fun x => match x with EUint64 v => ret v | _ => panic end)).
Qed.

Lemma readBool_app b r : readBool (encElement (EBool b) ++ r) = (Ret b, r).
Proof. unfold readBool, bind. by rewrite (ReadElement_app (EBool b)). Qed.

Lemma deserializeOutpoint_app o r :
  wf_outpoint o -> deserializeOutpoint (encOutpoint o ++ r) = (Ret o, r).
Proof.
  destruct o as [t i]. intros [Ht Hi]. unfold deserializeOutpoint, encOutpoint. cbn in *.
  rewrite <- app_assoc. erewrite bind_Ret by (by apply readFull_app).
  erewrite bind_Ret by (unfold guard_err; rewrite Ht; done).
  by erewrite bind_Ret by (by apply readUint32_app).
Qed.

(** Reading the fields before the script. *)
Lemma deserializeUTXOEntry_header d a c v l r :
  is_u64 d -> is_u64 a -> is_u16 v -> is_u64 l ->
  deserializeUTXOEntry (encElement (EUint64 d) ++ encElement (EUint64 a) ++
    encElement (EBool c) ++ encElement (EUint16 v) ++ encElement (EUint64 l) ++ r)
  = (makeBytes l ;;; script <- readFull l ;;
     ret (NewUTXOEntry a (MkScriptPublicKey script v) c d)) r.
Proof.
  intros. unfold deserializeUTXOEntry. erewrite bind_Ret by (by apply readUint64_app).
  erewrite bind_Ret by (by apply readUint64_app). erewrite bind_Ret by apply readBool_app.
  erewrite bind_Ret by (by apply readUint16_app).
  by erewrite bind_Ret by (by apply readUint64_app).
Qed.

Lemma DeserializeUTXO_app entry outpoint r :
  wf_outpoint outpoint -> wf_entry entry ->
  DeserializeUTXO ((encOutpoint outpoint ++ encEntry entry) ++ r) = Ret (entry, outpoint).
Proof.
  intros Ho (Ha & Hd & Hv & Hl). destruct entry as [a [s v] d c]. cbn in *.
  pose proof (len_nonneg s). unfold DeserializeUTXO, encEntry. rewrite <- !app_assoc.
  erewrite bind_Ret by (by apply deserializeOutpoint_app).
  erewrite bind_Ret; [reflexivity|].
  etransitivity; [apply (deserializeUTXOEntry_header d a c v (len s) (s ++ r)); try done;
    unfold maxAlloc in *; unfold_ranges; lia|].
  erewrite bind_Ret by (unfold makeBytes; by rewrite (proj2 (Z.ltb_ge _ _)) by done).
  by erewrite bind_Ret by (by apply readFull_app).
Qed.

Lemma readUint_invs r v r' :
  (readUint16 r = (Ret v, r') -> readable (EUint16 v) /\ r = encElement (EUint16 v) ++ r') /\
  (readUint32 r = (Ret v, r') -> readable (EUint32 v) /\ r = encElement (EUint32 v) ++ r') /\
  (readUint64 r = (Ret v, r') -> readable (EUint64 v) /\ r = encElement (EUint64 v) ++ r').
Proof.
  split; [|split]; intros H; apply bind_Ret_inv in H as (e & r'' & He & H);
    apply ReadElement_inv in He as (Ht & Hr & ->); destruct e; try done;
    injection H as <- <-; done.
Qed.

Lemma readBool_inv r b r' :
  readBool r = (Ret b, r') -> r = encElement (EBool b) ++ r'.
Proof.
  intros H. apply bind_Ret_inv in H as (e & r'' & He & H).
  apply ReadElement_inv in He as (Ht & _ & ->). destruct e; try done. by injection H as <- <-.
Qed.

Lemma deserializeOutpoint_inv r o r' :
  deserializeOutpoint r = (Ret o, r') -> wf_outpoint o /\ r = encOutpoint o ++ r'.
Proof.
  intros H. unfold deserializeOutpoint in H.
  apply bind_Ret_inv in H as (t & r1 & Ht & H).
  apply readFull_inv in Ht as [-> Hl]; [|unfold DomainHashSize; lia].
  apply bind_Ret_inv in H as (? & r2 & Hg & H). unfold guard_err in Hg.
  destruct (negb _); [done|]. injection Hg as <- <-.
  apply bind_Ret_inv in H as (i & r3 & Hi & H). injection H as <- <-.
  apply readUint_invs in Hi as [Hi ->]. unfold encOutpoint. cbn. by rewrite <- app_assoc.
Qed.

Lemma deserializeUTXOEntry_inv r e r' :
  deserializeUTXOEntry r = (Ret e, r') -> wf_entry e /\ r = encEntry e ++ r'.
Proof.
  intros H. unfold deserializeUTXOEntry in H.
  apply bind_Ret_inv in H as (d & r1 & Hd & H). apply readUint_invs in Hd as [Hd ->].
  apply bind_Ret_inv in H as (a & r2 & Ha & H). apply readUint_invs in Ha as [Ha ->].
  apply bind_Ret_inv in H as (c & r3 & Hc & H). apply readBool_inv in Hc as ->.
  apply bind_Ret_inv in H as (v & r4 & Hv & H). apply readUint_invs in Hv as [Hv ->].
  apply bind_Ret_inv in H as (l & r5 & Hl & H). apply readUint_invs in Hl as [Hl ->].
  apply bind_Ret_inv in H as (? & r6 & Hm & H). unfold makeBytes in Hm.
  destruct (Z.ltb_spec maxAlloc l); [done|]. injection Hm as <- <-.
  apply bind_Ret_inv in H as (s & r7 & Hs & H). injection H as <- <-.
  apply readFull_inv in Hs as [-> Hs]; [|cbn in Hl; unfold_ranges; lia]. subst l.
  unfold encEntry, NewUTXOEntry. cbn -[encElement]. rewrite <- !app_assoc. done.
Qed.

(** Well-formedness of a concrete transaction, entry or outpoint. *)
Ltac solve_wf :=
  repeat match goal with
  | |- wf_transaction _ => unfold wf_transaction
  | |- wf_input _ => unfold wf_input
  | |- wf_output _ => unfold wf_output
  | |- wf_spk _ => unfold wf_spk
  | |- wf_entry _ => unfold wf_entry
  | |- wf_outpoint _ => unfold wf_outpoint
  | |- Forall _ [] => constructor
  | |- Forall _ (_ :: _) => constructor
  | |- _ /\ _ => split
  | |- Forall _ _ => progress cbn
  end; vm_compute; intuition congruence.

(** ** Properties *)

(** C31. The encoding a transaction is hashed in identifies it: two transactions
    have the same full encoding exactly when they agree on every field except the
    lazily populated ones (UTXO entries, fee, mass, cached ID). *)
Theorem serializeTransaction_full_injective (tx tx' : DomainTransaction) :
  wf_transaction tx -> wf_transaction tx' ->
  (serializeTransaction tx txEncodingFull [] = serializeTransaction tx' txEncodingFull [] <->
   strip tx = strip tx').
Proof.
  intros Htx Htx'. rewrite !(serializeTransaction_emits _ _ []). cbn [app].
  change (isFull txEncodingFull) with true. split.
  - intros Hrun. apply pair_equal_spec in Hrun as [_ Heq].
    exact (encTransaction_inj true tx tx' Htx Htx' Heq).
  - intros Heq. by rewrite <- (encTransaction_seen true tx), <- (encTransaction_seen true tx'),
      (Heq : seen true tx = seen true tx').
Qed.

Lemma serializeTransaction_full_injective_witness :
  let tx := MkTransaction 0 [] [] 7 SubnetworkIDNative 0 [] 0 3 None in
  let tx' := MkTransaction 0 [] [] 8 SubnetworkIDNative 0 [] 0 3 None in
  serializeTransaction tx txEncodingFull [] = serializeTransaction tx' txEncodingFull [] <->
  strip tx = strip tx'.
Proof.
  apply (serializeTransaction_full_injective
    (MkTransaction 0 [] [] 7 SubnetworkIDNative 0 [] 0 3 None)
    (MkTransaction 0 [] [] 8 SubnetworkIDNative 0 [] 0 3 None));
    solve_wf.
Defined.

(** C32. The encoding a transaction ID is computed from (signature scripts
    excluded) identifies the transaction up to its signature scripts and their
    operation counts: it is not malleable by re-signing, and it commits to all
    else, the payload included. *)
Theorem serializeTransaction_unsigned_injective (tx tx' : DomainTransaction) :
  wf_transaction tx -> wf_transaction tx' ->
  (serializeTransaction tx txEncodingExcludeSignatureScript []
   = serializeTransaction tx' txEncodingExcludeSignatureScript [] <->
   unsigned tx = unsigned tx').
Proof.
  intros Htx Htx'. rewrite !(serializeTransaction_emits _ _ []). cbn [app].
  change (isFull txEncodingExcludeSignatureScript) with false. split.
  - intros Hrun. apply pair_equal_spec in Hrun as [_ Heq].
    exact (encTransaction_inj false tx tx' Htx Htx' Heq).
  - intros Heq. by rewrite <- (encTransaction_seen false tx), <- (encTransaction_seen false tx'),
      (Heq : seen false tx = seen false tx').
Qed.

Lemma serializeTransaction_unsigned_injective_witness :
  let i := MkInput (MkOutpoint zeroHash 1) (bytes_of [1; 2]) 5 1 None in
  let j := MkInput (MkOutpoint zeroHash 1) (bytes_of [3]) 5 2 None in
  let tx := MkTransaction 0 [i] [] 7 SubnetworkIDNative 0 [] 0 3 None in
  let tx' := MkTransaction 0 [j] [] 7 SubnetworkIDNative 0 [] 0 3 None in
  serializeTransaction tx txEncodingExcludeSignatureScript []
  = serializeTransaction tx' txEncodingExcludeSignatureScript [] <-> unsigned tx = unsigned tx'.
Proof.
  apply (serializeTransaction_unsigned_injective
    (MkTransaction 0 [MkInput (MkOutpoint zeroHash 1) (bytes_of [1; 2]) 5 1 None] [] 7
       SubnetworkIDNative 0 [] 0 3 None)
    (MkTransaction 0 [MkInput (MkOutpoint zeroHash 1) (bytes_of [3]) 5 2 None] [] 7
       SubnetworkIDNative 0 [] 0 3 None));
    solve_wf.
Defined.

(** [ReadElement] inverts [WriteElement] on every element type it reads,
    whatever follows, and reads nothing else: what it accepts are exactly the
    canonical encodings (a boolean byte other than 0 and 1 is rejected). *)
Theorem ReadElement_WriteElement (t : elementType) (r r' : bytes) (e : element) :
  ReadElement t r = (Ret e, r') <->
  typeOf e = t /\ readable e /\ exists bs, emits (WriteElement e) bs /\ r = bs ++ r'.
Proof.
  split.
  - intros H. apply ReadElement_inv in H as (Ht & Hr & ->). eauto 8 using WriteElement_emits.
  - intros (<- & Hr & bs & Hbs & ->).
    pose proof (WriteElement_emits e Hr []) as Hw. rewrite Hbs in Hw. injection Hw as ->.
    by apply ReadElement_app.
Qed.

(** C39. Serializing a UTXO and deserializing it, whatever bytes follow, gives the
    entry and the outpoint back. *)
Theorem SerializeUTXO_roundtrip (entry : UTXOEntry) (outpoint : DomainOutpoint) (r : bytes) :
  wf_entry entry -> wf_outpoint outpoint ->
  exists bs, SerializeUTXO entry outpoint = Ret bs /\
    DeserializeUTXO (bs ++ r) = Ret (entry, outpoint).
Proof.
  intros He Ho. eexists. split; [by apply SerializeUTXO_bytes|by apply DeserializeUTXO_app].
Qed.

Lemma SerializeUTXO_roundtrip_witness :
  exists bs, SerializeUTXO (MkUTXOEntry 5 (MkScriptPublicKey (bytes_of [0x51]) 0) 9 true)
      (MkOutpoint zeroHash 3) = Ret bs /\
    DeserializeUTXO (bs ++ []) = Ret (MkUTXOEntry 5 (MkScriptPublicKey (bytes_of [0x51]) 0) 9 true,
      MkOutpoint zeroHash 3).
Proof.
  apply (SerializeUTXO_roundtrip (MkUTXOEntry 5 (MkScriptPublicKey (bytes_of [0x51]) 0) 9 true)
    (MkOutpoint zeroHash 3) []); solve_wf.
Defined.

(** C40. A UTXO is deserialized only from its canonical encoding: if
    [DeserializeUTXO] accepts some bytes, they start with the bytes
    [SerializeUTXO] writes for the result. *)
Theorem DeserializeUTXO_canonical (data : bytes) (entry : UTXOEntry) (outpoint : DomainOutpoint) :
  DeserializeUTXO data = Ret (entry, outpoint) ->
  exists bs r, SerializeUTXO entry outpoint = Ret bs /\ data = bs ++ r.
Proof.
  unfold DeserializeUTXO. intros H.
  destruct ((outpoint <- deserializeOutpoint ;; entry <- deserializeUTXOEntry ;;
    ret (entry, outpoint)) data) as [o r] eqn:Hrun. cbn in H. subst o.
  apply bind_Ret_inv in Hrun as (o & r1 & Ho & H).
  apply deserializeOutpoint_inv in Ho as [_ ->].
  apply bind_Ret_inv in H as (e & r2 & He & H).
  apply deserializeUTXOEntry_inv in He as [He ->]. injection H as -> -> ->.
  exists (encOutpoint outpoint ++ encEntry entry), r. rewrite <- app_assoc.
  split; [by apply SerializeUTXO_bytes|done].
Qed.

Lemma DeserializeUTXO_canonical_witness :
  let data := zeroHash ++ le_split 4 3 ++ le_split 8 9 ++ le_split 8 5 ++ le_split 1 1 ++
    le_split 2 0 ++ le_split 8 1 ++ bytes_of [0x51] in
  exists bs r, SerializeUTXO (MkUTXOEntry 5 (MkScriptPublicKey (bytes_of [0x51]) 0) 9 true)
    (MkOutpoint zeroHash 3) = Ret bs /\ data = bs ++ r.
Proof.
  intros data. apply (DeserializeUTXO_canonical data). vm_compute. reflexivity.
Defined.

(** A stored length above the allocation limit makes [DeserializeUTXO]
    panic instead of returning an error: the length is not checked against the
    bytes that remain before the buffer is allocated. *)
Theorem DeserializeUTXO_panics (outpoint : DomainOutpoint) (d a v l : Z) (c : bool) (r : bytes) :
  wf_outpoint outpoint -> is_u64 d -> is_u64 a -> is_u16 v -> maxAlloc < l -> is_u64 l ->
  DeserializeUTXO (encOutpoint outpoint ++ encElement (EUint64 d) ++ encElement (EUint64 a) ++
    encElement (EBool c) ++ encElement (EUint16 v) ++ encElement (EUint64 l) ++ r) = Panic.
Proof.
  intros Ho Hd Ha Hv Hl Hl'. unfold DeserializeUTXO.
  erewrite bind_Ret by (by apply deserializeOutpoint_app).
  unfold bind at 1. rewrite deserializeUTXOEntry_header by done.
  unfold bind at 1, makeBytes. by rewrite (proj2 (Z.ltb_lt _ _)) by done.
Qed.

Lemma DeserializeUTXO_panics_witness :
  DeserializeUTXO (encOutpoint (MkOutpoint zeroHash 0) ++ encElement (EUint64 1) ++
    encElement (EUint64 2) ++ encElement (EBool false) ++ encElement (EUint16 0) ++
    encElement (EUint64 (2 ^ 60)) ++ []) = Panic.
Proof.
  apply (DeserializeUTXO_panics (MkOutpoint zeroHash 0) 1 2 0 (2 ^ 60) false []);
    vm_compute; intuition congruence.
Defined.
