(* ===== verification/Crypto.v ===== *)
(** * Third-party cryptography

    The cryptographic packages the program imports and does not contain are
    parameters of the model: [lukechampine.com/blake3],
    [golang.org/x/crypto/blake2b], [github.com/kaspanet/go-secp256k1] and
    [github.com/cloudflare/circl/sign/mldsa/mldsa44].  [Crypto] lists the
    functions the sources call, [CryptoSpec] their documented behaviour; every
    definition is stated over [Crypto], and a theorem that relies on documented
    behaviour names [CryptoSpec].

    [toyCrypto] instantiates the parameters with computable functions, so that
    the hypotheses are seen to hold together and witnesses evaluate. *)

From S2P Require Import Prelude.

Class Crypto : Type := {
  (** [blake3.New(32, key)] fed with the bytes and finalized. *)
  blake3_keyed : bytes -> bytes -> bytes;
  (** [blake2b.Sum256], and [blake2b.New256(nil)] fed with the bytes. *)
  blake2b_Sum256 : bytes -> bytes;
  (** Schnorr signatures of [secp256k1]. *)
  SchnorrPublicKey : Type;
  SchnorrSignature : Type;
  DeserializeSchnorrPubKey : bytes -> option SchnorrPublicKey;
  DeserializeSchnorrSignatureFromSlice : bytes -> option SchnorrSignature;
  SchnorrVerify : SchnorrPublicKey -> bytes -> SchnorrSignature -> bool;
  SchnorrPublicKey_IsEqual : SchnorrPublicKey -> SchnorrPublicKey -> bool;
  SchnorrSignature_IsEqual : SchnorrSignature -> SchnorrSignature -> bool;
  (** ECDSA signatures of [secp256k1]. *)
  ECDSAPublicKey : Type;
  ECDSASignature : Type;
  DeserializeECDSAPubKey : bytes -> option ECDSAPublicKey;
  DeserializeECDSASignatureFromSlice : bytes -> option ECDSASignature;
  ECDSAVerify : ECDSAPublicKey -> bytes -> ECDSASignature -> bool;
  ECDSAPublicKey_IsEqual : ECDSAPublicKey -> ECDSAPublicKey -> bool;
  ECDSASignature_IsEqual : ECDSASignature -> ECDSASignature -> bool;
  (** ML-DSA-44: [UnmarshalBinary] and [mldsa44.Verify(pk, msg, ctx, sig)]. *)
  MLDSA44PublicKey : Type;
  MLDSA44UnmarshalBinary : bytes -> option MLDSA44PublicKey;
  mldsa44_Verify : MLDSA44PublicKey -> bytes -> bytes -> bytes -> bool;
  (** The key a [for k := range m] loop over a Go map visits first, the [n]-th
      time such a loop runs; the language leaves the order open. *)
  rangeFirst : nat -> list bytes -> option bytes
}.

(** [mldsa44.PublicKeySize] and [mldsa44.SignatureSize], fixed by FIPS 204. *)
Definition mldsa44_PublicKeySize : Z := 1312.
Definition mldsa44_SignatureSize : Z := 2420.
Definition blake2b_Size256 : Z := 32.

Class CryptoSpec {C : Crypto} : Prop := {
  blake3_size : forall key msg, len (blake3_keyed key msg) = 32;
  blake2b_size : forall msg, len (blake2b_Sum256 msg) = 32;
  SchnorrPublicKey_IsEqual_eq : forall p q, SchnorrPublicKey_IsEqual p q = true -> p = q;
  SchnorrSignature_IsEqual_eq : forall p q, SchnorrSignature_IsEqual p q = true -> p = q;
  ECDSAPublicKey_IsEqual_eq : forall p q, ECDSAPublicKey_IsEqual p q = true -> p = q;
  ECDSASignature_IsEqual_eq : forall p q, ECDSASignature_IsEqual p q = true -> p = q;
  (** A range loop over a non-empty map visits one of its keys first. *)
  rangeFirst_in : forall n ks, ks <> [] -> exists k, rangeFirst n ks = Some k /\ k ∈ ks
}.
Arguments CryptoSpec C : clear implicits.

(** These two messages are distinct and have the same BLAKE2b-256 digest. *)
Definition blake2b_collide `{Crypto} (x y : bytes) : Prop :=
  x <> y /\ blake2b_Sum256 x = blake2b_Sum256 y.

(** ** A computable instance *)

(** The last 32 bytes of the message, padded on the left. *)
Definition toyHash (msg : bytes) : bytes :=
  drop (List.length msg) (replicate 32 (zb 0) ++ msg).

#[export] Instance toyCrypto : Crypto := {|
  blake3_keyed key msg := toyHash (key ++ msg);
  blake2b_Sum256 := toyHash;
  SchnorrPublicKey := bytes;
  SchnorrSignature := bytes;
  DeserializeSchnorrPubKey pk := if len pk =? 32 then Some pk else None;
  DeserializeSchnorrSignatureFromSlice s := if len s =? 64 then Some s else None;
  SchnorrVerify pk h s := bool_decide (s = pk ++ h);
  SchnorrPublicKey_IsEqual p q := bool_decide (p = q);
  SchnorrSignature_IsEqual p q := bool_decide (p = q);
  ECDSAPublicKey := bytes;
  ECDSASignature := bytes;
  DeserializeECDSAPubKey pk := if len pk =? 33 then Some pk else None;
  DeserializeECDSASignatureFromSlice s := if len s =? 64 then Some s else None;
  ECDSAVerify pk h s := bool_decide (s = drop 1 pk ++ h);
  ECDSAPublicKey_IsEqual p q := bool_decide (p = q);
  ECDSASignature_IsEqual p q := bool_decide (p = q);
  MLDSA44PublicKey := bytes;
  MLDSA44UnmarshalBinary pk := if len pk =? mldsa44_PublicKeySize then Some pk else None;
  mldsa44_Verify pk msg ctx s := bool_decide (take 32 s = msg);
  rangeFirst n ks := head ks
|}.

#[export] Instance toyCryptoSpec : CryptoSpec toyCrypto.
Proof.
  assert (Hlen : forall msg, len (toyHash msg) = 32).
  { intros msg. unfold toyHash, len. rewrite length_drop, length_app, length_replicate. lia. }
  split; cbn; intros.
  - apply Hlen.
  - apply Hlen.
  - by apply bool_decide_eq_true in H.
  - by apply bool_decide_eq_true in H.
  - by apply bool_decide_eq_true in H.
  - by apply bool_decide_eq_true in H.
  - destruct ks as [|k ks]; [done|]. exists k. split; [done|]. by left.
Qed.
