(* ===== verification/SigHash.v ===== *)
(** * Transaction hashes

    The domain-separated hash writers of [src/domain/consensus/utils/hashes], and
    of [utils/consensushashing]: [TransactionHash], [TransactionID] with its cache
    ([transaction.go]) and the signature hashes with their reused values
    ([calculate_signature_hash.go]).

    A [HashWriter] is the digest function it was created with, together with the
    bytes it starts from; hashing runs a writer from those bytes and finalizes
    ([runHash]).  [SighashReusedValues] is mutable state, shared by the inputs of a
    transaction, so the signature hashes are computations on it. *)

From Stdlib Require Import Strings.String.
From S2P Require Import Prelude ScriptError Transaction Sha256 Serialization Crypto.

Section SigHash.
Context `{Crypto}.

(** ** Hash writers *)

Record HashWriter : Type := MkHashWriter { hw_start : bytes; hw_sum : bytes -> bytes }.

(** [var fixedSizeKey [32]byte; copy(fixedSizeKey[:], domain)] *)
Definition fixedSizeKey (domain : string) : bytes :=
  take 32 (list_byte_of_string domain ++ replicate 32 (zb 0)).

Definition blake3Writer (domain : string) : HashWriter :=
  MkHashWriter [] (blake3_keyed (fixedSizeKey domain)).

Definition NewTransactionHashWriter : HashWriter := blake3Writer "TransactionHash".
Definition NewTransactionIDWriter : HashWriter := blake3Writer "TransactionID".
Definition NewTransactionSigningHashWriter : HashWriter := blake3Writer "TransactionSigningHash".
Definition NewBlockHashWriter : HashWriter := blake3Writer "BlockHash".
Definition NewMerkleBranchHashWriter : HashWriter := blake3Writer "MerkleBranchHash".
Definition NewCoinbaseEntropyHashWriter : HashWriter := blake3Writer "CoinbaseEntropyHash".

Definition transactionSigningECDSADomainHash : bytes :=
  Sum256 (list_byte_of_string "TransactionSigningHashECDSA").
Definition transactionSigningMLDSA44DomainHash : bytes :=
  Sum256 (list_byte_of_string "TransactionSigningHashMLDSA44").

Definition NewTransactionSigningHashECDSAWriter : HashWriter :=
  MkHashWriter transactionSigningECDSADomainHash Sum256.
Definition NewTransactionSigningHashMLDSA44Writer : HashWriter :=
  MkHashWriter transactionSigningMLDSA44DomainHash Sum256.

(** Write to a new hash writer, then [Finalize]; a serialization error is a
    panic, as in [infallibleWriteElement], [TransactionHash] and [TransactionID]. *)
Definition runHash {S E} (h : HashWriter) (w : writer unit) : M S E bytes := fun s =>
  match w (hw_start h) with
  | (Ret _, written) => (Ret (hw_sum h written), s)
  | (Err _, _) | (Panic, _) => (Panic, s)
  end.

(** ** Transaction hash and ID *)

Definition TransactionHash {S E} (tx : DomainTransaction) : M S E bytes :=
  runHash NewTransactionHashWriter (serializeTransaction tx txEncodingFull).

Definition setCachedID (id : option bytes) (tx : DomainTransaction) : DomainTransaction :=
  MkTransaction (tx_Version tx) (Inputs tx) (Outputs tx) (LockTime tx) (SubnetworkID tx)
    (Gas tx) (Payload tx) (Fee tx) (Mass tx) id.

(** A computation on the transaction, whose cached ID it may fill. *)
Definition consensushashing_TransactionID {E} : M DomainTransaction E bytes :=
  tx <- get ;;
  match ID tx with
  | Some id => ret id
  | None =>
      let encodingFlags :=
        if negb (IsCoinBase tx) then txEncodingExcludeSignatureScript else txEncodingFull in
      transactionID <- runHash NewTransactionIDWriter (serializeTransaction tx encodingFlags) ;;
      modify (setCachedID (Some transactionID)) ;;;
      ret transactionID
  end.

(** ** Signature hash types *)

Definition SigHashAll : Z := 1.
Definition SigHashNone : Z := 2.
Definition SigHashSingle : Z := 4.
Definition SigHashAnyOneCanPay : Z := 128.
Definition SigHashMask : Z := 7.

Definition IsStandardSigHashType (sht : Z) : bool :=
  existsb (Z.eqb sht)
    [SigHashAll; SigHashNone; SigHashSingle; Z.lor SigHashAll SigHashAnyOneCanPay;
     Z.lor SigHashNone SigHashAnyOneCanPay; Z.lor SigHashSingle SigHashAnyOneCanPay].

Definition isSigHashNone (sht : Z) : bool := Z.land sht SigHashMask =? SigHashNone.
Definition isSigHashSingle (sht : Z) : bool := Z.land sht SigHashMask =? SigHashSingle.
Definition isSigHashAnyOneCanPay (sht : Z) : bool :=
  Z.land sht SigHashAnyOneCanPay =? SigHashAnyOneCanPay.

(** ** Reused values *)

Record SighashReusedValues : Type := MkReused {
  previousOutputsHash : option bytes;
  sequencesHash : option bytes;
  sigOpCountsHash : option bytes;
  outputsHash : option bytes;
  payloadHash : option bytes
}.

Definition emptyReused : SighashReusedValues := MkReused None None None None None.

Definition sighash := M SighashReusedValues error.

Definition hashOutpoint (outpoint : DomainOutpoint) : writer unit :=
  WriteElement (ETransactionID (Transaction.TransactionID outpoint)) ;;;
  WriteElement (EUint32 (Index outpoint)).

Definition hashTxOut (txOut : DomainTransactionOutput) : writer unit :=
  WriteElement (EUint64 (Value txOut)) ;;;
  WriteElement (EUint16 (spk_Version (out_ScriptPublicKey txOut))) ;;;
  WriteElement (EBytes (spk_Script (out_ScriptPublicKey txOut))).

(** The writers of the five reusable hashes. *)
Definition writePreviousOutputs (tx : DomainTransaction) : writer unit :=
  forEach (fun txIn => hashOutpoint (PreviousOutpoint txIn)) (Inputs tx).
Definition writeSequences (tx : DomainTransaction) : writer unit :=
  forEach (fun txIn => WriteElement (EUint64 (Sequence txIn))) (Inputs tx).
Definition writeSigOpCounts (tx : DomainTransaction) : writer unit :=
  forEach (fun txIn => WriteElement (EUint8 (SigOpCount txIn))) (Inputs tx).
Definition writeOutputs (tx : DomainTransaction) : writer unit :=
  forEach hashTxOut (Outputs tx).
Definition writePayload (tx : DomainTransaction) : writer unit :=
  WriteElement (EBytes (Payload tx)).

Definition isNative (tx : DomainTransaction) : bool :=
  bool_decide (SubnetworkID tx = SubnetworkIDNative).

Definition PrecomputeSighashReusedValues {S E} (tx : DomainTransaction)
  : M S E SighashReusedValues :=
  previousOutputs <- runHash NewTransactionSigningHashWriter (writePreviousOutputs tx) ;;
  sequences <- runHash NewTransactionSigningHashWriter (writeSequences tx) ;;
  sigOpCounts <- runHash NewTransactionSigningHashWriter (writeSigOpCounts tx) ;;
  outputs <- runHash NewTransactionSigningHashWriter (writeOutputs tx) ;;
  payload <- (if isNative tx then ret zeroHash
              else runHash NewTransactionSigningHashWriter (writePayload tx)) ;;
  ret (MkReused (Some previousOutputs) (Some sequences) (Some sigOpCounts) (Some outputs)
         (Some payload)).

(** [if reused.field == nil { reused.field = compute } return reused.field] *)
Definition reuse (field : SighashReusedValues -> option bytes)
    (store : bytes -> SighashReusedValues -> SighashReusedValues)
    (compute : sighash bytes) : sighash bytes :=
  rv <- get ;;
  match field rv with
  | Some h => ret h
  | None => h <- compute ;; modify (store h) ;;; ret h
  end.

Definition getPreviousOutputsHash (tx : DomainTransaction) (hashType : Z) : sighash bytes :=
  if isSigHashAnyOneCanPay hashType then ret zeroHash
  else reuse previousOutputsHash
    (fun h rv => MkReused (Some h) (sequencesHash rv) (sigOpCountsHash rv) (outputsHash rv)
                   (payloadHash rv))
    (runHash NewTransactionSigningHashWriter (writePreviousOutputs tx)).

Definition getSequencesHash (tx : DomainTransaction) (hashType : Z) : sighash bytes :=
  if isSigHashSingle hashType || isSigHashAnyOneCanPay hashType || isSigHashNone hashType
  then ret zeroHash
  else reuse sequencesHash
    (fun h rv => MkReused (previousOutputsHash rv) (Some h) (sigOpCountsHash rv) (outputsHash rv)
                   (payloadHash rv))
    (runHash NewTransactionSigningHashWriter (writeSequences tx)).

Definition getSigOpCountsHash (tx : DomainTransaction) (hashType : Z) : sighash bytes :=
  if isSigHashAnyOneCanPay hashType then ret zeroHash
  else reuse sigOpCountsHash
    (fun h rv => MkReused (previousOutputsHash rv) (sequencesHash rv) (Some h) (outputsHash rv)
                   (payloadHash rv))
    (runHash NewTransactionSigningHashWriter (writeSigOpCounts tx)).

Definition getOutputsHash (tx : DomainTransaction) (inputIndex : Z) (hashType : Z)
  : sighash bytes :=
  if isSigHashNone hashType then ret zeroHash
  else if isSigHashSingle hashType then
    if len (Outputs tx) <=? inputIndex then ret zeroHash
    else
      txOut <- index (Outputs tx) inputIndex ;;
      runHash NewTransactionSigningHashWriter (hashTxOut txOut)
  else reuse outputsHash
    (fun h rv => MkReused (previousOutputsHash rv) (sequencesHash rv) (sigOpCountsHash rv) (Some h)
                   (payloadHash rv))
    (runHash NewTransactionSigningHashWriter (writeOutputs tx)).

Definition getPayloadHash (tx : DomainTransaction) : sighash bytes :=
  if isNative tx then ret zeroHash
  else reuse payloadHash
    (fun h rv => MkReused (previousOutputsHash rv) (sequencesHash rv) (sigOpCountsHash rv)
                   (outputsHash rv) (Some h))
    (runHash NewTransactionSigningHashWriter (writePayload tx)).

(** The writes of [calculateSignatureHash] once the five hashes are known. *)
Definition writeSigHash (tx : DomainTransaction) (txIn : DomainTransactionInput)
    (entry : UTXOEntry) (hashType : Z)
    (previousOutputs sequences sigOpCounts outputs payload : bytes) : writer unit :=
  WriteElement (EUint16 (tx_Version tx)) ;;;
  WriteElement (EHash previousOutputs) ;;;
  WriteElement (EHash sequences) ;;;
  WriteElement (EHash sigOpCounts) ;;;
  hashOutpoint (PreviousOutpoint txIn) ;;;
  WriteElement (EUint16 (spk_Version (scriptPublicKey entry))) ;;;
  WriteElement (EBytes (spk_Script (scriptPublicKey entry))) ;;;
  WriteElement (EUint64 (amount entry)) ;;;
  WriteElement (EUint64 (Sequence txIn)) ;;;
  WriteElement (EUint8 (SigOpCount txIn)) ;;;
  WriteElement (EHash outputs) ;;;
  WriteElement (EUint64 (LockTime tx)) ;;;
  WriteElement (ESubnetworkID (SubnetworkID tx)) ;;;
  WriteElement (EUint64 (Gas tx)) ;;;
  WriteElement (EHash payload) ;;;
  WriteElement (EUint8 hashType).

(** The five hashes are computed between the writes; the writes do not read the
    reused values and the hashes do not read the writer, so the order is kept. *)
Definition calculateSignatureHash (tx : DomainTransaction) (inputIndex : Z)
    (txIn : DomainTransactionInput) (entry : UTXOEntry) (hashType : Z) : sighash bytes :=
  previousOutputs <- getPreviousOutputsHash tx hashType ;;
  sequences <- getSequencesHash tx hashType ;;
  sigOpCounts <- getSigOpCountsHash tx hashType ;;
  outputs <- getOutputsHash tx inputIndex hashType ;;
  payload <- getPayloadHash tx ;;
  runHash NewTransactionSigningHashWriter
    (writeSigHash tx txIn entry hashType previousOutputs sequences sigOpCounts outputs payload).

Definition CalculateSignatureHashSchnorr (tx : DomainTransaction) (inputIndex : Z) (hashType : Z)
  : sighash bytes :=
  if negb (IsStandardSigHashType hashType) then throw OtherError
  else
    txIn <- index (Inputs tx) inputIndex ;;
    match in_UTXOEntry txIn with
    | None => panic
    | Some entry => calculateSignatureHash tx inputIndex txIn entry hashType
    end.

Definition CalculateSignatureHashECDSA (tx : DomainTransaction) (inputIndex : Z) (hashType : Z)
  : sighash bytes :=
  hash <- CalculateSignatureHashSchnorr tx inputIndex hashType ;;
  runHash NewTransactionSigningHashECDSAWriter (write hash).

Definition CalculateSignatureHashMLDSA44 (tx : DomainTransaction) (inputIndex : Z) (hashType : Z)
  : sighash bytes :=
  hash <- CalculateSignatureHashSchnorr tx inputIndex hashType ;;
  runHash NewTransactionSigningHashMLDSA44Writer (write hash).

(** ** Reference definitions

    The signature hash as a function of the transaction alone. *)

Definition digest (msg : bytes) : bytes :=
  blake3_keyed (fixedSizeKey "TransactionSigningHash") msg.

Definition preOutpoints (tx : DomainTransaction) : bytes :=
  concat (map (fun i => encOutpoint (PreviousOutpoint i)) (Inputs tx)).
Definition preSequences (tx : DomainTransaction) : bytes :=
  concat (map (fun i => le_split 8 (Sequence i)) (Inputs tx)).
Definition preSigOpCounts (tx : DomainTransaction) : bytes :=
  concat (map (fun i => [zb (SigOpCount i)]) (Inputs tx)).
Definition preOutputs (tx : DomainTransaction) : bytes := concat (map encOutput (Outputs tx)).

Definition refPreviousOutputs (tx : DomainTransaction) (ht : Z) : bytes :=
  if isSigHashAnyOneCanPay ht then zeroHash else digest (preOutpoints tx).
Definition refSequences (tx : DomainTransaction) (ht : Z) : bytes :=
  if isSigHashSingle ht || isSigHashAnyOneCanPay ht || isSigHashNone ht then zeroHash
  else digest (preSequences tx).
Definition refSigOpCounts (tx : DomainTransaction) (ht : Z) : bytes :=
  if isSigHashAnyOneCanPay ht then zeroHash else digest (preSigOpCounts tx).
Definition refOutputs (tx : DomainTransaction) (inputIndex : Z) (ht : Z) : bytes :=
  if isSigHashNone ht then zeroHash
  else if isSigHashSingle ht then
    match Outputs tx !! Z.to_nat inputIndex with
    | Some txOut => digest (encOutput txOut)
    | None => zeroHash
    end
  else digest (preOutputs tx).
Definition refPayload (tx : DomainTransaction) : bytes :=
  if isNative tx then zeroHash else digest (encVarBytes (Payload tx)).

(** The message hashed for one input. *)
Definition preimage (tx : DomainTransaction) (inputIndex : Z) (txIn : DomainTransactionInput)
    (entry : UTXOEntry) (ht : Z) : bytes :=
  le_split 2 (tx_Version tx) ++ refPreviousOutputs tx ht ++ refSequences tx ht ++
  refSigOpCounts tx ht ++ encOutpoint (PreviousOutpoint txIn) ++
  le_split 2 (spk_Version (scriptPublicKey entry)) ++
  encVarBytes (spk_Script (scriptPublicKey entry)) ++ le_split 8 (amount entry) ++
  le_split 8 (Sequence txIn) ++ [zb (SigOpCount txIn)] ++ refOutputs tx inputIndex ht ++
  le_split 8 (LockTime tx) ++ SubnetworkID tx ++ le_split 8 (Gas tx) ++ refPayload tx ++ [zb ht].

(** What may be found in the reused values of a transaction. *)
Definition valid_reused (tx : DomainTransaction) (rv : SighashReusedValues) : Prop :=
  (forall h, previousOutputsHash rv = Some h -> h = digest (preOutpoints tx)) /\
  (forall h, sequencesHash rv = Some h -> h = digest (preSequences tx)) /\
  (forall h, sigOpCountsHash rv = Some h -> h = digest (preSigOpCounts tx)) /\
  (forall h, outputsHash rv = Some h -> h = digest (preOutputs tx)) /\
  (isNative tx = false -> forall h, payloadHash rv = Some h -> h = digest (encVarBytes (Payload tx))).

(** ** Lemmas *)

Lemma runHash_emits {S E} (h : HashWriter) (w : writer unit) bs (s : S) :
  emits w bs -> runHash (E:=E) h w s = (Ret (hw_sum h (hw_start h ++ bs)), s).
Proof. intros Hw. unfold runHash. by rewrite Hw. Qed.

Lemma runHash_signing {S E} (w : writer unit) bs (s : S) :
  emits w bs -> runHash (E:=E) NewTransactionSigningHashWriter w s = (Ret (digest bs), s).
Proof. apply runHash_emits. Qed.

Lemma hashOutpoint_emits o : emits (hashOutpoint o) (encOutpoint o).
Proof. unfold hashOutpoint. emit. Qed.

Lemma hashTxOut_emits o : emits (hashTxOut o) (encOutput o).
Proof. unfold hashTxOut, encOutput, encVarBytes. emit. Qed.

Lemma writePreviousOutputs_emits tx : emits (writePreviousOutputs tx) (preOutpoints tx).
Proof. apply emits_forEach. intros. apply hashOutpoint_emits. Qed.
Lemma writeSequences_emits tx : emits (writeSequences tx) (preSequences tx).
Proof. apply emits_forEach. intros. apply emits_write. Qed.
Lemma writeSigOpCounts_emits tx : emits (writeSigOpCounts tx) (preSigOpCounts tx).
Proof. apply emits_forEach. intros. apply emits_write. Qed.
Lemma writeOutputs_emits tx : emits (writeOutputs tx) (preOutputs tx).
Proof. apply emits_forEach, hashTxOut_emits. Qed.
Lemma writePayload_emits tx : emits (writePayload tx) (encVarBytes (Payload tx)).
Proof. unfold writePayload, encVarBytes. emit. Qed.

Lemma writeBytes_emits d : emits (WriteElement (EBytes d)) (encVarBytes d).
Proof. unfold encVarBytes. cbn [WriteElement]. emit. Qed.

Lemma writeSigHash_emits tx inputIndex txIn entry ht :
  emits (writeSigHash tx txIn entry ht (refPreviousOutputs tx ht) (refSequences tx ht)
           (refSigOpCounts tx ht) (refOutputs tx inputIndex ht) (refPayload tx))
        (preimage tx inputIndex txIn entry ht).
Proof.
  unfold writeSigHash, preimage.
  repeat lazymatch goal with
  | |- emits (bind _ _) _ => apply emits_bind
  | |- emits (hashOutpoint _) _ => apply hashOutpoint_emits
  | |- emits (WriteElement (EBytes _)) _ => apply writeBytes_emits
  | |- emits (WriteElement _) _ => apply emits_write
  end.
Qed.

(** Filling one reused value. *)
Lemma reuse_run field store w bs rv :
  emits w bs -> (forall h, field rv = Some h -> h = digest bs) ->
  exists rv', reuse field store (runHash NewTransactionSigningHashWriter w) rv
              = (Ret (digest bs), rv') /\ (rv' = rv \/ rv' = store (digest bs) rv).
Proof.
  intros Hw Hf. unfold reuse, bind, get. destruct (field rv) as [h|] eqn:Hrv.
  - exists rv. rewrite (Hf h) by done. auto.
  - exists (store (digest bs) rv). rewrite (runHash_signing w bs) by done. auto.
Qed.

Lemma getPreviousOutputsHash_run tx ht rv :
  valid_reused tx rv -> exists rv', getPreviousOutputsHash tx ht rv
    = (Ret (refPreviousOutputs tx ht), rv') /\ valid_reused tx rv'.
Proof.
  intros Hv. unfold getPreviousOutputsHash, refPreviousOutputs.
  destruct (isSigHashAnyOneCanPay ht); [by exists rv|].
  edestruct reuse_run as (rv' & Hrun & Hrv'); [apply writePreviousOutputs_emits|apply Hv|].
  exists rv'. split; [exact Hrun|]. destruct Hrv' as [-> | ->]; [done|].
  destruct Hv as (? & ? & ? & ? & ?). repeat split; cbn; auto; congruence.
Qed.

Lemma getSequencesHash_run tx ht rv :
  valid_reused tx rv -> exists rv', getSequencesHash tx ht rv
    = (Ret (refSequences tx ht), rv') /\ valid_reused tx rv'.
Proof.
  intros Hv. unfold getSequencesHash, refSequences.
  destruct (_ || _); [by exists rv|].
  edestruct reuse_run as (rv' & Hrun & Hrv'); [apply writeSequences_emits|apply Hv|].
  exists rv'. split; [exact Hrun|]. destruct Hrv' as [-> | ->]; [done|].
  destruct Hv as (? & ? & ? & ? & ?). repeat split; cbn; auto; congruence.
Qed.

Lemma getSigOpCountsHash_run tx ht rv :
  valid_reused tx rv -> exists rv', getSigOpCountsHash tx ht rv
    = (Ret (refSigOpCounts tx ht), rv') /\ valid_reused tx rv'.
Proof.
  intros Hv. unfold getSigOpCountsHash, refSigOpCounts.
  destruct (isSigHashAnyOneCanPay ht); [by exists rv|].
  edestruct reuse_run as (rv' & Hrun & Hrv'); [apply writeSigOpCounts_emits|apply Hv|].
  exists rv'. split; [exact Hrun|]. destruct Hrv' as [-> | ->]; [done|].
  destruct Hv as (? & ? & ? & ? & ?). repeat split; cbn; auto; congruence.
Qed.

Lemma getPayloadHash_run tx rv :
  valid_reused tx rv -> exists rv', getPayloadHash tx rv
    = (Ret (refPayload tx), rv') /\ valid_reused tx rv'.
Proof.
  intros Hv. unfold getPayloadHash, refPayload.
  destruct (isNative tx) eqn:Hn; [by exists rv|].
  edestruct reuse_run as (rv' & Hrun & Hrv'); [apply writePayload_emits|by apply Hv|].
  exists rv'. split; [exact Hrun|]. destruct Hrv' as [-> | ->]; [done|].
  destruct Hv as (? & ? & ? & ? & ?). repeat split; cbn; auto; congruence.
Qed.

Lemma getOutputsHash_run tx inputIndex ht rv :
  0 <= inputIndex -> valid_reused tx rv ->
  exists rv', getOutputsHash tx inputIndex ht rv
    = (Ret (refOutputs tx inputIndex ht), rv') /\ valid_reused tx rv'.
Proof.
  intros Hi Hv. unfold getOutputsHash, refOutputs.
  destruct (isSigHashNone ht); [by exists rv|].
  destruct (isSigHashSingle ht).
  - exists rv. split; [|done]. destruct (Z.leb_spec (len (Outputs tx)) inputIndex).
    + rewrite lookup_ge_None_2 by (unfold len in *; lia). done.
    + destruct (lookup_lt_is_Some_2 (Outputs tx) (Z.to_nat inputIndex)) as [o Ho];
        [unfold len in *; lia|].
      rewrite Ho. erewrite bind_Ret by
        (unfold index; by rewrite (proj2 (Z.leb_le _ _)), Ho by done).
      apply runHash_signing, hashTxOut_emits.
  - edestruct reuse_run as (rv' & Hrun & Hrv'); [apply writeOutputs_emits|apply Hv|].
    exists rv'. split; [exact Hrun|]. destruct Hrv' as [-> | ->]; [done|].
    destruct Hv as (? & ? & ? & ? & ?). repeat split; cbn; auto; congruence.
Qed.

(** The signature hash is the digest of the preimage, whatever valid values are
    reused, and the reused values stay valid. *)
Lemma CalculateSignatureHashSchnorr_run tx inputIndex ht rv txIn entry :
  valid_reused tx rv -> IsStandardSigHashType ht = true -> 0 <= inputIndex ->
  Inputs tx !! Z.to_nat inputIndex = Some txIn -> in_UTXOEntry txIn = Some entry ->
  exists rv', CalculateSignatureHashSchnorr tx inputIndex ht rv
    = (Ret (digest (preimage tx inputIndex txIn entry ht)), rv') /\ valid_reused tx rv'.
Proof.
  intros Hv Hs Hi Hin He. unfold CalculateSignatureHashSchnorr. rewrite Hs. cbn [negb].
  erewrite bind_Ret by (unfold index; by rewrite (proj2 (Z.leb_le _ _)), Hin by done).
  rewrite He. unfold calculateSignatureHash.
  destruct (getPreviousOutputsHash_run tx ht rv Hv) as (rv1 & H1 & Hv1).
  destruct (getSequencesHash_run tx ht rv1 Hv1) as (rv2 & H2 & Hv2).
  destruct (getSigOpCountsHash_run tx ht rv2 Hv2) as (rv3 & H3 & Hv3).
  destruct (getOutputsHash_run tx inputIndex ht rv3 Hi Hv3) as (rv4 & H4 & Hv4).
  destruct (getPayloadHash_run tx rv4 Hv4) as (rv5 & H5 & Hv5).
  exists rv5. split; [|done].
  erewrite bind_Ret by exact H1. erewrite bind_Ret by exact H2. erewrite bind_Ret by exact H3.
  erewrite bind_Ret by exact H4. erewrite bind_Ret by exact H5.
  apply runHash_signing, writeSigHash_emits.
Qed.

Lemma CalculateSignatureHashSchnorr_total tx inputIndex ht rv :
  valid_reused tx rv ->
  (CalculateSignatureHashSchnorr tx inputIndex ht rv).1
  = (if negb (IsStandardSigHashType ht) then Err OtherError
     else match (if 0 <=? inputIndex then Inputs tx !! Z.to_nat inputIndex else None) with
          | None => Panic
          | Some txIn =>
              match in_UTXOEntry txIn with
              | None => Panic
              | Some entry => Ret (digest (preimage tx inputIndex txIn entry ht))
              end
          end) /\
  valid_reused tx (CalculateSignatureHashSchnorr tx inputIndex ht rv).2.
Proof.
  intros Hv. destruct (IsStandardSigHashType ht) eqn:Hs; cbn [negb].
  2:{ unfold CalculateSignatureHashSchnorr. by rewrite Hs. }
  destruct (Z.leb_spec 0 inputIndex) as [Hi|Hi].
  2:{ unfold CalculateSignatureHashSchnorr, bind, index. rewrite Hs.
      by rewrite (proj2 (Z.leb_gt _ _)). }
  destruct (Inputs tx !! Z.to_nat inputIndex) as [txIn|] eqn:Hin.
  2:{ unfold CalculateSignatureHashSchnorr, bind, index. rewrite Hs.
      by rewrite (proj2 (Z.leb_le _ _)), Hin. }
  destruct (in_UTXOEntry txIn) as [entry|] eqn:He.
  - destruct (CalculateSignatureHashSchnorr_run tx inputIndex ht rv txIn entry)
      as (rv' & -> & Hv'); done.
  - unfold CalculateSignatureHashSchnorr, bind, index. rewrite Hs.
    rewrite (proj2 (Z.leb_le _ _)), Hin by done. cbn. by rewrite He.
Qed.

Lemma valid_empty tx : valid_reused tx emptyReused.
Proof. repeat split; cbn; congruence. Qed.

Lemma Precompute_run {S E} tx (s : S) :
  exists rv, PrecomputeSighashReusedValues (E:=E) tx s = (Ret rv, s) /\ valid_reused tx rv.
Proof.
  unfold PrecomputeSighashReusedValues.
  erewrite bind_Ret by apply runHash_signing, writePreviousOutputs_emits.
  erewrite bind_Ret by apply runHash_signing, writeSequences_emits.
  erewrite bind_Ret by apply runHash_signing, writeSigOpCounts_emits.
  erewrite bind_Ret by apply runHash_signing, writeOutputs_emits.
  destruct (isNative tx) eqn:Hn.
  - eexists. split; [reflexivity|]. repeat split; cbn; congruence.
  - erewrite bind_Ret by apply runHash_signing, writePayload_emits.
    eexists. split; [reflexivity|]. repeat split; cbn; congruence.
Qed.

(** Hashing the Schnorr hash again does not read the reused values. *)
Lemma rehash_total tx inputIndex ht rv (h : HashWriter) :
  valid_reused tx rv ->
  let f rv := (hash <- CalculateSignatureHashSchnorr tx inputIndex ht ;;
               runHash h (write hash)) rv in
  (f rv).1 = (f emptyReused).1 /\ valid_reused tx (f rv).2.
Proof.
  intros Hv f.
  destruct (CalculateSignatureHashSchnorr_total tx inputIndex ht rv Hv) as [H1 H2].
  destruct (CalculateSignatureHashSchnorr_total tx inputIndex ht emptyReused (valid_empty tx))
    as [H1' _].
  rewrite <- H1' in H1. unfold f, bind.
  destruct (CalculateSignatureHashSchnorr tx inputIndex ht rv) as [o rv'].
  destruct (CalculateSignatureHashSchnorr tx inputIndex ht emptyReused) as [o' rv''].
  cbn in H1, H2. subst o'. by destruct o.
Qed.

(** Replacing the inputs or the outputs. *)
Definition with_inputs (tx : DomainTransaction) (ins : list DomainTransactionInput) :=
  MkTransaction (tx_Version tx) ins (Outputs tx) (LockTime tx) (SubnetworkID tx) (Gas tx)
    (Payload tx) (Fee tx) (Mass tx) (ID tx).
Definition with_outputs (tx : DomainTransaction) (outs : list DomainTransactionOutput) :=
  MkTransaction (tx_Version tx) (Inputs tx) outs (LockTime tx) (SubnetworkID tx) (Gas tx)
    (Payload tx) (Fee tx) (Mass tx) (ID tx).

Lemma preimage_AnyOneCanPay tx ins i i' txIn entry ht :
  isSigHashAnyOneCanPay ht = true -> (isSigHashSingle ht = false \/ i = i') ->
  preimage (with_inputs tx ins) i' txIn entry ht = preimage tx i txIn entry ht.
Proof.
  intros Ha Hi. unfold preimage, refPreviousOutputs, refSequences, refSigOpCounts, refOutputs.
  rewrite Ha, orb_true_r. cbn [orb]. destruct (isSigHashNone ht); [done|].
  destruct (isSigHashSingle ht); [|done]. by destruct Hi as [| ->].
Qed.

Lemma preimage_outputs tx outs i txIn entry ht :
  isSigHashNone ht = true \/
  (isSigHashSingle ht = true /\ outs !! Z.to_nat i = Outputs tx !! Z.to_nat i) ->
  preimage (with_outputs tx outs) i txIn entry ht = preimage tx i txIn entry ht.
Proof.
  unfold preimage, refOutputs. intros [Hn|[Hs Ho]].
  - by rewrite Hn.
  - destruct (isSigHashNone ht); [done|]. cbn [with_outputs Outputs]. by rewrite Hs, Ho.
Qed.

(** ** What a signature hash commits to *)

(** These two messages are distinct and have the same keyed digest. *)
Definition collide (x y : bytes) : Prop := x <> y /\ digest x = digest y.

Lemma digest_inj x y : digest x = digest y -> x = y \/ collide x y.
Proof. intros Hd. destruct (decide (x = y)); [by left|by right]. Qed.

(** A collision between corresponding messages of the two signature hashes. *)
Definition signing_collision (tx tx' : DomainTransaction) (i i' : Z)
    (txIn txIn' : DomainTransactionInput) (e e' : UTXOEntry) (ht ht' : Z) : Prop :=
  collide (preimage tx i txIn e ht) (preimage tx' i' txIn' e' ht') \/
  collide (preOutpoints tx) (preOutpoints tx') \/
  collide (preSequences tx) (preSequences tx') \/
  collide (preSigOpCounts tx) (preSigOpCounts tx') \/
  collide (preOutputs tx) (preOutputs tx') \/
  (exists o o', Outputs tx !! Z.to_nat i = Some o /\ Outputs tx' !! Z.to_nat i' = Some o' /\
     collide (encOutput o) (encOutput o')) \/
  collide (encVarBytes (Payload tx)) (encVarBytes (Payload tx')).

Definition wf_spent (entry : UTXOEntry) : Prop :=
  is_u64 (amount entry) /\ wf_spk (scriptPublicKey entry).

Section Commitment.
Context {HS : CryptoSpec H}.

Lemma digest_length msg : List.length (digest msg) = 32%nat.
Proof.
  pose proof (blake3_size (fixedSizeKey "TransactionSigningHash") msg). unfold digest, len in *. lia.
Qed.

Lemma ref_lengths tx i ht :
  List.length (refPreviousOutputs tx ht) = 32%nat /\ List.length (refSequences tx ht) = 32%nat /\
  List.length (refSigOpCounts tx ht) = 32%nat /\ List.length (refOutputs tx i ht) = 32%nat /\
  List.length (refPayload tx) = 32%nat.
Proof.
  unfold refPreviousOutputs, refSequences, refSigOpCounts, refOutputs, refPayload.
  repeat split; repeat case_match; auto using digest_length.
Qed.

(** Everything the preimage holds in the clear, and the five hashes. *)
Lemma preimage_inj tx tx' i i' txIn txIn' e e' ht ht' :
  wf_transaction tx -> wf_transaction tx' -> wf_input txIn -> wf_input txIn' ->
  wf_spent e -> wf_spent e' -> is_u8 ht -> is_u8 ht' ->
  preimage tx i txIn e ht = preimage tx' i' txIn' e' ht' ->
  (ht = ht' /\ tx_Version tx = tx_Version tx' /\ LockTime tx = LockTime tx' /\
   SubnetworkID tx = SubnetworkID tx' /\ Gas tx = Gas tx' /\
   PreviousOutpoint txIn = PreviousOutpoint txIn' /\ Sequence txIn = Sequence txIn' /\
   SigOpCount txIn = SigOpCount txIn' /\ scriptPublicKey e = scriptPublicKey e' /\
   amount e = amount e') /\
  (refPreviousOutputs tx ht = refPreviousOutputs tx' ht /\
   refSequences tx ht = refSequences tx' ht /\ refSigOpCounts tx ht = refSigOpCounts tx' ht /\
   refOutputs tx i ht = refOutputs tx' i' ht /\ refPayload tx = refPayload tx').
Proof.
  intros (Hv & _ & _ & _ & _ & Hl & Hs & Hg & _) (Hv' & _ & _ & _ & _ & Hl' & Hs' & Hg' & _)
    (Ho & _ & Hq & Hc) (Ho' & _ & Hq' & Hc') [Ha [Hver Hscr]] [Ha' [Hver' Hscr']] Ht Ht'.
  destruct (ref_lengths tx i ht) as (L1 & L2 & L3 & L4 & L5).
  destruct (ref_lengths tx' i' ht') as (M1 & M2 & M3 & M4 & M5).
  unfold preimage. intros Heq.
  apply (prefix_inj (enc := le_split 2) (P := is_u16)) in Heq as [Ev Heq]; [|done..].
  apply app_inj_1 in Heq as [E1 Heq]; [|congruence].
  apply app_inj_1 in Heq as [E2 Heq]; [|congruence].
  apply app_inj_1 in Heq as [E3 Heq]; [|congruence].
  apply (prefix_inj (enc := encOutpoint) (P := wf_outpoint)) in Heq as [Eo Heq]; [|done..].
  apply (prefix_inj (enc := le_split 2) (P := is_u16)) in Heq as [Ever Heq]; [|done..].
  apply (prefix_inj (enc := encVarBytes) (P := fun d => len d < 2 ^ 63)) in Heq as [Escr Heq];
    [|done..].
  apply (prefix_inj (enc := le_split 8) (P := is_u64)) in Heq as [Ea Heq]; [|done..].
  apply (prefix_inj (enc := le_split 8) (P := is_u64)) in Heq as [Eq Heq]; [|done..].
  apply app_inj_1 in Heq as [Ec Heq]; [|done].
  apply app_inj_1 in Heq as [E4 Heq]; [|congruence].
  apply (prefix_inj (enc := le_split 8) (P := is_u64)) in Heq as [El Heq]; [|done..].
  apply app_inj_1 in Heq as [Es Heq]; [|unfold wf_subnetworkID, len in *; lia].
  apply (prefix_inj (enc := le_split 8) (P := is_u64)) in Heq as [Eg Heq]; [|done..].
  apply app_inj_1 in Heq as [E5 Heq]; [|congruence].
  injection Ec as Ec. injection Heq as Et.
  apply (f_equal bz) in Ec, Et. rewrite !bz_zb_small in Ec, Et by (unfold_ranges; lia).
  subst ht'. destruct (scriptPublicKey e), (scriptPublicKey e'). cbn in *. subst. done.
Qed.

End Commitment.

(** Equal digests of a list of encodings give equal lists, or a collision. *)
Lemma digest_concat_inj {A} (enc : A -> bytes) (P : A -> Prop) `{!PrefixInj enc P} l k :
  (forall x, P x -> enc x <> []) -> Forall P l -> Forall P k ->
  digest (concat (map enc l)) = digest (concat (map enc k)) ->
  l = k \/ collide (concat (map enc l)) (concat (map enc k)).
Proof.
  intros Hne Hl Hk Hd. destruct (digest_inj _ _ Hd) as [Heq|]; [left|by right].
  clear Hd. revert k Hk Heq. induction Hl as [|x l Hx _ IH]; intros [|y k] Hk Heq; cbn in *; try done.
  - apply Forall_cons_1 in Hk as [Hy _]. symmetry in Heq. apply app_nil in Heq as [Hey _].
    by destruct (Hne y Hy).
  - apply app_nil in Heq as [Hex _]. by destruct (Hne x Hx).
  - apply Forall_cons_1 in Hk as [Hy Hk].
    apply (prefix_inj (P := P)) in Heq as [-> Heq]; [|done..]. f_equal. auto.
Qed.

#[export] Instance byte_inj : PrefixInj (fun c => [zb c]) is_u8.
Proof.
  apply (fixed_length_inj _ _ 1); [done|]. intros x y Hx Hy Heq. injection Heq as Heq.
  apply (f_equal bz) in Heq. by rewrite !bz_zb_small in Heq by (unfold_ranges; lia).
Qed.

Lemma preOutpoints_inj tx tx' :
  Forall wf_input (Inputs tx) -> Forall wf_input (Inputs tx') ->
  digest (preOutpoints tx) = digest (preOutpoints tx') ->
  map PreviousOutpoint (Inputs tx) = map PreviousOutpoint (Inputs tx') \/
  collide (preOutpoints tx) (preOutpoints tx').
Proof.
  intros Hi Hi'. unfold preOutpoints.
  rewrite <- !(map_map PreviousOutpoint encOutpoint).
  apply (digest_concat_inj encOutpoint wf_outpoint).
  - intros [t x] [Ht _]. unfold encOutpoint. cbn. intros Hn. apply app_nil in Hn as [-> _]. done.
  - apply Forall_map. eapply Forall_impl; [|exact Hi]. intros x Hx. apply Hx.
  - apply Forall_map. eapply Forall_impl; [|exact Hi']. intros x Hx. apply Hx.
Qed.

Lemma preSequences_inj tx tx' :
  Forall wf_input (Inputs tx) -> Forall wf_input (Inputs tx') ->
  digest (preSequences tx) = digest (preSequences tx') ->
  map Sequence (Inputs tx) = map Sequence (Inputs tx') \/
  collide (preSequences tx) (preSequences tx').
Proof.
  intros Hi Hi'. unfold preSequences. rewrite <- !(map_map Sequence (le_split 8)).
  apply (digest_concat_inj (le_split 8) is_u64); [done|..].
  - apply Forall_map. eapply Forall_impl; [|exact Hi]. intros x Hx. apply Hx.
  - apply Forall_map. eapply Forall_impl; [|exact Hi']. intros x Hx. apply Hx.
Qed.

Lemma preSigOpCounts_inj tx tx' :
  Forall wf_input (Inputs tx) -> Forall wf_input (Inputs tx') ->
  digest (preSigOpCounts tx) = digest (preSigOpCounts tx') ->
  map SigOpCount (Inputs tx) = map SigOpCount (Inputs tx') \/
  collide (preSigOpCounts tx) (preSigOpCounts tx').
Proof.
  intros Hi Hi'. unfold preSigOpCounts. rewrite <- !(map_map SigOpCount (fun c => [zb c])).
  apply (digest_concat_inj (fun c => [zb c]) is_u8); [done|..].
  - apply Forall_map. eapply Forall_impl; [|exact Hi]. intros x Hx. apply Hx.
  - apply Forall_map. eapply Forall_impl; [|exact Hi']. intros x Hx. apply Hx.
Qed.

Lemma preOutputs_inj tx tx' :
  Forall wf_output (Outputs tx) -> Forall wf_output (Outputs tx') ->
  digest (preOutputs tx) = digest (preOutputs tx') ->
  Outputs tx = Outputs tx' \/ collide (preOutputs tx) (preOutputs tx').
Proof.
  intros Ho Ho'. apply (digest_concat_inj encOutput wf_output); [|done..].
  intros x _. unfold encOutput. by destruct (Value x).
Qed.

Lemma prePayload_inj tx tx' :
  len (Payload tx) < 2 ^ 63 -> len (Payload tx') < 2 ^ 63 ->
  digest (encVarBytes (Payload tx)) = digest (encVarBytes (Payload tx')) ->
  Payload tx = Payload tx' \/ collide (encVarBytes (Payload tx)) (encVarBytes (Payload tx')).
Proof.
  intros Hp Hp' Hd. destruct (digest_inj _ _ Hd) as [Heq|]; [left|by right].
  apply (prefix_inj (enc := encVarBytes) (P := fun d => len d < 2 ^ 63) _ _ [] []); [done..|].
  by rewrite Heq.
Qed.

(** What a signature of type [ht] for the input [txIn] spending [e] fixes. *)
Definition same_signed_content (tx tx' : DomainTransaction) (txIn txIn' : DomainTransactionInput)
    (e e' : UTXOEntry) (i i' ht ht' : Z) : Prop :=
  (ht = ht' /\ tx_Version tx = tx_Version tx' /\ LockTime tx = LockTime tx' /\
   SubnetworkID tx = SubnetworkID tx' /\ Gas tx = Gas tx' /\
   PreviousOutpoint txIn = PreviousOutpoint txIn' /\ Sequence txIn = Sequence txIn' /\
   SigOpCount txIn = SigOpCount txIn' /\ scriptPublicKey e = scriptPublicKey e' /\
   amount e = amount e') /\
  (isSigHashAnyOneCanPay ht = false ->
     map PreviousOutpoint (Inputs tx) = map PreviousOutpoint (Inputs tx') /\
     map SigOpCount (Inputs tx) = map SigOpCount (Inputs tx')) /\
  (ht = SigHashAll -> map Sequence (Inputs tx) = map Sequence (Inputs tx')) /\
  (Z.land ht SigHashMask = SigHashAll -> Outputs tx = Outputs tx') /\
  (isSigHashSingle ht = true -> forall o o', Outputs tx !! Z.to_nat i = Some o ->
     Outputs tx' !! Z.to_nat i' = Some o' -> o = o') /\
  (isNative tx = false -> Payload tx = Payload tx').

Lemma is_u8_standard ht : IsStandardSigHashType ht = true -> is_u8 ht.
Proof.
  unfold IsStandardSigHashType. intros Hs. apply existsb_exists in Hs as (x & Hx & Heq).
  apply Z.eqb_eq in Heq as ->. vm_compute in Hx. unfold_ranges. lia.
Qed.

Lemma encOutput_inj o o' :
  wf_output o -> wf_output o' -> digest (encOutput o) = digest (encOutput o') ->
  o = o' \/ collide (encOutput o) (encOutput o').
Proof.
  intros Ho Ho' Hd. destruct (digest_inj _ _ Hd) as [Heq|]; [left|by right].
  apply (prefix_inj (enc := encOutput) (P := wf_output) _ _ [] []); [done..|]. by rewrite Heq.
Qed.

(** A conditional fact that may fail only because of [C]. *)
Lemma when_or (P D A C : Prop) `{!Decision P} : (P -> D) -> (D -> A \/ C) -> (P -> A) \/ C.
Proof. intros HD HA. destruct (decide P) as [HP|HP]; [destruct (HA (HD HP)); auto|by left]. Qed.

Lemma same_preimage_same_content `{!CryptoSpec H} tx tx' i i' txIn txIn' e e' ht ht' :
  wf_transaction tx -> wf_transaction tx' -> wf_input txIn -> wf_input txIn' ->
  wf_spent e -> wf_spent e' -> is_u8 ht -> is_u8 ht' ->
  preimage tx i txIn e ht = preimage tx' i' txIn' e' ht' ->
  same_signed_content tx tx' txIn txIn' e e' i i' ht ht' \/
  signing_collision tx tx' i i' txIn txIn' e e' ht ht'.
Proof.
  intros Hw Hw' Hi Hi' He He' Ht Ht' Hp.
  apply preimage_inj in Hp as [Hclear (E1 & E2 & E3 & E4 & E5)]; [|done..].
  destruct Hw as (_ & Hin & Hout & _ & _ & _ & _ & _ & Hpay).
  destruct Hw' as (_ & Hin' & Hout' & _ & _ & _ & _ & _ & Hpay').
  unfold same_signed_content, signing_collision.
  assert (Hprev : isSigHashAnyOneCanPay ht = true \/
    digest (preOutpoints tx) = digest (preOutpoints tx') /\
    digest (preSigOpCounts tx) = digest (preSigOpCounts tx')).
  { unfold refPreviousOutputs, refSigOpCounts in *.
    destruct (isSigHashAnyOneCanPay ht); [by left|by right]. }
  assert (Hseq : ht = SigHashAll -> digest (preSequences tx) = digest (preSequences tx')).
  { intros ->. exact E2. }
  assert (Houts : Z.land ht SigHashMask = SigHashAll ->
    digest (preOutputs tx) = digest (preOutputs tx')).
  { intros Ha. unfold refOutputs, isSigHashNone, isSigHashSingle in E4. by rewrite Ha in E4. }
  assert (Hone : isSigHashSingle ht = true -> forall o o', Outputs tx !! Z.to_nat i = Some o ->
    Outputs tx' !! Z.to_nat i' = Some o' -> digest (encOutput o) = digest (encOutput o')).
  { intros Hs o o' Ho Ho'. unfold refOutputs in E4. rewrite Hs, Ho, Ho' in E4.
    unfold isSigHashNone, isSigHashSingle in *. apply Z.eqb_eq in Hs. by rewrite Hs in E4. }
  assert (Hpl : isNative tx = false ->
    digest (encVarBytes (Payload tx)) = digest (encVarBytes (Payload tx'))).
  { intros Hn. unfold refPayload in E5. rewrite Hn in E5.
    assert (isNative tx' = false) as Hn'.
    { unfold isNative in *. by replace (SubnetworkID tx') with (SubnetworkID tx) by apply Hclear. }
    by rewrite Hn' in E5. }
  clear E1 E2 E3 E4 E5.
  assert (Gprev : (isSigHashAnyOneCanPay ht = false ->
      map PreviousOutpoint (Inputs tx) = map PreviousOutpoint (Inputs tx')) \/
    collide (preOutpoints tx) (preOutpoints tx')).
  { destruct Hprev as [->|[Hd _]]; [by left|]. destruct (preOutpoints_inj tx tx' Hin Hin' Hd); auto. }
  assert (Gops : (isSigHashAnyOneCanPay ht = false ->
      map SigOpCount (Inputs tx) = map SigOpCount (Inputs tx')) \/
    collide (preSigOpCounts tx) (preSigOpCounts tx')).
  { destruct Hprev as [->|[_ Hd]]; [by left|]. destruct (preSigOpCounts_inj tx tx' Hin Hin' Hd); auto. }
  pose proof (when_or _ _ _ _ Hseq (preSequences_inj tx tx' Hin Hin')) as Gseq.
  pose proof (when_or _ _ _ _ Houts (preOutputs_inj tx tx' Hout Hout')) as Gouts.
  pose proof (when_or _ _ _ _ Hpl (prePayload_inj tx tx' Hpay Hpay')) as Gpl.
  assert (Hsingle : (isSigHashSingle ht = true -> forall o o', Outputs tx !! Z.to_nat i = Some o ->
     Outputs tx' !! Z.to_nat i' = Some o' -> o = o') \/
    (exists o o', Outputs tx !! Z.to_nat i = Some o /\ Outputs tx' !! Z.to_nat i' = Some o' /\
     collide (encOutput o) (encOutput o'))).
  { destruct (Outputs tx !! Z.to_nat i) as [o|] eqn:Ho; [|by left].
    destruct (Outputs tx' !! Z.to_nat i') as [o'|] eqn:Ho'; [|by left].
    destruct (isSigHashSingle ht); [|by left].
    pose proof (Forall_lookup_1 _ _ _ _ Hout Ho). pose proof (Forall_lookup_1 _ _ _ _ Hout' Ho').
    destruct (encOutput_inj o o') as [->|]; auto.
    - left. congruence.
    - right. by exists o, o'. }
  clear Hprev Hseq Houts Hpl Hone.
  destruct Gprev as [Gprev|?]; [|by auto]. destruct Gops as [Gops|?]; [|by auto 6].
  destruct Gseq as [Gseq|?]; [|by auto]. destruct Gouts as [Gouts|?]; [|by auto 8].
  destruct Gpl as [Gpl|?]; [|by auto 10]. destruct Hsingle as [Hsingle|?]; [|by auto 10].
  left. split; [exact Hclear|]. auto 8.
Qed.

(** The transaction ID as a function of the transaction. *)
Definition refID (tx : DomainTransaction) : bytes :=
  blake3_keyed (fixedSizeKey "TransactionID") (encTransaction (IsCoinBase tx) tx).

(** ** Properties *)

(** C30. Reusing hashes never changes a signature hash.  The values
    [PrecomputeSighashReusedValues] stores, the values earlier calls left behind,
    and no values at all give the same Schnorr, ECDSA and ML-DSA-44 hashes (and
    the same errors) for every input and hash type, and each call leaves values
    that are again valid for the transaction. *)
Theorem reused_values_never_change_sighash (tx : DomainTransaction) :
  (exists rv, PrecomputeSighashReusedValues (E:=error) tx tt = (Ret rv, tt) /\ valid_reused tx rv) /\
  valid_reused tx emptyReused /\
  (forall rv f inputIndex ht, valid_reused tx rv ->
     f ∈ [CalculateSignatureHashSchnorr; CalculateSignatureHashECDSA;
          CalculateSignatureHashMLDSA44] ->
     (f tx inputIndex ht rv).1 = (f tx inputIndex ht emptyReused).1 /\
     valid_reused tx (f tx inputIndex ht rv).2).
Proof.
  split; [apply Precompute_run|]. split; [apply valid_empty|].
  intros rv f inputIndex ht Hv Hf. rewrite !elem_of_cons in Hf.
  destruct Hf as [-> | [-> | [-> | Hf]]].
  - destruct (CalculateSignatureHashSchnorr_total tx inputIndex ht rv Hv) as [-> Hv'].
    destruct (CalculateSignatureHashSchnorr_total tx inputIndex ht emptyReused (valid_empty tx))
      as [-> _]. done.
  - by apply rehash_total.
  - by apply rehash_total.
  - by apply elem_of_nil in Hf.
Qed.

(** With [SigHashAnyOneCanPay] a signature hash depends on no input but its
    own: replacing the other inputs, and moving the signed one unless the type is
    [SigHashSingle], gives the same hash. *)
Theorem AnyOneCanPay_ignores_other_inputs (tx : DomainTransaction)
    (ins : list DomainTransactionInput) (i i' ht : Z) :
  isSigHashAnyOneCanPay ht = true -> (isSigHashSingle ht = false \/ i = i') ->
  0 <= i -> 0 <= i' -> ins !! Z.to_nat i' = Inputs tx !! Z.to_nat i ->
  (CalculateSignatureHashSchnorr (with_inputs tx ins) i' ht emptyReused).1
  = (CalculateSignatureHashSchnorr tx i ht emptyReused).1.
Proof.
  intros Ha Hs Hi Hi' Hins.
  destruct (CalculateSignatureHashSchnorr_total tx i ht emptyReused (valid_empty tx)) as [-> _].
  destruct (CalculateSignatureHashSchnorr_total (with_inputs tx ins) i' ht emptyReused
    (valid_empty _)) as [-> _].
  rewrite !(proj2 (Z.leb_le _ _)) by done. cbn [Inputs with_inputs]. rewrite Hins.
  repeat case_match; try done. by rewrite (preimage_AnyOneCanPay tx ins i i').
Qed.

(** With [SigHashNone] a signature hash depends on no output, and with
    [SigHashSingle] only on the output at the index of the input. *)
Theorem sighash_ignores_outputs (tx : DomainTransaction)
    (outs : list DomainTransactionOutput) (i ht : Z) :
  isSigHashNone ht = true \/
    (isSigHashSingle ht = true /\ outs !! Z.to_nat i = Outputs tx !! Z.to_nat i) ->
  (CalculateSignatureHashSchnorr (with_outputs tx outs) i ht emptyReused).1
  = (CalculateSignatureHashSchnorr tx i ht emptyReused).1.
Proof.
  intros Ho.
  destruct (CalculateSignatureHashSchnorr_total tx i ht emptyReused (valid_empty tx)) as [-> _].
  destruct (CalculateSignatureHashSchnorr_total (with_outputs tx outs) i ht emptyReused
    (valid_empty _)) as [-> _].
  cbn [Inputs with_outputs]. repeat case_match; try done. by rewrite preimage_outputs.
Qed.

(** C29. A signature hash commits to what its type says.  If two signature hashes
    are equal, then either two corresponding messages hashed for them are
    distinct and collide under the keyed BLAKE3, or the hashes are of the same type and agree on the version, lock time,
    subnetwork and gas, on the spent outpoint with its amount and script, on the
    sequence and the signature operation count of the input, on all outpoints and
    counts unless [SigHashAnyOneCanPay] is set, on all sequences and outputs for
    [SigHashAll], on the output at the index of the input for [SigHashSingle]
    (where both have one), and on the payload outside the native subnetwork. *)
Theorem sighash_commits `{!CryptoSpec H} (tx tx' : DomainTransaction)
    (txIn txIn' : DomainTransactionInput) (e e' : UTXOEntry) (i i' ht ht' : Z) (h : bytes) :
  wf_transaction tx -> wf_transaction tx' -> wf_spent e -> wf_spent e' ->
  0 <= i -> 0 <= i' ->
  Inputs tx !! Z.to_nat i = Some txIn -> Inputs tx' !! Z.to_nat i' = Some txIn' ->
  in_UTXOEntry txIn = Some e -> in_UTXOEntry txIn' = Some e' ->
  (CalculateSignatureHashSchnorr tx i ht emptyReused).1 = Ret h ->
  (CalculateSignatureHashSchnorr tx' i' ht' emptyReused).1 = Ret h ->
  same_signed_content tx tx' txIn txIn' e e' i i' ht ht' \/
  signing_collision tx tx' i i' txIn txIn' e e' ht ht'.
Proof.
  intros Hw Hw' He He' Hi Hi' Hin Hin' Hu Hu' Hh Hh'.
  destruct (CalculateSignatureHashSchnorr_total tx i ht emptyReused (valid_empty tx)) as [Ht _].
  destruct (CalculateSignatureHashSchnorr_total tx' i' ht' emptyReused (valid_empty tx')) as [Ht' _].
  rewrite Hh, (proj2 (Z.leb_le _ _)), Hin, Hu in Ht by done.
  rewrite Hh', (proj2 (Z.leb_le _ _)), Hin', Hu' in Ht' by done.
  destruct (IsStandardSigHashType ht) eqn:Hs; [|done].
  destruct (IsStandardSigHashType ht') eqn:Hs'; [|done].
  injection Ht as ->. injection Ht' as Hd.
  destruct (digest_inj _ _ Hd) as [Hp|Hp]; [|by right; left].
  assert (wf_input txIn /\ wf_input txIn') as [Hwi Hwi'].
  { destruct Hw as (_ & Hf & _), Hw' as (_ & Hf' & _).
    split; [by apply (Forall_lookup_1 _ _ _ _ Hf Hin)|by apply (Forall_lookup_1 _ _ _ _ Hf' Hin')]. }
  eapply same_preimage_same_content; eauto using is_u8_standard.
Qed.

(** A transaction ID is the keyed BLAKE3 hash of the encoding without
    signature scripts (of the full encoding for a coinbase); the first call caches
    it, and every later call returns it and changes nothing. *)
Theorem TransactionID_cached {E} (tx : DomainTransaction) :
  (ID tx = None \/ ID tx = Some (refID tx)) ->
  consensushashing_TransactionID (E:=E) tx
    = (Ret (refID tx), setCachedID (Some (refID tx)) tx) /\
  consensushashing_TransactionID (E:=E) (setCachedID (Some (refID tx)) tx)
    = (Ret (refID tx), setCachedID (Some (refID tx)) tx).
Proof.
  intros Hid. split; [|done]. unfold consensushashing_TransactionID, bind, get.
  destruct Hid as [-> | Hid].
  - erewrite runHash_emits by apply serializeTransaction_emits.
    unfold refID. by destruct (IsCoinBase tx).
  - rewrite Hid. unfold ret. f_equal. rewrite <- Hid. by destruct tx.
Qed.

End SigHash.

(** ** Witnesses *)

Definition sampleEntry : UTXOEntry :=
  MkUTXOEntry 1000 (MkScriptPublicKey (bytes_of [0x51]) 0) 7 false.
Definition sampleInput (script : bytes) (k : Z) : DomainTransactionInput :=
  MkInput (MkOutpoint zeroHash k) script 5 1 (Some sampleEntry).
Definition sampleOutput (v : Z) : DomainTransactionOutput :=
  MkOutput v (MkScriptPublicKey (bytes_of [0x52]) 0).
Definition sampleTx (script : bytes) : DomainTransaction :=
  MkTransaction 0 [sampleInput script 0; sampleInput script 1] [sampleOutput 900; sampleOutput 50]
    0 SubnetworkIDNative 0 [] 0 0 None.

Lemma AnyOneCanPay_ignores_other_inputs_witness :
  (CalculateSignatureHashSchnorr (with_inputs (sampleTx []) [sampleInput [] 1]) 0
     (Z.lor SigHashAll SigHashAnyOneCanPay) emptyReused).1
  = (CalculateSignatureHashSchnorr (sampleTx []) 1
     (Z.lor SigHashAll SigHashAnyOneCanPay) emptyReused).1.
Proof.
  apply (AnyOneCanPay_ignores_other_inputs (sampleTx []) [sampleInput [] 1] 1 0).
  - reflexivity.
  - left. reflexivity.
  - lia.
  - lia.
  - reflexivity.
Defined.

Lemma sighash_ignores_outputs_witness :
  (CalculateSignatureHashSchnorr (with_outputs (sampleTx []) [sampleOutput 900]) 0
     SigHashSingle emptyReused).1
  = (CalculateSignatureHashSchnorr (sampleTx []) 0 SigHashSingle emptyReused).1.
Proof.
  apply (sighash_ignores_outputs (sampleTx []) [sampleOutput 900] 0 SigHashSingle).
  right. split; reflexivity.
Defined.

Lemma sighash_commits_witness :
  same_signed_content (sampleTx []) (sampleTx (bytes_of [0x51])) (sampleInput [] 1)
    (sampleInput (bytes_of [0x51]) 1) sampleEntry sampleEntry 1 1 SigHashAll SigHashAll \/
  signing_collision (sampleTx []) (sampleTx (bytes_of [0x51])) 1 1 (sampleInput [] 1)
    (sampleInput (bytes_of [0x51]) 1) sampleEntry sampleEntry SigHashAll SigHashAll.
Proof.
  apply (sighash_commits (sampleTx []) (sampleTx (bytes_of [0x51])) (sampleInput [] 1)
    (sampleInput (bytes_of [0x51]) 1) sampleEntry sampleEntry 1 1 SigHashAll SigHashAll
    (digest (preimage (sampleTx []) 1 (sampleInput [] 1) sampleEntry SigHashAll)));
    try reflexivity; try lia.
  - solve_wf.
  - solve_wf.
  - vm_compute. intuition congruence.
  - vm_compute. intuition congruence.
Defined.

Lemma TransactionID_cached_witness :
  consensushashing_TransactionID (E:=error) (sampleTx [])
    = (Ret (refID (sampleTx [])), setCachedID (Some (refID (sampleTx []))) (sampleTx [])) /\
  consensushashing_TransactionID (E:=error) (setCachedID (Some (refID (sampleTx []))) (sampleTx []))
    = (Ret (refID (sampleTx [])), setCachedID (Some (refID (sampleTx []))) (sampleTx [])).
Proof. apply (TransactionID_cached (sampleTx [])). left. reflexivity. Defined.
