(* ===== verification/SigCache.v ===== *)
(** * Signature caches

    [sigcache.go], [sigcache_ecdsa.go] and [sigcache_mldsa44.go] of
    [src/domain/consensus/utils/txscript].

    The Schnorr and the ECDSA cache are the same code over different types, so
    the operations are written once over a [SigScheme], the functions of
    [secp256k1] a cache and its clients use, and instantiated twice.

    A cache is a Go map behind a lock; each locked section is one function on the
    map.  The entry a full cache evicts is the first key a range loop visits,
    which [rangeFirst] leaves open; [rangeLoops] counts the loops run so far. *)

From S2P Require Import Prelude Crypto.

Section SigCache.
Context `{Crypto}.

Record SigScheme : Type := MkScheme {
  PublicKey : Type;
  Signature : Type;
  DeserializePubKey : bytes -> option PublicKey;
  DeserializeSignatureFromSlice : bytes -> option Signature;
  Verify : PublicKey -> bytes -> Signature -> bool;
  PublicKey_IsEqual : PublicKey -> PublicKey -> bool;
  Signature_IsEqual : Signature -> Signature -> bool
}.

Definition Schnorr : SigScheme :=
  MkScheme SchnorrPublicKey SchnorrSignature DeserializeSchnorrPubKey
    DeserializeSchnorrSignatureFromSlice SchnorrVerify SchnorrPublicKey_IsEqual
    SchnorrSignature_IsEqual.

Definition ECDSA : SigScheme :=
  MkScheme ECDSAPublicKey ECDSASignature DeserializeECDSAPubKey
    DeserializeECDSASignatureFromSlice ECDSAVerify ECDSAPublicKey_IsEqual
    ECDSASignature_IsEqual.

(** What a cache relies on: equality of keys and of signatures is equality. *)
Class SigSchemeSpec (sc : SigScheme) : Prop := {
  PublicKey_IsEqual_eq : forall p q, PublicKey_IsEqual sc p q = true -> p = q;
  Signature_IsEqual_eq : forall p q, Signature_IsEqual sc p q = true -> p = q
}.

#[export] Instance Schnorr_spec `{!CryptoSpec H} : SigSchemeSpec Schnorr.
Proof. split; cbn; [apply SchnorrPublicKey_IsEqual_eq|apply SchnorrSignature_IsEqual_eq]. Qed.

#[export] Instance ECDSA_spec `{!CryptoSpec H} : SigSchemeSpec ECDSA.
Proof. split; cbn; [apply ECDSAPublicKey_IsEqual_eq|apply ECDSASignature_IsEqual_eq]. Qed.

(** [for k := range m { delete(m, k); break }] *)
Definition evictFirst {V} (n : nat) (m : gmap bytes V) : gmap bytes V :=
  match rangeFirst n (map fst (map_to_list m)) with
  | Some k => delete k m
  | None => m
  end.

(** ** Schnorr and ECDSA caches *)

Section Scheme.
Context (sc : SigScheme).

Record sigCacheEntry : Type := MkEntry {
  entry_sig : Signature sc;
  entry_pubKey : PublicKey sc
}.

Record SigCache : Type := MkSigCache {
  validSigs : gmap bytes sigCacheEntry;
  maxEntries : Z;
  rangeLoops : nat
}.

Definition NewSigCache (maxEntries : Z) : SigCache := MkSigCache ∅ maxEntries 0.

Definition Exists (s : SigCache) (sigHash : bytes) (sig : Signature sc) (pubKey : PublicKey sc)
  : bool :=
  match validSigs s !! sigHash with
  | Some entry =>
      PublicKey_IsEqual sc (entry_pubKey entry) pubKey && Signature_IsEqual sc (entry_sig entry) sig
  | None => false
  end.

(** The number of entries, printed and parsed back by the code, fits a [uint64]. *)
Definition Add (s : SigCache) (sigHash : bytes) (sig : Signature sc) (pubKey : PublicKey sc)
  : SigCache :=
  if maxEntries s =? 0 then s
  else
    let nextEntryCount := Z.of_nat (size (validSigs s)) + 1 in
    let '(sigs, loops) :=
      if maxEntries s <? nextEntryCount
      then (evictFirst (rangeLoops s) (validSigs s), S (rangeLoops s))
      else (validSigs s, rangeLoops s) in
    MkSigCache (<[sigHash := MkEntry sig pubKey]> sigs) (maxEntries s) loops.

(** How the signature opcodes use the cache: a signature found in it is valid,
    another one is verified and added if valid; without a cache it is verified. *)
Definition cachedVerify (sigCache : option SigCache) (secpHash : bytes) (signature : Signature sc)
    (pubKey : PublicKey sc) : bool * option SigCache :=
  match sigCache with
  | Some s =>
      let valid := Exists s secpHash signature pubKey in
      if negb valid && Verify sc pubKey secpHash signature
      then (true, Some (Add s secpHash signature pubKey))
      else (valid, Some s)
  | None => (Verify sc pubKey secpHash signature, None)
  end.

(** Only verified signatures, and not more of them than allowed. *)
Definition valid_cache (s : SigCache) : Prop :=
  (forall h e, validSigs s !! h = Some e -> Verify sc (entry_pubKey e) h (entry_sig e) = true) /\
  (0 <= maxEntries s) /\ Z.of_nat (size (validSigs s)) <= maxEntries s.
End Scheme.

Definition SigCacheECDSA : Type := SigCache ECDSA.
Definition NewSigCacheECDSA (maxEntries : Z) : SigCacheECDSA := NewSigCache ECDSA maxEntries.
Definition SigCacheECDSA_Exists (s : SigCacheECDSA) (sigHash : bytes) (sig : ECDSASignature)
    (pubKey : ECDSAPublicKey) : bool :=
  Exists ECDSA s sigHash sig pubKey.
Definition SigCacheECDSA_Add (s : SigCacheECDSA) (sigHash : bytes) (sig : ECDSASignature)
    (pubKey : ECDSAPublicKey) : SigCacheECDSA :=
  Add ECDSA s sigHash sig pubKey.

(** ** The ML-DSA-44 cache *)

Record MLDSA44Cache : Type := MkMLDSA44Cache {
  mldsa_validSigs : gmap bytes unit;
  maxValidSigs : Z;
  publicKeys : gmap bytes MLDSA44PublicKey;
  maxPublicKeys : Z;
  mldsa_rangeLoops : nat
}.

Definition NewMLDSA44Cache (maxValidSigs maxPublicKeys : Z) : MLDSA44Cache :=
  MkMLDSA44Cache ∅ maxValidSigs ∅ maxPublicKeys 0.

Definition mldsa44SigCacheKey (sigHash pkBytes sigBytes : bytes) : bytes :=
  blake2b_Sum256 (sigHash ++ pkBytes ++ sigBytes).

(** The map and the number of range loops run. *)
Definition addWithRandomEviction {V} (entries : gmap bytes V) (loops : nat) (maxEntries : Z)
    (key : bytes) (value : V) : gmap bytes V * nat :=
  if maxEntries =? 0 then (entries, loops)
  else
    let '(entries, loops) :=
      if negb (bool_decide (is_Some (entries !! key)))
         && (maxEntries <=? Z.of_nat (size entries))
      then (evictFirst loops entries, S loops) else (entries, loops) in
    (<[key := value]> entries, loops).

(** A call of [verify]: its message, public key and signature bytes. *)
Record verifyCall : Type := MkCall { vc_hash : bytes; vc_pk : bytes; vc_sig : bytes }.

(** The section of [verify] under the read lock. *)
Definition verify_lookup (c : MLDSA44Cache) (r : verifyCall) : bool * option MLDSA44PublicKey :=
  let sigKey := mldsa44SigCacheKey (vc_hash r) (vc_pk r) (vc_sig r) in
  let publicKeyKey := blake2b_Sum256 (vc_pk r) in
  (bool_decide (is_Some (mldsa_validSigs c !! sigKey)), publicKeys c !! publicKeyKey).

(** The part of [verify] that holds no lock: the verdict [(valid, parsed)], or the
    key to store with whether it was cached when the signature has just verified. *)
Definition verify_decide (r : verifyCall) (found : bool * option MLDSA44PublicKey)
  : (bool * bool) + (MLDSA44PublicKey * bool) :=
  let '(isKnownValid, cachedKey) := found in
  if isKnownValid then inl (true, true)
  else
    let publicKeyIsCached := bool_decide (is_Some cachedKey) in
    match (if publicKeyIsCached then cachedKey else MLDSA44UnmarshalBinary (vc_pk r)) with
    | None => inl (false, false)
    | Some publicKey =>
        if negb (mldsa44_Verify publicKey (vc_hash r) [] (vc_sig r)) then inl (false, true)
        else inr (publicKey, publicKeyIsCached)
    end.

(** The section under the write lock. *)
Definition verify_store (c : MLDSA44Cache) (r : verifyCall)
    (publicKey : MLDSA44PublicKey) (publicKeyIsCached : bool) : MLDSA44Cache :=
  let sigKey := mldsa44SigCacheKey (vc_hash r) (vc_pk r) (vc_sig r) in
  let publicKeyKey := blake2b_Sum256 (vc_pk r) in
  let '(sigs, loops) :=
    addWithRandomEviction (mldsa_validSigs c) (mldsa_rangeLoops c) (maxValidSigs c) sigKey tt in
  let '(keys, loops) :=
    if negb publicKeyIsCached
    then addWithRandomEviction (publicKeys c) loops (maxPublicKeys c) publicKeyKey publicKey
    else (publicKeys c, loops) in
  MkMLDSA44Cache sigs (maxValidSigs c) keys (maxPublicKeys c) loops.

(** A nil cache verifies without caching. *)
Definition verify_uncached (r : verifyCall) : bool * bool :=
  match MLDSA44UnmarshalBinary (vc_pk r) with
  | None => (false, false)
  | Some publicKey => (mldsa44_Verify publicKey (vc_hash r) [] (vc_sig r), true)
  end.

Definition verify (c : option MLDSA44Cache) (sigHash pkBytes sigBytes : bytes)
  : (bool * bool) * option MLDSA44Cache :=
  let r := MkCall sigHash pkBytes sigBytes in
  match c with
  | None => (verify_uncached r, None)
  | Some c =>
      match verify_decide r (verify_lookup c r) with
      | inl verdict => (verdict, Some c)
      | inr (publicKey, isCached) => ((true, true), Some (verify_store c r publicKey isCached))
      end
  end.

(** ** Calls of [verify] running at the same time

    A call takes the read lock once and, if its signature has just verified, the
    write lock once; between the two other calls may run. *)

Inductive phase : Type :=
| Start
| Storing (publicKey : MLDSA44PublicKey) (publicKeyIsCached : bool)
| Done (verdict : bool * bool).

Record thread : Type := MkThread { th_call : verifyCall; th_phase : phase }.

Definition afterLookup (d : (bool * bool) + (MLDSA44PublicKey * bool)) : phase :=
  match d with
  | inl verdict => Done verdict
  | inr (publicKey, isCached) => Storing publicKey isCached
  end.

Inductive cstep : MLDSA44Cache * list thread -> MLDSA44Cache * list thread -> Prop :=
| cstep_lookup c ts i r :
    ts !! i = Some (MkThread r Start) ->
    cstep (c, ts)
      (c, <[i := MkThread r (afterLookup (verify_decide r (verify_lookup c r)))]> ts)
| cstep_store c ts i r publicKey isCached :
    ts !! i = Some (MkThread r (Storing publicKey isCached)) ->
    cstep (c, ts)
      (verify_store c r publicKey isCached, <[i := MkThread r (Done (true, true))]> ts).

(** ** Lemmas *)

Lemma evictFirst_lookup {V} (n : nat) (m : gmap bytes V) k v :
  evictFirst n m !! k = Some v -> m !! k = Some v.
Proof.
  unfold evictFirst. case_match; [|done]. intros Hl. by apply lookup_delete_Some in Hl as [_ ?].
Qed.

Lemma evictFirst_size `{!CryptoSpec H} {V} (n : nat) (m : gmap bytes V) :
  (0 < size m)%nat -> (size (evictFirst n m) < size m)%nat.
Proof.
  intros Hm. unfold evictFirst.
  destruct (rangeFirst_in n (map fst (map_to_list m))) as (k & -> & Hk).
  { rewrite <- length_map_to_list in Hm. by destruct (map_to_list m); cbn in *; [lia|]. }
  apply list_elem_of_fmap in Hk as ([k' v] & -> & Hkv). apply elem_of_map_to_list in Hkv. cbn.
  rewrite <- (insert_delete_id m k' v Hkv) at 2. rewrite map_size_insert_None; [lia|].
  apply lookup_delete_eq.
Qed.

Lemma size_insert_le {V} (m : gmap bytes V) (k : bytes) (v : V) : (size (<[k := v]> m) <= S (size m))%nat.
Proof. rewrite map_size_insert. destruct (m !! k); cbn; lia. Qed.

(** What is in the map after an insertion that may evict. *)
Lemma addWithRandomEviction_lookup {V} (m : gmap bytes V) (loops : nat) (n : Z) (k : bytes) (v : V)
    (m' : gmap bytes V) (loops' : nat) (k' : bytes) (v' : V) :
  addWithRandomEviction m loops n k v = (m', loops') ->
  m' !! k' = Some v' -> (k' = k /\ v' = v) \/ m !! k' = Some v'.
Proof.
  unfold addWithRandomEviction. intros Ha Hl.
  destruct (n =? 0); [injection Ha as <- <-; by right|].
  destruct (_ && _); injection Ha as <- <-; apply lookup_insert_Some in Hl as [[]|[]];
    eauto using evictFirst_lookup.
Qed.

Lemma addWithRandomEviction_size `{!CryptoSpec H} {V} (m : gmap bytes V) (loops : nat) (n : Z) (k : bytes) (v : V)
    (m' : gmap bytes V) (loops' : nat) :
  addWithRandomEviction m loops n k v = (m', loops') ->
  0 <= n -> Z.of_nat (size m) <= n -> Z.of_nat (size m') <= n.
Proof.
  unfold addWithRandomEviction. intros Ha Hn Hm.
  destruct (Z.eqb_spec n 0); [by injection Ha as <- <-|].
  destruct (bool_decide_reflect (is_Some (m !! k))) as [[v0 Hk]|Hk]; cbn [negb andb] in Ha.
  { injection Ha as <- <-. rewrite map_size_insert, Hk. cbn. lia. }
  destruct (Z.leb_spec n (Z.of_nat (size m))); injection Ha as <- <-;
    [pose proof (evictFirst_size loops m); pose proof (size_insert_le (evictFirst loops m) k v)
    |pose proof (size_insert_le m k v)]; lia.
Qed.

Section SchemeLemmas.
Context `{!CryptoSpec H} (sc : SigScheme) `{!SigSchemeSpec sc}.

Lemma valid_cache_new n : 0 <= n -> valid_cache sc (NewSigCache sc n).
Proof. by intros; split_and!; cbn; rewrite ?map_size_empty. Qed.

Lemma Exists_verified s h sig pk :
  valid_cache sc s -> Exists sc s h sig pk = true -> Verify sc pk h sig = true.
Proof.
  intros [Hv _] He. unfold Exists in He. destruct (validSigs sc s !! h) as [e|] eqn:Hl; [|done].
  apply andb_prop in He as [Hp Hs]. apply PublicKey_IsEqual_eq in Hp as <-.
  apply Signature_IsEqual_eq in Hs as <-. by apply Hv.
Qed.

Lemma Add_valid s h sig pk :
  valid_cache sc s -> Verify sc pk h sig = true -> valid_cache sc (Add sc s h sig pk).
Proof.
  intros (Hv & Hm & Hs) Hsig. unfold Add. destruct (Z.eqb_spec (maxEntries sc s) 0); [done|].
  assert (Hins : forall sigs loops,
    (forall k e, sigs !! k = Some e -> validSigs sc s !! k = Some e) ->
    Z.of_nat (size sigs) + 1 <= maxEntries sc s ->
    valid_cache sc (MkSigCache sc (<[h := MkEntry sc sig pk]> sigs) (maxEntries sc s) loops)).
  { intros sigs loops Hsub Hsize. split_and!; cbn; [|done|].
    - intros k e Hl. apply lookup_insert_Some in Hl as [[<- <-]|[_ Hl]]; auto.
    - pose proof (size_insert_le sigs h (MkEntry sc sig pk)). lia. }
  destruct (Z.ltb_spec (maxEntries sc s) (Z.of_nat (size (validSigs sc s)) + 1)).
  - apply Hins; [apply evictFirst_lookup|].
    pose proof (evictFirst_size (rangeLoops sc s) (validSigs sc s)). lia.
  - apply Hins; [done|lia].
Qed.

(** The verdict is the one of the verification, and the cache stays valid. *)
Lemma cachedVerify_spec c h sig pk :
  (forall s, c = Some s -> valid_cache sc s) ->
  (cachedVerify sc c h sig pk).1 = Verify sc pk h sig /\
  (forall s, (cachedVerify sc c h sig pk).2 = Some s -> valid_cache sc s).
Proof.
  intros Hc. unfold cachedVerify. destruct c as [s|]; [|by split].
  specialize (Hc s eq_refl).
  destruct (Exists sc s h sig pk) eqn:He; cbn [negb andb].
  - split; [by rewrite (Exists_verified s h sig pk)|]. cbn. congruence.
  - destruct (Verify sc pk h sig) eqn:Hv; (split; [done|]); cbn; [|congruence].
    intros s' Hs. injection Hs as <-. by apply Add_valid.
Qed.
End SchemeLemmas.

(** A sequence of signature checks through one cache. *)
Fixpoint checkAll (sc : SigScheme) (c : option (SigCache sc))
    (calls : list (bytes * Signature sc * PublicKey sc)) : list bool * option (SigCache sc) :=
  match calls with
  | [] => ([], c)
  | (h, sig, pk) :: calls =>
      let '(v, c) := cachedVerify sc c h sig pk in
      let '(vs, c) := checkAll sc c calls in
      (v :: vs, c)
  end.

Section ConcurrentLemmas.
Context `{!CryptoSpec H} (calls : list verifyCall).

Definition wf_call (r : verifyCall) : Prop :=
  len (vc_hash r) = 32 /\ len (vc_pk r) = mldsa44_PublicKeySize /\
  len (vc_sig r) = mldsa44_SignatureSize.

(** The message the key of a signature is the hash of. *)
Definition callMessage (r : verifyCall) : bytes := vc_hash r ++ vc_pk r ++ vc_sig r.

(** No two of the calls collide under BLAKE2b. *)
Definition collision_free : Prop :=
  forall r r', r ∈ calls -> r' ∈ calls ->
    ~ blake2b_collide (callMessage r) (callMessage r') /\
    ~ blake2b_collide (vc_pk r) (vc_pk r').

Definition valid_mldsa44 (c : MLDSA44Cache) : Prop :=
  (forall k, is_Some (mldsa_validSigs c !! k) ->
     exists r, r ∈ calls /\ k = blake2b_Sum256 (callMessage r) /\ verify_uncached r = (true, true)) /\
  (forall k P, publicKeys c !! k = Some P ->
     exists r, r ∈ calls /\ k = blake2b_Sum256 (vc_pk r) /\ MLDSA44UnmarshalBinary (vc_pk r) = Some P) /\
  (0 <= maxValidSigs c /\ Z.of_nat (size (mldsa_validSigs c)) <= maxValidSigs c) /\
  (0 <= maxPublicKeys c /\ Z.of_nat (size (publicKeys c)) <= maxPublicKeys c).

Definition valid_thread (t : thread) : Prop :=
  th_call t ∈ calls /\
  match th_phase t with
  | Start => True
  | Storing P _ =>
      MLDSA44UnmarshalBinary (vc_pk (th_call t)) = Some P /\
      mldsa44_Verify P (vc_hash (th_call t)) [] (vc_sig (th_call t)) = true
  | Done v => v = verify_uncached (th_call t)
  end.

Lemma valid_mldsa44_new n m : 0 <= n -> 0 <= m -> valid_mldsa44 (NewMLDSA44Cache n m).
Proof.
  intros. split_and!; cbn; rewrite ?map_size_empty; try lia.
  - intros k [? Hk]. by rewrite lookup_empty in Hk.
  - intros k P Hk. by rewrite lookup_empty in Hk.
Qed.

Lemma callMessage_inj r r' :
  wf_call r -> wf_call r' -> callMessage r = callMessage r' -> r = r'.
Proof.
  destruct r, r'. unfold wf_call, callMessage, len. cbn. intros (? & ? & _) (? & ? & _) Heq.
  apply app_inj_1 in Heq as [-> Heq]; [|lia]. by apply app_inj_1 in Heq as [-> ->]; [|lia].
Qed.

Hypothesis Hfree : collision_free.
Hypothesis Hwf : Forall wf_call calls.

(** A lookup in a valid cache leads to the verdict of an uncached verification. *)
Lemma verify_decide_sound c r :
  valid_mldsa44 c -> r ∈ calls ->
  valid_thread (MkThread r (afterLookup (verify_decide r (verify_lookup c r)))).
Proof.
  intros (Hs & Hp & _) Hr. split; [done|]. cbn [th_call th_phase].
  unfold verify_decide, verify_lookup, mldsa44SigCacheKey.
  destruct (bool_decide_reflect (is_Some
    (mldsa_validSigs c !! blake2b_Sum256 (vc_hash r ++ vc_pk r ++ vc_sig r)))) as [Hk|_].
  { destruct (Hs _ Hk) as (r' & Hr' & Heq & Hv). cbn.
    destruct (Hfree r r' Hr Hr') as [Hno _].
    destruct (decide (callMessage r = callMessage r')) as [Hm|Hm]; [|by destruct Hno].
    pose proof (proj1 (list.Forall_forall _ _) Hwf) as Hall.
    assert (r = r') as -> by (apply callMessage_inj; auto). by rewrite Hv. }
  assert (Hkey : forall P, publicKeys c !! blake2b_Sum256 (vc_pk r) = Some P ->
    MLDSA44UnmarshalBinary (vc_pk r) = Some P).
  { intros P HP. destruct (Hp _ _ HP) as (r' & Hr' & Heq & Hu).
    destruct (Hfree r r' Hr Hr') as [_ Hno].
    destruct (decide (vc_pk r = vc_pk r')) as [->|Hm]; [done|by destruct Hno]. }
  unfold verify_uncached.
  destruct (publicKeys c !! blake2b_Sum256 (vc_pk r)) as [P|].
  - rewrite (Hkey P eq_refl). rewrite bool_decide_true by eauto.
    by destruct (mldsa44_Verify P _ _ _) eqn:Hv; cbn.
  - rewrite bool_decide_false by (by intros []).
    destruct (MLDSA44UnmarshalBinary (vc_pk r)) as [P|] eqn:Hu; [|done].
    by destruct (mldsa44_Verify P _ _ _) eqn:Hv; cbn.
Qed.

Lemma verify_store_valid c r P b :
  valid_mldsa44 c -> valid_thread (MkThread r (Storing P b)) -> valid_mldsa44 (verify_store c r P b).
Proof.
  intros (Hs & Hp & [Hm1 Hn1] & Hm2 & Hn2) [Hr [Hu Hv]]. cbn [th_call] in *. unfold verify_store.
  destruct (addWithRandomEviction (mldsa_validSigs c)) as [sigs loops] eqn:E1.
  pose proof (addWithRandomEviction_size _ _ _ _ _ _ _ E1 Hm1 Hn1).
  assert (Hs' : forall k, is_Some (sigs !! k) -> exists r, r ∈ calls /\
    k = blake2b_Sum256 (callMessage r) /\ verify_uncached r = (true, true)).
  { intros k [u Hk]. destruct (addWithRandomEviction_lookup _ _ _ _ _ _ _ _ _ E1 Hk) as [[-> _]|];
      [|by eauto].
    exists r. split_and!; [done|done|]. unfold verify_uncached. by rewrite Hu, Hv. }
  destruct b; cbn [negb]; [by split_and!|].
  destruct (addWithRandomEviction (publicKeys c)) as [keys loops'] eqn:E2.
  pose proof (addWithRandomEviction_size _ _ _ _ _ _ _ E2 Hm2 Hn2).
  split_and!; cbn; try done.
  intros k Q Hk. destruct (addWithRandomEviction_lookup _ _ _ _ _ _ _ _ _ E2 Hk) as [[-> ->]|];
    eauto.
Qed.

Lemma cstep_invariant x y :
  cstep x y -> valid_mldsa44 x.1 /\ Forall valid_thread x.2 ->
  valid_mldsa44 y.1 /\ Forall valid_thread y.2.
Proof.
  intros Hstep [Hc Ht]. destruct Hstep as [c ts i r Hi|c ts i r P b Hi]; cbn in *;
    pose proof (Forall_lookup_1 _ _ _ _ Ht Hi) as Hth.
  - split; [done|]. apply Forall_insert; [done|]. apply verify_decide_sound; [done|apply Hth].
  - split; [by apply verify_store_valid|]. apply Forall_insert; [done|].
    destruct Hth as [Hr [Hu Hv]]. split; [done|]. cbn in *. unfold verify_uncached. by rewrite Hu, Hv.
Qed.

Lemma csteps_invariant x y :
  rtc cstep x y -> valid_mldsa44 x.1 /\ Forall valid_thread x.2 ->
  valid_mldsa44 y.1 /\ Forall valid_thread y.2.
Proof. induction 1; eauto using cstep_invariant. Qed.
End ConcurrentLemmas.

(** ** Properties *)

(** C21. The Schnorr and ECDSA caches never change a verdict: any sequence of
    checks through a new cache of any capacity gives for each signature the
    result of verifying it, and the cache never holds more than its maximum of
    entries, whichever entries the evictions pick. *)
Theorem sigCache_never_changes_verdict `{!CryptoSpec H} (sc : SigScheme) `{!SigSchemeSpec sc}
    (maxEntries : Z) (calls : list (bytes * Signature sc * PublicKey sc)) :
  0 <= maxEntries ->
  exists c, checkAll sc (Some (NewSigCache sc maxEntries)) calls
    = (map (fun '(h, sig, pk) => Verify sc pk h sig) calls, Some c) /\
  Z.of_nat (size (validSigs sc c)) <= maxEntries.
Proof.
  intros Hm.
  cut (forall s, valid_cache sc s -> SigCache.maxEntries sc s = maxEntries ->
    exists c, checkAll sc (Some s) calls
      = (map (fun '(h, sig, pk) => Verify sc pk h sig) calls, Some c) /\
    valid_cache sc c /\ SigCache.maxEntries sc c = maxEntries).
  { intros Hgen. destruct (Hgen _ (valid_cache_new sc maxEntries Hm) eq_refl) as (c & Hc & Hv & <-).
    exists c. split; [done|]. apply Hv. }
  induction calls as [|[[h sig] pk] calls IH]; intros s Hs Hmax; cbn [checkAll map].
  { by exists s. }
  pose proof (cachedVerify_spec sc (Some s) h sig pk) as [Hv Hs'].
  { by intros ? [= <-]. }
  assert (exists s', (cachedVerify sc (Some s) h sig pk).2 = Some s' /\
    SigCache.maxEntries sc s' = maxEntries) as (s' & Hsome & Hmax').
  { unfold cachedVerify. destruct (_ && _); cbn; eexists; (split; [done|]); [|done].
    unfold Add. destruct (_ =? 0); [done|]. by destruct (_ <? _). }
  destruct (cachedVerify sc (Some s) h sig pk) as [v c']. cbn in *. subst.
  destruct (IH s' (Hs' s' eq_refl) Hmax') as (c & -> & Hc). by exists c.
Qed.

(** The ML-DSA-44 cache never changes a verdict, however concurrent calls
    interleave: every call that has finished returned what it returns without a
    cache, and the two maps stay within their maximal sizes.  The calls are
    finitely many, with the lengths the opcode has checked, and no two of them
    collide under BLAKE2b-256. *)
Theorem mldsa44_cache_never_changes_verdict `{!CryptoSpec H} (calls : list verifyCall)
    (maxSigs maxKeys : Z) (c : MLDSA44Cache) (ts : list thread) (i : nat) (r : verifyCall)
    (verdict : bool * bool) :
  0 <= maxSigs -> 0 <= maxKeys -> Forall wf_call calls -> collision_free calls ->
  rtc cstep (NewMLDSA44Cache maxSigs maxKeys, map (fun r => MkThread r Start) calls) (c, ts) ->
  ts !! i = Some (MkThread r (Done verdict)) ->
  verdict = (verify None (vc_hash r) (vc_pk r) (vc_sig r)).1 /\
  Z.of_nat (size (mldsa_validSigs c)) <= maxValidSigs c /\
  Z.of_nat (size (publicKeys c)) <= maxPublicKeys c.
Proof.
  intros Hs Hk Hwf Hfree Hsteps Hi.
  apply (csteps_invariant calls Hfree Hwf) in Hsteps as [Hc Ht].
  - pose proof (Forall_lookup_1 _ _ _ _ Ht Hi) as [_ ->]. cbn [th_call].
    split; [by destruct r|]. split; apply Hc.
  - split; [by apply valid_mldsa44_new|]. apply Forall_map, list.Forall_forall. by intros r' Hr'.
Qed.
End SigCache.

(** ** Witnesses *)

Lemma sigCache_never_changes_verdict_witness :
  let pk := replicate 32 (zb 1) in
  let h := replicate 32 (zb 2) in
  exists c, checkAll Schnorr (Some (NewSigCache Schnorr 1))
    [(h, pk ++ h, pk); (h, pk ++ h, pk); (h, pk, pk); (pk, pk ++ pk, pk)]
    = ([true; true; false; true], Some c) /\ Z.of_nat (size (validSigs Schnorr c)) <= 1.
Proof.
  intros pk h.
  apply (sigCache_never_changes_verdict (@Schnorr toyCrypto) 1
    [(h, pk ++ h, pk); (h, pk ++ h, pk); (h, pk, pk); (pk, pk ++ pk, pk)]). lia.
Defined.

Definition sampleCall : verifyCall :=
  MkCall (replicate 32 (zb 2)) (replicate 1312 (zb 1)) (replicate 2420 (zb 2)).

(** Two calls for the same signature: the second finds what the first stored. *)
Lemma mldsa44_cache_never_changes_verdict_witness :
  exists c ts,
    rtc cstep (NewMLDSA44Cache 4 4, [MkThread sampleCall Start; MkThread sampleCall Start]) (c, ts) /\
    ts !! 1%nat = Some (MkThread sampleCall (Done (true, true))) /\
    (true, true) = (verify None (vc_hash sampleCall) (vc_pk sampleCall) (vc_sig sampleCall)).1.
Proof.
  assert (Hsteps : exists c ts, rtc cstep
      (NewMLDSA44Cache 4 4, [MkThread sampleCall Start; MkThread sampleCall Start]) (c, ts) /\
    ts !! 1%nat = Some (MkThread sampleCall (Done (true, true)))).
  { do 2 eexists. split.
    - eapply rtc_l; [apply (cstep_lookup _ _ 0%nat); reflexivity|].
      eapply rtc_l; [eapply (cstep_store _ _ 0%nat); reflexivity|].
      eapply rtc_l; [apply (cstep_lookup _ _ 1%nat); reflexivity|]. apply rtc_refl.
    - reflexivity. }
  destruct Hsteps as (c & ts & Hsteps & Hdone). exists c, ts. split; [done|]. split; [done|].
  apply (mldsa44_cache_never_changes_verdict [sampleCall; sampleCall] 4 4 c ts 1 sampleCall);
    [lia|lia| | |exact Hsteps|exact Hdone].
  - repeat constructor.
  - intros r r' Hr Hr'. apply list_elem_of_In in Hr, Hr'. cbn in Hr, Hr'.
    by destruct Hr as [<-|[<-|[]]], Hr' as [<-|[<-|[]]]; split; intros [].
Defined.
