(* ===== verification/Engine.v ===== *)
(** * The script engine

    The virtual machine of [src/domain/consensus/utils/txscript]: the [Engine] of
    [engine.go] and the opcode handlers of [opcode.go].

    A method of [*Engine] is a computation on the [Engine] record.  The record has
    the fields of the Go struct; [sigHashReusedValues] and the caches, pointers in
    Go, are kept by value (a nil cache is [None]), since one engine uses them at a
    time.  A handler stored in the opcode table is a tag of [opfunc], and
    [run_opfunc] is the call of the stored function. *)

From S2P Require Import Prelude ScriptError ScriptNum Stack OpcodeTable Script ScriptBuilder.
From S2P Require Import Transaction Sha256 Crypto SigHash SigCache.

Section Engine.
Context `{Crypto}.

Definition MaxStackSize : Z := 244.

(** The values of the conditional stack. *)
Definition OpCondFalse : Z := 0.
Definition OpCondTrue : Z := 1.
Definition OpCondSkip : Z := 2.

Record Engine : Type := MkEngine {
  scriptVersion : Z;
  scripts : list (list parsedOpcode);
  scriptIdx : Z;
  scriptOff : Z;
  dstack : stack;
  astack : stack;
  vm_tx : DomainTransaction;
  txIdx : Z;
  condStack : list Z;
  numOps : Z;
  flags : ScriptFlags;
  sigCache : option (SigCache Schnorr);
  sigCacheECDSA : option SigCacheECDSA;
  mldsa44Cache : option MLDSA44Cache;
  sigHashReusedValues : SighashReusedValues;
  isP2SH : bool;
  savedFirstStack : list bytes
}.

(** Assignments to one field. *)
Definition set_scripts (v : list (list parsedOpcode)) (vm : Engine) : Engine :=
  MkEngine (scriptVersion vm) v (scriptIdx vm) (scriptOff vm) (dstack vm) (astack vm) (vm_tx vm)
    (txIdx vm) (condStack vm) (numOps vm) (flags vm) (sigCache vm) (sigCacheECDSA vm)
    (mldsa44Cache vm) (sigHashReusedValues vm) (isP2SH vm) (savedFirstStack vm).
Definition set_pc (idx off : Z) (vm : Engine) : Engine :=
  MkEngine (scriptVersion vm) (scripts vm) idx off (dstack vm) (astack vm) (vm_tx vm)
    (txIdx vm) (condStack vm) (numOps vm) (flags vm) (sigCache vm) (sigCacheECDSA vm)
    (mldsa44Cache vm) (sigHashReusedValues vm) (isP2SH vm) (savedFirstStack vm).
Definition set_dstack (v : stack) (vm : Engine) : Engine :=
  MkEngine (scriptVersion vm) (scripts vm) (scriptIdx vm) (scriptOff vm) v (astack vm) (vm_tx vm)
    (txIdx vm) (condStack vm) (numOps vm) (flags vm) (sigCache vm) (sigCacheECDSA vm)
    (mldsa44Cache vm) (sigHashReusedValues vm) (isP2SH vm) (savedFirstStack vm).
Definition set_astack (v : stack) (vm : Engine) : Engine :=
  MkEngine (scriptVersion vm) (scripts vm) (scriptIdx vm) (scriptOff vm) (dstack vm) v (vm_tx vm)
    (txIdx vm) (condStack vm) (numOps vm) (flags vm) (sigCache vm) (sigCacheECDSA vm)
    (mldsa44Cache vm) (sigHashReusedValues vm) (isP2SH vm) (savedFirstStack vm).
Definition set_condStack (v : list Z) (vm : Engine) : Engine :=
  MkEngine (scriptVersion vm) (scripts vm) (scriptIdx vm) (scriptOff vm) (dstack vm) (astack vm)
    (vm_tx vm) (txIdx vm) v (numOps vm) (flags vm) (sigCache vm) (sigCacheECDSA vm)
    (mldsa44Cache vm) (sigHashReusedValues vm) (isP2SH vm) (savedFirstStack vm).
Definition set_numOps (v : Z) (vm : Engine) : Engine :=
  MkEngine (scriptVersion vm) (scripts vm) (scriptIdx vm) (scriptOff vm) (dstack vm) (astack vm)
    (vm_tx vm) (txIdx vm) (condStack vm) v (flags vm) (sigCache vm) (sigCacheECDSA vm)
    (mldsa44Cache vm) (sigHashReusedValues vm) (isP2SH vm) (savedFirstStack vm).
Definition set_sigCache (v : option (SigCache Schnorr)) (vm : Engine) : Engine :=
  MkEngine (scriptVersion vm) (scripts vm) (scriptIdx vm) (scriptOff vm) (dstack vm) (astack vm)
    (vm_tx vm) (txIdx vm) (condStack vm) (numOps vm) (flags vm) v (sigCacheECDSA vm)
    (mldsa44Cache vm) (sigHashReusedValues vm) (isP2SH vm) (savedFirstStack vm).
Definition set_sigCacheECDSA (v : option SigCacheECDSA) (vm : Engine) : Engine :=
  MkEngine (scriptVersion vm) (scripts vm) (scriptIdx vm) (scriptOff vm) (dstack vm) (astack vm)
    (vm_tx vm) (txIdx vm) (condStack vm) (numOps vm) (flags vm) (sigCache vm) v
    (mldsa44Cache vm) (sigHashReusedValues vm) (isP2SH vm) (savedFirstStack vm).
Definition set_mldsa44Cache (v : option MLDSA44Cache) (vm : Engine) : Engine :=
  MkEngine (scriptVersion vm) (scripts vm) (scriptIdx vm) (scriptOff vm) (dstack vm) (astack vm)
    (vm_tx vm) (txIdx vm) (condStack vm) (numOps vm) (flags vm) (sigCache vm) (sigCacheECDSA vm)
    v (sigHashReusedValues vm) (isP2SH vm) (savedFirstStack vm).
Definition set_sigHashReusedValues (v : SighashReusedValues) (vm : Engine) : Engine :=
  MkEngine (scriptVersion vm) (scripts vm) (scriptIdx vm) (scriptOff vm) (dstack vm) (astack vm)
    (vm_tx vm) (txIdx vm) (condStack vm) (numOps vm) (flags vm) (sigCache vm) (sigCacheECDSA vm)
    (mldsa44Cache vm) v (isP2SH vm) (savedFirstStack vm).
Definition set_savedFirstStack (v : list bytes) (vm : Engine) : Engine :=
  MkEngine (scriptVersion vm) (scripts vm) (scriptIdx vm) (scriptOff vm) (dstack vm) (astack vm)
    (vm_tx vm) (txIdx vm) (condStack vm) (numOps vm) (flags vm) (sigCache vm) (sigCacheECDSA vm)
    (mldsa44Cache vm) (sigHashReusedValues vm) (isP2SH vm) v.

(** Calls on [vm.dstack], [vm.astack] and [vm.sigHashReusedValues]. *)
Definition onD {A} (m : M stack error A) : M Engine error A := zoom dstack set_dstack m.
Definition onA {A} (m : M stack error A) : M Engine error A := zoom astack set_astack m.
Definition onReused {A} (m : sighash A) : M Engine error A :=
  zoom sigHashReusedValues set_sigHashReusedValues m.

Definition handler : Type := parsedOpcode -> M Engine error unit.

(** [vm.condStack[len(vm.condStack)-1]] *)
Definition condTop (l : list Z) : M Engine error Z := index l (len l - 1).

Definition branchExecuting (conds : list Z) : bool :=
  if len conds =? 0 then true
  else nth (List.length conds - 1) conds OpCondFalse =? OpCondTrue.

Definition isBranchExecuting : M Engine error bool := gets (fun vm => branchExecuting (condStack vm)).

(** ** Constant and control handlers *)

Definition opcodeDisabled : handler := fun _ => scriptError ErrDisabledOpcode.
Definition opcodeReserved : handler := fun _ => scriptError ErrReservedOpcode.
Definition opcodeInvalid : handler := fun _ => scriptError ErrReservedOpcode.
Definition opcodeFalse : handler := fun _ => onD (PushByteArray []).
Definition opcodePushData : handler := fun op => onD (PushByteArray (pop_data op)).
Definition opcode1Negate : handler := fun _ => onD (PushInt (-1)).
Definition opcodeN : handler := fun op => onD (PushInt (u8 (pop_value op - (Op1 - 1)))).
Definition opcodeNop : handler := fun _ => ret tt.

Definition popIfBool : M Engine error bool :=
  so <- onD PopByteArray ;;
  if (len so =? 1) && (byte0 so =? 0x01) then ret true
  else if len so =? 0 then ret false
  else scriptError ErrMinimalIf.

Definition opcodeIf : handler := fun _ =>
  executing <- isBranchExecuting ;;
  condVal <- (if executing : bool then
                ok <- popIfBool ;;
                ret (if ok : bool then OpCondTrue else OpCondFalse)
              else ret OpCondSkip) ;;
  modify (fun vm => set_condStack (condStack vm ++ [condVal]) vm).

Definition opcodeNotIf : handler := fun _ =>
  executing <- isBranchExecuting ;;
  condVal <- (if executing : bool then
                ok <- popIfBool ;;
                ret (if negb ok then OpCondTrue else OpCondFalse)
              else ret OpCondSkip) ;;
  modify (fun vm => set_condStack (condStack vm ++ [condVal]) vm).

Definition opcodeElse : handler := fun _ =>
  conds <- gets condStack ;;
  if len conds =? 0 then scriptError ErrUnbalancedConditional
  else
    let conditionalIdx := len conds - 1 in
    c <- condTop conds ;;
    if c =? OpCondTrue then
      modify (set_condStack (<[Z.to_nat conditionalIdx := OpCondFalse]> conds))
    else if c =? OpCondFalse then
      modify (set_condStack (<[Z.to_nat conditionalIdx := OpCondTrue]> conds))
    else ret tt.

Definition opcodeEndif : handler := fun _ =>
  conds <- gets condStack ;;
  if len conds =? 0 then scriptError ErrUnbalancedConditional
  else modify (set_condStack (take (Z.to_nat (len conds - 1)) conds)).

Definition abstractVerify (c : ErrorCode) : M Engine error unit :=
  verified <- onD PopBool ;;
  if negb verified then scriptError c else ret tt.

Definition opcodeVerify : handler := fun _ => abstractVerify ErrVerify.
Definition opcodeReturn : handler := fun _ => scriptError ErrEarlyReturn.

(** ** Lock times *)

Definition verifyLockTime {S} (txLockTime lockTime : Z) : M S error unit :=
  guard_err (txLockTime <? lockTime) (ScriptError ErrUnsatisfiedLockTime).

Definition verifyLockTimeThreshold {S} (txLockTime threshold lockTime : Z) : M S error unit :=
  guard_err (negb (((txLockTime <? threshold) && (lockTime <? threshold))
                   || ((threshold <=? txLockTime) && (threshold <=? lockTime))))
    (ScriptError ErrUnsatisfiedLockTime).

Definition verifyLockTimeWithThreshold {S} (txLockTime threshold lockTime : Z) : M S error unit :=
  verifyLockTimeThreshold txLockTime threshold lockTime ;;;
  verifyLockTime txLockTime lockTime.

(** [copy] into eight zero bytes, then [binary.LittleEndian.Uint64]. *)
Definition uint64OfPadded (b : bytes) : Z :=
  le_combine (b ++ replicate (8 - List.length b) (zb 0)).

Definition opcodeCheckLockTimeVerify : handler := fun _ =>
  lockTimeBytes <- onD PopByteArray ;;
  guard_err (8 <? len lockTimeBytes) (ScriptError ErrNumberTooBig) ;;;
  let stackLockTime := uint64OfPadded lockTimeBytes in
  tx <- gets vm_tx ;;
  idx <- gets txIdx ;;
  verifyLockTimeWithThreshold (LockTime tx) LockTimeThreshold stackLockTime ;;;
  txIn <- index (Inputs tx) idx ;;
  guard_err (Sequence txIn =? MaxTxInSequenceNum) (ScriptError ErrUnsatisfiedLockTime).

Definition opcodeCheckSequenceVerify : handler := fun _ =>
  sequenceBytes <- onD PopByteArray ;;
  guard_err (8 <? len sequenceBytes) (ScriptError ErrNumberTooBig) ;;;
  let stackSequence := uint64OfPadded sequenceBytes in
  if negb (Z.land stackSequence SequenceLockTimeDisabled =? 0) then ret tt
  else
    tx <- gets vm_tx ;;
    idx <- gets txIdx ;;
    txIn <- index (Inputs tx) idx ;;
    let txSequence := Sequence txIn in
    guard_err (negb (Z.land txSequence SequenceLockTimeDisabled =? 0))
      (ScriptError ErrUnsatisfiedLockTime) ;;;
    let maskedTxSequence := Z.land txSequence SequenceLockTimeMask in
    let maskedStackSequence := Z.land stackSequence SequenceLockTimeMask in
    verifyLockTime maskedTxSequence maskedStackSequence.

(** ** Stack handlers *)

Definition opcodeToAltStack : handler := fun _ =>
  so <- onD PopByteArray ;;
  onA (PushByteArray so).
Definition opcodeFromAltStack : handler := fun _ =>
  so <- onA PopByteArray ;;
  onD (PushByteArray so).
Definition opcode2Drop : handler := fun _ => onD (DropN 2).
Definition opcode2Dup : handler := fun _ => onD (DupN 2).
Definition opcode3Dup : handler := fun _ => onD (DupN 3).
Definition opcode2Over : handler := fun _ => onD (OverN 2).
Definition opcode2Rot : handler := fun _ => onD (RotN 2).
Definition opcode2Swap : handler := fun _ => onD (SwapN 2).
Definition opcodeIfDup : handler := fun _ =>
  so <- onD (PeekByteArray 0) ;;
  if asBool so then onD (PushByteArray so) else ret tt.
Definition opcodeDepth : handler := fun _ =>
  depth <- onD Depth ;;
  onD (PushInt depth).
Definition opcodeDrop : handler := fun _ => onD (DropN 1).
Definition opcodeDup : handler := fun _ => onD (DupN 1).
Definition opcodeNip : handler := fun _ => onD (NipN 1).
Definition opcodeOver : handler := fun _ => onD (OverN 1).
Definition opcodePick : handler := fun _ =>
  val <- onD PopInt ;;
  onD (PickN (scriptNum_Int32 val)).
Definition opcodeRoll : handler := fun _ =>
  val <- onD PopInt ;;
  onD (RollN (scriptNum_Int32 val)).
Definition opcodeRot : handler := fun _ => onD (RotN 1).
Definition opcodeSwap : handler := fun _ => onD (SwapN 1).
Definition opcodeTuck : handler := fun _ => onD Tuck.
Definition opcodeSize : handler := fun _ =>
  so <- onD (PeekByteArray 0) ;;
  onD (PushInt (len so)).

Definition opcodeEqual : handler := fun _ =>
  a <- onD PopByteArray ;;
  b <- onD PopByteArray ;;
  onD (PushBool (bool_decide (a = b))).

Definition opcodeEqualVerify : handler := fun op =>
  opcodeEqual op ;;;
  abstractVerify ErrEqualVerify.

(** ** Arithmetic handlers *)

Definition opcode1Add : handler := fun _ =>
  m <- onD PopInt ;;
  onD (PushInt (i64 (m + 1))).
Definition opcode2Mul : handler := fun _ =>
  v <- onD PopInt ;;
  onD (PushInt (i64 (v * 2))).
Definition opcode2Div : handler := fun _ =>
  v <- onD PopInt ;;
  onD (PushInt (i64 (Z.quot v 2))).
Definition opcode1Sub : handler := fun _ =>
  m <- onD PopInt ;;
  onD (PushInt (i64 (m - 1))).
Definition opcodeNegate : handler := fun _ =>
  m <- onD PopInt ;;
  onD (PushInt (i64 (- m))).
Definition opcodeAbs : handler := fun _ =>
  m <- onD PopInt ;;
  let m := if m <? 0 then i64 (- m) else m in
  onD (PushInt m).
Definition opcodeNot : handler := fun _ =>
  m <- onD PopInt ;;
  if m =? 0 then onD (PushInt 1) else onD (PushInt 0).
Definition opcode0NotEqual : handler := fun _ =>
  m <- onD PopInt ;;
  let m := if negb (m =? 0) then 1 else m in
  onD (PushInt m).

(** The handlers that pop [v0] from the top and [v1] below it. *)
Definition opcodeAdd : handler := fun _ =>
  v0 <- onD PopInt ;;
  v1 <- onD PopInt ;;
  onD (PushInt (i64 (v0 + v1))).
Definition opcodeSub : handler := fun _ =>
  v0 <- onD PopInt ;;
  v1 <- onD PopInt ;;
  onD (PushInt (i64 (v1 - v0))).
Definition opcodeMul : handler := fun _ =>
  v0 <- onD PopInt ;;
  v1 <- onD PopInt ;;
  onD (PushInt (i64 (v0 * v1))).
Definition opcodeDiv : handler := fun _ =>
  denom <- onD PopInt ;;
  numer <- onD PopInt ;;
  if denom =? 0 then scriptError ErrInvalidStackOperation
  else onD (PushInt (i64 (Z.quot numer denom))).
Definition opcodeMod : handler := fun _ =>
  denom <- onD PopInt ;;
  numer <- onD PopInt ;;
  if denom =? 0 then scriptError ErrInvalidStackOperation
  else onD (PushInt (Z.rem numer denom)).
Definition opcodeLShift : handler := fun _ =>
  shiftBy <- onD PopInt ;;
  value <- onD PopInt ;;
  if (shiftBy <? 0) || (63 <? shiftBy) then scriptError ErrInvalidStackOperation
  else onD (PushInt (i64 (Z.shiftl value shiftBy))).
Definition opcodeRShift : handler := fun _ =>
  shiftBy <- onD PopInt ;;
  value <- onD PopInt ;;
  if (shiftBy <? 0) || (63 <? shiftBy) then scriptError ErrInvalidStackOperation
  else onD (PushInt (Z.shiftr value shiftBy)).
Definition opcodeBoolAnd : handler := fun _ =>
  v0 <- onD PopInt ;;
  v1 <- onD PopInt ;;
  if negb (v0 =? 0) && negb (v1 =? 0) then onD (PushInt 1) else onD (PushInt 0).
Definition opcodeBoolOr : handler := fun _ =>
  v0 <- onD PopInt ;;
  v1 <- onD PopInt ;;
  if negb (v0 =? 0) || negb (v1 =? 0) then onD (PushInt 1) else onD (PushInt 0).
Definition opcodeNumEqual : handler := fun _ =>
  v0 <- onD PopInt ;;
  v1 <- onD PopInt ;;
  if v0 =? v1 then onD (PushInt 1) else onD (PushInt 0).
Definition opcodeNumEqualVerify : handler := fun op =>
  opcodeNumEqual op ;;;
  abstractVerify ErrNumEqualVerify.
Definition opcodeNumNotEqual : handler := fun _ =>
  v0 <- onD PopInt ;;
  v1 <- onD PopInt ;;
  if negb (v0 =? v1) then onD (PushInt 1) else onD (PushInt 0).
Definition opcodeLessThan : handler := fun _ =>
  v0 <- onD PopInt ;;
  v1 <- onD PopInt ;;
  if v1 <? v0 then onD (PushInt 1) else onD (PushInt 0).
Definition opcodeGreaterThan : handler := fun _ =>
  v0 <- onD PopInt ;;
  v1 <- onD PopInt ;;
  if v1 >? v0 then onD (PushInt 1) else onD (PushInt 0).
Definition opcodeLessThanOrEqual : handler := fun _ =>
  v0 <- onD PopInt ;;
  v1 <- onD PopInt ;;
  if v1 <=? v0 then onD (PushInt 1) else onD (PushInt 0).
Definition opcodeGreaterThanOrEqual : handler := fun _ =>
  v0 <- onD PopInt ;;
  v1 <- onD PopInt ;;
  if v1 >=? v0 then onD (PushInt 1) else onD (PushInt 0).
Definition opcodeMin : handler := fun _ =>
  v0 <- onD PopInt ;;
  v1 <- onD PopInt ;;
  if v1 <? v0 then onD (PushInt v1) else onD (PushInt v0).
Definition opcodeMax : handler := fun _ =>
  v0 <- onD PopInt ;;
  v1 <- onD PopInt ;;
  if v1 >? v0 then onD (PushInt v1) else onD (PushInt v0).
Definition opcodeWithin : handler := fun _ =>
  maxVal <- onD PopInt ;;
  minVal <- onD PopInt ;;
  x <- onD PopInt ;;
  if (x >=? minVal) && (x <? maxVal) then onD (PushInt 1) else onD (PushInt 0).

(** ** Hash handlers *)

Definition opcodeSha256 : handler := fun _ =>
  buf <- onD PopByteArray ;;
  onD (PushByteArray (Sum256 buf)).
Definition opcodeBlake2b : handler := fun _ =>
  buf <- onD PopByteArray ;;
  onD (PushByteArray (blake2b_Sum256 buf)).

(** ** Signature handlers *)

Definition checkPubKeyEncoding {S} (pubKey : bytes) : M S error unit :=
  if len pubKey =? 32 then ret tt else scriptError ErrPubKeyFormat.
Definition checkPubKeyEncodingECDSA {S} (pubKey : bytes) : M S error unit :=
  if len pubKey =? 33 then ret tt else scriptError ErrPubKeyFormat.
Definition checkSignatureLength {S} (sig : bytes) : M S error unit :=
  guard_err (negb (len sig =? 64)) (ScriptError ErrSigLength).
Definition checkSignatureLengthECDSA {S} (sig : bytes) : M S error unit :=
  guard_err (negb (len sig =? 64)) (ScriptError ErrSigLength).
Definition checkPubKeyEncodingMLDSA44 {S} (pubKey : bytes) : M S error unit :=
  if len pubKey =? mldsa44_PublicKeySize then ret tt else scriptError ErrPubKeyFormat.
Definition checkSignatureLengthMLDSA44 {S} (sig : bytes) : M S error unit :=
  guard_err (negb (len sig =? mldsa44_SignatureSize)) (ScriptError ErrSigLength).

Definition isMLDSA44ElementSize (size : Z) : bool :=
  (size =? mldsa44_PublicKeySize) || (size =? mldsa44_SignatureSize + 1).

(** The Schnorr and the ECDSA handlers are the same code over the operations of
    this record. *)
Record EngineScheme : Type := MkEngineScheme {
  es_scheme : SigScheme;
  es_cache : Engine -> option (SigCache es_scheme);
  es_setCache : option (SigCache es_scheme) -> Engine -> Engine;
  es_sighash : DomainTransaction -> Z -> Z -> sighash bytes;
  es_checkSignatureLength : bytes -> M Engine error unit;
  es_checkPubKeyEncoding : bytes -> M Engine error unit
}.

Definition engineSchnorr : EngineScheme :=
  MkEngineScheme Schnorr sigCache set_sigCache CalculateSignatureHashSchnorr
    checkSignatureLength checkPubKeyEncoding.
Definition engineECDSA : EngineScheme :=
  MkEngineScheme ECDSA sigCacheECDSA set_sigCacheECDSA CalculateSignatureHashECDSA
    checkSignatureLengthECDSA checkPubKeyEncodingECDSA.

(** [fullSig[len(fullSig)-1]] and [fullSig[:len(fullSig)-1]] of a non-empty slice. *)
Definition sigHashTypeOf (fullSig : bytes) : Z := bz (List.last fullSig (zb 0)).
Definition sigBytesOf (fullSig : bytes) : bytes := take (List.length fullSig - 1) fullSig.

Definition verifySignature (es : EngineScheme) (secpHash : bytes)
    (signature : Signature (es_scheme es)) (pubKey : PublicKey (es_scheme es))
  : M Engine error bool := fun vm =>
  let '(valid, cache) := cachedVerify (es_scheme es) (es_cache es vm) secpHash signature pubKey in
  (Ret valid, es_setCache es cache vm).

Definition checkSig (es : EngineScheme) : M Engine error unit :=
  pkBytes <- onD PopByteArray ;;
  fullSigBytes <- onD PopByteArray ;;
  if len fullSigBytes <? 1 then onD (PushBool false)
  else
    let hashType := sigHashTypeOf fullSigBytes in
    let sigBytes := sigBytesOf fullSigBytes in
    if negb (IsStandardSigHashType hashType) then scriptError ErrInvalidSigHashType
    else
      es_checkSignatureLength es sigBytes ;;;
      es_checkPubKeyEncoding es pkBytes ;;;
      tx <- gets vm_tx ;;
      idx <- gets txIdx ;;
      r <- try (onReused (es_sighash es tx idx hashType)) ;;
      match r with
      | inr _ => onD (PushBool false)
      | inl sigHash =>
          match DeserializePubKey (es_scheme es) pkBytes with
          | None => onD (PushBool false)
          | Some pubKey =>
              match DeserializeSignatureFromSlice (es_scheme es) sigBytes with
              | None => onD (PushBool false)
              | Some signature =>
                  valid <- verifySignature es sigHash signature pubKey ;;
                  if negb valid && (0 <? len sigBytes) then scriptError ErrNullFail
                  else onD (PushBool valid)
              end
          end
      end.

Definition opcodeCheckSig : handler := fun _ => checkSig engineSchnorr.
Definition opcodeCheckSigECDSA : handler := fun _ => checkSig engineECDSA.

Definition opcodeCheckSigMLDSA44 : handler := fun _ =>
  vmFlags <- gets flags ;;
  if Z.land vmFlags ScriptEnableMLDSA44 =? 0 then scriptError ErrReservedOpcode
  else
    pkBytes <- onD PopByteArray ;;
    fullSigBytes <- onD PopByteArray ;;
    if len fullSigBytes <? 1 then onD (PushBool false)
    else
      let hashType := sigHashTypeOf fullSigBytes in
      let sigBytes := sigBytesOf fullSigBytes in
      if negb (IsStandardSigHashType hashType) then scriptError ErrInvalidSigHashType
      else
        checkSignatureLengthMLDSA44 sigBytes ;;;
        checkPubKeyEncodingMLDSA44 pkBytes ;;;
        tx <- gets vm_tx ;;
        idx <- gets txIdx ;;
        r <- try (onReused (CalculateSignatureHashMLDSA44 tx idx hashType)) ;;
        match r with
        | inr _ => onD (PushBool false)
        | inl sigHash =>
            cache <- gets mldsa44Cache ;;
            let '((valid, parsed), cache') := verify cache sigHash pkBytes sigBytes in
            modify (set_mldsa44Cache cache') ;;;
            if negb parsed then onD (PushBool false)
            else if negb valid then scriptError ErrNullFail
            else onD (PushBool true)
        end.

Definition opcodeCheckSigVerify : handler := fun op =>
  opcodeCheckSig op ;;;
  abstractVerify ErrCheckSigVerify.

(** ** Multisig *)

Record parsedSigInfo (sc : SigScheme) : Type := MkSigInfo {
  si_signature : bytes;
  si_parsedSignature : option (Signature sc);
  si_parsed : bool
}.
Arguments MkSigInfo {sc}.
Arguments si_signature {sc}.
Arguments si_parsedSignature {sc}.
Arguments si_parsed {sc}.

Definition parsedSigInfoECDSA : Type := parsedSigInfo ECDSA.

(** The part of an iteration that parses the signature, once; the parsed
    signature is [None] when the iteration continues with the next key. *)
Definition parseSigInfo (es : EngineScheme) (sigInfo : parsedSigInfo (es_scheme es))
  : M Engine error (parsedSigInfo (es_scheme es)) :=
  let rawSig := si_signature sigInfo in
  if negb (si_parsed sigInfo) then
    if negb (IsStandardSigHashType (sigHashTypeOf rawSig)) then scriptError ErrInvalidSigHashType
    else
      es_checkSignatureLength es (sigBytesOf rawSig) ;;;
      ret (MkSigInfo rawSig (DeserializeSignatureFromSlice (es_scheme es) (sigBytesOf rawSig)) true)
  else ret sigInfo.

(** The body of the loop after its two indexings: whether the signature verified
    under the key, and the signature info as the body leaves it. *)
Definition multiSigBody (es : EngineScheme) (sigInfo : parsedSigInfo (es_scheme es))
    (pubKey : bytes) : M Engine error (bool * parsedSigInfo (es_scheme es)) :=
  if len (si_signature sigInfo) =? 0 then ret (false, sigInfo)
  else
    sigInfo' <- parseSigInfo es sigInfo ;;
    match si_parsedSignature sigInfo' with
    | None => ret (false, sigInfo')
    | Some parsedSig =>
        es_checkPubKeyEncoding es pubKey ;;;
        match DeserializePubKey (es_scheme es) pubKey with
        | None => ret (false, sigInfo')
        | Some parsedPubKey =>
            tx <- gets vm_tx ;;
            idx <- gets txIdx ;;
            sigHash <- onReused (es_sighash es tx idx (sigHashTypeOf (si_signature sigInfo))) ;;
            valid <- verifySignature es sigHash parsedSig parsedPubKey ;;
            ret (valid, sigInfo')
        end
    end.

(** The verification loop; it runs at most [numPubKeys + 1] times, so the fuel
    [checkMultiSig] gives is never used up ([multiSigLoop_refines]). *)
Fixpoint multiSigLoop (es : EngineScheme) (fuel : nat) (pubKeys : list bytes)
    (signatures : list (parsedSigInfo (es_scheme es)))
    (numSignatures numPubKeys pubKeyIdx signatureIdx : Z) : M Engine error bool :=
  match fuel with
  | O => panic
  | S fuel =>
      if 0 <? numSignatures then
        let pubKeyIdx := pubKeyIdx + 1 in
        let numPubKeys := numPubKeys - 1 in
        if numPubKeys <? numSignatures then ret false
        else
          sigInfo <- index signatures signatureIdx ;;
          pubKey <- index pubKeys pubKeyIdx ;;
          r <- multiSigBody es sigInfo pubKey ;;
          let signatures := <[Z.to_nat signatureIdx := r.2]> signatures in
          if r.1 : bool
          then multiSigLoop es fuel pubKeys signatures (numSignatures - 1) numPubKeys pubKeyIdx
                 (signatureIdx + 1)
          else multiSigLoop es fuel pubKeys signatures numSignatures numPubKeys pubKeyIdx
                 signatureIdx
      else ret true
  end.

Definition checkMultiSig (es : EngineScheme) : M Engine error unit :=
  numKeys <- onD PopInt ;;
  let numPubKeys := scriptNum_Int32 numKeys in
  guard_err (numPubKeys <? 0) (ScriptError ErrInvalidPubKeyCount) ;;;
  guard_err (MaxPubKeysPerMultiSig <? numPubKeys) (ScriptError ErrInvalidPubKeyCount) ;;;
  modify (fun vm => set_numOps (numOps vm + numPubKeys) vm) ;;;
  ops <- gets numOps ;;
  guard_err (MaxOpsPerScript <? ops) (ScriptError ErrTooManyOperations) ;;;
  pubKeys <- collectM (Z.to_nat numPubKeys) (onD PopByteArray) ;;
  numSigs <- onD PopInt ;;
  let numSignatures := scriptNum_Int32 numSigs in
  guard_err (numSignatures <? 0) (ScriptError ErrInvalidSignatureCount) ;;;
  guard_err (numPubKeys <? numSignatures) (ScriptError ErrInvalidSignatureCount) ;;;
  signatures <- collectM (Z.to_nat numSignatures) (onD PopByteArray) ;;
  success <- multiSigLoop es (Z.to_nat numPubKeys + 2) pubKeys
    (map (fun signature => MkSigInfo signature None false) signatures)
    numSignatures (numPubKeys + 1) (-1) 0 ;;
  guard_err (negb success && existsb (fun signature => 0 <? len signature) signatures)
    (ScriptError ErrNullFail) ;;;
  onD (PushBool success).

Definition opcodeCheckMultiSig : handler := fun _ => checkMultiSig engineSchnorr.
Definition opcodeCheckMultiSigECDSA : handler := fun _ => checkMultiSig engineECDSA.

Definition opcodeCheckMultiSigVerify : handler := fun op =>
  opcodeCheckMultiSig op ;;;
  abstractVerify ErrCheckMultiSigVerify.

(** ** Running opcodes *)

(** [pop.opcode.opfunc(pop, vm)]; calling a nil function panics. *)
Definition run_opfunc (f : opfunc) : handler := fun op =>
  match f with
  | f_opcodeFalse => opcodeFalse op
  | f_opcodePushData => opcodePushData op
  | f_opcode1Negate => opcode1Negate op
  | f_opcodeReserved => opcodeReserved op
  | f_opcodeN => opcodeN op
  | f_opcodeNop => opcodeNop op
  | f_opcodeIf => opcodeIf op
  | f_opcodeNotIf => opcodeNotIf op
  | f_opcodeElse => opcodeElse op
  | f_opcodeEndif => opcodeEndif op
  | f_opcodeVerify => opcodeVerify op
  | f_opcodeReturn => opcodeReturn op
  | f_opcodeCheckLockTimeVerify => opcodeCheckLockTimeVerify op
  | f_opcodeCheckSequenceVerify => opcodeCheckSequenceVerify op
  | f_opcodeToAltStack => opcodeToAltStack op
  | f_opcodeFromAltStack => opcodeFromAltStack op
  | f_opcode2Drop => opcode2Drop op
  | f_opcode2Dup => opcode2Dup op
  | f_opcode3Dup => opcode3Dup op
  | f_opcode2Over => opcode2Over op
  | f_opcode2Rot => opcode2Rot op
  | f_opcode2Swap => opcode2Swap op
  | f_opcodeIfDup => opcodeIfDup op
  | f_opcodeDepth => opcodeDepth op
  | f_opcodeDrop => opcodeDrop op
  | f_opcodeDup => opcodeDup op
  | f_opcodeNip => opcodeNip op
  | f_opcodeOver => opcodeOver op
  | f_opcodePick => opcodePick op
  | f_opcodeRoll => opcodeRoll op
  | f_opcodeRot => opcodeRot op
  | f_opcodeSwap => opcodeSwap op
  | f_opcodeTuck => opcodeTuck op
  | f_opcodeDisabled => opcodeDisabled op
  | f_opcodeSize => opcodeSize op
  | f_opcodeEqual => opcodeEqual op
  | f_opcodeEqualVerify => opcodeEqualVerify op
  | f_opcode1Add => opcode1Add op
  | f_opcode1Sub => opcode1Sub op
  | f_opcode2Mul => opcode2Mul op
  | f_opcode2Div => opcode2Div op
  | f_opcodeNegate => opcodeNegate op
  | f_opcodeAbs => opcodeAbs op
  | f_opcodeNot => opcodeNot op
  | f_opcode0NotEqual => opcode0NotEqual op
  | f_opcodeAdd => opcodeAdd op
  | f_opcodeSub => opcodeSub op
  | f_opcodeMul => opcodeMul op
  | f_opcodeDiv => opcodeDiv op
  | f_opcodeMod => opcodeMod op
  | f_opcodeLShift => opcodeLShift op
  | f_opcodeRShift => opcodeRShift op
  | f_opcodeBoolAnd => opcodeBoolAnd op
  | f_opcodeBoolOr => opcodeBoolOr op
  | f_opcodeNumEqual => opcodeNumEqual op
  | f_opcodeNumEqualVerify => opcodeNumEqualVerify op
  | f_opcodeNumNotEqual => opcodeNumNotEqual op
  | f_opcodeLessThan => opcodeLessThan op
  | f_opcodeGreaterThan => opcodeGreaterThan op
  | f_opcodeLessThanOrEqual => opcodeLessThanOrEqual op
  | f_opcodeGreaterThanOrEqual => opcodeGreaterThanOrEqual op
  | f_opcodeMin => opcodeMin op
  | f_opcodeMax => opcodeMax op
  | f_opcodeWithin => opcodeWithin op
  | f_opcodeCheckMultiSigECDSA => opcodeCheckMultiSigECDSA op
  | f_opcodeSha256 => opcodeSha256 op
  | f_opcodeBlake2b => opcodeBlake2b op
  | f_opcodeCheckSigECDSA => opcodeCheckSigECDSA op
  | f_opcodeCheckSig => opcodeCheckSig op
  | f_opcodeCheckSigVerify => opcodeCheckSigVerify op
  | f_opcodeCheckMultiSig => opcodeCheckMultiSig op
  | f_opcodeCheckMultiSigVerify => opcodeCheckMultiSigVerify op
  | f_opcodeCheckSigMLDSA44 => opcodeCheckSigMLDSA44 op
  | f_opcodeInvalid => opcodeInvalid op
  | f_nil => panic
  end.

Definition executeOpcode : handler := fun pop =>
  vmFlags <- gets flags ;;
  guard_err (isDisabled pop && (Z.land vmFlags ScriptEnableDisabledOpcodes =? 0))
    (ScriptError ErrDisabledOpcode) ;;;
  guard_err (alwaysIllegal pop) (ScriptError ErrReservedOpcode) ;;;
  (if Op16 <? pop_value pop then
     modify (fun vm => set_numOps (numOps vm + 1) vm) ;;;
     ops <- gets numOps ;;
     guard_err (MaxOpsPerScript <? ops) (ScriptError ErrTooManyOperations)
   else
     guard_err ((MaxScriptElementSize <? len (pop_data pop))
                && negb (negb (Z.land vmFlags ScriptEnableMLDSA44 =? 0)
                         && isMLDSA44ElementSize (len (pop_data pop))))
       (ScriptError ErrElementTooBig)) ;;;
  executing <- isBranchExecuting ;;
  if negb executing && negb (isConditional pop) then ret tt
  else
    (if executing && negb (pop_value pop =? 0) && (pop_value pop <=? OpPushData4)
     then checkMinimalDataPush pop else ret tt) ;;;
    run_opfunc (op_func (pop_opcode pop)) pop.

Definition validPC : M Engine error unit :=
  vm <- get ;;
  guard_err (len (scripts vm) <=? scriptIdx vm) (ScriptError ErrInvalidProgramCounter) ;;;
  script <- index (scripts vm) (scriptIdx vm) ;;
  guard_err (len script <=? scriptOff vm) (ScriptError ErrInvalidProgramCounter).

Definition curPC : M Engine error (Z * Z) :=
  validPC ;;;
  gets (fun vm => (scriptIdx vm, scriptOff vm)).

Definition CheckErrorCondition (finalScript : bool) : M Engine error unit :=
  vm <- get ;;
  guard_err (scriptIdx vm <? len (scripts vm)) (ScriptError ErrScriptUnfinished) ;;;
  (if finalScript then
     depth <- onD Depth ;;
     guard_err (1 <? depth) (ScriptError ErrCleanStack) ;;;
     guard_err (depth <? 1) (ScriptError ErrEmptyStack)
   else ret tt) ;;;
  v <- onD PopBool ;;
  guard_err (negb v) (ScriptError ErrEvalFalse).

Definition getStack : M stack error (list bytes) :=
  depth <- Depth ;;
  array <- traverse (fun i =>
             so <- try (PeekByteArray i) ;;
             ret (match so with inl so => so | inr _ => [] end)) (seqZ 0 depth) ;;
  ret (reverse array).

Definition setStack (data : list bytes) : M stack error unit :=
  depth <- Depth ;;
  try (DropN depth) ;;;
  traverse PushByteArray data ;;;
  ret tt.

Definition GetStack : M Engine error (list bytes) := onD getStack.
Definition SetStack (data : list bytes) : M Engine error unit := onD (setStack data).
Definition GetAltStack : M Engine error (list bytes) := onA getStack.
Definition SetAltStack (data : list bytes) : M Engine error unit := onA (setStack data).

Definition parse (script : bytes) : M Engine error (list parsedOpcode) :=
  match ParseScript script with
  | (_, Some e) => scriptError e
  | (pops, None) => ret pops
  end.

(** The end of a script: the switch of [Step] that selects what runs next. *)
Definition nextScript : M Engine error unit :=
  vm <- get ;;
  if (scriptIdx vm =? 0) && isP2SH vm then
    modify (set_pc (scriptIdx vm + 1) 0) ;;;
    saved <- GetStack ;;
    modify (set_savedFirstStack saved)
  else if (scriptIdx vm =? 1) && isP2SH vm then
    modify (set_pc (scriptIdx vm + 1) 0) ;;;
    CheckErrorCondition false ;;;
    saved <- gets savedFirstStack ;;
    script <- index saved (len saved - 1) ;;
    pops <- parse script ;;
    modify (fun vm => set_scripts (scripts vm ++ [pops]) vm) ;;;
    SetStack (take (List.length saved - 1) saved)
  else modify (set_pc (scriptIdx vm + 1) 0).

(** [vm.scriptOff >= len(vm.scripts[vm.scriptIdx])] *)
Definition atScriptEnd : M Engine error bool :=
  vm <- get ;;
  script <- index (scripts vm) (scriptIdx vm) ;;
  ret (len script <=? scriptOff vm).

(** What [Step] does when the script has ended: whether all scripts have. *)
Definition endOfScript : M Engine error bool :=
  conds <- gets condStack ;;
  guard_err (negb (len conds =? 0)) (ScriptError ErrUnbalancedConditional) ;;;
  adepth <- onA Depth ;;
  try (onA (DropN adepth)) ;;;
  modify (set_numOps 0) ;;;
  modify (fun vm => set_pc (scriptIdx vm) 0 vm) ;;;
  nextScript ;;;
  vm <- get ;;
  (if scriptIdx vm <? len (scripts vm) then
     empty <- atScriptEnd ;;
     if empty : bool then modify (fun vm => set_pc (scriptIdx vm + 1) (scriptOff vm) vm)
     else ret tt
   else ret tt) ;;;
  gets (fun vm => len (scripts vm) <=? scriptIdx vm).

Definition Step : M Engine error bool :=
  validPC ;;;
  vm <- get ;;
  script <- index (scripts vm) (scriptIdx vm) ;;
  opcode <- index script (scriptOff vm) ;;
  modify (set_pc (scriptIdx vm) (scriptOff vm + 1)) ;;;
  executeOpcode opcode ;;;
  ddepth <- onD Depth ;;
  adepth <- onA Depth ;;
  guard_err (MaxStackSize <? ddepth + adepth) (ScriptError ErrStackOverflow) ;;;
  ended <- atScriptEnd ;;
  if ended : bool then endOfScript else ret false.

(** The loop of [Execute] with its final check; [None] when the fuel runs out. *)
Fixpoint executeLoop (fuel : nat) (vm : Engine) : option (outcome error unit * Engine) :=
  match fuel with
  | O => None
  | S fuel =>
      match Step vm with
      | (Ret true, vm) => Some (CheckErrorCondition true vm)
      | (Ret false, vm) => executeLoop fuel vm
      | (Err e, vm) => Some (Err e, vm)
      | (Panic, vm) => Some (Panic, vm)
      end
  end.

(** One iteration per opcode of the two scripts and of a redeem script; no script
    has more opcodes than bytes, and no element of the first stack is longer than
    a script ([EngineRun.measure]). *)
Definition executeFuel : nat := 3 * Z.to_nat MaxScriptSize + 1.

Definition Execute (vm : Engine) : option (outcome error unit * Engine) :=
  if MaxScriptPublicKeyVersion <? scriptVersion vm
  then Some (Err (ScriptError ErrUnsupportedScriptVersion), vm)
  else executeLoop executeFuel vm.

(** ** Creating engines *)

Definition parseScriptAndVerifySize (script : bytes) : M Engine error (list parsedOpcode) :=
  guard_err (MaxScriptSize <? len script) (ScriptError ErrScriptTooBig) ;;;
  parse script.

Definition Reset (vm : Engine) : Engine :=
  MkEngine (scriptVersion vm) [] 0 0 [] [] (vm_tx vm) (txIdx vm) [] 0 (flags vm) (sigCache vm)
    (sigCacheECDSA vm) (mldsa44Cache vm) (sigHashReusedValues vm) false [].

Definition Init (scriptPubKey : ScriptPublicKey) (tx : DomainTransaction) (idx : Z)
    (flags : ScriptFlags) (sigCache : option (SigCache Schnorr))
    (sigCacheECDSA : option SigCacheECDSA) (mldsa44Cache : option MLDSA44Cache)
    (reused : SighashReusedValues) : M Engine error unit :=
  guard_err ((idx <? 0) || (len (Inputs tx) <=? idx)) (ScriptError ErrInvalidIndex) ;;;
  txIn <- index (Inputs tx) idx ;;
  let scriptSig := SignatureScript txIn in
  guard_err ((len scriptSig =? 0) && (len (spk_Script scriptPubKey) =? 0))
    (ScriptError ErrEvalFalse) ;;;
  modify (fun vm =>
    MkEngine (spk_Version scriptPubKey) (scripts vm) (scriptIdx vm) (scriptOff vm) (dstack vm)
      (astack vm) (vm_tx vm) (txIdx vm) (condStack vm) (numOps vm) flags sigCache sigCacheECDSA
      mldsa44Cache (sigHashReusedValues vm) (isP2SH vm) (savedFirstStack vm)) ;;;
  guard_err (MaxScriptPublicKeyVersion <? spk_Version scriptPubKey)
    (ScriptError ErrUnsupportedScriptVersion) ;;;
  parsedScriptSig <- parseScriptAndVerifySize scriptSig ;;
  guard_err (negb (isPushOnly parsedScriptSig)) (ScriptError ErrNotPushOnly) ;;;
  parsedScriptPubKey <- parseScriptAndVerifySize (spk_Script scriptPubKey) ;;
  modify (set_scripts [parsedScriptSig; parsedScriptPubKey]) ;;;
  (if len scriptSig =? 0 then modify (fun vm => set_pc (scriptIdx vm + 1) (scriptOff vm) vm)
   else ret tt) ;;;
  (if isScriptHash parsedScriptPubKey then
     guard_err (negb (isPushOnly parsedScriptSig)) (ScriptError ErrNotPushOnly) ;;;
     modify (fun vm =>
       MkEngine (scriptVersion vm) (scripts vm) (scriptIdx vm) (scriptOff vm) (dstack vm)
         (astack vm) (vm_tx vm) (txIdx vm) (condStack vm) (numOps vm) (Engine.flags vm)
         (Engine.sigCache vm) (Engine.sigCacheECDSA vm) (Engine.mldsa44Cache vm)
         (sigHashReusedValues vm) true (savedFirstStack vm))
   else ret tt) ;;;
  modify (fun vm =>
    MkEngine (scriptVersion vm) (scripts vm) (scriptIdx vm) (scriptOff vm) (dstack vm)
      (astack vm) tx idx (condStack vm) (numOps vm) (Engine.flags vm) (Engine.sigCache vm)
      (Engine.sigCacheECDSA vm) (Engine.mldsa44Cache vm) reused (isP2SH vm) (savedFirstStack vm)).

(** [&Engine{}]: the zero values of the fields. *)
Definition zeroTransaction : DomainTransaction :=
  MkTransaction 0 [] [] 0 SubnetworkIDNative 0 [] 0 0 None.
Definition zeroEngine : Engine :=
  MkEngine 0 [] 0 0 [] [] zeroTransaction 0 [] 0 0 None None None emptyReused false [].

Definition NewEngine (scriptPubKey : ScriptPublicKey) (tx : DomainTransaction) (idx : Z)
    (flags : ScriptFlags) (sigCache : option (SigCache Schnorr))
    (sigCacheECDSA : option SigCacheECDSA) (mldsa44Cache : option MLDSA44Cache)
    (reused : SighashReusedValues) : outcome error Engine :=
  match Init scriptPubKey tx idx flags sigCache sigCacheECDSA mldsa44Cache reused zeroEngine with
  | (Ret _, vm) => Ret vm
  | (Err e, _) => Err e
  | (Panic, _) => Panic
  end.
End Engine.

Arguments MkSigInfo {_} _ _ _.
Arguments si_signature {_} _.
Arguments si_parsedSignature {_} _.
Arguments si_parsed {_} _.

(** Fields of an engine after assignments. *)
Ltac vm_simpl :=
  cbn [dstack astack condStack numOps vm_tx txIdx flags sigCache sigCacheECDSA mldsa44Cache
       sigHashReusedValues isP2SH savedFirstStack scripts scriptIdx scriptOff scriptVersion
       set_dstack set_astack set_condStack set_numOps set_sigCache set_sigCacheECDSA
       set_mldsa44Cache set_sigHashReusedValues set_pc set_scripts set_savedFirstStack] in *.
