(* ===== verification/EngineSafety.v ===== *)
(** * Safety of the script engine

    No opcode panics, and the limits of the engine hold in every state it
    reaches.  [ok] is what every handler keeps: reused values and cache entries
    that are valid, an operation count within its limit, and an input with a
    populated UTXO entry.  [fixed] collects the fields no handler assigns. *)

From S2P Require Import Prelude ScriptError ScriptNum Stack OpcodeTable Script ScriptBuilder.
From S2P Require Import Transaction Sha256 Serialization Crypto SigHash SigCache Engine.

Section Safety.
Context `{Crypto} {HS : CryptoSpec H}.

Definition fixed (vm : Engine) :=
  (scriptVersion vm, scripts vm, scriptIdx vm, scriptOff vm, vm_tx vm, txIdx vm, flags vm,
   isP2SH vm, savedFirstStack vm).

Definition room (vm : Engine) : Z := len (dstack vm) + len (astack vm).

Definition caches_ok (vm : Engine) : Prop :=
  (forall s, sigCache vm = Some s -> valid_cache Schnorr s) /\
  (forall s, sigCacheECDSA vm = Some s -> valid_cache ECDSA s).

(** The input at the index exists and its UTXO entry is populated. *)
Definition spends (tx : DomainTransaction) (idx : Z) : Prop :=
  0 <= idx /\ exists txIn e, Inputs tx !! Z.to_nat idx = Some txIn /\ in_UTXOEntry txIn = Some e.

(** Stack items are no longer than a script. *)
Definition small (b : bytes) : Prop := len b <= MaxScriptSize.

Definition ok (vm : Engine) : Prop :=
  Forall small (dstack vm) /\ Forall small (astack vm) /\
  valid_reused (vm_tx vm) (sigHashReusedValues vm) /\ caches_ok vm /\
  0 <= numOps vm <= MaxOpsPerScript /\ spends (vm_tx vm) (txIdx vm).

(** What a handler does at most: the stacks grow by [n] items. *)
Definition hpost (n : Z) (vm vm' : Engine) : Prop :=
  fixed vm' = fixed vm /\ ok vm' /\ room vm' <= room vm + n.

Lemma hpost_trans n m k vm1 vm2 vm3 :
  n + m <= k -> hpost n vm1 vm2 -> hpost m vm2 vm3 -> hpost k vm1 vm3.
Proof. unfold hpost. intros Hk (F1 & _ & R1) (F2 & O2 & R2). split_and!; [congruence|done|lia]. Qed.

(** ** Running a handler *)

(** The depth facts a stack operation needs. *)
Ltac solve_fits :=
  unfold fits, room, MaxInt32, MaxStackSize in *; vm_simpl;
  repeat match goal with
  | vm : Engine |- _ =>
      lazymatch goal with
      | _ : 0 <= len (astack vm) |- _ => fail
      | _ => pose proof (len_nonneg (astack vm)); pose proof (len_nonneg (dstack vm))
      end
  end; lia.

Ltac solve_hpost :=
  unfold hpost, fixed, ok, room, caches_ok in *; vm_simpl;
  repeat match goal with H : _ /\ _ |- _ => destruct H end;
  split_and!; try done; try lia.

Lemma small_short b : len b <= 8 -> small b.
Proof. unfold small, MaxScriptSize. lia. Qed.

Lemma small_fromBool b : small (fromBool b).
Proof. by destruct b. Qed.

Lemma small_Sum256 b : small (Sum256 b).
Proof. unfold small, len. rewrite Sum256_length. unfold MaxScriptSize. lia. Qed.

Lemma small_blake2b b : small (blake2b_Sum256 b).
Proof. unfold small. rewrite blake2b_size. unfold MaxScriptSize. lia. Qed.

Hint Resolve small_short small_fromBool small_Sum256 small_blake2b : go.

Ltac side := first [done | solve [eauto with go] | solve_fits].

Ltac stack_op :=
  lazymatch goal with
  | |- wp (onD _) _ _ => apply wp_zoom; vm_simpl
  | |- wp (onA _) _ _ => apply wp_zoom; vm_simpl
  | |- wp PopByteArray _ _ => apply (wp_PopByteArray small); [side|side|intros ? ? ? ? ?]
  | |- wp PopInt _ _ => apply (wp_PopInt small); [side|side|intros ? ? ? ? ?]
  | |- wp PopBool _ _ => apply (wp_PopBool small); [side|side|intros ? ? ? ?]
  | |- wp (PushByteArray _) _ _ => apply (wp_PushByteArray small); [side|side|intros ? ? ?]
  | |- wp (PushBool _) _ _ =>
      unfold PushBool; apply (wp_PushByteArray small); [side|side|intros ? ? ?]
  | |- wp (PushInt _) _ _ => apply (wp_PushInt small); [side|apply small_short| |intros ? ? ?]
  | |- wp (PeekByteArray _) _ _ => apply (wp_PeekByteArray small); [side|side|intros ? ?]
  | |- wp (PickN _) _ _ => apply (wp_peek_push small); [side|side|intros ? ? ?]
  | |- wp (RollN _) _ _ => apply (wp_nip_push small); [side|side|intros ? ? ?]
  | |- wp Depth _ _ => apply wp_Depth; [side|]
  | |- wp (DropN _) _ _ => apply (wp_DropN small); [side|side|intros ? ? ?]
  | |- wp (DupN _) _ _ => apply (wp_DupN small); [side|side|intros ? ? ?]
  | |- wp (OverN _) _ _ => apply (wp_OverN small); [side|side|intros ? ? ?]
  | |- wp (RotN _) _ _ => apply (wp_RotN small); [side|side|intros ? ? ?]
  | |- wp (SwapN _) _ _ => apply (wp_SwapN small); [side|side|intros ? ? ?]
  | |- wp (NipN _) _ _ => apply (wp_NipN small); [side|side|intros ? ? ?]
  | |- wp Tuck _ _ => apply (wp_Tuck small); [side|side|intros ? ? ?]
  | |- wp (scriptError _) _ _ => apply wp_throw
  end.

Ltac run := repeat (first [wp_step | stack_op]; cbn beta; vm_simpl).

(** Results of arithmetic on four-byte numbers stay clear of the least [int64]. *)
Ltac solve_int64 :=
  repeat match goal with |- context [i64 ?z] => rewrite (i64_id z) by nia end; nia.

Lemma quot_bound a b : - 2 ^ 31 < a < 2 ^ 31 -> - 2 ^ 31 <= Z.quot a b <= 2 ^ 31.
Proof. intros Ha. Z.to_euclidean_division_equations. nia. Qed.

Lemma rem_bound a b : b <> 0 -> - 2 ^ 31 < a < 2 ^ 31 -> - 2 ^ 31 <= Z.rem a b <= 2 ^ 31.
Proof.
  intros Hb Ha. pose proof (Z.rem_abs a b Hb). pose proof (Z.rem_le (Z.abs a) (Z.abs b)). lia.
Qed.

Lemma shiftr_bound a n : 0 <= n -> - 2 ^ 31 < a < 2 ^ 31 -> - 2 ^ 31 <= Z.shiftr a n <= 2 ^ 31.
Proof.
  intros Hn Ha. rewrite Z.shiftr_div_pow2 by done.
  assert (0 < 2 ^ n) by (apply Z.pow_pos_nonneg; lia).
  split; [apply Z.div_le_lower_bound; nia|]. apply Z.div_le_upper_bound; nia.
Qed.

Ltac open_handler Hok :=
  destruct Hok as (Hds & Has & Hval & Hcache & Hops & Hspend).

Ltac cases_of Hf :=
  apply list_elem_of_In in Hf; cbn [In] in Hf; repeat destruct Hf as [<-|Hf]; [..|done];
  cbn [run_opfunc].

Lemma stack_handlers_safe (f : opfunc) (pop : parsedOpcode) (vm : Engine) :
  f ∈ [f_opcodeFalse; f_opcodePushData; f_opcode1Negate; f_opcodeReserved; f_opcodeNop;
       f_opcodeVerify; f_opcodeReturn; f_opcodeToAltStack; f_opcodeFromAltStack; f_opcode2Drop;
       f_opcode2Dup; f_opcode3Dup; f_opcode2Over; f_opcode2Rot; f_opcode2Swap; f_opcodeIfDup;
       f_opcodeDrop; f_opcodeDup; f_opcodeNip; f_opcodeOver; f_opcodePick; f_opcodeRoll;
       f_opcodeRot; f_opcodeSwap; f_opcodeTuck; f_opcodeDisabled; f_opcodeEqual;
       f_opcodeEqualVerify; f_opcodeInvalid; f_opcodeSha256; f_opcodeBlake2b; f_opcodeN;
       f_opcodeDepth; f_opcodeSize] ->
  small (pop_data pop) -> ok vm -> room vm <= MaxStackSize ->
  wp (run_opfunc f pop) (fun _ vm' => hpost 3 vm vm') vm.
Proof.
  intros Hf Hpop Hok Hr. open_handler Hok. cases_of Hf.
  all: unfold opcodeFalse, opcodePushData, opcode1Negate, opcodeReserved, opcodeNop, opcodeVerify,
    opcodeReturn, opcodeToAltStack, opcodeFromAltStack, opcode2Drop, opcode2Dup, opcode3Dup,
    opcode2Over, opcode2Rot, opcode2Swap, opcodeIfDup, opcodeDrop, opcodeDup, opcodeNip, opcodeOver,
    opcodePick, opcodeRoll, opcodeRot, opcodeSwap, opcodeTuck, opcodeDisabled, opcodeEqualVerify,
    opcodeEqual, opcodeInvalid, opcodeSha256, opcodeBlake2b, opcodeN, opcodeDepth, opcodeSize,
    abstractVerify.
  all: run.
  all: try solve [solve_hpost].
  - unfold u8. pose proof (Z.mod_pos_bound (pop_value pop - (Op1 - 1)) (2 ^ 8)). lia.
  - pose proof (len_nonneg (dstack vm)). pose proof (len_nonneg (astack vm)).
    unfold room, MaxStackSize in *. lia.
  - pose proof (len_nonneg x). unfold small, MaxScriptSize in *. lia.
Qed.

Lemma arithmetic_handlers_safe (f : opfunc) (pop : parsedOpcode) (vm : Engine) :
  f ∈ [f_opcode1Add; f_opcode1Sub; f_opcode2Mul; f_opcode2Div; f_opcodeNegate; f_opcodeAbs;
       f_opcodeNot; f_opcode0NotEqual; f_opcodeAdd; f_opcodeSub; f_opcodeMul; f_opcodeDiv;
       f_opcodeMod; f_opcodeRShift; f_opcodeBoolAnd; f_opcodeBoolOr; f_opcodeNumEqual;
       f_opcodeNumEqualVerify; f_opcodeNumNotEqual; f_opcodeLessThan; f_opcodeGreaterThan;
       f_opcodeLessThanOrEqual; f_opcodeGreaterThanOrEqual; f_opcodeMin; f_opcodeMax;
       f_opcodeWithin] ->
  ok vm -> room vm <= MaxStackSize ->
  wp (run_opfunc f pop) (fun _ vm' => hpost 3 vm vm') vm.
Proof.
  intros Hf Hok Hr. open_handler Hok. cases_of Hf.
  all: unfold opcode1Add, opcode1Sub, opcode2Mul, opcode2Div, opcodeNegate, opcodeAbs, opcodeNot,
    opcode0NotEqual, opcodeAdd, opcodeSub, opcodeMul, opcodeDiv, opcodeMod, opcodeRShift,
    opcodeBoolAnd, opcodeBoolOr, opcodeNumEqualVerify, opcodeNumEqual, opcodeNumNotEqual,
    opcodeLessThan, opcodeGreaterThan, opcodeLessThanOrEqual, opcodeGreaterThanOrEqual, opcodeMin,
    opcodeMax, opcodeWithin, abstractVerify.
  all: run.
  all: try solve [solve_hpost].
  all: zbool; repeat case_match; zbool; try solve_int64.
  - rewrite i64_id; pose proof (quot_bound v 2); lia.
  - rewrite i64_id; pose proof (quot_bound v0 v); lia.
  - pose proof (rem_bound v0 v); lia.
  - pose proof (shiftr_bound v0 v); lia.
Qed.

Lemma control_handlers_safe (f : opfunc) (pop : parsedOpcode) (vm : Engine) :
  f ∈ [f_opcodeIf; f_opcodeNotIf; f_opcodeElse; f_opcodeEndif; f_opcodeCheckLockTimeVerify;
       f_opcodeCheckSequenceVerify] ->
  ok vm -> room vm <= MaxStackSize ->
  wp (run_opfunc f pop) (fun _ vm' => hpost 3 vm vm') vm.
Proof.
  intros Hf Hok Hr. open_handler Hok.
  assert (Hidx : forall (Q : DomainTransactionInput -> Engine -> Prop) vm', (forall i, Q i vm') ->
    wp (E := error) (index (Inputs (vm_tx vm)) (txIdx vm)) Q vm').
  { intros Q vm' HQ. destruct Hspend as (Hi & txIn & e & Hin & _). apply wp_index; [|auto].
    apply lookup_lt_Some in Hin. unfold len. lia. }
  cases_of Hf.
  all: unfold opcodeIf, opcodeNotIf, opcodeElse, opcodeEndif, opcodeCheckLockTimeVerify,
    opcodeCheckSequenceVerify, popIfBool, isBranchExecuting, condTop, verifyLockTimeWithThreshold,
    verifyLockTimeThreshold, verifyLockTime.
  all: run.
  all: try solve [solve_hpost].
  - zbool. apply wp_index; [pose proof (len_nonneg (condStack vm)); lia|].
    intros c _. run; solve_hpost.
  - apply Hidx. intros i. run; solve_hpost.
  - apply Hidx. intros i. run; solve_hpost.
Qed.

(** ** Signature checks *)

(** What the proofs use of a signature scheme of the engine. *)
Class EngineSchemeSpec (es : EngineScheme) : Prop := {
  es_spec :: SigSchemeSpec (es_scheme es);
  es_setCache_fields : forall c vm, exists s1 s2,
    es_setCache es c vm = set_sigCache s1 (set_sigCacheECDSA s2 vm);
  es_cache_valid : forall vm s, caches_ok vm -> es_cache es vm = Some s ->
    valid_cache (es_scheme es) s;
  es_setCache_valid : forall c vm, caches_ok vm ->
    (forall s, c = Some s -> valid_cache (es_scheme es) s) -> caches_ok (es_setCache es c vm);
  es_sighash_run : forall tx idx ht rv, valid_reused tx rv -> spends tx idx ->
    IsStandardSigHashType ht = true ->
    exists h rv', es_sighash es tx idx ht rv = (Ret h, rv') /\ valid_reused tx rv' /\
      (es_sighash es tx idx ht emptyReused).1 = Ret h;
  es_checkSignatureLength_run : forall b vm, es_checkSignatureLength es b vm
    = (if len b =? 64 then Ret tt else Err (ScriptError ErrSigLength), vm);
  es_checkPubKeyEncoding_run : forall b vm, es_checkPubKeyEncoding es b vm = (Ret tt, vm) \/
    es_checkPubKeyEncoding es b vm = (Err (ScriptError ErrPubKeyFormat), vm)
}.

Lemma schnorr_sighash_run tx idx ht rv :
  valid_reused tx rv -> spends tx idx -> IsStandardSigHashType ht = true ->
  exists h rv', CalculateSignatureHashSchnorr tx idx ht rv = (Ret h, rv') /\ valid_reused tx rv' /\
    (CalculateSignatureHashSchnorr tx idx ht emptyReused).1 = Ret h.
Proof.
  intros Hv (Hi & txIn & e & Hin & He) Hs.
  destruct (CalculateSignatureHashSchnorr_run tx idx ht rv txIn e Hv Hs Hi Hin He)
    as (rv' & Hr & Hv').
  destruct (CalculateSignatureHashSchnorr_run tx idx ht emptyReused txIn e (valid_empty tx) Hs Hi
    Hin He) as (rv2 & Hr2 & _).
  do 2 eexists. split; [exact Hr|]. by rewrite Hr2.
Qed.

Lemma rehashed_sighash_run (h : HashWriter) tx idx ht rv :
  valid_reused tx rv -> spends tx idx -> IsStandardSigHashType ht = true ->
  let f rv := (hash <- CalculateSignatureHashSchnorr tx idx ht ;; runHash h (write hash)) rv in
  exists b rv', f rv = (Ret b, rv') /\ valid_reused tx rv' /\ (f emptyReused).1 = Ret b.
Proof.
  intros Hv Hsp Hs f.
  destruct (schnorr_sighash_run tx idx ht rv) as (d & rv' & Hr & Hv' & Hd); try done.
  exists (hw_sum h (hw_start h ++ d)), rv'. unfold f, bind. rewrite Hr.
  destruct (CalculateSignatureHashSchnorr tx idx ht emptyReused) as [o rv2]. cbn in Hd. subst o.
  by rewrite !(runHash_emits _ _ d) by apply emits_write.
Qed.

#[export] Instance engineSchnorr_spec : EngineSchemeSpec engineSchnorr.
Proof.
  split; cbn.
  - apply _.
  - intros c vm. exists c, (sigCacheECDSA vm). by destruct vm.
  - intros vm s [Hc _] Hs. by apply Hc.
  - intros c vm [Hc He] Hs. by split.
  - apply schnorr_sighash_run.
  - intros b vm. unfold checkSignatureLength, guard_err. by destruct (len b =? 64).
  - intros b vm. unfold checkPubKeyEncoding. destruct (len b =? 32); [by left|by right].
Qed.

#[export] Instance engineECDSA_spec : EngineSchemeSpec engineECDSA.
Proof.
  split; cbn.
  - apply _.
  - intros c vm. exists (sigCache vm), c. by destruct vm.
  - intros vm s [_ Hc] Hs. by apply Hc.
  - intros c vm [Hc He] Hs. by split.
  - intros. by apply rehashed_sighash_run.
  - intros b vm. unfold checkSignatureLengthECDSA, guard_err. by destruct (len b =? 64).
  - intros b vm. unfold checkPubKeyEncodingECDSA. destruct (len b =? 33); [by left|by right].
Qed.

(** Whether a signature with its hash type byte is one of the transaction's input
    under the encoded public key, without engine, caches or reused values. *)
Definition signatureOK (es : EngineScheme) (tx : DomainTransaction) (idx : Z)
    (fullSig pkBytes : bytes) : bool :=
  IsStandardSigHashType (sigHashTypeOf fullSig) &&
  match (es_sighash es tx idx (sigHashTypeOf fullSig) emptyReused).1,
        DeserializePubKey (es_scheme es) pkBytes,
        DeserializeSignatureFromSlice (es_scheme es) (sigBytesOf fullSig) with
  | Ret h, Some pubKey, Some signature => Verify (es_scheme es) pubKey h signature
  | _, _, _ => false
  end.

(** The fields a signature check may assign besides the stacks. *)
Definition aux_update (vm vm' : Engine) : Prop :=
  fixed vm' = fixed vm /\ astack vm' = astack vm /\ condStack vm' = condStack vm /\
  numOps vm' = numOps vm.

Section Scheme.
Context (es : EngineScheme) {Hes : EngineSchemeSpec es}.

Lemma wp_checkSignatureLength b (Q : unit -> Engine -> Prop) vm :
  (len b = 64 -> Q tt vm) -> wp (es_checkSignatureLength es b) Q vm.
Proof.
  intros HQ. unfold wp. rewrite es_checkSignatureLength_run.
  destruct (Z.eqb_spec (len b) 64); auto.
Qed.

Lemma wp_checkPubKeyEncoding b (Q : unit -> Engine -> Prop) vm :
  Q tt vm -> wp (es_checkPubKeyEncoding es b) Q vm.
Proof.
  intros HQ. unfold wp. destruct (es_checkPubKeyEncoding_run b vm) as [-> | ->]; auto.
Qed.

Lemma wp_sighash tx idx ht (Q : bytes -> Engine -> Prop) vm :
  valid_reused tx (sigHashReusedValues vm) -> spends tx idx -> IsStandardSigHashType ht = true ->
  (forall h rv, valid_reused tx rv -> (es_sighash es tx idx ht emptyReused).1 = Ret h ->
     Q h (set_sigHashReusedValues rv vm)) ->
  wp (onReused (es_sighash es tx idx ht)) Q vm.
Proof.
  intros Hv Hsp Hs HQ. apply wp_zoom. unfold wp.
  destruct (es_sighash_run tx idx ht (sigHashReusedValues vm)) as (h & rv' & -> & Hv' & Hh); auto.
Qed.

Lemma wp_try_sighash tx idx ht (Q : bytes + error -> Engine -> Prop) vm :
  valid_reused tx (sigHashReusedValues vm) -> spends tx idx -> IsStandardSigHashType ht = true ->
  (forall h rv, valid_reused tx rv -> (es_sighash es tx idx ht emptyReused).1 = Ret h ->
     Q (inl h) (set_sigHashReusedValues rv vm)) ->
  wp (try (onReused (es_sighash es tx idx ht))) Q vm.
Proof.
  intros Hv Hsp Hs HQ. apply wp_try; [by apply wp_sighash|].
  intros e vm'. unfold onReused, zoom.
  destruct (es_sighash_run tx idx ht (sigHashReusedValues vm)) as (h & rv' & -> & _); auto. done.
Qed.

(** The cache does not matter for the result, and stays valid. *)
Lemma wp_verifySignature h sig pk (Q : bool -> Engine -> Prop) vm :
  caches_ok vm ->
  (forall s1 s2, caches_ok (set_sigCache s1 (set_sigCacheECDSA s2 vm)) ->
     Q (Verify (es_scheme es) pk h sig) (set_sigCache s1 (set_sigCacheECDSA s2 vm))) ->
  wp (verifySignature es h sig pk) Q vm.
Proof.
  intros Hc HQ. unfold wp, verifySignature.
  destruct (cachedVerify_spec (es_scheme es) (es_cache es vm) h sig pk) as [Hv Hs].
  { intros s. by apply es_cache_valid. }
  destruct (cachedVerify _ _ _ _ _) as [v c]. cbn in Hv, Hs. subst v.
  pose proof (es_setCache_valid c vm Hc Hs) as Hc'.
  destruct (es_setCache_fields c vm) as (s1 & s2 & Heq). rewrite Heq in *. auto.
Qed.

Lemma checkSig_spec vm :
  ok vm -> room vm <= MaxStackSize ->
  wp (checkSig es) (fun _ vm' => aux_update vm vm' /\ ok vm' /\ exists l sigB pkB,
    dstack vm = l ++ [sigB; pkB] /\
    dstack vm' = l ++ [fromBool (signatureOK es (vm_tx vm) (txIdx vm) sigB pkB)]) vm.
Proof.
  intros Hok Hr. open_handler Hok. unfold checkSig.
  apply wp_bind, wp_zoom, wp_PopByteArray_eq; [solve_fits|]. intros l1 pkB H1.
  apply wp_bind, wp_zoom, wp_PopByteArray_eq; vm_simpl.
  { unfold fits, room, MaxInt32, MaxStackSize in *. rewrite H1 in Hr.
    pose proof (len_nonneg (astack vm)). len_simpl. lia. }
  intros l sigB H2. subst l1. rewrite <- app_assoc in H1. cbn [app] in H1.
  rewrite H1 in Hds. apply Forall_app in Hds as [Hl _].
  assert (Hdone : forall rv s1 s2 b,
    b = signatureOK es (vm_tx vm) (txIdx vm) sigB pkB -> valid_reused (vm_tx vm) rv ->
    caches_ok (set_sigCache s1 (set_sigCacheECDSA s2 vm)) ->
    let vm' := set_dstack l (set_sigHashReusedValues rv (set_sigCache s1 (set_sigCacheECDSA s2 vm))) in
    wp (onD (PushBool b)) (fun _ vm'' => aux_update vm vm'' /\ ok vm'' /\ exists l sigB pkB,
      dstack vm = l ++ [sigB; pkB] /\
      dstack vm'' = l ++ [fromBool (signatureOK es (vm_tx vm) (txIdx vm) sigB pkB)]) vm').
  { intros rv s1 s2 b -> Hrv Hc' vm'. apply wp_zoom, wp_modify. split; [done|].
    split; [|by exists l, sigB, pkB]. 
    split; [|by split_and!; [apply Has|apply Hrv|apply Hc'|apply Hops|apply Hops|apply Hspend]].
    apply Forall_app_2; [done|]. constructor; [apply small_fromBool|done]. }
  assert (Hdone' : forall b, b = signatureOK es (vm_tx vm) (txIdx vm) sigB pkB ->
    wp (onD (PushBool b)) (fun _ vm'' => aux_update vm vm'' /\ ok vm'' /\ exists l sigB pkB,
      dstack vm = l ++ [sigB; pkB] /\
      dstack vm'' = l ++ [fromBool (signatureOK es (vm_tx vm) (txIdx vm) sigB pkB)])
      (set_dstack l (set_dstack (l ++ [sigB]) vm))).
  { intros b Hb. apply (Hdone (sigHashReusedValues vm) (sigCache vm) (sigCacheECDSA vm) b Hb Hval).
    by destruct vm. }
  destruct (Z.ltb_spec (len sigB) 1).
  { apply Hdone'. destruct sigB; [done|]. rewrite len_cons in *. pose proof (len_nonneg sigB). lia. }
  destruct (IsStandardSigHashType (sigHashTypeOf sigB)) eqn:Hs; cbn [negb]; [|done].
  apply wp_bind, wp_checkSignatureLength. intros Hl64.
  apply wp_bind, wp_checkPubKeyEncoding, wp_bind, wp_gets, wp_bind, wp_gets, wp_bind. vm_simpl.
  apply wp_try_sighash; [done..|]. intros h rv Hrv Hh.
  unfold signatureOK in Hdone at 1. rewrite Hs, Hh in Hdone. cbn [andb] in Hdone.
  destruct (DeserializePubKey (es_scheme es) pkB) as [pk|].
  2: { apply (Hdone rv (sigCache vm) (sigCacheECDSA vm)); [done..|]. by destruct vm. }
  destruct (DeserializeSignatureFromSlice (es_scheme es) (sigBytesOf sigB)) as [sg|].
  2: { apply (Hdone rv (sigCache vm) (sigCacheECDSA vm)); [done..|]. by destruct vm. }
  apply wp_bind, wp_verifySignature; [done|]. intros s1 s2 Hc'.
  destruct (_ && _); [done|]. by apply (Hdone rv s1 s2).
Qed.

(** *** Multisig *)

(** A signature info is fresh or holds the parsed signature of valid type. *)
Definition info_ok (raw : bytes) (i : parsedSigInfo (es_scheme es)) : Prop :=
  si_signature i = raw /\
  (si_parsed i = true -> IsStandardSigHashType (sigHashTypeOf raw) = true /\
     si_parsedSignature i = DeserializeSignatureFromSlice (es_scheme es) (sigBytesOf raw)).

(** The order-preserving match the loop computes: each signature is checked
    against the keys that follow the one its predecessor verified under. *)
Fixpoint matchSigs (good : bytes -> bytes -> bool) (sigs keys : list bytes) : bool :=
  match sigs with
  | [] => true
  | sig :: sigs' =>
      (fix scan keys :=
         match keys with
         | [] => false
         | key :: keys' => if good sig key then matchSigs good sigs' keys' else scan keys'
         end) keys
  end.

Lemma matchSigs_cons good sig sigs key keys :
  matchSigs good (sig :: sigs) (key :: keys) =
  if good sig key then matchSigs good sigs keys else matchSigs good (sig :: sigs) keys.
Proof. done. Qed.

Lemma matchSigs_short good sigs keys : len keys < len sigs -> matchSigs good sigs keys = false.
Proof.
  revert sigs. induction keys as [|key keys IH]; intros [|sig sigs] Hl; try done.
  rewrite matchSigs_cons. len_simpl. rewrite !IH; [by destruct (good _ _)|len_simpl; lia|lia].
Qed.

Lemma multiSigBody_spec vm raw info key :
  ok vm -> info_ok raw info ->
  wp (multiSigBody es info key) (fun r vm' =>
    aux_update vm vm' /\ dstack vm' = dstack vm /\ ok vm' /\ info_ok raw r.2 /\
    r.1 = signatureOK es (vm_tx vm) (txIdx vm) raw key) vm.
Proof.
  intros Hok [Hraw Hinfo]. pose proof Hok as Hok'. open_handler Hok'.
  unfold multiSigBody. rewrite Hraw.
  destruct (Z.eqb_spec (len raw) 0) as [Hz|Hz].
  { apply wp_ret. split_and!; try done. by destruct raw; [|rewrite len_cons in Hz; pose proof (len_nonneg raw); lia]. }
  apply wp_bind.
  apply (wp_mono _ (fun i vm' => vm' = vm /\ IsStandardSigHashType (sigHashTypeOf raw) = true /\
    info_ok raw i /\
    si_parsedSignature i = DeserializeSignatureFromSlice (es_scheme es) (sigBytesOf raw))).
  { unfold parseSigInfo. rewrite Hraw. destruct (si_parsed info) eqn:Hp; cbn [negb].
    { apply wp_ret. destruct (Hinfo eq_refl). repeat split; try done. }
    destruct (IsStandardSigHashType (sigHashTypeOf raw)) eqn:Hs; cbn [negb]; [|done].
    apply wp_bind, wp_checkSignatureLength. intros _. by apply wp_ret. }
  intros i ? (-> & Hs & Hi & Hsg). cbn beta. rewrite Hsg.
  destruct (DeserializeSignatureFromSlice (es_scheme es) (sigBytesOf raw)) as [sg|] eqn:Hd.
  2: { apply wp_ret. split_and!; try done; cbn. unfold signatureOK. rewrite Hs, Hd. cbn.
       repeat case_match; done. }
  apply wp_bind, wp_checkPubKeyEncoding.
  destruct (DeserializePubKey (es_scheme es) key) as [pk|] eqn:Hk.
  2: { apply wp_ret. split_and!; try done; cbn. unfold signatureOK. rewrite Hk.
       rewrite andb_false_intro2; [done|]. by case_match. }
  apply wp_bind, wp_gets, wp_bind, wp_gets, wp_bind, wp_sighash; [done..|]. intros h rv Hrv Hh.
  apply wp_bind, wp_verifySignature; [done|]. intros s1 s2 Hc. apply wp_ret.
  split; [done|]. split; [done|]. split; [by split_and!; [apply Hds|apply Has|apply Hrv|apply Hc|apply Hops|apply Hops|apply Hspend]|]. split; [done|].
  cbn [fst]. unfold signatureOK. by rewrite Hs, Hh, Hk, Hd.
Qed.

(** The loop computes the match, with any fuel above the number of keys left. *)
Lemma multiSigLoop_refines fuel vm doneKeys keys doneInfos infos sigs :
  ok vm -> Forall2 info_ok sigs infos -> (List.length keys < fuel)%nat ->
  wp (multiSigLoop es fuel (doneKeys ++ keys) (doneInfos ++ infos) (len infos) (len keys + 1)
        (len doneKeys - 1) (len doneInfos))
     (fun b vm' => b = matchSigs (signatureOK es (vm_tx vm) (txIdx vm)) sigs keys /\
        aux_update vm vm' /\ dstack vm' = dstack vm /\ ok vm') vm.
Proof.
  revert vm doneKeys keys doneInfos infos sigs.
  induction fuel as [|fuel IH]; intros vm doneKeys keys doneInfos infos sigs Hok Hinf Hfuel; [lia|].
  cbn [multiSigLoop]. pose proof (Forall2_length Hinf) as Hlen.
  destruct infos as [|info infos].
  { inversion Hinf. by apply wp_ret. }
  inversion Hinf as [|sig ? sigs' ? Hi Hinf' Heq]. subst.
  destruct (Z.ltb_spec 0 (len (info :: infos))) as [_|Hbad];
    [|rewrite len_cons in Hbad; pose proof (len_nonneg infos); lia].
  destruct (Z.ltb_spec (len keys + 1 - 1) (len (info :: infos))) as [Hshort|Hlong].
  { apply wp_ret. split; [|done]. rewrite matchSigs_short; [done|]. unfold len in *. cbn in *. lia. }
  destruct keys as [|key keys]; [len_simpl; pose proof (len_nonneg infos); lia|].
  apply wp_bind. unfold wp at 1. rewrite index_middle by done. apply wp_bind. unfold wp at 1.
  rewrite index_middle by lia. apply wp_bind.
  eapply wp_mono; [by apply (multiSigBody_spec vm sig)|]. cbn beta. clear Hok.
  intros [v info'] vm' (Haux & Hd & Hok & Hi' & Hv). cbn [fst snd] in *.
  rewrite matchSigs_cons, <- Hv.
  assert (Htx : vm_tx vm' = vm_tx vm /\ txIdx vm' = txIdx vm).
  { destruct Haux as [Hfix _]. unfold fixed in Hfix. by simplify_eq. }
  destruct Htx as [Htx Hidx].
  assert (Hins : <[Z.to_nat (len doneInfos) := info']> (doneInfos ++ info :: infos)
    = doneInfos ++ info' :: infos).
  { unfold len. rewrite Nat2Z.id, insert_app_r_alt, Nat.sub_diag by done. done. }
  rewrite Hins. destruct v.
  - specialize (IH vm' (doneKeys ++ [key]) keys (doneInfos ++ [info']) infos sigs' Hok Hinf').
    rewrite <- !app_assoc, Htx, Hidx in IH. cbn [app] in IH.
    replace (len (info :: infos) - 1) with (len infos) by (len_simpl; lia).
    replace (len (key :: keys) + 1 - 1) with (len keys + 1) by (len_simpl; lia).
    replace (len doneKeys - 1 + 1) with (len (doneKeys ++ [key]) - 1) by (len_simpl; lia).
    replace (len doneInfos + 1) with (len (doneInfos ++ [info'])) by (len_simpl; lia).
    eapply wp_mono; [apply IH; cbn in Hfuel; lia|]. cbn beta. intros b vm2 (Hb & Haux2 & Hd2 & Hok2).
    split; [done|]. split; [|split; [congruence|done]].
    destruct Haux as (? & ? & ? & ?), Haux2 as (? & ? & ? & ?). repeat split; congruence.
  - specialize (IH vm' (doneKeys ++ [key]) keys doneInfos (info' :: infos) (sig :: sigs') Hok).
    rewrite <- !app_assoc, Htx, Hidx in IH. cbn [app] in IH.
    replace (len (info :: infos)) with (len (info' :: infos)) by (by len_simpl).
    replace (len (key :: keys) + 1 - 1) with (len keys + 1) by (len_simpl; lia).
    replace (len doneKeys - 1 + 1) with (len (doneKeys ++ [key]) - 1) by (len_simpl; lia).
    eapply wp_mono; [apply IH; [by constructor|cbn in Hfuel; lia]|]. cbn beta.
    intros b vm2 (Hb & Haux2 & Hd2 & Hok2).
    split; [done|]. split; [|split; [congruence|done]].
    destruct Haux as (? & ? & ? & ?), Haux2 as (? & ? & ? & ?). repeat split; congruence.
Qed.

(** Popping [n] items returns them top first. *)
Lemma wp_collect_pop n (Q : list bytes -> Engine -> Prop) vm :
  fits (dstack vm) ->
  (forall l items, dstack vm = l ++ reverse items -> List.length items = n ->
     Q items (set_dstack l vm)) ->
  wp (collectM n (onD PopByteArray)) Q vm.
Proof.
  revert Q vm. induction n as [|n IH]; intros Q vm Hf HQ; cbn [collectM].
  { apply wp_ret. specialize (HQ (dstack vm) []). rewrite app_nil_r in HQ.
    replace vm with (set_dstack (dstack vm) vm) at 1 by (by destruct vm). auto. }
  apply wp_bind, wp_zoom, wp_PopByteArray_eq; [done|]. intros l x Hx. apply wp_bind, IH.
  { vm_simpl. unfold fits in *. rewrite Hx in Hf. len_simpl. lia. }
  vm_simpl. intros l' items -> Hn. apply wp_ret. apply HQ; [|cbn; lia].
  by rewrite Hx, reverse_cons, app_assoc.
Qed.

Lemma scriptNum_Int32_id v : - 2 ^ 31 < v < 2 ^ 31 -> scriptNum_Int32 v = v.
Proof.
  intros Hv. unfold scriptNum_Int32, maxInt32, minInt32, MaxInt32, MinInt32.
  rewrite Z.gtb_ltb, Z.geb_leb.
  destruct (Z.ltb_spec (2 ^ 31 - 1) v); [lia|]. destruct (Z.ltb_spec v (- 2 ^ 31)); [lia|].
  unfold u32. destruct (Z.leb_spec 0 v).
  - rewrite Z.mod_small by lia. apply i32_id. lia.
  - rewrite (i64_id (- v)), Z.mod_small by lia. rewrite !i32_id; rewrite ?i32_id; lia.
Qed.

Lemma checkMultiSig_spec vm :
  ok vm -> room vm <= MaxStackSize ->
  wp (checkMultiSig es) (fun _ vm' =>
    fixed vm' = fixed vm /\ astack vm' = astack vm /\ condStack vm' = condStack vm /\ ok vm' /\
    exists l numSigs sigs numKeys keys,
      dstack vm = l ++ reverse sigs ++ [numSigs] ++ reverse keys ++ [numKeys] /\
      sn_value numSigs = len sigs /\ sn_value numKeys = len keys /\
      dstack vm' = l ++ [fromBool (matchSigs (signatureOK es (vm_tx vm) (txIdx vm)) sigs keys)]) vm.
Proof.
  intros Hok Hr. open_handler Hok. unfold checkMultiSig.
  assert (Hfit : len (dstack vm) <= MaxStackSize).
  { unfold room in Hr. pose proof (len_nonneg (astack vm)). lia. }
  apply wp_bind, wp_zoom, wp_PopInt_eq; [solve_fits|]. intros l0 numKeys nk H0 Hnk Rnk.
  rewrite scriptNum_Int32_id by done.
  apply wp_bind, wp_guard_err. intros Hnk0. apply wp_bind, wp_guard_err. intros Hnk20.
  apply wp_bind, wp_modify, wp_bind, wp_gets. vm_simpl. apply wp_bind, wp_guard_err. intros Hno.
  zbool. rewrite H0 in Hfit. unfold MaxStackSize in Hfit. len_simpl.
  apply wp_bind, wp_collect_pop; [unfold fits, MaxInt32; vm_simpl; lia|]. vm_simpl.
  intros l1 keys H1 Hkeys. subst l0. len_simpl.
  apply wp_bind, wp_zoom, wp_PopInt_eq; [unfold fits, MaxInt32; vm_simpl; pose proof (len_nonneg (reverse keys)); lia|].
  vm_simpl. intros l2 numSigs ns H2 Hns Rns. rewrite scriptNum_Int32_id by done. subst l1.
  apply wp_bind, wp_guard_err. intros Hns0. apply wp_bind, wp_guard_err. intros Hnsk.
  zbool. len_simpl.
  apply wp_bind, wp_collect_pop;
    [unfold fits, MaxInt32; vm_simpl; pose proof (len_nonneg (reverse keys)); lia|].
  vm_simpl. intros l sigs H3 Hsigs. subst l2.
  assert (Hd : dstack vm = l ++ reverse sigs ++ [numSigs] ++ reverse keys ++ [numKeys]).
  { by rewrite H0, <- !app_assoc. }
  assert (ns = len sigs /\ nk = len keys) as [-> ->] by (unfold len; lia).
  rewrite Hd in Hds. apply Forall_app in Hds as [Hl _].
  set (vm1 := set_dstack l _).
  assert (Hok1 : ok vm1).
  { split_and!; [done|apply Has|apply Hval|apply Hcache| | |apply Hspend]; vm_simpl;
      unfold vm1; vm_simpl; lia. }
  apply wp_bind.
  pose proof (multiSigLoop_refines (Z.to_nat (len keys) + 2) vm1 [] keys []
    (map (fun signature => MkSigInfo signature None false) sigs) sigs Hok1) as Hloop.
  cbn [app] in Hloop. replace (len (map _ sigs)) with (len sigs) in Hloop
    by (unfold len; by rewrite length_map).
  eapply wp_mono; [apply Hloop|].
  { apply Forall2_fmap_r. apply Forall_Forall2_diag. apply Forall_true. by intros x. }
  { unfold len. lia. }
  cbn beta. intros b vm2 (Hb & (Hfix & Hast & Hcond & Hnum) & Hds2 & Hok2).
  apply wp_bind, wp_guard_err. intros _. apply wp_zoom, wp_modify. vm_simpl.
  split; [exact Hfix|]. split; [exact Hast|]. split; [exact Hcond|]. split.
  - destruct Hok2 as (D2 & A2 & V2 & C2 & N2 & S2).
    split_and!; [|apply A2|apply V2|apply C2|apply N2|apply N2|apply S2].
    apply Forall_app_2; [done|]. constructor; [apply small_fromBool|done].
  - exists l, numSigs, sigs, numKeys, keys. split_and!; [done..|].
    by rewrite Hb, Hds2.
Qed.
End Scheme.

Lemma mldsa44_safe pop vm :
  ok vm -> room vm <= MaxStackSize ->
  wp (opcodeCheckSigMLDSA44 pop) (fun _ vm' => hpost 0 vm vm') vm.
Proof.
  intros Hok Hr. open_handler Hok.
  unfold opcodeCheckSigMLDSA44, checkSignatureLengthMLDSA44, checkPubKeyEncodingMLDSA44.
  run; try solve [solve_hpost].
  apply wp_try.
  - apply wp_zoom. vm_simpl. unfold wp, CalculateSignatureHashMLDSA44.
    destruct (rehashed_sighash_run NewTransactionSigningHashMLDSA44Writer (vm_tx vm) (txIdx vm)
      (sigHashTypeOf x0) (sigHashReusedValues vm)) as (h & rv & -> & Hrv & _); [done..| |].
    { zbool. done. }
    change (wp (cache <- gets mldsa44Cache ;;
       let '(valid, parsed, cache') := verify cache h x (sigBytesOf x0) in
       modify (set_mldsa44Cache cache') ;;;
       (if negb parsed then onD (PushBool false)
        else if negb valid then scriptError ErrNullFail else onD (PushBool true)))
       (fun _ vm' => hpost 0 vm vm')
       (set_sigHashReusedValues rv (set_dstack l0 (set_dstack l vm)))).
    apply wp_bind, wp_gets. destruct (verify _ _ _ _) as [[v p] c]. run; solve_hpost.
  - intros e vm' He. exfalso. revert He. unfold onReused, zoom, CalculateSignatureHashMLDSA44.
    vm_simpl.
    destruct (rehashed_sighash_run NewTransactionSigningHashMLDSA44Writer (vm_tx vm) (txIdx vm)
      (sigHashTypeOf x0) (sigHashReusedValues vm)) as (h & rv & -> & Hrv & _); [done..| |done].
    zbool. done.
Qed.

(** ** All handlers *)

Lemma checkSig_safe es `{!EngineSchemeSpec es} vm :
  ok vm -> room vm <= MaxStackSize -> wp (checkSig es) (fun _ vm' => hpost 0 vm vm') vm.
Proof.
  intros Hok Hr. eapply wp_mono; [by apply checkSig_spec|]. cbn beta.
  intros _ vm' ((Hfix & Ha & _) & Hok' & l & sigB & pkB & Hd & Hd').
  split_and!; [done|done|]. unfold room. rewrite Hd, Hd', Ha. len_simpl. lia.
Qed.

Lemma checkMultiSig_safe es `{!EngineSchemeSpec es} vm :
  ok vm -> room vm <= MaxStackSize -> wp (checkMultiSig es) (fun _ vm' => hpost 0 vm vm') vm.
Proof.
  intros Hok Hr. eapply wp_mono; [by apply checkMultiSig_spec|]. cbn beta.
  intros _ vm' (Hfix & Ha & _ & Hok' & l & ns & sigs & nk & keys & Hd & _ & _ & Hd').
  split_and!; [done|done|]. unfold room. rewrite Hd, Hd', Ha. len_simpl.
  pose proof (len_nonneg (reverse sigs)). pose proof (len_nonneg (reverse keys)). lia.
Qed.

Lemma then_verify_safe (m : M Engine error unit) c vm :
  room vm <= MaxStackSize -> wp m (fun _ vm' => hpost 0 vm vm') vm ->
  wp (m ;;; abstractVerify c) (fun _ vm' => hpost 3 vm vm') vm.
Proof.
  intros Hr Hm. apply wp_bind. eapply wp_mono; [exact Hm|]. cbn beta. intros _ vm' Hpost.
  assert (Hr' : room vm' <= MaxStackSize) by (destruct Hpost as (_ & _ & ?); lia).
  unfold abstractVerify. destruct Hpost as (Hfix & Hok & Hrm). open_handler Hok.
  run. split_and!; [done| |unfold room in *; vm_simpl; lia].
  by split_and!; [|apply Has|apply Hval|apply Hcache|apply Hops|apply Hops|apply Hspend].
Qed.

Lemma run_opfunc_safe (f : opfunc) (pop : parsedOpcode) (vm : Engine) :
  f <> f_nil -> f <> f_opcodeLShift -> small (pop_data pop) -> ok vm -> room vm <= MaxStackSize ->
  wp (run_opfunc f pop) (fun _ vm' => hpost 3 vm vm') vm.
Proof.
  intros Hnil Hls Hpop Hok Hr.
  assert (Hweak : forall m : M Engine error unit, wp m (fun _ vm' => hpost 0 vm vm') vm ->
    wp m (fun _ vm' => hpost 3 vm vm') vm).
  { intros m Hm. eapply wp_mono; [exact Hm|]. cbn beta. intros _ vm' (? & ? & ?).
    split_and!; [done|done|lia]. }
  destruct f; try done;
    first [ apply stack_handlers_safe; [|done..]; by apply (bool_decide_eq_true_1 _)
          | apply arithmetic_handlers_safe; [|done..]; by apply (bool_decide_eq_true_1 _)
          | apply control_handlers_safe; [|done..]; by apply (bool_decide_eq_true_1 _)
          | cbn [run_opfunc]; unfold opcodeCheckSigVerify, opcodeCheckMultiSigVerify ].
  - by apply Hweak, checkMultiSig_safe; [apply _| |].
  - by apply Hweak, checkSig_safe; [apply _| |].
  - by apply Hweak, checkSig_safe; [apply _| |].
  - by apply then_verify_safe, checkSig_safe; [|apply _| |].
  - by apply Hweak, checkMultiSig_safe; [apply _| |].
  - by apply then_verify_safe, checkMultiSig_safe; [|apply _| |].
  - by apply Hweak, mldsa44_safe.
Qed.

(** Opcodes as the parser makes them. *)
Definition from_table (pop : parsedOpcode) : Prop :=
  small (pop_data pop) /\ is_Some (operand pop) /\
  exists b, pop_opcode pop = opcodeAt opcodeArray b.

Lemma from_table_func pop :
  from_table pop -> op_func (pop_opcode pop) <> f_nil /\
  (op_func (pop_opcode pop) = f_opcodeLShift -> isDisabled pop = true).
Proof.
  destruct pop as [op d]. intros (_ & _ & b & Hb). cbn in Hb. subst op. revert b.
  apply (opcodeArray_forall (fun op => op_func op <> f_nil /\
    (op_func op = f_opcodeLShift -> isDisabled (ParsedOpcode op d) = true))).
  vm_compute. reflexivity.
Qed.

Lemma executeOpcode_safe pop vm :
  from_table pop -> Z.land (flags vm) ScriptEnableDisabledOpcodes = 0 ->
  ok vm -> room vm <= MaxStackSize ->
  wp (executeOpcode pop) (fun _ vm' => hpost 3 vm vm') vm.
Proof.
  intros Hpop Hfl Hok Hr. destruct (from_table_func pop Hpop) as [Hnil Hls].
  unfold executeOpcode. apply wp_bind, wp_gets, wp_bind, wp_guard_err. rewrite Hfl. intros Hdis.
  rewrite andb_true_r in Hdis. apply wp_bind, wp_guard_err. intros _. apply wp_bind.
  apply (wp_mono _ (fun _ vm' => hpost 0 vm vm')).
  { open_handler Hok. run; zbool; solve_hpost. }
  intros _ vm' Hpost. assert (Hok' : ok vm') by apply Hpost.
  assert (Hr' : room vm' <= room vm) by (destruct Hpost as (_ & _ & ?); lia).
  apply wp_bind, wp_gets. cbn beta. destruct (_ && _).
  { apply wp_ret. destruct Hpost as (? & ? & ?). split_and!; [done|done|lia]. }
  apply wp_bind. apply (wp_mono _ (fun _ vm2 => vm2 = vm')).
  { destruct (_ && _); [|done]. unfold checkMinimalDataPush. run; done. }
  intros _ ? ->. eapply wp_mono.
  - apply run_opfunc_safe; [done| |apply Hpop|done|lia]. intros Hf. by rewrite Hls in Hdis.
  - cbn beta. intros _ vm2 Hpost2. by apply (hpost_trans 0 3 3 _ vm').
Qed.
End Safety.
