(* ===== verification/EngineRun.v ===== *)
(** * Runs of the script engine

    The invariant of the states [Step] passes through, the termination measure of
    [Execute], and what a pay-to-script-hash run does. *)

From S2P Require Import Prelude ScriptError ScriptNum Stack OpcodeTable Script ScriptBuilder.
From S2P Require Import Transaction Sha256 Serialization Crypto SigHash SigCache Engine.
From S2P Require Import EngineSafety.

Section Run.
Context `{Crypto} {HS : CryptoSpec H}.

(** ** Single opcodes *)

Definition redeemHash (s1 : list parsedOpcode) : bytes :=
  match s1 with
  | [_; p1; _] => pop_data p1
  | _ => []
  end.

(** The handlers of some opcodes, by the value of the opcode. *)
Lemma funcs_of_values pop :
  from_table pop ->
  (pop_value pop = OpBlake2b -> op_func (pop_opcode pop) = f_opcodeBlake2b) /\
  (pop_value pop = OpData32 -> op_func (pop_opcode pop) = f_opcodePushData) /\
  (pop_value pop = OpEqual -> op_func (pop_opcode pop) = f_opcodeEqual) /\
  (pop_value pop = OpCheckSig -> op_func (pop_opcode pop) = f_opcodeCheckSig) /\
  (pop_value pop = OpData33 -> op_func (pop_opcode pop) = f_opcodePushData) /\
  (pop_value pop = OpCheckSigECDSA -> op_func (pop_opcode pop) = f_opcodeCheckSigECDSA) /\
  (pop_value pop = OpReturn -> op_func (pop_opcode pop) = f_opcodeReturn).
Proof.
  destruct pop as [op d]. intros (_ & _ & b & Hb). cbn in Hb. subst op. unfold pop_value.
  cbn [pop_opcode]. revert b. apply (opcodeArray_forall (fun op =>
    (op_value op = OpBlake2b -> op_func op = f_opcodeBlake2b) /\
    (op_value op = OpData32 -> op_func op = f_opcodePushData) /\
    (op_value op = OpEqual -> op_func op = f_opcodeEqual) /\
    (op_value op = OpCheckSig -> op_func op = f_opcodeCheckSig) /\
    (op_value op = OpData33 -> op_func op = f_opcodePushData) /\
    (op_value op = OpCheckSigECDSA -> op_func op = f_opcodeCheckSigECDSA) /\
    (op_value op = OpReturn -> op_func op = f_opcodeReturn))). vm_compute. reflexivity.
Qed.

(** The handlers of push opcodes, and what they have as data. *)
Lemma push_func pop :
  from_table pop -> pop_value pop <= Op16 ->
  (op_func (pop_opcode pop) = f_opcodeFalse /\ pop_value pop = 0 /\ pop_data pop = []) \/
  (op_func (pop_opcode pop) = f_opcodePushData /\ 0 < pop_value pop < Op1Negate) \/
  (op_func (pop_opcode pop) = f_opcode1Negate /\ pop_value pop = Op1Negate) \/
  op_func (pop_opcode pop) = f_opcodeReserved \/
  (op_func (pop_opcode pop) = f_opcodeN /\ Op1 <= pop_value pop <= Op16).
Proof.
  destruct pop as [op d]. intros (_ & [X HX] & b & Hb). cbn [pop_opcode] in Hb.
  assert (Hd : op_length op = 1 -> d = []).
  { intros H1. unfold operand in HX. cbn [pop_opcode pop_data] in HX. rewrite H1 in HX.
    destruct d as [|x d]; [done|]. rewrite len_cons in HX. pose proof (len_nonneg d).
    assert ((1 + len d =? 0) = false) as Hz by (apply Z.eqb_neq; lia). by rewrite Hz in HX. }
  assert (Hop : op_value op <= Op16 ->
    (op_func op = f_opcodeFalse /\ op_value op = 0 /\ op_length op = 1) \/
    (op_func op = f_opcodePushData /\ 0 < op_value op < Op1Negate) \/
    (op_func op = f_opcode1Negate /\ op_value op = Op1Negate) \/
    op_func op = f_opcodeReserved \/
    (op_func op = f_opcodeN /\ Op1 <= op_value op <= Op16)).
  { clear HX Hd. subst op. revert b. apply (opcodeArray_forall (fun op => op_value op <= Op16 ->
      (op_func op = f_opcodeFalse /\ op_value op = 0 /\ op_length op = 1) \/
      (op_func op = f_opcodePushData /\ 0 < op_value op < Op1Negate) \/
      (op_func op = f_opcode1Negate /\ op_value op = Op1Negate) \/
      op_func op = f_opcodeReserved \/
      (op_func op = f_opcodeN /\ Op1 <= op_value op <= Op16))). vm_compute. reflexivity. }
  unfold pop_value. cbn [pop_opcode pop_data]. intros [(? & ? & ?)|?]%Hop; auto.
Qed.

(** In an executing branch an opcode that is not a conditional runs its handler,
    once the checks on it have passed. *)
Lemma executeOpcode_runs pop (Q : unit -> Engine -> Prop) vm :
  branchExecuting (condStack vm) = true ->
  (forall n, numOps vm <= n <= Z.max (numOps vm) MaxOpsPerScript -> wp (run_opfunc (op_func (pop_opcode pop)) pop) Q (set_numOps n vm)) ->
  wp (executeOpcode pop) Q vm.
Proof.
  intros Hbr HQ. unfold executeOpcode. apply wp_bind, wp_gets, wp_bind, wp_guard_err. intros _.
  apply wp_bind, wp_guard_err. intros _. apply wp_bind.
  apply (wp_mono _ (fun _ vm' => exists n,
    numOps vm <= n <= Z.max (numOps vm) MaxOpsPerScript /\ vm' = set_numOps n vm)).
  { destruct (Op16 <? pop_value pop).
    - apply wp_bind, wp_modify, wp_bind, wp_gets, wp_guard_err. intros Hn. zbool. cbn in Hn.
      eexists. split; [|done]. lia.
    - apply wp_guard_err. intros _. exists (numOps vm). split; [lia|]. by destruct vm. }
  intros _ ? (n & Hn & ->). unfold isBranchExecuting. apply wp_bind, wp_gets.
  change (condStack (set_numOps n vm)) with (condStack vm). rewrite Hbr. cbn [negb andb].
  apply wp_bind. apply (wp_mono _ (fun _ vm' => vm' = set_numOps n vm)).
  { destruct (_ && _); [|done]. unfold checkMinimalDataPush. wp_steps; done. }
  intros _ ? ->. by apply HQ.
Qed.

Lemma PushInt_small (n : Z) (s : stack) : 1 <= n <= 16 -> PushInt n s = (Ret tt, s ++ [[zb n]]).
Proof.
  intros Hn.
  assert (n = 1 \/ n = 2 \/ n = 3 \/ n = 4 \/ n = 5 \/ n = 6 \/ n = 7 \/ n = 8 \/ n = 9 \/ n = 10 \/
    n = 11 \/ n = 12 \/ n = 13 \/ n = 14 \/ n = 15 \/ n = 16) as Hcases by lia.
  by repeat destruct Hcases as [-> | Hcases]; [..|subst].
Qed.

(** A push opcode that runs without error pushes its value. *)
Lemma push_opcode pop vm :
  from_table pop -> pop_value pop <= Op16 -> condStack vm = [] ->
  wp (executeOpcode pop) (fun _ vm' =>
    dstack vm' = dstack vm ++ [pushedValue pop] /\ condStack vm' = []) vm.
Proof.
  intros Hft Hv Hc. apply executeOpcode_runs; [by rewrite Hc|]. intros n _.
  destruct (push_func pop Hft Hv) as [(-> & E & Hd)|[(-> & E)|[(-> & E)|[->|(-> & E)]]]];
    cbn [run_opfunc]; [| | |done|].
  - apply wp_zoom, wp_modify. split; [|done]. cbn. unfold pushedValue. rewrite E, Hd.
    unfold pop_value in E. by rewrite E.
  - apply wp_zoom, wp_modify. split; [|done]. cbn. unfold pushedValue.
    rewrite (proj2 (Z.eqb_neq _ _)), (proj2 (Z.leb_gt _ _)); unfold pop_value, Op1Negate, Op1 in *; done || lia.
  - apply wp_zoom. split; [|done]. cbn. unfold pushedValue. unfold pop_value in E. by rewrite E.
  - apply wp_zoom. unfold wp. unfold opcodeN.
    assert (Hn : 1 <= pop_value pop - (Op1 - 1) <= 16) by (unfold Op1, Op16 in *; lia).
    unfold u8. rewrite Z.mod_small by lia. rewrite PushInt_small by done. cbn. split; [|done].
    unfold pushedValue. fold (pop_value pop). rewrite (proj2 (Z.eqb_neq _ _)) by (unfold Op1Negate, Op1 in *; lia).
    by rewrite !(proj2 (Z.leb_le _ _)) by lia.
Qed.

(** ** Copying and replacing stacks *)

Lemma traverse_pure {S E A B} (f : A -> M S E B) (g : A -> B) (l : list A) (s : S) :
  (forall x, x ∈ l -> f x s = (Ret (g x), s)) -> traverse f l s = (Ret (map g l), s).
Proof.
  induction l as [|x l IH]; intros Hf; cbn [traverse map]; [done|].
  erewrite bind_Ret by (apply Hf; by left).
  erewrite bind_Ret by (apply IH; intros y Hy; apply Hf; by right). done.
Qed.

Lemma PeekByteArray_lookup (s : stack) (i : Z) :
  fits s -> 0 <= i < len s ->
  PeekByteArray i s = (Ret (default [] (s !! Z.to_nat (len s - 1 - i))), s).
Proof.
  intros Hf Hi. destruct (lookup_lt_is_Some_2 s (Z.to_nat (len s - 1 - i))) as [x Hx];
    [unfold len in *; lia|]. rewrite Hx. change (default [] (Some x)) with x.
  pose proof (take_drop_middle s _ x Hx) as Hs.
  pose proof (PeekByteArray_middle (take (Z.to_nat (len s - 1 - i)) s)
    (drop (S (Z.to_nat (len s - 1 - i))) s) x) as Hp.
  rewrite Hs in Hp. specialize (Hp Hf).
  replace (len (drop (S (Z.to_nat (len s - 1 - i))) s)) with i in Hp; [done|].
  unfold len in *. rewrite length_drop. lia.
Qed.

Lemma getStack_run (s : stack) : fits s -> getStack s = (Ret s, s).
Proof.
  intros Hf. unfold getStack. erewrite bind_Ret by (unfold Depth, bind, get; by apply checkedStackSize_fits).
  erewrite bind_Ret.
  2: { apply (traverse_pure _ (fun i => default [] (s !! Z.to_nat (len s - 1 - i)))).
       intros i Hi. apply elem_of_seqZ in Hi. unfold bind, try.
       by rewrite PeekByteArray_lookup by (done || lia). }
  unfold ret. do 2 f_equal. apply list_eq. intros j.
  destruct (decide (j < length s)%nat) as [Hj|Hj].
  - rewrite reverse_lookup; rewrite length_map, length_seqZ; unfold len in *; [|lia].
    rewrite list_lookup_fmap, lookup_seqZ_lt by lia. cbn.
    replace (Z.to_nat _) with j by lia.
    by destruct (lookup_lt_is_Some_2 s j Hj) as [x ->].
  - rewrite !lookup_ge_None_2; [done|lia|].
    rewrite length_reverse, length_map, length_seqZ. unfold len. lia.
Qed.

(** [DropN] of the whole depth empties a stack; its error on an empty stack is
    ignored by the callers. *)
Lemma clear_run (s : stack) : fits s -> exists r, try (DropN (len s)) s = (Ret r, []).
Proof.
  intros Hf. unfold try, DropN. destruct s as [|x s].
  { by exists (inr (ScriptError ErrInvalidStackOperation)). }
  exists (inl tt). destruct (Z.ltb_spec (len (x :: s)) 1) as [Hl|_].
  { rewrite len_cons in Hl. pose proof (len_nonneg s). lia. }
  pose proof (DropN_loop [] (x :: s) Hf) as Hd. cbn [app] in Hd.
  unfold len. by rewrite Nat2Z.id, Hd.
Qed.

Lemma traverse_push (data s : stack) :
  exists r, traverse PushByteArray data s = (Ret r, s ++ data).
Proof.
  revert s. induction data as [|x data IH]; intros s; cbn [traverse].
  { exists []. by rewrite app_nil_r. }
  destruct (IH (s ++ [x])) as [r Hr]. exists (tt :: r).
  erewrite bind_Ret by done. erewrite bind_Ret by exact Hr. by rewrite <- app_assoc.
Qed.

Lemma setStack_run (data s : stack) : fits s -> setStack data s = (Ret tt, data).
Proof.
  intros Hf. unfold setStack. erewrite bind_Ret by (unfold Depth, bind, get; by apply checkedStackSize_fits).
  destruct (clear_run s Hf) as [r Hr]. erewrite bind_Ret by exact Hr.
  destruct (traverse_push data []) as [r' Hr']. by erewrite bind_Ret by exact Hr'.
Qed.


(** ** Measuring what is left to run *)

Definition remaining (ss : list (list parsedOpcode)) : Z :=
  foldr (fun s n => len s + n) 0 ss.

(** Opcodes left to run, with the bound on a redeem script still to come. *)
Definition measure (vm : Engine) : Z :=
  remaining (drop (Z.to_nat (scriptIdx vm)) (scripts vm)) - scriptOff vm +
  if isP2SH vm && (scriptIdx vm <=? 1) then MaxScriptSize else 0.

(** The bound on what is left after the end of the script of [vm]. *)
Definition left_after (vm : Engine) : Z :=
  remaining (drop (S (Z.to_nat (scriptIdx vm))) (scripts vm)) +
  if isP2SH vm && (scriptIdx vm <=? 1) then MaxScriptSize else 0.

Lemma remaining_nonneg ss : 0 <= remaining ss.
Proof. induction ss as [|s ss IH]; cbn; [lia|]. pose proof (len_nonneg s). fold (remaining ss). lia. Qed.

Lemma lookup_len {A} (l : list A) (i : Z) x : 0 <= i -> l !! Z.to_nat i = Some x -> i < len l.
Proof. intros Hi Hl. apply lookup_lt_Some in Hl. unfold len. lia. Qed.

Lemma wp_index_eq {S A} (l : list A) (i : Z) x (Q : A -> S -> Prop) s :
  0 <= i -> l !! Z.to_nat i = Some x -> Q x s -> wp (E := error) (index l i) Q s.
Proof.
  intros Hi Hl HQ. apply wp_index; [pose proof (lookup_len l i x Hi Hl); lia|]. congruence.
Qed.

Lemma ok_frame vm vm' :
  ok vm -> Forall small (dstack vm') -> Forall small (astack vm') -> vm_tx vm' = vm_tx vm ->
  txIdx vm' = txIdx vm -> sigHashReusedValues vm' = sigHashReusedValues vm ->
  sigCache vm' = sigCache vm -> sigCacheECDSA vm' = sigCacheECDSA vm ->
  0 <= numOps vm' <= MaxOpsPerScript -> ok vm'.
Proof.
  intros (_ & _ & V & [C1 C2] & _ & S) D A T I R E1 E2 [N1 N2].
  unfold ok, caches_ok. rewrite T, I, R, E1, E2. by split_and!.
Qed.

(** *** The end of a script *)

(** The rest of [endOfScript] once the next script is selected. *)
Definition skipEmptyScript : M Engine error bool :=
  vm <- get ;;
  (if scriptIdx vm <? len (scripts vm) then
     empty <- atScriptEnd ;;
     if empty : bool then modify (fun vm => set_pc (scriptIdx vm + 1) (scriptOff vm) vm)
     else ret tt
   else ret tt) ;;;
  gets (fun vm => len (scripts vm) <=? scriptIdx vm).

Definition cleared (vm : Engine) : Engine :=
  set_pc (scriptIdx vm) 0 (set_numOps 0 (set_astack [] vm)).

Lemma wp_endOfScript (Q : bool -> Engine -> Prop) vm :
  fits (astack vm) ->
  (condStack vm = [] -> wp (nextScript ;;; skipEmptyScript) Q (cleared vm)) ->
  wp endOfScript Q vm.
Proof.
  intros Hf HQ. unfold endOfScript. apply wp_bind, wp_gets, wp_bind, wp_guard_err. intros Hc.
  assert (condStack vm = []) as Hnil.
  { zbool. destruct (condStack vm) as [|c l]; [done|]. rewrite len_cons in Hc.
    pose proof (len_nonneg l). lia. }
  apply wp_bind, wp_zoom, wp_Depth; [done|]. apply wp_bind.
  destruct (clear_run (astack vm) Hf) as [r Hr].
  unfold wp at 1, try, onA, zoom. vm_simpl. unfold try in Hr.
  destruct (DropN (len (astack vm)) (astack vm)) as [[u|e|] st]; simplify_eq;
    (apply wp_bind, wp_modify, wp_bind, wp_modify; specialize (HQ Hnil); by destruct vm).
Qed.

(** The last script is not empty: it runs next; otherwise the run is over. *)
Lemma wp_skip_last (Q : bool -> Engine -> Prop) vm ss s :
  scripts vm = ss ++ [s] -> scriptIdx vm = len ss -> scriptOff vm = 0 ->
  (s <> [] -> Q false vm) -> (s = [] -> Q true (set_pc (scriptIdx vm + 1) 0 vm)) ->
  wp skipEmptyScript Q vm.
Proof.
  intros Hs Hi Ho Hrun Hend. unfold skipEmptyScript. pose proof (len_nonneg ss).
  apply wp_bind, wp_get. rewrite Hs, Hi. rewrite len_app, len_single.
  destruct (Z.ltb_spec (len ss) (len ss + 1)) as [_|]; [|lia].
  unfold atScriptEnd. apply wp_bind, wp_bind, wp_bind, wp_get, wp_bind, (wp_index_eq _ _ s).
  { lia. }
  { rewrite Hs, Hi. apply list_lookup_middle. unfold len. lia. }
  apply wp_ret. rewrite Ho. destruct s as [|p s].
  - apply wp_modify, wp_gets. cbn. rewrite Hs, Hi, len_app, len_single.
    destruct (Z.leb_spec (len ss + 1) (len ss + 1)) as [_|]; [|lia]. rewrite <- Hi, Ho. by apply Hend.
  - destruct (Z.leb_spec (len (p :: s)) 0) as [Hl|_];
      [rewrite len_cons in Hl; pose proof (len_nonneg s); lia|].
    apply wp_ret, wp_gets. rewrite Hs, Hi, len_app, len_single.
    destruct (Z.leb_spec (len ss + 1) (len ss)) as [|_]; [lia|]. by apply Hrun.
Qed.

(** Past the last script the run is over. *)
Lemma wp_skip_past (Q : bool -> Engine -> Prop) vm :
  len (scripts vm) <= scriptIdx vm -> Q true vm -> wp skipEmptyScript Q vm.
Proof.
  intros Hi HQ. unfold skipEmptyScript. apply wp_bind, wp_get.
  destruct (Z.ltb_spec (scriptIdx vm) (len (scripts vm))) as [|_]; [lia|].
  apply wp_bind, wp_ret, wp_gets. destruct (Z.leb_spec (len (scripts vm)) (scriptIdx vm)); [done|lia].
Qed.

Lemma ParseScript_from_table script pops :
  small script -> ParseScript script = (pops, None) ->
  Forall from_table pops /\ len pops <= MaxScriptSize.
Proof.
  intros Hs Hp. destruct (ParseScript_sizes script) as [Hn Hd].
  pose proof (ParseScript_operands script) as Ho. rewrite Hp in Hn, Hd, Ho. cbn in Hn, Hd, Ho.
  unfold small in Hs. split; [|lia].
  apply list.Forall_forall. intros pop Hin.
  rewrite list.Forall_forall in Hd, Ho. specialize (Hd pop Hin). destruct (Ho pop Hin) as [HX [b Hb]].
  split; [unfold small; lia|]. by split; [|exists b].
Qed.

Lemma cleared_ok vm : ok vm -> ok (cleared vm).
Proof. intros Hok. apply (ok_frame vm); try done. apply Hok. Qed.

Lemma cleared_room vm : room vm <= MaxStackSize -> room (cleared vm) <= MaxStackSize.
Proof. unfold room. cbn. pose proof (len_nonneg (astack vm)). rewrite Z.add_0_r. lia. Qed.

(** ** New engines *)

Section Init.
Context (spk : ScriptPublicKey) (tx : DomainTransaction) (idx : Z) (fl : ScriptFlags)
  (c1 : option (SigCache Schnorr)) (c2 : option SigCacheECDSA) (c3 : option MLDSA44Cache)
  (rv : SighashReusedValues).

(** The scripts of an accepted engine. *)
Record accepted (txIn : DomainTransactionInput) (ss sp : list parsedOpcode) : Prop := MkAccepted {
  acc_idx : 0 <= idx;
  acc_input : Inputs tx !! Z.to_nat idx = Some txIn;
  acc_nonempty : SignatureScript txIn <> [] \/ spk_Script spk <> [];
  acc_version : spk_Version spk <= MaxScriptPublicKeyVersion;
  acc_sigSize : len (SignatureScript txIn) <= MaxScriptSize;
  acc_sigParse : ParseScript (SignatureScript txIn) = (ss, None);
  acc_pushOnly : isPushOnly ss = true;
  acc_spkSize : len (spk_Script spk) <= MaxScriptSize;
  acc_spkParse : ParseScript (spk_Script spk) = (sp, None)
}.

(** The engine [Init] leaves when called on [vm]. *)
Definition installed (vm : Engine) (txIn : DomainTransactionInput) (ss sp : list parsedOpcode)
  : Engine :=
  MkEngine (spk_Version spk) [ss; sp]
    (if len (SignatureScript txIn) =? 0 then scriptIdx vm + 1 else scriptIdx vm) (scriptOff vm)
    (dstack vm) (astack vm) tx idx (condStack vm) (numOps vm) fl c1 c2 c3 rv
    (if isScriptHash sp then true else isP2SH vm) (savedFirstStack vm).

Lemma len_zero {A} (l : list A) : (len l =? 0) = bool_decide (l = []).
Proof.
  destruct l as [|x l]; [done|]. rewrite len_cons. pose proof (len_nonneg l).
  rewrite bool_decide_false by done. apply Z.eqb_neq. lia.
Qed.

Lemma guard_err_Ret {S E} (c : bool) (e : E) (s s' : S) u :
  guard_err c e s = (Ret u, s') -> c = false /\ s' = s.
Proof. unfold guard_err. destruct c; [done|]. by intros [= _ <-]. Qed.

Lemma parseScriptAndVerifySize_Ret script pops vm vm' :
  parseScriptAndVerifySize script vm = (Ret pops, vm') <->
  len script <= MaxScriptSize /\ ParseScript script = (pops, None) /\ vm' = vm.
Proof.
  unfold parseScriptAndVerifySize, bind, guard_err, parse.
  destruct (Z.ltb_spec MaxScriptSize (len script)) as [Hl|Hl]; cbn.
  { split; [done|lia]. }
  destruct (ParseScript script) as [ps [e|]]; cbn; [by split; [|intros (_ & [= _] & _)]|].
  split; [intros [= <- <-]; done|]. intros (_ & [= <-] & ->). done.
Qed.

Lemma Init_Ret vm vm' :
  Init spk tx idx fl c1 c2 c3 rv vm = (Ret tt, vm') <->
  exists txIn ss sp, accepted txIn ss sp /\ vm' = installed vm txIn ss sp.
Proof.
  unfold Init. split.
  - intros Hr.
    apply bind_Ret_inv in Hr as ([] & s1 & [G1 ->]%guard_err_Ret & Hr).
    apply bind_Ret_inv in Hr as (txIn & s2 & Hin & Hr).
    apply bind_Ret_inv in Hr as ([] & s3 & [G2 ->]%guard_err_Ret & Hr).
    apply bind_Ret_inv in Hr as ([] & s4 & [= <-] & Hr).
    apply bind_Ret_inv in Hr as ([] & s5 & [G3 ->]%guard_err_Ret & Hr).
    apply bind_Ret_inv in Hr as (ss & s6 & (L1 & P1 & ->)%parseScriptAndVerifySize_Ret & Hr).
    apply bind_Ret_inv in Hr as ([] & s7 & [G4 ->]%guard_err_Ret & Hr).
    apply bind_Ret_inv in Hr as (sp & s8 & (L2 & P2 & ->)%parseScriptAndVerifySize_Ret & Hr).
    zbool. unfold index in Hin. rewrite (proj2 (Z.leb_le 0 idx)) in Hin by lia.
    destruct (Inputs tx !! Z.to_nat idx) as [txIn'|] eqn:Hl; [|done]. injection Hin as <- <-.
    exists txIn', ss, sp. split.
    + split; try done; try lia. rewrite !len_zero in G2.
      destruct (SignatureScript txIn'), (spk_Script spk); cbn in G2; try done; by (left + right).
    + unfold bind, modify, ret, guard_err in Hr. cbn in Hr. rewrite G4 in Hr. unfold installed.
      destruct (len (SignatureScript txIn') =? 0), (isScriptHash sp); cbn in Hr;
        by injection Hr as <-.
  - intros (txIn & ss & sp & [A1 A2 A3 A4 A5 A6 A7 A8 A9] & ->).
    pose proof (lookup_len _ _ _ A1 A2).
    erewrite bind_Ret.
    2: { unfold guard_err. rewrite (proj2 (Z.ltb_ge _ _)), (proj2 (Z.leb_gt _ _)) by lia. done. }
    erewrite bind_Ret by (unfold index; by rewrite (proj2 (Z.leb_le _ _)), A2 by done).
    erewrite bind_Ret.
    2: { unfold guard_err. rewrite !len_zero.
         destruct (SignatureScript txIn), (spk_Script spk); cbn; naive_solver. }
    erewrite bind_Ret by done.
    erewrite bind_Ret.
    2: { unfold guard_err. rewrite (proj2 (Z.ltb_ge _ _)) by lia. done. }
    erewrite bind_Ret by (by apply parseScriptAndVerifySize_Ret).
    erewrite bind_Ret by (unfold guard_err; by rewrite A7).
    erewrite bind_Ret by (by apply parseScriptAndVerifySize_Ret).
    unfold bind, modify, ret, guard_err, installed. cbn. rewrite A7.
    destruct (len (SignatureScript txIn) =? 0), (isScriptHash sp); done.
Qed.

Lemma NewEngine_Ret vm :
  NewEngine spk tx idx fl c1 c2 c3 rv = Ret vm <->
  exists txIn ss sp, accepted txIn ss sp /\ vm = installed zeroEngine txIn ss sp.
Proof.
  rewrite <- Init_Ret. unfold NewEngine.
  destruct (Init spk tx idx fl c1 c2 c3 rv zeroEngine) as [[[]|e|] vm']; split; try done; by intros [= <-].
Qed.
End Init.
End Run.

(** Evaluate concrete script indices. *)
Ltac pc_simpl :=
  change (0 + 1) with 1 in *; change (1 + 1) with 2 in *; change (Z.to_nat 0) with 0%nat in *;
  change (Z.to_nat 1) with 1%nat in *; change (Z.to_nat 2) with 2%nat in *;
  unfold remaining in *; cbn [drop foldr app andb Z.leb Z.compare Pos.compare Pos.compare_cont].
