(* ===== verification/EngineLogic.v ===== *)
(** * A logic for script runs

    What a run of the engine does, for any signature script and any public key
    script.  A client describes the public key script by an assertion [At k] on
    the stack and the conditional stack before its opcode [k], and shows that each
    opcode leads from one assertion to the next.  The logic then gives the
    invariant of every state [Step] reaches, that no step panics, that [Execute]
    terminates, and that a successful run ends in a state that satisfies the last
    assertion.  The signature script, which only pushes, and the change to the
    redeem script of a pay-to-script-hash output are handled here once. *)

From S2P Require Import Prelude ScriptError ScriptNum Stack OpcodeTable Script ScriptBuilder.
From S2P Require Import Transaction Sha256 Serialization Crypto SigHash SigCache Engine.
From S2P Require Import EngineSafety EngineRun.

Section Logic.
Context `{Crypto} {HS : CryptoSpec H}.
Context (tx : DomainTransaction) (idx : Z) (fl : ScriptFlags) (ss sp : list parsedOpcode)
  (At : Z -> stack -> list Z -> Prop).

Definition pushes : stack := map pushedValue ss.

Definition env (vm : Engine) : Prop := vm_tx vm = tx /\ txIdx vm = idx /\ flags vm = fl.

Definition script_ok (s : list parsedOpcode) : Prop :=
  Forall from_table s /\ len s <= MaxScriptSize.

Class ScriptLogic : Prop := {
  sl_flags : Z.land fl ScriptEnableDisabledOpcodes = 0;
  sl_sig : script_ok ss;
  sl_pushOnly : isPushOnly ss = true;
  sl_pk : script_ok sp;
  sl_start : At 0 pushes [];
  sl_step : forall k pop vm, 0 <= k -> sp !! Z.to_nat k = Some pop -> from_table pop ->
    ok vm -> room vm <= MaxStackSize -> env vm -> At k (dstack vm) (condStack vm) ->
    wp (executeOpcode pop) (fun _ vm' => At (k + 1) (dstack vm') (condStack vm')) vm;
  sl_p2sh : isScriptHash sp = true -> forall ds conds, At 3 ds conds -> exists l x,
    pushes = l ++ [x] /\ ds = l ++ [fromBool (bool_decide (redeemHash sp = blake2b_Sum256 x))]
}.

Context {SL : ScriptLogic}.

(** The redeem script is the last push, and hashes to the hash of the output. *)
Definition redeemed (s2 : list parsedOpcode) : Prop :=
  exists l x, pushes = l ++ [x] /\ blake2b_Sum256 x = redeemHash sp /\ ParseScript x = (s2, None).

(** ** The invariant *)

(** Where a run is, [off] being the next offset in the current script: in the
    signature script, whose pushes so far are the stack; in the public key script;
    or in the redeem script. *)
Definition phase_at (off : Z) (vm : Engine) : Prop :=
  (scripts vm = [ss; sp] /\ isP2SH vm = isScriptHash sp /\
   ((scriptIdx vm = 0 /\ dstack vm = map pushedValue (take (Z.to_nat off) ss) /\
     condStack vm = []) \/
    (scriptIdx vm = 1 /\ At off (dstack vm) (condStack vm) /\
     (isP2SH vm = true -> savedFirstStack vm = pushes)))) \/
  (exists s2, scripts vm = [ss; sp; s2] /\ scriptIdx vm = 2 /\ isScriptHash sp = true /\
   isP2SH vm = true /\ redeemed s2).

Definition phase (vm : Engine) : Prop := phase_at (scriptOff vm) vm.

Definition common (vm : Engine) : Prop :=
  ok vm /\ room vm <= MaxStackSize /\ env vm /\ Forall small (savedFirstStack vm) /\
  Forall script_ok (scripts vm).

Record Inv (vm : Engine) : Prop := MkInv {
  inv_common : common vm;
  inv_pc : exists script pop, 0 <= scriptIdx vm /\ 0 <= scriptOff vm /\
    scripts vm !! Z.to_nat (scriptIdx vm) = Some script /\
    script !! Z.to_nat (scriptOff vm) = Some pop;
  inv_phase : phase vm
}.

(** The state in which [Step] reports the end of the last script. *)
Definition final (vm : Engine) : Prop :=
  common vm /\ len (scripts vm) <= scriptIdx vm /\
  (isScriptHash sp = false -> At (len sp) (dstack vm) []) /\
  (isScriptHash sp = true -> exists s2, scripts vm = [ss; sp; s2] /\ redeemed s2).

Definition step_post (bound : Z) (done : bool) (vm' : Engine) : Prop :=
  if done then final vm' else Inv vm' /\ measure vm' <= bound.

(** ** One opcode *)

Lemma pushOnly_lookup i pop : ss !! i = Some pop -> pop_value pop <= Op16.
Proof.
  intros Hp. pose proof sl_pushOnly as Hpo. unfold isPushOnly in Hpo. rewrite forallb_forall in Hpo.
  specialize (Hpo pop). apply list_elem_of_lookup_2, list_elem_of_In in Hp.
  specialize (Hpo Hp). zbool. lia.
Qed.

Lemma execute_current vm script pop :
  Inv vm -> scripts vm !! Z.to_nat (scriptIdx vm) = Some script ->
  script !! Z.to_nat (scriptOff vm) = Some pop ->
  wp (executeOpcode pop) (fun _ vm' =>
      hpost 3 (set_pc (scriptIdx vm) (scriptOff vm + 1) vm) vm' /\
      phase_at (scriptOff vm + 1) vm')
    (set_pc (scriptIdx vm) (scriptOff vm + 1) vm).
Proof.
  intros [(Hok & Hr & He & _ & Hss) (sc & po & Hi & Ho & _ & _) Hph] Hs Hp.
  pose proof (Forall_lookup_1 _ _ _ _ Hss Hs) as [Hft _].
  pose proof (Forall_lookup_1 _ _ _ _ Hft Hp) as Hpop.
  set (vm1 := set_pc (scriptIdx vm) (scriptOff vm + 1) vm).
  assert (Hsafe : wp (executeOpcode pop) (fun _ vm' => hpost 3 vm1 vm') vm1).
  { apply executeOpcode_safe; [done| |done|done]. cbn. destruct He as (_ & _ & ->). apply sl_flags. }
  assert (Hfr : forall vm', hpost 3 vm1 vm' -> scripts vm' = scripts vm /\
    scriptIdx vm' = scriptIdx vm /\ isP2SH vm' = isP2SH vm /\ savedFirstStack vm' = savedFirstStack vm).
  { intros vm' [Hfix _]. unfold fixed, vm1 in Hfix. vm_simpl. injection Hfix as _ -> -> _ _ _ _ -> ->. done. }
  destruct Hph as [(Hsc & Hp2 & [(Hi0 & Hd & Hc)|(Hi1 & Hat & Hsv)])|(s2 & Hsc & Hi2 & Hrest)].
  - rewrite Hsc, Hi0 in Hs. injection Hs as <-.
    pose proof (push_opcode pop vm1 Hpop (pushOnly_lookup _ _ Hp) Hc) as Hexec.
    eapply wp_mono; [apply (wp_conj _ _ _ _ Hsafe Hexec)|]. cbn beta. intros _ vm' [Hh [Hd' Hc']].
    split; [done|]. destruct (Hfr vm' Hh) as (E1 & E2 & E3 & _). left. rewrite E1, E2, E3.
    split_and!; [done|done|]. left. split_and!; [done| |done].
    rewrite Hd'. cbn. rewrite Hd, Z2Nat.inj_add, Nat.add_1_r, (take_S_r ss _ pop Hp) by lia.
    by rewrite map_app.
  - rewrite Hsc, Hi1 in Hs. injection Hs as <-.
    pose proof (sl_step (scriptOff vm) pop vm1 Ho Hp Hpop Hok Hr He Hat) as Hexec.
    eapply wp_mono; [apply (wp_conj _ _ _ _ Hsafe Hexec)|]. cbn beta. intros _ vm' [Hh Hat'].
    split; [done|]. destruct (Hfr vm' Hh) as (E1 & E2 & E3 & E4). left. rewrite E1, E2, E3, E4.
    split_and!; [done|done|]. right. by split_and!.
  - eapply wp_mono; [exact Hsafe|]. cbn beta. intros _ vm' Hh. split; [done|].
    destruct (Hfr vm' Hh) as (E1 & E2 & E3 & _). right. exists s2. by rewrite E1, E2, E3.
Qed.

(** ** The end of a script *)

(** The state after the last opcode of a script. *)
Definition ended (vm : Engine) : Prop :=
  common vm /\ exists script, scripts vm !! Z.to_nat (scriptIdx vm) = Some script /\
    phase_at (len script) vm.

Lemma Inv_start vm script :
  common vm -> 0 <= scriptIdx vm -> scriptOff vm = 0 ->
  scripts vm !! Z.to_nat (scriptIdx vm) = Some script -> script <> [] -> phase_at 0 vm -> Inv vm.
Proof.
  intros Hc Hi Ho Hl Hne Hph. split; [done| |unfold phase; by rewrite Ho].
  destruct script as [|pop script]; [done|]. exists (pop :: script), pop. rewrite Ho. by split_and!.
Qed.

Lemma cleared_common vm : common vm -> common (cleared vm).
Proof.
  intros (Hok & Hr & He & Hsm & Hss).
  split_and!; [by apply cleared_ok|by apply cleared_room|apply He..|done|done].
Qed.

Lemma common_pc vm i o : common vm -> common (set_pc i o vm).
Proof. intros (Hok & Hr & He & Hsm & Hss). split_and!; try done; apply Hok || apply He. Qed.

(** The signature script has ended. *)
Lemma after_signature_script vm :
  common vm -> scripts vm = [ss; sp] -> isP2SH vm = isScriptHash sp -> scriptIdx vm = 0 ->
  dstack vm = pushes -> condStack vm = [] ->
  wp (nextScript ;;; skipEmptyScript) (step_post (left_after vm)) (cleared vm).
Proof.
  intros Hc Hsc Hp2 Hi Hd Hcond. pose proof (cleared_common vm Hc) as Hc'.
  destruct Hc as (Hok & Hr & He & Hsm & Hss).
  assert (Hfits : fits (dstack vm)).
  { unfold fits, room, MaxStackSize, MaxInt32 in *. pose proof (len_nonneg (astack vm)). lia. }
  unfold nextScript. apply wp_bind, wp_bind, wp_get. cbn [scriptIdx isP2SH cleared set_pc set_numOps set_astack].
  rewrite Hi. cbn [Z.eqb andb].
  assert (Hdone : forall saved, Forall small saved -> (isScriptHash sp = true -> saved = pushes) ->
    wp skipEmptyScript (step_post (left_after vm))
      (set_savedFirstStack saved (set_pc (0 + 1) 0 (cleared vm)))).
  { intros saved Hsmall Hsaved.
    assert (Hc2 : common (set_savedFirstStack saved (set_pc (0 + 1) 0 (cleared vm)))).
    { destruct Hc' as (Hok' & Hr' & He' & _ & Hss'). split_and!; try done; apply Hok' || apply He'. }
    apply (wp_skip_last _ _ [ss] sp); [by cbn|done|done| |].
    - intros Hne. split.
      + apply (Inv_start _ sp); [done|done|done|by cbn; rewrite Hsc|done|].
        left. split_and!; [done|done|]. right. cbn. split_and!; [done| |].
        * rewrite Hd, Hcond. apply sl_start.
        * rewrite Hp2. apply Hsaved.
      + unfold measure, left_after. cbn. rewrite Hsc, Hi. pc_simpl. destruct (isP2SH vm); lia.
    - intros Hnil. split_and!; [by apply common_pc|by cbn; rewrite Hsc| |by rewrite Hnil].
      intros _. cbn. rewrite Hd, Hnil. apply sl_start. }
  rewrite Hp2. destruct (isScriptHash sp) eqn:Hsh.
  - apply wp_bind, wp_modify, wp_bind, wp_zoom. cbn [dstack set_pc cleared set_numOps set_astack].
    unfold wp at 1. rewrite getStack_run by done. apply wp_modify. rewrite Hd.
    replace (set_dstack pushes (set_pc (0 + 1) 0 (cleared vm))) with (set_pc (0 + 1) 0 (cleared vm)).
    2: { rewrite <- Hd. by destruct vm. }
    apply Hdone; [|done]. rewrite <- Hd. apply Hok.
  - apply wp_modify. specialize (Hdone (savedFirstStack vm) Hsm ltac:(done)). by destruct vm.
Qed.

(** The public key script of a pay-to-script-hash output has ended. *)
Lemma after_script_hash vm l x :
  common vm -> scripts vm = [ss; sp] -> isP2SH vm = true -> isScriptHash sp = true ->
  scriptIdx vm = 1 -> savedFirstStack vm = pushes -> pushes = l ++ [x] ->
  dstack vm = l ++ [fromBool (bool_decide (redeemHash sp = blake2b_Sum256 x))] ->
  wp (nextScript ;;; skipEmptyScript) (step_post (left_after vm)) (cleared vm).
Proof.
  intros Hc Hsc Hp2 Hsh Hi Hsv Hpx Hd. pose proof (cleared_common vm Hc) as Hc'.
  destruct Hc as (Hok & Hr & He & Hsm & Hss).
  assert (Hfits : fits (dstack vm)).
  { unfold fits, room, MaxStackSize, MaxInt32 in *. pose proof (len_nonneg (astack vm)). lia. }
  unfold nextScript. apply wp_bind, wp_bind, wp_get. cbn [scriptIdx isP2SH cleared set_pc set_numOps set_astack].
  rewrite Hi, Hp2. cbn [Z.eqb andb]. apply wp_bind, wp_modify, wp_bind.
  unfold CheckErrorCondition. apply wp_bind, wp_get, wp_bind, wp_guard_err. intros _.
  apply wp_bind, wp_ret, wp_bind, wp_zoom. cbn [dstack set_pc cleared set_numOps set_astack].
  unfold PopBool. apply wp_bind, wp_PopByteArray_eq; [done|]. intros l' b Hb.
  rewrite Hd in Hb. apply app_inj_tail in Hb as [<- <-]. apply wp_ret, wp_guard_err. intros Heq.
  assert (Hhash : blake2b_Sum256 x = redeemHash sp).
  { by destruct (bool_decide_reflect (redeemHash sp = blake2b_Sum256 x)). }
  apply wp_bind, wp_gets. cbn [savedFirstStack set_dstack set_pc cleared set_numOps set_astack].
  rewrite Hsv, Hpx in Hsm. rewrite Hsv, Hpx. apply wp_bind. unfold wp at 1.
  replace (len (l ++ [x]) - 1) with (len l) by (len_simpl; lia). rewrite index_middle by done.
  apply wp_bind. unfold parse.
  destruct (ParseScript x) as [pops [e|]] eqn:Hparse; [apply wp_throw|]. apply wp_ret.
  apply wp_bind, wp_modify, wp_zoom. unfold wp at 1. cbn [dstack set_scripts set_dstack].
  rewrite length_app. cbn [List.length]. rewrite Nat.add_sub, take_app_length.
  apply Forall_app in Hsm as [Hl Hx]. apply Forall_cons_1 in Hx as [Hx _].
  assert (Hroom : len l + 0 <= MaxStackSize).
  { unfold room in Hr. rewrite Hd in Hr. pose proof (len_nonneg (astack vm)). len_simpl. lia. }
  rewrite setStack_run.
  2: { unfold fits in *. rewrite Hd in Hfits. len_simpl. lia. }
  destruct (ParseScript_from_table x pops Hx Hparse) as [Hft Hlen].
  set (vm2 := set_dstack l _).
  assert (Hscr : scripts vm2 = [ss; sp; pops]) by (unfold vm2; cbn; by rewrite Hsc).
  assert (Hred : redeemed pops) by (by exists l, x).
  assert (Hc2 : common vm2).
  { split; [|split; [exact Hroom|split; [exact He|split]]].
    - apply (ok_frame (cleared vm)); try done; apply Hc'.
    - cbn. rewrite Hsv, Hpx. apply Forall_app_2; [done|]. by constructor.
    - rewrite Hscr. rewrite Hsc in Hss. apply Forall_cons_1 in Hss as [H0 Hss].
      apply Forall_cons_1 in Hss as [H1 _]. by do 3 (constructor; [done|]). }
  apply (wp_skip_last _ _ [ss; sp] pops); [done|done|done| |].
  - intros Hne. split.
    + apply (Inv_start _ pops); [done|done|done|by rewrite Hscr|done|].
      right. exists pops. by rewrite Hscr.
    + unfold measure, left_after. rewrite Hscr, Hsc, Hi, Hp2. cbn. rewrite Hp2. pc_simpl. lia.
  - intros Hnil. split_and!; [by apply common_pc|by cbn; rewrite Hsc|by rewrite Hsh|].
    intros _. exists pops. split; [exact Hscr|done].
Qed.

Lemma endOfScript_spec vm : ended vm -> wp endOfScript (step_post (left_after vm)) vm.
Proof.
  intros (Hc & script & Hl & Hph). pose proof Hc as (Hok & Hr & He & Hsm & Hss). apply wp_endOfScript.
  { unfold fits, room, MaxStackSize, MaxInt32 in *. pose proof (len_nonneg (dstack vm)). lia. }
  intros Hcond. pose proof (cleared_common vm Hc) as Hc'.
  destruct Hph as [(Hsc & Hp2 & [(Hi & Hd & _)|(Hi & Hat & Hsv)])|(s2 & Hsc & Hi & Hsh & Hp2 & Hred)];
    rewrite Hsc, Hi in Hl; injection Hl as <-.
  - apply after_signature_script; try done. rewrite Hd, take_ge; [done|]. unfold len. lia.
  - destruct (isScriptHash sp) eqn:Hsh.
    + assert (Hlen : len sp = 3) by (by destruct sp as [|? [|? [|? [|]]]]).
      rewrite Hlen in Hat. destruct (sl_p2sh Hsh _ _ Hat) as (l & x & Hpx & Hd).
      apply (after_script_hash vm l x); auto.
    + unfold nextScript. apply wp_bind, wp_bind, wp_get.
      cbn [scriptIdx isP2SH cleared set_pc set_numOps set_astack]. rewrite Hp2, !andb_false_r.
      apply wp_modify, wp_skip_past; [by cbn; rewrite Hsc, Hi|].
      split_and!; [by apply common_pc|by cbn; rewrite Hsc, Hi| |by rewrite Hsh].
      intros _. by rewrite Hcond in Hat.
  - unfold nextScript. apply wp_bind, wp_bind, wp_get.
    cbn [scriptIdx isP2SH cleared set_pc set_numOps set_astack]. rewrite Hi. cbn [Z.eqb andb].
    apply wp_modify, wp_skip_past; [by cbn; rewrite Hsc|].
    split_and!; [by apply common_pc|by cbn; rewrite Hsc|by rewrite Hsh|]. intros _. by exists s2.
Qed.

(** ** One step *)

Lemma Step_spec vm : Inv vm -> wp Step (step_post (measure vm - 1)) vm.
Proof.
  intros Hinv. pose proof Hinv as [Hc (script & pop & Hi & Ho & Hs & Hp) Hph].
  pose proof (lookup_len _ _ _ Hi Hs) as Hil. pose proof (lookup_len _ _ _ Ho Hp) as Hol.
  unfold Step, validPC. apply wp_bind, wp_bind, wp_get, wp_bind, wp_guard_err. intros _.
  apply wp_bind, (wp_index_eq _ _ script); [done..|]. apply wp_guard_err. intros _.
  apply wp_bind, wp_get, wp_bind, (wp_index_eq _ _ script); [done..|].
  apply wp_bind, (wp_index_eq _ _ pop); [done..|]. apply wp_bind, wp_modify, wp_bind.
  eapply wp_mono; [by apply (execute_current vm script pop)|]. cbn beta.
  intros _ vm' [(Hfix & Hok' & Hr') Hph']. change (room (set_pc _ _ vm)) with (room vm) in Hr'.
  unfold fixed in Hfix. vm_simpl. injection Hfix as Hver Hscr Hidx Hoff Htx Htxi Hflg Hp2 Hsaved.
  destruct Hc as (Hok & Hr & He & Hsm & Hss).
  assert (Hfits : fits (dstack vm') /\ fits (astack vm')).
  { unfold fits, room, MaxStackSize, MaxInt32 in *. pose proof (len_nonneg (astack vm')).
    pose proof (len_nonneg (dstack vm')). lia. }
  apply wp_bind, wp_zoom, wp_Depth; [apply Hfits|]. vm_simpl.
  apply wp_bind, wp_zoom, wp_Depth; [apply Hfits|]. vm_simpl.
  apply wp_bind, wp_guard_err. intros Hroom. zbool.
  replace (set_astack (astack vm') (set_dstack (dstack vm') vm')) with vm' by (by destruct vm').
  assert (Hc' : common vm').
  { destruct He as (E1 & E2 & E3). split; [done|]. split; [unfold room; lia|].
    split; [split_and!; congruence|]. by rewrite Hsaved, Hscr. }
  assert (Hmeas : measure vm = len script - scriptOff vm + left_after vm).
  { unfold measure, left_after.
    rewrite (drop_S (scripts vm) script (Z.to_nat (scriptIdx vm)) Hs). cbn [remaining foldr].
    fold (remaining (drop (S (Z.to_nat (scriptIdx vm))) (scripts vm))). lia. }
  unfold atScriptEnd. apply wp_bind, wp_bind, wp_get, wp_bind, (wp_index_eq _ _ script);
    [lia|congruence|]. apply wp_ret. rewrite Hoff.
  assert (Hleft : left_after vm' = left_after vm).
  { unfold left_after. by rewrite Hidx, Hscr, Hp2. }
  destruct (Z.leb_spec (len script) (scriptOff vm + 1)) as [Hend|Hmore].
  - eapply wp_mono; [apply endOfScript_spec|].
    + split; [done|]. exists script. rewrite Hscr, Hidx. split; [done|].
      by replace (len script) with (scriptOff vm + 1) by lia.
    + intros [] vm2 Hpost; [done|]. destruct Hpost as [Hinv2 Hm]. split; [done|]. lia.
  - apply wp_ret. split; [|unfold measure, left_after in *; rewrite Hidx, Hscr, Hp2, Hoff; lia].
    destruct (lookup_lt_is_Some_2 script (Z.to_nat (scriptOff vm + 1))) as [pop' Hpop'];
      [unfold len in *; lia|].
    split; [done| |unfold phase; by rewrite Hoff].
    exists script, pop'. rewrite Hidx, Hoff, Hscr. split_and!; [lia|lia|done|done].
Qed.

(** ** Whole runs *)

(** [vm'] is the state after a step of a run that goes on. *)
Definition runs_to (vm vm' : Engine) : Prop := Step vm = (Ret false, vm').

Lemma runs_invariant vm vm' : rtc runs_to vm vm' -> Inv vm -> Inv vm'.
Proof.
  induction 1 as [|vm vm1 vm' Hstep _ IH]; [done|]. intros Hinv. apply IH.
  pose proof (Step_spec vm Hinv) as Hs. unfold wp in Hs. rewrite Hstep in Hs. apply Hs.
Qed.

(** What a successful run leaves. *)
Definition succeeded (vm : Engine) : Prop :=
  (isScriptHash sp = false -> exists x, asBool x = true /\ At (len sp) [x] []) /\
  (isScriptHash sp = true -> exists s2, scripts vm = [ss; sp; s2] /\ redeemed s2).

Lemma final_check vm :
  final vm -> wp (CheckErrorCondition true) (fun _ vm' => succeeded vm') vm.
Proof.
  intros ((_ & Hr & _) & _ & Hat & Hred).
  assert (Hf : fits (dstack vm)).
  { unfold fits, room, MaxStackSize, MaxInt32 in *. pose proof (len_nonneg (astack vm)). lia. }
  unfold CheckErrorCondition. apply wp_bind, wp_get, wp_bind, wp_guard_err. intros _.
  apply wp_bind, wp_bind, wp_zoom, wp_Depth; [done|]. apply wp_bind, wp_guard_err. intros H1.
  apply wp_guard_err. intros H2. apply wp_bind, wp_zoom. unfold PopBool.
  apply wp_bind, wp_PopByteArray_eq; [done|]. intros l x Hd. apply wp_ret, wp_guard_err. intros Hb.
  zbool. cbn in Hd. rewrite Hd in *. len_simpl.
  destruct l as [|y l]; [|len_simpl; pose proof (len_nonneg l); lia].
  split; [|done]. intros Hsh. exists x. split; [done|]. by apply Hat.
Qed.

Lemma executeLoop_spec fuel vm :
  Inv vm -> measure vm < Z.of_nat fuel ->
  exists r vm', executeLoop fuel vm = Some (r, vm') /\ r <> Panic /\
    (r = Ret tt -> succeeded vm').
Proof.
  revert vm. induction fuel as [|fuel IH]; intros vm Hinv Hm.
  { destruct Hinv as [_ (script & pop & Hi & Ho & Hs & Hp) _]. exfalso.
    pose proof (lookup_len _ _ _ Ho Hp). unfold measure in Hm.
    rewrite (drop_S (scripts vm) script _ Hs) in Hm. cbn [remaining foldr] in Hm.
    pose proof (remaining_nonneg (drop (S (Z.to_nat (scriptIdx vm))) (scripts vm))) as Hn.
    unfold remaining in Hn. unfold MaxScriptSize in Hm. repeat case_match; lia. }
  cbn [executeLoop]. pose proof (Step_spec vm Hinv) as Hstep. unfold wp in Hstep.
  destruct (Step vm) as [[fin|e|] vm']; [|by do 2 eexists|done].
  destruct fin; cbn in Hstep.
  - pose proof (final_check vm' Hstep) as Hwp. unfold wp in Hwp.
    destruct (CheckErrorCondition true vm') as [[[]|e|] vm2]; [|by do 2 eexists|done].
    by do 2 eexists.
  - destruct Hstep as [Hinv' Hm']. apply IH; [done|lia].
Qed.
End Logic.

(** ** New engines satisfy the invariant *)

Section Start.
Context `{Crypto} {HS : CryptoSpec H}.

(** What callers of [NewEngine] provide: reused values and caches that hold only
    valid entries, and a populated UTXO entry. *)
Record caller_ok (tx : DomainTransaction) (idx : Z) (c1 : option (SigCache Schnorr))
    (c2 : option SigCacheECDSA) (rv : SighashReusedValues) : Prop := MkCallerOk {
  co_reused : valid_reused tx rv;
  co_cache : forall s, c1 = Some s -> valid_cache Schnorr s;
  co_cacheECDSA : forall s, c2 = Some s -> valid_cache ECDSA s;
  co_spends : spends tx idx
}.

Lemma accepted_script_ok script pops :
  len script <= MaxScriptSize -> ParseScript script = (pops, None) -> script_ok pops.
Proof. intros. by apply (ParseScript_from_table script). Qed.

Lemma accepted_Inv spk tx idx fl c1 c2 c3 rv txIn ss sp At `{!ScriptLogic tx idx fl ss sp At} :
  accepted spk tx idx txIn ss sp -> caller_ok tx idx c1 c2 rv ->
  let vm := installed spk tx idx fl c1 c2 c3 rv zeroEngine txIn ss sp in
  Inv tx idx fl ss sp At vm /\ measure vm < Z.of_nat executeFuel.
Proof.
  intros [A1 A2 A3 A4 A5 A6 A7 A8 A9] [Hrv H1 H2 Hsp] vm.
  destruct (sl_sig tx idx fl ss sp At) as [F1 L1]. destruct (sl_pk tx idx fl ss sp At) as [F2 L2].
  pose proof (len_nonneg ss). pose proof (len_nonneg sp). unfold vm, installed. rewrite len_zero. split.
  - apply (Inv_start tx idx fl ss sp At _ (if bool_decide (SignatureScript txIn = []) then sp else ss));
      cbn; try done.
    + split_and!; try done. by repeat (constructor; [done|]).
    + by case_bool_decide.
    + by case_bool_decide.
    + case_bool_decide; eapply ParseScript_nonempty; try done. by destruct A3.
    + left. cbn. split_and!; [done|by case_match|]. case_bool_decide as Hn; [right|left; done].
      rewrite Hn in A6. injection A6 as <-. split_and!; [done| |done]. apply (sl_start tx idx fl [] sp At).
  - unfold executeFuel, measure. cbn. unfold MaxScriptSize in *.
    case_bool_decide; pc_simpl; repeat case_match; lia.
Qed.

(** Runs of a new engine: [Execute] ends without panic, and what success means. *)
Lemma Execute_spec spk tx idx fl c1 c2 c3 rv txIn ss sp At `{!ScriptLogic tx idx fl ss sp At} :
  accepted spk tx idx txIn ss sp -> caller_ok tx idx c1 c2 rv ->
  exists r vm', Execute (installed spk tx idx fl c1 c2 c3 rv zeroEngine txIn ss sp) = Some (r, vm') /\
    r <> Panic /\ (r = Ret tt -> succeeded ss sp At vm').
Proof.
  intros Hacc Hco. unfold Execute. cbn [scriptVersion installed].
  rewrite (proj2 (Z.ltb_ge _ _)) by (apply Hacc).
  destruct (accepted_Inv spk tx idx fl c1 c2 c3 rv txIn ss sp At Hacc Hco) as [Hinv Hm].
  by apply (executeLoop_spec tx idx fl ss sp At).
Qed.
End Start.
