(* ===== verification/EngineProps.v ===== *)
(** * Properties of the script engine

    What the consensus code relies on when it runs scripts: runs end without
    panicking and within the limits of the engine, caches do not influence them,
    and the outputs of standard forms can only be spent the way they say. *)

From S2P Require Import Prelude ScriptError ScriptNum Stack OpcodeTable Script ScriptBuilder.
From S2P Require Import Transaction Sha256 Serialization Crypto SigHash SigCache Engine.
From S2P Require Import EngineSafety EngineRun EngineLogic.

Section Props.
Context `{Crypto} {HS : CryptoSpec H}.

(** ** Assertions for scripts *)

(** The stack before opcode [k] of [OP_BLAKE2B <data> OP_EQUAL]. *)
Definition p2shAt (ss sp : list parsedOpcode) (k : Z) (ds : stack) (conds : list Z) : Prop :=
  conds = [] /\
  if k =? 0 then ds = pushes ss
  else exists l x, pushes ss = l ++ [x] /\
    ds = if k =? 1 then l ++ [blake2b_Sum256 x]
         else if k =? 2 then l ++ [blake2b_Sum256 x; redeemHash sp]
         else l ++ [fromBool (bool_decide (redeemHash sp = blake2b_Sum256 x))].

(** The assertion that is known of every script. *)
Definition anyAt (ss sp : list parsedOpcode) (k : Z) (ds : stack) (conds : list Z) : Prop :=
  isScriptHash sp = true -> p2shAt ss sp k ds conds.

Lemma room_fits vm : room vm <= MaxStackSize -> fits (dstack vm).
Proof. unfold fits, room, MaxStackSize, MaxInt32. pose proof (len_nonneg (astack vm)). lia. Qed.

Lemma p2sh_opcode ss p0 p1 p2 k pop vm :
  isScriptHash [p0; p1; p2] = true -> from_table pop ->
  [p0; p1; p2] !! Z.to_nat k = Some pop -> 0 <= k -> room vm <= MaxStackSize ->
  p2shAt ss [p0; p1; p2] k (dstack vm) (condStack vm) ->
  wp (executeOpcode pop)
    (fun _ vm' => p2shAt ss [p0; p1; p2] (k + 1) (dstack vm') (condStack vm')) vm.
Proof.
  intros Hsh Hft Hpop Hk Hr%room_fits [Hcond Hat].
  destruct (funcs_of_values pop Hft) as (E0 & E1 & E2 & _).
  unfold isScriptHash in Hsh. zbool. apply executeOpcode_runs; [by rewrite Hcond|]. intros n _.
  assert (k = 0 \/ k = 1 \/ k = 2) as [-> | [-> | ->]].
  { apply lookup_lt_Some in Hpop. cbn in Hpop. lia. }
  all: injection Hpop as ->; cbn in Hat.
  - rewrite E0 by done. cbn [run_opfunc]. unfold opcodeBlake2b.
    apply wp_bind, wp_zoom, wp_PopByteArray_eq; [done|]. cbn. intros l x Hx.
    apply wp_zoom, wp_modify. cbn. split; [done|]. cbn. exists l, x. split; [congruence|done].
  - rewrite E1 by done. cbn [run_opfunc]. unfold opcodePushData. apply wp_zoom, wp_modify.
    destruct Hat as (l & x & Hs & Hd). cbn. split; [done|]. cbn. exists l, x.
    split; [done|]. by rewrite Hd, <- app_assoc.
  - rewrite E2 by done. cbn [run_opfunc]. unfold opcodeEqual.
    destruct Hat as (l & x & Hs & Hd).
    apply wp_bind, wp_zoom, wp_PopByteArray_eq; [done|]. cbn. rewrite Hd. intros l1 a Ha.
    assert (l1 = l ++ [blake2b_Sum256 x] /\ a = pop_data p1) as [-> ->].
    { apply (app_inj_tail l1 (l ++ [blake2b_Sum256 x])). by rewrite <- Ha, <- app_assoc. }
    apply wp_bind, wp_zoom, wp_PopByteArray_eq.
    { cbn. unfold fits in *. rewrite Hd in Hr. len_simpl. lia. }
    cbn. intros l2 b Hb. apply app_inj_tail in Hb as [-> <-].
    apply wp_zoom, wp_modify. split; [done|]. by exists l2, x.
Qed.

#[export] Instance any_logic tx idx fl ss sp
    (Hfl : Z.land fl ScriptEnableDisabledOpcodes = 0) (Hss : script_ok ss)
    (Hpo : isPushOnly ss = true) (Hsp : script_ok sp) :
  ScriptLogic tx idx fl ss sp (anyAt ss sp).
Proof.
  split; try done.
  - intros k pop vm Hk Hp Hft Hok Hr He Hat.
    destruct (isScriptHash sp) eqn:Hsh.
    + specialize (Hat Hsh). destruct sp as [|p0 [|p1 [|p2 [|]]]]; try done.
      eapply wp_mono; [by eapply (p2sh_opcode ss p0 p1 p2 k pop)|]. cbn beta. by intros _ vm' ? _.
    + eapply wp_mono.
      * apply executeOpcode_safe; [done| |done|done]. by destruct He as (_ & _ & ->).
      * intros _ vm' _ Hsh'. congruence.
  - intros Hsh ds conds Hat. destruct (Hat Hsh) as [_ Hd]. exact Hd.
Qed.

(** The stack before opcode [k] of [<pk> OP_CHECKSIG], for either scheme. *)
Definition p2pkAt (es : EngineScheme) (tx : DomainTransaction) (idx : Z) (ss : list parsedOpcode)
    (pk : bytes) (k : Z) (ds : stack) (conds : list Z) : Prop :=
  conds = [] /\
  if k =? 0 then ds = pushes ss
  else if k =? 1 then ds = pushes ss ++ [pk]
  else exists l sig, pushes ss = l ++ [sig] /\ ds = l ++ [fromBool (signatureOK es tx idx sig pk)].

Lemma p2pk_logic es `{!EngineSchemeSpec es} tx idx fl ss push check f pk
    (Hfl : Z.land fl ScriptEnableDisabledOpcodes = 0) (Hss : script_ok ss)
    (Hpo : isPushOnly ss = true) (Hsp : script_ok [push; check])
    (Hpush : op_func (pop_opcode push) = f_opcodePushData) (Hpk : pop_data push = pk)
    (Hcheck : op_func (pop_opcode check) = f)
    (Hf : forall op, run_opfunc f op = checkSig es) :
  ScriptLogic tx idx fl ss [push; check] (p2pkAt es tx idx ss pk).
Proof.
  split; try done.
  intros k pop vm Hk Hp Hft Hok Hr He [Hcond Hat].
  apply executeOpcode_runs; [by rewrite Hcond|]. intros n Hn.
  assert (k = 0 \/ k = 1) as [-> | ->].
  { apply lookup_lt_Some in Hp. cbn in Hp. lia. }
  - injection Hp as <-. cbn in Hat. rewrite Hpush. apply wp_zoom, wp_modify. cbn.
    split; [done|]. cbn. by rewrite Hat, Hpk.
  - injection Hp as <-. cbn in Hat. rewrite Hcheck, Hf.
    assert (Hok' : ok (set_numOps n vm)).
    { apply (ok_frame vm); try done; [apply Hok..|]. destruct Hok as (_ & _ & _ & _ & Ho & _). cbn. lia. }
    eapply wp_mono; [by apply checkSig_spec|]. cbn beta.
    intros _ vm' ((_ & _ & Hc & _) & _ & l & sigB & pkB & Hd & Hd').
    destruct He as (Htx & Hidx & _). cbn in Hd, Hd', Hc.
    rewrite Hat in Hd. change [sigB; pkB] with ([sigB] ++ [pkB]) in Hd.
    rewrite app_assoc in Hd. apply app_inj_tail in Hd as [Hl <-].
    split; [congruence|]. exists l, sigB. split; [done|]. by rewrite Hd', Htx, Hidx.
Qed.

(** Every engine [NewEngine] returns has the assertions of its scripts. *)
Lemma NewEngine_spec spk tx idx fl c1 c2 c3 rv vm :
  NewEngine spk tx idx fl c1 c2 c3 rv = Ret vm ->
  Z.land fl ScriptEnableDisabledOpcodes = 0 ->
  exists txIn ss sp, accepted spk tx idx txIn ss sp /\
    vm = installed spk tx idx fl c1 c2 c3 rv zeroEngine txIn ss sp /\
    ScriptLogic tx idx fl ss sp (anyAt ss sp).
Proof.
  intros (txIn & ss & sp & Hacc & ->)%NewEngine_Ret Hfl. exists txIn, ss, sp.
  split; [done|]. split; [done|]. pose proof Hacc as [A1 A2 A3 A4 A5 A6 A7 A8 A9].
  apply any_logic; [done|by apply (accepted_script_ok _ _ A5 A6)|done|].
  by apply (accepted_script_ok _ _ A8 A9).
Qed.

(** ** Properties *)



(** C2. A pay-to-script-hash output is only spent by its redeem script.  When a
    run against a script [OP_BLAKE2B <hash> OP_EQUAL] succeeds, the last item the
    signature script pushes hashes to the hash of the output, and that item,
    parsed, is the script that ran last. *)
Theorem p2sh_needs_redeem_script spk tx idx fl c1 c2 c3 rv vm vm' txIn sp :
  Z.land fl ScriptEnableDisabledOpcodes = 0 -> caller_ok tx idx c1 c2 rv ->
  NewEngine spk tx idx fl c1 c2 c3 rv = Ret vm -> Execute vm = Some (Ret tt, vm') ->
  Inputs tx !! Z.to_nat idx = Some txIn -> ParseScript (spk_Script spk) = (sp, None) ->
  isScriptHash sp = true ->
  exists ss items redeemScript pops,
    ParseScript (SignatureScript txIn) = (ss, None) /\
    map pushedValue ss = items ++ [redeemScript] /\
    blake2b_Sum256 redeemScript = redeemHash sp /\
    ParseScript redeemScript = (pops, None) /\ scripts vm' = [ss; sp; pops].
Proof.
  intros Hfl Hco Hnew Hex Hin Hparse Hsh. destruct (NewEngine_spec _ _ _ _ _ _ _ _ _ Hnew Hfl)
    as (txIn' & ss & sp' & Hacc & -> & Hsl).
  pose proof Hacc as [A1 A2 A3 A4 A5 A6 A7 A8 A9].
  assert (txIn' = txIn) as -> by congruence. assert (sp' = sp) as -> by congruence.
  destruct (Execute_spec spk tx idx fl c1 c2 c3 rv txIn ss sp _ Hacc Hco)
    as (r & vm2 & Hr & _ & Hsucc). rewrite Hex in Hr. injection Hr as <- <-.
  destruct (Hsucc eq_refl) as [_ Hred]. destruct (Hred Hsh) as (s2 & Hs & l & x & Hp & Hh & Hps).
  by exists ss, l, x, s2.
Qed.

Lemma p2pk_sound es `{!EngineSchemeSpec es} spk tx idx fl c1 c2 c3 rv vm vm' txIn push check f :
  Z.land fl ScriptEnableDisabledOpcodes = 0 -> caller_ok tx idx c1 c2 rv ->
  NewEngine spk tx idx fl c1 c2 c3 rv = Ret vm -> Execute vm = Some (Ret tt, vm') ->
  Inputs tx !! Z.to_nat idx = Some txIn ->
  ParseScript (spk_Script spk) = ([push; check], None) ->
  op_func (pop_opcode push) = f_opcodePushData -> op_func (pop_opcode check) = f ->
  (forall op, run_opfunc f op = checkSig es) ->
  exists ss sig, ParseScript (SignatureScript txIn) = (ss, None) /\
    map pushedValue ss = [sig] /\ signatureOK es tx idx sig (pop_data push) = true.
Proof.
  intros Hfl Hco Hnew Hex Hin Hparse Hpush Hcheck Hf.
  apply NewEngine_Ret in Hnew as (txIn' & ss & sp' & Hacc & ->).
  pose proof Hacc as [A1 A2 A3 A4 A5 A6 A7 A8 A9].
  assert (txIn' = txIn) as -> by congruence.
  assert (sp' = [push; check]) as -> by congruence.
  pose proof (p2pk_logic es tx idx fl ss push check f _ Hfl (accepted_script_ok _ _ A5 A6) A7
    (accepted_script_ok _ _ A8 A9) Hpush eq_refl Hcheck Hf) as Hsl.
  destruct (Execute_spec spk tx idx fl c1 c2 c3 rv txIn ss _ _ Hacc Hco)
    as (r & vm2 & Hr & _ & Hsucc). rewrite Hex in Hr. injection Hr as <- <-.
  destruct (Hsucc eq_refl) as [Hat _]. destruct (Hat eq_refl) as (x & Hx & _ & l & sig & Hp & Hd).
  exists ss, sig. split; [done|]. destruct l as [|y l]; [|by destruct l].
  injection Hd as ->. split; [done|]. by destruct (signatureOK es tx idx sig (pop_data push)).
Qed.

(** C1. A pay-to-public-key output is only spent by a signature.  When a run
    against [OP_DATA_32 <key> OP_CHECKSIG] (or [OP_DATA_33 <key>
    OP_CHECKSIGECDSA]) succeeds, the signature script pushes exactly one item, and
    that item is a signature with a standard hash type whose Schnorr (ECDSA)
    verification under the key succeeds for the signature hash of this input.  The
    signature hash is the one computed without reused values and the verification
    the one without caches. *)
Theorem p2pk_needs_signature spk tx idx fl c1 c2 c3 rv vm vm' txIn push check :
  Z.land fl ScriptEnableDisabledOpcodes = 0 -> caller_ok tx idx c1 c2 rv ->
  NewEngine spk tx idx fl c1 c2 c3 rv = Ret vm -> Execute vm = Some (Ret tt, vm') ->
  Inputs tx !! Z.to_nat idx = Some txIn ->
  ParseScript (spk_Script spk) = ([push; check], None) ->
  (pop_value push = OpData32 /\ pop_value check = OpCheckSig) \/
  (pop_value push = OpData33 /\ pop_value check = OpCheckSigECDSA) ->
  exists ss sig, ParseScript (SignatureScript txIn) = (ss, None) /\
    map pushedValue ss = [sig] /\
    signatureOK (if pop_value check =? OpCheckSig then engineSchnorr else engineECDSA) tx idx sig
      (pop_data push) = true.
Proof.
  intros Hfl Hco Hnew Hex Hin Hparse Hkind.
  assert (Hft : Forall from_table [push; check]).
  { pose proof Hnew as (txIn' & ss & sp & [_ _ _ _ _ _ _ A8 A9] & _)%NewEngine_Ret.
    rewrite Hparse in A9. injection A9 as <-. by apply (accepted_script_ok _ _ A8 Hparse). }
  apply Forall_cons_1 in Hft as [F1 Hft]. apply Forall_cons_1 in Hft as [F2 _].
  destruct (funcs_of_values push F1) as (_ & Epush & _ & _ & Epush' & _).
  destruct (funcs_of_values check F2) as (_ & _ & _ & Echeck & _ & Echeck' & _).
  destruct Hkind as [[Hp Hc]|[Hp Hc]]; rewrite Hc.
  - by apply (p2pk_sound engineSchnorr spk tx idx fl c1 c2 c3 rv vm vm' txIn push check
      f_opcodeCheckSig); auto.
  - by apply (p2pk_sound engineECDSA spk tx idx fl c1 c2 c3 rv vm vm' txIn push check
      f_opcodeCheckSigECDSA); auto.
Qed.

(** C27. An output the code calls unspendable cannot be spent: against a public
    key script that does not parse or that starts with OP_RETURN no run succeeds. *)
Theorem IsUnspendable_never_spent spk tx idx fl c1 c2 c3 rv vm vm' :
  Z.land fl ScriptEnableDisabledOpcodes = 0 -> caller_ok tx idx c1 c2 rv ->
  IsUnspendable (spk_Script spk) = true ->
  NewEngine spk tx idx fl c1 c2 c3 rv = Ret vm -> Execute vm <> Some (Ret tt, vm').
Proof.
  intros Hfl Hco Hun Hnew Hex.
  apply NewEngine_Ret in Hnew as (txIn & ss & sp & Hacc & ->).
  pose proof Hacc as [A1 A2 A3 A4 A5 A6 A7 A8 A9].
  unfold IsUnspendable in Hun. rewrite A9 in Hun. destruct sp as [|pop sp]; [done|].
  apply Z.eqb_eq in Hun.
  destruct (accepted_script_ok _ _ A8 A9) as [Hft Hlen].
  assert (ScriptLogic tx idx fl ss (pop :: sp) (fun k _ conds => k = 0 /\ conds = [])) as Hsl.
  { split; try done; [by apply (accepted_script_ok _ _ A5 A6)| |by intros _ ds conds [? _]].
    intros k p vm Hk Hp Hpt Hok Hr He [-> Hcond]. injection Hp as <-.
    apply executeOpcode_runs; [by rewrite Hcond|]. intros n _.
    destruct (funcs_of_values pop Hpt) as (_ & _ & _ & _ & _ & _ & Hret). by rewrite Hret. }
  destruct (Execute_spec spk tx idx fl c1 c2 c3 rv txIn ss _ _ Hacc Hco)
    as (r & vm2 & Hr & _ & Hsucc). rewrite Hex in Hr. injection Hr as <- <-.
  destruct (Hsucc eq_refl) as [Hat _].
  assert (isScriptHash (pop :: sp) = false) as Hsh.
  { destruct sp as [|p1 [|p2 [|]]]; try done. cbn. by rewrite Hun. }
  destruct (Hat Hsh) as (x & _ & Hz & _). rewrite len_cons in Hz. pose proof (len_nonneg sp). lia.
Qed.

(** ** Multisig *)

Lemma matchSigs_sublist good sigs keys :
  matchSigs good sigs keys = true <->
  exists ks, sublist ks keys /\ Forall2 (fun sig key => good sig key = true) sigs ks.
Proof.
  revert sigs. induction keys as [|key keys IH]; intros [|sig sigs].
  - split; [|done]. intros _. exists []. split; constructor.
  - split; [done|]. intros (ks & Hs & Hf). apply sublist_nil_r in Hs as ->. inversion Hf.
  - split; [|done]. intros _. exists []. split; [apply sublist_nil_l|constructor].
  - rewrite matchSigs_cons. split.
    + destruct (good sig key) eqn:Hg; rewrite IH; intros (ks & Hs & Hf).
      * exists (key :: ks). split; by constructor.
      * exists ks. split; [by constructor|done].
    + intros (ks & Hs & Hf). inversion Hf as [|? k ? ks' Hg Hf' E1 E2]. subst.
      inversion Hs as [|? ? ? Hs'|? ? ? Hs']; subst.
      * rewrite Hg, IH. eauto.
      * destruct (good sig key); rewrite IH.
        -- exists ks'. split; [|done]. transitivity (k :: ks'); [by constructor|done].
        -- exists (k :: ks'). split; [done|by constructor].
Qed.

(** C3. A multisig check succeeds exactly when the signatures can be matched, in
    order, to some of the public keys.  When OP_CHECKMULTISIG (or its ECDSA form)
    returns without error, the stack ended in signatures, their number, public
    keys and their number, and the single item left in their place is true if and
    only if there is a sublist of the keys, in the order of the keys, such that
    each signature is valid for the key at its position. *)
Theorem checkMultiSig_matches (ecdsa : bool) (op : parsedOpcode) (vm vm' : Engine) :
  let es := if ecdsa then engineECDSA else engineSchnorr in
  ok vm -> room vm <= MaxStackSize ->
  run_opfunc (if ecdsa then f_opcodeCheckMultiSigECDSA else f_opcodeCheckMultiSig) op vm
    = (Ret tt, vm') ->
  exists l numSigs sigs numKeys keys result,
    dstack vm = l ++ reverse sigs ++ [numSigs] ++ reverse keys ++ [numKeys] /\
    sn_value numSigs = len sigs /\ sn_value numKeys = len keys /\
    dstack vm' = l ++ [fromBool result] /\
    (result = true <-> exists ks, sublist ks keys /\
       Forall2 (fun sig key => signatureOK es (vm_tx vm) (txIdx vm) sig key = true) sigs ks).
Proof.
  intros es Hok Hr Hrun.
  assert (Hspec : wp (checkMultiSig es) (fun _ vm' => exists l numSigs sigs numKeys keys,
      dstack vm = l ++ reverse sigs ++ [numSigs] ++ reverse keys ++ [numKeys] /\
      sn_value numSigs = len sigs /\ sn_value numKeys = len keys /\
      dstack vm' = l ++ [fromBool (matchSigs (signatureOK es (vm_tx vm) (txIdx vm)) sigs keys)]) vm).
  { eapply wp_mono; [apply checkMultiSig_spec; [|done|done]|].
    - unfold es. destruct ecdsa; apply _.
    - cbn beta. intros _ vm2 (_ & _ & _ & _ & Hx). exact Hx. }
  unfold wp in Hspec. replace (checkMultiSig es vm) with ((Ret tt, vm') : outcome error unit * Engine)
    in Hspec by (rewrite <- Hrun; unfold es; by destruct ecdsa).
  destruct Hspec as (l & ns & sigs & nk & keys & Hd & Hs & Hk & Hd').
  exists l, ns, sigs, nk, keys, (matchSigs (signatureOK es (vm_tx vm) (txIdx vm)) sigs keys).
  split_and!; [done..|]. apply matchSigs_sublist.
Qed.

(** ** Lock times *)

Lemma uint64OfPadded_combine b : len b <= 8 -> uint64OfPadded b = le_combine b.
Proof.
  intros Hb. unfold uint64OfPadded. rewrite le_combine_app.
  assert (Hz : forall n, le_combine (replicate n (zb 0)) = 0).
  { induction n as [|n IH]; [done|]. cbn [replicate]. rewrite le_combine_cons, IH. done. }
  by rewrite Hz, Z.shiftl_0_l, Z.lor_0_r.
Qed.

Lemma land_disabled z : (Z.land z SequenceLockTimeDisabled =? 0) = negb (Z.testbit z 63).
Proof.
  change SequenceLockTimeDisabled with (2 ^ 63).
  apply eq_true_iff_eq. rewrite Z.eqb_eq, negb_true_iff. split.
  - intros Hz. apply (f_equal (fun w => Z.testbit w 63)) in Hz.
    by rewrite Z.land_spec, Z.pow2_bits_true, Z.bits_0, andb_true_r in Hz by lia.
  - intros Hz. apply Z.bits_inj'. intros n Hn. rewrite Z.land_spec, Z.bits_0.
    destruct (decide (n = 63)) as [->|]; [by rewrite Hz|].
    by rewrite Z.pow2_bits_false, andb_false_r by lia.
Qed.

Lemma land_mask z : Z.land z SequenceLockTimeMask = z mod 2 ^ 32.
Proof. change SequenceLockTimeMask with (Z.ones 32). by rewrite Z.land_ones. Qed.

(** C25. OP_CHECKLOCKTIMEVERIFY returns without error exactly when its operand has
    at most 8 bytes, is a lock time of the same kind (DAA score or time) as the
    lock time of the transaction and not later, and the input is not finalized;
    OP_CHECKSEQUENCEVERIFY exactly when its operand has at most 8 bytes and either
    has the disabled bit, or the sequence of the input does not have it and is, in
    its low 32 bits, at least the operand's.  Both remove the operand and nothing
    else. *)
Theorem lock_time_opcodes (op : parsedOpcode) (vm vm' : Engine) (l : stack) (b : bytes)
    (txIn : DomainTransactionInput) :
  dstack vm = l ++ [b] -> fits (dstack vm) -> 0 <= txIdx vm ->
  Inputs (vm_tx vm) !! Z.to_nat (txIdx vm) = Some txIn ->
  (opcodeCheckLockTimeVerify op vm = (Ret tt, vm') <->
   vm' = set_dstack l vm /\ len b <= 8 /\ le_combine b <= LockTime (vm_tx vm) /\
   (LockTime (vm_tx vm) < LockTimeThreshold <-> le_combine b < LockTimeThreshold) /\
   Sequence txIn <> MaxTxInSequenceNum) /\
  (opcodeCheckSequenceVerify op vm = (Ret tt, vm') <->
   vm' = set_dstack l vm /\ len b <= 8 /\
   (Z.testbit (le_combine b) 63 = true \/
    (Z.testbit (Sequence txIn) 63 = false /\
     le_combine b mod 2 ^ 32 <= Sequence txIn mod 2 ^ 32))).
Proof.
  intros Hd Hf Hi Hin.
  assert (Hpop : onD PopByteArray vm = (Ret b, set_dstack l vm)).
  { unfold onD, zoom. rewrite Hd in Hf |- *. by rewrite PopByteArray_snoc. }
  assert (Hidx : index (Inputs (vm_tx vm)) (txIdx vm) (set_dstack l vm)
    = (Ret txIn, set_dstack l vm) :> outcome error _ * _).
  { unfold index. by rewrite (proj2 (Z.leb_le _ _)), Hin. }
  split.
  - unfold opcodeCheckLockTimeVerify, verifyLockTimeWithThreshold, verifyLockTimeThreshold,
      verifyLockTime, bind, gets, guard_err. rewrite Hpop.
    destruct (Z.ltb_spec 8 (len b)) as [H8|H8]; [by split; [|intros (_ & ? & _); lia]|].
    rewrite uint64OfPadded_combine by done. cbn [ret vm_tx txIdx set_dstack].
    destruct (Z.ltb_spec (LockTime (vm_tx vm)) LockTimeThreshold),
      (Z.ltb_spec (le_combine b) LockTimeThreshold),
      (Z.leb_spec LockTimeThreshold (LockTime (vm_tx vm))),
      (Z.leb_spec LockTimeThreshold (le_combine b)); try lia; cbn [andb orb negb ret throw];
      try (split; [done|intros (_ & _ & _ & ? & _); lia]).
    all: destruct (Z.ltb_spec (LockTime (vm_tx vm)) (le_combine b));
      cbn [ret throw]; [by split; [|intros (_ & _ & ? & _); lia]|].
    all: rewrite Hidx; destruct (Z.eqb_spec (Sequence txIn) MaxTxInSequenceNum);
      cbn [ret throw]; [by split; [|intros (_ & _ & _ & _ & ?)]|].
    all: split; [intros [= <-]; split_and!; done || lia|by intros (-> & _)].
  - unfold opcodeCheckSequenceVerify, verifyLockTime, bind, gets, guard_err. rewrite Hpop.
    destruct (Z.ltb_spec 8 (len b)) as [H8|H8]; [by split; [|intros (_ & ? & _); lia]|].
    rewrite uint64OfPadded_combine by done. cbn [ret]. rewrite !land_disabled, negb_involutive.
    destruct (Z.testbit (le_combine b) 63) eqn:Hb.
    { cbn [ret]. split; [intros [= <-]; by auto|by intros (-> & _)]. }
    cbn [vm_tx txIdx set_dstack]. rewrite Hidx. rewrite land_disabled, negb_involutive.
    destruct (Z.testbit (Sequence txIn) 63) eqn:Hs; cbn [ret throw].
    { split; [done|]. intros (_ & _ & [?|[? _]]); done. }
    rewrite !land_mask. destruct (Z.ltb_spec (Sequence txIn mod 2 ^ 32) (le_combine b mod 2 ^ 32)).
    + split; [done|]. intros (_ & _ & [?|[_ ?]]); [done|lia].
    + split; [intros [= <-]; split_and!; auto|by intros (-> & _)].
Qed.

(** ** Conditionals *)

(** Opcodes executed one after the other. *)
Fixpoint executeAll (pops : list parsedOpcode) : M Engine error unit :=
  match pops with
  | [] => ret tt
  | pop :: pops => executeOpcode pop ;;; executeAll pops
  end.

(** Opcodes in which every OP_IF or OP_NOTIF is closed by its OP_ENDIF. *)
Inductive balanced : list parsedOpcode -> Prop :=
| balanced_nil : balanced []
| balanced_other pop pops :
    isConditional pop = false -> balanced pops -> balanced (pop :: pops)
| balanced_if open body1 body2 close pops :
    op_func (pop_opcode open) ∈ [f_opcodeIf; f_opcodeNotIf] ->
    op_func (pop_opcode close) = f_opcodeEndif -> isConditional open = true ->
    isConditional close = true -> balanced body1 -> balanced_tail body2 -> balanced pops ->
    balanced (open :: body1 ++ body2 ++ close :: pops)
with balanced_tail : list parsedOpcode -> Prop :=
| tail_nil : balanced_tail []
| tail_else els body rest :
    op_func (pop_opcode els) = f_opcodeElse -> isConditional els = true ->
    balanced body -> balanced_tail rest -> balanced_tail (els :: body ++ rest).

Scheme balanced_mind := Induction for balanced Sort Prop
  with balanced_tail_mind := Induction for balanced_tail Sort Prop.
Combined Scheme balanced_mutind from balanced_mind, balanced_tail_mind.

(** What is checked of an opcode even where it is not executed. *)
Definition passes (fl : ScriptFlags) (pop : parsedOpcode) : bool :=
  negb (isDisabled pop && (Z.land fl ScriptEnableDisabledOpcodes =? 0)) &&
  negb (alwaysIllegal pop) &&
  ((Op16 <? pop_value pop) || negb ((MaxScriptElementSize <? len (pop_data pop))
     && negb (negb (Z.land fl ScriptEnableMLDSA44 =? 0) && isMLDSA44ElementSize (len (pop_data pop))))).

(** The number of operations the opcodes count for. *)
Definition countedOps (pops : list parsedOpcode) : Z :=
  len (List.filter (fun pop => Op16 <? pop_value pop) pops).

Lemma countedOps_cons pop pops :
  countedOps (pop :: pops) = (if Op16 <? pop_value pop then 1 else 0) + countedOps pops.
Proof. unfold countedOps. cbn. destruct (Op16 <? pop_value pop); rewrite ?len_cons; lia. Qed.

Lemma countedOps_app pops1 pops2 : countedOps (pops1 ++ pops2) = countedOps pops1 + countedOps pops2.
Proof. unfold countedOps. by rewrite List.filter_app, len_app. Qed.

Lemma countedOps_nonneg pops : 0 <= countedOps pops.
Proof. apply len_nonneg. Qed.

(** In a skipped branch an opcode counts as an operation, and then runs only if it
    is a conditional. *)
Lemma executeOpcode_skipped pop vm :
  branchExecuting (condStack vm) = false -> passes (flags vm) pop = true ->
  numOps vm + countedOps [pop] <= MaxOpsPerScript ->
  executeOpcode pop vm =
    (if isConditional pop then run_opfunc (op_func (pop_opcode pop)) pop else ret tt)
      (set_numOps (numOps vm + countedOps [pop]) vm).
Proof.
  intros Hbr Hpass Hops. unfold passes in Hpass. zbool. rewrite countedOps_cons in *.
  change (countedOps []) with 0 in *. rewrite Z.add_0_r in *.
  unfold executeOpcode, isBranchExecuting, bind, gets, guard_err, ret, modify, throw.
  rewrite H0, H2. cbv beta iota.
  destruct (Op16 <? pop_value pop) eqn:Hv; cbn [orb] in *.
  - cbn [numOps set_numOps condStack]. rewrite (proj2 (Z.ltb_ge _ _)) by lia.
    cbv beta iota. cbn [condStack set_numOps]. rewrite Hbr. cbn [negb andb]. by destruct (isConditional pop).
  - apply negb_true_iff in H1. rewrite H1, Z.add_0_r. cbv beta iota. rewrite Hbr. cbn [negb andb].
    replace (set_numOps (numOps vm) vm) with vm by (by destruct vm).
    by destruct (isConditional pop).
Qed.

Lemma executeAll_app pops1 pops2 vm vm' :
  executeAll pops1 vm = (Ret tt, vm') -> executeAll (pops1 ++ pops2) vm = executeAll pops2 vm'.
Proof.
  revert vm. induction pops1 as [|pop pops1 IH]; intros vm; cbn [app executeAll].
  - by intros [= <-].
  - intros ([] & vm1 & He & Hr)%bind_Ret_inv. rewrite (bind_Ret _ _ _ _ _ He). by apply IH.
Qed.

Lemma branchExecuting_snoc conds c : branchExecuting (conds ++ [c]) = (c =? OpCondTrue).
Proof.
  unfold branchExecuting. rewrite len_app, len_single. pose proof (len_nonneg conds).
  rewrite (proj2 (Z.eqb_neq _ _)) by lia.
  rewrite length_app, Nat.add_sub, nth_middle. done.
Qed.

(** What a skipped run of the opcodes leaves. *)
Definition skips (pops : list parsedOpcode) (vm : Engine) : Prop :=
  Forall (fun pop => passes (flags vm) pop = true) pops ->
  numOps vm + countedOps pops <= MaxOpsPerScript ->
  executeAll pops vm = (Ret tt, set_numOps (numOps vm + countedOps pops) vm).

Lemma skips_cons pop pops vm vm1 :
  branchExecuting (condStack vm) = false ->
  (if isConditional pop then run_opfunc (op_func (pop_opcode pop)) pop else ret tt)
    (set_numOps (numOps vm + countedOps [pop]) vm) = (Ret tt, vm1) ->
  passes (flags vm) pop = true -> numOps vm + countedOps [pop] <= MaxOpsPerScript ->
  executeAll (pop :: pops) vm = executeAll pops vm1.
Proof.
  intros Hbr Hrun Hp Hn. cbn [executeAll].
  by rewrite (bind_Ret _ _ vm vm1 tt) by (by rewrite executeOpcode_skipped).
Qed.

(** Running an opcode leads on to the opcodes that are skipped after it. *)
Lemma skips_append pops1 pops2 vm vm1 :
  skips pops1 vm -> vm1 = set_numOps (numOps vm + countedOps pops1) vm ->
  Forall (fun pop => passes (flags vm) pop = true) pops1 ->
  numOps vm + countedOps pops1 <= MaxOpsPerScript ->
  executeAll (pops1 ++ pops2) vm = executeAll pops2 vm1.
Proof. intros Hs -> Hp Hn. apply executeAll_app. by apply Hs. Qed.

Lemma skipped_if f op vm :
  f ∈ [f_opcodeIf; f_opcodeNotIf] -> branchExecuting (condStack vm) = false ->
  run_opfunc f op vm = (Ret tt, set_condStack (condStack vm ++ [OpCondSkip]) vm).
Proof.
  intros Hf Hbr. apply list_elem_of_In in Hf as [<-|[<-|[]]]; cbn [run_opfunc];
    unfold opcodeIf, opcodeNotIf, isBranchExecuting, bind, gets; by rewrite Hbr.
Qed.

Lemma skipped_else op vm conds :
  condStack vm = conds ++ [OpCondSkip] -> run_opfunc f_opcodeElse op vm = (Ret tt, vm).
Proof.
  intros Hc. cbn [run_opfunc]. unfold opcodeElse, bind, gets, condTop. rewrite Hc.
  rewrite len_app, len_single. pose proof (len_nonneg conds). rewrite (proj2 (Z.eqb_neq _ _)) by lia.
  by rewrite index_middle by lia.
Qed.

Lemma skipped_endif op vm conds c :
  condStack vm = conds ++ [c] -> run_opfunc f_opcodeEndif op vm = (Ret tt, set_condStack conds vm).
Proof.
  intros Hc. cbn [run_opfunc]. unfold opcodeEndif, bind, gets. rewrite Hc.
  rewrite len_app, len_single. pose proof (len_nonneg conds). rewrite (proj2 (Z.eqb_neq _ _)) by lia.
  unfold modify. replace (Z.to_nat (len conds + 1 - 1)) with (List.length conds) by (unfold len; lia).
  by rewrite take_app_length.
Qed.

(** Engines that differ at most in the assignments to the two fields. *)
Lemma numOps_only vm1 vm2 n1 n2 :
  set_condStack (condStack vm2) vm1 = set_numOps (numOps vm1) vm2 ->
  condStack vm1 = condStack vm2 -> n1 = n2 -> set_numOps n1 vm1 = set_numOps n2 vm2.
Proof. destruct vm1, vm2. cbn. intros [= ] Hc ->. by subst. Qed.

Lemma skipped_both :
  (forall pops, balanced pops ->
     forall vm, branchExecuting (condStack vm) = false -> skips pops vm) /\
  (forall pops, balanced_tail pops ->
     forall vm conds, condStack vm = conds ++ [OpCondSkip] -> skips pops vm).
Proof.
  apply balanced_mutind; unfold skips.
  - intros vm _ _ _. change (countedOps []) with 0. rewrite Z.add_0_r. by destruct vm.
  - intros pop pops Hnc _ IH vm Hbr Hp Hn. apply Forall_cons_1 in Hp as [Hp Hps].
    change (countedOps (pop :: pops)) with (countedOps ([pop] ++ pops)) in *.
    rewrite countedOps_app in Hn |- *. pose proof (countedOps_nonneg pops).
    erewrite skips_cons; [|done|by rewrite Hnc|done|lia].
    rewrite IH; [|done|done|cbn; lia]. cbn. by rewrite Z.add_assoc.
  - intros open body1 body2 close pops Hopen Hclose Co Cc _ IH1 _ IH2 _ IH3 vm Hbr Hp Hn.
    change (open :: body1 ++ body2 ++ close :: pops) with ([open] ++ body1 ++ body2 ++ [close] ++ pops) in *.
    rewrite !countedOps_app in Hn |- *. rewrite !Forall_app in Hp. destruct Hp as (P0 & P1 & P2 & P3 & P4).
    apply Forall_cons_1 in P0 as [P0 _]. apply Forall_cons_1 in P3 as [P3 _].
    pose proof (countedOps_nonneg body1). pose proof (countedOps_nonneg body2).
    pose proof (countedOps_nonneg [close]). pose proof (countedOps_nonneg pops).
    assert (Hskip : forall vm', condStack vm' = condStack vm ++ [OpCondSkip] ->
      branchExecuting (condStack vm') = false) by (intros vm' ->; apply branchExecuting_snoc).
    cbn [app]. erewrite skips_cons; [|done|rewrite Co; by apply skipped_if|done|lia].
    erewrite skips_append; [|refine (IH1 _ (Hskip _ _)); done|done|done|cbn; lia].
    erewrite skips_append; [|refine (IH2 _ (condStack vm) _); done|done|done|cbn; lia].
    erewrite skips_cons; [|by apply Hskip|rewrite Cc, Hclose; by apply (skipped_endif _ _ (condStack vm) OpCondSkip)
      |done|cbn; lia].
    rewrite IH3; [|done|done|cbn; lia]. f_equal. apply numOps_only; [done..|cbn; lia].
  - intros vm conds _ _ _. change (countedOps []) with 0. rewrite Z.add_0_r. by destruct vm.
  - intros els body rest Hels Ce _ IH1 _ IH2 vm conds Hc Hp Hn.
    change (els :: body ++ rest) with ([els] ++ body ++ rest) in *.
    rewrite !countedOps_app in Hn |- *. rewrite !Forall_app in Hp. destruct Hp as (P0 & P1 & P2).
    apply Forall_cons_1 in P0 as [P0 _].
    pose proof (countedOps_nonneg body). pose proof (countedOps_nonneg rest).
    assert (Hbr : forall vm', condStack vm' = condStack vm -> branchExecuting (condStack vm') = false)
      by (intros vm' ->; rewrite Hc; apply branchExecuting_snoc).
    cbn [app]. erewrite skips_cons; [|by apply Hbr|rewrite Ce, Hels; by apply (skipped_else _ _ conds)|done|lia].
    erewrite skips_append; [|refine (IH1 _ (Hbr _ _)); done|done|done|cbn; lia].
    rewrite (IH2 _ conds); [|done|done|cbn; lia]. f_equal. apply numOps_only; [done..|cbn; lia].
Qed.

(** C26. Skipped branches have no effect: in a branch that does not execute, any
    sequence of opcodes whose conditionals are balanced, nested ones and any number
    of OP_ELSE included, leaves the whole engine as it was, except that it counts
    its operations (none of the opcodes being disabled, always illegal or an
    over-long push, and the count staying within the limit). *)
Theorem skipped_branch_has_no_effect (pops : list parsedOpcode) (vm : Engine) :
  balanced pops -> branchExecuting (condStack vm) = false ->
  Forall (fun pop => passes (flags vm) pop = true) pops ->
  numOps vm + countedOps pops <= MaxOpsPerScript ->
  executeAll pops vm = (Ret tt, set_numOps (numOps vm + countedOps pops) vm).
Proof. intros Hb Hbr. by apply skipped_both. Qed.

(** ** Reusing engines *)

(** C28. An engine that is reset and initialized again is as good as a new one:
    whatever it ran before, initializing it succeeds exactly when creating an
    engine does, and in the same state. *)
Theorem Reset_Init_is_NewEngine (old : Engine) spk tx idx fl c1 c2 c3 rv :
  (forall vm, Init spk tx idx fl c1 c2 c3 rv (Reset old) = (Ret tt, vm) <->
     NewEngine spk tx idx fl c1 c2 c3 rv = Ret vm).
Proof.
  intros vm. rewrite Init_Ret, NewEngine_Ret.
  split; intros (txIn & ss & sp & Hacc & ->); by exists txIn, ss, sp.
Qed.
End Props.

(** ** Concrete runs *)

(** The computable instance has Schnorr signatures [key ++ hash]. *)
Definition sampleKey : bytes := replicate 32 (zb 7).
Definition sampleSignature : bytes :=
  match (CalculateSignatureHashSchnorr (sampleTx []) 0 SigHashAll emptyReused).1 with
  | Ret h => sampleKey ++ h ++ [zb SigHashAll]
  | _ => []
  end.
Definition push (b : bytes) : bytes := zb (len b) :: b.
Definition payToPubKey : bytes := push sampleKey ++ [zb OpCheckSig].
Definition payToScriptHash : bytes :=
  zb OpBlake2b :: push (toyHash payToPubKey) ++ [zb OpEqual].
Definition sampleRun (script signatureScript : bytes) : outcome error Engine :=
  NewEngine (MkScriptPublicKey script 0) (sampleTx signatureScript) 0 ScriptNoFlags
    (Some (NewSigCache Schnorr 2)) None None emptyReused.
Definition engineOf (o : outcome error Engine) : Engine :=
  match o with Ret vm => vm | _ => zeroEngine end.
Definition engineAfter (vm : Engine) : Engine :=
  match Execute vm with Some (_, vm') => vm' | None => vm end.


Lemma engineOf_Ret (o : outcome error Engine) :
  match o with Ret _ => true | _ => false end = true -> o = Ret (engineOf o).
Proof. by destruct o. Qed.

Lemma engineAfter_Ret (vm : Engine) :
  match Execute vm with Some (Ret _, _) => true | _ => false end = true ->
  Execute vm = Some (Ret tt, engineAfter vm).
Proof. unfold engineAfter. by destruct (Execute vm) as [[[[]| |] vm']|]. Qed.

Lemma runs_to_Step (vm : Engine) :
  match Step vm with (Ret false, _) => true | _ => false end = true -> runs_to vm (Step vm).2.
Proof. unfold runs_to. by destruct (Step vm) as [[[]| |] vm']. Qed.

Lemma sample_caller_ok signatureScript :
  caller_ok (sampleTx signatureScript) 0 (Some (NewSigCache Schnorr 2)) None emptyReused.
Proof.
  split; [apply valid_empty| |done|].
  - intros s [= <-]. by apply valid_cache_new.
  - split; [done|]. by exists (sampleInput signatureScript 0), sampleEntry.
Qed.


(** The runs that spend the two outputs. *)
Definition pubKeyRun : Engine := engineOf (sampleRun payToPubKey (push sampleSignature)).
Definition redeemInput : bytes := push sampleSignature ++ push payToPubKey.
Definition redeemRun : Engine := engineOf (sampleRun payToScriptHash redeemInput).

Lemma pubKeyRun_new : sampleRun payToPubKey (push sampleSignature) = Ret pubKeyRun.
Proof. apply engineOf_Ret. vm_compute. reflexivity. Qed.

Lemma pubKeyRun_succeeds : Execute pubKeyRun = Some (Ret tt, engineAfter pubKeyRun).
Proof. apply engineAfter_Ret. vm_compute. reflexivity. Qed.

Lemma redeemRun_new : sampleRun payToScriptHash redeemInput = Ret redeemRun.
Proof. apply engineOf_Ret. vm_compute. reflexivity. Qed.

Lemma redeemRun_succeeds : Execute redeemRun = Some (Ret tt, engineAfter redeemRun).
Proof. apply engineAfter_Ret. vm_compute. reflexivity. Qed.



Lemma p2sh_needs_redeem_script_witness :
  exists ss items redeemScript pops,
    ParseScript redeemInput = (ss, None) /\
    map pushedValue ss = items ++ [redeemScript] /\
    blake2b_Sum256 redeemScript = redeemHash (ParseScript payToScriptHash).1 /\
    ParseScript redeemScript = (pops, None) /\
    scripts (engineAfter redeemRun) = [ss; (ParseScript payToScriptHash).1; pops].
Proof.
  apply (p2sh_needs_redeem_script (MkScriptPublicKey payToScriptHash 0) (sampleTx redeemInput) 0
    ScriptNoFlags (Some (NewSigCache Schnorr 2)) None None emptyReused redeemRun
    (engineAfter redeemRun) (sampleInput redeemInput 0) (ParseScript payToScriptHash).1
    eq_refl (sample_caller_ok _) redeemRun_new redeemRun_succeeds eq_refl);
    vm_compute; reflexivity.
Defined.

Lemma p2pk_needs_signature_witness :
  exists ss sig, ParseScript (push sampleSignature) = (ss, None) /\ map pushedValue ss = [sig] /\
    signatureOK engineSchnorr (sampleTx (push sampleSignature)) 0 sig sampleKey = true.
Proof.
  apply (p2pk_needs_signature (MkScriptPublicKey payToPubKey 0) (sampleTx (push sampleSignature)) 0
    ScriptNoFlags (Some (NewSigCache Schnorr 2)) None None emptyReused pubKeyRun
    (engineAfter pubKeyRun) (sampleInput (push sampleSignature) 0)
    (ParsedOpcode (opcodeAt opcodeArray (zb OpData32)) sampleKey)
    (ParsedOpcode (opcodeAt opcodeArray (zb OpCheckSig)) [])
    eq_refl (sample_caller_ok _) pubKeyRun_new pubKeyRun_succeeds eq_refl);
    [vm_compute; reflexivity|left; split; reflexivity].
Defined.

Definition returnRun : Engine := engineOf (sampleRun [zb OpReturn] (push sampleKey)).

Lemma returnRun_new : sampleRun [zb OpReturn] (push sampleKey) = Ret returnRun.
Proof. apply engineOf_Ret. vm_compute. reflexivity. Qed.

Lemma IsUnspendable_never_spent_witness :
  Execute returnRun <> Some (Ret tt, engineAfter returnRun).
Proof.
  exact (IsUnspendable_never_spent (MkScriptPublicKey [zb OpReturn] 0) (sampleTx (push sampleKey)) 0
    ScriptNoFlags (Some (NewSigCache Schnorr 2)) None None emptyReused returnRun
    (engineAfter returnRun) eq_refl (sample_caller_ok _) eq_refl returnRun_new).
Defined.

Definition opcodeOf (v : Z) (data : bytes) : parsedOpcode :=
  ParsedOpcode (opcodeAt opcodeArray (zb v)) data.

(** One signature for the second of two keys. *)
Definition multiSigEngine : Engine :=
  set_dstack [sampleSignature; [zb 1]; replicate 32 (zb 8); sampleKey; [zb 2]] pubKeyRun.
Definition multiSigEnd : Engine :=
  (run_opfunc f_opcodeCheckMultiSig (opcodeOf OpCheckMultiSig []) multiSigEngine).2.

Lemma multiSigEngine_ok : ok multiSigEngine.
Proof.
  destruct (sample_caller_ok (push sampleSignature)) as [H1 H2 H3 H4].
  split_and!; [|constructor|exact H1|split; [exact H2|exact H3]|done|done|exact H4].
  repeat (constructor; [unfold small; vm_compute; congruence|]). constructor.
Qed.

Lemma multiSigEngine_room : room multiSigEngine <= MaxStackSize.
Proof. vm_compute. congruence. Qed.

Lemma multiSig_runs :
  run_opfunc f_opcodeCheckMultiSig (opcodeOf OpCheckMultiSig []) multiSigEngine
  = (Ret tt, multiSigEnd).
Proof.
  assert (Hb : match run_opfunc f_opcodeCheckMultiSig (opcodeOf OpCheckMultiSig []) multiSigEngine
    with (Ret _, _) => true | _ => false end = true) by (vm_compute; reflexivity).
  unfold multiSigEnd. by destruct (run_opfunc _ _ _) as [[[]| |]].
Qed.

Lemma checkMultiSig_matches_witness :
  exists l numSigs sigs numKeys keys result,
    dstack multiSigEngine = l ++ reverse sigs ++ [numSigs] ++ reverse keys ++ [numKeys] /\
    sn_value numSigs = len sigs /\ sn_value numKeys = len keys /\
    dstack multiSigEnd = l ++ [fromBool result] /\
    (result = true <-> exists ks, sublist ks keys /\
       Forall2 (fun sig key =>
         signatureOK engineSchnorr (vm_tx multiSigEngine) (txIdx multiSigEngine) sig key = true) sigs ks).
Proof.
  exact (checkMultiSig_matches false (opcodeOf OpCheckMultiSig []) multiSigEngine multiSigEnd
    multiSigEngine_ok multiSigEngine_room multiSig_runs).
Defined.

Lemma lock_time_opcodes_witness :
  opcodeCheckSequenceVerify (opcodeOf OpCheckSequenceVerify []) (set_dstack [[zb 4]] pubKeyRun)
  = (Ret tt, set_dstack [] pubKeyRun).
Proof.
  apply (lock_time_opcodes (opcodeOf OpCheckSequenceVerify []) (set_dstack [[zb 4]] pubKeyRun)
    (set_dstack [] pubKeyRun) [] [zb 4] (sampleInput (push sampleSignature) 0));
    [reflexivity|unfold fits; vm_compute; congruence|vm_compute; congruence|vm_compute; reflexivity|].
  split; [reflexivity|]. split; [vm_compute; congruence|]. right.
  split; [reflexivity|]. vm_compute. congruence.
Defined.

(** [OP_IF OP_RETURN OP_ELSE OP_RETURN OP_ENDIF] in a branch that is not executed. *)
Definition skippedOpcodes : list parsedOpcode :=
  [opcodeOf OpIf []; opcodeOf OpReturn []; opcodeOf OpElse []; opcodeOf OpReturn [];
   opcodeOf OpEndIf []].

Lemma skippedOpcodes_balanced : balanced skippedOpcodes.
Proof.
  apply (balanced_if (opcodeOf OpIf []) [opcodeOf OpReturn []]
    [opcodeOf OpElse []; opcodeOf OpReturn []] (opcodeOf OpEndIf []) []); try reflexivity.
  - vm_compute. left.
  - by repeat constructor.
  - apply (tail_else (opcodeOf OpElse []) [opcodeOf OpReturn []] []); try reflexivity; by repeat constructor.
  - constructor.
Qed.

Lemma skipped_branch_has_no_effect_witness :
  let vm := set_condStack [OpCondFalse] pubKeyRun in
  executeAll skippedOpcodes vm = (Ret tt, set_numOps (0 + 5) vm).
Proof.
  apply (skipped_branch_has_no_effect skippedOpcodes (set_condStack [OpCondFalse] pubKeyRun)
    skippedOpcodes_balanced eq_refl); [by repeat (constructor; [reflexivity|])|vm_compute; congruence].
Defined.
