(* ===== verification/UtxoDiff.v ===== *)
(** * UTXO diffs

    The collections and diffs of [src/domain/consensus/utils/utxo]:
    [utxo_collection.go], [diff_algebra.go], [mutable_utxo_diff.go] and
    [changed_outpoints.go].

    A [utxoCollection] is a finite map.  The order in which Go's [range] visits a
    map is open, so every loop takes its order from [range], indexed by a counter
    that distinguishes successive loops over one map.  A mutable diff is kept by
    value here; who shares it with whom is the subject of [UtxoRefs].

    Part of the library are the meaning of a diff, [applied], which maps the UTXO
    set it is a diff from to the UTXO set it describes, and the proofs that the
    algebra computes with meanings. *)

From S2P Require Import Prelude ScriptError Transaction Crypto Sha256 Serialization SigHash.

Abbreviation utxoCollection := (gmap DomainOutpoint UTXOEntry).

(** ** Iteration order *)

Class MapRange : Type := {
  range : nat -> utxoCollection -> list (DomainOutpoint * UTXOEntry);
  range_perm : forall n m, range n m ≡ₚ map_to_list m
}.

(** ** Collections *)

Definition Contains (uc : utxoCollection) (outpoint : DomainOutpoint) : bool :=
  bool_decide (is_Some (uc !! outpoint)).

Definition containsWithDAAScore (uc : utxoCollection) (outpoint : DomainOutpoint) (daaScore : Z)
  : bool :=
  match uc !! outpoint with
  | Some entry => blockDAAScore entry =? daaScore
  | None => false
  end.

(** ** Diffs *)

(** Errors, which the code tells apart by their text only. *)
Inductive diffError : Type :=
| ErrConflict (funcName conflictDescription : string) (outpoint : DomainOutpoint)
| ErrAddedTwiceRemovedOnce (outpoint : DomainOutpoint)
| ErrAddTwice (outpoint : DomainOutpoint)
| ErrRemoveTwice (outpoint : DomainOutpoint)
| ErrOutputIndex (i : Z).

Record mutableUTXODiff : Type := MkDiff {
  toAdd : utxoCollection;
  toRemove : utxoCollection;
  (** nil unless the diff records the outpoints it touches *)
  changed : option (gset DomainOutpoint)
}.

Definition newMutableUTXODiff : mutableUTXODiff := MkDiff ∅ ∅ None.

Definition set_toAdd (uc : utxoCollection) (mud : mutableUTXODiff) : mutableUTXODiff :=
  MkDiff uc (toRemove mud) (changed mud).
Definition set_toRemove (uc : utxoCollection) (mud : mutableUTXODiff) : mutableUTXODiff :=
  MkDiff (toAdd mud) uc (changed mud).

Definition recordChange (outpoint : DomainOutpoint) (mud : mutableUTXODiff) : mutableUTXODiff :=
  MkDiff (toAdd mud) (toRemove mud) (option_map (fun c => {[ outpoint ]} ∪ c) (changed mud)).

Definition clone (mud : mutableUTXODiff) : mutableUTXODiff := MkDiff (toAdd mud) (toRemove mud) None.

(** The result does not record changes. *)
Definition Reversed (mud : mutableUTXODiff) : mutableUTXODiff := MkDiff (toRemove mud) (toAdd mud) None.

Definition diffM (A : Type) : Type := M mutableUTXODiff diffError A.

Section Diff.
Context `{Crypto} {MR : MapRange}.

(** [for outpoint := range collectionToRemove { delete(uc, outpoint) }] *)
Definition removeMultiple (uc collectionToRemove : utxoCollection) : utxoCollection :=
  foldl (fun uc p => delete p.1 uc) uc (range 0 collectionToRemove).

(** ** Conflicts *)

Definition conflictRule : Type := DomainOutpoint -> UTXOEntry -> UTXOEntry -> bool.

Definition checkIntersectionWithRule (n : nat) (collectionA collectionB : utxoCollection)
    (extraRule : conflictRule) : option DomainOutpoint :=
  let swapped := Nat.ltb (size collectionB) (size collectionA) in
  let '(sourceMap, targetMap) :=
    if swapped then (collectionB, collectionA) else (collectionA, collectionB) in
  option_map fst (List.find (fun '(outpoint, entry) =>
    match targetMap !! outpoint with
    | Some otherEntry =>
        let '(entryA, entryB) := if swapped then (otherEntry, entry) else (entry, otherEntry) in
        extraRule outpoint entryA entryB
    | None => false
    end) (range n sourceMap)).

Definition isTolerableConflict (entryA entryB : UTXOEntry) : bool :=
  if isCoinbase entryA && isCoinbase entryB then true
  else (amount entryA =? amount entryB)
       && ScriptPublicKey_Equal (scriptPublicKey entryA) (scriptPublicKey entryB).

(** The loop of [resolveConflicts]; every iteration sees a new outpoint of the
    intersection, so the fuel given below is never used up ([resolveConflicts_spec]). *)
Fixpoint resolveLoop (fuel n : nat) (seen : gset DomainOutpoint) (funcName : string)
    (collectionA collectionB : utxoCollection) (rule : conflictRule) (conflictDescription : string)
  : diffM unit :=
  match fuel with
  | O => panic
  | S fuel =>
      match checkIntersectionWithRule n collectionA collectionB
              (fun outpoint entryA entryB =>
                 negb (bool_decide (outpoint ∈ seen)) && rule outpoint entryA entryB) with
      | None => ret tt
      | Some offendingOutpoint =>
          match collectionA !! offendingOutpoint, collectionB !! offendingOutpoint with
          | Some entryA, Some entryB =>
              if negb (isTolerableConflict entryA entryB)
              then throw (ErrConflict funcName conflictDescription offendingOutpoint)
              else resolveLoop fuel (S n) ({[ offendingOutpoint ]} ∪ seen) funcName
                     collectionA collectionB rule conflictDescription
          | _, _ => panic
          end
      end
  end.

Definition resolveConflicts (funcName : string) (collectionA collectionB : utxoCollection)
    (rule : conflictRule) (conflictDescription : string) : diffM unit :=
  resolveLoop (S (size collectionA)) 0 ∅ funcName collectionA collectionB rule conflictDescription.

(** ** Set operations *)

Definition intersectionWithRemainderHavingDAAScoreInPlace
    (collection1 collection2 result remainder : utxoCollection) : utxoCollection * utxoCollection :=
  foldl (fun '(result, remainder) '(outpoint, entry1) =>
    if match collection2 !! outpoint with
       | Some entry2 => blockDAAScore entry2 =? blockDAAScore entry1
       | None => false
       end
    then (<[outpoint := entry1]> result, remainder)
    else (result, <[outpoint := entry1]> remainder))
    (result, remainder) (range 0 collection1).

Definition subtractionHavingDAAScoreInPlace (collection1 collection2 result : utxoCollection)
  : utxoCollection :=
  foldl (fun result '(outpoint, utxoEntry) =>
    if negb (containsWithDAAScore collection2 outpoint (blockDAAScore utxoEntry))
    then <[outpoint := utxoEntry]> result else result)
    result (range 0 collection1).

Definition subtractionWithRemainderHavingDAAScoreInPlace
    (collection1 collection2 result remainder : utxoCollection) : utxoCollection * utxoCollection :=
  foldl (fun '(result, remainder) '(outpoint, utxoEntry) =>
    if negb (containsWithDAAScore collection2 outpoint (blockDAAScore utxoEntry))
    then (<[outpoint := utxoEntry]> result, remainder)
    else (result, <[outpoint := utxoEntry]> remainder))
    (result, remainder) (range 0 collection1).

(** ** [diffFrom] *)

Definition isNotAddedOutputRemovedWithDAAScore (this other : mutableUTXODiff) : conflictRule :=
  fun outpoint utxoEntry diffEntry =>
    negb (negb (blockDAAScore diffEntry =? blockDAAScore utxoEntry) &&
          (containsWithDAAScore (toAdd this) outpoint (blockDAAScore diffEntry)
           || containsWithDAAScore (toRemove other) outpoint (blockDAAScore utxoEntry))).

Definition isNotRemovedOutputAddedWithDAAScore (this other : mutableUTXODiff) : conflictRule :=
  fun outpoint utxoEntry diffEntry =>
    negb (negb (blockDAAScore diffEntry =? blockDAAScore utxoEntry) &&
          (containsWithDAAScore (toRemove this) outpoint (blockDAAScore diffEntry)
           || containsWithDAAScore (toAdd other) outpoint (blockDAAScore utxoEntry))).

(** The loop over [inBothToAdd]. *)
Definition checkInBothToAdd (this other : mutableUTXODiff) (inBothToAdd : utxoCollection)
  : diffM (list unit) :=
  traverse (fun '(outpoint, addedEntry) =>
    let inThisToRemove := Contains (toRemove this) outpoint in
    let inOtherToRemove := Contains (toRemove other) outpoint in
    if Bool.eqb inThisToRemove inOtherToRemove then ret tt
    else
      match (if inThisToRemove then toRemove this else toRemove other) !! outpoint with
      | Some removedEntry =>
          guard_err (negb (isTolerableConflict addedEntry removedEntry))
            (ErrAddedTwiceRemovedOnce outpoint)
      | None => panic
      end) (range 0 inBothToAdd).

(** A computation only because it may fail: the two diffs are not assigned to, and
    the state is not used. *)
Definition diffFrom (this other : mutableUTXODiff) : diffM mutableUTXODiff :=
  resolveConflicts "diffFrom" (toRemove this) (toAdd other)
    (isNotAddedOutputRemovedWithDAAScore this other)
    "both in this.toRemove and in other.toAdd" ;;;
  resolveConflicts "diffFrom" (toAdd this) (toRemove other)
    (isNotRemovedOutputAddedWithDAAScore this other)
    "both in this.toAdd and in other.toRemove" ;;;
  resolveConflicts "diffFrom" (toRemove this) (toRemove other)
    (fun _ utxoEntry diffEntry => negb (blockDAAScore utxoEntry =? blockDAAScore diffEntry))
    "both in this.toRemove and other.toRemove with different DAA scores" ;;;
  let '(resultToRemove, inBothToAdd) :=
    subtractionWithRemainderHavingDAAScoreInPlace (toAdd this) (toAdd other) ∅ ∅ in
  checkInBothToAdd this other inBothToAdd ;;;
  let resultToRemove :=
    subtractionHavingDAAScoreInPlace (toRemove other) (toRemove this) resultToRemove in
  let resultToAdd := subtractionHavingDAAScoreInPlace (toRemove this) (toRemove other) ∅ in
  let resultToAdd := subtractionHavingDAAScoreInPlace (toAdd other) (toAdd this) resultToAdd in
  ret (MkDiff resultToAdd resultToRemove None).

(** ** [withDiff] *)

Definition recordChanges (uc : utxoCollection) (mud : mutableUTXODiff) : mutableUTXODiff :=
  foldl (fun mud p => recordChange p.1 mud) mud (range 0 uc).

(** The part of [withDiffInPlace] that merges the removals of the other diff. *)
Definition mergeRemovals (otherToRemove : utxoCollection) (this : mutableUTXODiff) : mutableUTXODiff :=
  let '(intersection, thisToRemove) :=
    intersectionWithRemainderHavingDAAScoreInPlace otherToRemove (toAdd this) ∅ (toRemove this) in
  MkDiff (removeMultiple (toAdd this) intersection) thisToRemove (changed this).

(** The part that merges its additions. *)
Definition mergeAdditions (otherToAdd : utxoCollection) (this : mutableUTXODiff) : mutableUTXODiff :=
  let '(intersection, thisToAdd) :=
    intersectionWithRemainderHavingDAAScoreInPlace otherToAdd (toRemove this) ∅ (toAdd this) in
  MkDiff thisToAdd (removeMultiple (toRemove this) intersection) (changed this).

Definition withDiffInPlace (other : mutableUTXODiff) : diffM unit :=
  c <- gets changed ;;
  (if c is Some _ then
     modify (recordChanges (toAdd other)) ;;;
     modify (recordChanges (toRemove other))
   else ret tt) ;;;
  this <- get ;;
  resolveConflicts "withDiffInPlace" (toRemove other) (toRemove this)
    (fun outpoint entryToAdd _ =>
       negb (containsWithDAAScore (toAdd this) outpoint (blockDAAScore entryToAdd)))
    "both in this.toRemove and in other.toRemove" ;;;
  resolveConflicts "withDiffInPlace" (toAdd other) (toAdd this)
    (fun outpoint _ existingEntry =>
       negb (containsWithDAAScore (toRemove other) outpoint (blockDAAScore existingEntry)))
    "both in this.toAdd and in other.toAdd" ;;;
  modify (mergeRemovals (toRemove other)) ;;;
  modify (mergeAdditions (toAdd other)).

Definition withDiff (this diff : mutableUTXODiff) : outcome diffError mutableUTXODiff :=
  match withDiffInPlace diff (clone this) with
  | (Ret _, result) => Ret result
  | (Err e, _) => Err e
  | (Panic, _) => Panic
  end.

(** ** Transactions *)

Definition sameDAAScore (a b : UTXOEntry) : bool := blockDAAScore a =? blockDAAScore b.

Definition sameCoin (a b : UTXOEntry) : bool :=
  (amount a =? amount b) && Bool.eqb (isCoinbase a) (isCoinbase b)
  && ScriptPublicKey_Equal (scriptPublicKey a) (scriptPublicKey b).

Definition add (outpoint : DomainOutpoint) (entry : UTXOEntry) (uc : utxoCollection)
  : utxoCollection := <[outpoint := entry]> uc.
Definition remove (outpoint : DomainOutpoint) (uc : utxoCollection) : utxoCollection :=
  delete outpoint uc.

Definition onAdd (f : utxoCollection -> utxoCollection) : diffM unit :=
  modify (fun mud => set_toAdd (f (toAdd mud)) mud).
Definition onRemove (f : utxoCollection -> utxoCollection) : diffM unit :=
  modify (fun mud => set_toRemove (f (toRemove mud)) mud).

Definition addEntry (outpoint : DomainOutpoint) (entry : UTXOEntry) : diffM unit :=
  modify (recordChange outpoint) ;;;
  mud <- get ;;
  if containsWithDAAScore (toRemove mud) outpoint (blockDAAScore entry) then
    match toRemove mud !! outpoint with
    | Some existing =>
        if negb (sameCoin existing entry) then
          onRemove (remove outpoint) ;;;
          onAdd (add outpoint entry)
        else onRemove (remove outpoint)
    | None => panic
    end
  else if Contains (toAdd mud) outpoint then
    match toAdd mud !! outpoint with
    | Some existing =>
        if sameCoin existing entry then
          if negb (sameDAAScore existing entry) then
            onAdd (remove outpoint) ;;;
            onAdd (add outpoint entry)
          else ret tt
        else throw (ErrAddTwice outpoint)
    | None => throw (ErrAddTwice outpoint)
    end
  else onAdd (add outpoint entry).

(** [entry.BlockDAAScore()] of a nil entry panics. *)
Definition removeEntry (outpoint : DomainOutpoint) (entry : option UTXOEntry) : diffM unit :=
  modify (recordChange outpoint) ;;;
  match entry with
  | None => panic
  | Some entry =>
      mud <- get ;;
      if containsWithDAAScore (toAdd mud) outpoint (blockDAAScore entry) then
        match toAdd mud !! outpoint with
        | Some existing =>
            if negb (sameCoin existing entry) then
              onAdd (remove outpoint) ;;;
              onRemove (add outpoint entry)
            else onAdd (remove outpoint)
        | None => panic
        end
      else if Contains (toRemove mud) outpoint then throw (ErrRemoveTwice outpoint)
      else onRemove (add outpoint entry)
  end.

(** [hadToAdd], [toAddEntry] and their like are the option of the lookup. *)
Record utxoDiffUndoEntry : Type := MkUndo {
  u_outpoint : DomainOutpoint;
  toAddEntry : option UTXOEntry;
  toRemoveEntry : option UTXOEntry
}.

Definition snapshot (outpoint : DomainOutpoint) (mud : mutableUTXODiff) : utxoDiffUndoEntry :=
  MkUndo outpoint (toAdd mud !! outpoint) (toRemove mud !! outpoint).

Definition restore (u : utxoDiffUndoEntry) (mud : mutableUTXODiff) : mutableUTXODiff :=
  let mud := recordChange (u_outpoint u) mud in
  let mud := match toAddEntry u with
             | Some entry => set_toAdd (add (u_outpoint u) entry (toAdd mud)) mud
             | None => set_toAdd (remove (u_outpoint u) (toAdd mud)) mud
             end in
  match toRemoveEntry u with
  | Some entry => set_toRemove (add (u_outpoint u) entry (toRemove mud)) mud
  | None => set_toRemove (remove (u_outpoint u) (toRemove mud)) mud
  end.

Definition rollback (undoLog : list utxoDiffUndoEntry) (mud : mutableUTXODiff) : mutableUTXODiff :=
  foldr restore mud undoLog.

(** [undoLog = append(undoLog, mud.snapshot(outpoint))], then the change; on an
    error everything in the log is restored, the last entry first. *)
Definition logged (undoLog : list utxoDiffUndoEntry) (outpoint : DomainOutpoint) (m : diffM unit)
  : diffM (list utxoDiffUndoEntry) :=
  u <- gets (snapshot outpoint) ;;
  let undoLog := undoLog ++ [u] in
  err <- try m ;;
  match err with
  | inr e => modify (rollback undoLog) ;;; throw e
  | inl _ => ret undoLog
  end.

Fixpoint removeInputs (skipMissingInputs : bool) (inputs : list DomainTransactionInput)
    (undoLog : list utxoDiffUndoEntry) : diffM (list utxoDiffUndoEntry) :=
  match inputs with
  | [] => ret undoLog
  | input :: inputs =>
      if skipMissingInputs && bool_decide (in_UTXOEntry input = None)
      then removeInputs skipMissingInputs inputs undoLog
      else
        undoLog <- logged undoLog (PreviousOutpoint input)
                     (removeEntry (PreviousOutpoint input) (in_UTXOEntry input)) ;;
        removeInputs skipMissingInputs inputs undoLog
  end.

Fixpoint addOutputs (transactionID : bytes) (isCoinbase : bool) (blockDAAScore : Z) (i : Z)
    (outputs : list DomainTransactionOutput) (undoLog : list utxoDiffUndoEntry) : diffM unit :=
  match outputs with
  | [] => ret tt
  | output :: outputs =>
      if (i <? 0) || (MaxUint32 <? i)
      then modify (rollback undoLog) ;;; throw (ErrOutputIndex i)
      else
        let outpoint := MkOutpoint transactionID (u32 i) in
        let entry := NewUTXOEntry (Value output) (out_ScriptPublicKey output) isCoinbase blockDAAScore in
        undoLog <- logged undoLog outpoint (addEntry outpoint entry) ;;
        addOutputs transactionID isCoinbase blockDAAScore (i + 1) outputs undoLog
  end.

(** The ID of a transaction; computing it also caches it in the transaction, which
    is not part of the diff. *)
Definition transactionIDOf (transaction : DomainTransaction) : outcome diffError bytes :=
  (consensushashing_TransactionID transaction).1.

Definition addTransaction (transaction : DomainTransaction) (blockDAAScore : Z)
    (skipMissingInputs : bool) : diffM unit :=
  undoLog <- removeInputs skipMissingInputs (Inputs transaction) [] ;;
  transactionID <- lift (transactionIDOf transaction) ;;
  addOutputs transactionID (IsCoinBase transaction) blockDAAScore 0 (Outputs transaction) undoLog.

Definition AddTransaction (transaction : DomainTransaction) (blockDAAScore : Z) : diffM unit :=
  addTransaction transaction blockDAAScore false.
Definition AddOutputsSpendingResolvedInputs (transaction : DomainTransaction) (blockDAAScore : Z)
  : diffM unit :=
  addTransaction transaction blockDAAScore true.

(** ** Diffs over changed outpoints *)

(** The body of the loop of [restrictToOutpoints]. *)
Definition restrictOutpoint (diff restricted : mutableUTXODiff) (outpoint : DomainOutpoint)
  : mutableUTXODiff :=
  let restricted := match toAdd diff !! outpoint with
                    | Some entry => set_toAdd (add outpoint entry (toAdd restricted)) restricted
                    | None => restricted
                    end in
  match toRemove diff !! outpoint with
  | Some entry => set_toRemove (add outpoint entry (toRemove restricted)) restricted
  | None => restricted
  end.

Definition restrictToOutpoints (diff : mutableUTXODiff) (outpoints : gset DomainOutpoint)
  : mutableUTXODiff :=
  foldl (restrictOutpoint diff) newMutableUTXODiff (elements outpoints).
End Diff.

(** ** Loops, outpoint by outpoint *)

Section Pointwise.
Context `{Crypto} {MR : MapRange}.

(** A loop whose iteration for an outpoint changes only what is seen at that
    outpoint changes it once for every outpoint of the map. *)
Lemma range_foldl {A B} (f : A -> DomainOutpoint * UTXOEntry -> A)
    (see : DomainOutpoint -> A -> B) (g : UTXOEntry -> B -> B) n (m : utxoCollection) acc o :
  (forall acc k e, see o (f acc (k, e)) = if decide (k = o) then g e (see o acc) else see o acc) ->
  see o (foldl f acc (range n m)) =
  match m !! o with Some e => g e (see o acc) | None => see o acc end.
Proof.
  intros Hf.
  assert (Hnd : NoDup (range n m).*1) by (rewrite range_perm; apply NoDup_fst_map_to_list).
  assert (Hm : list_to_map (range n m) = m).
  { rewrite (list_to_map_proper _ (map_to_list m)); [apply list_to_map_to_list|done|apply range_perm]. }
  replace (m !! o) with ((list_to_map (range n m) : utxoCollection) !! o) by (by rewrite Hm).
  clear Hm. revert acc. induction (range n m) as [|[k e] l IH]; intros acc.
  - done.
  - cbn [foldl list_to_map fst snd foldr] in *. apply list.NoDup_cons in Hnd as [Hk Hnd].
    rewrite IH by done. rewrite Hf. destruct (decide (k = o)) as [->|Hne].
    + rewrite lookup_insert_eq. by rewrite not_elem_of_list_to_map_1.
    + by rewrite lookup_insert_ne.
Qed.

Lemma removeMultiple_lookup uc c o :
  removeMultiple uc c !! o = match c !! o with Some _ => None | None => uc !! o end.
Proof.
  unfold removeMultiple. rewrite (range_foldl _ (fun o uc => uc !! o) (fun _ _ => None)); [done|].
  intros acc k e. cbn. case_decide as Hk; [by rewrite Hk, lookup_delete_eq|by rewrite lookup_delete_ne].
Qed.

(** [e] is matched by an entry with its DAA score. *)
Definition matched (x : option UTXOEntry) (e : UTXOEntry) : bool :=
  match x with Some e' => blockDAAScore e' =? blockDAAScore e | None => false end.

Lemma containsWithDAAScore_matched uc o e :
  containsWithDAAScore uc o (blockDAAScore e) = matched (uc !! o) e.
Proof. done. Qed.

Lemma intersection_lookup c1 c2 result remainder o :
  let '(result', remainder') :=
    intersectionWithRemainderHavingDAAScoreInPlace c1 c2 result remainder in
  (result' !! o, remainder' !! o) =
  match c1 !! o with
  | Some e => if matched (c2 !! o) e then (Some e, remainder !! o) else (result !! o, Some e)
  | None => (result !! o, remainder !! o)
  end.
Proof.
  unfold intersectionWithRemainderHavingDAAScoreInPlace.
  pose proof (range_foldl (fun '(result, remainder) '(outpoint, entry1) =>
    if matched (c2 !! outpoint) entry1
    then (<[outpoint := entry1]> result, remainder)
    else (result, <[outpoint := entry1]> remainder))
    (fun o (acc : utxoCollection * utxoCollection) => (acc.1 !! o, acc.2 !! o))
    (fun e acc => if matched (c2 !! o) e then (Some e, acc.2) else (acc.1, Some e))
    0 c1 (result, remainder) o) as Hr.
  unfold matched at 1 in Hr. destruct (foldl _ _ _) as [result' remainder']. apply Hr.
  intros [acc1 acc2] k e. cbn [fst snd]. fold (matched (c2 !! k) e).
  case_decide as Hk; [rewrite Hk|]; destruct (matched _ _); cbn;
    by rewrite ?lookup_insert_eq, ?lookup_insert_ne.
Qed.

Lemma subtraction_lookup c1 c2 result o :
  subtractionHavingDAAScoreInPlace c1 c2 result !! o =
  match c1 !! o with
  | Some e => if matched (c2 !! o) e then result !! o else Some e
  | None => result !! o
  end.
Proof.
  unfold subtractionHavingDAAScoreInPlace.
  rewrite (range_foldl _ (fun o (uc : utxoCollection) => uc !! o)
    (fun e x => if matched (c2 !! o) e then x else Some e)); [done|].
  intros acc k e. cbn. rewrite containsWithDAAScore_matched.
  case_decide as Hk; [rewrite Hk|]; destruct (matched _ _); cbn;
    by rewrite ?lookup_insert_eq, ?lookup_insert_ne.
Qed.

Lemma subtractionWithRemainder_lookup c1 c2 result remainder o :
  let '(result', remainder') :=
    subtractionWithRemainderHavingDAAScoreInPlace c1 c2 result remainder in
  (result' !! o, remainder' !! o) =
  match c1 !! o with
  | Some e => if matched (c2 !! o) e then (result !! o, Some e) else (Some e, remainder !! o)
  | None => (result !! o, remainder !! o)
  end.
Proof.
  unfold subtractionWithRemainderHavingDAAScoreInPlace.
  pose proof (range_foldl (fun '(result, remainder) '(outpoint, utxoEntry) =>
    if negb (matched (c2 !! outpoint) utxoEntry)
    then (<[outpoint := utxoEntry]> result, remainder)
    else (result, <[outpoint := utxoEntry]> remainder))
    (fun o (acc : utxoCollection * utxoCollection) => (acc.1 !! o, acc.2 !! o))
    (fun e acc => if matched (c2 !! o) e then (acc.1, Some e) else (Some e, acc.2))
    0 c1 (result, remainder) o) as Hr.
  unfold containsWithDAAScore. unfold matched at 1 in Hr.
  destruct (foldl _ _ _) as [result' remainder']. apply Hr.
  intros [acc1 acc2] k e. cbn [fst snd]. fold (matched (c2 !! k) e).
  case_decide as Hk; [rewrite Hk|]; destruct (matched _ _); cbn;
    by rewrite ?lookup_insert_eq, ?lookup_insert_ne.
Qed.

(** ** Conflicts *)

Lemma checkIntersectionWithRule_Some n A B rule o :
  checkIntersectionWithRule n A B rule = Some o ->
  exists a b, A !! o = Some a /\ B !! o = Some b /\ rule o a b = true.
Proof.
  unfold checkIntersectionWithRule. destruct (Nat.ltb _ _).
  all: destruct (List.find _ _) as [[k e]|] eqn:Hf; intros [= <-].
  all: apply find_some in Hf as [Hin Hr]; apply list_elem_of_In in Hin.
  all: rewrite range_perm in Hin; apply elem_of_map_to_list in Hin.
  - destruct (A !! k) as [e'|] eqn:Hk; [|done]. by exists e', e.
  - destruct (B !! k) as [e'|] eqn:Hk; [|done]. by exists e, e'.
Qed.

Lemma checkIntersectionWithRule_None n A B rule o a b :
  checkIntersectionWithRule n A B rule = None ->
  A !! o = Some a -> B !! o = Some b -> rule o a b = false.
Proof.
  unfold checkIntersectionWithRule. intros Hf Ha Hb. destruct (Nat.ltb _ _).
  all: destruct (List.find _ _) as [|] eqn:Hf'; [done|].
  - pose proof (find_none _ _ Hf' (o, b)) as Hn. cbn in Hn. rewrite Ha in Hn. apply Hn.
    apply list_elem_of_In. rewrite range_perm. by apply elem_of_map_to_list.
  - pose proof (find_none _ _ Hf' (o, a)) as Hn. cbn in Hn. rewrite Hb in Hn. apply Hn.
    apply list_elem_of_In. rewrite range_perm. by apply elem_of_map_to_list.
Qed.

(** A conflict of the kind [rule] between the entries [a] and [b] at [o], if both
    are there. *)
Definition intolerable (rule : conflictRule) (o : DomainOutpoint) (a b : option UTXOEntry) : bool :=
  match a, b with
  | Some a, Some b => rule o a b && negb (isTolerableConflict a b)
  | _, _ => false
  end.

Lemma resolveLoop_spec fuel n seen f A B rule d s :
  (forall o, o ∈ seen -> is_Some (A !! o) /\ intolerable rule o (A !! o) (B !! o) = false) ->
  (size A < fuel + size seen)%nat ->
  ((exists o, intolerable rule o (A !! o) (B !! o) = true /\
      resolveLoop fuel n seen f A B rule d s = (Err (ErrConflict f d o), s)) \/
   ((forall o, intolerable rule o (A !! o) (B !! o) = false) /\
      resolveLoop fuel n seen f A B rule d s = (Ret tt, s))).
Proof.
  revert n seen. induction fuel as [|fuel IH]; intros n seen Hseen Hfuel.
  { assert (seen ⊆ dom A) as Hsub.
    { intros o Ho. apply elem_of_dom. by apply Hseen. }
    apply subseteq_size in Hsub. rewrite size_dom in Hsub. lia. }
  cbn [resolveLoop]. destruct (checkIntersectionWithRule _ _ _ _) as [o|] eqn:Hc.
  - apply checkIntersectionWithRule_Some in Hc as (a & b & Ha & Hb & [Hs Hr]%andb_true_iff).
    apply negb_true_iff, bool_decide_eq_false in Hs. rewrite Ha, Hb.
    destruct (isTolerableConflict a b) eqn:Ht; cbn [negb].
    + apply IH; [|rewrite size_union, size_singleton by set_solver; lia].
      intros o'. rewrite elem_of_union, elem_of_singleton. intros [->|Ho']; [|by apply Hseen].
      rewrite Ha, Hb. cbn. by rewrite Ht, andb_false_r.
    + left. exists o. rewrite Ha, Hb. cbn. by rewrite Hr, Ht.
  - right. split; [|done]. intros o. destruct (A !! o) as [a|] eqn:Ha, (B !! o) as [b|] eqn:Hb; try done.
    pose proof (checkIntersectionWithRule_None _ _ _ _ _ _ _ Hc Ha Hb) as Hn.
    destruct (decide (o ∈ seen)) as [Ho|Ho].
    + rewrite <- Ha, <- Hb. by apply Hseen.
    + cbn beta in Hn. rewrite bool_decide_eq_false_2 in Hn by done. cbn in Hn |- *. by rewrite Hn.
Qed.

(** [resolveConflicts] returns an error exactly when some outpoint has an
    intolerable conflict. *)
Lemma resolveConflicts_spec f A B rule d s :
  (exists o, intolerable rule o (A !! o) (B !! o) = true /\
     resolveConflicts f A B rule d s = (Err (ErrConflict f d o), s)) \/
  ((forall o, intolerable rule o (A !! o) (B !! o) = false) /\
     resolveConflicts f A B rule d s = (Ret tt, s)).
Proof.
  apply resolveLoop_spec; [set_solver|]. rewrite size_empty. lia.
Qed.

(** ** What the operations do at one outpoint *)

(** The state of an outpoint in a diff: its entries in [toAdd] and [toRemove]. *)
Definition cell : Type := option UTXOEntry * option UTXOEntry.
Definition at_outpoint (d : mutableUTXODiff) (o : DomainOutpoint) : cell :=
  (toAdd d !! o, toRemove d !! o).

Lemma diff_eq d d' :
  (forall o, at_outpoint d o = at_outpoint d' o) -> changed d = changed d' -> d = d'.
Proof.
  destruct d as [a r c], d' as [a' r' c']. cbn. intros Ho ->.
  f_equal; apply map_eq; intros o; specialize (Ho o); unfold at_outpoint in Ho; cbn in Ho; congruence.
Qed.

Definition both (f : UTXOEntry -> UTXOEntry -> bool) (x y : option UTXOEntry) : bool :=
  match x, y with Some a, Some b => f a b | _, _ => false end.

(** An outpoint added in both diffs and removed in one of them only. *)
Definition addedTwiceRemovedOnce (x : UTXOEntry) (r r' : option UTXOEntry) : bool :=
  match r, r' with
  | Some y, None | None, Some y => negb (isTolerableConflict x y)
  | _, _ => false
  end.

(** [diffFrom] fails at an outpoint in the state [c] in [this] and [c'] in [other]. *)
Definition diffConflict (c c' : cell) : bool :=
  let '(a, r) := c in
  let '(a', r') := c' in
  both (fun u v => negb (negb (matched (Some v) u) && (matched a v || matched r' u))
                   && negb (isTolerableConflict u v)) r a'
  || both (fun u v => negb (negb (matched (Some v) u) && (matched r v || matched a' u))
                   && negb (isTolerableConflict u v)) a r'
  || both (fun u v => negb (matched (Some u) v) && negb (isTolerableConflict u v)) r r'
  || match a with
     | Some x => matched a' x && addedTwiceRemovedOnce x r r'
     | None => false
     end.

(** What it leaves there. *)
Definition unmatched (x y : option UTXOEntry) : option UTXOEntry :=
  match x with
  | Some e => if matched y e then None else Some e
  | None => None
  end.

Definition diffCell (c c' : cell) : cell :=
  let '(a, r) := c in
  let '(a', r') := c' in
  (match unmatched a' a with Some e => Some e | None => unmatched r r' end,
   match unmatched r' r with Some e => Some e | None => unmatched a a' end).

Lemma traverse_checks {S E A} (f : A -> M S E unit) (bad : A -> bool) (l : list A) (s : S) :
  (forall x, x ∈ l -> if bad x then exists e, f x s = (Err e, s) else f x s = (Ret tt, s)) ->
  if existsb bad l then exists e, traverse f l s = (Err e, s)
  else exists r, traverse f l s = (Ret r, s).
Proof.
  induction l as [|x l IH]; intros Hf; cbn [existsb traverse]; [by eexists|].
  pose proof (Hf x (list_elem_of_here _ _)) as Hx. destruct (bad x); cbn [orb].
  - destruct Hx as [e Hx]. exists e. by apply bind_Err.
  - rewrite (bind_Ret _ _ _ _ _ Hx). destruct (existsb bad l).
    + destruct IH as [e He]; [intros; apply Hf; by right|]. exists e. by apply bind_Err.
    + destruct IH as [r Hr]; [intros; apply Hf; by right|]. by rewrite (bind_Ret _ _ _ _ _ Hr); eexists.
Qed.

Lemma checkInBothToAdd_spec this other (inBoth : utxoCollection) s :
  (exists o x, inBoth !! o = Some x /\
     addedTwiceRemovedOnce x (toRemove this !! o) (toRemove other !! o) = true /\
     exists e, checkInBothToAdd this other inBoth s = (Err e, s)) \/
  ((forall o x, inBoth !! o = Some x ->
     addedTwiceRemovedOnce x (toRemove this !! o) (toRemove other !! o) = false) /\
     exists r, checkInBothToAdd this other inBoth s = (Ret r, s)).
Proof.
  set (bad := fun p : DomainOutpoint * UTXOEntry =>
    addedTwiceRemovedOnce p.2 (toRemove this !! p.1) (toRemove other !! p.1)).
  assert (Ht : if existsb bad (range 0 inBoth)
    then exists e, checkInBothToAdd this other inBoth s = (Err e, s)
    else exists r, checkInBothToAdd this other inBoth s = (Ret r, s)).
  { apply traverse_checks. intros [o x] _. unfold bad, Contains. cbn.
    destruct (toRemove this !! o) eqn:E1, (toRemove other !! o) eqn:E2; cbn;
      rewrite ?E1, ?E2; try done; unfold guard_err; destruct (negb _); by eauto. }
  assert (Hin : forall o x, (o, x) ∈ range 0 inBoth <-> inBoth !! o = Some x).
  { intros o x. rewrite range_perm. apply elem_of_map_to_list. }
  destruct (existsb bad (range 0 inBoth)) eqn:He.
  - left. apply existsb_exists in He as ([o x] & Ho%list_elem_of_In%Hin & Hbad). by exists o, x.
  - right. split; [|done]. intros o x Ho. destruct (addedTwiceRemovedOnce _ _ _) eqn:Hbad; [|done].
    rewrite <- He. symmetry. apply existsb_exists. exists (o, x). split; [|done].
    apply list_elem_of_In. by apply Hin.
Qed.

(** [diffFrom] decides outpoint by outpoint. *)
Lemma diffFrom_spec this other s :
  (exists o e, diffConflict (at_outpoint this o) (at_outpoint other o) = true /\
     diffFrom this other s = (Err e, s)) \/
  ((forall o, diffConflict (at_outpoint this o) (at_outpoint other o) = false) /\
     exists d, diffFrom this other s = (Ret d, s) /\ changed d = None /\
       forall o, at_outpoint d o = diffCell (at_outpoint this o) (at_outpoint other o)).
Proof.
  unfold diffFrom.
  destruct (resolveConflicts_spec "diffFrom" (toRemove this) (toAdd other)
    (isNotAddedOutputRemovedWithDAAScore this other)
    "both in this.toRemove and in other.toAdd" s) as [(o & Ho & Hrun)|[C1 Hrun]].
  { left. exists o. eexists. split; [|by apply bind_Err]. cbn. apply orb_true_iff; left.
    apply orb_true_iff; left. apply orb_true_iff; left. exact Ho. }
  rewrite (bind_Ret _ _ _ _ _ Hrun). clear Hrun.
  destruct (resolveConflicts_spec "diffFrom" (toAdd this) (toRemove other)
    (isNotRemovedOutputAddedWithDAAScore this other)
    "both in this.toAdd and in other.toRemove" s) as [(o & Ho & Hrun)|[C2 Hrun]].
  { left. exists o. eexists. split; [|by apply bind_Err]. cbn. apply orb_true_iff; left.
    apply orb_true_iff; left. apply orb_true_iff; right. exact Ho. }
  rewrite (bind_Ret _ _ _ _ _ Hrun). clear Hrun.
  destruct (resolveConflicts_spec "diffFrom" (toRemove this) (toRemove other)
    (fun _ utxoEntry diffEntry => negb (blockDAAScore utxoEntry =? blockDAAScore diffEntry))
    "both in this.toRemove and other.toRemove with different DAA scores" s)
    as [(o & Ho & Hrun)|[C3 Hrun]].
  { left. exists o. eexists. split; [|by apply bind_Err]. cbn. apply orb_true_iff; left.
    apply orb_true_iff; right. exact Ho. }
  rewrite (bind_Ret _ _ _ _ _ Hrun). clear Hrun.
  pose proof (subtractionWithRemainder_lookup (toAdd this) (toAdd other) ∅ ∅) as Hsub.
  destruct (subtractionWithRemainderHavingDAAScoreInPlace _ _ _ _) as [rem inBoth].
  destruct (checkInBothToAdd_spec this other inBoth s) as [(o & x & Hx & Ho & e & Hrun)|[C4 [r Hrun]]].
  { left. exists o. eexists. split; [|by apply bind_Err]. cbn. apply orb_true_iff; right.
    specialize (Hsub o). rewrite Hx, !lookup_empty in Hsub.
    destruct (toAdd this !! o) as [y|]; [|done]. destruct (matched (toAdd other !! o) y); [|done].
    injection Hsub as _ <-. exact Ho. }
  rewrite (bind_Ret _ _ _ _ _ Hrun). clear Hrun. right. split.
  - intros o. specialize (C1 o). specialize (C2 o). specialize (C3 o).
    unfold at_outpoint, diffConflict. rewrite !orb_false_iff. split; [split; [split|]|]; [done..|].
    specialize (Hsub o). rewrite !lookup_empty in Hsub.
    destruct (toAdd this !! o) as [y|]; [|done]. destruct (matched (toAdd other !! o) y); [|done].
    cbn. apply C4. congruence.
  - eexists. split; [done|]. split; [done|]. intros o. specialize (Hsub o). unfold at_outpoint, diffCell.
    cbn [toAdd toRemove]. rewrite !subtraction_lookup, lookup_empty. rewrite !lookup_empty in Hsub.
    f_equal; unfold unmatched.
    + destruct (toAdd other !! o) as [y|]; [|done]. by destruct (matched _ _).
    + destruct (toRemove other !! o) as [y|]; [destruct (matched _ y)|]; [|done|];
        (destruct (toAdd this !! o) as [z|]; [destruct (matched _ z)|]); congruence.
Qed.

(** [withDiffInPlace] fails at an outpoint in the state [c] in [this] and [c'] in
    [other]. *)
Definition mergeConflict (c c' : cell) : bool :=
  let '(a, r) := c in
  let '(a', r') := c' in
  both (fun u v => negb (matched a u) && negb (isTolerableConflict u v)) r' r
  || both (fun u v => negb (matched r' v) && negb (isTolerableConflict u v)) a' a.

(** What it leaves there. *)
Definition mergeRemovalCell (r' : option UTXOEntry) (c : cell) : cell :=
  match r' with
  | Some e => if matched c.1 e then (None, c.2) else (c.1, Some e)
  | None => c
  end.
Definition mergeAdditionCell (a' : option UTXOEntry) (c : cell) : cell :=
  match a' with
  | Some e => if matched c.2 e then (c.1, None) else (Some e, c.2)
  | None => c
  end.
Definition mergeCell (c c' : cell) : cell := mergeAdditionCell c'.1 (mergeRemovalCell c'.2 c).

Lemma mergeRemovals_at uc d o :
  at_outpoint (mergeRemovals uc d) o = mergeRemovalCell (uc !! o) (at_outpoint d o).
Proof.
  unfold mergeRemovals. pose proof (intersection_lookup uc (toAdd d) ∅ (toRemove d) o) as Hi.
  destruct (intersectionWithRemainderHavingDAAScoreInPlace _ _ _ _) as [inter r].
  unfold at_outpoint, mergeRemovalCell. cbn. rewrite removeMultiple_lookup.
  destruct (uc !! o) as [e|]; [destruct (matched (toAdd d !! o) e)|];
    injection Hi as -> ->; by rewrite ?lookup_empty.
Qed.

Lemma mergeAdditions_at uc d o :
  at_outpoint (mergeAdditions uc d) o = mergeAdditionCell (uc !! o) (at_outpoint d o).
Proof.
  unfold mergeAdditions. pose proof (intersection_lookup uc (toRemove d) ∅ (toAdd d) o) as Hi.
  destruct (intersectionWithRemainderHavingDAAScoreInPlace _ _ _ _) as [inter a].
  unfold at_outpoint, mergeAdditionCell. cbn. rewrite removeMultiple_lookup.
  destruct (uc !! o) as [e|]; [destruct (matched (toRemove d !! o) e)|];
    injection Hi as -> ->; by rewrite ?lookup_empty.
Qed.

Lemma merge_changed uc d :
  changed (mergeRemovals uc d) = changed d /\ changed (mergeAdditions uc d) = changed d.
Proof. unfold mergeRemovals, mergeAdditions. by split; case_match. Qed.

Lemma recordChanges_run uc d :
  recordChanges uc d = MkDiff (toAdd d) (toRemove d) (option_map (fun c => dom uc ∪ c) (changed d)).
Proof.
  unfold recordChanges.
  assert (Hl : forall l d, foldl (fun mud p => recordChange p.1 mud) d (l : list (DomainOutpoint * UTXOEntry))
    = MkDiff (toAdd d) (toRemove d) (option_map (fun c => list_to_set l.*1 ∪ c) (changed d))).
  { induction l as [|p l IH]; intros d'; cbn.
    - destruct d' as [a r [c|]]; cbn; [|done]. by rewrite union_empty_l_L.
    - rewrite IH. cbn. destruct (changed d') as [c|]; cbn; [|done]. do 2 f_equal.
      clear. set_solver. }
  rewrite Hl. f_equal. destruct (changed d) as [c|]; cbn; [|done]. do 2 f_equal.
  apply set_eq. intros o. rewrite elem_of_list_to_set, list_elem_of_fmap, elem_of_dom. split.
  - intros ([o' e] & -> & Hin). rewrite range_perm in Hin. apply elem_of_map_to_list in Hin. by eexists.
  - intros [e He]. exists (o, e). split; [done|]. rewrite range_perm. by apply elem_of_map_to_list.
Qed.

(** The outpoints [withDiffInPlace] records as changed. *)
Definition recorded (other : mutableUTXODiff) (c : option (gset DomainOutpoint))
  : option (gset DomainOutpoint) :=
  option_map (fun c => dom (toRemove other) ∪ (dom (toAdd other) ∪ c)) c.

(** [withDiffInPlace] decides outpoint by outpoint. *)
Lemma withDiffInPlace_spec this other :
  (exists o e, mergeConflict (at_outpoint this o) (at_outpoint other o) = true /\
     withDiffInPlace other this
     = (Err e, MkDiff (toAdd this) (toRemove this) (recorded other (changed this)))) \/
  ((forall o, mergeConflict (at_outpoint this o) (at_outpoint other o) = false) /\
     exists d, withDiffInPlace other this = (Ret tt, d) /\
       changed d = recorded other (changed this) /\
       forall o, at_outpoint d o = mergeCell (at_outpoint this o) (at_outpoint other o)).
Proof.
  unfold withDiffInPlace. rewrite (bind_Ret _ _ this this (changed this)) by done.
  set (this' := MkDiff (toAdd this) (toRemove this) (recorded other (changed this))).
  rewrite (bind_Ret _ _ this this' tt).
  2: { unfold this', recorded. destruct this as [a r [c|]]; cbn; [|done].
       unfold bind, modify. by rewrite !recordChanges_run. }
  rewrite (bind_Ret _ _ this' this' this') by done.
  destruct (resolveConflicts_spec "withDiffInPlace" (toRemove other) (toRemove this')
    (fun outpoint entryToAdd _ =>
       negb (containsWithDAAScore (toAdd this') outpoint (blockDAAScore entryToAdd)))
    "both in this.toRemove and in other.toRemove" this') as [(o & Ho & Hrun)|[C1 Hrun]].
  { left. exists o. eexists. split; [|by apply bind_Err]. apply orb_true_iff. left. exact Ho. }
  rewrite (bind_Ret _ _ _ _ _ Hrun). clear Hrun.
  destruct (resolveConflicts_spec "withDiffInPlace" (toAdd other) (toAdd this')
    (fun outpoint _ existingEntry =>
       negb (containsWithDAAScore (toRemove other) outpoint (blockDAAScore existingEntry)))
    "both in this.toAdd and in other.toAdd" this') as [(o & Ho & Hrun)|[C2 Hrun]].
  { left. exists o. eexists. split; [|by apply bind_Err]. apply orb_true_iff. right. exact Ho. }
  rewrite (bind_Ret _ _ _ _ _ Hrun). clear Hrun. right. split.
  - intros o. apply orb_false_iff. split; [exact (C1 o)|exact (C2 o)].
  - eexists. split; [done|]. split.
    { by rewrite (proj2 (merge_changed _ _)), (proj1 (merge_changed _ _)). }
    intros o. by rewrite mergeAdditions_at, mergeRemovals_at.
Qed.
End Pointwise.

(** Maps visited in the order of [map_to_list]. *)
Definition mapToListRange : MapRange := {| range _ m := map_to_list m; range_perm _ _ := reflexivity _ |}.
