(* ===== verification/UtxoAlgebra.v ===== *)
(** * The meaning of UTXO diffs

    A diff leads from one UTXO set to another.  [is_diff S T d] says that [d] is
    the diff from [S] to [T]: at an outpoint where the two agree it says nothing,
    and elsewhere it removes what [S] has and adds what [T] has.  The operations of
    [UtxoDiff] are shown to compute with these arrows: [withDiff] composes them,
    [diffFrom] connects the ends of two that start in one set, [Reversed] turns
    them around, and [addTransaction] extends them by a transaction. *)

From S2P Require Import Prelude ScriptError Transaction Crypto Sha256 Serialization SigHash.
From S2P Require Import UtxoDiff.

(** ** Diffs as arrows *)

(** The state of an outpoint in the diff between sets that hold [s] and [t] there. *)
Definition cellBetween (s t : option UTXOEntry) : cell :=
  if decide (s = t) then (None, None) else (t, s).

Definition is_diff (S T : utxoCollection) (d : mutableUTXODiff) : Prop :=
  forall o, at_outpoint d o = cellBetween (S !! o) (T !! o).

(** The UTXO set a diff describes, given the set it is a diff from. *)
Definition applied (d : mutableUTXODiff) (S : utxoCollection) : utxoCollection :=
  toAdd d ∪ (S ∖ toRemove d).

(** Entries of one outpoint that have the same DAA score are the same coin.  The
    ID of a transaction fixes its outputs, so this holds of sets that occur in the
    history of one ledger; the algebra, which compares DAA scores only, relies on
    it. *)
Definition agree (s t : option UTXOEntry) : Prop :=
  forall e e', s = Some e -> t = Some e' -> blockDAAScore e = blockDAAScore e' -> e = e'.
Definition coherent (S T : utxoCollection) : Prop := forall o, agree (S !! o) (T !! o).

Lemma agree_sym s t : agree s t -> agree t s.
Proof. intros Ha e e' -> -> Hd. by rewrite (Ha e' e). Qed.

Lemma agree_matched s e : agree s (Some e) -> matched s e = bool_decide (s = Some e).
Proof.
  intros Ha. destruct s as [e'|]; cbn; [|by rewrite bool_decide_eq_false_2].
  destruct (Z.eqb_spec (blockDAAScore e') (blockDAAScore e)) as [Hd|Hd].
  - rewrite (Ha e' e) by done. by rewrite bool_decide_eq_true_2.
  - rewrite bool_decide_eq_false_2; [done|]. by intros [= ->].
Qed.

Lemma is_diff_applied S T d : is_diff S T d -> applied d S = T.
Proof.
  intros Hd. apply map_eq. intros o. specialize (Hd o). unfold applied, at_outpoint, cellBetween in *.
  rewrite lookup_union, lookup_difference. case_decide as He; injection Hd as -> ->.
  - rewrite He. by destruct (T !! o).
  - destruct (T !! o), (S !! o); done.
Qed.

Lemma is_diff_unique S T d d' : is_diff S T d -> is_diff S T d' -> changed d = changed d' -> d = d'.
Proof. intros Hd Hd'. apply diff_eq. intros o. by rewrite Hd, Hd'. Qed.

(** ** The algebra at one outpoint *)

Lemma matched_refl e : matched (Some e) e = true.
Proof. apply Z.eqb_refl. Qed.

(** Entries that agree are compared as a whole, then case by case. *)
Ltac cell_cases :=
  repeat match goal with
  | |- context [matched None ?e] => change (matched None e) with false
  | |- context [matched (Some ?e) ?e] => rewrite matched_refl
  | H : agree ?x (Some ?e) |- context [matched ?x ?e] => rewrite (agree_matched x e H)
  | H : agree (Some ?e) ?x |- context [matched ?x ?e] =>
      rewrite (agree_matched x e (agree_sym _ _ H))
  | |- _ => progress cbn [fst snd negb andb orb both addedTwiceRemovedOnce unmatched]
  | |- _ => case_bool_decide
  | |- _ => case_decide
  end; simplify_eq; try done.

Lemma merge_arrows s t u :
  agree s t -> agree t u -> agree s u ->
  mergeConflict (cellBetween s t) (cellBetween t u) = false /\
  mergeCell (cellBetween s t) (cellBetween t u) = cellBetween s u.
Proof.
  intros Hst Htu Hsu. unfold cellBetween, mergeConflict, mergeCell, mergeRemovalCell, mergeAdditionCell.
  destruct s as [s|], t as [t|], u as [u|]; cell_cases.
Qed.

Lemma diff_arrows s t u :
  agree s t -> agree s u -> agree t u ->
  diffConflict (cellBetween s t) (cellBetween s u) = false /\
  diffCell (cellBetween s t) (cellBetween s u) = cellBetween t u.
Proof.
  intros Hst Hsu Htu. unfold cellBetween, diffConflict, diffCell.
  destruct s as [s|], t as [t|], u as [u|]; cell_cases.
Qed.

Section Algebra.
Context `{Crypto} {MR : MapRange}.

(** ** Entries *)

Lemma sameCoin_spec a b :
  sameCoin a b = true <-> amount a = amount b /\ isCoinbase a = isCoinbase b /\
    scriptPublicKey a = scriptPublicKey b.
Proof.
  unfold sameCoin. rewrite !andb_true_iff, Z.eqb_eq, Bool.eqb_true_iff, ScriptPublicKey_Equal_spec,
    bool_decide_eq_true. tauto.
Qed.

Lemma sameCoin_refl a : sameCoin a a = true.
Proof. by apply sameCoin_spec. Qed.

Lemma is_diff_update S T d d' o x :
  is_diff S T d -> (forall o', o' <> o -> at_outpoint d' o' = at_outpoint d o') ->
  at_outpoint d' o = cellBetween (S !! o) x -> is_diff S (partial_alter (fun _ => x) o T) d'.
Proof.
  intros Hd Hne Heq o'. destruct (decide (o' = o)) as [->|Hn].
  - by rewrite lookup_partial_alter_eq.
  - by rewrite lookup_partial_alter_ne, Hne.
Qed.

(** What [removeEntry] and [addEntry] leave at their outpoint, unless they fail. *)
Definition removeCell (e : UTXOEntry) (c : cell) : option cell :=
  match c.1 with
  | Some x => if blockDAAScore x =? blockDAAScore e
              then Some (None, if sameCoin x e then c.2 else Some e)
              else if c.2 is Some _ then None else Some (c.1, Some e)
  | None => if c.2 is Some _ then None else Some (None, Some e)
  end.

Definition addCell (e : UTXOEntry) (c : cell) : option cell :=
  if matched c.2 e then
    Some (if both sameCoin c.2 (Some e) then c.1 else Some e, None)
  else match c.1 with
       | Some x => if sameCoin x e then Some (Some e, c.2) else None
       | None => Some (Some e, c.2)
       end.

(** The diff with the outpoint in another state, recorded as changed. *)
Definition putCell (o : DomainOutpoint) (c : cell) (d : mutableUTXODiff) : mutableUTXODiff :=
  MkDiff (partial_alter (fun _ => c.1) o (toAdd d)) (partial_alter (fun _ => c.2) o (toRemove d))
    (changed (recordChange o d)).

Lemma putCell_at o c d o' :
  at_outpoint (putCell o c d) o' = if decide (o' = o) then c else at_outpoint d o'.
Proof.
  destruct c as [x y]. unfold at_outpoint. cbn.
  case_decide as Ho; [by rewrite Ho, !lookup_partial_alter_eq|by rewrite !lookup_partial_alter_ne].
Qed.

Lemma putCell_self o d : putCell o (at_outpoint d o) d = recordChange o d.
Proof. unfold putCell, recordChange. cbn. by rewrite !partial_alter_self. Qed.

Lemma put_same (m : utxoCollection) o x : m !! o = x -> partial_alter (fun _ => x) o m = m.
Proof. intros <-. apply partial_alter_self. Qed.

Lemma removeEntry_run o e d :
  removeEntry o (Some e) d =
  match removeCell e (at_outpoint d o) with
  | Some c => (Ret tt, putCell o c d)
  | None => (Err (ErrRemoveTwice o), putCell o (at_outpoint d o) d)
  end.
Proof.
  unfold removeEntry, onAdd, onRemove, bind, modify, get, removeCell, throw, ret, putCell.
  unfold containsWithDAAScore, Contains. cbn.
  destruct (toAdd d !! o) as [x|] eqn:Hx, (toRemove d !! o) as [y|] eqn:Hy; cbn.
  all: try (destruct (blockDAAScore x =? blockDAAScore e)); try (destruct (sameCoin x e)); cbn; try done.
  all: by rewrite ?(put_same _ _ _ Hx), ?(put_same _ _ _ Hy).
Qed.

Lemma sameCoin_eq x e : sameCoin x e = true -> blockDAAScore x = blockDAAScore e -> x = e.
Proof. rewrite sameCoin_spec. destruct x, e. cbn. intros (-> & -> & ->) ->. done. Qed.

Lemma addEntry_run o e d :
  addEntry o e d =
  match addCell e (at_outpoint d o) with
  | Some c => (Ret tt, putCell o c d)
  | None => (Err (ErrAddTwice o), putCell o (at_outpoint d o) d)
  end.
Proof.
  unfold addEntry, onAdd, onRemove, bind, modify, get, addCell, throw, ret, putCell, matched, both,
    sameDAAScore.
  unfold containsWithDAAScore, Contains. cbn.
  destruct (toAdd d !! o) as [x|] eqn:Hx, (toRemove d !! o) as [y|] eqn:Hy; cbn.
  all: try (destruct (blockDAAScore y =? blockDAAScore e)); cbn.
  all: try (destruct (sameCoin y e)); cbn; try done.
  all: try (destruct (sameCoin x e) eqn:Hc); cbn.
  all: try (destruct (Z.eqb_spec (blockDAAScore x) (blockDAAScore e)) as [Hd|Hd]; cbn).
  all: try (pose proof (sameCoin_eq x e Hc Hd); subst x).
  all: unfold add, remove; rewrite ?insert_delete_eq; by rewrite ?(put_same _ _ _ Hx), ?(put_same _ _ _ Hy).
Qed.

(** ** Rolling back *)

(** Diffs with the same collections. *)
Definition same_cells (d d' : mutableUTXODiff) : Prop :=
  toAdd d = toAdd d' /\ toRemove d = toRemove d'.

Lemma restore_run u d :
  restore u d = putCell (u_outpoint u) (toAddEntry u, toRemoveEntry u) d.
Proof. destruct u as [o [x|] [y|]], d; reflexivity. Qed.

Lemma restore_cells u d d' : same_cells d d' -> same_cells (restore u d) (restore u d').
Proof. rewrite !restore_run. intros [E1 E2]. split; cbn; congruence. Qed.

Lemma rollback_cells undoLog d d' :
  same_cells d d' -> same_cells (rollback undoLog d) (rollback undoLog d').
Proof. intros Hs. induction undoLog as [|u l IH]; [done|]. by apply restore_cells. Qed.

Lemma restore_snapshot o c d : same_cells (restore (snapshot o d) (putCell o c d)) d.
Proof.
  rewrite restore_run. split; apply map_eq; intros o'; cbn;
    (destruct (decide (o' = o)) as [->|]; [by rewrite lookup_partial_alter_eq|]);
    by rewrite !lookup_partial_alter_ne.
Qed.

(** A log that leads back to [d0]. *)
Definition leadsBack (d0 : mutableUTXODiff) (undoLog : list utxoDiffUndoEntry) (d : mutableUTXODiff)
  : Prop := same_cells (rollback undoLog d) d0.

Lemma leadsBack_put d0 undoLog o c d :
  leadsBack d0 undoLog d -> leadsBack d0 (undoLog ++ [snapshot o d]) (putCell o c d).
Proof.
  intros [L1 L2]. unfold leadsBack, rollback. rewrite foldr_app. cbn [foldr].
  destruct (rollback_cells undoLog _ _ (restore_snapshot o c d)) as [E1 E2].
  split; [exact (eq_trans E1 L1)|exact (eq_trans E2 L2)].
Qed.

(** A logged change that puts a cell either extends the log or fails with the diff
    as the log found it. *)
Lemma logged_spec d0 undoLog o (m : diffM unit) d (oc : option cell) e :
  leadsBack d0 undoLog d ->
  m d = match oc with
        | Some c => (Ret tt, putCell o c d)
        | None => (Err e, putCell o (at_outpoint d o) d)
        end ->
  match oc with
  | Some c => exists undoLog', logged undoLog o m d = (Ret undoLog', putCell o c d) /\
                leadsBack d0 undoLog' (putCell o c d)
  | None => exists d', logged undoLog o m d = (Err e, d') /\ same_cells d' d0
  end.
Proof.
  intros Hl Hm. unfold logged, bind, gets, try, modify, throw, ret. rewrite Hm.
  destruct oc as [c|]; eexists; (split; [reflexivity|]); by apply leadsBack_put.
Qed.

(** ** Transactions *)

(** The ID of a transaction. *)
Definition txID (tx : DomainTransaction) : bytes :=
  match ID tx with Some id => id | None => refID tx end.

Lemma TransactionID_run {E} tx : (consensushashing_TransactionID (E:=E) tx).1 = Ret (txID tx).
Proof.
  unfold txID, consensushashing_TransactionID, bind, get. destruct (ID tx) as [id|]; [done|].
  erewrite runHash_emits by apply serializeTransaction_emits. cbn. unfold refID.
  by destruct (IsCoinBase tx).
Qed.

(** The inputs whose coin is spent. *)
Definition spentInputs (skipMissingInputs : bool) (inputs : list DomainTransactionInput)
  : list DomainTransactionInput :=
  List.filter (fun i => negb (skipMissingInputs && bool_decide (in_UTXOEntry i = None))) inputs.

Lemma removeInputs_spec d0 skip inputs undoLog d :
  (skip = true \/ Forall (fun i => is_Some (in_UTXOEntry i)) inputs) ->
  leadsBack d0 undoLog d ->
  (exists e d', removeInputs skip inputs undoLog d = (Err e, d') /\ same_cells d' d0) \/
  (exists undoLog' d', removeInputs skip inputs undoLog d = (Ret undoLog', d') /\
     leadsBack d0 undoLog' d').
Proof.
  intros Hn. revert undoLog d. induction inputs as [|i inputs IH]; intros undoLog d Hl.
  { right. by exists undoLog, d. }
  assert (Hn' : skip = true \/ Forall (fun i => is_Some (in_UTXOEntry i)) inputs).
  { destruct Hn as [?|Hn]; [by left|right]. by apply Forall_cons_1 in Hn as [_ ?]. }
  specialize (IH Hn'). cbn [removeInputs].
  destruct (skip && bool_decide (in_UTXOEntry i = None)) eqn:Hs; [by apply IH|].
  destruct (in_UTXOEntry i) as [e|] eqn:He.
  - pose proof (logged_spec d0 undoLog (PreviousOutpoint i) _ d _ _ Hl
      (removeEntry_run (PreviousOutpoint i) e d)) as Hlog.
    destruct (removeCell e (at_outpoint d (PreviousOutpoint i))) as [c|].
    + destruct Hlog as (undoLog' & Hrun & Hl'). rewrite (bind_Ret _ _ _ _ _ Hrun). by apply IH.
    + destruct Hlog as (d' & Hrun & Hl'). left. do 2 eexists. split; [by apply bind_Err|done].
  - destruct Hn as [->|Hn]; [by rewrite bool_decide_eq_true_2 in Hs|].
    apply Forall_cons_1 in Hn as [[? ?] _]. congruence.
Qed.

Lemma addOutputs_spec d0 id cb daa i outputs undoLog d :
  leadsBack d0 undoLog d ->
  (exists e d', addOutputs id cb daa i outputs undoLog d = (Err e, d') /\ same_cells d' d0) \/
  (exists d', addOutputs id cb daa i outputs undoLog d = (Ret tt, d')).
Proof.
  revert i undoLog d. induction outputs as [|out outputs IH]; intros i undoLog d Hl.
  { right. by eexists. }
  cbn [addOutputs]. destruct (_ || _); [left; do 2 eexists; split; [reflexivity|done]|].
  set (o := MkOutpoint id (u32 i)). set (e := NewUTXOEntry _ _ _ _).
  pose proof (logged_spec d0 undoLog o _ d _ _ Hl (addEntry_run o e d)) as Hlog.
  destruct (addCell e (at_outpoint d o)) as [c|].
  - destruct Hlog as (undoLog' & Hrun & Hl'). rewrite (bind_Ret _ _ _ _ _ Hrun). by apply IH.
  - destruct Hlog as (d' & Hrun & Hl'). left. do 2 eexists. split; [by apply bind_Err|done].
Qed.

(** C6. Adding a transaction to a diff is atomic.  If [AddTransaction] or
    [AddOutputsSpendingResolvedInputs] returns an error, both collections of the
    diff are what they were before the call; and they panic only where
    [AddTransaction] is given an input without a UTXO entry. *)
Theorem addTransaction_atomic (tx : DomainTransaction) (daaScore : Z) (skipMissingInputs : bool)
    (d : mutableUTXODiff) :
  skipMissingInputs = true \/ Forall (fun i => is_Some (in_UTXOEntry i)) (Inputs tx) ->
  (exists d', addTransaction tx daaScore skipMissingInputs d = (Ret tt, d')) \/
  (exists e d', addTransaction tx daaScore skipMissingInputs d = (Err e, d') /\
     toAdd d' = toAdd d /\ toRemove d' = toRemove d).
Proof.
  intros Hn. unfold addTransaction.
  destruct (removeInputs_spec d skipMissingInputs (Inputs tx) [] d Hn) as
    [(e & d' & Hrun & Hs)|(undoLog & d1 & Hrun & Hl)]; [done| |].
  - right. exists e, d'. split; [by apply bind_Err|]. by destruct Hs.
  - rewrite (bind_Ret _ _ _ _ _ Hrun). rewrite (bind_Ret _ _ d1 d1 (txID tx)) by (unfold lift, transactionIDOf; by rewrite TransactionID_run).
    destruct (addOutputs_spec d (txID tx) (IsCoinBase tx) daaScore 0 (Outputs tx) undoLog d1 Hl) as
      [(e & d' & Hrun' & Hs)|Hok]; [|by left].
    right. exists e, d'. split; [done|]. by destruct Hs.
Qed.

(** ** Transactions on the ledger *)

(** The UTXO set after the inputs are spent and the outputs created. *)
Definition spendAll (inputs : list DomainTransactionInput) (T : utxoCollection) : utxoCollection :=
  foldl (fun T i => delete (PreviousOutpoint i) T) T inputs.

Fixpoint createAll (id : bytes) (isCoinbase : bool) (daaScore : Z) (i : Z)
    (outputs : list DomainTransactionOutput) (T : utxoCollection) : utxoCollection :=
  match outputs with
  | [] => T
  | out :: outputs =>
      createAll id isCoinbase daaScore (i + 1) outputs
        (<[MkOutpoint id i := NewUTXOEntry (Value out) (out_ScriptPublicKey out) isCoinbase daaScore]> T)
  end.

Definition ledgerStep (tx : DomainTransaction) (daaScore : Z) (skipMissingInputs : bool)
    (T : utxoCollection) : utxoCollection :=
  createAll (txID tx) (IsCoinBase tx) daaScore 0 (Outputs tx) (spendAll (spentInputs skipMissingInputs (Inputs tx)) T).

(** Every input carries the coin the set holds, and none is spent twice. *)
Fixpoint spendable (T : utxoCollection) (inputs : list DomainTransactionInput) : Prop :=
  match inputs with
  | [] => True
  | i :: inputs => is_Some (in_UTXOEntry i) /\ T !! PreviousOutpoint i = in_UTXOEntry i /\
                   spendable (delete (PreviousOutpoint i) T) inputs
  end.

Lemma removeCell_arrow s e : removeCell e (cellBetween s (Some e)) = Some (cellBetween s None).
Proof.
  unfold cellBetween. destruct (decide (s = Some e)) as [->|Hne].
  - cbn. by rewrite decide_False.
  - unfold removeCell. cbn [fst snd]. rewrite Z.eqb_refl, sameCoin_refl. by destruct s.
Qed.

Lemma addCell_arrow s e : agree s (Some e) ->
  addCell e (cellBetween s None) = Some (cellBetween s (Some e)).
Proof.
  intros Ha. unfold addCell, cellBetween. destruct s as [y|]; [|done].
  destruct (decide (Some y = None)) as [|_]; [done|]. cbn [fst snd matched both].
  destruct (Z.eqb_spec (blockDAAScore y) (blockDAAScore e)) as [Hd|Hd].
  - rewrite (Ha y e) by done. rewrite sameCoin_refl. by rewrite decide_True.
  - rewrite decide_False; [done|]. by intros [= ->].
Qed.

Lemma is_diff_put S T d o x :
  is_diff S T d -> is_diff S (partial_alter (fun _ => x) o T) (putCell o (cellBetween (S !! o) x) d).
Proof.
  intros Hd o'. rewrite putCell_at. case_decide as Ho.
  - by rewrite Ho, lookup_partial_alter_eq.
  - by rewrite lookup_partial_alter_ne.
Qed.

Lemma logged_ok undoLog o (m : diffM unit) d d' :
  m d = (Ret tt, d') -> exists undoLog', logged undoLog o m d = (Ret undoLog', d').
Proof. intros Hm. unfold logged, bind, gets, try, ret. rewrite Hm. by eexists. Qed.

Lemma removeInputs_refines S T skip inputs undoLog d :
  is_diff S T d -> spendable T (spentInputs skip inputs) ->
  exists undoLog' d', removeInputs skip inputs undoLog d = (Ret undoLog', d') /\
    is_diff S (spendAll (spentInputs skip inputs) T) d'.
Proof.
  revert T undoLog d. induction inputs as [|i inputs IH]; intros T undoLog d Hd Hsp.
  { by exists undoLog, d. }
  unfold spentInputs in *. cbn [removeInputs List.filter] in *.
  destruct (skip && bool_decide (in_UTXOEntry i = None)); [by apply IH|].
  destruct Hsp as ([e He] & Hi & Hsp). rewrite He in Hi |- *.
  pose proof (removeEntry_run (PreviousOutpoint i) e d) as Hrun.
  rewrite Hd, Hi, removeCell_arrow in Hrun.
  destruct (logged_ok undoLog (PreviousOutpoint i) _ _ _ Hrun) as [undoLog' Hlog].
  rewrite (bind_Ret _ _ _ _ _ Hlog). apply IH; [by apply is_diff_put|done].
Qed.

Lemma addOutputs_refines S T id cb daa i outputs undoLog d :
  is_diff S T d -> 0 <= i -> i + len outputs <= 2 ^ 32 ->
  (forall k, i <= k -> T !! MkOutpoint id k = None) ->
  coherent S (createAll id cb daa i outputs T) ->
  exists d', addOutputs id cb daa i outputs undoLog d = (Ret tt, d') /\
    is_diff S (createAll id cb daa i outputs T) d'.
Proof.
  revert T i undoLog d. induction outputs as [|out outputs IH]; intros T i undoLog d Hd Hi Hn Hfresh Hco.
  { by exists d. }
  rewrite len_cons in Hn. pose proof (len_nonneg outputs). cbn [addOutputs createAll] in *.
  assert (Hu : u32 i = i) by (unfold u32; apply Z.mod_small; lia).
  rewrite (proj2 (Z.ltb_ge i 0)), (proj2 (Z.ltb_ge MaxUint32 i)) by (unfold MaxUint32; lia).
  cbn [orb]. rewrite Hu. set (o := MkOutpoint id i) in *. set (e := NewUTXOEntry _ _ _ _) in *.
  assert (Hkeep : forall outs k T', k > i -> createAll id cb daa k outs T' !! o = T' !! o).
  { induction outs as [|out' outs IHo]; intros k T' Hk; [done|]. cbn [createAll].
    rewrite IHo by lia. apply lookup_insert_ne. unfold o. intros [=]. lia. }
  assert (Ha : agree (S !! o) (Some e)).
  { specialize (Hco o). rewrite Hkeep, lookup_insert_eq in Hco by lia. done. }
  pose proof (addEntry_run o e d) as Hrun.
  assert (Ho : T !! o = None) by (apply Hfresh; lia).
  rewrite Hd, Ho, addCell_arrow in Hrun by done.
  destruct (logged_ok undoLog o _ _ _ Hrun) as [undoLog' Hlog].
  rewrite (bind_Ret _ _ _ _ _ Hlog).
  apply IH; [by apply is_diff_put|lia|lia| |done].
  intros k Hk. rewrite lookup_insert_ne; [apply Hfresh; lia|]. unfold o. intros [=]. lia.
Qed.

(** Adding a transaction to the diff from [S] to [T] gives the diff from [S] to the
    set [T] becomes when the inputs are spent and the outputs created. *)
Lemma addTransaction_extends S T d tx daaScore skip :
  is_diff S T d -> len (Outputs tx) <= 2 ^ 32 ->
  spendable T (spentInputs skip (Inputs tx)) ->
  (forall i, 0 <= i -> spendAll (spentInputs skip (Inputs tx)) T !! MkOutpoint (txID tx) i = None) ->
  coherent S (ledgerStep tx daaScore skip T) ->
  exists d', addTransaction tx daaScore skip d = (Ret tt, d') /\
    is_diff S (ledgerStep tx daaScore skip T) d'.
Proof.
  intros Hd Hlen Hsp Hfresh Hco. unfold addTransaction.
  destruct (removeInputs_refines S T skip (Inputs tx) [] d Hd Hsp) as (undoLog & d1 & Hrun & Hd1).
  rewrite (bind_Ret _ _ _ _ _ Hrun), (bind_Ret _ _ d1 d1 (txID tx))
    by (unfold lift, transactionIDOf; by rewrite TransactionID_run).
  by apply addOutputs_refines.
Qed.

(** C4. [withDiff] composes diffs: of a diff from [S] to [T] and one from [T] to
    [U] it makes the diff from [S] to [U], without error, whatever the order in
    which the maps are visited. *)
Theorem withDiff_composes (S T U : utxoCollection) (d1 d2 : mutableUTXODiff) :
  is_diff S T d1 -> is_diff T U d2 -> coherent S T -> coherent T U -> coherent S U ->
  exists d, withDiff d1 d2 = Ret d /\ is_diff S U d /\ applied d S = U.
Proof.
  intros H1 H2 Hst Htu Hsu.
  assert (Hcell : forall o, mergeConflict (at_outpoint d1 o) (at_outpoint d2 o) = false /\
    mergeCell (at_outpoint d1 o) (at_outpoint d2 o) = cellBetween (S !! o) (U !! o)).
  { intros o. rewrite H1, H2. by apply merge_arrows. }
  unfold withDiff. destruct (withDiffInPlace_spec (clone d1) d2) as [(o & e & Hc & _)|(_ & d & -> & _ & Hd)].
  - change (at_outpoint (clone d1) o) with (at_outpoint d1 o) in Hc.
    pose proof (proj1 (Hcell o)). congruence.
  - exists d. split; [done|]. assert (is_diff S U d) as Hdiff.
    { intros o. rewrite Hd. exact (proj2 (Hcell o)). }
    split; [done|]. by apply is_diff_applied.
Qed.

(** C5. [diffFrom] connects two sets that are described by diffs from a common
    one: of a diff from [S] to [T] and one from [S] to [U] it makes the diff from
    [T] to [U], without error, whatever the order in which the maps are visited;
    and the reverse of a diff leads back. *)
Theorem diffFrom_connects (S T U : utxoCollection) (d1 d2 s : mutableUTXODiff) :
  is_diff S T d1 -> is_diff S U d2 -> coherent S T -> coherent S U -> coherent T U ->
  is_diff T S (Reversed d1) /\
  exists d, diffFrom d1 d2 s = (Ret d, s) /\ is_diff T U d /\ applied d T = U.
Proof.
  intros H1 H2 Hst Hsu Htu. split.
  { intros o. specialize (H1 o). unfold at_outpoint, cellBetween in *. cbn.
    case_decide as Heq; injection H1 as -> ->;
      [by rewrite decide_True|by rewrite decide_False]. }
  assert (Hcell : forall o, diffConflict (at_outpoint d1 o) (at_outpoint d2 o) = false /\
    diffCell (at_outpoint d1 o) (at_outpoint d2 o) = cellBetween (T !! o) (U !! o)).
  { intros o. rewrite H1, H2. by apply diff_arrows. }
  destruct (diffFrom_spec d1 d2 s) as [(o & e & Hc & _)|(_ & d & Hrun & _ & Hd)].
  - pose proof (proj1 (Hcell o)). congruence.
  - exists d. split; [done|]. assert (is_diff T U d) as Hdiff.
    { intros o. rewrite Hd. exact (proj2 (Hcell o)). }
    split; [done|]. by apply is_diff_applied.
Qed.

(** ** Sequences of mutations *)

Inductive mutation : Type :=
| MAddTransaction (tx : DomainTransaction) (daaScore : Z) (skipMissingInputs : bool)
| MWithDiffInPlace (other : mutableUTXODiff).

(** The diff a call leaves behind, whether it succeeds or not. *)
Definition mutate (m : mutation) (d : mutableUTXODiff) : mutableUTXODiff :=
  match m with
  | MAddTransaction tx daaScore skip => (addTransaction tx daaScore skip d).2
  | MWithDiffInPlace other => (withDiffInPlace other d).2
  end.

Lemma mutations_invariant (P : mutableUTXODiff -> Prop) ms d :
  (forall m d, P d -> P (mutate m d)) -> P d -> P (foldl (fun d m => mutate m d) d ms).
Proof. intros HP. revert d. induction ms as [|m ms IH]; intros d Hd; [done|]. by apply IH, HP. Qed.

Section Closed.
Context (P : mutableUTXODiff -> Prop).
Hypothesis P_put : forall o c d, P d -> P (putCell o c d).

Lemma rollback_closed undoLog d : P d -> P (rollback undoLog d).
Proof. intros Hd. induction undoLog as [|u l IH]; [done|]. cbn. rewrite restore_run. by apply P_put. Qed.

Lemma entry_closed o e d : P d -> P (removeEntry o e d).2 /\ (forall e', P (addEntry o e' d).2).
Proof.
  intros Hd. split.
  - destruct e as [e|]; [rewrite removeEntry_run; case_match; by apply P_put|].
    cbn. rewrite <- putCell_self. by apply P_put.
  - intros e'. rewrite addEntry_run. case_match; by apply P_put.
Qed.

Lemma logged_closed undoLog o (m : diffM unit) d : P (m d).2 -> P (logged undoLog o m d).2.
Proof.
  intros Hm. unfold logged, bind, gets, try, modify, throw, ret.
  destruct (m d) as [[[]|e|] d']; cbn in *; [done|by apply rollback_closed|done].
Qed.

Lemma bind_closed {A B} (m : diffM A) (k : A -> diffM B) d :
  P (m d).2 -> (forall a d', P d' -> P (k a d').2) -> P (bind m k d).2.
Proof. intros Hm Hk. unfold bind. destruct (m d) as [[a|e|] d']; cbn in *; auto. Qed.

Lemma addTransaction_closed tx daa skip d : P d -> P (addTransaction tx daa skip d).2.
Proof.
  intros Hd. unfold addTransaction. apply bind_closed; [|intros undoLog d1 Hd1; apply bind_closed; [done|]].
  - generalize (@nil utxoDiffUndoEntry). revert d Hd.
    induction (Inputs tx) as [|i inputs IH]; intros d Hd undoLog; [done|]. cbn [removeInputs].
    destruct (_ && _); [by apply IH|]. apply bind_closed; [|intros; by apply IH].
    apply logged_closed. by apply entry_closed.
  - intros id d2 Hd2. generalize 0. revert undoLog d2 Hd2.
    induction (Outputs tx) as [|out outputs IH]; intros undoLog d2 Hd2 i; [done|]. cbn [addOutputs].
    destruct (_ || _); [by apply rollback_closed|]. apply bind_closed; [|intros; by apply IH].
    apply logged_closed. by apply (entry_closed _ None).
Qed.
End Closed.

(** A diff that records its changes, and has recorded every outpoint at which it
    differs from [this]. *)
Definition recordsChangesFrom (this d : mutableUTXODiff) : Prop :=
  exists c, changed d = Some c /\ forall o, o ∉ c -> at_outpoint d o = at_outpoint this o.

Lemma recordsChangesFrom_put this o c d :
  recordsChangesFrom this d -> recordsChangesFrom this (putCell o c d).
Proof.
  intros (ch & Hch & Hat). exists ({[ o ]} ∪ ch). split; [cbn; by rewrite Hch|].
  intros o' Ho'. rewrite putCell_at, decide_False by set_solver. apply Hat. set_solver.
Qed.

Lemma recordsChangesFrom_mutate this m d :
  recordsChangesFrom this d -> recordsChangesFrom this (mutate m d).
Proof.
  intros Hd. destruct m as [tx daa skip|other]; cbn [mutate].
  - apply addTransaction_closed; [|done]. intros o c. apply recordsChangesFrom_put.
  - destruct Hd as (ch & Hch & Hat).
    exists (dom (toRemove other) ∪ (dom (toAdd other) ∪ ch)).
    destruct (withDiffInPlace_spec d other) as [(_ & e & _ & ->)|(_ & d' & -> & Hc & Hd)].
    + cbn. rewrite Hch. split; [done|]. intros o Ho. apply Hat. set_solver.
    + cbn. rewrite Hc, Hch. split; [done|]. intros o Ho. rewrite Hd.
      rewrite !not_elem_of_union, !not_elem_of_dom in Ho. destruct Ho as (Hr & Ha & Ho).
      unfold mergeCell, at_outpoint at 2 3. cbn. rewrite Ha, Hr. cbn. by apply Hat.
Qed.

(** ** Well-formed diffs *)

(** No outpoint is pending in both collections with the same DAA score. *)
Definition wf_cell (c : cell) : Prop := forall a r, c = (Some a, Some r) -> blockDAAScore a <> blockDAAScore r.
Definition wf_diff (d : mutableUTXODiff) : Prop := forall o, wf_cell (at_outpoint d o).

Lemma wf_removeCell e c c' : wf_cell c -> removeCell e c = Some c' -> wf_cell c'.
Proof.
  unfold wf_cell, removeCell. destruct c as [[x|] [y|]]; cbn; intros Hwf Hc a r ->;
    repeat (case_match; simplify_eq); zbool; congruence.
Qed.

Lemma wf_addCell e c c' : wf_cell c -> addCell e c = Some c' -> wf_cell c'.
Proof.
  unfold wf_cell, addCell, matched. destruct c as [[x|] [y|]]; cbn; intros Hwf Hc a r ->;
    repeat (case_match; simplify_eq); zbool; congruence.
Qed.

Lemma wf_mergeCell c c' : wf_cell c -> wf_cell (mergeCell c c').
Proof.
  unfold wf_cell, mergeCell, mergeRemovalCell, mergeAdditionCell, matched.
  destruct c as [[x|] [y|]], c' as [[x'|] [y'|]]; cbn; intros Hwf a r Hc;
    repeat (case_match; simplify_eq; cbn in *); zbool; try congruence; by eapply Hwf.
Qed.

Lemma wf_put o c d : wf_diff d -> wf_cell c -> wf_diff (putCell o c d).
Proof. intros Hd Hc o'. rewrite putCell_at. by case_decide. Qed.

Lemma wf_same_cells d d' : same_cells d d' -> wf_diff d' -> wf_diff d.
Proof. intros [E1 E2] Hd o. specialize (Hd o). unfold at_outpoint in *. by rewrite E1, E2. Qed.

(** A logged change keeps diffs well-formed, and its log complete. *)
Lemma logged_wf d0 undoLog o m d oc e :
  wf_diff d0 -> leadsBack d0 undoLog d -> wf_diff d ->
  (forall c, oc = Some c -> wf_cell c) ->
  m d = match oc with
        | Some c => (Ret tt, putCell o c d)
        | None => (Err e, putCell o (at_outpoint d o) d)
        end ->
  wf_diff (logged undoLog o m d).2 /\
  (forall log', (logged undoLog o m d).1 = Ret log' -> leadsBack d0 log' (logged undoLog o m d).2).
Proof.
  intros Hwf0 Hl Hwf Hc Hm. pose proof (logged_spec d0 undoLog o m d oc e Hl Hm) as Hlog.
  destruct oc as [c|].
  - destruct Hlog as (log & -> & Hl'). cbn. split; [by apply wf_put; auto|]. by intros log' [= <-].
  - destruct Hlog as (d' & -> & Hs). cbn. split; [by eapply wf_same_cells|done].
Qed.

Lemma removeInputs_wf d0 skip inputs undoLog d :
  wf_diff d0 -> leadsBack d0 undoLog d -> wf_diff d ->
  wf_diff (removeInputs skip inputs undoLog d).2 /\
  (forall log', (removeInputs skip inputs undoLog d).1 = Ret log' ->
     leadsBack d0 log' (removeInputs skip inputs undoLog d).2).
Proof.
  intros Hwf0. revert undoLog d. induction inputs as [|i inputs IH]; intros undoLog d Hl Hwf.
  { cbn. split; [done|]. by intros log' [= <-]. }
  cbn [removeInputs]. destruct (_ && _); [by apply IH|].
  destruct (in_UTXOEntry i) as [e|].
  - destruct (logged_wf d0 undoLog (PreviousOutpoint i) _ d _ _ Hwf0 Hl Hwf
      (fun c => wf_removeCell e _ c (Hwf _)) (removeEntry_run (PreviousOutpoint i) e d)) as [Hw Hl'].
    unfold bind. destruct (logged _ _ _ _) as [[log|err|] d']; cbn in *; [|done|done].
    apply IH; auto.
  - unfold bind, logged, gets, try, removeEntry. cbn. split; [|done].
    rewrite <- putCell_self. by apply wf_put.
Qed.

Lemma addOutputs_wf d0 id cb daa i outputs undoLog d :
  wf_diff d0 -> leadsBack d0 undoLog d -> wf_diff d ->
  wf_diff (addOutputs id cb daa i outputs undoLog d).2.
Proof.
  intros Hwf0. revert i undoLog d. induction outputs as [|out outputs IH]; intros i undoLog d Hl Hwf; [done|].
  cbn [addOutputs]. destruct (_ || _); [cbn; by eapply wf_same_cells|].
  set (o := MkOutpoint id (u32 i)). set (e := NewUTXOEntry _ _ _ _).
  destruct (logged_wf d0 undoLog o _ d _ _ Hwf0 Hl Hwf
    (fun c => wf_addCell e _ c (Hwf _)) (addEntry_run o e d)) as [Hw Hl'].
  unfold bind. destruct (logged _ _ _ _) as [[log|err|] d']; cbn in *; [|done|done].
  apply IH; auto.
Qed.

Lemma mutate_wf m d : wf_diff d -> wf_diff (mutate m d).
Proof.
  intros Hwf. destruct m as [tx daa skip|other]; cbn [mutate].
  - unfold addTransaction, bind.
    destruct (removeInputs_wf d skip (Inputs tx) [] d Hwf (conj eq_refl eq_refl) Hwf) as [Hw Hl].
    destruct (removeInputs _ _ _ _) as [[log|e|] d1]; cbn in *; [|done|done].
    unfold lift. destruct (transactionIDOf tx); cbn; [|done|done].
    apply (addOutputs_wf d); auto.
  - destruct (withDiffInPlace_spec d other) as [(_ & e & _ & ->)|(_ & d' & -> & _ & Hd)]; cbn [snd].
    + by apply (wf_same_cells _ d).
    + intros o. rewrite Hd. apply wf_mergeCell, Hwf.
Qed.

(** ** Diffs over changed outpoints *)

(** At every outpoint the accumulated diff is empty or like the restricted one. *)
Definition partOf (d acc : mutableUTXODiff) : Prop :=
  forall o, at_outpoint acc o = (None, None) \/ at_outpoint acc o = at_outpoint d o.

Lemma restrictOutpoint_at d acc k o :
  partOf d acc ->
  at_outpoint (restrictOutpoint d acc k) o = if decide (o = k) then at_outpoint d k else at_outpoint acc o.
Proof.
  intros Hacc. specialize (Hacc k). unfold restrictOutpoint, at_outpoint in *.
  destruct (toAdd d !! k) as [x|], (toRemove d !! k) as [y|]; cbn; unfold add.
  all: destruct (decide (o = k)) as [->|Ho]; rewrite ?lookup_insert_eq, ?lookup_insert_ne by done; try done.
  all: destruct Hacc as [[= E1 E2]|[= E1 E2]]; by rewrite ?E1, ?E2.
Qed.

Lemma restrictToOutpoints_at d c o :
  at_outpoint (restrictToOutpoints d c) o = if decide (o ∈ c) then at_outpoint d o else (None, None).
Proof.
  assert (Hl : forall l acc, partOf d acc ->
    at_outpoint (foldl (restrictOutpoint d) acc l) o
    = if decide (o ∈ l) then at_outpoint d o else at_outpoint acc o).
  { induction l as [|k l IH]; intros acc Hacc; cbn [foldl].
    { rewrite decide_False by (apply not_elem_of_nil). done. }
    rewrite IH.
    - rewrite restrictOutpoint_at by done.
      destruct (decide (o ∈ l)), (decide (o ∈ k :: l)), (decide (o = k)); subst; try done; set_solver.
    - intros o'. rewrite restrictOutpoint_at by done.
      destruct (decide (o' = k)) as [->|]; [by right|apply Hacc]. }
  unfold restrictToOutpoints. rewrite Hl by (intros ?; by left).
  destruct (decide (o ∈ elements c)), (decide (o ∈ c)); try done; set_solver.
Qed.

Lemma self_arrow c : wf_cell c -> diffConflict c c = false /\ diffCell c c = (None, None).
Proof.
  intros Hwf. unfold diffConflict, diffCell. destruct c as [[x|] [y|]]; cbn -[matched];
    rewrite ?matched_refl; cbn -[matched]; rewrite ?andb_false_r, ?orb_false_r; try done.
  specialize (Hwf x y eq_refl). cbn. rewrite (proj2 (Z.eqb_neq _ _)), (proj2 (Z.eqb_neq (blockDAAScore y) _)) by done.
  done.
Qed.

(** Two runs of [diffFrom] with the same outcome, up to the outpoint an error
    names. *)
Definition same_outcome {A B} (r r' : outcome diffError A * B) : Prop :=
  match r.1, r'.1 with
  | Ret d, Ret d' => d = d'
  | Err _, Err _ => True
  | _, _ => False
  end.

Lemma diffFrom_pointwise this other this' other' s :
  (forall o, diffConflict (at_outpoint this o) (at_outpoint other o)
     = diffConflict (at_outpoint this' o) (at_outpoint other' o)) ->
  (forall o, diffCell (at_outpoint this o) (at_outpoint other o)
     = diffCell (at_outpoint this' o) (at_outpoint other' o)) ->
  same_outcome (diffFrom this other s) (diffFrom this' other' s).
Proof.
  intros Hc Hd. unfold same_outcome.
  destruct (diffFrom_spec this other s) as [(o & e & Ho & ->)|(Hn & d & -> & Hch & Hat)],
    (diffFrom_spec this' other' s) as [(o' & e' & Ho' & ->)|(Hn' & d' & -> & Hch' & Hat')]; cbn.
  - done.
  - by rewrite Hc, Hn' in Ho.
  - by rewrite <- Hc, Hn in Ho'.
  - apply diff_eq; [|congruence]. intros o. by rewrite Hat, Hat', Hd.
Qed.

(** [diffFrom] over the recorded outpoints and over the whole diffs both fail, or both
    return the same diff. *)
Lemma changed_suffices this other c s :
  wf_diff this -> recordsChangesFrom this other -> changed other = Some c ->
  same_outcome (diffFrom (restrictToOutpoints this c) (restrictToOutpoints other c) s)
               (diffFrom this other s).
Proof.
  intros Hwf (c' & Hc' & Hat) Hc. assert (c' = c) as -> by congruence.
  apply diffFrom_pointwise; intros o; rewrite !restrictToOutpoints_at;
    case_decide as Ho; rewrite ?(Hat _ Ho); try done; symmetry; by apply self_arrow.
Qed.
End Algebra.

(** The order in which Go visits maps does not influence the algebra: for any
    two orders, [withDiff] both times fails or both times returns the same diff,
    and so does [diffFrom]. *)
Theorem map_order_irrelevant (MR1 MR2 : MapRange) (this other s : mutableUTXODiff) :
  same_outcome (diffFrom (MR:=MR1) this other s) (diffFrom (MR:=MR2) this other s) /\
  same_outcome (withDiff (MR:=MR1) this other, tt) (withDiff (MR:=MR2) this other, tt).
Proof.
  split; unfold same_outcome.
  - destruct (diffFrom_spec (MR:=MR1) this other s) as [(o & e & Ho & ->)|(Hn & d & -> & Hch & Hat)],
      (diffFrom_spec (MR:=MR2) this other s) as [(o' & e' & Ho' & ->)|(Hn' & d' & -> & Hch' & Hat')]; cbn.
    + done.
    + by rewrite Hn' in Ho.
    + by rewrite Hn in Ho'.
    + apply diff_eq; [|congruence]. intros o. by rewrite Hat, Hat'.
  - unfold withDiff.
    destruct (withDiffInPlace_spec (MR:=MR1) (clone this) other) as
      [(o & e & Ho & ->)|(Hn & d & -> & Hch & Hat)],
      (withDiffInPlace_spec (MR:=MR2) (clone this) other) as
      [(o' & e' & Ho' & ->)|(Hn' & d' & -> & Hch' & Hat')]; cbn.
    + done.
    + by rewrite Hn' in Ho.
    + by rewrite Hn in Ho'.
    + apply diff_eq; [|congruence]. intros o. by rewrite Hat, Hat'.
Qed.

(** ** Concrete diffs *)

(** The diff between two sets. *)
Definition diffBetween (S T : utxoCollection) : mutableUTXODiff :=
  MkDiff (merge (fun s t => (cellBetween s t).1) S T) (merge (fun s t => (cellBetween s t).2) S T) None.

Lemma diffBetween_is_diff S T : is_diff S T (diffBetween S T).
Proof.
  intros o. unfold at_outpoint, diffBetween. cbn [toAdd toRemove]. rewrite !lookup_merge.
  unfold diag_None. destruct (S !! o), (T !! o); try done. by destruct (cellBetween _ _).
Qed.

Lemma coherent_disjoint S T : S ##ₘ T -> coherent S T.
Proof. intros Hd o e e' He He'. by destruct (map_disjoint_spec S T) as [Hx _]; destruct (Hx Hd o e e'). Qed.

Definition coinAt (k score : Z) : utxoCollection :=
  {[ MkOutpoint [zb k] 0 := MkUTXOEntry 10 (MkScriptPublicKey [zb k] 0) score false ]}.

Definition spendTwice : DomainTransaction :=
  let input := MkInput (MkOutpoint [zb 1] 0) [] 0 0
                 (Some (MkUTXOEntry 10 (MkScriptPublicKey [zb 1] 0) 5 false)) in
  MkTransaction 0 [input; input] [] 0 SubnetworkIDNative 0 [] 0 0 None.

Lemma addTransaction_atomic_witness :
  exists e d', addTransaction (H:=toyCrypto) spendTwice 9 false newMutableUTXODiff = (Err e, d') /\
    toAdd d' = ∅ /\ toRemove d' = ∅.
Proof.
  destruct (addTransaction_atomic (H:=toyCrypto) spendTwice 9 false newMutableUTXODiff)
    as [[d' Hd']|Herr].
  - right. repeat constructor; by eexists.
  - exfalso. vm_compute in Hd'. discriminate.
  - exact Herr.
Defined.

Lemma withDiff_composes_witness :
  exists d, withDiff (MR:=mapToListRange) (diffBetween (coinAt 1 5) (coinAt 2 6))
      (diffBetween (coinAt 2 6) (coinAt 3 7)) = Ret d /\
    is_diff (coinAt 1 5) (coinAt 3 7) d /\ applied d (coinAt 1 5) = coinAt 3 7.
Proof.
  apply (withDiff_composes (MR:=mapToListRange) (coinAt 1 5) (coinAt 2 6) (coinAt 3 7));
    [apply diffBetween_is_diff..| | |];
    apply coherent_disjoint, map_disjoint_singleton_l_2; reflexivity.
Defined.

Lemma diffFrom_connects_witness :
  is_diff (coinAt 2 6) (coinAt 1 5) (Reversed (diffBetween (coinAt 1 5) (coinAt 2 6))) /\
  exists d, diffFrom (MR:=mapToListRange) (diffBetween (coinAt 1 5) (coinAt 2 6))
      (diffBetween (coinAt 1 5) (coinAt 3 7)) newMutableUTXODiff = (Ret d, newMutableUTXODiff) /\
    is_diff (coinAt 2 6) (coinAt 3 7) d /\ applied d (coinAt 2 6) = coinAt 3 7.
Proof.
  apply (diffFrom_connects (MR:=mapToListRange) (coinAt 1 5) (coinAt 2 6) (coinAt 3 7));
    [apply diffBetween_is_diff..| | |];
    apply coherent_disjoint, map_disjoint_singleton_l_2; reflexivity.
Defined.
