(* ===== verification/UtxoAcceptance.v ===== *)
(** * Acceptance data

    The replay of acceptance data of
    [src/domain/consensus/utils/utxo/acceptance.go], onto a UTXO diff and onto the
    multiset that block headers commit to, with the types of
    [src/domain/consensus/model/externalapi/acceptancedata.go].

    The multiset (MuHash) is third-party code behind the interface
    [MultisetWriter]; the code relies on additions and removals being elements of
    a commutative group, [MultisetLaws]. *)

From S2P Require Import Prelude ScriptError Transaction Crypto Sha256 Serialization SigHash.
From S2P Require Import UtxoDiff UtxoAlgebra.

(** ** Data *)

Record TransactionAcceptanceData : Type := MkTxAcceptance {
  tad_Transaction : DomainTransaction;
  tad_Fee : Z;
  IsAccepted : bool;
  TransactionInputUTXOEntries : list UTXOEntry
}.

Record BlockAcceptanceData : Type := MkBlockAcceptance {
  BlockHash : bytes;
  bad_TransactionAcceptanceData : list TransactionAcceptanceData
}.

Definition AcceptanceData : Type := list BlockAcceptanceData.

Class MultisetWriter : Type := {
  multiset : Type;
  ms_Add : bytes -> multiset -> multiset;
  ms_Remove : bytes -> multiset -> multiset
}.

Class MultisetLaws (W : MultisetWriter) : Prop := {
  ms_Add_Add : forall x y m, ms_Add x (ms_Add y m) = ms_Add y (ms_Add x m);
  ms_Remove_Add : forall x m, ms_Remove x (ms_Add x m) = m;
  ms_Add_Remove : forall x m, ms_Add x (ms_Remove x m) = m
}.

Inductive acceptanceError : Type :=
| ErrSerializeUTXO (e : serError)
| ErrDiff (e : diffError)
| ErrUTXOLookup
| ErrAcceptedOutputIndex (i : Z).

(** ** Replay *)

Definition AcceptedUTXOBlockDAAScore (mergingBlockDAAScore : Z) : Z := mergingBlockDAAScore.

(** [positionInBlock] only decides whether a warning is logged. *)
Definition IsAcceptedCoinbase (transaction : DomainTransaction) (positionInBlock : Z) : bool :=
  IsCoinBase transaction.

Section Replay.
Context `{Crypto} {MR : MapRange} {W : MultisetWriter}.

(** The accepted transactions of one block, with their position in the block. *)
Fixpoint forEachAcceptedInBlock {S E} (apply : DomainTransaction -> bool -> M S E unit) (i : Z)
    (l : list TransactionAcceptanceData) : M S E unit :=
  match l with
  | [] => ret tt
  | tad :: l =>
      (if negb (IsAccepted tad) then ret tt
       else apply (tad_Transaction tad) (IsAcceptedCoinbase (tad_Transaction tad) i)) ;;;
      forEachAcceptedInBlock apply (i + 1) l
  end.

Fixpoint forEachAcceptedTransaction {S E} (acceptanceData : AcceptanceData)
    (apply : DomainTransaction -> bool -> M S E unit) : M S E unit :=
  match acceptanceData with
  | [] => ret tt
  | bad :: acceptanceData =>
      forEachAcceptedInBlock apply 0 (bad_TransactionAcceptanceData bad) ;;;
      forEachAcceptedTransaction acceptanceData apply
  end.

(** The errors of a computation, wrapped. *)
Definition mapErr {S E F A} (f : E -> F) (m : M S E A) : M S F A := fun s =>
  match m s with
  | (Ret a, s') => (Ret a, s')
  | (Err e, s') => (Err (f e), s')
  | (Panic, s') => (Panic, s')
  end.

Definition ApplyAcceptanceDataToDiff (acceptanceData : AcceptanceData) (mergingBlockDAAScore : Z)
  : M mutableUTXODiff acceptanceError unit :=
  forEachAcceptedTransaction acceptanceData (fun transaction _ =>
    mapErr ErrDiff (AddOutputsSpendingResolvedInputs transaction
                      (AcceptedUTXOBlockDAAScore mergingBlockDAAScore))).

(** The multiset, and the outpoints [addedHere] has. *)
Record replayState : Type := MkReplay {
  rs_ms : multiset;
  addedHere : gset DomainOutpoint
}.

Definition replayM (A : Type) : Type := M replayState acceptanceError A.

Definition onMs (f : multiset -> multiset) : replayM unit :=
  modify (fun s => MkReplay (f (rs_ms s)) (addedHere s)).
Definition markAdded (outpoint : DomainOutpoint) : replayM unit :=
  modify (fun s => MkReplay (rs_ms s) ({[ outpoint ]} ∪ addedHere s)).

(** [addUTXO] and [removeUTXO], swapped when [reverse] is set. *)
Definition changeUTXO (f : bytes -> multiset -> multiset) (entry : UTXOEntry)
    (outpoint : DomainOutpoint) : replayM unit :=
  match SerializeUTXO entry outpoint with
  | Ret serializedUTXO => onMs (f serializedUTXO)
  | Err e => throw (ErrSerializeUTXO e)
  | Panic => panic
  end.
Definition addUTXO (reverse : bool) : UTXOEntry -> DomainOutpoint -> replayM unit :=
  changeUTXO (if reverse then ms_Remove else ms_Add).
Definition removeUTXO (reverse : bool) : UTXOEntry -> DomainOutpoint -> replayM unit :=
  changeUTXO (if reverse then ms_Add else ms_Remove).

Definition skipFunc : Type := DomainOutpoint -> UTXOEntry -> replayM (bool * option UTXOEntry).

Fixpoint applyInputs (reverse : bool) (inputs : list DomainTransactionInput) : replayM unit :=
  match inputs with
  | [] => ret tt
  | input :: inputs =>
      match in_UTXOEntry input with
      | None => applyInputs reverse inputs
      | Some entry =>
          removeUTXO reverse entry (PreviousOutpoint input) ;;;
          applyInputs reverse inputs
      end
  end.

Fixpoint applyOutputs (transactionID : bytes) (isCoinbase : bool) (mergingBlockDAAScore : Z)
    (reverse : bool) (skipDuplicate : option skipFunc) (i : Z)
    (outputs : list DomainTransactionOutput) : replayM unit :=
  match outputs with
  | [] => ret tt
  | output :: outputs =>
      if (i <? 0) || (MaxUint32 <? i) then throw (ErrAcceptedOutputIndex i)
      else
        let outpoint := MkOutpoint transactionID (u32 i) in
        let entry := NewUTXOEntry (Value output) (out_ScriptPublicKey output) isCoinbase
                       (AcceptedUTXOBlockDAAScore mergingBlockDAAScore) in
        skip <- (match skipDuplicate with
                 | None => ret false
                 | Some skipDuplicate =>
                     r <- skipDuplicate outpoint entry ;;
                     (match r.2 with
                      | Some removePrior => removeUTXO reverse removePrior outpoint
                      | None => ret tt
                      end) ;;;
                     ret r.1
                 end) ;;
        (if skip : bool then ret tt else addUTXO reverse entry outpoint) ;;;
        applyOutputs transactionID isCoinbase mergingBlockDAAScore reverse skipDuplicate (i + 1) outputs
  end.

Definition applyTransactionToMultiset (transaction : DomainTransaction) (mergingBlockDAAScore : Z)
    (isCoinbase reverse : bool) (skipDuplicate : option skipFunc) : replayM unit :=
  transactionID <- lift (consensushashing_TransactionID transaction).1 ;;
  applyInputs reverse (Inputs transaction) ;;;
  applyOutputs transactionID isCoinbase mergingBlockDAAScore reverse skipDuplicate 0
    (Outputs transaction).

(** A lookup in virtual's UTXO set, which may fail. *)
Definition baseLookup : Type := DomainOutpoint -> outcome acceptanceError (option UTXOEntry).

Definition resolveExisting (selectedParentPastUTXO : option mutableUTXODiff)
    (baseUTXO : option baseLookup) (outpoint : DomainOutpoint)
  : outcome acceptanceError (option UTXOEntry) :=
  let base := match baseUTXO with None => Ret None | Some baseUTXO => baseUTXO outpoint end in
  match selectedParentPastUTXO with
  | None => base
  | Some past =>
      if Contains (toRemove past) outpoint then Ret None
      else match toAdd past !! outpoint with
           | Some entry => Ret (Some entry)
           | None => base
           end
  end.

Definition skipDuplicate (selectedParentPastUTXO : option mutableUTXODiff)
    (baseUTXO : option baseLookup) : skipFunc := fun outpoint newEntry =>
  s <- get ;;
  if bool_decide (outpoint ∈ addedHere s) then ret (true, None)
  else
    existing <- lift (resolveExisting selectedParentPastUTXO baseUTXO outpoint) ;;
    match existing with
    | None => markAdded outpoint ;;; ret (false, None)
    | Some existing =>
        if negb (amount existing =? amount newEntry)
           || negb (Bool.eqb (isCoinbase existing) (isCoinbase newEntry))
           || negb (ScriptPublicKey_Equal (scriptPublicKey existing) (scriptPublicKey newEntry))
        then markAdded outpoint ;;; ret (false, None)
        else
          markAdded outpoint ;;;
          (if blockDAAScore existing =? blockDAAScore newEntry then ret (true, None)
           else ret (false, Some existing))
    end.

Definition ApplyAcceptanceDataToMultiset (acceptanceData : AcceptanceData)
    (mergingBlockDAAScore : Z) (selectedParentPastUTXO : option mutableUTXODiff)
    (baseUTXO : option baseLookup) (ms : multiset) : outcome acceptanceError unit * multiset :=
  let '(o, s) := forEachAcceptedTransaction acceptanceData (fun transaction isCoinbase =>
      applyTransactionToMultiset transaction mergingBlockDAAScore isCoinbase false
        (Some (skipDuplicate selectedParentPastUTXO baseUTXO))) (MkReplay ms ∅) in
  (o, rs_ms s).

(** The accepted transactions of a block from the last to the first. *)
Fixpoint removeAcceptedInBlock (mergingBlockDAAScore : Z) (i : Z)
    (l : list TransactionAcceptanceData) : replayM unit :=
  match l with
  | [] => ret tt
  | tad :: l =>
      removeAcceptedInBlock mergingBlockDAAScore (i + 1) l ;;;
      (if negb (IsAccepted tad) then ret tt
       else applyTransactionToMultiset (tad_Transaction tad) mergingBlockDAAScore
              (IsAcceptedCoinbase (tad_Transaction tad) i) true None)
  end.

Fixpoint removeAccepted (mergingBlockDAAScore : Z) (acceptanceData : AcceptanceData) : replayM unit :=
  match acceptanceData with
  | [] => ret tt
  | bad :: acceptanceData =>
      removeAccepted mergingBlockDAAScore acceptanceData ;;;
      removeAcceptedInBlock mergingBlockDAAScore 0 (bad_TransactionAcceptanceData bad)
  end.

Definition RemoveAcceptanceDataFromMultiset (acceptanceData : AcceptanceData)
    (mergingBlockDAAScore : Z) (ms : multiset) : outcome acceptanceError unit * multiset :=
  let '(o, s) := removeAccepted mergingBlockDAAScore acceptanceData (MkReplay ms ∅) in
  (o, rs_ms s).
End Replay.

(** ** Commitments to UTXO sets *)

Definition encUTXO (o : DomainOutpoint) (e : UTXOEntry) : bytes := encOutpoint o ++ encEntry e.

Section Laws.
Context `{Crypto} {MR : MapRange} {W : MultisetWriter} {L : MultisetLaws W}.

Lemma ms_Remove_comm x y m : ms_Remove x (ms_Add y m) = ms_Add y (ms_Remove x m).
Proof.
  rewrite <- (ms_Add_Remove x m) at 1. rewrite (ms_Add_Add y x). apply ms_Remove_Add.
Qed.

Lemma ms_Remove_Remove x y m : ms_Remove x (ms_Remove y m) = ms_Remove y (ms_Remove x m).
Proof.
  rewrite <- (ms_Remove_Add y (ms_Remove x (ms_Remove y m))), <- ms_Remove_comm, ms_Add_Remove.
  done.
Qed.

(** The multiset of the coins of a UTXO set, on top of [m]. *)
Definition commitment (T : utxoCollection) (m : multiset) : multiset :=
  map_fold (fun o e m => ms_Add (encUTXO o e) m) m T.

Lemma commitment_insert T o e m :
  T !! o = None -> commitment (<[o := e]> T) m = ms_Add (encUTXO o e) (commitment T m).
Proof.
  intros Ho. unfold commitment. apply (map_fold_insert_L (fun o e m => ms_Add (encUTXO o e) m)); [|done].
  intros j1 j2 z1 z2 y _ _ _. apply ms_Add_Add.
Qed.

Lemma commitment_delete T o e m :
  T !! o = Some e -> commitment (delete o T) m = ms_Remove (encUTXO o e) (commitment T m).
Proof.
  intros Ho. rewrite <- (insert_delete_id T o e Ho) at 2.
  rewrite commitment_insert by apply lookup_delete_eq. by rewrite ms_Remove_Add.
Qed.

(** Replacing a coin. *)
Lemma commitment_replace T o e e' m :
  T !! o = Some e ->
  commitment (<[o := e']> T) m = ms_Add (encUTXO o e') (ms_Remove (encUTXO o e) (commitment T m)).
Proof.
  intros Ho. rewrite <- insert_delete_eq, commitment_insert by apply lookup_delete_eq.
  by rewrite (commitment_delete T o e).
Qed.

(** ** Replays as sequences of transactions *)

Definition acceptedTransactions (acceptanceData : AcceptanceData) : list DomainTransaction :=
  concat (map (fun bad => map tad_Transaction
    (List.filter IsAccepted (bad_TransactionAcceptanceData bad))) acceptanceData).

Fixpoint sequence {S E A} (f : A -> M S E unit) (l : list A) : M S E unit :=
  match l with
  | [] => ret tt
  | x :: l => f x ;;; sequence f l
  end.

Lemma sequence_app {S E A} (f : A -> M S E unit) l l' s :
  sequence f (l ++ l') s = (sequence f l ;;; sequence f l') s.
Proof.
  revert s. induction l as [|x l IH]; intros s; [done|]. cbn [app sequence]. unfold bind in *.
  destruct (f x s) as [[[]| |] s']; [apply IH|done..].
Qed.

Lemma forEachAcceptedTransaction_sequence {S E} (acceptanceData : AcceptanceData)
    (f : DomainTransaction -> bool -> M S E unit) s :
  forEachAcceptedTransaction acceptanceData f s
  = sequence (fun tx => f tx (IsCoinBase tx)) (acceptedTransactions acceptanceData) s.
Proof.
  assert (Hb : forall l i s, forEachAcceptedInBlock f i l s
    = sequence (fun tx => f tx (IsCoinBase tx)) (map tad_Transaction (List.filter IsAccepted l)) s).
  { induction l as [|tad l IH]; intros i s'; [done|]. cbn [forEachAcceptedInBlock List.filter].
    destruct (IsAccepted tad); cbn [negb map sequence]; unfold bind in *.
    - unfold IsAcceptedCoinbase. destruct (f _ _ s') as [[[]| |] s'']; [apply IH|done..].
    - apply IH. }
  unfold acceptedTransactions. revert s. induction acceptanceData as [|bad l IH]; intros s; [done|].
  cbn [forEachAcceptedTransaction map concat]. rewrite sequence_app. unfold bind. rewrite Hb.
  destruct (sequence _ _ s) as [[[]| |] s']; [apply IH|done..].
Qed.

(** The ledger after the transactions. *)
Definition replayed (daaScore : Z) (txs : list DomainTransaction) (T : utxoCollection)
  : utxoCollection :=
  foldl (fun T tx => ledgerStep tx daaScore true T) T txs.

(** Every transaction spends coins of the ledger and creates new ones. *)
Fixpoint replays_fresh (S : utxoCollection) (daaScore : Z) (txs : list DomainTransaction)
    (T : utxoCollection) : Prop :=
  match txs with
  | [] => True
  | tx :: txs =>
      spendable T (spentInputs true (Inputs tx)) /\ len (Outputs tx) <= 2 ^ 32 /\
      (forall i, 0 <= i ->
         spendAll (spentInputs true (Inputs tx)) T !! MkOutpoint (txID tx) i = None) /\
      coherent S (ledgerStep tx daaScore true T) /\
      replays_fresh S daaScore txs (ledgerStep tx daaScore true T)
  end.


(** ** The multiset follows the ledger *)

Definition wf_set (T : utxoCollection) : Prop := map_Forall (fun _ e => wf_entry e) T.

(** Outputs whose entries can be serialized. *)
Definition storable (out : DomainTransactionOutput) : Prop :=
  is_u64 (Value out) /\ is_u16 (spk_Version (out_ScriptPublicKey out)) /\
  len (spk_Script (out_ScriptPublicKey out)) <= maxAlloc.

Definition createdEntry (cb : bool) (daaScore : Z) (out : DomainTransactionOutput) : UTXOEntry :=
  NewUTXOEntry (Value out) (out_ScriptPublicKey out) cb daaScore.

(** Outputs that are new, or already in the set: created by an earlier transaction
    of this replay and not spent since, or the same coin as one that was in the set
    [T0] before and has not been spent. *)
Fixpoint creatable (T0 : utxoCollection) (id : bytes) (cb : bool) (daaScore i : Z)
    (outputs : list DomainTransactionOutput) (T : utxoCollection) (added : gset DomainOutpoint) : Prop :=
  match outputs with
  | [] => True
  | out :: outputs =>
      let o := MkOutpoint id i in
      let e := createdEntry cb daaScore out in
      (if decide (o ∈ added) then T !! o = Some e
       else T !! o = T0 !! o /\ (forall x, T0 !! o = Some x -> sameCoin x e = true)) /\
      creatable T0 id cb daaScore (i + 1) outputs (<[o := e]> T) ({[ o ]} ∪ added)
  end.

(** The outpoints of outputs. *)
Fixpoint outpointsFrom (id : bytes) (i : Z) (outputs : list DomainTransactionOutput)
    (added : gset DomainOutpoint) : gset DomainOutpoint :=
  match outputs with
  | [] => added
  | _ :: outputs => outpointsFrom id (i + 1) outputs ({[ MkOutpoint id i ]} ∪ added)
  end.

Fixpoint replays (T0 : utxoCollection) (daaScore : Z) (txs : list DomainTransaction)
    (T : utxoCollection) (added : gset DomainOutpoint) : Prop :=
  match txs with
  | [] => True
  | tx :: txs =>
      spendable T (spentInputs true (Inputs tx)) /\ len (Outputs tx) <= 2 ^ 32 /\
      Forall storable (Outputs tx) /\
      creatable T0 (txID tx) (IsCoinBase tx) daaScore 0 (Outputs tx)
        (spendAll (spentInputs true (Inputs tx)) T) added /\
      replays T0 daaScore txs (ledgerStep tx daaScore true T)
        (outpointsFrom (txID tx) 0 (Outputs tx) added)
  end.

Lemma wf_createdEntry cb daaScore out : is_u64 daaScore -> storable out -> wf_entry (createdEntry cb daaScore out).
Proof. intros Hs (Hv & Hk & Hl). by split_and!. Qed.

Lemma changeUTXO_run f e o s :
  wf_entry e -> changeUTXO f e o s = (Ret tt, MkReplay (f (encUTXO o e) (rs_ms s)) (addedHere s)).
Proof. intros He. unfold changeUTXO. by rewrite SerializeUTXO_bytes. Qed.

Lemma wf_set_insert T o e : wf_set T -> wf_entry e -> wf_set (<[o := e]> T).
Proof. intros HT He. by apply map_Forall_insert_2. Qed.

Lemma wf_set_delete T o : wf_set T -> wf_set (delete o T).
Proof. intros HT. by apply map_Forall_delete. Qed.

Lemma applyInputs_commits T inputs m added :
  wf_set T -> spendable T (spentInputs true inputs) ->
  applyInputs false inputs (MkReplay (commitment T m) added)
  = (Ret tt, MkReplay (commitment (spendAll (spentInputs true inputs) T) m) added) /\
  wf_set (spendAll (spentInputs true inputs) T).
Proof.
  revert T. induction inputs as [|i inputs IH]; intros T HT Hsp; [done|].
  unfold spentInputs in *. cbn [applyInputs List.filter andb] in *.
  destruct (in_UTXOEntry i) as [e|] eqn:He; cbn in Hsp |- *; [|by apply IH].
  destruct Hsp as (_ & Hi & Hsp). rewrite He in Hi.
  erewrite bind_Ret by (apply changeUTXO_run; by apply (HT (PreviousOutpoint i))). cbn [rs_ms addedHere].
  rewrite <- (commitment_delete T (PreviousOutpoint i) e) by done.
  apply IH; [by apply wf_set_delete|done].
Qed.

Section Known.
Context (T0 : utxoCollection) (past : option mutableUTXODiff) (base : option baseLookup).
Hypothesis resolves : forall o, resolveExisting past base o = Ret (T0 !! o).

(** The part of an iteration that decides about an output and adds it. *)
Lemma output_commits T m added o e :
  wf_set T -> wf_entry e ->
  (if decide (o ∈ added) then T !! o = Some e
   else T !! o = T0 !! o /\ (forall x, T0 !! o = Some x -> sameCoin x e = true)) ->
  forall k : replayM unit, (skip <- (r <- skipDuplicate past base o e ;;
             (match r.2 with
              | Some removePrior => removeUTXO false removePrior o
              | None => ret tt
              end) ;;;
             ret r.1) ;;
   (if skip : bool then ret tt else addUTXO false e o) ;;; k)
    (MkReplay (commitment T m) added)
  = k (MkReplay (commitment (<[o := e]> T) m) ({[ o ]} ∪ added)).
Proof.
  intros HT He Hcond k. unfold skipDuplicate, bind, get, lift, markAdded, modify, ret, removeUTXO, addUTXO.
  cbn [addedHere rs_ms]. destruct (decide (o ∈ added)) as [Ho|Ho].
  - rewrite bool_decide_eq_true_2 by done. cbn. rewrite insert_id by done.
    by replace ({[ o ]} ∪ added) with added by set_solver.
  - rewrite bool_decide_eq_false_2 by done. destruct Hcond as [HT0 Hsame]. rewrite resolves.
    destruct (T0 !! o) as [x|] eqn:Hx.
    + specialize (Hsame x eq_refl). pose proof Hsame as Hs'. unfold sameCoin in Hs'.
      apply andb_true_iff in Hs' as [[H1 H2]%andb_true_iff H3]. rewrite H1, H2, H3. cbn [negb orb].
      destruct (Z.eqb_spec (blockDAAScore x) (blockDAAScore e)) as [Hd|Hd]; cbn.
      * assert (x = e) as -> by (by apply sameCoin_eq). by rewrite insert_id.
      * rewrite changeUTXO_run by (by apply (HT o)). cbn. rewrite changeUTXO_run by done. cbn.
        by rewrite <- commitment_replace.
    + cbn. rewrite changeUTXO_run by done. cbn. by rewrite <- commitment_insert.
Qed.

Lemma applyOutputs_commits id cb daaScore i outputs T m added :
  wf_set T -> is_u64 daaScore -> Forall storable outputs -> 0 <= i -> i + len outputs <= 2 ^ 32 ->
  creatable T0 id cb daaScore i outputs T added ->
  applyOutputs id cb daaScore false (Some (skipDuplicate past base)) i outputs
    (MkReplay (commitment T m) added)
  = (Ret tt, MkReplay (commitment (createAll id cb daaScore i outputs T) m)
       (outpointsFrom id i outputs added)) /\
  wf_set (createAll id cb daaScore i outputs T).
Proof.
  intros HT Hs. revert i T added HT. induction outputs as [|out outputs IH];
    intros i T added HT Hst Hi Hlen Hc; [done|].
  rewrite len_cons in Hlen. pose proof (len_nonneg outputs).
  apply Forall_cons_1 in Hst as [Hout Hst]. destruct Hc as [Hcond Hc].
  cbn [applyOutputs createAll outpointsFrom].
  rewrite (proj2 (Z.ltb_ge i 0)), (proj2 (Z.ltb_ge MaxUint32 i)) by (unfold MaxUint32; lia). cbn [orb].
  replace (u32 i) with i by (unfold u32; symmetry; apply Z.mod_small; lia).
  rewrite (output_commits T m added (MkOutpoint id i) (createdEntry cb daaScore out));
    [|done|by apply wf_createdEntry|done].
  apply IH; [|done|lia|lia|done]. apply wf_set_insert; [done|by apply wf_createdEntry].
Qed.

Lemma transactions_commit daaScore txs T m added :
  wf_set T -> is_u64 daaScore -> replays T0 daaScore txs T added ->
  exists added', sequence (fun tx => applyTransactionToMultiset tx daaScore (IsCoinBase tx) false
      (Some (skipDuplicate past base))) txs (MkReplay (commitment T m) added)
    = (Ret tt, MkReplay (commitment (replayed daaScore txs T) m) added').
Proof.
  intros HT Hs. revert T added HT. induction txs as [|tx txs IH]; intros T added HT Hr.
  { by exists added. }
  destruct Hr as (Hsp & Hlen & Hst & Hc & Hr). cbn [sequence replayed foldl].
  destruct (applyInputs_commits T (Inputs tx) m added HT Hsp) as [Hin HT1].
  destruct (applyOutputs_commits (txID tx) (IsCoinBase tx) daaScore 0 (Outputs tx) _ m added HT1 Hs Hst)
    as [Hout HT2]; [done|lia|done|].
  erewrite bind_Ret; [by apply IH|]. unfold applyTransactionToMultiset.
  erewrite bind_Ret by (unfold lift; by rewrite TransactionID_run).
  erewrite bind_Ret by exact Hin. exact Hout.
Qed.
End Known.

(** Looking up a coin through the diff from virtual. *)
Lemma resolveExisting_applied (past : mutableUTXODiff) (Base : utxoCollection) o :
  toRemove past !! o = None \/ toAdd past !! o = None ->
  resolveExisting (Some past) (Some (fun o => Ret (Base !! o))) o = Ret (applied past Base !! o).
Proof.
  intros Hex. unfold resolveExisting, applied, Contains. rewrite lookup_union, lookup_difference.
  destruct (toRemove past !! o) as [r|], (toAdd past !! o) as [a|]; destruct Hex; try done; cbn;
    by destruct (Base !! o).
Qed.


(** ** Undoing a replay *)

(** The changes of a transaction to the multiset: an addition or a removal of the
    bytes of a coin. *)
Definition msChange : Type := bool * bytes.
Definition runChange (c : msChange) (m : multiset) : multiset :=
  if c.1 then ms_Add c.2 m else ms_Remove c.2 m.
Definition undoChange (c : msChange) : msChange := (negb c.1, c.2).
Fixpoint runChanges (cs : list msChange) (m : multiset) : multiset :=
  match cs with [] => m | c :: cs => runChange c (runChanges cs m) end.

Lemma runChange_comm c c' m : runChange c (runChange c' m) = runChange c' (runChange c m).
Proof.
  destruct c as [[] x], c' as [[] y]; cbn; auto using ms_Add_Add, ms_Remove_comm, ms_Remove_Remove.
Qed.

Lemma runChange_undo c m : runChange (undoChange c) (runChange c m) = m.
Proof. destruct c as [[] x]; cbn; auto using ms_Remove_Add, ms_Add_Remove. Qed.

Lemma runChanges_perm cs cs' m : cs ≡ₚ cs' -> runChanges cs m = runChanges cs' m.
Proof.
  intros Hp. induction Hp as [|c cs cs' _ IH|c c' cs|cs1 cs2 cs3 _ IH1 _ IH2]; cbn;
    [done|by rewrite IH|apply runChange_comm|congruence].
Qed.

Lemma runChanges_comm c cs m : runChanges cs (runChange c m) = runChange c (runChanges cs m).
Proof. induction cs as [|c' cs IH]; [done|]. cbn. by rewrite IH, runChange_comm. Qed.

Lemma runChanges_undo cs m : runChanges (map undoChange cs) (runChanges cs m) = m.
Proof.
  induction cs as [|c cs IH]; [done|]. cbn. by rewrite runChanges_comm, runChange_undo.
Qed.

Definition inputChanges (inputs : list DomainTransactionInput) : list msChange :=
  omap (fun i => e ← in_UTXOEntry i; Some (false, encUTXO (PreviousOutpoint i) e)) inputs.

Fixpoint outputChanges (id : bytes) (cb : bool) (daaScore i : Z)
    (outputs : list DomainTransactionOutput) : list msChange :=
  match outputs with
  | [] => []
  | out :: outputs => (true, encUTXO (MkOutpoint id i) (createdEntry cb daaScore out))
                      :: outputChanges id cb daaScore (i + 1) outputs
  end.

Definition txChanges (daaScore : Z) (tx : DomainTransaction) : list msChange :=
  inputChanges (Inputs tx) ++ outputChanges (txID tx) (IsCoinBase tx) daaScore 0 (Outputs tx).

(** A transaction whose coins can be serialized. *)
Definition storableTx (tx : DomainTransaction) : Prop :=
  Forall (fun i => forall e, in_UTXOEntry i = Some e -> wf_entry e) (Inputs tx) /\
  Forall storable (Outputs tx) /\ len (Outputs tx) <= 2 ^ 32.

(** The changes, all undone when [reverse] is set. *)
Definition directed (reverse : bool) (cs : list msChange) : list msChange :=
  if reverse then map undoChange cs else cs.

Lemma applyInputs_changes reverse inputs s :
  Forall (fun i => forall e, in_UTXOEntry i = Some e -> wf_entry e) inputs ->
  applyInputs reverse inputs s
  = (Ret tt, MkReplay (runChanges (directed reverse (inputChanges inputs)) (rs_ms s)) (addedHere s)).
Proof.
  revert s. induction inputs as [|i inputs IH]; intros s Hwf; [by destruct reverse, s|].
  apply Forall_cons_1 in Hwf as [Hi Hwf]. cbn [applyInputs inputChanges omap list_omap].
  destruct (in_UTXOEntry i) as [e|]; cbn; [|by apply IH].
  erewrite bind_Ret by (apply changeUTXO_run; auto). rewrite IH by done. cbn.
  do 2 f_equal. destruct reverse; [apply (runChanges_comm (true, _))|apply (runChanges_comm (false, _))].
Qed.

(** Every output is new to the set and to the replay. *)
Fixpoint newOutputs (resolve : baseLookup) (id : bytes) (i : Z)
    (outputs : list DomainTransactionOutput) (added : gset DomainOutpoint) : Prop :=
  match outputs with
  | [] => True
  | _ :: outputs =>
      (MkOutpoint id i ∉ added) /\ resolve (MkOutpoint id i) = Ret None /\
      newOutputs resolve id (i + 1) outputs ({[ MkOutpoint id i ]} ∪ added)
  end.

Fixpoint allNew (resolve : baseLookup) (txs : list DomainTransaction) (added : gset DomainOutpoint)
  : Prop :=
  match txs with
  | [] => True
  | tx :: txs => newOutputs resolve (txID tx) 0 (Outputs tx) added /\
                 allNew resolve txs (outpointsFrom (txID tx) 0 (Outputs tx) added)
  end.

Lemma applyOutputs_reverse id cb daaScore i outputs s :
  is_u64 daaScore -> Forall storable outputs -> 0 <= i -> i + len outputs <= 2 ^ 32 ->
  applyOutputs id cb daaScore true None i outputs s
  = (Ret tt, MkReplay (runChanges (directed true (outputChanges id cb daaScore i outputs)) (rs_ms s))
       (addedHere s)).
Proof.
  intros Hs. revert i s. induction outputs as [|out outputs IH]; intros i s Hst Hi Hlen; [by destruct s|].
  rewrite len_cons in Hlen. pose proof (len_nonneg outputs).
  apply Forall_cons_1 in Hst as [Hout Hst]. cbn [applyOutputs].
  rewrite (proj2 (Z.ltb_ge i 0)), (proj2 (Z.ltb_ge MaxUint32 i)) by (unfold MaxUint32; lia). cbn [orb].
  replace (u32 i) with i by (unfold u32; symmetry; apply Z.mod_small; lia).
  erewrite bind_Ret by done. cbv iota.
  erewrite bind_Ret by (apply changeUTXO_run; by apply wf_createdEntry).
  rewrite IH by (done || lia). cbn. do 2 f_equal. apply (runChanges_comm (false, _)).
Qed.

Lemma applyOutputs_new past base id cb daaScore i outputs m added :
  is_u64 daaScore -> Forall storable outputs -> 0 <= i -> i + len outputs <= 2 ^ 32 ->
  newOutputs (resolveExisting past base) id i outputs added ->
  applyOutputs id cb daaScore false (Some (skipDuplicate past base)) i outputs (MkReplay m added)
  = (Ret tt, MkReplay (runChanges (outputChanges id cb daaScore i outputs) m)
       (outpointsFrom id i outputs added)).
Proof.
  intros Hs. revert i m added. induction outputs as [|out outputs IH]; intros i m added Hst Hi Hlen Hn; [done|].
  rewrite len_cons in Hlen. pose proof (len_nonneg outputs).
  apply Forall_cons_1 in Hst as [Hout Hst]. destruct Hn as (Hna & Hres & Hn).
  cbn [applyOutputs outputChanges outpointsFrom].
  rewrite (proj2 (Z.ltb_ge i 0)), (proj2 (Z.ltb_ge MaxUint32 i)) by (unfold MaxUint32; lia). cbn [orb].
  replace (u32 i) with i by (unfold u32; symmetry; apply Z.mod_small; lia).
  erewrite (bind_Ret _ _ _ _ false).
  2: { unfold skipDuplicate, bind, get, lift, markAdded, modify, ret. cbn [addedHere].
       rewrite bool_decide_eq_false_2 by done. by rewrite Hres. }
  cbv iota. erewrite bind_Ret by (apply changeUTXO_run; by apply wf_createdEntry).
  cbn [rs_ms addedHere]. rewrite IH by (done || lia). do 2 f_equal. apply (runChanges_comm (true, _)).
Qed.

Lemma removeAccepted_sequence daaScore acceptanceData s :
  removeAccepted daaScore acceptanceData s
  = sequence (fun tx => applyTransactionToMultiset tx daaScore (IsCoinBase tx) true None)
      (rev (acceptedTransactions acceptanceData)) s.
Proof.
  set (f := fun tx => applyTransactionToMultiset tx daaScore (IsCoinBase tx) true None).
  assert (Hone : forall tx s, sequence f [tx] s = f tx s).
  { intros tx s'. cbn [sequence]. unfold bind, ret. by destruct (f tx s') as [[[]| |] s'']. }
  assert (Hb : forall l i s, removeAcceptedInBlock daaScore i l s
    = sequence f (rev (map tad_Transaction (List.filter IsAccepted l))) s).
  { induction l as [|tad l IH]; intros i s'; [done|]. cbn [removeAcceptedInBlock List.filter].
    unfold bind at 1. rewrite IH. destruct (IsAccepted tad); cbn [negb map rev].
    - rewrite sequence_app. unfold bind. destruct (sequence f _ s') as [[[]| |] s'']; [|done..].
      by rewrite Hone.
    - by destruct (sequence f _ s') as [[[]| |] s'']. }
  unfold acceptedTransactions. revert s. induction acceptanceData as [|bad l IH]; intros s; [done|].
  cbn [removeAccepted map concat]. rewrite rev_app_distr, sequence_app. unfold bind.
  rewrite IH. destruct (sequence f _ s) as [[[]| |] s']; [apply Hb|done..].
Qed.

Lemma runChanges_app cs cs' m : runChanges (cs ++ cs') m = runChanges cs (runChanges cs' m).
Proof. induction cs as [|c cs IH]; [done|]. cbn. by rewrite IH. Qed.

Lemma runChanges_swap cs cs' m : runChanges cs (runChanges cs' m) = runChanges cs' (runChanges cs m).
Proof. rewrite <- !runChanges_app. apply runChanges_perm, Permutation_app_comm. Qed.

Lemma applyTransaction_reverse daaScore tx s :
  is_u64 daaScore -> storableTx tx ->
  applyTransactionToMultiset tx daaScore (IsCoinBase tx) true None s
  = (Ret tt, MkReplay (runChanges (map undoChange (txChanges daaScore tx)) (rs_ms s)) (addedHere s)).
Proof.
  intros Hs (Hin & Hout & Hlen). unfold applyTransactionToMultiset, txChanges.
  erewrite bind_Ret by (unfold lift; by rewrite TransactionID_run).
  erewrite bind_Ret by (by apply applyInputs_changes).
  rewrite applyOutputs_reverse by (done || lia). cbn [rs_ms addedHere].
  do 2 f_equal. rewrite map_app, runChanges_app. apply runChanges_swap.
Qed.

Lemma applyTransaction_new past base daaScore tx m added :
  is_u64 daaScore -> storableTx tx ->
  newOutputs (resolveExisting past base) (txID tx) 0 (Outputs tx) added ->
  applyTransactionToMultiset tx daaScore (IsCoinBase tx) false (Some (skipDuplicate past base))
    (MkReplay m added)
  = (Ret tt, MkReplay (runChanges (txChanges daaScore tx) m) (outpointsFrom (txID tx) 0 (Outputs tx) added)).
Proof.
  intros Hs (Hin & Hout & Hlen) Hn. unfold applyTransactionToMultiset, txChanges.
  erewrite bind_Ret by (unfold lift; by rewrite TransactionID_run).
  erewrite bind_Ret by (by apply applyInputs_changes). cbn [rs_ms addedHere].
  rewrite applyOutputs_new by (done || lia).
  do 2 f_equal. rewrite runChanges_app. apply runChanges_swap.
Qed.

(** C9. Undoing a replay restores the multiset.  If the coins of the accepted
    transactions can be serialized and every output is new, that is, neither in
    the set before the replay nor created twice in it, then
    [RemoveAcceptanceDataFromMultiset] takes back exactly what
    [ApplyAcceptanceDataToMultiset] did. *)
Theorem acceptance_data_undone (acceptanceData : AcceptanceData) (mergingBlockDAAScore : Z)
    (past : option mutableUTXODiff) (base : option baseLookup) (m : multiset) :
  is_u64 mergingBlockDAAScore ->
  Forall storableTx (acceptedTransactions acceptanceData) ->
  allNew (resolveExisting past base) (acceptedTransactions acceptanceData) ∅ ->
  exists m', ApplyAcceptanceDataToMultiset acceptanceData mergingBlockDAAScore past base m = (Ret tt, m') /\
    RemoveAcceptanceDataFromMultiset acceptanceData mergingBlockDAAScore m' = (Ret tt, m).
Proof.
  intros Hs. unfold ApplyAcceptanceDataToMultiset, RemoveAcceptanceDataFromMultiset.
  rewrite forEachAcceptedTransaction_sequence. setoid_rewrite removeAccepted_sequence.
  revert m. generalize (∅ : gset DomainOutpoint) at 1 2.
  induction (acceptedTransactions acceptanceData) as [|tx txs IH]; intros added m Hst Hnew.
  { by exists m. }
  apply Forall_cons_1 in Hst as [Htx Hst]. destruct Hnew as [Hn Hnew]. cbn [sequence rev].
  rewrite (bind_Ret _ _ _ _ _ (applyTransaction_new past base _ tx m added Hs Htx Hn)).
  destruct (IH _ (runChanges (txChanges mergingBlockDAAScore tx) m) Hst Hnew) as (m' & Happly & Hundo).
  exists m'. split; [done|]. rewrite sequence_app. unfold bind.
  destruct (sequence _ (rev txs) _) as [o s]. cbn in Hundo. injection Hundo as -> Hm.
  cbn [sequence]. unfold bind. rewrite applyTransaction_reverse by done. cbn. f_equal.
  rewrite Hm. apply runChanges_undo.
Qed.
End Laws.

(** ** A concrete multiset and replay *)

(** The sum of the elements, each read as a number. *)
Definition sumOf (x : bytes) : Z := foldl (fun n b => n * 256 + bz b) 1 x.

Definition sumMultiset : MultisetWriter :=
  {| multiset := Z; ms_Add x m := m + sumOf x; ms_Remove x m := m - sumOf x |}.

Lemma sumMultisetLaws : MultisetLaws sumMultiset.
Proof. split; cbn; intros; lia. Qed.

(** A transaction that spends the coin of [coinAt 1 5] and creates the coin
    [coinAt 9 _]. *)
Definition moveCoin : DomainTransaction :=
  MkTransaction 0 [MkInput (MkOutpoint [zb 1] 0) [] 0 0
                     (Some (MkUTXOEntry 10 (MkScriptPublicKey [zb 1] 0) 5 false))]
    [MkOutput 10 (MkScriptPublicKey [zb 9] 0)] 0 SubnetworkIDNative 0 [] 0 0 (Some [zb 9]).

(** The same output, created out of nothing. *)
Definition createCoin : DomainTransaction :=
  MkTransaction 0 [] [MkOutput 10 (MkScriptPublicKey [zb 9] 0)] 0 SubnetworkIDNative 0 [] 0 0 (Some [zb 9]).

Definition accepting (txs : list DomainTransaction) : AcceptanceData :=
  [MkBlockAcceptance [zb 0] (map (fun tx => MkTxAcceptance tx 0 true []) txs)].

Lemma moveCoin_spendable : spendable (coinAt 1 5) (spentInputs true (Inputs moveCoin)).
Proof. split_and!; [by eexists|reflexivity|exact I]. Qed.

Lemma moveCoin_storable : Forall storable (Outputs moveCoin).
Proof. repeat constructor; vm_compute; repeat split; congruence. Qed.



Lemma acceptance_data_undone_witness :
  exists m', ApplyAcceptanceDataToMultiset (H:=toyCrypto) (W:=sumMultiset) (accepting [moveCoin]) 7
      None (Some (fun o => Ret (coinAt 1 5 !! o))) 3 = (Ret tt, m') /\
    RemoveAcceptanceDataFromMultiset (H:=toyCrypto) (W:=sumMultiset) (accepting [moveCoin]) 7 m' = (Ret tt, 3).
Proof.
  apply (acceptance_data_undone (H:=toyCrypto) (W:=sumMultiset) (L:=sumMultisetLaws) (accepting [moveCoin]) 7
           None (Some (fun o => Ret (coinAt 1 5 !! o))) 3).
  - vm_compute. split; congruence.
  - constructor; [|constructor]. split_and!; [|apply moveCoin_storable|vm_compute; congruence].
    constructor; [|constructor]. intros e [= <-]. vm_compute; repeat split; congruence.
  - split; [|exact I]. split_and!; [set_solver|reflexivity|exact I].
Defined.

(** ** Where a replay leaves the ledger's commitment *)

(** The coin of [createCoin] with score 5 is restamped to 6 by the past diff, which
    then has it in both collections.  [resolveExisting] looks in the removed ones
    first and reports it as not held, so a replay that restamps it to 7 adds its
    third serialization without removing the second. *)
Theorem restamped_coin_counted_twice :
  let past := MkDiff (coinAt 9 6) (coinAt 9 5) None in
  applied past (coinAt 9 5) = coinAt 9 6 /\
  replayed (H:=toyCrypto) 7 (acceptedTransactions (accepting [createCoin])) (coinAt 9 6) = coinAt 9 7 /\
  resolveExisting (Some past) (Some (fun o => Ret (coinAt 9 5 !! o))) (MkOutpoint [zb 9] 0) = Ret None /\
  exists m, ApplyAcceptanceDataToMultiset (H:=toyCrypto) (W:=sumMultiset) (accepting [createCoin]) 7
      (Some past) (Some (fun o => Ret (coinAt 9 5 !! o))) (commitment (W:=sumMultiset) (coinAt 9 6) 0)
    = (Ret tt, m) /\ m <> commitment (W:=sumMultiset) (coinAt 9 7) 0.
Proof.
  cbv zeta. split_and!; [vm_compute; reflexivity..|].
  eexists. split; [vm_compute; reflexivity|]. vm_compute. discriminate.
Qed.

(** A replay that creates a coin the set already holds leaves it alone; undoing that
    replay removes the coin. *)
Theorem duplicate_output_not_undone :
  let base := Some (fun o => Ret (coinAt 9 7 !! o)) in
  ApplyAcceptanceDataToMultiset (H:=toyCrypto) (W:=sumMultiset) (accepting [createCoin]) 7
    None base (commitment (W:=sumMultiset) (coinAt 9 7) 0)
  = (Ret tt, commitment (W:=sumMultiset) (coinAt 9 7) 0) /\
  RemoveAcceptanceDataFromMultiset (H:=toyCrypto) (W:=sumMultiset) (accepting [createCoin]) 7
    (commitment (W:=sumMultiset) (coinAt 9 7) 0)
  = (Ret tt, 0) /\ commitment (W:=sumMultiset) (coinAt 9 7) 0 <> 0.
Proof. cbv zeta. split_and!; [vm_compute; reflexivity..|]. vm_compute. discriminate. Qed.
