(* ===== verification/UtxoRefs.v ===== *)
(** * References to UTXO diffs

    Who shares a diff with whom: the objects of
    [src/domain/consensus/utils/utxo/mutable_utxo_diff.go],
    [immutable_utxo_diff.go] and [changed_outpoints.go] in a heap.

    A mutable diff holds two Go maps by reference, the immutable diffs handed out for
    it, and, when it records changes, a weak pointer to the diff it was cloned from.
    An immutable diff is a view of a mutable one that is invalidated when the mutable
    one changes.  The operations on the contents are those of [UtxoDiff].

    Left out are [String] and the errors of type assertions: [immutableUTXODiff] is
    the only implementation of the interface [UTXODiff]. *)

From S2P Require Import Prelude ScriptError Transaction Crypto Sha256 Serialization SigHash.
From S2P Require Import UtxoDiff UtxoAlgebra.

(** ** The heap *)

Record mutObj : Type := MkMut {
  o_toAdd : nat;
  o_toRemove : nat;
  immutableReferences : list nat;
  o_changed : option (gset DomainOutpoint);
  changedFrom : option nat
}.

Record immObj : Type := MkImm {
  imm_mutable : nat;
  isInvalidated : bool
}.

(** Go maps, mutable and immutable diffs, by address. *)
Record heap : Type := MkHeap {
  maps : list utxoCollection;
  muts : list mutObj;
  imms : list immObj
}.

Inductive refError : Type :=
| RefDiffError (e : diffError)
| ErrInvalidated.

Definition refM (A : Type) : Type := M heap refError A.

Definition newMap (uc : utxoCollection) : refM nat := fun h =>
  (Ret (length (maps h)), MkHeap (maps h ++ [uc]) (muts h) (imms h)).
Definition newMut (o : mutObj) : refM nat := fun h =>
  (Ret (length (muts h)), MkHeap (maps h) (muts h ++ [o]) (imms h)).
Definition newImm (x : immObj) : refM nat := fun h =>
  (Ret (length (imms h)), MkHeap (maps h) (muts h) (imms h ++ [x])).

(** Dereferencing; a nil pointer panics. *)
Definition deref {A} (o : option A) : refM A := match o with Some a => ret a | None => panic end.
Definition getMut (m : nat) : refM mutObj := h <- get ;; deref (muts h !! m).
Definition getImm (i : nat) : refM immObj := h <- get ;; deref (imms h !! i).
Definition setMut (m : nat) (o : mutObj) : refM unit :=
  modify (fun h => MkHeap (maps h) (<[m := o]> (muts h)) (imms h)).

(** The diff at an address, and writing to its maps. *)
Definition content (h : heap) (m : nat) : option mutableUTXODiff :=
  o ← muts h !! m; a ← maps h !! o_toAdd o; r ← maps h !! o_toRemove o;
  Some (MkDiff a r (o_changed o)).

Definition load (m : nat) : refM mutableUTXODiff := h <- get ;; deref (content h m).

Definition withChanged (o : mutObj) (c : option (gset DomainOutpoint)) : mutObj :=
  MkMut (o_toAdd o) (o_toRemove o) (immutableReferences o) c (changedFrom o).
Definition withReferences (o : mutObj) (l : list nat) : mutObj :=
  MkMut (o_toAdd o) (o_toRemove o) l (o_changed o) (changedFrom o).

Definition save (m : nat) (d : mutableUTXODiff) : refM unit :=
  o <- getMut m ;;
  modify (fun h => MkHeap (<[o_toRemove o := toRemove d]> (<[o_toAdd o := toAdd d]> (maps h)))
                     (<[m := withChanged o (changed d)]> (muts h)) (imms h)).

Definition fromDiff {A} (o : outcome diffError A) : refM A := fun h =>
  (match o with Ret a => Ret a | Err e => Err (RefDiffError e) | Panic => Panic end, h).

(** A mutable diff with maps of its own. *)
Definition allocDiff (d : mutableUTXODiff) (from : option nat) : refM nat :=
  a <- newMap (toAdd d) ;;
  r <- newMap (toRemove d) ;;
  newMut (MkMut a r [] (changed d) from).

Create HintDb refs.

Section Refs.
Context `{Crypto} {MR : MapRange}.

(** ** Mutable diffs *)

Definition NewMutableUTXODiff : refM nat := allocDiff newMutableUTXODiff None.

Definition ToImmutable (mud : nat) : refM nat :=
  immutableReference <- newImm (MkImm mud false) ;;
  o <- getMut mud ;;
  setMut mud (withReferences o (immutableReferences o ++ [immutableReference])) ;;;
  ret immutableReference.

Definition invalidated (x : immObj) : immObj := MkImm (imm_mutable x) true.

Definition invalidateImmutableReferences (mud : nat) : refM unit :=
  o <- getMut mud ;;
  modify (fun h => MkHeap (maps h) (muts h)
    (foldl (fun l i => alter invalidated i l) (imms h) (immutableReferences o))) ;;;
  setMut mud (withReferences o []).

(** A method that changes the contents of a diff in place. *)
Definition changing {A} (mud : nat) (f : diffM A) : refM A :=
  d <- load mud ;;
  let '(r, d') := f d in
  save mud d' ;;;
  fromDiff r.

Definition mud_addTransaction (mud : nat) (transaction : DomainTransaction) (blockDAAScore : Z)
    (skipMissingInputs : bool) : refM unit :=
  invalidateImmutableReferences mud ;;;
  changing mud (addTransaction transaction blockDAAScore skipMissingInputs).

Definition mud_WithDiffInPlace (mud other : nat) : refM unit :=
  o <- getImm other ;;
  invalidateImmutableReferences mud ;;;
  d <- load (imm_mutable o) ;;
  changing mud (withDiffInPlace d).

(** A new diff, of which only a view is handed out. *)
Definition handOut (result : mutableUTXODiff) : refM nat :=
  m <- allocDiff result None ;;
  ToImmutable m.

Definition mud_WithDiff (mud other : nat) : refM nat :=
  o <- getImm other ;;
  this <- load mud ;;
  d <- load (imm_mutable o) ;;
  result <- fromDiff (withDiff this d) ;;
  handOut result.

Definition mud_DiffFrom (mud other : nat) : refM nat :=
  o <- getImm other ;;
  this <- load mud ;;
  d <- load (imm_mutable o) ;;
  result <- fromDiff (diffFrom this d newMutableUTXODiff).1 ;;
  handOut result.

(** ** Immutable diffs *)

(** The mutable diff behind a view, unless the view is invalidated. *)
Definition behind (iud : nat) : refM nat :=
  x <- getImm iud ;;
  if isInvalidated x then panic else ret (imm_mutable x).

(** The collections themselves are handed out, not copies. *)
Definition imm_ToAdd (iud : nat) : refM nat :=
  mud <- behind iud ;; o <- getMut mud ;; ret (o_toAdd o).
Definition imm_ToRemove (iud : nat) : refM nat :=
  mud <- behind iud ;; o <- getMut mud ;; ret (o_toRemove o).

Definition imm_WithDiff (iud other : nat) : refM nat := mud <- behind iud ;; mud_WithDiff mud other.
Definition imm_DiffFrom (iud other : nat) : refM nat := mud <- behind iud ;; mud_DiffFrom mud other.

Definition NewUTXODiff : refM nat :=
  mud <- allocDiff newMutableUTXODiff None ;;
  newImm (MkImm mud false).

Definition NewUTXODiffFromCollections (add remove : nat) : refM nat :=
  mud <- newMut (MkMut add remove [] None None) ;;
  newImm (MkImm mud false).

Definition CloneMutable (iud : nat) : refM nat :=
  mud <- behind iud ;;
  d <- load mud ;;
  allocDiff (clone d) None.

(** The reversed diff uses the maps of the original. *)
Definition mud_Reversed (mud : nat) : refM nat :=
  o <- getMut mud ;;
  newMut (MkMut (o_toRemove o) (o_toAdd o) (immutableReferences o) None None).

Definition imm_Reversed (iud : nat) : refM nat :=
  mud <- behind iud ;;
  reversed <- mud_Reversed mud ;;
  newImm (MkImm reversed false).

(** ** Clones that record changes *)

Definition CloneMutableRecordingChanges (diff : nat) : refM nat :=
  immutable <- getImm diff ;;
  guard_err (isInvalidated immutable) ErrInvalidated ;;;
  d <- load (imm_mutable immutable) ;;
  allocDiff (MkDiff (toAdd (clone d)) (toRemove (clone d)) (Some ∅)) (Some (imm_mutable immutable)).

(** The result is [None] when the second result of the method is false. *)
Definition DiffFromChanged (this other : nat) : refM (option nat) :=
  thisImmutable <- getImm this ;;
  otherImmutable <- getImm other ;;
  guard_err (isInvalidated thisImmutable || isInvalidated otherImmutable) ErrInvalidated ;;;
  o <- getMut (imm_mutable otherImmutable) ;;
  match o_changed o with
  | None => ret None
  | Some changed =>
      if negb (bool_decide (changedFrom o = Some (imm_mutable thisImmutable))) then ret None
      else
        d <- load (imm_mutable thisImmutable) ;;
        d' <- load (imm_mutable otherImmutable) ;;
        result <- fromDiff (diffFrom (restrictToOutpoints d changed) (restrictToOutpoints d' changed)
                              newMutableUTXODiff).1 ;;
        i <- handOut result ;;
        ret (Some i)
  end.

(** ** Equality *)

Definition utxoCollectionsEqual (a b : utxoCollection) : bool :=
  bool_decide (size a = size b) &&
  forallb (fun '(outpoint, entryA) =>
    match b !! outpoint with
    | Some entryB => UTXOEntry_Equal entryA entryB
    | None => false
    end) (range 0 a).

Definition mud_Equal (mud other : nat) : refM bool :=
  a <- imm_ToAdd other ;;
  r <- imm_ToRemove other ;;
  o <- getMut mud ;;
  h <- get ;;
  toAdd <- deref (maps h !! o_toAdd o) ;;
  otherToAdd <- deref (maps h !! a) ;;
  toRemove <- deref (maps h !! o_toRemove o) ;;
  otherToRemove <- deref (maps h !! r) ;;
  ret (utxoCollectionsEqual toAdd otherToAdd && utxoCollectionsEqual toRemove otherToRemove).

Definition imm_Equal (iud other : nat) : refM bool := mud <- behind iud ;; mud_Equal mud other.
End Refs.

(** ** Programs over references *)

(** The calls that create or change objects.  A program gets its mutable diffs from
    these calls only, so the ones it can change are those in [exposed]. *)
Inductive call : Type :=
| CallNewCollection (uc : utxoCollection)
| CallNewMutableUTXODiff
| CallNewUTXODiff
| CallNewUTXODiffFromCollections (add remove : nat)
| CallToImmutable (mud : nat)
| CallAddTransaction (mud : nat) (tx : DomainTransaction) (daaScore : Z) (skipMissingInputs : bool)
| CallWithDiffInPlace (mud other : nat)
| CallMutWithDiff (mud other : nat)
| CallMutDiffFrom (mud other : nat)
| CallWithDiff (iud other : nat)
| CallDiffFrom (iud other : nat)
| CallReversed (iud : nat)
| CallCloneMutable (iud : nat)
| CallCloneMutableRecordingChanges (iud : nat)
| CallDiffFromChanged (this other : nat).

(** What a call hands to the program. *)
Inductive handle : Type := AMutable (m : nat) | AnImmutable (i : nat) | NoHandle.

Definition exposes (r : outcome refError handle) (exposed : gset nat) : gset nat :=
  match r with Ret (AMutable m) => {[ m ]} ∪ exposed | _ => exposed end.

Definition locsOf (o : mutObj) : gset nat := {[ o_toAdd o; o_toRemove o ]}.
Definition within (n : nat) (o : mutObj) : Prop := (o_toAdd o < n)%nat /\ (o_toRemove o < n)%nat.

Section Programs.
Context `{Crypto} {MR : MapRange}.

Definition perform (c : call) : refM handle :=
  match c with
  | CallNewCollection uc => newMap uc ;;; ret NoHandle
  | CallNewMutableUTXODiff => m <- NewMutableUTXODiff ;; ret (AMutable m)
  | CallNewUTXODiff => i <- NewUTXODiff ;; ret (AnImmutable i)
  | CallNewUTXODiffFromCollections a r => i <- NewUTXODiffFromCollections a r ;; ret (AnImmutable i)
  | CallToImmutable m => i <- ToImmutable m ;; ret (AnImmutable i)
  | CallAddTransaction m tx daaScore skip => mud_addTransaction m tx daaScore skip ;;; ret NoHandle
  | CallWithDiffInPlace m other => mud_WithDiffInPlace m other ;;; ret NoHandle
  | CallMutWithDiff m other => i <- mud_WithDiff m other ;; ret (AnImmutable i)
  | CallMutDiffFrom m other => i <- mud_DiffFrom m other ;; ret (AnImmutable i)
  | CallWithDiff i other => j <- imm_WithDiff i other ;; ret (AnImmutable j)
  | CallDiffFrom i other => j <- imm_DiffFrom i other ;; ret (AnImmutable j)
  | CallReversed i => j <- imm_Reversed i ;; ret (AnImmutable j)
  | CallCloneMutable i => m <- CloneMutable i ;; ret (AMutable m)
  | CallCloneMutableRecordingChanges i => m <- CloneMutableRecordingChanges i ;; ret (AMutable m)
  | CallDiffFromChanged this other =>
      j <- DiffFromChanged this other ;;
      ret (match j with Some j => AnImmutable j | None => NoHandle end)
  end.

(** The calls a program can make.  Merging a diff into one it shares a map with is
    left out: the loops would range over a map while they change it, in an order Go
    leaves open. *)
Definition callable (h : heap) (exposed : gset nat) (c : call) : Prop :=
  match c with
  | CallToImmutable m | CallAddTransaction m _ _ _ => m ∈ exposed
  | CallWithDiffInPlace m other => m ∈ exposed /\
      forall o x o', muts h !! m = Some o -> imms h !! other = Some x ->
        muts h !! imm_mutable x = Some o' -> locsOf o ## locsOf o'
  | CallMutWithDiff m _ | CallMutDiffFrom m _ => m ∈ exposed
  | CallNewUTXODiffFromCollections a r => (a < length (maps h))%nat /\ (r < length (maps h))%nat
  | _ => True
  end.

Inductive program : heap * gset nat -> heap * gset nat -> Prop :=
| program_done he : program he he
| program_call h exposed c r h' he :
    callable h exposed c -> perform c h = (r, h') ->
    program (h', exposes r exposed) he ->
    program (h, exposed) he.

(** ** Effects of calls *)

(** The views of a diff, invalidated. *)
Definition invalidate (refs : list nat) (l : list immObj) : list immObj :=
  foldl (fun l i => alter invalidated i l) l refs.

Definition mutated (h : heap) (m : nat) (o : mutObj) (d : mutableUTXODiff) : heap :=
  MkHeap (<[o_toRemove o := toRemove d]> (<[o_toAdd o := toAdd d]> (maps h)))
    (<[m := MkMut (o_toAdd o) (o_toRemove o) [] (changed d) (changedFrom o)]> (muts h))
    (invalidate (immutableReferences o) (imms h)).

Inductive effect (h : heap) (exposed : gset nat) : heap -> gset nat -> Prop :=
| effect_none : effect h exposed h exposed
| effect_map uc : effect h exposed (MkHeap (maps h ++ [uc]) (muts h) (imms h)) exposed
| effect_expose a r c from :
    effect h exposed
      (MkHeap (maps h ++ [a; r])
         (muts h ++ [MkMut (length (maps h)) (S (length (maps h))) [] c from]) (imms h))
      ({[ length (muts h) ]} ∪ exposed)
| effect_seal new o :
    within (length (maps h ++ new)) o ->
    effect h exposed
      (MkHeap (maps h ++ new) (muts h ++ [o]) (imms h ++ [MkImm (length (muts h)) false])) exposed
| effect_view m o :
    m ∈ exposed -> muts h !! m = Some o ->
    effect h exposed
      (MkHeap (maps h) (<[m := withReferences o (immutableReferences o ++ [length (imms h)])]> (muts h))
         (imms h ++ [MkImm m false])) exposed
| effect_mutate m o d mu :
    m ∈ exposed -> muts h !! m = Some o -> content h m = Some d ->
    effect h exposed (mutated h m o (mutate mu d)) exposed.

(** What holds of every heap a program reaches: addresses are in range, the diffs it
    can change have maps of their own, and the views of those diffs are registered
    with them as long as they are valid. *)
Definition separated_locs (h : heap) : Prop :=
  forall m o, muts h !! m = Some o -> within (length (maps h)) o.

Record separated (h : heap) (exposed : gset nat) : Prop := {
  sep_locs : separated_locs h;
  sep_imms : forall i x, imms h !! i = Some x -> (imm_mutable x < length (muts h))%nat;
  sep_exposed : forall m, m ∈ exposed -> (m < length (muts h))%nat;
  sep_own : forall m o, m ∈ exposed -> muts h !! m = Some o -> o_toAdd o <> o_toRemove o;
  sep_disjoint : forall m o m' o', m ∈ exposed -> m' ∈ exposed -> m <> m' ->
    muts h !! m = Some o -> muts h !! m' = Some o' -> locsOf o ## locsOf o';
  sep_registered : forall i x o, imms h !! i = Some x -> imm_mutable x ∈ exposed ->
    muts h !! imm_mutable x = Some o -> isInvalidated x = false -> i ∈ immutableReferences o
}.

Lemma content_Some h m o :
  separated_locs h -> muts h !! m = Some o ->
  exists a r, maps h !! o_toAdd o = Some a /\ maps h !! o_toRemove o = Some r /\
    content h m = Some (MkDiff a r (o_changed o)).
Proof.
  intros Hl Ho. destruct (Hl m o Ho) as [Ha Hr]. unfold content. rewrite Ho. cbn.
  apply lookup_lt_is_Some_2 in Ha as [a Ha]. apply lookup_lt_is_Some_2 in Hr as [r Hr].
  rewrite Ha, Hr. eauto.
Qed.

Lemma allocDiff_run d from h :
  allocDiff d from h = (Ret (length (muts h)),
    MkHeap (maps h ++ [toAdd d; toRemove d])
      (muts h ++ [MkMut (length (maps h)) (S (length (maps h))) [] (changed d) from]) (imms h)).
Proof.
  unfold allocDiff, bind, newMap, newMut. cbn. rewrite length_app, Nat.add_comm, <- app_assoc. done.
Qed.

Lemma ToImmutable_run m o h :
  muts h !! m = Some o ->
  ToImmutable m h = (Ret (length (imms h)),
    MkHeap (maps h) (<[m := withReferences o (immutableReferences o ++ [length (imms h)])]> (muts h))
      (imms h ++ [MkImm m false])).
Proof. intros Ho. unfold ToImmutable, bind, newImm, getMut, get, bind, deref. cbn. by rewrite Ho. Qed.

Lemma handOut_run d h :
  handOut d h
  = (Ret (length (imms h)),
     MkHeap (maps h ++ [toAdd d; toRemove d])
       (muts h ++ [MkMut (length (maps h)) (S (length (maps h))) [length (imms h)] (changed d) None])
       (imms h ++ [MkImm (length (muts h)) false])).
Proof.
  unfold handOut, bind. rewrite allocDiff_run. erewrite ToImmutable_run.
  2: { cbn. by rewrite lookup_app_r, Nat.sub_diag. }
  cbn. rewrite insert_app_r_alt by done. by rewrite Nat.sub_diag.
Qed.

Lemma invalidate_run m o h :
  muts h !! m = Some o ->
  invalidateImmutableReferences m h
  = (Ret tt, MkHeap (maps h) (<[m := withReferences o []]> (muts h)) (invalidate (immutableReferences o) (imms h))).
Proof.
  intros Ho. unfold invalidateImmutableReferences, bind, getMut, get, bind, deref. cbn. by rewrite Ho.
Qed.

Lemma content_references h m o l k :
  muts h !! m = Some o ->
  content (MkHeap (maps h) (<[m := withReferences o l]> (muts h)) (invalidate (immutableReferences o) (imms h))) k
  = content h k.
Proof.
  intros Ho. unfold content. cbn. destruct (decide (m = k)) as [<-|Hne].
  - rewrite list_lookup_insert_eq by by eapply lookup_lt_Some. by rewrite Ho.
  - by rewrite list_lookup_insert_ne.
Qed.

Lemma changing_run {A} m o h d (f : diffM A) :
  muts h !! m = Some o -> content h m = Some d ->
  changing m f (MkHeap (maps h) (<[m := withReferences o []]> (muts h)) (invalidate (immutableReferences o) (imms h)))
  = (fst (fromDiff (f d).1 h), mutated h m o (f d).2).
Proof.
  intros Ho Hd. unfold changing. erewrite bind_Ret.
  2: { unfold load, bind, get. rewrite content_references, Hd by done. done. }
  destruct (f d) as [r d']. unfold save, bind, getMut, get, bind, deref. cbn.
  rewrite list_lookup_insert_eq by by eapply lookup_lt_Some. cbn.
  unfold mutated. by rewrite list_insert_insert_eq.
Qed.

Lemma exposed_content h exposed m :
  separated h exposed -> m ∈ exposed -> exists o d, muts h !! m = Some o /\ content h m = Some d.
Proof.
  intros Hsep Hm. destruct (lookup_lt_is_Some_2 (muts h) m) as [o Ho]; [by eapply sep_exposed|].
  destruct (content_Some h m o) as (a & r & _ & _ & Hd); [by destruct Hsep|done|]. eauto.
Qed.

Lemma imm_content h exposed i x :
  separated h exposed -> imms h !! i = Some x -> exists d, content h (imm_mutable x) = Some d.
Proof.
  intros Hsep Hx. destruct (lookup_lt_is_Some_2 (muts h) (imm_mutable x)) as [o Ho]; [by eapply sep_imms|].
  destruct (content_Some h (imm_mutable x) o) as (a & r & _ & _ & Hd); [by destruct Hsep|done|]. eauto.
Qed.

(** Computations that only read, that have an effect and hand out no mutable diff,
    and that hand out the mutable diff they return. *)
Definition reads {A} (m : refM A) : Prop := forall h, (m h).2 = h.
Definition quiet {A} (m : refM A) : Prop :=
  forall h exposed, separated h exposed -> effect h exposed (m h).2 exposed.
Definition exposing (m : refM nat) : Prop :=
  forall h exposed, separated h exposed ->
    effect h exposed (m h).2 (match (m h).1 with Ret n => {[ n ]} ∪ exposed | _ => exposed end).

Lemma reads_bind {A B} (m : refM A) (k : A -> refM B) : reads m -> (forall a, reads (k a)) -> reads (bind m k).
Proof.
  intros Hm Hk h. unfold bind. specialize (Hm h). destruct (m h) as [[a|e|] h']; cbn in *; subst; [apply Hk|done..].
Qed.

Lemma quiet_bind {A B} (m : refM A) (k : A -> refM B) : reads m -> (forall a, quiet (k a)) -> quiet (bind m k).
Proof.
  intros Hm Hk h E Hsep. unfold bind. specialize (Hm h).
  destruct (m h) as [[a|e|] h']; cbn in *; subst; [by apply Hk|apply effect_none..].
Qed.

Lemma exposing_bind {A} (m : refM A) k : reads m -> (forall a, exposing (k a)) -> exposing (bind m k).
Proof.
  intros Hm Hk h E Hsep. unfold bind. specialize (Hm h).
  destruct (m h) as [[a|e|] h']; cbn in *; subst; [by apply Hk|apply effect_none..].
Qed.

Lemma quiet_then {A B} (m : refM A) (k : A -> refM B) : quiet m -> (forall a, reads (k a)) -> quiet (bind m k).
Proof.
  intros Hm Hk h E Hsep. unfold bind. specialize (Hm h E Hsep).
  destruct (m h) as [[a|e|] h']; cbn in *; [by rewrite Hk|done..].
Qed.

Lemma reads_quiet {A} (m : refM A) : reads m -> quiet m.
Proof. intros Hm h E _. rewrite Hm. apply effect_none. Qed.

Lemma getImm_reads i : reads (getImm i).
Proof. intros h. unfold getImm, bind, get, deref. by case_match. Qed.
Lemma getMut_reads i : reads (getMut i).
Proof. intros h. unfold getMut, bind, get, deref. by case_match. Qed.
Lemma load_reads i : reads (load i).
Proof. intros h. unfold load, bind, get, deref. by case_match. Qed.
Lemma fromDiff_reads {A} (o : outcome diffError A) : reads (fromDiff o).
Proof. done. Qed.
Lemma guard_reads c e : reads (guard_err c e).
Proof. intros h. unfold guard_err. by destruct c. Qed.
Lemma behind_reads i : reads (behind i).
Proof. apply reads_bind; [apply getImm_reads|]. intros x h. by destruct (isInvalidated x). Qed.

Lemma handOut_quiet d : quiet (handOut d).
Proof.
  intros h E _. rewrite handOut_run. apply effect_seal. split; cbn; rewrite length_app; cbn; lia.
Qed.
Lemma allocDiff_exposing d from : exposing (allocDiff d from).
Proof. intros h E _. rewrite allocDiff_run. apply effect_expose. Qed.
End Programs.

#[export] Hint Resolve getImm_reads getMut_reads load_reads fromDiff_reads guard_reads behind_reads
  handOut_quiet allocDiff_exposing reads_quiet quiet_bind exposing_bind : refs.

Section Invariant.
Context `{Crypto} {MR : MapRange}.

Lemma quiet_handle {A} (m : refM A) (f : A -> handle) h exposed r h' :
  quiet m -> (forall a n, f a <> AMutable n) -> separated h exposed ->
  (a <- m ;; ret (f a)) h = (r, h') -> effect h exposed h' (exposes r exposed).
Proof.
  intros Hq Hf Hsep. specialize (Hq h exposed Hsep). unfold bind, ret.
  destruct (m h) as [[a|e|] h1]; cbn in *; intros [= <- <-]; cbn; [|done..].
  specialize (Hf a). by destruct (f a); [edestruct Hf| |].
Qed.

Lemma exposing_handle (m : refM nat) h exposed r h' :
  exposing m -> separated h exposed ->
  (a <- m ;; ret (AMutable a)) h = (r, h') -> effect h exposed h' (exposes r exposed).
Proof.
  intros Hq Hsep. specialize (Hq h exposed Hsep). unfold bind, ret.
  destruct (m h) as [[a|e|] h1]; cbn in *; by intros [= <- <-].
Qed.

Lemma mud_WithDiff_quiet m other : quiet (mud_WithDiff m other).
Proof. unfold mud_WithDiff. eauto 9 with refs. Qed.
Lemma mud_DiffFrom_quiet m other : quiet (mud_DiffFrom m other).
Proof. unfold mud_DiffFrom. eauto 9 with refs. Qed.

Lemma NewUTXODiff_quiet : quiet NewUTXODiff.
Proof.
  intros h E _. unfold NewUTXODiff, bind. rewrite allocDiff_run.
  unfold newImm. cbn [snd maps muts imms]. apply effect_seal.
  split; cbn; rewrite length_app; cbn; lia.
Qed.

Lemma sealed_quiet h exposed o :
  within (length (maps h)) o ->
  effect h exposed (MkHeap (maps h) (muts h ++ [o]) (imms h ++ [MkImm (length (muts h)) false])) exposed.
Proof.
  intros Hw. pose proof (effect_seal h exposed [] o) as He. rewrite app_nil_r in He. by apply He.
Qed.

Lemma Reversed_quiet i : quiet (imm_Reversed i).
Proof.
  apply quiet_bind; [apply behind_reads|]. intros m h E Hsep.
  unfold mud_Reversed, bind at 1, bind at 1, getMut, bind, get, deref.
  destruct (muts h !! m) as [o|] eqn:Ho; [|apply effect_none]. cbn.
  apply sealed_quiet. destruct (sep_locs _ _ Hsep m o Ho). by split.
Qed.

Lemma DiffFromChanged_quiet this other : quiet (DiffFromChanged this other).
Proof.
  unfold DiffFromChanged. do 4 (apply quiet_bind; [auto with refs|intros ?]).
  case_match; [|by apply reads_quiet]. case_match; [by apply reads_quiet|].
  do 3 (apply quiet_bind; [auto with refs|intros ?]).
  apply quiet_then; [auto with refs|done].
Qed.

Lemma CloneMutable_exposing i : exposing (CloneMutable i).
Proof. unfold CloneMutable. eauto with refs. Qed.
Lemma CloneMutableRecordingChanges_exposing i : exposing (CloneMutableRecordingChanges i).
Proof. unfold CloneMutableRecordingChanges. eauto 9 with refs. Qed.

Lemma perform_effect h exposed c r h' :
  separated h exposed -> callable h exposed c -> perform c h = (r, h') ->
  effect h exposed h' (exposes r exposed).
Proof.
  intros Hsep Hc. destruct c; cbn [perform callable] in *.
  2, 13, 14: intros Hrun; eapply exposing_handle; [|done|exact Hrun]; unfold NewMutableUTXODiff;
    auto using CloneMutable_exposing, CloneMutableRecordingChanges_exposing with refs.
  2: intros Hrun; by eapply quiet_handle, Hrun; [apply NewUTXODiff_quiet| |].
  6, 7: intros Hrun; by eapply quiet_handle, Hrun; [auto using mud_WithDiff_quiet, mud_DiffFrom_quiet| |].
  6, 7: intros Hrun; eapply quiet_handle, Hrun; try done; unfold imm_WithDiff, imm_DiffFrom;
    eauto using mud_WithDiff_quiet, mud_DiffFrom_quiet with refs.
  6: intros Hrun; by eapply quiet_handle, Hrun; [apply Reversed_quiet| |].
  6: intros Hrun; eapply quiet_handle, Hrun; [apply DiffFromChanged_quiet|intros [?|]; done|done].
  - intros [= <- <-]. apply effect_map.
  - intros [= <- <-]. by apply sealed_quiet.
  - destruct (exposed_content h exposed mud Hsep Hc) as (o & d & Ho & Hd).
    unfold bind. rewrite (ToImmutable_run _ _ _ Ho). intros [= <- <-]. by apply effect_view.
  - destruct (exposed_content h exposed mud Hsep Hc) as (o & d & Ho & Hd).
    unfold bind at 1, mud_addTransaction.
    erewrite bind_Ret by by apply invalidate_run. rewrite (changing_run _ o _ _ _ Ho Hd).
    assert (He := effect_mutate _ _ _ _ _ (MAddTransaction tx daaScore skipMissingInputs) Hc Ho Hd).
    cbn [mutate] in He.
    destruct (addTransaction _ _ _ _) as [[[]|e|] d']; cbn; by intros [= <- <-].
  - destruct Hc as [Hc _]. destruct (exposed_content h exposed mud Hsep Hc) as (o & d & Ho & Hd).
    unfold bind at 1, mud_WithDiffInPlace, getImm. destruct (imms h !! other) as [x|] eqn:Hx.
    2: { unfold bind, get, deref. rewrite Hx. intros [= <- <-]. apply effect_none. }
    erewrite bind_Ret by (unfold bind, get; by rewrite Hx).
    erewrite bind_Ret by by apply invalidate_run.
    destruct (imm_content h exposed other x Hsep Hx) as [dx Hdx].
    erewrite bind_Ret by (unfold load, bind, get; by rewrite content_references, Hdx).
    rewrite (changing_run _ o _ _ _ Ho Hd).
    assert (He := effect_mutate _ _ _ _ _ (MWithDiffInPlace dx) Hc Ho Hd). cbn [mutate] in He.
    destruct (withDiffInPlace _ _) as [[[]|e|] d']; cbn; by intros [= <- <-].
Qed.

Lemma invalidate_lookup refs l i :
  invalidate refs l !! i = if decide (i ∈ refs) then invalidated <$> l !! i else l !! i.
Proof.
  unfold invalidate. revert l. induction refs as [|k refs IH]; intros l; cbn [foldl].
  { by rewrite decide_False by apply not_elem_of_nil. }
  rewrite IH. destruct (decide (i = k)) as [->|Hne].
  - rewrite list_lookup_alter_eq, (decide_True _ _ (list_elem_of_here k refs)).
    case_decide; [|done]. by destruct (l !! k).
  - rewrite list_lookup_alter_ne by done.
    destruct (decide (i ∈ refs)), (decide (i ∈ k :: refs)); try done; set_solver.
Qed.

(** Views are kept, and stay invalidated. *)
Definition imms_extend (l l' : list immObj) : Prop :=
  forall i x, l !! i = Some x -> exists x', l' !! i = Some x' /\ imm_mutable x' = imm_mutable x /\
    (isInvalidated x = true -> isInvalidated x' = true).

Lemma invalidate_extend refs l : imms_extend l (invalidate refs l).
Proof.
  intros i x Hx. rewrite invalidate_lookup. case_decide; rewrite Hx; cbn; eauto.
Qed.

Lemma app_extend l l' : imms_extend l (l ++ l').
Proof. intros i x Hx. exists x. by rewrite (lookup_app_l_Some _ _ _ _ Hx). Qed.

(** The entry at the end of a list, or one before. *)
Lemma lookup_snoc_cases {A} (l : list A) a i x :
  (l ++ [a]) !! i = Some x -> l !! i = Some x \/ (i = length l /\ x = a).
Proof.
  intros Hx. apply lookup_app_Some in Hx as [Hx|[Hl Hx]]; [by left|right].
  apply list_lookup_singleton_Some in Hx as [? ->]. split; [lia|done].
Qed.

Lemma within_mono n n' o : (n <= n')%nat -> within n o -> within n' o.
Proof. unfold within. lia. Qed.

Lemma within_disjoint n o o' : within n o -> (n <= o_toAdd o')%nat -> (n <= o_toRemove o')%nat -> locsOf o ## locsOf o'.
Proof.
  unfold within, locsOf. intros [] ? ? x. rewrite !elem_of_union, !elem_of_singleton. lia.
Qed.

Lemma separated_expose h exposed a r c from :
  separated h exposed ->
  separated (MkHeap (maps h ++ [a; r])
      (muts h ++ [MkMut (length (maps h)) (S (length (maps h))) [] c from]) (imms h))
    ({[ length (muts h) ]} ∪ exposed).
Proof.
  intros [Hl Hi He Ho Hd Hr]. split; cbn.
  - intros m o Hmo. cbn in *. rewrite length_app. cbn. apply lookup_snoc_cases in Hmo as [Hmo|[-> ->]].
    + eapply within_mono; [|by apply (Hl m)]. lia.
    + split; cbn; lia.
  - intros i x Hx. rewrite length_app. specialize (Hi i x Hx). lia.
  - intros m Hm. rewrite length_app. cbn. set_unfold. destruct Hm as [->|Hm]; [lia|].
    specialize (He m Hm). lia.
  - intros m o Hm Hmo. apply lookup_snoc_cases in Hmo as [Hmo|[-> ->]]; [|cbn; lia].
    apply (Ho m); [|done]. apply lookup_lt_Some in Hmo. set_unfold. destruct Hm as [->|]; [lia|done].
  - intros m o m' o' Hm Hm' Hne Hmo Hmo'. set_unfold in Hm. set_unfold in Hm'.
    apply lookup_snoc_cases in Hmo as [Hmo|[-> ->]], Hmo' as [Hmo'|[-> ->]].
    + apply lookup_lt_Some in Hmo as ?. apply lookup_lt_Some in Hmo' as ?.
      apply (Hd m o m' o'); try done; [destruct Hm as [->|]|destruct Hm' as [->|]]; (lia || done).
    + apply (within_disjoint (length (maps h))); [by apply (Hl m)|cbn; lia..].
    + symmetry. apply (within_disjoint (length (maps h))); [by apply (Hl m')|cbn; lia..].
    + done.
  - intros i x o Hx Hm Hmo Hv. specialize (Hi i x Hx). set_unfold in Hm. destruct Hm as [Hm|Hm]; [lia|].
    apply lookup_snoc_cases in Hmo as [Hmo|[Hn _]]; [by eapply Hr|lia].
Qed.

Lemma separated_seal h exposed new o :
  separated h exposed -> within (length (maps h ++ new)) o ->
  separated (MkHeap (maps h ++ new) (muts h ++ [o]) (imms h ++ [MkImm (length (muts h)) false])) exposed.
Proof.
  intros [Hl Hi He Ho Hd Hr] Hw.
  assert (Hold : forall m x, m ∈ exposed -> (muts h ++ [o]) !! m = Some x -> muts h !! m = Some x).
  { intros m x Hm Hmx. specialize (He m Hm). by rewrite lookup_app_l in Hmx. }
  split; cbn.
  - intros m x Hmx. cbn in *. apply lookup_snoc_cases in Hmx as [Hmx|[-> ->]]; [|done].
    eapply within_mono; [|by apply (Hl m)]. rewrite length_app. lia.
  - intros i x Hx. rewrite length_app. cbn. apply lookup_snoc_cases in Hx as [Hx|[-> ->]]; [|cbn; lia].
    specialize (Hi i x Hx). lia.
  - intros m Hm. rewrite length_app. specialize (He m Hm). lia.
  - eauto.
  - eauto.
  - intros i x o' Hx Hm Hmo Hv. specialize (He _ Hm). apply lookup_snoc_cases in Hx as [Hx|[-> ->]].
    + eapply Hr; eauto.
    + cbn in *. lia.
Qed.

(** A diff changed in place keeps its maps. *)
Lemma insert_same_locs h m o o' k x :
  muts h !! m = Some o -> o_toAdd o' = o_toAdd o -> o_toRemove o' = o_toRemove o ->
  <[m := o']> (muts h) !! k = Some x ->
  exists y, muts h !! k = Some y /\ o_toAdd x = o_toAdd y /\ o_toRemove x = o_toRemove y.
Proof.
  intros Ho Ha Hr Hx. destruct (decide (m = k)) as [<-|Hne].
  - rewrite list_lookup_insert_eq in Hx by by eapply lookup_lt_Some. simplify_eq. eauto.
  - rewrite list_lookup_insert_ne in Hx by done. eauto.
Qed.

Lemma separated_inplace h exposed m o o' mps ims :
  separated h exposed -> muts h !! m = Some o ->
  o_toAdd o' = o_toAdd o -> o_toRemove o' = o_toRemove o -> length mps = length (maps h) ->
  (forall i x, ims !! i = Some x -> (imm_mutable x < length (muts h))%nat /\
     (imm_mutable x ∈ exposed -> isInvalidated x = false ->
      (imm_mutable x = m -> i ∈ immutableReferences o') /\
      (imm_mutable x <> m -> imms h !! i = Some x))) ->
  separated (MkHeap mps (<[m := o']> (muts h)) ims) exposed.
Proof.
  intros [Hl Hi He Ho Hd Hr] Hmo Ha Hrm Hlen Hims.
  pose proof (insert_same_locs h m o o') as Hsame.
  split; cbn; rewrite ?length_insert; try done.
  - intros k x Hx. cbn in *. rewrite Hlen. destruct (Hsame k x) as (y & Hy & E1 & E2); try done.
    unfold within. rewrite E1, E2. by apply (Hl k).
  - intros i x Hx. by apply (Hims i x).
  - intros k x Hk Hx. destruct (Hsame k x) as (y & Hy & -> & ->); try done. by apply (Ho k).
  - intros k x k' x' Hk Hk' Hne Hx Hx'. destruct (Hsame k x) as (y & Hy & E1 & E2); try done.
    destruct (Hsame k' x') as (y' & Hy' & E1' & E2'); try done.
    unfold locsOf. rewrite E1, E2, E1', E2'. by apply (Hd k y k' y').
  - intros i x y Hx Hm Hy Hv. destruct (Hims i x Hx) as [_ Hreg]. destruct (Hreg Hm Hv) as [Hself Hother].
    destruct (decide (imm_mutable x = m)) as [E|Hne].
    + rewrite E in Hy. rewrite list_lookup_insert_eq in Hy by by eapply lookup_lt_Some. simplify_eq. by apply Hself.
    + rewrite list_lookup_insert_ne in Hy by done. eapply Hr; eauto.
Qed.

Lemma effect_separated h exposed h' exposed' :
  separated h exposed -> effect h exposed h' exposed' -> separated h' exposed'.
Proof.
  intros Hsep He. destruct He as [|uc|a r c from|new o Hw|m o Hm Hmo|m o d mu Hm Hmo Hmd].
  - done.
  - destruct Hsep as [Hl Hi He Ho Hd Hr]. split; cbn; try done.
    intros m o Hmo. eapply within_mono; [|by apply (Hl m)]. cbn. rewrite length_app. lia.
  - by apply separated_expose.
  - by apply separated_seal.
  - eapply separated_inplace; try done. intros i x Hx. apply lookup_snoc_cases in Hx as [Hx|[-> ->]].
    + split; [by eapply sep_imms|]. intros Hin Hv. split; [|done]. intros <-. cbn.
      apply elem_of_app. left. by eapply sep_registered.
    + cbn. split; [by eapply sep_exposed|]. intros _ _. split; [|done]. set_solver.
  - unfold mutated. eapply separated_inplace; try done; [by rewrite !length_insert|].
    intros i x Hx. rewrite invalidate_lookup in Hx. case_decide as Hin.
    + destruct (imms h !! i) as [y|] eqn:Hy; [|done]. cbn in Hx. simplify_eq. cbn.
      split; [by eapply (sep_imms _ _ Hsep i)|done].
    + split; [by eapply sep_imms|]. intros Hx1 Hv. split; [|done]. intros <-. exfalso. apply Hin.
      by eapply sep_registered.
Qed.

(** ** Views keep their contents *)

(** A view is protected if the program can change its maps, if at all, only through the
    diff the view is registered with. *)
Definition protected (h : heap) (exposed : gset nat) (i : nat) : Prop :=
  exists x o, imms h !! i = Some x /\ muts h !! imm_mutable x = Some o /\
    (imm_mutable x ∈ exposed \/
     forall m o', m ∈ exposed -> muts h !! m = Some o' -> locsOf o ## locsOf o').

(** A view as it was, unless it is invalidated. *)
Definition unchanged (h h' : heap) (i : nat) : Prop :=
  forall x, imms h !! i = Some x -> exists x', imms h' !! i = Some x' /\ imm_mutable x' = imm_mutable x /\
    (isInvalidated x' = false -> isInvalidated x = false /\
       content h' (imm_mutable x) = content h (imm_mutable x)).

Lemma content_same h h' k o o' :
  muts h !! k = Some o -> muts h' !! k = Some o' ->
  o_toAdd o' = o_toAdd o -> o_toRemove o' = o_toRemove o -> o_changed o' = o_changed o ->
  (forall l, l ∈ locsOf o -> maps h' !! l = maps h !! l) ->
  content h' k = content h k.
Proof.
  intros Ho Ho' Ha Hr Hc Hm. unfold content. rewrite Ho, Ho'. cbn. rewrite Ha, Hr, Hc.
  by rewrite !Hm by (unfold locsOf; set_solver).
Qed.

Lemma within_locs n o l : within n o -> l ∈ locsOf o -> (l < n)%nat.
Proof. unfold within, locsOf. rewrite elem_of_union, !elem_of_singleton. lia. Qed.

Lemma effect_unchanged h exposed h' exposed' i :
  separated h exposed -> protected h exposed i -> effect h exposed h' exposed' ->
  unchanged h h' i.
Proof.
  intros Hsep (x & o & Hx & Ho & Hp) He y Hy. simplify_eq.
  pose proof (sep_locs _ _ Hsep _ _ Ho) as Hw.
  destruct He as [|uc|a r c from|new o' Hw'|m o' Hm Hmo|m o' d mu Hm Hmo Hmd]; cbn.
  - eauto.
  - exists x. split_and!; try done. intros Hv. split; [done|]. apply (content_same _ _ _ o o); try done.
    intros l Hl. cbn. by rewrite lookup_app_l by by eapply within_locs.
  - exists x. split_and!; try done. intros Hv. split; [done|].
    apply (content_same _ _ _ o o); try done; cbn; [by apply lookup_app_l_Some|].
    intros l Hl. by rewrite lookup_app_l by by eapply within_locs.
  - exists x. rewrite (lookup_app_l_Some _ _ _ _ Hx). split_and!; try done. intros Hv. split; [done|].
    apply (content_same _ _ _ o o); try done; cbn; [by apply lookup_app_l_Some|].
    intros l Hl. by rewrite lookup_app_l by by eapply within_locs.
  - exists x. rewrite (lookup_app_l_Some _ _ _ _ Hx). split_and!; try done. intros Hv. split; [done|].
    destruct (decide (m = imm_mutable x)) as [->|Hne].
    + simplify_eq. eapply content_same; [done|cbn; apply list_lookup_insert_eq; by eapply lookup_lt_Some|done..].
    + apply (content_same _ _ _ o o); try done. cbn. by rewrite list_lookup_insert_ne.
  - rewrite invalidate_lookup, Hx. cbn. case_decide as Hin; [by eexists|].
    exists x. split_and!; try done. intros Hv. split; [done|].
    assert (Hne : m <> imm_mutable x).
    { intros ->. simplify_eq. apply Hin. by eapply sep_registered. }
    apply (content_same _ _ _ o o); try done; cbn; [by rewrite list_lookup_insert_ne|].
    assert (Hdis : locsOf o ## locsOf o').
    { destruct Hp as [Hp|Hp]; [|by eapply Hp]. by apply (sep_disjoint _ _ Hsep (imm_mutable x) _ m). }
    intros l Hl. unfold locsOf in Hdis. rewrite !list_lookup_insert_ne; [done|set_solver..].
Qed.

Lemma protected_inplace h exposed m o1 o2 i x o mps ims :
  muts h !! m = Some o1 -> o_toAdd o2 = o_toAdd o1 -> o_toRemove o2 = o_toRemove o1 ->
  ims !! i = Some x -> muts h !! imm_mutable x = Some o ->
  (imm_mutable x ∈ exposed \/
   forall m o', m ∈ exposed -> muts h !! m = Some o' -> locsOf o ## locsOf o') ->
  protected (MkHeap mps (<[m := o2]> (muts h)) ims) exposed i.
Proof.
  intros Hm Ha Hr Hx Ho Hp.
  assert (Hex : exists o', <[m := o2]> (muts h) !! imm_mutable x = Some o' /\ locsOf o' = locsOf o).
  { destruct (decide (m = imm_mutable x)) as [->|Hne].
    - exists o2. rewrite list_lookup_insert_eq by by eapply lookup_lt_Some. simplify_eq.
      split; [done|]. unfold locsOf. by rewrite Ha, Hr.
    - exists o. by rewrite list_lookup_insert_ne. }
  destruct Hex as (o' & Ho' & Hl). exists x, o'. cbn. split_and!; try done.
  destruct Hp as [Hp|Hp]; [by left|right]. intros k y Hk Hy.
  destruct (insert_same_locs h m o1 o2 k y) as (z & Hz & E1 & E2); try done.
  rewrite Hl. unfold locsOf at 2. rewrite E1, E2. by apply (Hp k z).
Qed.

Lemma effect_protected h exposed h' exposed' i :
  separated h exposed -> protected h exposed i -> effect h exposed h' exposed' ->
  protected h' exposed' i.
Proof.
  intros Hsep (x & o & Hx & Ho & Hp) He.
  destruct He as [|uc|a r c from|new o' Hw'|m o' Hm Hmo|m o' d mu Hm Hmo Hmd].
  - by exists x, o.
  - by exists x, o.
  - exists x, o. cbn. split_and!; [done|by apply lookup_app_l_Some|].
    destruct Hp as [Hp|Hp]; [left; set_solver|right]. intros m o' Hm Hmo'.
    apply lookup_snoc_cases in Hmo' as [Hmo'|[-> ->]].
    + apply lookup_lt_Some in Hmo' as ?. apply (Hp m); [|done]. set_unfold in Hm. destruct Hm; [lia|done].
    + apply (within_disjoint (length (maps h))); [by eapply sep_locs|cbn; lia..].
  - exists x, o. cbn. split_and!; [by apply lookup_app_l_Some..|]. destruct Hp as [Hp|Hp]; [by left|right].
    intros m o2 Hm Hmo'. apply (Hp m); [done|].
    apply lookup_snoc_cases in Hmo' as [Hmo'|[Hn _]]; [done|]. pose proof (sep_exposed _ _ Hsep m Hm). lia.
  - apply (protected_inplace h exposed m o' _ i x o); cbn; try done. by apply lookup_app_l_Some.
  - destruct (invalidate_extend (immutableReferences o') (imms h) i x Hx) as (x' & Hx' & E & _).
    apply (protected_inplace h exposed m o' _ i x' o); cbn; try done; by rewrite E.
Qed.

Lemma effect_exposed h exposed h' exposed' m : effect h exposed h' exposed' -> m ∈ exposed -> m ∈ exposed'.
Proof. intros []; set_solver. Qed.

Lemma program_induction (R : heap * gset nat -> Prop) he he' :
  (forall h exposed h' exposed', separated h exposed -> R (h, exposed) ->
     effect h exposed h' exposed' -> R (h', exposed')) ->
  program he he' -> separated he.1 he.2 -> R he -> R he' /\ separated he'.1 he'.2.
Proof.
  intros HR Hprog. induction Hprog as [he|h E c r h' he Hc Hrun Hprog IH]; intros Hsep Hhe; [done|].
  pose proof (perform_effect _ _ _ _ _ Hsep Hc Hrun) as Heff.
  apply IH; [by eapply effect_separated|by eapply HR].
Qed.

Lemma program_separated he he' : program he he' -> separated he.1 he.2 -> separated he'.1 he'.2.
Proof. intros Hp Hs. by apply (program_induction (fun _ => True)) in Hp as [_ ?]. Qed.

Lemma program_protected h exposed h' exposed' i :
  program (h, exposed) (h', exposed') -> separated h exposed -> protected h exposed i ->
  protected h' exposed' i /\ unchanged h h' i.
Proof.
  intros Hprog Hsep Hp.
  apply (program_induction (fun he => protected he.1 he.2 i /\ unchanged h he.1 i)) in Hprog as [? _]; try done.
  - intros h1 E1 h2 E2 Hsep1 [Hp1 Hu1] He. cbn in *. split; [by eapply effect_protected|].
    intros x Hx. destruct (Hu1 x Hx) as (x1 & Hx1 & Em & Hc1).
    destruct (effect_unchanged _ _ _ _ _ Hsep1 Hp1 He x1 Hx1) as (x2 & Hx2 & Em2 & Hc2).
    exists x2. split_and!; [done|congruence|]. intros Hv. destruct (Hc2 Hv) as [Hv1 E2'].
    destruct (Hc1 Hv1) as [Hv0 E1']. split; [done|]. congruence.
  - split; [done|]. intros x Hx. by exists x.
Qed.

(** ** Protected views *)

Definition protects {A} (view : A -> option nat) (m : refM A) : Prop :=
  forall h exposed a i h', separated h exposed -> m h = (Ret a, h') -> view a = Some i ->
    protected h' exposed i.

Lemma protects_bind {A B} view (m : refM A) (k : A -> refM B) :
  reads m -> (forall a, protects view (k a)) -> protects view (bind m k).
Proof.
  intros Hm Hk h E b i h' Hsep Hrun Hi. unfold bind in Hrun. specialize (Hm h).
  destruct (m h) as [[a|e|] h1]; cbn in *; subst; try done. by eapply Hk.
Qed.

Lemma fresh_protected h exposed mps refs c :
  separated h exposed ->
  protected (MkHeap mps (muts h ++ [MkMut (length (maps h)) (S (length (maps h))) refs c None])
    (imms h ++ [MkImm (length (muts h)) false])) exposed (length (imms h)).
Proof.
  intros Hsep. do 2 eexists. cbn. split_and!.
  - by rewrite lookup_app_r, Nat.sub_diag.
  - cbn. by rewrite lookup_app_r, Nat.sub_diag.
  - right. intros m o' Hm Hmo. apply lookup_snoc_cases in Hmo as [Hmo|[Hn _]].
    + symmetry. apply (within_disjoint (length (maps h))); [by eapply sep_locs|cbn; lia..].
    + pose proof (sep_exposed _ _ Hsep m Hm). lia.
Qed.

Lemma handOut_protects d : protects Some (handOut d).
Proof. intros h E a i h' Hsep. rewrite handOut_run. intros [= <- <-] [= <-]. by apply fresh_protected. Qed.

Lemma NewUTXODiff_protects : protects Some NewUTXODiff.
Proof.
  intros h E a i h' Hsep. unfold NewUTXODiff, bind. rewrite allocDiff_run.
  intros [= <- <-] [= <-]. by apply fresh_protected.
Qed.

Lemma mud_WithDiff_protects m other : protects Some (mud_WithDiff m other).
Proof. unfold mud_WithDiff. do 4 (apply protects_bind; [auto with refs|intros ?]). apply handOut_protects. Qed.
Lemma mud_DiffFrom_protects m other : protects Some (mud_DiffFrom m other).
Proof. unfold mud_DiffFrom. do 4 (apply protects_bind; [auto with refs|intros ?]). apply handOut_protects. Qed.

Lemma DiffFromChanged_protects this other : protects id (DiffFromChanged this other).
Proof.
  unfold DiffFromChanged. do 4 (apply protects_bind; [auto with refs|intros ?]).
  case_match; [|by intros ? ? ? ? ? ? [= <- <-]]. case_match; [by intros ? ? ? ? ? ? [= <- <-]|].
  do 3 (apply protects_bind; [auto with refs|intros ?]).
  intros h E k i h' Hsep. unfold bind. rewrite handOut_run. intros [= <- <-] [= <-]. by apply fresh_protected.
Qed.

(** The calls that hand out views of maps that belong to no other diff. *)
Definition unsharing (c : call) : bool :=
  match c with
  | CallReversed _ | CallNewUTXODiffFromCollections _ _ => false
  | _ => true
  end.

Lemma protects_handle {A} view (m : refM A) (f : A -> handle) h exposed i h' :
  protects view m -> (forall a j, f a = AnImmutable j -> view a = Some j) -> separated h exposed ->
  (a <- m ;; ret (f a)) h = (Ret (AnImmutable i), h') -> protected h' exposed i.
Proof.
  intros Hm Hf Hsep Hrun. unfold bind, ret in Hrun. destruct (m h) as [[a|e|] h1] eqn:E; simplify_eq.
  eapply Hm; [done..|by apply Hf].
Qed.

Lemma unsharing_protects h exposed c i h' :
  separated h exposed -> callable h exposed c -> unsharing c = true ->
  perform c h = (Ret (AnImmutable i), h') -> protected h' exposed i.
Proof.
  intros Hsep Hc Hu Hrun. assert (HS : forall a j, AnImmutable a = AnImmutable j -> Some a = Some j) by congruence.
  destruct c; try done; cbn [perform callable] in *;
    try (by eapply bind_Ret_inv in Hrun as (? & ? & _ & ?)).
  - by eapply protects_handle, Hrun; [apply NewUTXODiff_protects| |].
  - destruct (exposed_content h exposed mud Hsep Hc) as (o & d & Ho & Hd).
    unfold bind, ret in Hrun. rewrite (ToImmutable_run _ _ _ Ho) in Hrun. simplify_eq.
    apply (protected_inplace h exposed mud o _ _ (MkImm mud false) o); try done; [|by left].
    by rewrite lookup_app_r, Nat.sub_diag.
  - by eapply protects_handle, Hrun; [apply mud_WithDiff_protects| |].
  - by eapply protects_handle, Hrun; [apply mud_DiffFrom_protects| |].
  - eapply protects_handle, Hrun; try done. apply protects_bind; auto using mud_WithDiff_protects with refs.
  - eapply protects_handle, Hrun; try done. apply protects_bind; auto using mud_DiffFrom_protects with refs.
  - eapply protects_handle, Hrun; [apply DiffFromChanged_protects| |done]. intros [a|] j; by intros [= <-].
Qed.

Definition emptyHeap : heap := MkHeap [] [] [].

Lemma emptyHeap_separated : separated emptyHeap ∅.
Proof. split; try (by intros ? ? ?%list_lookup_fmap_Some || set_solver); intros ? ?; set_solver. Qed.

Lemma reachable_separated h exposed : program (emptyHeap, ∅) (h, exposed) -> separated h exposed.
Proof. intros Hp. apply program_separated in Hp; [done|]. apply emptyHeap_separated. Qed.


(** ** Recorded changes *)

(** A diff that records its changes from [base], which was the diff at [from]. *)
Definition recording (base : mutableUTXODiff) (from m : nat) (h : heap) : Prop :=
  exists o d, muts h !! m = Some o /\ changedFrom o = Some from /\ content h m = Some d /\
    recordsChangesFrom base d.

Lemma recording_kept base from m h h' o o' d :
  muts h !! m = Some o -> changedFrom o = Some from -> content h m = Some d -> recordsChangesFrom base d ->
  muts h' !! m = Some o' -> o_toAdd o' = o_toAdd o -> o_toRemove o' = o_toRemove o ->
  o_changed o' = o_changed o -> changedFrom o' = changedFrom o ->
  (forall l, l ∈ locsOf o -> maps h' !! l = maps h !! l) ->
  recording base from m h'.
Proof.
  intros Ho Hf Hd Hrec Ho' Ha Hr Hc Hf' Hm. exists o', d. split_and!; [done|congruence| |done].
  by rewrite (content_same h h' m o o').
Qed.

(** Writing to maps of its own. *)
Lemma mutated_content h m o d d' :
  muts h !! m = Some o -> o_toAdd o <> o_toRemove o -> content h m = Some d' ->
  content (mutated h m o d) m = Some d.
Proof.
  intros Ho Hne Hd. unfold content in *. rewrite Ho in Hd. cbn in Hd.
  destruct (maps h !! o_toAdd o) eqn:Ha; [|done]. destruct (maps h !! o_toRemove o) eqn:Hr; [|done].
  apply lookup_lt_Some in Ha, Hr, Ho. cbn. rewrite list_lookup_insert_eq by done. cbn.
  rewrite (list_lookup_insert_ne _ (o_toRemove o) (o_toAdd o)) by congruence.
  rewrite !list_lookup_insert_eq by (rewrite ?length_insert; done). by destruct d.
Qed.

Lemma effect_recording base from m h exposed h' exposed' :
  separated h exposed -> m ∈ exposed -> recording base from m h -> effect h exposed h' exposed' ->
  recording base from m h'.
Proof.
  intros Hsep Hm (o & d & Ho & Hf & Hd & Hrec) He. pose proof (sep_locs _ _ Hsep _ _ Ho) as Hw.
  destruct He as [|uc|a r c fr|new o' Hw'|n o' Hn Hno|n o' dn mu Hn Hno Hnd].
  - by exists o, d.
  - eapply (recording_kept base from m h _ o o d); try done. intros l Hl. cbn.
    by rewrite lookup_app_l by by eapply within_locs.
  - eapply (recording_kept base from m h _ o o d); try done; [by apply lookup_app_l_Some|].
    intros l Hl. cbn. by rewrite lookup_app_l by by eapply within_locs.
  - eapply (recording_kept base from m h _ o o d); try done; [by apply lookup_app_l_Some|].
    intros l Hl. cbn. by rewrite lookup_app_l by by eapply within_locs.
  - destruct (decide (n = m)) as [->|Hne].
    + simplify_eq. eapply (recording_kept base from m h _ o
        (withReferences o (immutableReferences o ++ [length (imms h)])) d); try done.
      cbn. apply list_lookup_insert_eq. by eapply lookup_lt_Some.
    + eapply (recording_kept base from m h _ o o d); try done. cbn. by rewrite list_lookup_insert_ne.
  - destruct (decide (n = m)) as [->|Hne].
    + simplify_eq. do 2 eexists. split_and!.
      * cbn. apply list_lookup_insert_eq. by eapply lookup_lt_Some.
      * done.
      * eapply mutated_content; [done|by eapply sep_own|done].
      * by apply recordsChangesFrom_mutate.
    + eapply (recording_kept base from m h _ o o d); try done; [cbn; by rewrite list_lookup_insert_ne|].
      assert (Hdis : locsOf o ## locsOf o') by by apply (sep_disjoint _ _ Hsep m _ n).
      intros l Hl. unfold locsOf in Hdis. cbn. rewrite !list_lookup_insert_ne; [done|set_solver..].
Qed.

Lemma program_recording base from m h exposed h' exposed' :
  program (h, exposed) (h', exposed') -> separated h exposed -> m ∈ exposed ->
  recording base from m h -> recording base from m h'.
Proof.
  intros Hprog Hsep Hm Hrec.
  apply (program_induction (fun he => m ∈ he.2 /\ recording base from m he.1)) in Hprog as [[_ ?] _]; try done.
  intros h1 E1 h2 E2 Hsep1 [Hm1 Hr1] He. cbn in *.
  split; [by eapply effect_exposed|by eapply effect_recording].
Qed.

Lemma clone_recording i h m h' :
  CloneMutableRecordingChanges i h = (Ret m, h') ->
  exists x d, imms h !! i = Some x /\ isInvalidated x = false /\ content h (imm_mutable x) = Some d /\
    recording d (imm_mutable x) m h' /\ imms h' !! i = Some x /\ content h' (imm_mutable x) = Some d.
Proof.
  intros Hrun. unfold CloneMutableRecordingChanges in Hrun.
  apply bind_Ret_inv in Hrun as (x & h1 & Hx & Hrun). unfold getImm, bind, get, deref in Hx.
  destruct (imms h !! i) as [x'|] eqn:Hi; [|done]. injection Hx as -> <-.
  apply bind_Ret_inv in Hrun as ([] & h1' & Hg & Hrun). unfold guard_err in Hg.
  destruct (isInvalidated x) eqn:Hv; [done|]. injection Hg as <-.
  apply bind_Ret_inv in Hrun as (d & h2 & Hd & Hrun). unfold load, bind, get, deref in Hd.
  destruct (content h (imm_mutable x)) as [d'|] eqn:Hcon; [|done]. injection Hd as -> <-.
  rewrite allocDiff_run in Hrun. injection Hrun as <- <-. exists x, d. split_and!; try done.
  - do 2 eexists. split_and!.
    + cbn. by rewrite lookup_app_r, Nat.sub_diag.
    + done.
    + unfold content. cbn [muts maps]. rewrite (lookup_app_r (muts h)), Nat.sub_diag by lia. cbn.
      rewrite !lookup_app_r, Nat.sub_diag by lia.
      by replace (S (length (maps h)) - length (maps h))%nat with 1%nat by lia.
    + by exists ∅.
  - unfold content in *. cbn. destruct (muts h !! imm_mutable x) as [o|] eqn:Ho; [|done]. cbn in *.
    rewrite (lookup_app_l_Some _ _ _ _ Ho). cbn.
    destruct (maps h !! o_toAdd o) as [a|] eqn:Ha; [|done]. cbn in *.
    destruct (maps h !! o_toRemove o) as [r|] eqn:Hr; [|done]. cbn in *.
    by rewrite (lookup_app_l_Some _ _ _ _ Ha), (lookup_app_l_Some _ _ _ _ Hr).
Qed.

Lemma getImm_run i x h : imms h !! i = Some x -> getImm i h = (Ret x, h).
Proof. intros Hx. unfold getImm, bind, get, deref. by rewrite Hx. Qed.
Lemma getMut_run m o h : muts h !! m = Some o -> getMut m h = (Ret o, h).
Proof. intros Ho. unfold getMut, bind, get, deref. by rewrite Ho. Qed.
Lemma load_run m d h : content h m = Some d -> load m h = (Ret d, h).
Proof. intros Hd. unfold load, bind, get, deref. by rewrite Hd. Qed.

Lemma recording_diffs this other h x y d :
  imms h !! this = Some x -> isInvalidated x = false ->
  imms h !! other = Some y -> isInvalidated y = false ->
  content h (imm_mutable x) = Some d -> wf_diff d ->
  recording d (imm_mutable x) (imm_mutable y) h ->
  (exists result h', DiffFromChanged this other h = (Ret (Some result), h') /\
     imm_DiffFrom this other h = (Ret result, h')) \/
  (exists e e', DiffFromChanged this other h = (Err e, h) /\ imm_DiffFrom this other h = (Err e', h)).
Proof.
  intros Hx Hvx Hy Hvy Hd Hwf (o & d' & Ho & Hf & Hd' & Hrec). pose proof Hrec as (c & Hc & _).
  assert (Hoc : o_changed o = Some c).
  { unfold content in Hd'. rewrite Ho in Hd'. cbn in Hd'.
    destruct (maps h !! o_toAdd o); [|done]. cbn in Hd'. destruct (maps h !! o_toRemove o); [|done].
    cbn in Hd'. by simplify_eq. }
  pose proof (changed_suffices d d' c newMutableUTXODiff Hwf Hrec Hc) as Hsame.
  assert (HC : DiffFromChanged this other h
    = (result <- fromDiff (diffFrom (restrictToOutpoints d c) (restrictToOutpoints d' c) newMutableUTXODiff).1 ;;
       i <- handOut result ;; ret (Some i)) h).
  { unfold DiffFromChanged. erewrite bind_Ret by by apply getImm_run. erewrite bind_Ret by by apply getImm_run.
    rewrite Hvx, Hvy. erewrite bind_Ret by done. erewrite bind_Ret by by apply getMut_run.
    rewrite Hoc, Hf, bool_decide_eq_true_2 by done. cbn [negb].
    erewrite bind_Ret by by apply load_run. by erewrite bind_Ret by by apply load_run. }
  assert (HF : imm_DiffFrom this other h
    = (result <- fromDiff (diffFrom d d' newMutableUTXODiff).1 ;; handOut result) h).
  { unfold imm_DiffFrom, behind. erewrite bind_Ret.
    2: { erewrite bind_Ret by by apply getImm_run. by rewrite Hvx. }
    unfold mud_DiffFrom. erewrite bind_Ret by by apply getImm_run.
    erewrite bind_Ret by by apply load_run. by erewrite bind_Ret by by apply load_run. }
  rewrite HC, HF. unfold bind. clear HC HF.
  unfold same_outcome, fromDiff in *.
  destruct (diffFrom (restrictToOutpoints d c) _ _).1 as [r|e|], (diffFrom d d' _).1 as [r'|e'|]; try done.
  - subst r'. left. rewrite handOut_run. eauto.
  - right. eauto.
Qed.

End Invariant.

(** ** Concrete programs *)

Section Run.
Context `{Crypto} {MR : MapRange}.

Fixpoint runCalls (cs : list call) (he : heap * gset nat) : heap * gset nat :=
  match cs with
  | [] => he
  | c :: cs => runCalls cs ((perform c he.1).2, exposes (perform c he.1).1 he.2)
  end.

Fixpoint allCallable (cs : list call) (he : heap * gset nat) : Prop :=
  match cs with
  | [] => True
  | c :: cs => callable he.1 he.2 c /\
               allCallable cs ((perform c he.1).2, exposes (perform c he.1).1 he.2)
  end.

Lemma runCalls_program cs he : allCallable cs he -> program he (runCalls cs he).
Proof.
  revert he. induction cs as [|c cs IH]; intros [h E] Hc; [constructor|]. cbn in *.
  destruct Hc as [Hc Hcs]. eapply program_call; [exact Hc|apply surjective_pairing|]. by apply IH.
Qed.
End Run.

#[local] Existing Instance toyCrypto.
#[local] Existing Instance mapToListRange.

(** A transaction that creates one coin. *)
Definition mintCoin (k : Z) : DomainTransaction :=
  MkTransaction 0 [] [MkOutput 10 (MkScriptPublicKey [zb k] 0)] 0 SubnetworkIDNative 0 [] 0 0 (Some [zb k]).

(** A mutable diff with one coin, and what follows when a view of it is handed out. *)
Definition oneCoin : heap * gset nat :=
  runCalls [CallNewMutableUTXODiff; CallAddTransaction 0 (mintCoin 1) 5 false] (emptyHeap, ∅).
Definition oneView : heap * gset nat := runCalls [CallToImmutable 0] oneCoin.

Lemma oneCoin_program : program (emptyHeap, ∅) oneCoin.
Proof. apply runCalls_program. cbn [allCallable callable]. split_and!; [done| |done]. cbn. set_solver. Qed.


(** A recording clone of the view, changed, with a view of its own. *)
Definition cloned : heap := (CloneMutableRecordingChanges 0 oneView.1).2.
Definition twoViews : heap * gset nat :=
  runCalls [CallAddTransaction 1 (mintCoin 2) 6 false; CallToImmutable 1] (cloned, {[ 1%nat ]} ∪ oneView.2).


(** ** Views that do change *)

(** A reversed view uses the maps of the diff it was made from and is not registered
    with it: changing that diff changes the view and does not invalidate it. *)
Theorem reversed_view_changes :
  let before := runCalls [CallReversed 0] oneView in
  let after := runCalls [CallAddTransaction 0 (mintCoin 2) 6 false] before in
  imms before.1 !! 1%nat = Some (MkImm 1 false) /\ imms after.1 !! 1%nat = Some (MkImm 1 false) /\
  content before.1 1 <> content after.1 1.
Proof. split_and!; [vm_compute; reflexivity..|]. vm_compute. discriminate. Qed.

(** [DiffFromChanged] trusts that [this] has not changed since the clone, because
    changing it invalidates its views; but a view taken after the change is valid.
    The diff is cloned, then changed, then a new view of it is compared with the
    clone: the shortcut finds no difference, [DiffFrom] does. *)
Theorem DiffFromChanged_misses_later_changes :
  let h := (runCalls [CallAddTransaction 0 (mintCoin 2) 6 false; CallToImmutable 0; CallToImmutable 1]
              (cloned, {[ 1%nat ]} ∪ oneView.2)).1 in
  exists k h' k' h'', DiffFromChanged 1 2 h = (Ret (Some k), h') /\
    option_map (fun d => (toAdd d, toRemove d)) (content h' 2) = Some (∅, ∅) /\
    imm_DiffFrom 1 2 h = (Ret k', h'') /\
    option_map (fun d => (toAdd d, toRemove d)) (content h'' 2) = Some (∅, coinAt 2 6) /\
    imms h' !! k = Some (MkImm 2 false) /\ imms h'' !! k' = Some (MkImm 2 false).
Proof. do 4 eexists. split_and!; vm_compute; reflexivity. Qed.

(** An invalidated view is still read when it is the argument. *)
Theorem invalidated_argument_read :
  let h := (runCalls [CallAddTransaction 0 (mintCoin 2) 6 false; CallNewUTXODiff] oneView).1 in
  imms h !! 0%nat = Some (MkImm 0 true) /\
  exists i h', imm_WithDiff 1 0 h = (Ret i, h').
Proof. cbv zeta. split; [vm_compute; reflexivity|]. do 2 eexists. vm_compute. reflexivity. Qed.
