(* ===== verification/UtxoIterator.v ===== *)
(** * UTXO set iterators

    The iterators of [src/domain/consensus/utils/utxo/utxo_iterator.go] and
    [utxo_iterator_with_diff.go], behind the interface [ReadOnlyUTXOSetIterator].
    The iterator with a diff runs over any iterator that implements the interface;
    what it relies on are the laws of [IteratorLaws], which the iterator over a
    collection satisfies.

    The diff of an iterator is kept by value: it is an immutable view, and [UtxoRefs]
    shows that a valid view keeps its contents. *)

From S2P Require Import Prelude ScriptError Transaction Crypto Sha256 Serialization SigHash.
From S2P Require Import UtxoDiff UtxoAlgebra.

Abbreviation utxoOutpointEntryPair := (DomainOutpoint * UTXOEntry)%type.

Inductive iteratorError : Type :=
| ErrClosedIterator
| ErrBaseIterator.

Class ReadOnlyUTXOSetIterator (I : Type) : Type := {
  it_First : M I iteratorError bool;
  it_Next : M I iteratorError bool;
  it_Get : M I iteratorError utxoOutpointEntryPair;
  it_Close : M I iteratorError unit
}.

(** ** The iterator over a collection *)

Record utxoCollectionIterator : Type := MkIterator {
  index_ : Z;
  pairs : list utxoOutpointEntryPair;
  uci_isClosed : bool
}.

Section CollectionIterator.
Context {MR : MapRange}.

Definition Iterator (uc : utxoCollection) : utxoCollectionIterator := MkIterator (-1) (range 0 uc) false.
End CollectionIterator.

Definition uci_First : M utxoCollectionIterator iteratorError bool :=
  uci <- get ;;
  if uci_isClosed uci then panic
  else
    modify (fun uci => MkIterator 0 (pairs uci) (uci_isClosed uci)) ;;;
    gets (fun uci => 0 <? len (pairs uci)).

Definition uci_Next : M utxoCollectionIterator iteratorError bool :=
  uci <- get ;;
  if uci_isClosed uci then panic
  else
    modify (fun uci => MkIterator (index_ uci + 1) (pairs uci) (uci_isClosed uci)) ;;;
    gets (fun uci => index_ uci <? len (pairs uci)).

Definition uci_Get : M utxoCollectionIterator iteratorError utxoOutpointEntryPair :=
  uci <- get ;;
  guard_err (uci_isClosed uci) ErrClosedIterator ;;;
  index (pairs uci) (index_ uci).

Definition uci_Close : M utxoCollectionIterator iteratorError unit :=
  uci <- get ;;
  guard_err (uci_isClosed uci) ErrClosedIterator ;;;
  modify (fun uci => MkIterator (index_ uci) [] true).

#[export] Instance utxoCollectionIterator_iterator : ReadOnlyUTXOSetIterator utxoCollectionIterator :=
  {| it_First := uci_First; it_Next := uci_Next; it_Get := uci_Get; it_Close := uci_Close |}.

(** ** The iterator with a diff *)

Record readOnlyUTXOIteratorWithDiff (I : Type) : Type := MkWithDiff {
  (** nil when the iterator is closed *)
  baseIterator : option I;
  it_diff : mutableUTXODiff;
  current : option utxoOutpointEntryPair;
  currentErr : option iteratorError;
  toAddIterator : utxoCollectionIterator;
  rid_isClosed : bool
}.
Arguments MkWithDiff {I}.
Arguments baseIterator {I}.
Arguments it_diff {I}.
Arguments current {I}.
Arguments currentErr {I}.
Arguments toAddIterator {I}.
Arguments rid_isClosed {I}.

Section WithDiff.
Context {I : Type} `{ReadOnlyUTXOSetIterator I} {MR : MapRange}.

Abbreviation iteratorM A := (M (readOnlyUTXOIteratorWithDiff I) iteratorError A).

Definition newWithDiff (base : I) (d : mutableUTXODiff) : readOnlyUTXOIteratorWithDiff I :=
  MkWithDiff (Some base) d None None (Iterator (toAdd d)) false.

(** The iterator is given as a plain one, or as one that already has a diff.  The
    base iterator and the diff of a closed one are nil. *)
Definition IteratorWithDiff (iterator : I + readOnlyUTXOIteratorWithDiff I) (d : mutableUTXODiff)
  : outcome diffError (readOnlyUTXOIteratorWithDiff I) :=
  match iterator with
  | inl base => Ret (newWithDiff base d)
  | inr iteratorWithDiff =>
      match baseIterator iteratorWithDiff with
      | None => Panic
      | Some base =>
          match withDiff (it_diff iteratorWithDiff) d with
          | Ret combinedDiff => Ret (newWithDiff base combinedDiff)
          | Err e => Err e
          | Panic => Panic
          end
      end
  end.

(** A method of the base iterator; nil panics. *)
Definition onBase {A} (m : M I iteratorError A) : iteratorM A := fun r =>
  match baseIterator r with
  | None => (Panic, r)
  | Some base =>
      let '(o, base') := m base in
      (o, MkWithDiff (Some base') (it_diff r) (current r) (currentErr r) (toAddIterator r) (rid_isClosed r))
  end.

Definition onToAdd {A} (m : M utxoCollectionIterator iteratorError A) : iteratorM A :=
  zoom toAddIterator (fun it r =>
    MkWithDiff (baseIterator r) (it_diff r) (current r) (currentErr r) it (rid_isClosed r)) m.

(** The three results of [Get], stored. *)
Definition setCurrent (res : utxoOutpointEntryPair + iteratorError) : iteratorM unit :=
  modify (fun r => match res with
    | inl p => MkWithDiff (baseIterator r) (it_diff r) (Some p) None (toAddIterator r) (rid_isClosed r)
    | inr e => MkWithDiff (baseIterator r) (it_diff r) None (Some e) (toAddIterator r) (rid_isClosed r)
    end).

Definition setErr (e : iteratorError) : iteratorM unit :=
  modify (fun r => MkWithDiff (baseIterator r) (it_diff r) (current r) (Some e) (toAddIterator r) (rid_isClosed r)).

(** Whether the diff removes the current pair; without an entry its score cannot be
    asked for. *)
Definition currentRemoved : iteratorM bool :=
  r <- get ;;
  match current r with
  | Some (outpoint, entry) =>
      ret (containsWithDAAScore (toRemove (it_diff r)) outpoint (blockDAAScore entry))
  | None => panic
  end.

(** The loop of [Next] over the base iterator. *)
Fixpoint nextBase (fuel : nat) : iteratorM bool :=
  match fuel with
  | O => panic
  | S fuel =>
      ok <- onBase it_Next ;;
      if ok : bool then
        res <- onBase (try it_Get) ;;
        setCurrent res ;;;
        removed <- currentRemoved ;;
        if negb removed then ret true else nextBase fuel
      else ret false
  end.

Definition rid_Next (fuel : nat) : iteratorM bool :=
  r <- get ;;
  if rid_isClosed r then panic
  else
    found <- nextBase fuel ;;
    if found : bool then ret true
    else
      ok <- onToAdd it_Next ;;
      if ok : bool then
        res <- onToAdd (try it_Get) ;;
        setCurrent res ;;;
        ret true
      else ret false.

Definition rid_First (fuel : nat) : iteratorM bool :=
  r <- get ;;
  if rid_isClosed r then panic
  else
    baseNotEmpty <- onBase it_First ;;
    closed <- onToAdd (try it_Close) ;;
    match closed with
    | inr e => setErr e ;;; ret true
    | inl _ =>
        r <- get ;;
        onToAdd (fun _ => (Ret tt, Iterator (toAdd (it_diff r)))) ;;;
        let toAddEmpty := bool_decide (size (toAdd (it_diff r)) = 0%nat) in
        if negb baseNotEmpty then
          if toAddEmpty then ret false else rid_Next fuel
        else
          res <- onBase (try it_Get) ;;
          setCurrent res ;;;
          removed <- currentRemoved ;;
          if removed : bool then rid_Next fuel else ret true
    end.

(** Before [First] there is no current pair. *)
Definition rid_Get : iteratorM (option utxoOutpointEntryPair) :=
  r <- get ;;
  guard_err (rid_isClosed r) ErrClosedIterator ;;;
  match currentErr r with
  | Some e => throw e
  | None => ret (current r)
  end.

Definition rid_Close : iteratorM unit :=
  r <- get ;;
  guard_err (rid_isClosed r) ErrClosedIterator ;;;
  modify (fun r => MkWithDiff (baseIterator r) (it_diff r) (current r) (currentErr r) (toAddIterator r) true) ;;;
  onBase it_Close ;;;
  onToAdd it_Close ;;;
  modify (fun r => MkWithDiff None (it_diff r) None None (toAddIterator r) true).

(** The way the callers go through an iterator. *)
Fixpoint collect (fuel : nat) (ok : bool) : iteratorM (list utxoOutpointEntryPair) :=
  match fuel with
  | O => panic
  | S fuel' =>
      if ok then
        p <- rid_Get ;;
        ok <- rid_Next fuel ;;
        rest <- collect fuel' ok ;;
        ret (match p with Some p => p :: rest | None => rest end)
      else ret []
  end.

Definition iterate (fuel : nat) : iteratorM (list utxoOutpointEntryPair) :=
  ok <- rid_First fuel ;; collect fuel ok.
End WithDiff.

(** ** Laws *)

(** What an open iterator promises: [First] moves to the first of its [contents],
    [Next] to the first of the [upcoming] pairs, and both tell whether there is one. *)
Class IteratorLaws (I : Type) `{ReadOnlyUTXOSetIterator I} : Type := {
  isOpen : I -> Prop;
  contents : I -> list utxoOutpointEntryPair;
  upcoming : I -> list utxoOutpointEntryPair;
  positioned (it it' : I) (l : list utxoOutpointEntryPair) : Prop :=
    isOpen it' /\ contents it' = contents it /\ upcoming it' = tail l /\
    forall p, head l = Some p -> it_Get it' = (Ret p, it');
  First_law : forall it, isOpen it ->
    exists it', it_First it = (Ret (0 <? len (contents it)), it') /\ positioned it it' (contents it);
  Next_law : forall it, isOpen it ->
    exists it', it_Next it = (Ret (0 <? len (upcoming it)), it') /\ positioned it it' (upcoming it)
}.

Definition uci_upcoming (uci : utxoCollectionIterator) : list utxoOutpointEntryPair :=
  drop (Z.to_nat (index_ uci + 1)) (pairs uci).

Lemma drop_tail {A} n (l : list A) : tail (drop n l) = drop (S n) l.
Proof. revert l. induction n as [|n IH]; intros [|x l]; try done. cbn. by rewrite IH. Qed.

Lemma uci_Get_run uci p :
  uci_isClosed uci = false -> 0 <= index_ uci -> head (drop (Z.to_nat (index_ uci)) (pairs uci)) = Some p ->
  uci_Get uci = (Ret p, uci).
Proof.
  intros Ho Hi Hp. unfold uci_Get, bind, get, guard_err. rewrite Ho. unfold index.
  rewrite head_lookup, lookup_drop, Nat.add_0_r in Hp.
  rewrite (proj2 (Z.leb_le 0 _)) by done. by rewrite Hp.
Qed.

Lemma uci_First_law uci :
  uci_isClosed uci = false ->
  uci_First uci = (Ret (0 <? len (pairs uci)), MkIterator 0 (pairs uci) false).
Proof. intros Ho. unfold uci_First, bind, get. rewrite Ho. cbn. by rewrite Ho. Qed.

Lemma uci_Next_law uci :
  uci_isClosed uci = false -> -1 <= index_ uci ->
  uci_Next uci = (Ret (0 <? len (uci_upcoming uci)), MkIterator (index_ uci + 1) (pairs uci) false).
Proof.
  intros Ho Hi. unfold uci_Next, bind, get. rewrite Ho. cbn. rewrite Ho. unfold gets. cbn. do 2 f_equal.
  unfold uci_upcoming, len. rewrite length_drop.
  destruct (Z.ltb_spec (index_ uci + 1) (Z.of_nat (length (pairs uci)))); symmetry;
    [apply Z.ltb_lt|apply Z.ltb_ge]; lia.
Qed.

#[export] Program Instance utxoCollectionIterator_laws : IteratorLaws utxoCollectionIterator := {|
  isOpen uci := uci_isClosed uci = false /\ -1 <= index_ uci;
  contents := pairs;
  upcoming := uci_upcoming
|}.
Next Obligation.
  intros uci [Ho _]. eexists. split; [by apply uci_First_law|]. split; [cbn; split; [done|lia]|].
  split; [done|]. split; [unfold uci_upcoming; cbn; by destruct (pairs uci)|].
  intros p Hp. by apply uci_Get_run.
Qed.
Next Obligation.
  intros uci [Ho Hi]. eexists. split; [by apply uci_Next_law|]. split; [cbn; split; [done|lia]|].
  split; [done|]. split.
  - unfold uci_upcoming. cbn [index_ pairs]. rewrite drop_tail. f_equal. lia.
  - intros p Hp. apply uci_Get_run; [done|cbn; lia|done].
Qed.

(** ** What an iterator with a diff yields *)

Section Yields.
Context {I : Type} `{IteratorLaws I} {MR : MapRange}.

Definition kept (d : mutableUTXODiff) (l : list utxoOutpointEntryPair) : list utxoOutpointEntryPair :=
  List.filter (fun '(o, e) => negb (containsWithDAAScore (toRemove d) o (blockDAAScore e))) l.

Lemma kept_cons d o e l :
  kept d ((o, e) :: l)
  = if containsWithDAAScore (toRemove d) o (blockDAAScore e) then kept d l else (o, e) :: kept d l.
Proof. cbn. by destruct (containsWithDAAScore _ _ _). Qed.

Lemma kept_length d l : (length (kept d l) <= length l)%nat.
Proof. induction l as [|[o e] l IH]; [done|]. rewrite kept_cons. case_match; cbn [length]; lia. Qed.

Lemma kept_elem d l o e :
  (o, e) ∈ kept d l <-> (o, e) ∈ l /\ containsWithDAAScore (toRemove d) o (blockDAAScore e) = false.
Proof. unfold kept. rewrite !list_elem_of_In, filter_In, negb_true_iff. done. Qed.

Lemma kept_NoDup d l : NoDup l -> NoDup (kept d l).
Proof.
  induction l as [|[o e] l IH]; intros Hl; [done|]. apply list.NoDup_cons in Hl as [Hn Hl].
  rewrite kept_cons. case_match; [by apply IH|]. apply list.NoDup_cons. split; [|by apply IH].
  by rewrite kept_elem; intros [? _].
Qed.

(** An iterator in use: what it will still yield, and a bound on the steps. *)
Definition going (d : mutableUTXODiff) (todo : list utxoOutpointEntryPair) (n : nat)
    (r : readOnlyUTXOIteratorWithDiff I) : Prop :=
  exists base, baseIterator r = Some base /\ isOpen base /\ it_diff r = d /\ rid_isClosed r = false /\
    isOpen (toAddIterator r) /\ todo = kept d (upcoming base) ++ uci_upcoming (toAddIterator r) /\
    (length (upcoming base) + length (uci_upcoming (toAddIterator r)) <= n)%nat.

Definition holds (p : utxoOutpointEntryPair) (r : readOnlyUTXOIteratorWithDiff I) : Prop :=
  current r = Some p /\ currentErr r = None.

Lemma onBase_run {A} (m : M I iteratorError A) r base o base' :
  baseIterator r = Some base -> m base = (o, base') ->
  onBase m r = (o, MkWithDiff (Some base') (it_diff r) (current r) (currentErr r) (toAddIterator r) (rid_isClosed r)).
Proof. intros Hb Hm. unfold onBase. by rewrite Hb, Hm. Qed.

Lemma nextBase_spec fuel d (base : I) cur err a :
  isOpen base -> (length (upcoming base) < fuel)%nat ->
  let r := MkWithDiff (Some base) d cur err a false in
  match kept d (upcoming base) with
  | [] => exists base' cur' err', nextBase fuel r = (Ret false, MkWithDiff (Some base') d cur' err' a false) /\
            isOpen base' /\ upcoming base' = []
  | p :: rest => exists base', nextBase fuel r = (Ret true, MkWithDiff (Some base') d (Some p) None a false) /\
            isOpen base' /\ kept d (upcoming base') = rest /\ (length (upcoming base') < length (upcoming base))%nat
  end.
Proof.
  revert base cur err. induction fuel as [|fuel IH]; intros base cur err Ho Hf r; [lia|].
  destruct (Next_law base Ho) as (base1 & Hnext & Ho1 & _ & Hup & Hget).
  cbn [nextBase]. unfold r. erewrite bind_Ret by (eapply (onBase_run _ _ base); [done|exact Hnext]).
  cbn [it_diff current currentErr toAddIterator rid_isClosed].
  destruct (upcoming base) as [|[o e] l] eqn:Hl.
  { by exists base1, cur, err. }
  rewrite kept_cons.
  specialize (Hget (o, e) eq_refl). rewrite len_cons.
  rewrite (proj2 (Z.ltb_lt 0 _)) by (pose proof (len_nonneg l); lia).
  erewrite bind_Ret by (eapply onBase_run; [done|unfold try; by rewrite Hget]).
  erewrite bind_Ret by done. erewrite bind_Ret by done.
  cbn [it_diff toRemove current currentErr toAddIterator rid_isClosed baseIterator fst snd].
  destruct (containsWithDAAScore _ _ _); cbn [negb].
  - specialize (IH base1 (Some (o, e)) None Ho1). rewrite Hup in IH. cbn [tail] in IH.
    cbn in Hf. specialize (IH ltac:(lia)).
    destruct (kept d l) as [|p rest]; [done|]. destruct IH as (base' & ? & ? & ? & ?).
    exists base'. split_and!; [done..|]. cbn. lia.
  - exists base1. rewrite Hup. split_and!; [done..|]. cbn. lia.
Qed.

Lemma rid_Next_found fuel b d cur err a found r' :
  nextBase fuel (MkWithDiff b d cur err a false) = (Ret found, r') ->
  rid_Next fuel (MkWithDiff b d cur err a false)
  = (if found : bool then ret true
     else
       ok <- onToAdd it_Next ;;
       if ok : bool then
         res <- onToAdd (try it_Get) ;;
         setCurrent res ;;;
         ret true
       else ret false) r'.
Proof. intros Hrun. unfold rid_Next, bind at 1, get. cbn [rid_isClosed]. by rewrite (bind_Ret _ _ _ _ _ Hrun). Qed.

Lemma rid_Next_spec fuel d todo n r :
  going d todo n r -> (n < fuel)%nat ->
  match todo with
  | [] => exists r', rid_Next fuel r = (Ret false, r')
  | p :: rest => exists r', rid_Next fuel r = (Ret true, r') /\ holds p r' /\ going d rest (pred n) r'
  end.
Proof.
  intros (base & Hb & Ho & Hd & Hcl & Ha & -> & Hn) Hf. destruct r as [b d' cur err a cl].
  cbn [baseIterator it_diff rid_isClosed toAddIterator] in *. subst.
  pose proof (nextBase_spec fuel d base cur err a Ho ltac:(lia)) as Hnb.
  destruct (kept d (upcoming base)) as [|p rest].
  - destruct Hnb as (base' & cur' & err' & Hrun & Ho' & Hup). cbn [app].
    rewrite (rid_Next_found _ _ _ _ _ _ _ _ Hrun).
    destruct Ha as [Hac Hai].
    erewrite bind_Ret by (unfold onToAdd, zoom; cbn [toAddIterator it_Next utxoCollectionIterator_iterator];
      by rewrite uci_Next_law).
    assert (Hnext : uci_upcoming (MkIterator (index_ a + 1) (pairs a) false) = tail (uci_upcoming a)).
    { unfold uci_upcoming. cbn [index_ pairs]. rewrite drop_tail. f_equal. lia. }
    destruct (uci_upcoming a) as [|p l] eqn:Hl; [by eexists|].
    rewrite len_cons, (proj2 (Z.ltb_lt 0 _)) by (pose proof (len_nonneg l); lia).
    erewrite bind_Ret.
    2: { unfold onToAdd, zoom, try. cbn [toAddIterator it_Get utxoCollectionIterator_iterator].
         rewrite (uci_Get_run _ p); [done|done|cbn; lia|]. cbn [index_ pairs]. fold (uci_upcoming a). by rewrite Hl. }
    erewrite bind_Ret by done. eexists. split; [done|]. split; [done|].
    exists base'. split_and!; try done; [cbn; split; [done|lia]| |].
    + cbn [toAddIterator]. by rewrite Hup, Hnext.
    + cbn [toAddIterator]. rewrite Hup, Hnext. cbn in *. lia.
  - destruct Hnb as (base' & Hrun & Ho' & Hk & Hlen). cbn [app]. rewrite (rid_Next_found _ _ _ _ _ _ _ _ Hrun).
    eexists. split; [done|]. split; [done|]. exists base'. split_and!; try done; cbn; [by rewrite Hk|lia].
Qed.

Lemma collect_spec fuel d todo n r p :
  going d todo n r -> holds p r -> (n + 1 < fuel)%nat ->
  exists r', collect fuel true r = (Ret (p :: todo), r').
Proof.
  revert todo n r p. induction fuel as [|fuel IH]; intros todo n r p Hg [Hc He] Hf; [lia|].
  cbn [collect]. erewrite bind_Ret.
  2: { unfold rid_Get. erewrite bind_Ret by done. destruct Hg as (base & _ & _ & _ & Hcl & _).
       rewrite Hcl. erewrite bind_Ret by done. rewrite He. done. }
  pose proof (rid_Next_spec (S fuel) d todo n r Hg ltac:(lia)) as Hnext.
  destruct todo as [|q rest].
  - destruct Hnext as (r' & Hrun). rewrite (bind_Ret _ _ _ _ _ Hrun).
    destruct fuel; [lia|]. cbn [collect]. rewrite Hc. by eexists.
  - destruct Hnext as (r' & Hrun & Hq & Hg'). rewrite (bind_Ret _ _ _ _ _ Hrun).
    destruct (IH _ _ _ q Hg' Hq) as (r'' & Hrun'); [|rewrite (bind_Ret _ _ _ _ _ Hrun'), Hc; by eexists].
    destruct Hg as (base & _ & _ & _ & _ & _ & Ht & Hn).
    assert (0 < n)%nat; [|lia]. apply (f_equal length) in Ht. rewrite length_app in Ht. cbn [length] in Ht.
    pose proof (kept_length d (upcoming base)). lia.
Qed.

(** The pairs of [S] the diff keeps, and those it adds, are the pairs of [T]. *)
Lemma kept_added S T d base :
  is_diff S T d -> base ≡ₚ map_to_list S -> kept d base ++ range 0 (toAdd d) ≡ₚ map_to_list T.
Proof.
  intros Hd Hb. rewrite range_perm.
  assert (Hcell : forall o, (toAdd d !! o, toRemove d !! o) = cellBetween (S !! o) (T !! o)) by apply Hd.
  apply NoDup_Permutation.
  - apply list.NoDup_app. split_and!.
    + apply kept_NoDup. rewrite Hb. apply NoDup_map_to_list.
    + intros [o e] Hk Ha. apply kept_elem in Hk as [Hk Hn]. rewrite Hb in Hk. apply elem_of_map_to_list in Hk, Ha.
      specialize (Hcell o). rewrite Hk, Ha in Hcell. unfold cellBetween in Hcell.
      destruct (decide _); [done|]. injection Hcell as _ Hr. unfold containsWithDAAScore in Hn.
      rewrite Hr, Z.eqb_refl in Hn. done.
    + apply NoDup_map_to_list.
  - apply NoDup_map_to_list.
  - intros [o e]. rewrite elem_of_app, kept_elem, Hb, (elem_of_map_to_list S), (elem_of_map_to_list T), (elem_of_map_to_list (toAdd d)).
    specialize (Hcell o). unfold cellBetween, containsWithDAAScore in *.
    destruct (decide (S !! o = T !! o)) as [Heq|Hne]; injection Hcell as -> ->; [rewrite Heq; naive_solver|].
    split; [|by right]. intros [[HS Hn]|HT]; [|done]. rewrite HS, Z.eqb_refl in Hn. done.
Qed.

Lemma fresh_toAdd (uc : utxoCollection) : uci_upcoming (Iterator uc) = range 0 uc.
Proof. done. Qed.

(** What [First] leaves to be yielded. *)
Definition after_first (fuel : nat) (d : mutableUTXODiff) (l : list utxoOutpointEntryPair) (ok : bool)
    (r : readOnlyUTXOIteratorWithDiff I) : Prop :=
  if ok then exists p todo n, kept d l ++ range 0 (toAdd d) = p :: todo /\ holds p r /\ going d todo n r /\
              (n + 1 < fuel)%nat
  else kept d l ++ range 0 (toAdd d) = [].

Lemma range_size (uc : utxoCollection) : length (range 0 uc) = size uc.
Proof. rewrite range_perm. apply length_map_to_list. Qed.

(** [First] falls back on [Next] when the first pair of the base is removed, or when
    there is none. *)
Lemma first_by_next fuel d l r n :
  going d (kept d l ++ range 0 (toAdd d)) n r -> (n + 1 < fuel)%nat ->
  exists b r', rid_Next fuel r = (Ret b, r') /\ after_first fuel d l b r'.
Proof.
  intros Hg Hn. pose proof (rid_Next_spec fuel d _ n r Hg ltac:(lia)) as Hs. unfold after_first.
  destruct (kept d l ++ range 0 (toAdd d)) as [|p rest].
  - destruct Hs as (r' & Hs). by exists false, r'.
  - destruct Hs as (r' & Hs & Hh & Hg'). exists true, r'. split; [done|]. exists p, rest. eexists.
    split_and!; [done..|]. lia.
Qed.

Lemma rid_First_spec fuel d (base : I) :
  isOpen base -> (length (contents base) + size (toAdd d) + 1 < fuel)%nat ->
  exists b r, rid_First fuel (newWithDiff base d) = (Ret b, r) /\ after_first fuel d (contents base) b r.
Proof.
  intros Ho Hf. destruct (First_law base Ho) as (base1 & Hfirst & Ho1 & _ & Hup & Hget).
  assert (Hg : forall c e, going d (kept d (tail (contents base)) ++ range 0 (toAdd d))
    (length (tail (contents base)) + size (toAdd d)) (MkWithDiff (Some base1) d c e (Iterator (toAdd d)) false)).
  { intros c e. exists base1. cbn [toAddIterator]. rewrite Hup, fresh_toAdd, range_size. by split_and!. }
  unfold rid_First, newWithDiff. erewrite bind_Ret by done. cbn [rid_isClosed].
  erewrite bind_Ret by (eapply (onBase_run _ _ base); [done|exact Hfirst]).
  erewrite bind_Ret by done. cbv iota. erewrite bind_Ret by done. erewrite bind_Ret by done.
  cbn [it_diff current currentErr rid_isClosed baseIterator].
  destruct (contents base) as [|[o e] l] eqn:Hl.
  - cbn [len length Z.of_nat Z.ltb Z.compare negb]. case_bool_decide as Hs.
    + do 2 eexists. split; [done|]. cbn. apply length_zero_iff_nil. by rewrite range_size.
    + apply (first_by_next fuel d [] _ _ (Hg _ _)). cbn in *. lia.
  - rewrite len_cons, (proj2 (Z.ltb_lt 0 _)) by (pose proof (len_nonneg l); lia). cbn [negb].
    erewrite bind_Ret by (eapply onBase_run; [done|unfold try; by rewrite (Hget (o, e) eq_refl)]).
    erewrite bind_Ret by done. erewrite bind_Ret by done.
    cbn [it_diff toRemove current currentErr toAddIterator rid_isClosed baseIterator fst snd].
    unfold after_first. rewrite kept_cons. destruct (containsWithDAAScore _ _ _).
    + apply (first_by_next fuel d l _ _ (Hg _ _)). cbn in *. lia.
    + do 2 eexists. split; [done|]. exists (o, e). do 2 eexists. split_and!; [done|done|apply Hg|]. cbn in *. lia.
Qed.

(** C24. An iterator with a diff yields the UTXO set the diff describes.  Let [base]
    be any open iterator that keeps the laws of the interface and has the pairs of the
    set [S], in any order, and [d] the diff from [S] to [T].  Going through
    [IteratorWithDiff base d] yields, with fuel for the pairs of [S] and of [T], the
    pairs of [T], each exactly once. *)
Theorem IteratorWithDiff_yields (S T : utxoCollection) (d : mutableUTXODiff) (base : I) (fuel : nat) :
  is_diff S T d -> isOpen base -> contents base ≡ₚ map_to_list S ->
  (size S + size T + 1 < fuel)%nat ->
  exists r l r', IteratorWithDiff (inl base) d = Ret r /\ iterate fuel r = (Ret l, r') /\
    l ≡ₚ map_to_list T.
Proof.
  intros Hd Ho Hc Hf. assert (Hsub : (size (toAdd d) <= size T)%nat).
  { pose proof (Permutation_length (kept_added S T d _ Hd Hc)) as Hl.
    rewrite length_app, range_size, length_map_to_list in Hl. lia. }
  destruct (rid_First_spec fuel d base Ho) as (b & r & Hfirst & Hafter).
  { rewrite Hc, length_map_to_list. lia. }
  exists (newWithDiff base d). unfold iterate. rewrite (bind_Ret _ _ _ _ _ Hfirst). destruct b; cbn in Hafter.
  - destruct Hafter as (p & todo & n & Hl & Hh & Hg & Hn).
    destruct (collect_spec fuel d todo n r p Hg Hh Hn) as (r' & Hrun).
    exists (p :: todo), r'. split_and!; [done..|]. rewrite <- Hl. by apply (kept_added S).
  - destruct fuel; [lia|]. exists [], r. split_and!; [done..|]. rewrite <- Hafter. by apply (kept_added S).
Qed.
End Yields.

(** A set with two coins, iterated with a diff that replaces one of them. *)
Lemma IteratorWithDiff_yields_witness :
  let S := coinAt 1 5 ∪ coinAt 2 6 in
  let T := coinAt 1 5 ∪ coinAt 3 7 in
  exists r l r', IteratorWithDiff (MR:=mapToListRange) (inl (Iterator (MR:=mapToListRange) S)) (diffBetween S T)
      = Ret r /\
    iterate (MR:=mapToListRange) 9 r = (Ret l, r') /\ l ≡ₚ map_to_list T.
Proof.
  apply (IteratorWithDiff_yields (MR:=mapToListRange) (coinAt 1 5 ∪ coinAt 2 6) (coinAt 1 5 ∪ coinAt 3 7)).
  - apply diffBetween_is_diff.
  - split; [reflexivity|]. cbn. lia.
  - reflexivity.
  - vm_compute. lia.
Defined.

(** An error of the base iterator is stored for [Get], but before that the score of
    the entry it does not have is asked for: the iterator panics. *)
Theorem base_error_panics {I} `{ReadOnlyUTXOSetIterator I} {MR : MapRange} (base base1 base2 : I) d fuel e :
  it_First base = (Ret true, base1) -> it_Get base1 = (Err e, base2) ->
  (rid_First fuel (newWithDiff base d)).1 = Panic.
Proof.
  intros Hfirst Hget. unfold rid_First, newWithDiff. erewrite bind_Ret by done. cbn [rid_isClosed].
  erewrite bind_Ret by (eapply (onBase_run _ _ base); [done|exact Hfirst]).
  erewrite bind_Ret by done. cbv iota. erewrite bind_Ret by done. erewrite bind_Ret by done. cbn [negb].
  erewrite bind_Ret by (eapply onBase_run; [done|unfold try; by rewrite Hget]).
  by erewrite bind_Ret by done.
Qed.
