(* ===== verification/Float64.v ===== *)
(** * Non-negative float64 arithmetic

    The operations of Go's [float64] and package [math] that the program applies to
    non-negative numbers: conversion from and to [uint64], product, sum, quotient,
    powers of two, [math.Ceil] and [math.Round], with round-to-nearest-even and
    gradual underflow as IEEE 754 prescribes.

    A finite number is [m * 2 ^ e]; the representation is not normalized.  Go leaves
    open what [uint64(f)] is when [f] is out of range, so that value is a
    parameter. *)

From S2P Require Import Prelude.

Inductive float64 : Type :=
| Fin (m e : Z)
| Inf
| NaN.

(** What the target architecture makes of [uint64(f)] for an [f] out of range. *)
Class GoArch : Type := { uint64OutOfRange : float64 -> Z }.

Definition bitLen (m : Z) : Z := if m <=? 0 then 0 else Z.log2 m + 1.

(** [m / 2^k] rounded to nearest, ties to even; [sticky] says that the number is
    slightly above [m]. *)
Definition roundShift (m k : Z) (sticky : bool) : Z :=
  if k <=? 0 then m
  else
    let q := m / 2 ^ k in
    let r := m mod 2 ^ k in
    let half := 2 ^ (k - 1) in
    if r <? half then q
    else if half <? r then q + 1
    else if sticky || Z.odd q then q + 1
    else q.

(** The number with 53 significant bits nearest to [m * 2 ^ e]. *)
Definition roundFloat (m e : Z) (sticky : bool) : float64 :=
  let k := Z.max 0 (Z.max (bitLen m - 53) (-1074 - e)) in
  let q := roundShift m k sticky in
  if 1024 <? bitLen q + (e + k) then Inf else Fin q (e + k).

Definition float64_of (n : Z) : float64 := roundFloat n 0 false.

Definition fmul (a b : float64) : float64 :=
  match a, b with
  | NaN, _ | _, NaN => NaN
  | Inf, Fin 0 _ | Fin 0 _, Inf => NaN
  | Inf, _ | _, Inf => Inf
  | Fin m e, Fin m' e' => roundFloat (m * m') (e + e') false
  end.

Definition fadd (a b : float64) : float64 :=
  match a, b with
  | NaN, _ | _, NaN => NaN
  | Inf, _ | _, Inf => Inf
  | Fin m e, Fin m' e' =>
      let k := Z.min e e' in
      roundFloat (m * 2 ^ (e - k) + m' * 2 ^ (e' - k)) k false
  end.

(** The quotient is computed with enough bits that the remainder only matters as a
    sticky bit. *)
Definition fdiv (a b : float64) : float64 :=
  match a, b with
  | NaN, _ | _, NaN => NaN
  | Inf, Inf => NaN
  | Inf, Fin _ _ => Inf
  | Fin _ _, Inf => Fin 0 0
  | Fin m e, Fin m' e' =>
      if m' =? 0 then if m =? 0 then NaN else Inf
      else
        let s := Z.max 0 (bitLen m' - bitLen m + 56) in
        roundFloat (m * 2 ^ s / m') (e - e' - s) (negb (m * 2 ^ s mod m' =? 0))
  end.

(** [math.Pow(2, y)] for a [y] that is a non-negative integer. *)
Definition pow2 (y : float64) : float64 :=
  match y with
  | Fin m e => let n := if 0 <=? e then m * 2 ^ e else m / 2 ^ (- e) in
               if 1024 <=? n then Inf else Fin 1 n
  | Inf => Inf
  | NaN => NaN
  end.

(** [math.Ceil] and [math.Round], which rounds half away from zero. *)
Definition fceil (a : float64) : float64 :=
  match a with
  | Fin m e => if 0 <=? e then a else Fin ((m + 2 ^ (- e) - 1) / 2 ^ (- e)) 0
  | _ => a
  end.

Definition fround (a : float64) : float64 :=
  match a with
  | Fin m e => if 0 <=? e then a else Fin ((m + 2 ^ (- e - 1)) / 2 ^ (- e)) 0
  | _ => a
  end.

(** [uint64(f)] truncates. *)
Definition uint64_of `{GoArch} (a : float64) : Z :=
  match a with
  | Fin m e =>
      let n := if 0 <=? e then m * 2 ^ e else m / 2 ^ (- e) in
      if (0 <=? n) && (n <=? MaxUint64) then n else u64 (uint64OutOfRange a)
  | _ => u64 (uint64OutOfRange a)
  end.

Lemma uint64_of_range `{GoArch} a : 0 <= uint64_of a <= MaxUint64.
Proof.
  assert (Hu : forall z, 0 <= u64 z <= MaxUint64).
  { intros z. unfold u64, MaxUint64. pose proof (Z.mod_pos_bound z (2 ^ 64)). lia. }
  unfold uint64_of. destruct a as [m e| |]; [|apply Hu..].
  set (n := if 0 <=? e then m * 2 ^ e else m / 2 ^ (- e)).
  destruct (Z.leb_spec 0 n), (Z.leb_spec n MaxUint64); cbn; try apply Hu. lia.
Qed.

(** ** Rounding errors *)

Lemma bitLen_bounds m : 0 < m -> 2 ^ (bitLen m - 1) <= m < 2 ^ bitLen m.
Proof.
  intros Hm. unfold bitLen. rewrite (proj2 (Z.leb_gt _ _)) by done.
  pose proof (Z.log2_spec m Hm). replace (Z.log2 m + 1 - 1) with (Z.log2 m) by lia.
  by replace (Z.log2 m + 1) with (Z.succ (Z.log2 m)) by lia.
Qed.

Lemma roundShift_error m k sticky :
  0 < k -> 0 <= m -> m - 2 ^ (k - 1) <= roundShift m k sticky * 2 ^ k <= m + 2 ^ (k - 1).
Proof.
  intros Hk Hm. unfold roundShift. rewrite (proj2 (Z.leb_gt _ _)) by done.
  assert (Hp : 2 ^ k = 2 * 2 ^ (k - 1)) by (rewrite <- Z.pow_succ_r by lia; f_equal; lia).
  assert (0 < 2 ^ (k - 1)) by (apply Z.pow_pos_nonneg; lia).
  pose proof (Z.div_mod m (2 ^ k) ltac:(lia)). pose proof (Z.mod_pos_bound m (2 ^ k) ltac:(lia)).
  destruct (Z.ltb_spec (m mod 2 ^ k) (2 ^ (k - 1))); [nia|].
  destruct (Z.ltb_spec (2 ^ (k - 1)) (m mod 2 ^ k)); [nia|].
  destruct (sticky || Z.odd (m / 2 ^ k)); nia.
Qed.

Lemma fmul_Fin m e m' e' : fmul (Fin m e) (Fin m' e') = roundFloat (m * m') (e + e') false.
Proof. by destruct m, m'. Qed.

Lemma bitLen_le m n : 0 <= n -> m < 2 ^ n -> bitLen m <= n.
Proof.
  intros Hn Hm. unfold bitLen. destruct (Z.leb_spec m 0); [done|].
  pose proof (proj1 (Z.log2_lt_pow2 m n ltac:(lia)) Hm). lia.
Qed.

(** A mantissa of 53 bits is kept. *)
Lemma roundFloat_exact m e : 0 <= m < 2 ^ 53 -> -1074 <= e <= 900 -> roundFloat m e false = Fin m e.
Proof.
  intros Hm He. pose proof (bitLen_le m 53 ltac:(lia) ltac:(lia)).
  unfold roundFloat. replace (Z.max 0 (Z.max (bitLen m - 53) (-1074 - e))) with 0 by lia.
  unfold roundShift. cbn [Z.leb Z.compare]. rewrite (proj2 (Z.ltb_ge _ _)) by lia. f_equal. lia.
Qed.

Lemma float64_of_spec n :
  1 <= n <= MaxUint64 -> exists q k, float64_of n = Fin q k /\ 0 <= k <= 11 /\ 1 <= q <= 2 ^ 53 /\
    (k = 0 /\ q = n /\ q < 2 ^ 53 \/ 0 < k /\ n - 2 ^ (k - 1) <= q * 2 ^ k <= n + 2 ^ (k - 1) /\ 2 ^ (k + 52) <= n).
Proof.
  intros Hn. destruct (Z.ltb_spec n (2 ^ 53)) as [Hs|Hl].
  { exists n, 0. unfold float64_of. rewrite roundFloat_exact by lia. repeat split; lia. }
  pose proof (bitLen_bounds n ltac:(lia)) as Hb.
  assert (Hb64 : bitLen n <= 64) by (apply bitLen_le; unfold MaxUint64 in *; lia).
  assert (Hb53 : 53 < bitLen n).
  { destruct (Z.ltb_spec 53 (bitLen n)); [done|].
    assert (2 ^ bitLen n <= 2 ^ 53) by (apply Z.pow_le_mono_r; lia). lia. }
  set (k := bitLen n - 53). assert (Hk : 0 < k <= 11) by (unfold k; lia).
  pose proof (roundShift_error n k false ltac:(lia) ltac:(lia)) as Herr.
  set (q := roundShift n k false) in *.
  replace (bitLen n) with (k + 53) in Hb by (unfold k; lia).
  replace (k + 53 - 1) with (k + 52) in Hb by lia.
  assert (Hp : 2 ^ (k + 53) = 2 ^ 53 * 2 ^ k) by (rewrite <- Z.pow_add_r by lia; f_equal; lia).
  assert (Hp' : 2 ^ (k + 52) = 2 ^ 52 * 2 ^ k) by (rewrite <- Z.pow_add_r by lia; f_equal; lia).
  assert (Hh : 2 ^ k = 2 * 2 ^ (k - 1)) by (rewrite <- Z.pow_succ_r by lia; f_equal; lia).
  assert (0 < 2 ^ (k - 1)) by (apply Z.pow_pos_nonneg; lia).
  assert (Hq : 1 <= q <= 2 ^ 53) by nia.
  exists q, k. unfold float64_of, roundFloat.
  replace (Z.max 0 (Z.max (bitLen n - 53) (-1074 - 0))) with k by (unfold k; lia). fold q.
  pose proof (bitLen_le q 54 ltac:(lia) ltac:(lia)). rewrite (proj2 (Z.ltb_ge _ _)) by lia.
  split; [done|]. split; [lia|]. split; [lia|]. right. lia.
Qed.

(** [uint64(math.Ceil(float64(n) * 0.5))] is between 1 and [n]. *)
Lemma float_half `{GoArch} n :
  1 <= n <= MaxUint64 -> 1 <= uint64_of (fceil (fmul (float64_of n) (Fin 1 (-1)))) <= n.
Proof.
  intros Hn. destruct (float64_of_spec n Hn) as (q & k & -> & Hk & Hq & Hc). rewrite fmul_Fin, Z.mul_1_r.
  assert (Hu : forall m e, 0 <= e -> 1 <= m * 2 ^ e <= n -> 1 <= uint64_of (fceil (Fin m e)) <= n).
  { intros m e He Hm. cbn. rewrite (proj2 (Z.leb_le 0 e)) by done. cbn. rewrite (proj2 (Z.leb_le 0 e)) by done.
    by rewrite (proj2 (Z.leb_le 0 (m * 2 ^ e))), (proj2 (Z.leb_le (m * 2 ^ e) MaxUint64)) by lia. }
  destruct Hc as [(-> & -> & Hlt)|(Hk0 & Herr & Hbig)].
  - rewrite roundFloat_exact by lia. unfold fceil, uint64_of. change (0 <=? 0 + -1) with false. cbv iota.
    change (2 ^ (- (0 + -1))) with 2. change (0 <=? 0) with true. cbv iota zeta. change (2 ^ 0) with 1. rewrite Z.mul_1_r.
    assert (1 <= (n + 2 - 1) / 2 <= n) by (pose proof (Z.div_mod (n + 2 - 1) 2); pose proof (Z.mod_pos_bound (n + 2 - 1) 2); lia).
    rewrite (proj2 (Z.leb_le 0 _)), (proj2 (Z.leb_le _ MaxUint64)) by lia. done.
  - assert (Hh : 2 ^ k = 2 * 2 ^ (k - 1)) by (rewrite <- Z.pow_succ_r by lia; f_equal; lia).
    assert (Hpos : 0 < 2 ^ (k - 1)) by (apply Z.pow_pos_nonneg; lia).
    assert (Hbig' : 2 ^ (k - 1) <= n).
    { etransitivity; [|exact Hbig]. apply Z.pow_le_mono_r; lia. }
    destruct (Z.eq_dec q (2 ^ 53)) as [->|Hne].
    + replace (roundFloat (2 ^ 53) (k + -1) false) with (Fin (2 ^ 52) k).
      * apply Hu; [lia|]. assert (0 < 2 ^ k) by lia. lia.
      * unfold roundFloat. replace (bitLen (2 ^ 53)) with 54 by done.
        replace (Z.max 0 (Z.max (54 - 53) (-1074 - (k + -1)))) with 1 by lia.
        replace (roundShift (2 ^ 53) 1 false) with (2 ^ 52) by done. replace (bitLen (2 ^ 52)) with 53 by done.
        rewrite (proj2 (Z.ltb_ge _ _)) by lia. f_equal. lia.
    + rewrite roundFloat_exact by lia. apply Hu; [lia|]. replace (k + -1) with (k - 1) by lia. nia.
Qed.
