(* ===== verification/Interval.v ===== *)
(** * Reachability intervals

    The intervals of [src/domain/consensus/processes/reachabilitymanager/interval.go]:
    bounds are [uint64] and wrap around; an interval is empty when its end is just
    below its start. *)

From S2P Require Import Prelude Float64.

Record ReachabilityInterval : Type := newReachabilityInterval {
  Start : Z;
  End : Z
}.

#[export] Instance ReachabilityInterval_eq_decision : EqDecision ReachabilityInterval.
Proof. solve_decision. Defined.

Inductive intervalError : Type :=
| ErrFraction
| ErrSplitEmpty
| ErrSizesNotEqual
| ErrSizesTooLarge.

Definition intervalSize (ri : ReachabilityInterval) : Z := u64 (End ri - Start ri + 1).

Definition intervalIncrease (ri : ReachabilityInterval) (offset : Z) : ReachabilityInterval :=
  newReachabilityInterval (u64 (Start ri + offset)) (u64 (End ri + offset)).
Definition intervalDecrease (ri : ReachabilityInterval) (offset : Z) : ReachabilityInterval :=
  newReachabilityInterval (u64 (Start ri - offset)) (u64 (End ri - offset)).
Definition intervalIncreaseStart (ri : ReachabilityInterval) (offset : Z) : ReachabilityInterval :=
  newReachabilityInterval (u64 (Start ri + offset)) (End ri).
Definition intervalDecreaseStart (ri : ReachabilityInterval) (offset : Z) : ReachabilityInterval :=
  newReachabilityInterval (u64 (Start ri - offset)) (End ri).
Definition intervalIncreaseEnd (ri : ReachabilityInterval) (offset : Z) : ReachabilityInterval :=
  newReachabilityInterval (Start ri) (u64 (End ri + offset)).
Definition intervalDecreaseEnd (ri : ReachabilityInterval) (offset : Z) : ReachabilityInterval :=
  newReachabilityInterval (Start ri) (u64 (End ri - offset)).

Definition intervalContains (ri other : ReachabilityInterval) : bool :=
  (Start ri <=? Start other) && (End other <=? End ri).

Definition sumU64 (sizes : list Z) : Z := fold_left (fun sum size => u64 (sum + size)) sizes 0.

(** The loop of [intervalSplitExact]. *)
Fixpoint splitFrom (start : Z) (sizes : list Z) : list ReachabilityInterval :=
  match sizes with
  | [] => []
  | size :: sizes =>
      newReachabilityInterval start (u64 (start + size - 1)) :: splitFrom (u64 (start + size)) sizes
  end.

Definition intervalSplitExact (ri : ReachabilityInterval) (sizes : list Z)
  : outcome intervalError (list ReachabilityInterval) :=
  if negb (sumU64 sizes =? intervalSize ri) then Err ErrSizesNotEqual
  else Ret (splitFrom (Start ri) sizes).

Definition exponentialFractions (sizes : list Z) : list float64 :=
  let maxSize := fold_left (fun m size => if m <? size then size else m) sizes 0 in
  let fractions := map (fun size => fdiv (Fin 1 0) (pow2 (float64_of (u64 (maxSize - size))))) sizes in
  let fractionsSum := fold_left fadd fractions (Fin 0 0) in
  map (fun fraction => fdiv fraction fractionsSum) fractions.

(** [fraction > 1]; a fraction below 0 is not representable here. *)
Definition fgtOne (fraction : float64) : bool :=
  match fraction with
  | Fin m e => if 0 <=? e then 1 <? m * 2 ^ e else 2 ^ (- e) <? m
  | Inf => true
  | NaN => false
  end.

Section Split.
Context `{GoArch}.

Definition intervalSplitFraction (ri : ReachabilityInterval) (fraction : float64)
  : outcome intervalError (ReachabilityInterval * ReachabilityInterval) :=
  if fgtOne fraction then Err ErrFraction
  else if intervalSize ri =? 0 then Err ErrSplitEmpty
  else
    let allocationSize := uint64_of (fceil (fmul (float64_of (intervalSize ri)) fraction)) in
    Ret (newReachabilityInterval (Start ri) (u64 (Start ri + allocationSize - 1)),
         newReachabilityInterval (u64 (Start ri + allocationSize)) (End ri)).

Definition intervalSplitInHalf (ri : ReachabilityInterval)
  : outcome intervalError (ReachabilityInterval * ReachabilityInterval) :=
  intervalSplitFraction ri (Fin 1 (-1)).

(** The loop that adds a bias to every size; the last one gets what is left. *)
Fixpoint biasSizes (totalBias remainingBias : Z) (sizes : list Z) (fractions : list float64) : list Z :=
  match sizes, fractions with
  | size :: sizes, fraction :: fractions =>
      let bias := match fractions with
                  | [] => remainingBias
                  | _ => Z.min (uint64_of (fround (fmul (float64_of totalBias) fraction))) remainingBias
                  end in
      u64 (size + bias) :: biasSizes totalBias (u64 (remainingBias - bias)) sizes fractions
  | _, _ => []
  end.

Definition intervalSplitWithExponentialBias (ri : ReachabilityInterval) (sizes : list Z)
  : outcome intervalError (list ReachabilityInterval) :=
  let sizesSum := sumU64 sizes in
  if intervalSize ri <? sizesSum then Err ErrSizesTooLarge
  else if sizesSum =? intervalSize ri then intervalSplitExact ri sizes
  else
    let totalBias := u64 (intervalSize ri - sizesSum) in
    intervalSplitExact ri (biasSizes totalBias totalBias sizes (exponentialFractions sizes)).
End Split.

(** ** Splits *)

Fixpoint zsum (l : list Z) : Z :=
  match l with
  | [] => 0
  | x :: l => x + zsum l
  end.

Lemma zsum_nonneg l : Forall (Z.le 0) l -> 0 <= zsum l.
Proof. induction 1; cbn; lia. Qed.

Lemma sumU64_zsum l : Forall (Z.le 0) l -> zsum l < 2 ^ 64 -> sumU64 l = zsum l.
Proof.
  intros Hl Hs. unfold sumU64. assert (Hgen : forall acc, 0 <= acc -> acc + zsum l < 2 ^ 64 ->
    fold_left (fun sum size => u64 (sum + size)) l acc = acc + zsum l).
  { clear Hs. induction Hl as [|x l Hx Hl IH]; intros acc Ha Hs; cbn in *; [lia|].
    pose proof (zsum_nonneg l Hl). unfold u64. rewrite Z.mod_small by lia. rewrite IH by lia. lia. }
  by rewrite Hgen.
Qed.

(** The bounds the code keeps intervals in. *)
Definition valid (ri : ReachabilityInterval) : Prop := 1 <= Start ri /\ End ri < MaxUint64 /\ Start ri <= End ri + 1.

(** The number of indices, without the wrap-around. *)
Definition width (ri : ReachabilityInterval) : Z := End ri - Start ri + 1.

Lemma intervalSize_width ri : valid ri -> intervalSize ri = width ri.
Proof. unfold valid, intervalSize, width, MaxUint64, u64. intros. apply Z.mod_small. lia. Qed.

(** Intervals laid out one after the other from [lo] on. *)
Fixpoint layout (lo : Z) (sizes : list Z) : list ReachabilityInterval :=
  match sizes with
  | [] => []
  | size :: sizes => newReachabilityInterval lo (lo + size - 1) :: layout (lo + size) sizes
  end.

Lemma splitFrom_layout lo sizes :
  1 <= lo -> Forall (Z.le 0) sizes -> lo + zsum sizes <= MaxUint64 -> splitFrom lo sizes = layout lo sizes.
Proof.
  intros Hlo Hs. revert lo Hlo. induction Hs as [|x l Hx Hl IH]; intros lo Hlo Hsum; [done|]. cbn in *.
  pose proof (zsum_nonneg l Hl). unfold u64, MaxUint64 in *. rewrite !Z.mod_small by lia.
  by rewrite IH by lia.
Qed.

Lemma intervalSplitExact_layout ri sizes :
  valid ri -> Forall (Z.le 0) sizes -> zsum sizes = width ri ->
  intervalSplitExact ri sizes = Ret (layout (Start ri) sizes).
Proof.
  intros Hv Hs Hsum. unfold intervalSplitExact. rewrite intervalSize_width by done.
  unfold valid, width, MaxUint64 in *.
  rewrite sumU64_zsum, Hsum, Z.eqb_refl by (done || lia). cbn. f_equal.
  apply splitFrom_layout; [lia|done|unfold MaxUint64; lia].
Qed.

Section Splits.
Context `{GoArch}.

Lemma exponentialFractions_length sizes : length (exponentialFractions sizes) = length sizes.
Proof. unfold exponentialFractions. by rewrite !length_map. Qed.

Lemma biasSizes_spec total remaining sizes fractions :
  Forall (Z.le 0) sizes -> length fractions = length sizes -> sizes <> [] ->
  0 <= remaining -> zsum sizes + remaining < 2 ^ 64 ->
  Forall2 Z.le sizes (biasSizes total remaining sizes fractions) /\
  zsum (biasSizes total remaining sizes fractions) = zsum sizes + remaining.
Proof.
  intros Hs. revert remaining fractions. induction Hs as [|x l Hx Hl IH]; intros rem fr Hlen Hne Hr Hb; [done|].
  destruct fr as [|f fr]; [done|]. cbn [biasSizes zsum]. pose proof (zsum_nonneg l Hl). cbn [zsum] in Hb.
  set (bias := match fr with [] => rem | _ => _ end). assert (Hbias : 0 <= bias <= rem).
  { unfold bias. destruct fr; [lia|]. pose proof (uint64_of_range (fround (fmul (float64_of total) f))). lia. }
  unfold u64. rewrite !Z.mod_small by lia. destruct l as [|y l].
  - destruct fr; [|done]. unfold bias. cbn. split; [repeat constructor; lia|lia].
  - destruct (IH (rem - bias) fr) as [IH1 IH2]; [cbn in *; lia|done|lia|lia|].
    split; [constructor; [lia|done]|]. rewrite IH2. lia.
Qed.

Lemma Forall2_le_nonneg l l' : Forall (Z.le 0) l -> Forall2 Z.le l l' -> Forall (Z.le 0) l'.
Proof. intros Hl Hf. induction Hf; [constructor|]. apply Forall_cons_1 in Hl as [? ?]. constructor; [lia|auto]. Qed.

(** A split covers the interval and gives every part at least its size. *)
Lemma intervalSplitWithExponentialBias_layout ri sizes :
  valid ri -> Forall (Z.le 0) sizes -> sizes <> [] -> zsum sizes <= width ri ->
  exists sizes', intervalSplitWithExponentialBias ri sizes = Ret (layout (Start ri) sizes') /\
    Forall2 Z.le sizes sizes' /\ zsum sizes' = width ri.
Proof.
  intros Hv Hs Hne Hle. unfold intervalSplitWithExponentialBias.
  pose proof (zsum_nonneg sizes Hs). rewrite intervalSize_width by done.
  assert (Hw : width ri < 2 ^ 64) by (unfold valid, width, MaxUint64 in *; lia).
  rewrite sumU64_zsum by (done || lia). rewrite (proj2 (Z.ltb_ge _ _)) by lia.
  destruct (Z.eqb_spec (zsum sizes) (width ri)) as [He|Hn].
  - exists sizes. split; [by apply intervalSplitExact_layout|]. split; [|done]. clear. induction sizes; by constructor.
  - unfold u64. rewrite !Z.mod_small by lia.
    destruct (biasSizes_spec (width ri - zsum sizes) (width ri - zsum sizes) sizes (exponentialFractions sizes))
      as [H1 H2]; [done|apply exponentialFractions_length|done|lia|lia|].
    eexists. split; [apply intervalSplitExact_layout; [done|by eapply Forall2_le_nonneg|]|]; [lia|].
    split; [done|lia].
Qed.

Lemma intervalSplitWithExponentialBias_too_large ri sizes :
  valid ri -> Forall (Z.le 0) sizes -> zsum sizes < 2 ^ 64 -> width ri < zsum sizes ->
  intervalSplitWithExponentialBias ri sizes = Err ErrSizesTooLarge.
Proof.
  intros Hv Hs Hb Hlt. unfold intervalSplitWithExponentialBias.
  by rewrite intervalSize_width, sumU64_zsum, (proj2 (Z.ltb_lt _ _)) by done.
Qed.

Lemma intervalSplitInHalf_spec ri :
  valid ri -> 1 <= width ri ->
  exists a, 1 <= a <= width ri /\
    intervalSplitInHalf ri = Ret (newReachabilityInterval (Start ri) (Start ri + a - 1),
                                  newReachabilityInterval (Start ri + a) (End ri)).
Proof.
  intros Hv Hw. unfold intervalSplitInHalf, intervalSplitFraction. cbn [fgtOne].
  rewrite intervalSize_width by done. change (2 ^ (- -1) <? 1) with false. cbn [Z.leb Z.compare].
  rewrite (proj2 (Z.eqb_neq _ _)) by lia.
  assert (Hmax : width ri <= MaxUint64) by (unfold valid, width in *; lia).
  pose proof (float_half (width ri) ltac:(lia)) as Ha. set (a := uint64_of _) in *. exists a. split; [done|].
  unfold valid, width, MaxUint64, u64 in *. by rewrite !Z.mod_small by lia.
Qed.
End Splits.

(** C16. The split by subtree sizes is safe whatever the rounding of the floating-point
    fractions: sizes that fit give consecutive intervals that fill the interval, each at
    least as large as its size, with no index twice and none outside; sizes that do not
    fit are an error. *)
Theorem intervalSplitWithExponentialBias_bounds `{GoArch} ri sizes :
  valid ri -> Forall (Z.le 0) sizes -> sizes <> [] -> zsum sizes < 2 ^ 64 ->
  (zsum sizes <= width ri /\ exists sizes', intervalSplitWithExponentialBias ri sizes = Ret (layout (Start ri) sizes') /\
     Forall2 Z.le sizes sizes' /\ zsum sizes' = width ri) \/
  (width ri < zsum sizes /\ intervalSplitWithExponentialBias ri sizes = Err ErrSizesTooLarge).
Proof.
  intros Hv Hs Hne H64. destruct (Z.le_gt_cases (zsum sizes) (width ri)).
  - left. split; [done|]. by apply intervalSplitWithExponentialBias_layout.
  - right. split; [done|]. by apply intervalSplitWithExponentialBias_too_large.
Qed.

Lemma intervalSplitWithExponentialBias_bounds_witness :
  zsum [1; 3; 2] <= width (newReachabilityInterval 1 100) /\
  exists sizes', @intervalSplitWithExponentialBias (Build_GoArch (fun _ => 0)) (newReachabilityInterval 1 100) [1; 3; 2] = Ret (layout 1 sizes') /\
    Forall2 Z.le [1; 3; 2] sizes' /\ zsum sizes' = 100.
Proof.
  destruct (@intervalSplitWithExponentialBias_bounds (Build_GoArch (fun _ => 0)) (newReachabilityInterval 1 100) [1; 3; 2]) as [Hok|[Hlt _]].
  - by unfold valid; cbn.
  - repeat constructor; lia.
  - done.
  - done.
  - exact Hok.
  - by vm_compute in Hlt.
Defined.
