(* ===== verification/Reachability.v ===== *)
(** * Reachability

    The reachability manager of
    [src/domain/consensus/processes/reachabilitymanager]: the tree of blocks with
    their intervals ([tree.go]), the search among ordered nodes
    ([ordered_tree_node_set.go]), the future covering sets ([future_covering_set.go]),
    reindexing ([reindex_context.go]) and the entry points ([reachability.go],
    [reachabilitymanager.go]), with the node data of
    [src/domain/consensus/utils/reachabilitydata/reachability_data.go].

    The state is the store of reachability data with the reindex root and the cache
    of subtree sizes of the current reindexing.  GHOSTDAG data come from another
    store, which is a field of the manager.  The only database error is that an item
    is not found.

    Loops that follow the tree run on [fuel]; more fuel than the tree has blocks is
    enough, as the theorems of [ReachCount], [ReachReindex] and [ReachHistory] show.  [sort.Slice] is an insertion sort: the order of equal elements,
    which Go leaves open, does not matter where the sorted keys differ. *)

From S2P Require Import Prelude Float64 Interval.

Abbreviation DomainHash := bytes.

(** ** Data *)

Record reachabilityData : Type := MkReach {
  rd_children : list DomainHash;
  rd_parent : option DomainHash;
  rd_interval : option ReachabilityInterval;
  rd_futureCoveringSet : list DomainHash
}.

Definition EmptyReachabilityData : reachabilityData := MkReach [] None None [].

Record BlockGHOSTDAGData : Type := MkGHOSTDAGData {
  blueScore : Z;
  blueWork : Z;
  dynamicK : Z;
  selectedParent : option DomainHash;
  mergeSetBlues : list DomainHash;
  mergeSetReds : list DomainHash;
  bluesAnticoneSizes : gmap DomainHash Z
}.

Record reachabilityManager : Type := MkManager {
  ghostdagDataStore : DomainHash -> option BlockGHOSTDAGData;
  reindexSlack : Z;
  reindexWindow : Z
}.

Definition defaultReindexWindow : Z := 200.
Definition defaultReindexSlack : Z := Z.shiftl 1 12.

Record reachState : Type := MkReachState {
  rs_data : gmap DomainHash reachabilityData;
  rs_reindexRoot : option DomainHash;
  subTreeSizesCache : gmap DomainHash Z
}.

Inductive reachError : Type :=
| ErrNotFound
| ErrInterval (e : intervalError)
| ErrEqualBlocks
| ErrNotAnAncestor
| ErrPivot
| ErrMissingTreeParent
| ErrReindexRootCapacity
| ErrChosenChildBlueScore.

Definition reachM (A : Type) : Type := M reachState reachError A.

Definition fromInterval {A} (o : outcome intervalError A) : reachM A := fun s =>
  (match o with Ret a => Ret a | Err e => Err (ErrInterval e) | Panic => Panic end, s).

Definition nonNil {A} (o : option A) : reachM A :=
  match o with Some a => ret a | None => panic end.

(** ** Reading and staging *)

Definition stageData (blockHash : DomainHash) (data : reachabilityData) : reachM unit :=
  modify (fun s => MkReachState (<[blockHash := data]> (rs_data s)) (rs_reindexRoot s) (subTreeSizesCache s)).

Definition reachabilityDataOf (blockHash : DomainHash) : reachM reachabilityData :=
  s <- get ;;
  match rs_data s !! blockHash with
  | Some data => ret data
  | None => throw ErrNotFound
  end.

(** A nil interval is dereferenced by every caller. *)
Definition interval (blockHash : DomainHash) : reachM ReachabilityInterval :=
  data <- reachabilityDataOf blockHash ;; nonNil (rd_interval data).
Definition children (blockHash : DomainHash) : reachM (list DomainHash) :=
  data <- reachabilityDataOf blockHash ;; ret (rd_children data).
Definition parent (blockHash : DomainHash) : reachM (option DomainHash) :=
  data <- reachabilityDataOf blockHash ;; ret (rd_parent data).
Definition futureCoveringSet (blockHash : DomainHash) : reachM (list DomainHash) :=
  data <- reachabilityDataOf blockHash ;; ret (rd_futureCoveringSet data).

Definition reindexRoot : reachM DomainHash :=
  s <- get ;;
  match rs_reindexRoot s with
  | Some root => ret root
  | None => throw ErrNotFound
  end.
Definition stageReindexRoot (blockHash : DomainHash) : reachM unit :=
  modify (fun s => MkReachState (rs_data s) (Some blockHash) (subTreeSizesCache s)).

(** A clone of the stored data, which has to have an interval, or empty data. *)
Definition reachabilityDataForInsertion (blockHash : DomainHash) : reachM reachabilityData :=
  s <- get ;;
  match rs_data s !! blockHash with
  | Some data => match rd_interval data with Some _ => ret data | None => panic end
  | None => ret EmptyReachabilityData
  end.

Definition stageAddChild (node child : DomainHash) : reachM unit :=
  d <- reachabilityDataForInsertion node ;;
  stageData node (MkReach (rd_children d ++ [child]) (rd_parent d) (rd_interval d) (rd_futureCoveringSet d)).
Definition stageParent (node parent : DomainHash) : reachM unit :=
  d <- reachabilityDataForInsertion node ;;
  stageData node (MkReach (rd_children d) (Some parent) (rd_interval d) (rd_futureCoveringSet d)).
Definition stageInterval (node : DomainHash) (interval : ReachabilityInterval) : reachM unit :=
  d <- reachabilityDataForInsertion node ;;
  stageData node (MkReach (rd_children d) (rd_parent d) (Some interval) (rd_futureCoveringSet d)).

Definition newReachabilityTreeData : reachabilityData :=
  MkReach [] None (Some (newReachabilityInterval 1 (MaxUint64 - 1))) [].

(** ** Intervals of nodes *)

Definition intervalRangeForChildAllocation (node : DomainHash) : reachM ReachabilityInterval :=
  i <- interval node ;;
  ret (newReachabilityInterval (Start i) (u64 (End i - 1))).

Definition remainingIntervalBefore (node : DomainHash) : reachM ReachabilityInterval :=
  childrenRange <- intervalRangeForChildAllocation node ;;
  cs <- children node ;;
  match cs with
  | [] => ret childrenRange
  | first :: _ =>
      firstChildInterval <- interval first ;;
      ret (newReachabilityInterval (Start childrenRange) (u64 (Start firstChildInterval - 1)))
  end.

Definition remainingIntervalAfter (node : DomainHash) : reachM ReachabilityInterval :=
  childrenRange <- intervalRangeForChildAllocation node ;;
  cs <- children node ;;
  match cs with
  | [] => ret childrenRange
  | _ =>
      lastChild <- index cs (len cs - 1) ;;
      lastChildInterval <- interval lastChild ;;
      ret (newReachabilityInterval (u64 (End lastChildInterval + 1)) (End childrenRange))
  end.

Definition remainingSlackBefore (node : DomainHash) : reachM Z :=
  i <- remainingIntervalBefore node ;; ret (intervalSize i).
Definition remainingSlackAfter (node : DomainHash) : reachM Z :=
  i <- remainingIntervalAfter node ;; ret (intervalSize i).

(** ** Queries *)

Definition IsReachabilityTreeAncestorOf (node other : DomainHash) : reachM bool :=
  nodeInterval <- interval node ;;
  otherInterval <- interval other ;;
  ret (intervalContains nodeInterval otherInterval).

Definition isStrictAncestorOf (node other : DomainHash) : reachM bool :=
  if bool_decide (node = other) then ret false else IsReachabilityTreeAncestorOf node other.

(** The binary search, over the range from [low] to [high]. *)
Fixpoint searchLoop (n : nat) (tns : list DomainHash) (end_ low high : Z) : reachM Z :=
  if low <? high then
    match n with
    | O => panic
    | S n =>
        let middle := (low + high) / 2 in
        node <- index tns middle ;;
        middleInterval <- interval node ;;
        if end_ <? Start middleInterval then searchLoop n tns end_ low middle
        else searchLoop n tns end_ (middle + 1) high
    end
  else ret low.

Definition findAncestorIndexOfNodeByIntervalEnd (tns : list DomainHash) (end_ : Z) : reachM (option Z) :=
  low <- searchLoop (length tns) tns end_ 0 (len tns) ;;
  if low =? 0 then ret None else ret (Some (low - 1)).

Definition findAncestorIndexOfNode (tns : list DomainHash) (node : DomainHash) : reachM (option Z) :=
  blockInterval <- interval node ;;
  findAncestorIndexOfNodeByIntervalEnd tns (End blockInterval).

(** Errors are reported as not found. *)
Definition findAncestorOfNode (tns : list DomainHash) (node : DomainHash) : reachM (option DomainHash) :=
  r <- try (findAncestorIndexOfNode tns node) ;;
  match r with
  | inl (Some ancestorIndex) => a <- index tns ancestorIndex ;; ret (Some a)
  | _ => ret None
  end.

(** The comparison of the sort, which treats nodes without an interval as equal. *)
Definition startsBefore (s : reachState) (a b : DomainHash) : bool :=
  match rs_data s !! a ≫= rd_interval, rs_data s !! b ≫= rd_interval with
  | Some i, Some j => Start i <? Start j
  | _, _ => false
  end.

Fixpoint insertSorted {A} (less : A -> A -> bool) (x : A) (l : list A) : list A :=
  match l with
  | [] => [x]
  | y :: l' => if less x y then x :: l else y :: insertSorted less x l'
  end.
Definition sortSlice {A} (less : A -> A -> bool) (l : list A) : list A :=
  foldl (fun sorted x => insertSorted less x sorted) [] l.

Definition FindNextAncestor (descendant ancestor : DomainHash) : reachM DomainHash :=
  guard_err (bool_decide (ancestor = descendant)) ErrEqualBlocks ;;;
  childrenOfAncestor <- children ancestor ;;
  s <- get ;;
  nextAncestor <- findAncestorOfNode (sortSlice (startsBefore s) childrenOfAncestor) descendant ;;
  match nextAncestor with
  | None => throw ErrNotAnAncestor
  | Some nextAncestor => ret nextAncestor
  end.

(** The children before and after the pivot. *)
Fixpoint splitAt (pivot : DomainHash) (before children : list DomainHash)
  : option (list DomainHash * list DomainHash) :=
  match children with
  | [] => None
  | child :: children =>
      if bool_decide (child = pivot) then Some (before, children)
      else splitAt pivot (before ++ [child]) children
  end.

Definition splitChildren (node pivot : DomainHash) : reachM (list DomainHash * list DomainHash) :=
  cs <- children node ;;
  match splitAt pivot [] cs with
  | Some r => ret r
  | None => throw ErrPivot
  end.

Definition futureCoveringSetHasAncestorOf (this other : DomainHash) : reachM bool :=
  fcs <- futureCoveringSet this ;;
  ancestorIndex <- findAncestorIndexOfNode fcs other ;;
  match ancestorIndex with
  | None => ret false
  | Some ancestorIndex =>
      candidate <- index fcs ancestorIndex ;;
      IsReachabilityTreeAncestorOf candidate other
  end.

Definition IsDAGAncestorOf (blockHashA blockHashB : DomainHash) : reachM bool :=
  isReachabilityTreeAncestor <- IsReachabilityTreeAncestorOf blockHashA blockHashB ;;
  if isReachabilityTreeAncestor : bool then ret true
  else futureCoveringSetHasAncestorOf blockHashA blockHashB.

(** ** Future covering sets *)

Definition withFutureCoveringSet (d : reachabilityData) (fcs : list DomainHash) : reachabilityData :=
  MkReach (rd_children d) (rd_parent d) (rd_interval d) fcs.

Definition insertToFutureCoveringSet (node futureNode : DomainHash) : reachM unit :=
  s <- get ;;
  let data := default EmptyReachabilityData (rs_data s !! node) in
  let fcs := rd_futureCoveringSet data in
  futureInterval <- interval futureNode ;;
  ancestorIndex <- findAncestorIndexOfNodeByIntervalEnd fcs (End futureInterval) ;;
  match ancestorIndex with
  | None => stageData node (withFutureCoveringSet data (futureNode :: fcs))
  | Some ancestorIndex =>
      candidate <- index fcs ancestorIndex ;;
      candidateInterval <- interval candidate ;;
      if intervalContains candidateInterval futureInterval then ret tt
      else if intervalContains futureInterval candidateInterval then
        stageData node (withFutureCoveringSet data (<[Z.to_nat ancestorIndex := futureNode]> fcs))
      else
        let insertIndex := Z.to_nat (ancestorIndex + 1) in
        stageData node (withFutureCoveringSet data (take insertIndex fcs ++ futureNode :: drop insertIndex fcs))
  end.

(** ** Reindexing *)

Definition setCache (f : gmap DomainHash Z -> gmap DomainHash Z) : reachM unit :=
  modify (fun s => MkReachState (rs_data s) (rs_reindexRoot s) (f (subTreeSizesCache s))).
Definition newReindexContext : reachM unit := setCache (fun _ => ∅).

(** The size of a subtree that is in the cache; a missing entry reads as 0. *)
Definition cached (s : reachState) (node : DomainHash) : Z := default 0 (subTreeSizesCache s !! node).

Section Reindex.
Context `{GoArch} (rt : reachabilityManager) (fuel : nat).

(** The push of subtree sizes from [current] towards [node]. *)
Fixpoint pushUp (n : nat) (node current : DomainHash) (calculatedChildrenCount : gmap DomainHash Z)
  : reachM (gmap DomainHash Z) :=
  if bool_decide (current = node) then ret calculatedChildrenCount
  else
    match n with
    | O => panic
    | S n =>
        p <- parent current ;;
        match p with
        | None => ret calculatedChildrenCount
        | Some current =>
            let count := u64 (default 0 (calculatedChildrenCount !! current) + 1) in
            let calculatedChildrenCount := <[current := count]> calculatedChildrenCount in
            cs <- children current ;;
            if negb (count =? len cs) then ret calculatedChildrenCount
            else
              s <- get ;;
              setCache (<[current := u64 (sumU64 (map (cached s) cs) + 1)]>) ;;;
              pushUp n node current calculatedChildrenCount
        end
    end.

Fixpoint countLoop (n : nat) (node : DomainHash) (queue : list DomainHash)
    (calculatedChildrenCount : gmap DomainHash Z) : reachM unit :=
  match queue with
  | [] => ret tt
  | current :: queue =>
      match n with
      | O => panic
      | S n =>
          cs <- children current ;;
          s <- get ;;
          if bool_decide (cs = []) then
            setCache (<[current := 1]>) ;;;
            calculatedChildrenCount <- pushUp fuel node current calculatedChildrenCount ;;
            countLoop n node queue calculatedChildrenCount
          else if negb (bool_decide (is_Some (subTreeSizesCache s !! current))) then
            countLoop n node (queue ++ cs) calculatedChildrenCount
          else
            calculatedChildrenCount <- pushUp fuel node current calculatedChildrenCount ;;
            countLoop n node queue calculatedChildrenCount
      end
  end.

Definition countSubtrees (node : DomainHash) : reachM unit :=
  s <- get ;;
  if bool_decide (is_Some (subTreeSizesCache s !! node)) then ret tt
  else countLoop fuel node [node] ∅.

(** The intervals of the children of one node. *)
Fixpoint stageIntervals (cs : list DomainHash) (intervals : list ReachabilityInterval) : reachM unit :=
  match cs, intervals with
  | child :: cs, childInterval :: intervals =>
      stageInterval child childInterval ;;; stageIntervals cs intervals
  | [], _ => ret tt
  | _ :: _, [] => panic
  end.

Fixpoint propagateLoop (n : nat) (queue : list DomainHash) : reachM unit :=
  match queue with
  | [] => ret tt
  | current :: queue =>
      match n with
      | O => panic
      | S n =>
          cs <- children current ;;
          if negb (0 <? len cs) then propagateLoop n queue
          else
            s <- get ;;
            i <- intervalRangeForChildAllocation current ;;
            intervals <- fromInterval (intervalSplitWithExponentialBias i (map (cached s) cs)) ;;
            stageIntervals cs intervals ;;;
            propagateLoop n (queue ++ cs)
      end
  end.

Definition propagateInterval (node : DomainHash) : reachM unit :=
  countSubtrees node ;;;
  propagateLoop fuel [node].

(** *** Reindexing when a child is added *)

Fixpoint offsetBackward (siblings : list DomainHash) (allocationNode : DomainHash) (offset : Z) : reachM unit :=
  match siblings with
  | [] => ret tt
  | sibling :: siblings =>
      if bool_decide (sibling = allocationNode) then
        previousInterval <- interval allocationNode ;;
        stageInterval allocationNode (intervalIncreaseEnd previousInterval offset) ;;;
        propagateInterval allocationNode
      else
        previousInterval <- interval sibling ;;
        stageInterval sibling (intervalIncrease previousInterval offset) ;;;
        propagateInterval sibling ;;;
        offsetBackward siblings allocationNode offset
  end.

Definition offsetSiblingsBefore (allocationNode current : DomainHash) (offset : Z) : reachM unit :=
  p <- parent current ;;
  p <- nonNil p ;;
  r <- splitChildren p current ;;
  offsetBackward (rev r.1) allocationNode offset.

Fixpoint offsetForward (siblings : list DomainHash) (allocationNode : DomainHash) (offset : Z) : reachM unit :=
  match siblings with
  | [] => ret tt
  | sibling :: siblings =>
      if bool_decide (sibling = allocationNode) then
        previousInterval <- interval allocationNode ;;
        stageInterval allocationNode (intervalDecreaseStart previousInterval offset) ;;;
        propagateInterval allocationNode
      else
        previousInterval <- interval sibling ;;
        stageInterval sibling (intervalDecrease previousInterval offset) ;;;
        propagateInterval sibling ;;;
        offsetForward siblings allocationNode offset
  end.

Definition offsetSiblingsAfter (allocationNode current : DomainHash) (offset : Z) : reachM unit :=
  p <- parent current ;;
  p <- nonNil p ;;
  r <- splitChildren p current ;;
  offsetForward r.2 allocationNode offset.

(** What differs between the two directions of [reclaimInterval]: the slack on that side
    of a node, the move of its bound, and the move of its siblings. *)
Record side : Type := MkSide {
  remainingSlack : DomainHash -> reachM Z;
  shrink : ReachabilityInterval -> Z -> ReachabilityInterval;
  offsetSiblings : DomainHash -> DomainHash -> Z -> reachM unit
}.
Definition sideBefore : side := MkSide remainingSlackBefore intervalIncreaseStart offsetSiblingsBefore.
Definition sideAfter : side := MkSide remainingSlackAfter intervalDecreaseEnd offsetSiblingsAfter.

(** The walk from the chosen child towards the reindex root, which returns the node
    it stops at and [pathSlackAlloc]. *)
Fixpoint reclaimUp (d : side) (n : nat) (allocationNode reindexRoot : DomainHash) (requiredAllocation : Z)
    (current : DomainHash) (slackSum pathLen : Z) : reachM (DomainHash * Z) :=
  match n with
  | O => panic
  | S n =>
      if bool_decide (current = reindexRoot) then
        previousInterval <- interval current ;;
        let offset := u64 (requiredAllocation + reindexSlack rt * pathLen - slackSum) in
        stageInterval current (shrink d previousInterval offset) ;;;
        propagateInterval current ;;;
        offsetSiblings d allocationNode current offset ;;;
        ret (current, reindexSlack rt)
      else
        slackOfCurrent <- remainingSlack d current ;;
        let slackSum := u64 (slackSum + slackOfCurrent) in
        if requiredAllocation <=? slackSum then
          previousInterval <- interval current ;;
          let offset := u64 (slackOfCurrent - u64 (slackSum - requiredAllocation)) in
          stageInterval current (shrink d previousInterval offset) ;;;
          offsetSiblings d allocationNode current offset ;;;
          ret (current, 0)
        else
          current <- FindNextAncestor reindexRoot current ;;
          reclaimUp d n allocationNode reindexRoot requiredAllocation current slackSum (u64 (pathLen + 1))
  end.

(** The walk back to the common ancestor. *)
Fixpoint reclaimDown (d : side) (n : nat) (allocationNode commonAncestor : DomainHash) (pathSlackAlloc : Z)
    (current : DomainHash) : reachM unit :=
  match n with
  | O => panic
  | S n =>
      p <- parent current ;;
      current <- nonNil p ;;
      if bool_decide (current = commonAncestor) then ret tt
      else
        originalInterval <- interval current ;;
        slackOfCurrent <- remainingSlack d current ;;
        let offset := u64 (slackOfCurrent - pathSlackAlloc) in
        stageInterval current (shrink d originalInterval offset) ;;;
        offsetSiblings d allocationNode current offset ;;;
        reclaimDown d n allocationNode commonAncestor pathSlackAlloc current
  end.

Definition reclaimInterval (d : side) (allocationNode commonAncestor chosenChild reindexRoot : DomainHash)
    (requiredAllocation : Z) : reachM unit :=
  r <- reclaimUp d fuel allocationNode reindexRoot requiredAllocation chosenChild 0 0 ;;
  reclaimDown d fuel allocationNode commonAncestor r.2 r.1.

Definition reclaimIntervalBefore := reclaimInterval sideBefore.
Definition reclaimIntervalAfter := reclaimInterval sideAfter.

Definition reindexIntervalsEarlierThanRoot (allocationNode reindexRoot commonAncestor : DomainHash)
    (requiredAllocation : Z) : reachM unit :=
  chosenChild <- FindNextAncestor reindexRoot commonAncestor ;;
  nodeInterval <- interval allocationNode ;;
  chosenInterval <- interval chosenChild ;;
  if Start nodeInterval <? Start chosenInterval then
    reclaimIntervalBefore allocationNode commonAncestor chosenChild reindexRoot requiredAllocation
  else
    reclaimIntervalAfter allocationNode commonAncestor chosenChild reindexRoot requiredAllocation.

Fixpoint reindexLoop (n : nat) (current reindexRoot : DomainHash) : reachM unit :=
  match n with
  | O => panic
  | S n =>
      currentInterval <- interval current ;;
      let currentIntervalSize := intervalSize currentInterval in
      countSubtrees current ;;;
      s <- get ;;
      let currentSubtreeSize := cached s current in
      if currentSubtreeSize <=? currentIntervalSize then propagateInterval current
      else
        p <- parent current ;;
        match p with
        | None => throw ErrMissingTreeParent
        | Some parent =>
            guard_err (bool_decide (current = reindexRoot)) ErrReindexRootCapacity ;;;
            isParentStrictAncestorOfRoot <- isStrictAncestorOf parent reindexRoot ;;
            if isParentStrictAncestorOfRoot : bool then
              reindexIntervalsEarlierThanRoot current reindexRoot parent currentSubtreeSize
            else reindexLoop n parent reindexRoot
        end
  end.

Definition reindexIntervals (newChild reindexRoot : DomainHash) : reachM unit :=
  reindexLoop fuel newChild reindexRoot.

Definition addChild (node child reindexRoot : DomainHash) : reachM unit :=
  remaining <- remainingIntervalAfter node ;;
  stageAddChild node child ;;;
  stageParent child node ;;;
  if intervalSize remaining =? 0 then
    stageInterval child remaining ;;;
    newReindexContext ;;;
    reindexIntervals child reindexRoot
  else
    r <- fromInterval (intervalSplitInHalf remaining) ;;
    stageInterval child r.1.

(** *** Reindexing when the reindex root moves *)

(** The sizes of the subtrees of nodes, and their sum; an error of [countSubtrees]
    ends the loop with no sizes. *)
Fixpoint countEach (nodes : list DomainHash) : reachM (option (list Z)) :=
  match nodes with
  | [] => ret (Some [])
  | node :: nodes =>
      r <- try (countSubtrees node) ;;
      match r with
      | inr _ => ret None
      | inl _ =>
          s <- get ;;
          rest <- countEach nodes ;;
          ret (option_map (cons (cached s node)) rest)
      end
  end.

Definition countChildrenSubtrees (nodes : list DomainHash) : reachM (list Z * Z) :=
  r <- countEach nodes ;;
  ret (match r with Some sizes => (sizes, sumU64 sizes) | None => ([], 0) end).

(** Every child gets its interval, which is propagated before the next child's. *)
Fixpoint stageAndPropagate (cs : list DomainHash) (intervals : list ReachabilityInterval) : reachM unit :=
  match cs, intervals with
  | child :: cs, childInterval :: intervals =>
      stageInterval child childInterval ;;;
      propagateInterval child ;;;
      stageAndPropagate cs intervals
  | [], _ => ret tt
  | _ :: _, [] => panic
  end.

Definition propagateChildrenIntervals (i : ReachabilityInterval) (cs : list DomainHash) (sizes : list Z)
  : reachM unit :=
  childIntervals <- fromInterval (intervalSplitExact i sizes) ;;
  stageAndPropagate cs childIntervals.

Definition tightenIntervalsBefore (reindexRoot : DomainHash) (siblingsBeforeChosen : list DomainHash)
  : reachM Z :=
  r <- countChildrenSubtrees siblingsBeforeChosen ;;
  let '(siblingSubtreeSizes, sizesSum) := r in
  rootInterval <- interval reindexRoot ;;
  propagateChildrenIntervals
    (newReachabilityInterval (u64 (Start rootInterval + reindexSlack rt))
       (u64 (Start rootInterval + reindexSlack rt + sizesSum - 1)))
    siblingsBeforeChosen siblingSubtreeSizes ;;;
  ret sizesSum.

Definition tightenIntervalsAfter (reindexRoot : DomainHash) (siblingsAfterChosen : list DomainHash)
  : reachM Z :=
  r <- countChildrenSubtrees siblingsAfterChosen ;;
  let '(siblingSubtreeSizes, sizesSum) := r in
  rootInterval <- interval reindexRoot ;;
  propagateChildrenIntervals
    (newReachabilityInterval (u64 (End rootInterval - reindexSlack rt - sizesSum))
       (u64 (End rootInterval - reindexSlack rt - 1)))
    siblingsAfterChosen siblingSubtreeSizes ;;;
  ret sizesSum.

Definition expandIntervalToChosen (reindexRoot chosenChild : DomainHash) (sizesSumBefore sizesSumAfter : Z)
    (isFinalReindexRoot : bool) : reachM unit :=
  rootInterval <- interval reindexRoot ;;
  let newChosenInterval :=
    newReachabilityInterval (u64 (Start rootInterval + sizesSumBefore + reindexSlack rt))
      (u64 (End rootInterval - sizesSumAfter - reindexSlack rt - 1)) in
  currentChosenInterval <- interval chosenChild ;;
  (if isFinalReindexRoot && negb (intervalContains newChosenInterval currentChosenInterval) then
     stageInterval chosenChild
       (newReachabilityInterval (u64 (Start newChosenInterval + reindexSlack rt))
          (u64 (End newChosenInterval - reindexSlack rt))) ;;;
     propagateInterval chosenChild
   else ret tt) ;;;
  stageInterval chosenChild newChosenInterval.

Definition concentrateInterval (reindexRoot chosenChild : DomainHash) (isFinalReindexRoot : bool) : reachM unit :=
  r <- splitChildren reindexRoot chosenChild ;;
  siblingsBeforeSizesSum <- tightenIntervalsBefore reindexRoot r.1 ;;
  siblingsAfterSizesSum <- tightenIntervalsAfter reindexRoot r.2 ;;
  expandIntervalToChosen reindexRoot chosenChild siblingsBeforeSizesSum siblingsAfterSizesSum isFinalReindexRoot.

Fixpoint findCommonAncestor (n : nat) (current root : DomainHash) : reachM DomainHash :=
  match n with
  | O => panic
  | S n =>
      isAncestorOf <- IsReachabilityTreeAncestorOf current root ;;
      if isAncestorOf : bool then ret current
      else
        p <- parent current ;;
        current <- nonNil p ;;
        findCommonAncestor n current root
  end.

Definition ghostdagOf (blockHash : DomainHash) : reachM BlockGHOSTDAGData :=
  match ghostdagDataStore rt blockHash with
  | Some data => ret data
  | None => throw ErrNotFound
  end.

(** The descent towards the selected tip. *)
Fixpoint descendToRoot (n : nat) (selectedTip : DomainHash) (tipBlueScore : Z) (newReindexRoot : DomainHash)
  : reachM DomainHash :=
  match n with
  | O => panic
  | S n =>
      chosenChild <- FindNextAncestor selectedTip newReindexRoot ;;
      match ghostdagDataStore rt chosenChild with
      | None =>
          if bool_decide (chosenChild = selectedTip) then ret newReindexRoot
          else descendToRoot n selectedTip tipBlueScore chosenChild
      | Some chosenChildGHOSTDAGData =>
          guard_err (tipBlueScore <? blueScore chosenChildGHOSTDAGData) ErrChosenChildBlueScore ;;;
          if u64 (tipBlueScore - blueScore chosenChildGHOSTDAGData) <? reindexWindow rt then ret newReindexRoot
          else descendToRoot n selectedTip tipBlueScore chosenChild
      end
  end.

Definition findNextReindexRoot (currentReindexRoot selectedTip : DomainHash)
  : reachM (DomainHash * DomainHash) :=
  selectedTipGHOSTDAGData <- ghostdagOf selectedTip ;;
  isCurrentAncestorOfTip <- IsReachabilityTreeAncestorOf currentReindexRoot selectedTip ;;
  start <- (if negb isCurrentAncestorOfTip then
      currentRootGHOSTDAGData <- ghostdagOf currentReindexRoot ;;
      if (blueScore selectedTipGHOSTDAGData <? blueScore currentRootGHOSTDAGData)
         || (u64 (blueScore selectedTipGHOSTDAGData - blueScore currentRootGHOSTDAGData) <? reindexSlack rt)
      then ret None
      else
        commonAncestor <- findCommonAncestor fuel selectedTip currentReindexRoot ;;
        ret (Some commonAncestor)
    else ret (Some currentReindexRoot)) ;;
  match start with
  | None => ret (currentReindexRoot, currentReindexRoot)
  | Some start =>
      newReindexRoot <- descendToRoot fuel selectedTip (blueScore selectedTipGHOSTDAGData) start ;;
      ret (start, newReindexRoot)
  end.

(** The concentration of intervals from an ancestor of the new root down to it. *)
Fixpoint concentrateLoop (n : nat) (selectedTip newReindexRoot reindexRootAncestor : DomainHash) : reachM unit :=
  match n with
  | O => panic
  | S n =>
      chosenChild <- FindNextAncestor selectedTip reindexRootAncestor ;;
      let isFinalReindexRoot := bool_decide (chosenChild = newReindexRoot) in
      concentrateInterval reindexRootAncestor chosenChild isFinalReindexRoot ;;;
      if isFinalReindexRoot then ret tt else concentrateLoop n selectedTip newReindexRoot chosenChild
  end.

Definition updateReindexRoot (selectedTip : DomainHash) : reachM unit :=
  currentReindexRoot <- reindexRoot ;;
  if bool_decide (currentReindexRoot = selectedTip) then ret tt
  else
    match ghostdagDataStore rt currentReindexRoot with
    | None => stageReindexRoot selectedTip
    | Some _ =>
        r <- findNextReindexRoot currentReindexRoot selectedTip ;;
        let '(reindexRootAncestor, newReindexRoot) := r in
        if bool_decide (currentReindexRoot = newReindexRoot) then ret tt
        else
          newReindexContext ;;;
          (if negb (bool_decide (newReindexRoot = reindexRootAncestor))
           then concentrateLoop fuel selectedTip newReindexRoot reindexRootAncestor
           else ret tt) ;;;
          stageReindexRoot newReindexRoot
    end.

(** ** Entry points *)

Fixpoint insertToAll (nodes : list DomainHash) (futureNode : DomainHash) : reachM unit :=
  match nodes with
  | [] => ret tt
  | current :: nodes => insertToFutureCoveringSet current futureNode ;;; insertToAll nodes futureNode
  end.

Definition AddBlock (blockHash : DomainHash) : reachM unit :=
  stageData blockHash newReachabilityTreeData ;;;
  ghostdagData <- ghostdagOf blockHash ;;
  root <- reindexRoot ;;
  sp <- nonNil (selectedParent ghostdagData) ;;
  addChild sp blockHash root ;;;
  insertToAll (mergeSetBlues ghostdagData) blockHash ;;;
  insertToAll (mergeSetReds ghostdagData) blockHash.

(** The first block of the tree, [VirtualGenesisBlockHash]. *)
Definition Init (virtualGenesis : DomainHash) : reachM unit :=
  s <- get ;;
  if bool_decide (is_Some (rs_data s !! virtualGenesis)) then ret tt
  else
    stageData virtualGenesis newReachabilityTreeData ;;;
    stageReindexRoot virtualGenesis.
End Reindex.
