(* ===== verification/ReachTree.v ===== *)
(** * The reachability tree

    What it means that intervals index a tree, and the queries of [Reachability]
    answered on such a tree: containment of intervals is being an ancestor, and the
    binary searches find the only possible ancestor. *)

From S2P Require Import Prelude Float64 Interval Reachability.

(** ** The tree in the store *)

Definition ivl (s : reachState) (x : DomainHash) : option ReachabilityInterval := rs_data s !! x ≫= rd_interval.
Definition kids (s : reachState) (x : DomainHash) : list DomainHash :=
  match rs_data s !! x with Some d => rd_children d | None => [] end.
Definition par (s : reachState) (x : DomainHash) : option DomainHash := rs_data s !! x ≫= rd_parent.

(** [x] has the child [c]; [a] is an ancestor of [b] or the same node. *)
Definition childOf (s : reachState) (x c : DomainHash) : Prop := c ∈ kids s x.
#[export] Instance childOf_dec s x c : Decision (childOf s x c) := decide (c ∈ kids s x).
Definition anc (s : reachState) : DomainHash -> DomainHash -> Prop := rtc (childOf s).

(** Intervals one after the other between two bounds. *)
Fixpoint fits (lo hi : Z) (il : list ReachabilityInterval) : Prop :=
  match il with
  | [] => lo <= hi + 1
  | i :: il => lo <= Start i /\ Start i <= End i + 1 /\ fits (End i + 1) hi il
  end.

(** The interval of a node is not empty, and its children lie in it one after the other,
    leaving the last index to the node. *)
Definition indexed (s : reachState) (x : DomainHash) : Prop :=
  exists i il, ivl s x = Some i /\ Start i <= End i /\
    Forall2 (fun c ic => ivl s c = Some ic) (kids s x) il /\ fits (Start i) (End i - 1) il.

Record tree (s : reachState) (r : DomainHash) : Prop := {
  tree_root : par s r = None;
  tree_ivl : forall x, anc s r x -> is_Some (ivl s x);
  tree_par : forall x c, anc s r x -> childOf s x c -> par s c = Some x;
  tree_NoDup : forall x, anc s r x -> NoDup (kids s x)
}.

(** A tree whose intervals index it. *)
Record indexedTree (s : reachState) (r : DomainHash) : Prop := {
  it_tree : tree s r;
  it_valid : exists i, ivl s r = Some i /\ valid i;
  it_indexed : forall x, anc s r x -> indexed s x
}.

Lemma fits_lower lo lo' hi il : lo' <= lo -> fits lo hi il -> fits lo' hi il.
Proof. intros Hl. destruct il; cbn; [lia|]. intros (? & ? & ?). split_and!; [lia|done..]. Qed.

Lemma fits_bounds lo hi il : fits lo hi il -> lo <= hi + 1.
Proof. revert lo. induction il as [|i il IH]; intros lo; cbn; [done|]. intros (? & ? & ?%IH). lia. Qed.

Lemma fits_elem lo hi il i : fits lo hi il -> i ∈ il -> lo <= Start i /\ End i <= hi.
Proof.
  revert lo. induction il as [|j il IH]; intros lo; cbn; [set_solver|].
  intros (? & ? & Hf) [->|Hi]%elem_of_cons.
  - pose proof (fits_bounds _ _ _ Hf). lia.
  - specialize (IH _ Hf Hi). lia.
Qed.

Lemma fits_order lo hi il k k' i i' :
  fits lo hi il -> il !! k = Some i -> il !! k' = Some i' -> (k < k')%nat -> End i < Start i'.
Proof.
  revert lo k k'. induction il as [|j il IH]; intros lo k k' Hf Hk Hk' Hlt; [done|]. cbn in Hf.
  destruct Hf as (? & ? & Hf). destruct k' as [|k']; [lia|]. destruct k as [|k].
  - cbn in *. simplify_eq. apply list_elem_of_lookup_2 in Hk'. pose proof (fits_elem _ _ _ _ Hf Hk'). lia.
  - cbn in *. apply (IH _ k k' Hf); [done..|lia].
Qed.

(** ** Children and their intervals *)

Lemma ivls_ext s s' (l : list DomainHash) il :
  (forall c, c ∈ l -> ivl s' c = ivl s c) -> Forall2 (fun c ic => ivl s c = Some ic) l il ->
  Forall2 (fun c ic => ivl s' c = Some ic) l il.
Proof. intros Hc Hl. induction Hl; constructor; [rewrite Hc; [done|set_solver]|apply IHHl; set_solver]. Qed.

Lemma indexed_child s x c :
  indexed s x -> childOf s x c ->
  exists i ic, ivl s x = Some i /\ ivl s c = Some ic /\ Start i <= Start ic /\ End ic <= End i - 1.
Proof.
  intros (i & il & Hi & _ & Hf2 & Hfits) Hc. apply list_elem_of_lookup in Hc as [k Hk].
  destruct (Forall2_lookup_l _ _ _ _ _ Hf2 Hk) as (ic & Hic & Hc).
  exists i, ic. split_and!; [done..| |]; apply list_elem_of_lookup_2 in Hic; by eapply fits_elem in Hic as [? ?].
Qed.

(** Two children of one node have disjoint intervals. *)
Lemma indexed_siblings s x c c' ic ic' :
  indexed s x -> childOf s x c -> childOf s x c' -> c <> c' -> ivl s c = Some ic -> ivl s c' = Some ic' ->
  End ic < Start ic' \/ End ic' < Start ic.
Proof.
  intros (i & il & _ & _ & Hf2 & Hfits) Hc Hc' Hne Hic Hic'.
  apply list_elem_of_lookup in Hc as [k Hk]. apply list_elem_of_lookup in Hc' as [k' Hk'].
  destruct (Forall2_lookup_l _ _ _ _ _ Hf2 Hk) as (i1 & Hi1 & E1).
  destruct (Forall2_lookup_l _ _ _ _ _ Hf2 Hk') as (i2 & Hi2 & E2). simplify_eq.
  destruct (Nat.lt_trichotomy k k') as [Hlt|[->|Hlt]]; [left|by simplify_eq|right]; by eapply fits_order.
Qed.

Lemma anc_trans s x y z : anc s x y -> anc s y z -> anc s x z.
Proof. intros Hxy Hyz. unfold anc in *. by etransitivity. Qed.

Lemma anc_snoc s x y c : anc s x y -> childOf s y c -> anc s x c.
Proof. intros Hxy Hc. exact (rtc_r _ _ _ Hxy Hc). Qed.

(** Containment where the nodes that have children are indexed. *)
Section Inner.
Context (s : reachState) (r : DomainHash) (Hidx : forall x c, anc s r x -> childOf s x c -> indexed s x).

Lemma anc_contains a b ia ib :
  anc s r a -> anc s a b -> ivl s a = Some ia -> ivl s b = Some ib -> intervalContains ia ib = true.
Proof.
  intros Hra Hab. revert ia. induction Hab as [a|a c b Hac Hcb IH]; intros ia Hia Hib.
  - simplify_eq. unfold intervalContains. rewrite !(proj2 (Z.leb_le _ _)) by lia. done.
  - destruct (indexed_child s a c) as (ia' & ic & Hia' & Hic & H1 & H2); [eapply Hidx; eassumption|done|]. simplify_eq.
    assert (Hc : intervalContains ic ib = true) by (apply IH; [eapply anc_snoc; eassumption|done..]).
    unfold intervalContains in *. zbool. lia.
Qed.

Lemma contains_anc_below t a b ia ib :
  anc s r t -> anc s t a -> anc s t b -> ivl s a = Some ia -> ivl s b = Some ib -> Start ib <= End ib ->
  intervalContains ia ib = true -> anc s a b.
Proof.
  intros Hrt Hta. induction Hta as [a|t c a Htc Hca IH]; intros Htb Hia Hib Hne Hcon; [done|].
  assert (Hrc : anc s r c) by (eapply anc_snoc; eassumption).
  assert (Hra : anc s r a) by (eapply anc_trans; eassumption).
  destruct (indexed_child s t c) as (it & ic & Hit' & Hic & H1 & H2); [eapply Hidx; eassumption|done|].
  pose proof (anc_contains c a ic ia Hrc Hca Hic Hia) as Hca'.
  inversion Htb as [|? c' ? Htc' Hc'b]; subst.
  { simplify_eq. unfold intervalContains in *. zbool. lia. }
  destruct (decide (c = c')) as [<-|Hcc]; [by apply IH|]. exfalso.
  assert (Hrc' : anc s r c') by exact (anc_snoc _ _ _ _ Hrt Htc').
  destruct (indexed_child s t c') as (it' & ic' & Hit'' & Hic' & H1' & H2'); [eapply Hidx; eassumption|done|].
  pose proof (anc_contains c' b ic' ib Hrc' Hc'b Hic' Hib) as Hcb'.
  destruct (indexed_siblings s t c c' ic ic') as [Hd|Hd]; try done; [eapply Hidx; eassumption|..].
  all: unfold intervalContains in *; zbool; lia.
Qed.

(** Containment of intervals is being an ancestor. *)
Lemma contains_iff_anc a b ia ib :
  anc s r a -> anc s r b -> ivl s a = Some ia -> ivl s b = Some ib -> Start ib <= End ib ->
  intervalContains ia ib = true <-> anc s a b.
Proof.
  intros Hra Hrb Hia Hib Hne. split.
  - by apply (contains_anc_below r a b ia ib); [apply rtc_refl|..].
  - intros Hab. by apply (anc_contains a b).
Qed.
End Inner.

Section Indexed.
Context (s : reachState) (r : DomainHash) (Hit : indexedTree s r).

Lemma it_inner x c : anc s r x -> childOf s x c -> indexed s x.
Proof. intros Hx _. by apply Hit. Qed.

Lemma node_interval x : anc s r x -> exists i, ivl s x = Some i /\ Start i <= End i /\ valid i.
Proof.
  intros Hx. destruct (it_indexed _ _ Hit x Hx) as (i & il & Hi & Hne & _). exists i. split_and!; try done.
  destruct (it_valid _ _ Hit) as (ir & Hir & Hv).
  pose proof (anc_contains s r it_inner r x ir i (rtc_refl _ _) Hx Hir Hi) as Hcon.
  unfold intervalContains, valid in *. zbool. lia.
Qed.
End Indexed.

(** ** Running the queries *)

Lemma interval_run s x i : ivl s x = Some i -> interval x s = (Ret i, s).
Proof.
  unfold ivl, interval, reachabilityDataOf, bind, get. destruct (rs_data s !! x) as [d|]; [|done]. cbn.
  intros Hi. by rewrite Hi.
Qed.

Lemma children_run s x : is_Some (ivl s x) -> children x s = (Ret (kids s x), s).
Proof.
  unfold ivl, kids, children, reachabilityDataOf, bind, get. intros [i Hi].
  by destruct (rs_data s !! x) as [d|].
Qed.

Lemma parent_run s x : is_Some (ivl s x) -> parent x s = (Ret (par s x), s).
Proof.
  unfold ivl, par, parent, reachabilityDataOf, bind, get. intros [i Hi].
  by destruct (rs_data s !! x) as [d|].
Qed.

(** The tree query is exact: on an indexed tree, for any two nodes,
    [IsReachabilityTreeAncestorOf] succeeds and tells whether the first is an
    ancestor of the second, or the same node. *)
Lemma tree_query_exact s r a b :
  indexedTree s r -> anc s r a -> anc s r b ->
  exists res, IsReachabilityTreeAncestorOf a b s = (Ret res, s) /\ (res = true <-> anc s a b).
Proof.
  intros Hit Ha Hb. destruct (node_interval s r Hit a Ha) as (ia & Hia & _).
  destruct (node_interval s r Hit b Hb) as (ib & Hib & Hne & _).
  unfold IsReachabilityTreeAncestorOf. rewrite (bind_Ret _ _ _ _ _ (interval_run s a ia Hia)).
  rewrite (bind_Ret _ _ _ _ _ (interval_run s b ib Hib)). eexists. split; [done|].
  by apply (contains_iff_anc s r (it_inner s r Hit)).
Qed.

(** ** The binary search *)

(** Nodes with their intervals in order. *)
Definition starts (s : reachState) (tns : list DomainHash) (il : list ReachabilityInterval) : Prop :=
  Forall2 (fun c ic => ivl s c = Some ic) tns il /\
  forall k k' i i', (k < k')%nat -> il !! k = Some i -> il !! k' = Some i' -> Start i <= Start i'.

Lemma searchLoop_spec s tns il e n low high :
  starts s tns il -> 0 <= low <= high -> high <= len tns -> high - low <= Z.of_nat n ->
  exists k, searchLoop n tns e low high s = (Ret k, s) /\ low <= k <= high /\
    (forall j i, low <= Z.of_nat j < k -> il !! j = Some i -> Start i <= e) /\
    (forall j i, k <= Z.of_nat j < high -> il !! j = Some i -> e < Start i).
Proof.
  intros [Hf2 Hmono]. revert low high. induction n as [|n IH]; intros low high Hlow Hhigh Hn; cbn [searchLoop];
    (destruct (Z.ltb_spec low high); [|exists low; split_and!; [done|lia|lia|lia|lia]]); [lia|].
  set (mid := (low + high) / 2). assert (Hmid : low <= mid < high).
  { unfold mid. pose proof (Z.div_mod (low + high) 2). pose proof (Z.mod_pos_bound (low + high) 2). lia. }
  destruct (lookup_lt_is_Some_2 tns (Z.to_nat mid)) as [x Hx]; [unfold len in *; lia|].
  destruct (Forall2_lookup_l _ _ _ _ _ Hf2 Hx) as (ix & Hix & Hivl).
  erewrite bind_Ret by (rewrite <- (Z2Nat.id mid) by lia; by apply index_run).
  erewrite bind_Ret by by apply interval_run.
  destruct (Z.ltb_spec e (Start ix)).
  - destruct (IH low mid) as (k & Hrun & Hk & Hl & Hr); [lia..|]. exists k. split_and!; [done|lia|lia|done|].
    intros j i Hj Hi. destruct (Z.ltb_spec (Z.of_nat j) mid); [apply (Hr j); [lia|done]|].
    destruct (decide (j = Z.to_nat mid)) as [->|Hne]; [by simplify_eq|].
    pose proof (Hmono (Z.to_nat mid) j ix i ltac:(lia) Hix Hi). lia.
  - destruct (IH (mid + 1) high) as (k & Hrun & Hk & Hl & Hr); [lia..|]. exists k. split_and!; [done|lia|lia| |done].
    intros j i Hj Hi. destruct (Z.ltb_spec mid (Z.of_nat j)); [apply (Hl j); [lia|done]|].
    destruct (decide (j = Z.to_nat mid)) as [->|Hne]; [by simplify_eq|].
    pose proof (Hmono j (Z.to_nat mid) i ix ltac:(lia) Hi Hix). lia.
Qed.

(** The search returns the last node that starts at or before [e], if any. *)
Lemma findByEnd_spec s tns il e :
  starts s tns il ->
  (findAncestorIndexOfNodeByIntervalEnd tns e s = (Ret None, s) /\ forall i, i ∈ il -> e < Start i) \/
  (exists k i, findAncestorIndexOfNodeByIntervalEnd tns e s = (Ret (Some (Z.of_nat k)), s) /\
     il !! k = Some i /\ Start i <= e /\ forall k' i', (k < k')%nat -> il !! k' = Some i' -> e < Start i').
Proof.
  intros Hst. destruct (searchLoop_spec s tns il e (length tns) 0 (len tns) Hst) as (k & Hrun & Hk & Hl & Hr);
    [unfold len; lia..|].
  pose proof (Forall2_length (proj1 Hst)) as Hlen.
  unfold findAncestorIndexOfNodeByIntervalEnd. rewrite (bind_Ret _ _ _ _ _ Hrun).
  destruct (Z.eqb_spec k 0) as [->|Hne]; [left|right].
  - split; [done|]. intros i [j Hj]%list_elem_of_lookup. apply (Hr j); [|done].
    apply lookup_lt_Some in Hj. unfold len. lia.
  - destruct (lookup_lt_is_Some_2 il (Z.to_nat (k - 1))) as [i Hi]; [unfold len in *; lia|].
    exists (Z.to_nat (k - 1)), i. split_and!; [|done|apply (Hl (Z.to_nat (k - 1))); [lia|done]|].
    + rewrite Z2Nat.id by lia. done.
    + intros k' i' Hk' Hi'. apply (Hr k'); [|done]. apply lookup_lt_Some in Hi'. unfold len. lia.
Qed.

Lemma fits_starts s tns il lo hi :
  Forall2 (fun c ic => ivl s c = Some ic) tns il -> fits lo hi il -> starts s tns il.
Proof.
  intros Hf2 Hf. split; [done|]. intros k k' i i' Hlt Hi Hi'.
  pose proof (fits_order _ _ _ _ _ _ _ Hf Hi Hi' Hlt).
  assert (Hne : Start i <= End i + 1); [|lia]. clear -Hf Hi. revert lo k Hf Hi.
  induction il as [|j il IH]; intros lo k Hf Hi; [done|]. cbn in Hf. destruct Hf as (? & ? & Hf).
  destruct k; cbn in Hi; [by simplify_eq|by eapply IH].
Qed.

(** A node whose interval covers [e] is the one found. *)
Lemma findByEnd_covering s tns il lo hi k c ic e :
  Forall2 (fun c ic => ivl s c = Some ic) tns il -> fits lo hi il ->
  tns !! k = Some c -> ivl s c = Some ic -> Start ic <= e <= End ic ->
  findAncestorIndexOfNodeByIntervalEnd tns e s = (Ret (Some (Z.of_nat k)), s).
Proof.
  intros Hf2 Hf Hk Hic He. destruct (Forall2_lookup_l _ _ _ _ _ Hf2 Hk) as (i & Hi & Hi'). simplify_eq.
  destruct (findByEnd_spec s tns il e (fits_starts _ _ _ _ _ Hf2 Hf)) as [[_ Hno]|(k' & i' & Hrun & Hk' & Hs & Hnext)].
  - apply list_elem_of_lookup_2 in Hi. specialize (Hno _ Hi). lia.
  - destruct (Nat.lt_trichotomy k k') as [Hlt|[->|Hlt]]; [|done|].
    + pose proof (fits_order _ _ _ _ _ _ _ Hf Hi Hk' Hlt). lia.
    + pose proof (Hnext k ic Hlt Hi). lia.
Qed.

Lemma insertSorted_last {A} (less : A -> A -> bool) x l :
  (forall y, y ∈ l -> less x y = false) -> insertSorted less x l = l ++ [x].
Proof.
  induction l as [|y l IH]; intros Hx; [done|]. cbn. rewrite (Hx y) by set_solver.
  f_equal. apply IH. set_solver.
Qed.

(** Sorting leaves a sorted slice alone. *)
Lemma sortSlice_id {A} (less : A -> A -> bool) l :
  (forall k k' x x', (k < k')%nat -> l !! k = Some x -> l !! k' = Some x' -> less x' x = false) ->
  sortSlice less l = l.
Proof.
  intros Hl. unfold sortSlice. assert (Hgen : forall l2 l1, l = l1 ++ l2 ->
    foldl (fun sorted x => insertSorted less x sorted) l1 l2 = l).
  { induction l2 as [|x l2 IH]; intros l1 E; cbn; [by rewrite app_nil_r in E|].
    rewrite insertSorted_last; [apply IH; by rewrite <- app_assoc|].
    intros y [k Hk]%list_elem_of_lookup. apply (Hl k (length l1) y x).
    - by eapply lookup_lt_Some.
    - rewrite E. by apply lookup_app_l_Some.
    - rewrite E, lookup_app_r, Nat.sub_diag by lia. done. }
  by apply Hgen.
Qed.

Lemma FindNextAncestor_run s a b c il lo hi ic ib :
  a <> b -> is_Some (ivl s a) ->
  Forall2 (fun c ic => ivl s c = Some ic) (kids s a) il -> fits lo hi il ->
  childOf s a c -> ivl s c = Some ic -> ivl s b = Some ib -> Start ic <= End ib <= End ic ->
  FindNextAncestor b a s = (Ret c, s).
Proof.
  intros Hab Ha Hf2 Hf Hc Hic Hib He. unfold FindNextAncestor.
  erewrite bind_Ret by (unfold guard_err; by rewrite bool_decide_eq_false_2).
  erewrite bind_Ret by by apply children_run. erewrite bind_Ret by done.
  rewrite sortSlice_id.
  - apply list_elem_of_lookup in Hc as [k Hk].
    assert (Hfind : findAncestorOfNode (kids s a) b s = (Ret (Some c), s)); [|by rewrite (bind_Ret _ _ _ _ _ Hfind)].
    unfold findAncestorOfNode. erewrite bind_Ret by (unfold try, findAncestorIndexOfNode;
      by erewrite bind_Ret, findByEnd_covering by (done || by apply interval_run)).
    cbn match. by erewrite bind_Ret by by apply index_run.
  - intros k k' x x' Hlt Hx Hx'. unfold startsBefore.
    destruct (Forall2_lookup_l _ _ _ _ _ Hf2 Hx) as (i & Hi & Ei).
    destruct (Forall2_lookup_l _ _ _ _ _ Hf2 Hx') as (i' & Hi' & Ei'). unfold ivl in Ei, Ei'. rewrite Ei, Ei'.
    apply Z.ltb_ge. by eapply (proj2 (fits_starts _ _ _ _ _ Hf2 Hf)).
Qed.

(** [FindNextAncestor] finds the way down: on an indexed tree, for a node and one
    of its strict descendants it returns the child of the node that is an ancestor of
    the descendant. *)
Lemma FindNextAncestor_exact s r a b :
  indexedTree s r -> anc s r a -> anc s a b -> a <> b ->
  exists c, FindNextAncestor b a s = (Ret c, s) /\ childOf s a c /\ anc s c b.
Proof.
  intros Hit Hra Hab Hne. inversion Hab as [|? c ? Hac Hcb]; subst; [done|].
  exists c. split_and!; [|done..]. destruct (it_indexed _ _ Hit a Hra) as (i & il & Hi & _ & Hf2 & Hf).
  assert (Hrc : anc s r c) by (eapply rtc_r; [exact Hra|exact Hac]).
  destruct (node_interval s r Hit c Hrc) as (ic & Hic & Hc1 & _).
  assert (Hrb : anc s r b) by (eapply anc_trans; [exact Hrc|exact Hcb]).
  destruct (node_interval s r Hit b Hrb) as (ib & Hib & Hb1 & _).
  pose proof (anc_contains s r (it_inner s r Hit) c b ic ib Hrc Hcb Hic Hib) as Hcon.
  eapply (FindNextAncestor_run s a b c); try done. unfold intervalContains in Hcon. zbool. lia.
Qed.

(** ** An example *)

(** The nodes a set of nodes closed under children holds. *)
Lemma anc_closed s r l x :
  r ∈ l -> Forall (fun x => Forall (fun c => c ∈ l) (kids s x)) l -> anc s r x -> x ∈ l.
Proof.
  intros Hr Hl. induction 1 as [|r c x Hc _ IH]; [done|]. apply IH.
  rewrite list.Forall_forall in Hl. specialize (Hl r Hr). rewrite list.Forall_forall in Hl. by apply Hl.
Qed.

(** An indexed tree, by its nodes. *)
Lemma indexedTree_of_nodes s r l :
  r ∈ l -> par s r = None -> (exists i, ivl s r = Some i /\ valid i) ->
  Forall (fun x => Forall (fun c => c ∈ l /\ par s c = Some x) (kids s x) /\ NoDup (kids s x) /\ indexed s x) l ->
  indexedTree s r.
Proof.
  intros Hr Hp Hi Hl. assert (Hn : forall x, anc s r x -> x ∈ l).
  { intros x. apply anc_closed; [done|]. eapply list.Forall_impl; [exact Hl|]. intros y (Hy & _).
    eapply list.Forall_impl; [exact Hy|]. by intros c [? _]. }
  rewrite list.Forall_forall in Hl. split; [split|..]; try done.
  - intros x Hx. destruct (Hl x (Hn x Hx)) as (_ & _ & i & il & Hxi & _). eauto.
  - intros x c Hx Hc. destruct (Hl x (Hn x Hx)) as (Hk & _). rewrite list.Forall_forall in Hk. by apply Hk.
  - intros x Hx. by destruct (Hl x (Hn x Hx)) as (_ & ? & _).
  - intros x Hx. by destruct (Hl x (Hn x Hx)) as (_ & _ & ?).
Qed.

(** Hashes for examples. *)
Definition hashOf (k : Z) : DomainHash := bytes_of [k].
