(* ===== verification/ReachCount.v ===== *)
(** * Sizes of subtrees

    [countSubtrees] of
    [src/domain/consensus/processes/reachabilitymanager/reindex_context.go] against
    the sizes of subtrees as the tree defines them.  The states of a reindexing differ
    in intervals and in the cache of sizes only: they are over one state, which
    gives the tree. *)

From S2P Require Import Prelude Float64 Interval Reachability ReachTree.

(** ** States over one tree *)

(** What reindexing leaves alone. *)
Definition frame (d : reachabilityData) : list DomainHash * option DomainHash * list DomainHash * bool :=
  (rd_children d, rd_parent d, rd_futureCoveringSet d, bool_decide (is_Some (rd_interval d))).

Definition over (s0 s : reachState) : Prop :=
  rs_reindexRoot s = rs_reindexRoot s0 /\ forall x, frame <$> rs_data s !! x = frame <$> rs_data s0 !! x.

#[export] Instance over_equivalence : Equivalence over.
Proof.
  split.
  - by split.
  - intros s s' [H1 H2]. split; [done|]. intros x. by rewrite H2.
  - intros s s' s'' [H1 H2] [H3 H4]. split; [congruence|]. intros x. by rewrite H4, H2.
Qed.

Section Over.
Context (s0 s : reachState) (Hov : over s0 s).

Lemma over_kids x : kids s x = kids s0 x.
Proof.
  pose proof (proj2 Hov x) as Hx. unfold kids. destruct (rs_data s !! x), (rs_data s0 !! x); cbn in Hx; by simplify_eq.
Qed.

Lemma over_par x : par s x = par s0 x.
Proof.
  pose proof (proj2 Hov x) as Hx. unfold par. destruct (rs_data s !! x), (rs_data s0 !! x); cbn in Hx; by simplify_eq.
Qed.

Lemma over_ivl x : is_Some (ivl s x) <-> is_Some (ivl s0 x).
Proof.
  pose proof (proj2 Hov x) as Hx. unfold ivl. destruct (rs_data s !! x), (rs_data s0 !! x); cbn in Hx; try done.
  unfold frame in Hx. injection Hx as _ _ _ Hb. cbn. repeat case_bool_decide; done.
Qed.

Lemma over_anc x y : anc s x y <-> anc s0 x y.
Proof.
  split; induction 1 as [|x c y Hc _ IH]; try apply rtc_refl; eapply rtc_l; [|exact IH| |exact IH];
    unfold childOf in *; by rewrite over_kids in *.
Qed.
End Over.

(** ** The size of a subtree *)

#[warnings="-register-all"]
Inductive sized (s : reachState) : DomainHash -> Z -> Prop :=
| sized_node x ns : Forall2 (sized s) (kids s x) ns -> sized s x (1 + zsum ns).

Lemma sized_nested s (P : DomainHash -> Z -> Prop)
    (HP : forall x ns, Forall2 (sized s) (kids s x) ns -> Forall2 P (kids s x) ns -> P x (1 + zsum ns)) :
  forall x n, sized s x n -> P x n.
Proof.
  fix F 3. intros x n H. destruct H as [x ns Hns]. apply HP; [exact Hns|].
  induction Hns as [|c m cs ns Hc _ IH]; constructor; [apply F; exact Hc|exact IH].
Qed.

Lemma sized_pos s x n : sized s x n -> 1 <= n.
Proof.
  induction 1 as [x ns _ IH] using sized_nested. assert (0 <= zsum ns); [|lia].
  apply zsum_nonneg. by induction IH; constructor; [lia|].
Qed.

Lemma zsum_elem l n : Forall (Z.le 0) l -> n ∈ l -> n <= zsum l.
Proof.
  induction 1 as [|m l Hm Hl IH]; [set_solver|]. pose proof (zsum_nonneg l Hl).
  intros [->|Hn]%elem_of_cons; cbn; [lia|]. specialize (IH Hn). lia.
Qed.

Lemma sizes_nonneg s cs ns : Forall2 (sized s) cs ns -> Forall (Z.le 0) ns.
Proof. induction 1; constructor; [|done]. pose proof (sized_pos _ _ _ H). lia. Qed.

Lemma sized_fun s x n m : sized s x n -> sized s x m -> n = m.
Proof.
  intros Hn. revert m. induction Hn as [x ns _ IH] using sized_nested. intros m Hm.
  inversion Hm as [? ms Hms]; subst. do 2 f_equal. clear Hm. revert ms Hms.
  induction IH as [|c n cs ns Hc _ IH]; intros ms Hms; inversion Hms; subst; [done|]. f_equal; auto.
Qed.

Lemma sized_child s x n c : sized s x n -> childOf s x c -> exists m, sized s c m /\ m < n.
Proof.
  intros Hn Hc. inversion Hn as [? ns Hns]; subst. apply list_elem_of_lookup in Hc as [k Hk].
  destruct (Forall2_lookup_l _ _ _ _ _ Hns Hk) as (m & Hm & Hs). exists m. split; [done|].
  apply list_elem_of_lookup_2 in Hm. pose proof (zsum_elem _ _ (sizes_nonneg _ _ _ Hns) Hm). lia.
Qed.

Lemma sized_anc s x n y : sized s x n -> anc s x y -> exists m, sized s y m /\ m <= n /\ (x <> y -> m < n).
Proof.
  intros Hn Hxy. revert n Hn. induction Hxy as [x|x c y Hc _ IH]; intros n Hn.
  - exists n. split_and!; [done|lia|done].
  - destruct (sized_child _ _ _ _ Hn Hc) as (k & Hk & ?). destruct (IH k Hk) as (m & ? & ? & _).
    exists m. split_and!; [done|lia|lia].
Qed.

Lemma sized_antisym s x n y : sized s x n -> anc s x y -> anc s y x -> x = y.
Proof.
  intros Hn Hxy Hyx. destruct (decide (x = y)) as [|Hne]; [done|].
  destruct (sized_anc _ _ _ _ Hn Hxy) as (m & Hm & _ & Hlt). destruct (sized_anc _ _ _ _ Hm Hyx) as (n' & Hn' & Hle & _).
  pose proof (sized_fun _ _ _ _ Hn Hn'). specialize (Hlt Hne). lia.
Qed.

(** In a finite subtree it is decidable what it holds. *)
Lemma anc_or_not s x n y : sized s x n -> anc s x y \/ ~ anc s x y.
Proof.
  induction 1 as [x ns _ IH] using sized_nested. destruct (decide (x = y)) as [->|Hne]; [left; constructor|].
  assert (Hk : (exists c, childOf s x c /\ anc s c y) \/ forall c, childOf s x c -> ~ anc s c y).
  { unfold childOf. induction IH as [|c n cs ns [Hc|Hc] _ IH]; [right; set_solver| |].
    - left. exists c. split; [set_solver|done].
    - destruct IH as [(d & ? & ?)|IH]; [left; exists d; split; [set_solver|done]|]. right. set_solver. }
  destruct Hk as [(c & Hc & Hcy)|Hk]; [left; by eapply rtc_l|right]. intros Hxy.
  apply rtc_inv in Hxy as [?|(c & Hc & Hcy)]; [done|]. by eapply Hk.
Qed.

Lemma sized_kids s x n : sized s x n -> len (kids s x) < n.
Proof.
  inversion 1 as [? ns Hns]; subst. clear -Hns. unfold len. induction Hns as [|c m cs ns Hc _ IH]; cbn; [lia|].
  pose proof (sized_pos _ _ _ Hc). lia.
Qed.

Lemma sized_ext s0 s x n : (forall y, kids s y = kids s0 y) -> sized s0 x n -> sized s x n.
Proof. intros Hk. induction 1 as [x ns _ IH] using sized_nested. constructor. by rewrite Hk. Qed.

Lemma over_sized s0 s x n : over s0 s -> sized s x n <-> sized s0 x n.
Proof.
  intros Hov. split; apply sized_ext; intros y; by rewrite (over_kids _ _ Hov).
Qed.

(** ** Running the reindexing *)

Lemma over_children_run s0 s x : over s0 s -> is_Some (ivl s0 x) -> children x s = (Ret (kids s0 x), s).
Proof. intros Hov Hx. rewrite children_run by by apply (over_ivl s0). by rewrite (over_kids s0). Qed.

Lemma over_parent_run s0 s x : over s0 s -> is_Some (ivl s0 x) -> parent x s = (Ret (par s0 x), s).
Proof. intros Hov Hx. rewrite parent_run by by apply (over_ivl s0). by rewrite (over_par s0). Qed.

Definition withCache (f : gmap DomainHash Z -> gmap DomainHash Z) (s : reachState) : reachState :=
  MkReachState (rs_data s) (rs_reindexRoot s) (f (subTreeSizesCache s)).

Lemma setCache_run f s : setCache f s = (Ret tt, withCache f s).
Proof. done. Qed.

Lemma withCache_over f s : over s (withCache f s).
Proof. by split. Qed.

Lemma cached_sum s0 s cs ns :
  Forall2 (sized s0) cs ns -> zsum ns < 2 ^ 64 ->
  Forall2 (fun c n => subTreeSizesCache s !! c = Some n) cs ns -> sumU64 (map (cached s) cs) = zsum ns.
Proof.
  intros Hs Hlt Hf. assert (E : map (cached s) cs = ns).
  { induction Hf as [|c n cs ns Hc _ IH]; [done|]. inversion Hs; subst. cbn in Hlt |- *.
    pose proof (sized_pos _ _ _ H2). rewrite IH by (done || lia). unfold cached. by rewrite Hc. }
  rewrite E. apply sumU64_zsum; [by eapply sizes_nonneg|done].
Qed.

(** How many of the nodes are in a set. *)
Definition countIn (D : gset DomainHash) (cs : list DomainHash) : Z := len (filter (fun c => c ∈ D) cs).

Lemma countIn_insert D cs x :
  NoDup cs -> x ∉ D -> countIn ({[x]} ∪ D) cs = countIn D cs + (if decide (x ∈ cs) then 1 else 0).
Proof.
  intros Hnd Hx. unfold countIn, len. induction Hnd as [|c cs Hc Hnd IH]; [by rewrite decide_False by apply not_elem_of_nil|].
  rewrite !filter_cons. destruct (decide (x = c)) as [<-|Hne].
  - rewrite (decide_True (P:=x ∈ {[x]} ∪ D)), (decide_False (P:=x ∈ D)) by set_solver.
    rewrite (decide_True (P:=x ∈ x :: cs)) by set_solver. rewrite decide_False in IH by done. cbn. lia.
  - rewrite (decide_ext (c ∈ {[x]} ∪ D) (c ∈ D)) by set_solver.
    rewrite (decide_ext (x ∈ c :: cs) (x ∈ cs)) by set_solver. destruct (decide (c ∈ D)); cbn; lia.
Qed.

Lemma countIn_full D cs : countIn D cs = len cs -> forall c, c ∈ cs -> c ∈ D.
Proof.
  unfold countIn, len. induction cs as [|c cs IH]; [set_solver|]. rewrite filter_cons.
  pose proof (length_filter (fun c => c ∈ D) cs). destruct (decide (c ∈ D)); cbn; intros Hl c'; [|lia].
  intros [->|Hc']%elem_of_cons; [done|]. apply IH; [lia|done].
Qed.

Lemma countIn_none D cs : (forall c, c ∈ cs -> c ∉ D) -> countIn D cs = 0.
Proof.
  unfold countIn, len. induction cs as [|c cs IH]; [done|]. intros Hc. rewrite filter_cons, decide_False by set_solver.
  apply IH. set_solver.
Qed.

(** ** Counting *)

Section Counting.
Context `{GoArch} (fuel : nat) (s0 : reachState) (r node : DomainHash) (N : Z).
Context (Ht : tree s0 r) (Hnode : anc s0 r node) (HN : sized s0 node N) (HN64 : N < 2 ^ 64).

(** The cache holds right sizes, and with a node its whole subtree. *)
Definition cacheOk (s : reachState) : Prop :=
  forall x n, subTreeSizesCache s !! x = Some n ->
    sized s0 x n /\ forall c, childOf s0 x c -> is_Some (subTreeSizesCache s !! c).

(** The child whose completion has not been counted yet. *)
Definition pending (cur : option DomainHash) (e : DomainHash) : Z :=
  match cur with
  | Some c => if decide (c <> node /\ par s0 c = Some e) then 1 else 0
  | None => 0
  end.

(** The loop: [Q] is queued, [E] is waiting for its children, [D] is done. *)
Record counting (s : reachState) (Q : list DomainHash) (E D : gset DomainHash) (cnt : gmap DomainHash Z)
    (cur : option DomainHash) : Prop := {
  cn_over : over s0 s;
  cn_cache : cacheOk s;
  cn_NoDup : NoDup Q;
  cn_QE : forall x, x ∈ Q -> x ∉ E /\ x ∉ D;
  cn_ED : E ## D;
  cn_under : forall x, x ∈ Q \/ x ∈ E \/ x ∈ D -> anc s0 node x;
  cn_up : forall x, x ∈ Q \/ x ∈ E -> x = node \/ exists p, par s0 x = Some p /\ p ∈ E;
  cn_upD : forall x, x ∈ D -> x = node \/ exists p, par s0 x = Some p /\ (p ∈ E \/ p ∈ D);
  cn_node : node ∈ Q \/ node ∈ E \/ node ∈ D;
  cn_wait : forall e, e ∈ E -> subTreeSizesCache s !! e = None /\
    (forall c, childOf s0 e c -> c ∈ Q \/ c ∈ E \/ c ∈ D) /\
    default 0 (cnt !! e) + pending cur e = countIn D (kids s0 e) /\
    0 <= default 0 (cnt !! e) < len (kids s0 e);
  cn_done : forall d, d ∈ D -> is_Some (subTreeSizesCache s !! d);
  cn_zero : forall x, x ∉ E -> x ∉ D -> default 0 (cnt !! x) = 0
}.

Lemma under_r x : anc s0 node x -> anc s0 r x.
Proof. by apply (anc_trans s0). Qed.

Lemma under_size x : anc s0 node x -> exists n, sized s0 x n /\ n <= N /\ (node <> x -> n < N).
Proof. intros Hx. by apply (sized_anc s0 node). Qed.

(** The root of the counted subtree is no child in it. *)
Lemma node_no_child x c : anc s0 node x -> childOf s0 x c -> c <> node.
Proof.
  intros Hx Hc ->. destruct (under_size x Hx) as (n & Hn & Hle & _).
  destruct (sized_child _ _ _ _ Hn Hc) as (m & Hm & Hlt). pose proof (sized_fun _ _ _ _ HN Hm). lia.
Qed.

Lemma par_child x p : anc s0 node x -> x <> node -> par s0 x = Some p -> childOf s0 p x /\ anc s0 node p.
Proof.
  intros Hx Hne Hp. apply rtc_inv_r in Hx as [->|(q & Hq & Hqx)]; [done|].
  rewrite (tree_par _ _ Ht q x) in Hp by (done || by apply under_r). by simplify_eq.
Qed.

Lemma counting_top s Q E D cnt : counting s Q E D cnt (Some node) -> counting s Q E D cnt None.
Proof.
  intros [? ? ? ? ? ? ? ? ? Hw ? ?]. split; try done. intros e He. specialize (Hw e He). cbn in *.
  by rewrite decide_False in Hw by (intros [? _]; done).
Qed.

Lemma counting_bump s Q E D cnt c p :
  counting s Q E D cnt (Some c) -> c <> node -> par s0 c = Some p -> p ∈ E ->
  default 0 (cnt !! p) + 1 < len (kids s0 p) ->
  counting s Q E D (<[p := default 0 (cnt !! p) + 1]> cnt) None.
Proof.
  intros [? ? ? ? ? ? ? ? ? Hw ? Hz] Hc Hp HpE Hlt. split; try done.
  - intros e He. specialize (Hw e He). cbn [pending] in *. destruct (decide (e = p)) as [->|Hne].
    + rewrite decide_True in Hw by done. rewrite lookup_insert. cbn. rewrite decide_True by done. cbn.
      destruct Hw as (? & ? & ? & ?). split_and!; [done|done|lia..].
    + rewrite decide_False in Hw by (intros [_ ?]; congruence). by rewrite lookup_insert_ne.
  - intros x Hx HxD. rewrite lookup_insert_ne; [by apply Hz|]. by intros ->.
Qed.

Lemma all_done_cached s Q E D cnt cur p :
  counting s Q E D cnt cur -> anc s0 node p -> (forall c, childOf s0 p c -> c ∈ D) ->
  exists ns, Forall2 (sized s0) (kids s0 p) ns /\
    Forall2 (fun c n => subTreeSizesCache s !! c = Some n) (kids s0 p) ns.
Proof.
  intros Hcn Hp Hall. destruct (under_size p Hp) as (n & Hn & _). inversion Hn as [? ns Hns]; subst.
  exists ns. split; [done|]. clear Hn. unfold childOf in Hall.
  induction Hns as [|c n cs ns Hc Hns IH]; constructor; [|apply IH; set_solver].
  destruct (cn_done _ _ _ _ _ _ Hcn c) as [m Hm]; [apply Hall; set_solver|].
  destruct (cn_cache _ _ _ _ _ _ Hcn _ _ Hm) as [Hs _]. by rewrite (sized_fun _ _ _ _ Hc Hs).
Qed.

Lemma counting_finish s Q E D cnt c p n :
  counting s Q E D cnt (Some c) -> c <> node -> par s0 c = Some p -> p ∈ E ->
  default 0 (cnt !! p) + 1 = len (kids s0 p) -> sized s0 p n ->
  counting (withCache <[p := n]> s) Q (E ∖ {[p]}) ({[p]} ∪ D) (<[p := default 0 (cnt !! p) + 1]> cnt) (Some p).
Proof.
  intros Hcn Hc Hp HpE Hlen Hn. pose proof Hcn as [Hov Hca Hnd HQ HED Hun Hup HupD Hno Hw Hdo Hz].
  assert (Hall : forall c, childOf s0 p c -> c ∈ D).
  { apply countIn_full. destruct (Hw p HpE) as (_ & _ & Hcnt & _). cbn [pending] in Hcnt.
    rewrite decide_True in Hcnt by done. lia. }
  assert (Hpn : anc s0 node p) by set_solver.
  split; cbn [withCache subTreeSizesCache]; try done.
  - intros x m. cbn [withCache subTreeSizesCache]. destruct (decide (x = p)) as [->|Hne].
    + rewrite lookup_insert_eq. intros [= <-]. split; [done|]. intros c' Hc'.
      rewrite lookup_insert_is_Some'. right. by apply Hdo, Hall.
    + rewrite lookup_insert_ne by done. intros Hx. destruct (Hca x m Hx) as [? Hk]. split; [done|].
      intros c' Hc'. rewrite lookup_insert_is_Some'. right. by apply Hk.
  - set_solver.
  - set_solver.
  - set_solver.
  - intros x Hx. assert (Hx' : x ∈ Q \/ x ∈ E) by set_solver. destruct (Hup x Hx') as [->|(q & Hq & HqE)]; [by left|].
    destruct (decide (x = node)) as [->|Hxn]; [by left|]. right. exists q. split; [done|].
    assert (q <> p); [|set_solver]. intros ->.
    assert (x ∈ D); [|set_solver]. apply Hall. eapply par_child; [|done|done]. set_solver.
  - intros x [->%elem_of_singleton|Hx]%elem_of_union.
    + destruct (Hup p) as [?|(q & Hq & HqE)]; [by right|by left|]. right. exists q. split; [done|].
      destruct (decide (q = p)); set_solver.
    + destruct (HupD x Hx) as [?|(q & Hq & HqE)]; [by left|]. right. exists q. split; [done|].
      destruct (decide (q = p)); set_solver.
  - destruct (decide (node = p)); set_solver.
  - intros e He. assert (HeE : e ∈ E) by set_solver. assert (Hep : e <> p) by set_solver.
    destruct (Hw e HeE) as (Hce & Hke & Hcnt & Hl). rewrite !lookup_insert_ne by done. split_and!; [done| | |lia|lia].
    + intros c' Hc'. destruct (decide (c' = p)); [set_solver|]. specialize (Hke c' Hc'). set_solver.
    + rewrite countIn_insert; [|apply (tree_NoDup _ _ Ht), under_r; set_solver|set_solver].
      rewrite <- Hcnt. cbn [pending]. rewrite (decide_False (P:=c <> node /\ par s0 c = Some e)) by (intros [_ ?]; congruence).
      rewrite Z.add_0_r. f_equal. assert (Hen : anc s0 node e) by set_solver.
      destruct (decide (p ∈ kids s0 e)) as [Hin|Hni].
      * rewrite decide_True; [done|]. split; [by eapply node_no_child|]. apply (tree_par _ _ Ht); [by apply under_r|done].
      * rewrite decide_False; [done|]. intros [Hpn' Hpe]. apply Hni. by eapply par_child.
  - intros d [->%elem_of_singleton|Hd]%elem_of_union; rewrite lookup_insert_is_Some'; [by left|right; by apply Hdo].
  - intros x HxE HxD. rewrite lookup_insert_ne by set_solver. apply Hz; set_solver.
Qed.

Lemma pushUp_run n s Q E D cnt c m :
  counting s Q E D cnt (Some c) -> anc s0 node c -> sized s0 c m -> N - m <= Z.of_nat n ->
  (c = node \/ exists p, par s0 c = Some p /\ p ∈ E) ->
  exists cnt' s' E' D', pushUp n node c cnt s = (Ret cnt', s') /\
    counting s' Q E' D' cnt' None /\ rs_data s' = rs_data s.
Proof.
  revert s E D cnt c m. induction n as [|n IH]; intros s E D cnt c m Hcn Hc Hm Hn Hup; cbn [pushUp].
  all: destruct (decide (c = node)) as [->|Hne];
    [rewrite bool_decide_eq_true_2 by done; eexists _, _, _, _; split_and!; [done|by apply counting_top|done]|].
  all: destruct Hup as [?|(p & Hp & HpE)]; [done|]; destruct (par_child c p Hc Hne Hp) as [Hpc Hpn].
  all: destruct (under_size p Hpn) as (k & Hk & HkN & _);
    assert (m < k) by (destruct (sized_child _ _ _ _ Hk Hpc) as (m' & Hm' & ?); by rewrite (sized_fun _ _ _ _ Hm Hm')).
  { lia. }
  rewrite bool_decide_eq_false_2 by done. pose proof (cn_over _ _ _ _ _ _ Hcn) as Hov.
  assert (HtI : forall x, anc s0 node x -> is_Some (ivl s0 x)) by (intros x Hx; by apply (tree_ivl _ _ Ht), under_r).
  erewrite bind_Ret by (apply (over_parent_run s0); [done|by apply HtI]). rewrite Hp.
  erewrite bind_Ret by (apply (over_children_run s0); [done|by apply HtI]).
  destruct (cn_wait _ _ _ _ _ _ Hcn p HpE) as (_ & _ & Hcnt & Hl). pose proof (sized_kids _ _ _ Hk) as Hkk.
  replace (u64 (default 0 (cnt !! p) + 1)) with (default 0 (cnt !! p) + 1) by (unfold u64; rewrite Z.mod_small; lia).
  destruct (Z.eqb_spec (default 0 (cnt !! p) + 1) (len (kids s0 p))) as [Hlen|Hlen]; cbn [negb].
  - pose proof (counting_finish _ _ _ _ _ _ _ _ Hcn Hne Hp HpE Hlen Hk) as Hcn'.
    assert (Hsum : u64 (sumU64 (map (cached s) (kids s0 p)) + 1) = k).
    { destruct (all_done_cached _ _ _ _ _ _ p Hcn Hpn) as (ns & Hns & Hcs).
      - apply countIn_full. cbn [pending] in Hcnt. rewrite decide_True in Hcnt by done. lia.
      - pose proof (sized_fun _ _ _ _ Hk (sized_node s0 p ns Hns)). 
        rewrite (cached_sum s0 s _ ns) by (done || lia). unfold u64. rewrite Z.mod_small; [lia|].
        pose proof (zsum_nonneg _ (sizes_nonneg _ _ _ Hns)). lia. }
    erewrite bind_Ret by done. rewrite Hsum. erewrite bind_Ret by apply setCache_run.
    destruct (IH _ _ _ _ p k Hcn' Hpn Hk) as (cnt' & s' & E' & D' & Hrun & Hc' & Hd); [lia| |].
    + destruct (decide (p = node)) as [|Hpno]; [by left|right].
      destruct (cn_up _ _ _ _ _ _ Hcn p (or_intror HpE)) as [->|(q & Hq & HqE)]; [done|].
      exists q. split; [done|]. destruct (par_child p q Hpn Hpno Hq) as [Hqp Hqn].
      assert (q <> p); [|set_solver]. intros ->. destruct (sized_child _ _ _ _ Hk Hqp) as (k' & Hk' & ?).
      pose proof (sized_fun _ _ _ _ Hk Hk'). lia.
    + eexists _, _, _, _. split_and!; [exact Hrun|exact Hc'|by rewrite Hd].
  - eexists _, _, _, _. split_and!; [done|by eapply counting_bump; eauto; lia|done].
Qed.

(** A queued node whose size is known is done. *)
Lemma counting_done s s' x Q E D cnt :
  counting s (x :: Q) E D cnt None -> over s0 s' -> cacheOk s' -> is_Some (subTreeSizesCache s' !! x) ->
  (forall y, y <> x -> subTreeSizesCache s' !! y = subTreeSizesCache s !! y) ->
  counting s' Q E ({[x]} ∪ D) cnt (Some x).
Proof.
  intros [Hov Hca Hnd HQ HED Hun Hup HupD Hno Hw Hdo Hz] Hov' Hca' Hx Hother.
  apply list.NoDup_cons in Hnd as [HxQ Hnd]. destruct (HQ x) as [HxE HxD]; [set_solver|].
  split; try done.
  - intros y Hy. destruct (HQ y) as [? ?]; set_solver.
  - set_solver.
  - set_solver.
  - intros y Hy. apply Hup. set_solver.
  - intros y [->%elem_of_singleton|Hy]%elem_of_union.
    + destruct (Hup x) as [?|(q & Hq & HqE)]; [left; set_solver|by left|]. right. exists q. auto.
    + destruct (HupD y Hy) as [?|(q & Hq & HqE)]; [by left|]. right. exists q. set_solver.
  - set_solver.
  - intros e He. destruct (Hw e He) as (Hce & Hke & Hcnt & Hl). split_and!; [| | |lia|lia].
    + rewrite Hother; [done|]. by intros ->.
    + intros c Hc. specialize (Hke c Hc). set_solver.
    + assert (Hen : anc s0 node e) by set_solver.
      rewrite countIn_insert; [|by apply (tree_NoDup _ _ Ht), under_r|done]. rewrite <- Hcnt. cbn [pending].
      rewrite Z.add_0_r. f_equal. destruct (decide (x ∈ kids s0 e)) as [Hin|Hni].
      * rewrite decide_True; [done|]. split; [by eapply node_no_child|]. apply (tree_par _ _ Ht); [by apply under_r|done].
      * rewrite decide_False; [done|]. intros [Hpn' Hpe]. apply Hni. eapply par_child; [|done|done]. set_solver.
  - intros d [->%elem_of_singleton|Hd]%elem_of_union; [done|]. rewrite Hother; [by apply Hdo|]. by intros ->.
  - set_solver.
Qed.

(** A node of unknown size waits for its children. *)
Lemma counting_expand s x Q E D cnt :
  counting s (x :: Q) E D cnt None -> kids s0 x <> [] -> subTreeSizesCache s !! x = None ->
  counting s (Q ++ kids s0 x) ({[x]} ∪ E) D cnt None.
Proof.
  intros [Hov Hca Hnd HQ HED Hun Hup HupD Hno Hw Hdo Hz] Hk Hx.
  apply list.NoDup_cons in Hnd as [HxQ Hnd]. destruct (HQ x) as [HxE HxD]; [set_solver|].
  assert (Hxn : anc s0 node x) by set_solver.
  assert (Hnew : forall c, c ∈ kids s0 x -> c <> node /\ par s0 c = Some x).
  { intros c Hc. split; [by eapply node_no_child|]. apply (tree_par _ _ Ht); [by apply under_r|done]. }
  assert (Hfresh : forall c, c ∈ kids s0 x -> c ∉ Q /\ c ∉ E /\ c ∉ D).
  { intros c Hc. destruct (Hnew c Hc) as [Hcn Hcp]. split_and!; intros Hin.
    - destruct (Hup c) as [?|(q & Hq & HqE)]; [set_solver|done|]. by simplify_eq.
    - destruct (Hup c) as [?|(q & Hq & HqE)]; [set_solver|done|]. by simplify_eq.
    - destruct (HupD c) as [?|(q & Hq & HqE)]; [done|done|]. simplify_eq. set_solver. }
  assert (Hxk : x ∉ kids s0 x).
  { intros Hin. destruct (under_size x Hxn) as (n & Hn & _). destruct (sized_child _ _ _ _ Hn Hin) as (m & Hm & ?).
    pose proof (sized_fun _ _ _ _ Hn Hm). lia. }
  split; try done.
  - apply list.NoDup_app. split_and!; [done| |by apply (tree_NoDup _ _ Ht), under_r]. intros c Hc Hc'. by apply Hfresh in Hc' as [? _].
  - intros y [Hy|Hy]%elem_of_app.
    + destruct (HQ y) as [? ?]; [set_solver|]. set_solver.
    + destruct (Hfresh y Hy) as (? & ? & ?). set_solver.
  - set_solver.
  - intros y Hy. destruct (decide (y ∈ kids s0 x)) as [Hin|Hni]; [|set_solver]. eapply rtc_r; [exact Hxn|exact Hin].
  - intros y Hy. destruct (decide (y ∈ kids s0 x)) as [Hin|Hni].
    + right. exists x. split; [by apply Hnew|set_solver].
    + destruct (Hup y) as [?|(q & Hq & HqE)]; [set_solver|by left|]. right. exists q. set_solver.
  - intros y Hy. destruct (HupD y Hy) as [?|(q & Hq & HqE)]; [by left|]. right. exists q. set_solver.
  - set_solver.
  - intros e He. destruct (decide (e = x)) as [->|Hne].
    + split_and!; [done|set_solver| | |].
      * cbn [pending]. rewrite Hz, countIn_none by (done || intros c Hc; by apply Hfresh). done.
      * by rewrite Hz.
      * rewrite Hz by done. unfold len. destruct (kids s0 x); [done|]. cbn. lia.
    + destruct (Hw e) as (Hce & Hke & Hcnt & Hl); [set_solver|]. split_and!; [done| |done|lia|lia].
      intros c Hc. specialize (Hke c Hc). set_solver.
  - intros y Hy HyD. apply Hz; set_solver.
Qed.

Lemma counting_stuck s E D cnt : counting s [] E D cnt None -> node ∈ D.
Proof.
  intros [Hov Hca Hnd HQ HED Hun Hup HupD Hno Hw Hdo Hz].
  assert (Hwf : forall k e n, sized s0 e n -> n <= Z.of_nat k -> e ∉ E).
  { induction k as [|k IH]; intros e n Hn Hk He; [pose proof (sized_pos _ _ _ Hn); lia|].
    destruct (Hw e He) as (_ & Hke & Hcnt & Hl). cbn [pending] in Hcnt.
    assert (Hall : forall c, c ∈ kids s0 e -> c ∈ D).
    { intros c Hc. destruct (Hke c Hc) as [?|[HcE|?]]; [set_solver| |done]. exfalso.
      destruct (sized_child _ _ _ _ Hn Hc) as (m & Hm & ?). by apply (IH c m Hm); [lia|]. }
    assert (Hfull : countIn D (kids s0 e) = len (kids s0 e)); [|lia].
    clear -Hall. unfold countIn, len. induction (kids s0 e) as [|c cs IH]; [done|].
    rewrite filter_cons, decide_True by set_solver. cbn. rewrite Nat2Z.inj_succ, IH by set_solver. lia. }
  destruct Hno as [?|[HE|?]]; [set_solver| |done].
  exfalso. apply (Hwf (Z.to_nat N) node N HN); [pose proof (sized_pos _ _ _ HN); lia|done].
Qed.

Context (Hfuel : N <= Z.of_nat fuel).

Lemma countLoop_run n s Q E D cnt ns :
  counting s Q E D cnt None -> Forall2 (sized s0) Q ns -> zsum ns <= Z.of_nat n ->
  exists s', countLoop fuel n node Q cnt s = (Ret tt, s') /\ over s0 s' /\ rs_data s' = rs_data s /\
    cacheOk s' /\ is_Some (subTreeSizesCache s' !! node).
Proof.
  revert s Q E D cnt ns. induction n as [|n IH]; intros s Q E D cnt ns Hcn HQ Hns.
  all: destruct Q as [|x Q]; cbn [countLoop];
    [exists s; split_and!; [done|apply Hcn|done|apply Hcn|eapply cn_done, counting_stuck; exact Hcn]|].
  all: inversion HQ as [|? m ? ns' Hm HQ']; subst; cbn [zsum] in Hns; pose proof (sized_pos _ _ _ Hm);
    pose proof (zsum_nonneg _ (sizes_nonneg _ _ _ HQ')); try lia.
  assert (Hxn : anc s0 node x) by (eapply cn_under; [exact Hcn|set_solver]).
  pose proof (cn_over _ _ _ _ _ _ Hcn) as Hov.
  erewrite bind_Ret by (apply (over_children_run s0); [done|by apply (tree_ivl _ _ Ht), under_r]).
  erewrite bind_Ret by done.
  assert (Hpush : forall s', over s0 s' -> cacheOk s' -> is_Some (subTreeSizesCache s' !! x) ->
    (forall y, y <> x -> subTreeSizesCache s' !! y = subTreeSizesCache s !! y) -> rs_data s' = rs_data s ->
    exists s'', (cnt' <- pushUp fuel node x cnt ;; countLoop fuel n node Q cnt') s' = (Ret tt, s'') /\
      over s0 s'' /\ rs_data s'' = rs_data s /\ cacheOk s'' /\ is_Some (subTreeSizesCache s'' !! node)).
  { intros s' Hov' Hca' Hx' Hother Hd. pose proof (counting_done _ _ _ _ _ _ _ Hcn Hov' Hca' Hx' Hother) as Hcn'.
    destruct (pushUp_run fuel _ _ _ _ _ x m Hcn' Hxn Hm) as (cnt' & s2 & E' & D' & Hrun & Hcn2 & Hd2).
    - pose proof (sized_pos _ _ _ Hm). lia.
    - apply (cn_up _ _ _ _ _ _ Hcn). set_solver.
    - erewrite bind_Ret by exact Hrun. destruct (IH s2 Q E' D' cnt' ns' Hcn2 HQ') as (s3 & Hr3 & ? & Hd3 & ? & ?); [lia|].
      exists s3. split_and!; try done. by rewrite Hd3, Hd2. }
  destruct (decide (kids s0 x = [])) as [Hnil|Hnn].
  - rewrite bool_decide_eq_true_2 by done. erewrite bind_Ret by apply setCache_run. apply Hpush.
    + etransitivity; [exact Hov|apply withCache_over].
    + intros y k. cbn. destruct (decide (y = x)) as [->|Hne].
      * rewrite lookup_insert_eq. intros [= <-]. split; [|unfold childOf; rewrite Hnil; set_solver].
        change 1 with (1 + zsum []). constructor. rewrite Hnil. constructor.
      * rewrite lookup_insert_ne by done. intros Hy. destruct (cn_cache _ _ _ _ _ _ Hcn y k Hy) as [? Hk].
        split; [done|]. intros c Hc. rewrite lookup_insert_is_Some'. right. by apply Hk.
    + cbn. rewrite lookup_insert_eq. eauto.
    + intros y Hy. cbn. by rewrite lookup_insert_ne.
    + done.
  - rewrite bool_decide_eq_false_2 by done. destruct (subTreeSizesCache s !! x) as [k|] eqn:Hc.
    + rewrite bool_decide_eq_true_2 by eauto. cbn [negb]. apply Hpush; [done|apply Hcn|by rewrite Hc|done|done].
    + rewrite bool_decide_eq_false_2 by (by intros [? ?]). cbn [negb].
      pose proof (counting_expand _ _ _ _ _ _ Hcn Hnn Hc) as Hcn'. inversion Hm as [? ms Hms]; subst.
      apply (IH _ _ _ _ _ (ns' ++ ms) Hcn'); [by apply Forall2_app|].
      assert (Hz : zsum (ns' ++ ms) = zsum ns' + zsum ms); [|lia]. clear. induction ns'; cbn; lia.
Qed.

(** [countSubtrees] leaves right sizes of the whole subtree in the cache. *)
Lemma countSubtrees_run s :
  over s0 s -> cacheOk s ->
  exists s', countSubtrees fuel node s = (Ret tt, s') /\ over s0 s' /\ rs_data s' = rs_data s /\
    cacheOk s' /\ subTreeSizesCache s' !! node = Some N.
Proof.
  intros Hov Hca. unfold countSubtrees. erewrite bind_Ret by done.
  destruct (subTreeSizesCache s !! node) as [k|] eqn:Hc.
  - rewrite bool_decide_eq_true_2 by eauto. exists s. split_and!; try done. rewrite Hc.
    by rewrite (sized_fun _ _ _ _ HN (proj1 (Hca _ _ Hc))).
  - rewrite bool_decide_eq_false_2 by (by intros [? ?]).
    destruct (countLoop_run fuel s [node] ∅ ∅ ∅ [N]) as (s' & Hrun & Hov' & Hd & Hca' & [k Hk]).
    + split; try set_solver.
      apply NoDup_singleton.
    + by repeat constructor.
    + cbn. lia.
    + exists s'. split_and!; try done. rewrite Hk. by rewrite (sized_fun _ _ _ _ HN (proj1 (Hca' _ _ Hk))).
Qed.
End Counting.
