(* ===== verification/ReachPropagate.v ===== *)
(** * Propagating intervals

    [propagateInterval] of
    [src/domain/consensus/processes/reachabilitymanager/reindex_context.go]: below a
    node whose interval has room for its subtree, the intervals index the subtree
    afterwards, and no other interval changes. *)

From S2P Require Import Prelude Float64 Interval Reachability ReachTree ReachCount.

(** ** Staging intervals *)

Definition withIvl (x : DomainHash) (i : ReachabilityInterval) (s : reachState) : reachState :=
  MkReachState
    (alter (fun d => MkReach (rd_children d) (rd_parent d) (Some i) (rd_futureCoveringSet d)) x (rs_data s))
    (rs_reindexRoot s) (subTreeSizesCache s).

Lemma stageInterval_run s x i : is_Some (ivl s x) -> stageInterval x i s = (Ret tt, withIvl x i s).
Proof.
  unfold ivl, stageInterval, reachabilityDataForInsertion, bind, get, withIvl, stageData, modify. intros [j Hj].
  destruct (rs_data s !! x) as [d|] eqn:E; [|done]. cbn in *. rewrite Hj. cbn.
  do 3 f_equal. apply map_eq. intros y. destruct (decide (y = x)) as [->|Hne].
  - by rewrite lookup_insert_eq, lookup_alter_eq, E.
  - by rewrite lookup_insert_ne, lookup_alter_ne.
Qed.

Lemma ivl_withIvl_eq s x i : is_Some (ivl s x) -> ivl (withIvl x i s) x = Some i.
Proof.
  unfold ivl. cbn. rewrite lookup_alter_eq. intros [j Hj]. by destruct (rs_data s !! x).
Qed.

Lemma ivl_withIvl_ne s x y i : y <> x -> ivl (withIvl x i s) y = ivl s y.
Proof. intros Hne. unfold ivl. cbn. by rewrite lookup_alter_ne. Qed.

Lemma withIvl_over s x i : is_Some (ivl s x) -> over s (withIvl x i s).
Proof.
  unfold ivl. intros [j Hj]. split; [done|]. intros y. cbn. destruct (decide (y = x)) as [->|Hne].
  - rewrite lookup_alter_eq. destruct (rs_data s !! x) as [d|]; [|done]. cbn in *. unfold frame. cbn.
    rewrite Hj, !bool_decide_eq_true_2 by eauto. done.
  - by rewrite lookup_alter_ne.
Qed.

Lemma stageIntervals_run s cs il :
  NoDup cs -> Forall (fun c => is_Some (ivl s c)) cs -> length il = length cs ->
  exists s', stageIntervals cs il s = (Ret tt, s') /\ over s s' /\ subTreeSizesCache s' = subTreeSizesCache s /\
    Forall2 (fun c ic => ivl s' c = Some ic) cs il /\ forall y, y ∉ cs -> ivl s' y = ivl s y.
Proof.
  revert s il. induction cs as [|c cs IH]; intros s il Hnd Hi Hl.
  - destruct il; [|done]. exists s. split_and!; [done|reflexivity|done|constructor|done].
  - destruct il as [|i il]; [done|]. apply list.NoDup_cons in Hnd as [Hc Hnd]. apply list.Forall_cons in Hi as [Hic Hi].
    cbn [stageIntervals]. erewrite bind_Ret by by apply stageInterval_run.
    destruct (IH (withIvl c i s) il) as (s' & Hrun & Hov & Hcache & Hf2 & Hfr); [done| |by injection Hl|].
    + eapply list.Forall_impl; [exact Hi|]. intros y Hy. by apply (over_ivl s _ (withIvl_over _ _ _ Hic)).
    + exists s'. split_and!; [exact Hrun| |done|constructor; [|done]|].
      * etransitivity; [by apply withIvl_over|exact Hov].
      * by rewrite Hfr, ivl_withIvl_eq.
      * intros y Hy. rewrite Hfr by set_solver. apply ivl_withIvl_ne. set_solver.
Qed.

Lemma indexed_ext s0 s s' x :
  over s0 s -> over s0 s' -> ivl s' x = ivl s x -> (forall c, childOf s0 x c -> ivl s' c = ivl s c) ->
  indexed s x -> indexed s' x.
Proof.
  intros Hov Hov' Hx Hc (i & il & Hi & Hne & Hf2 & Hf). exists i, il. split_and!; [by rewrite Hx|done| |done].
  rewrite (over_kids s0) in * by done. clear Hf. unfold childOf in Hc.
  induction Hf2; constructor; [rewrite Hc; [done|set_solver]|apply IHHf2; set_solver].
Qed.

(** ** Layouts *)

Lemma layout_length lo sizes : length (layout lo sizes) = length sizes.
Proof. revert lo. induction sizes; intros lo; cbn; [done|]. f_equal. auto. Qed.

Lemma fits_layout lo hi sizes :
  Forall (Z.le 0) sizes -> lo + zsum sizes <= hi + 1 -> fits lo hi (layout lo sizes).
Proof.
  intros Hs. revert lo. induction Hs as [|n sizes Hn Hs IH]; intros lo Hle; cbn in *; [lia|].
  split_and!; [lia|lia|]. replace (lo + n - 1 + 1) with (lo + n) by lia. apply IH. lia.
Qed.

Lemma layout_width lo sizes k i n : layout lo sizes !! k = Some i -> sizes !! k = Some n -> width i = n.
Proof.
  revert lo k. induction sizes as [|m sizes IH]; intros lo k Hi Hn; [done|]. destruct k; cbn in *.
  - simplify_eq. unfold width. cbn. lia.
  - by eapply IH.
Qed.

(** ** Trees *)

Section Tree.
Context (s0 : reachState) (r : DomainHash) (Ht : tree s0 r).

(** Strictly below. *)
Definition below (x y : DomainHash) : Prop := anc s0 x y /\ x <> y.

(** Of two ancestors of a node one is an ancestor of the other. *)
Lemma anc_linear a b x : anc s0 r a -> anc s0 r b -> anc s0 a x -> anc s0 b x -> anc s0 a b \/ anc s0 b a.
Proof.
  intros Ha Hb Hax. revert x Hax b Hb.
  refine (rtc_ind_r (fun x => forall b, anc s0 r b -> anc s0 b x -> anc s0 a b \/ anc s0 b a) a _ _); [by right|].
  intros x y Hax Hxy IH b Hb Hbx.
  apply rtc_inv_r in Hbx as [->|(z & Hbz & Hzy)]; [left; exact (rtc_r _ _ _ Hax Hxy)|].
  pose proof (anc_trans s0 _ _ _ Ha Hax) as Hrx. pose proof (anc_trans s0 _ _ _ Hb Hbz) as Hrz.
  pose proof (tree_par _ _ Ht x y Hrx Hxy) as E1. pose proof (tree_par _ _ Ht z y Hrz Hzy) as E2. simplify_eq.
  by apply IH.
Qed.

(** An ancestor of a child is the child or an ancestor of its parent. *)
Lemma anc_child_inv a x c : anc s0 r a -> anc s0 r x -> childOf s0 x c -> anc s0 a c -> a = c \/ anc s0 a x.
Proof.
  intros Ha Hx Hc Hac. apply rtc_inv_r in Hac as [->|(z & Haz & Hzc)]; [by left|]. right.
  pose proof (anc_trans s0 _ _ _ Ha Haz) as Hrz.
  pose proof (tree_par _ _ Ht x c Hx Hc) as E1. pose proof (tree_par _ _ Ht z c Hrz Hzc) as E2. by simplify_eq.
Qed.

Lemma child_below x c n : sized s0 x n -> childOf s0 x c -> below x c.
Proof.
  intros Hn Hc. split; [by apply rtc_once|]. intros <-. destruct (sized_child _ _ _ _ Hn Hc) as (m & Hm & ?).
  pose proof (sized_fun _ _ _ _ Hn Hm). lia.
Qed.

(** Nodes none of which is below another. *)
Record antichain (Q : list DomainHash) : Prop := {
  ac_NoDup : NoDup Q;
  ac_under : forall q, q ∈ Q -> anc s0 r q;
  ac_anti : forall q q', q ∈ Q -> q' ∈ Q -> anc s0 q q' -> q = q'
}.

Lemma antichain_expand x Q n : antichain (x :: Q) -> sized s0 x n -> antichain (Q ++ kids s0 x).
Proof.
  intros [Hnd Hun Ha] Hn. apply list.NoDup_cons in Hnd as [HxQ Hnd].
  assert (Hrx : anc s0 r x) by (apply Hun; set_solver).
  assert (Hc : forall c, c ∈ kids s0 x -> anc s0 x c /\ x <> c /\ c ∉ Q).
  { intros c Hc. destruct (child_below _ _ _ Hn Hc) as [Hxc Hne]. split_and!; [done|done|].
    intros HcQ. apply Hne. apply Ha; set_solver. }
  split.
  - apply list.NoDup_app. split_and!; [done|set_solver|by apply (tree_NoDup _ _ Ht)].
  - intros q [Hq|Hq]%elem_of_app; [apply Hun; set_solver|]. eapply anc_trans; [exact Hrx|]. by apply Hc.
  - intros q q' [Hq|Hq]%elem_of_app [Hq'|Hq']%elem_of_app Hqq'.
    + apply Ha; set_solver.
    + apply (anc_child_inv q x q') in Hqq' as [->|Hqx]; [done| |apply Hun; set_solver|done|done].
      assert (q = x) as -> by (apply Ha; set_solver). done.
    + destruct (Hc q Hq) as (Hxq & _ & _). assert (x = q') as <-; [|done].
      apply Ha; [set_solver..|exact (anc_trans s0 _ _ _ Hxq Hqq')].
    + destruct (Hc q Hq) as (Hxq & Hne & _).
      apply (anc_child_inv q x q') in Hqq' as [->|Hqx]; [done| |exact (anc_trans s0 _ _ _ Hrx Hxq)|done|done].
      destruct Hne. by eapply sized_antisym.
Qed.

(** The interval of a node has room for its subtree. *)
Definition roomy (s : reachState) (x : DomainHash) : Prop :=
  exists i n, ivl s x = Some i /\ valid i /\ sized s0 x n /\ n <= width i.

Lemma roomy_ext s s' x : ivl s' x = ivl s x -> roomy s x -> roomy s' x.
Proof. intros E (i & n & ?). exists i, n. by rewrite E. Qed.

Section Propagate.
Context `{GoArch}.

Lemma cached_sizes s cs ns :
  cacheOk s0 s -> Forall (fun c => is_Some (subTreeSizesCache s !! c)) cs -> Forall2 (sized s0) cs ns ->
  map (cached s) cs = ns.
Proof.
  intros Hca Hc Hs. induction Hs as [|c n cs ns Hn _ IH]; [done|]. apply list.Forall_cons in Hc as [[m Hm] Hc]. cbn.
  rewrite IH by done. unfold cached. rewrite Hm. by rewrite (sized_fun _ _ _ _ Hn (proj1 (Hca _ _ Hm))).
Qed.

(** One node: its children get intervals with room, one after the other. *)
Lemma allocate_run s x i n :
  over s0 s -> cacheOk s0 s -> is_Some (subTreeSizesCache s !! x) -> anc s0 r x ->
  ivl s x = Some i -> valid i -> sized s0 x n -> n <= width i -> kids s0 x <> [] ->
  exists s', (s1 <- get ;; j <- intervalRangeForChildAllocation x ;;
      il <- fromInterval (intervalSplitWithExponentialBias j (map (cached s1) (kids s0 x))) ;;
      stageIntervals (kids s0 x) il) s = (Ret tt, s') /\
    over s0 s' /\ subTreeSizesCache s' = subTreeSizesCache s /\
    (forall y, ~ childOf s0 x y -> ivl s' y = ivl s y) /\
    indexed s' x /\ forall c, childOf s0 x c -> roomy s' c.
Proof.
  intros Hov Hca [m Hm] Hx Hi Hv Hn Hle Hk. erewrite bind_Ret by done.
  inversion Hn as [? ns Hns]; subst. pose proof (zsum_nonneg _ (sizes_nonneg _ _ _ Hns)) as Hz.
  assert (Hcs : map (cached s) (kids s0 x) = ns).
  { apply cached_sizes; [done| |done]. apply list.Forall_forall. intros c Hc. by apply (Hca _ _ Hm). }
  set (j := newReachabilityInterval (Start i) (End i - 1)).
  assert (Hvj : valid j) by (unfold valid, width, j in *; cbn; lia).
  assert (Hwj : width j = width i - 1) by (unfold width; cbn; lia).
  assert (Hj : intervalRangeForChildAllocation x s = (Ret j, s)).
  { unfold intervalRangeForChildAllocation. erewrite bind_Ret by by apply interval_run. unfold j, ret, u64.
    rewrite Z.mod_small; [done|]. unfold valid, MaxUint64, width in *. lia. }
  rewrite (bind_Ret _ _ _ _ _ Hj).
  rewrite Hcs. destruct (intervalSplitWithExponentialBias_layout j ns) as (ns' & Hsp & Hle' & Hsum);
    [done|by eapply sizes_nonneg|intros ->; by inversion Hns|lia|].
  assert (Hns' : Forall (Z.le 0) ns') by (eapply Forall2_le_nonneg; [by eapply sizes_nonneg|done]).
  erewrite bind_Ret by (unfold fromInterval; by rewrite Hsp).
  destruct (stageIntervals_run s (kids s0 x) (layout (Start j) ns')) as (s' & Hrun & Hov' & Hcache & Hf2 & Hfr).
  - by apply (tree_NoDup _ _ Ht).
  - apply list.Forall_forall. intros c Hc. apply (over_ivl s0 s Hov), (tree_ivl _ _ Ht). exact (rtc_r _ _ _ Hx Hc).
  - rewrite layout_length, <- (Forall2_length Hle'). symmetry. exact (Forall2_length Hns).
  - assert (Hov2 : over s0 s') by (etransitivity; [exact Hov|exact Hov']).
    assert (Hfits : fits (Start i) (End i - 1) (layout (Start j) ns')).
    { apply fits_layout; [done|]. rewrite Hsum. unfold width, j. cbn. lia. }
    exists s'. split_and!; [exact Hrun|done|done|done| |].
    + exists i, (layout (Start j) ns'). split_and!; [|unfold width in *; lia|by rewrite (over_kids s0)|done].
      rewrite Hfr; [done|]. intros Hin. by destruct (child_below _ _ _ Hn Hin).
    + intros c [k Hc]%list_elem_of_lookup. destruct (Forall2_lookup_l _ _ _ _ _ Hf2 Hc) as (ic & Hic & Hcc).
      destruct (Forall2_lookup_l _ _ _ _ _ Hns Hc) as (nc & Hnc & Hsc).
      destruct (Forall2_lookup_l _ _ _ _ _ Hle' Hnc) as (nc' & Hnc' & Hlec).
      exists ic, nc. pose proof (layout_width _ _ _ _ _ Hic Hnc') as Hw. pose proof (sized_pos _ _ _ Hsc).
      split_and!; [done| |done|lia]. apply list_elem_of_lookup_2 in Hic.
      pose proof (fits_elem _ _ _ _ Hfits Hic). unfold valid, width in *. lia.
Qed.

(** The loop over the nodes whose children are still to be placed. *)
Lemma propagateLoop_run n s Q ns :
  antichain Q -> over s0 s -> cacheOk s0 s ->
  Forall (fun q => is_Some (subTreeSizesCache s !! q) /\ roomy s q) Q ->
  Forall2 (sized s0) Q ns -> zsum ns <= Z.of_nat n ->
  exists s', propagateLoop n Q s = (Ret tt, s') /\ over s0 s' /\ subTreeSizesCache s' = subTreeSizesCache s /\
    (forall q x, q ∈ Q -> anc s0 q x -> indexed s' x) /\
    (forall y, (forall q, q ∈ Q -> ~ below q y) -> ivl s' y = ivl s y).
Proof.
  revert s Q ns. induction n as [|n IH]; intros s Q ns Hac Hov Hca HQ Hns Hn.
  all: destruct Q as [|x Q]; cbn [propagateLoop];
    [exists s; split_and!; [done|done|done|set_solver|done]|].
  all: inversion Hns as [|? m ? ns' Hm Hns']; subst; cbn [zsum] in Hn; pose proof (sized_pos _ _ _ Hm);
    pose proof (zsum_nonneg _ (sizes_nonneg _ _ _ Hns')); try lia.
  apply list.Forall_cons in HQ as [[Hcx (i & m' & Hi & Hv & Hm' & Hle)] HQ].
  rewrite <- (sized_fun _ _ _ _ Hm Hm') in Hle. clear m' Hm'.
  assert (Hrx : anc s0 r x) by (apply (ac_under _ Hac); set_solver).
  erewrite bind_Ret by (apply (over_children_run s0); [done|by apply (tree_ivl _ _ Ht)]).
  pose proof (antichain_expand _ _ _ Hac Hm) as Hac'.
  assert (Hself : forall q, q ∈ Q -> ~ below q x).
  { intros q Hq [Hqx Hne]. apply Hne. apply (ac_anti _ Hac); set_solver. }
  destruct (decide (kids s0 x = [])) as [Hnil|Hnn].
  - rewrite Hnil in Hac' |- *. rewrite app_nil_r in Hac'. cbn [len length Z.of_nat Z.ltb Z.compare negb].
    destruct (IH s Q ns') as (s' & Hrun & Hov' & Hcache & Hidx & Hfr); [done..|lia|].
    exists s'. split_and!; [exact Hrun|done|done| |].
    + intros q y [->|Hq]%elem_of_cons Hqy; [|by apply (Hidx q)].
      apply rtc_inv in Hqy as [<-|(c & Hc & _)]; [|unfold childOf in Hc; rewrite Hnil in Hc; set_solver].
      exists i, []. rewrite (over_kids s0), Hnil by done. rewrite Hfr by done.
      split_and!; [done|unfold width in Hle; lia|constructor|cbn; unfold width in Hle; lia].
    + intros y Hy. apply Hfr. set_solver.
  - assert (Hlen : 0 <? len (kids s0 x) = true) by (unfold len; destruct (kids s0 x); done).
    rewrite Hlen. cbn [negb].
    destruct (allocate_run s x i m Hov Hca Hcx Hrx Hi Hv Hm Hle Hnn) as (s1 & Hrun1 & Hov1 & Hc1 & Hfr1 & Hx1 & Hr1).
    inversion Hm as [? ms Hms]; subst.
    destruct (IH s1 (Q ++ kids s0 x) (ns' ++ ms)) as (s' & Hrun & Hov' & Hcache & Hidx & Hfr); [done|done| | | | |].
    + unfold cacheOk. by rewrite Hc1.
    + rewrite Hc1. apply list.Forall_app. split; apply list.Forall_forall.
      * intros q Hq. rewrite list.Forall_forall in HQ. destruct (HQ q Hq) as [? Hro]. split; [done|].
        eapply roomy_ext; [apply Hfr1|exact Hro]. intros Hqc.
        apply (proj2 (child_below _ _ _ Hm Hqc)). apply (ac_anti _ Hac); [set_solver..|by apply rtc_once].
      * intros c Hc. split; [|by apply Hr1]. destruct Hcx as [k Hk]. by apply (Hca _ _ Hk).
    + by apply Forall2_app.
    + assert (Hz : zsum (ns' ++ ms) = zsum ns' + zsum ms) by (clear; induction ns'; cbn; lia). lia.
    + exists s'. split_and!; [|done|by rewrite Hcache| |].
      * rewrite <- Hrun. transitivity ((s1 <- get ;; j <- intervalRangeForChildAllocation x ;;
          il <- fromInterval (intervalSplitWithExponentialBias j (map (cached s1) (kids s0 x))) ;;
          stageIntervals (kids s0 x) il ;;; propagateLoop n (Q ++ kids s0 x)) s); [done|].
        rewrite <- (bind_Ret _ (fun _ => propagateLoop n (Q ++ kids s0 x)) _ _ _ Hrun1).
        unfold bind, get. destruct (intervalRangeForChildAllocation x s) as [[] ?]; [|done..].
        by destruct (fromInterval _ _) as [[] ?].
      * intros q y [->|Hq]%elem_of_cons Hqy; [|apply (Hidx q); set_solver].
        apply rtc_inv in Hqy as [<-|(c & Hc & Hcy)]; [|apply (Hidx c); [set_solver|done]].
        apply (indexed_ext s0 s1 s' x); [done|done| | |done].
        -- apply Hfr. intros q [Hq|Hq]%elem_of_app; [by apply Hself|]. intros [Hqx _].
           destruct (child_below _ _ _ Hm Hq) as [Hxq Hne]. apply Hne. by eapply sized_antisym.
        -- intros c Hc. apply Hfr. intros q Hq [Hqc Hne]. apply Hne, (ac_anti _ Hac'); set_solver.
      * intros y Hy. rewrite Hfr.
        -- apply Hfr1. intros Hc. apply (Hy x); [set_solver|]. by eapply child_below.
        -- intros q [Hq|Hq]%elem_of_app Hqy; [apply (Hy q); set_solver|]. apply (Hy x); [set_solver|].
           destruct (child_below _ _ _ Hm Hq) as [Hxq Hne], Hqy as [Hqy Hqn].
           split; [exact (anc_trans s0 _ _ _ Hxq Hqy)|]. intros <-. apply Hne. by eapply sized_antisym.
Qed.

Context (fuel : nat).

(** A node with room: afterwards its whole subtree is indexed, and nothing else has
    changed. *)
Lemma propagateInterval_run s x n :
  anc s0 r x -> over s0 s -> cacheOk s0 s -> roomy s x -> sized s0 x n -> n <= Z.of_nat fuel ->
  exists s', propagateInterval fuel x s = (Ret tt, s') /\ over s0 s' /\ cacheOk s0 s' /\
    (forall y, anc s0 x y -> indexed s' y) /\ (forall y, ~ below x y -> ivl s' y = ivl s y).
Proof.
  intros Hx Hov Hca Hro Hn Hfuel. pose proof Hro as (i & m & Hi & Hv & Hm & Hle).
  rewrite (sized_fun _ _ _ _ Hm Hn) in Hle.
  destruct (countSubtrees_run fuel s0 r x n Ht Hx Hn) with (s := s) as (s1 & Hrun1 & Hov1 & Hd1 & Hca1 & Hc1);
    [unfold valid, width, MaxUint64 in *; lia|done|done|done|].
  unfold propagateInterval. rewrite (bind_Ret _ _ _ _ _ Hrun1).
  assert (Hi1 : forall y, ivl s1 y = ivl s y) by (intros y; unfold ivl; by rewrite Hd1).
  destruct (propagateLoop_run fuel s1 [x] [n]) as (s' & Hrun & Hov' & Hcache & Hidx & Hfr).
  - split; [apply NoDup_singleton|set_solver|set_solver].
  - done.
  - done.
  - constructor; [|constructor]. split; [eauto|]. eapply (roomy_ext s); [apply Hi1|exact Hro].
  - by repeat constructor.
  - cbn. lia.
  - exists s'. split_and!; [exact Hrun|done| | |].
    + unfold cacheOk. by rewrite Hcache.
    + intros y. apply Hidx. set_solver.
    + intros y Hy. rewrite <- Hi1. apply Hfr. set_solver.
Qed.
End Propagate.
End Tree.
