(* ===== verification/ReachReindex.v ===== *)
(** * Moving intervals

    The moves of intervals that reindexing is made of: a node gets another interval
    among its siblings and its subtree follows.  Every move keeps the tree indexed,
    except for a new leaf whose interval may still be empty. *)

From S2P Require Import Prelude Float64 Interval Reachability ReachTree ReachCount ReachPropagate.

(** ** Intervals side by side *)

Lemma u64_id z : 0 <= z <= MaxUint64 -> u64 z = z.
Proof. unfold u64, MaxUint64. intros. apply Z.mod_small. lia. Qed.

Lemma fits_upper lo hi hi' il : hi <= hi' -> fits lo hi il -> fits lo hi' il.
Proof. intros Hh. revert lo. induction il as [|i il IH]; intros lo; cbn; [lia|]. intros (? & ? & ?). auto. Qed.

Lemma fits_app lo hi ilA i ilB :
  fits lo hi (ilA ++ i :: ilB) <-> fits lo (Start i - 1) ilA /\ Start i <= End i + 1 /\ fits (End i + 1) hi ilB.
Proof.
  revert lo. induction ilA as [|j ilA IH]; intros lo; cbn; [rewrite Z.sub_add; tauto|]. rewrite IH. tauto.
Qed.

Lemma fits_app_2 lo hi ilA ilB : fits lo hi (ilA ++ ilB) -> exists mid, fits lo mid ilA /\ fits (mid + 1) hi ilB.
Proof.
  revert lo. induction ilA as [|j ilA IH]; intros lo; cbn.
  - intros Hf. exists (lo - 1). split; [lia|]. by replace (lo - 1 + 1) with lo by lia.
  - intros (? & ? & (mid & ? & ?)%IH). by exists mid.
Qed.

Lemma fits_widths lo hi il : fits lo hi il -> zsum (map width il) <= hi + 1 - lo.
Proof.
  revert lo. induction il as [|i il IH]; intros lo; cbn; [lia|]. intros (? & ? & Hf%IH). assert (width i = End i - Start i + 1) by done. lia.
Qed.

Lemma fits_nonempty lo hi il i : fits lo hi il -> i ∈ il -> Start i <= End i + 1.
Proof.
  revert lo. induction il as [|j il IH]; intros lo; cbn; [set_solver|].
  intros (? & ? & Hf) [->|Hi]%elem_of_cons; [done|by eapply IH].
Qed.

Definition moved (o : Z) (i : ReachabilityInterval) : ReachabilityInterval :=
  newReachabilityInterval (Start i + o) (End i + o).

Lemma fits_moved lo hi o il : fits lo hi il -> fits (lo + o) (hi + o) (map (moved o) il).
Proof.
  revert lo. induction il as [|i il IH]; intros lo; cbn; [lia|]. intros (? & ? & Hf%IH). split_and!; [lia|lia|].
  by replace (End i + o + 1) with (End i + 1 + o) by lia.
Qed.

(** ** Moves *)

Section Nearly.
Context `{GoArch} (fuel : nat) (s0 : reachState) (r child : DomainHash) (N : Z).
Context (Ht : tree s0 r) (Hleaf : kids s0 child = []) (HN : sized s0 r N) (Hfuel : N <= Z.of_nat fuel).

(** Everything is indexed, except for the given leaf. *)
Record nearly (ex : option DomainHash) (s : reachState) : Prop := {
  ny_over : over s0 s;
  ny_cache : cacheOk s0 s;
  ny_idx : forall x, anc s0 r x -> ex <> Some x -> indexed s x;
  ny_valid : exists i, ivl s r = Some i /\ valid i;
  ny_leaf : ex = None \/ ex = Some child
}.

Lemma has_child x c : childOf s0 x c -> x <> child.
Proof. intros Hc ->. unfold childOf in Hc. rewrite Hleaf in Hc. set_solver. Qed.

Lemma under_sized x : anc s0 r x -> exists n, sized s0 x n /\ n <= N.
Proof. intros Hx. destruct (sized_anc _ _ _ _ HN Hx) as (n & ? & ? & _). eauto. Qed.

Lemma ny_parent ex s x c : nearly ex s -> anc s0 r x -> childOf s0 x c -> indexed s x.
Proof.
  intros Hny Hx Hc. apply (ny_idx _ _ Hny); [done|]. pose proof (has_child _ _ Hc).
  destruct (ny_leaf _ _ Hny) as [->| ->]; congruence.
Qed.

Lemma ny_inner ex s x c : nearly ex s -> anc s r x -> childOf s x c -> indexed s x.
Proof.
  intros Hny Hx Hc. pose proof (ny_over _ _ Hny) as Hov. apply (over_anc s0) in Hx; [|done].
  unfold childOf in Hc. rewrite (over_kids s0) in Hc by done. by eapply ny_parent.
Qed.

Lemma ny_contains ex s a b ia ib :
  nearly ex s -> anc s0 r a -> anc s0 a b -> ivl s a = Some ia -> ivl s b = Some ib ->
  Start ia <= Start ib /\ End ib <= End ia.
Proof.
  intros Hny Ha Hab Hia Hib. pose proof (ny_over _ _ Hny) as Hov.
  assert (Hc : intervalContains ia ib = true).
  { apply (anc_contains s r (fun x c => ny_inner ex s x c Hny) a b); [by apply (over_anc s0 s Hov)..|done|done]. }
  unfold intervalContains in Hc. zbool. lia.
Qed.

(** The kids of a node and their intervals. *)
Lemma ny_kids ex s x : nearly ex s -> anc s0 r x -> ex <> Some x ->
  exists i il, ivl s x = Some i /\ Start i <= End i /\
    Forall2 (fun c ic => ivl s c = Some ic) (kids s0 x) il /\ fits (Start i) (End i - 1) il.
Proof.
  intros Hny Hx Hex. destruct (ny_idx _ _ Hny x Hx Hex) as (i & il & Hi & Hne & Hf2 & Hf).
  rewrite (over_kids s0) in Hf2 by apply Hny. by exists i, il.
Qed.

Lemma ny_node ex s x : nearly ex s -> anc s0 r x ->
  exists i, ivl s x = Some i /\ valid i /\ (ex <> Some x -> Start i <= End i).
Proof.
  intros Hny Hx. destruct (ny_valid _ _ Hny) as (ir & Hir & Hv). pose proof (ny_over _ _ Hny) as Hov.
  apply rtc_inv_r in Hx as Hx'. destruct Hx' as [<-|(p & Hp & Hpx)].
  - exists ir. split_and!; try done. intros Hex. destruct (ny_idx _ _ Hny r Hx Hex) as (i & il & Hi & Hne & _).
    by simplify_eq.
  - destruct (ny_parent _ _ _ _ Hny Hp Hpx) as (ip & il & Hip & _ & Hf2 & Hf).
    rewrite (over_kids s0) in Hf2 by done. apply list_elem_of_lookup in Hpx as [k Hk].
    destruct (Forall2_lookup_l _ _ _ _ _ Hf2 Hk) as (i & Hi & Hxi). apply list_elem_of_lookup_2 in Hi.
    exists i. split_and!; [done| |].
    + pose proof (fits_nonempty _ _ _ _ Hf Hi). pose proof (ny_contains _ _ _ _ _ _ Hny (rtc_refl _ _) Hx Hir Hxi).
      unfold valid in *. lia.
    + intros Hex. destruct (ny_idx _ _ Hny x Hx Hex) as (i' & ? & Hi' & Hne & _). by simplify_eq.
Qed.

(** A subtree without the leaf has room for itself. *)
Lemma ny_room ex s x n i :
  nearly ex s -> anc s0 r x -> (ex = None \/ ~ anc s0 x child) -> sized s0 x n -> ivl s x = Some i -> n <= width i.
Proof.
  intros Hny Hx Hch Hn. revert Hx Hch i. induction Hn as [x ns Hns IH] using sized_nested. intros Hx Hch i Hi.
  destruct (ny_kids ex s x Hny Hx) as (i' & il & Hi' & Hne & Hf2 & Hf).
  { destruct Hch as [->|Hch]; [done|]. destruct (ny_leaf _ _ Hny) as [->| ->]; [done|]. intros [= <-]. by destruct Hch; constructor. }
  simplify_eq. pose proof (fits_widths _ _ _ Hf). assert (Hs : zsum ns <= zsum (map width il)); [|unfold width in *; lia].
  assert (Hc : forall c, c ∈ kids s0 x -> anc s0 r c /\ (ex = None \/ ~ anc s0 c child)).
  { intros c Hc. split; [by eapply anc_snoc|]. destruct Hch as [->|Hch]; [by left|right]. intros Hcc. apply Hch.
    eapply rtc_l; [exact Hc|exact Hcc]. }
  clear -IH Hf2 Hc. revert il Hf2. induction IH as [|c n cs ns HP _ IH]; intros il Hf2; inversion Hf2 as [|? ic ? il' Hic Hil]; subst; [done|].
  cbn. destruct (Hc c) as [? ?]; [set_solver|]. specialize (HP ltac:(done) ltac:(done) ic Hic).
  specialize (IH ltac:(set_solver) il' Hil). lia.
Qed.

(** The place of a node among the children of its parent. *)
Record placed (s : reachState) (p c : DomainHash) (A B : list DomainHash) (ip : ReachabilityInterval)
    (ilA ilB : list ReachabilityInterval) : Prop := {
  pl_parent : anc s0 r p;
  pl_kids : kids s0 p = A ++ c :: B;
  pl_ivl : ivl s p = Some ip;
  pl_before : Forall2 (fun c ic => ivl s c = Some ic) A ilA;
  pl_after : Forall2 (fun c ic => ivl s c = Some ic) B ilB
}.

Definition fitsBetween (ip : ReachabilityInterval) (ilA ilB : list ReachabilityInterval) (i : ReachabilityInterval) : Prop :=
  fits (Start ip) (Start i - 1) ilA /\ Start i <= End i + 1 /\ fits (End i + 1) (End ip - 1) ilB.

Lemma placed_child s p c A B ip ilA ilB : placed s p c A B ip ilA ilB -> childOf s0 p c /\ anc s0 r c /\ c <> r.
Proof.
  intros [Hp Hk _ _ _]. assert (Hc : childOf s0 p c) by (unfold childOf; rewrite Hk; set_solver).
  split_and!; [done|by eapply anc_snoc|]. intros ->.
  pose proof (tree_par _ _ Ht p r Hp Hc). rewrite (tree_root _ _ Ht) in *. done.
Qed.

Lemma placed_fits ex s p c A B ip ilA ilB i :
  nearly ex s -> placed s p c A B ip ilA ilB -> ivl s c = Some i -> fitsBetween ip ilA ilB i.
Proof.
  intros Hny Hpl Hi. destruct (placed_child _ _ _ _ _ _ _ _ Hpl) as (Hc & _). destruct Hpl as [Hp Hk Hip HA HB].
  destruct (ny_parent _ _ _ _ Hny Hp Hc) as (ip' & il & Hip' & _ & Hf2 & Hf). simplify_eq.
  rewrite (over_kids s0), Hk in Hf2 by apply Hny.
  apply Forall2_app_inv_l in Hf2 as (ilA' & il2 & HA' & Hf2 & ->). inversion Hf2 as [|? i' ? ilB' Hi' HB']; subst. simplify_eq.
  assert (Heq : forall (l : list DomainHash) il il', Forall2 (fun c ic => ivl s c = Some ic) l il ->
    Forall2 (fun c ic => ivl s c = Some ic) l il' -> il = il').
  { clear. intros l il il' Hl. revert il'. induction Hl; intros il' Hl'; inversion Hl'; subst; [done|].
    f_equal; [by simplify_eq|auto]. }
  rewrite (Heq _ _ _ HA HA'), (Heq _ _ _ HB HB'). by apply fits_app in Hf.
Qed.

Lemma placed_split ex s p c A B : nearly ex s -> anc s0 r p -> kids s0 p = A ++ c :: B ->
  exists ip ilA ilB, placed s p c A B ip ilA ilB.
Proof.
  intros Hny Hp Hk. assert (Hc : childOf s0 p c) by (unfold childOf; rewrite Hk; set_solver).
  destruct (ny_parent _ _ _ _ Hny Hp Hc) as (ip & il & Hip & _ & Hf2 & Hf).
  rewrite (over_kids s0), Hk in Hf2 by apply Hny.
  apply Forall2_app_inv_l in Hf2 as (ilA & il2 & HA & Hf2 & ->). inversion Hf2 as [|? i' ? ilB Hi' HB]; subst.
  by exists ip, ilA, ilB.
Qed.

Lemma placed_exists ex s p c : nearly ex s -> anc s0 r p -> childOf s0 p c ->
  exists A B ip ilA ilB, placed s p c A B ip ilA ilB.
Proof.
  intros Hny Hp Hc. apply list_elem_of_split in Hc as (A & B & Hk).
  destruct (placed_split _ _ _ _ _ _ Hny Hp Hk) as (ip & ilA & ilB & ?). by exists A, B, ip, ilA, ilB.
Qed.

Lemma ivl_defined s x : over s0 s -> anc s0 r x -> is_Some (ivl s x).
Proof. intros Hov Hx. apply (over_ivl s0 s Hov). by apply (tree_ivl _ _ Ht). Qed.

(** After a child has got an interval that fits, all nodes outside its subtree are
    indexed. *)
Lemma withIvl_outside ex s p c A B ip ilA ilB i' x :
  nearly ex s -> placed s p c A B ip ilA ilB -> fitsBetween ip ilA ilB i' ->
  anc s0 r x -> ex <> Some x -> x <> c -> indexed (withIvl c i' s) x.
Proof.
  intros Hny Hpl Hfit Hx Hex Hxc. destruct (placed_child _ _ _ _ _ _ _ _ Hpl) as (Hc & Hrc & _).
  pose proof (ny_over _ _ Hny) as Hov. pose proof (ivl_defined s c Hov Hrc) as Hci.
  assert (Hov' : over s0 (withIvl c i' s)) by (etransitivity; [exact Hov|by apply withIvl_over]).
  destruct Hpl as [Hp Hk Hip HA HB]. destruct (under_sized p Hp) as (n & Hn & _).
  destruct (decide (x = p)) as [->|Hxp].
  - destruct (ny_kids _ _ p Hny Hp Hex) as (i & il & Hi & Hne & _). simplify_eq.
    pose proof (tree_NoDup _ _ Ht p Hp) as Hnd. rewrite Hk in Hnd. apply list.NoDup_app in Hnd as (_ & HcA & HcB).
    apply list.NoDup_cons in HcB as [HcB _].
    assert (Hsame : forall l il, c ∉ l -> Forall2 (fun c ic => ivl s c = Some ic) l il ->
      Forall2 (fun d ic => ivl (withIvl c i' s) d = Some ic) l il).
    { clear. intros l il Hcl Hl. induction Hl; constructor; [rewrite ivl_withIvl_ne; [done|set_solver]|apply IHHl; set_solver]. }
    exists ip, (ilA ++ i' :: ilB). rewrite (over_kids s0), Hk, ivl_withIvl_ne by done.
    split_and!; [done|done| |by apply fits_app].
    apply Forall2_app; [apply Hsame; [set_solver|done]|constructor; [by apply ivl_withIvl_eq|by apply Hsame]].
  - apply (indexed_ext s0 s); [done|done|by rewrite ivl_withIvl_ne| |by apply (ny_idx _ _ Hny)].
    intros d Hd. rewrite ivl_withIvl_ne; [done|]. intros ->.
    pose proof (tree_par _ _ Ht p c Hp Hc). pose proof (tree_par _ _ Ht x c Hx Hd). congruence.
Qed.

(** Where everything outside a subtree with room is indexed, propagation indexes
    everything. *)
Lemma propagate_heals ex s x i n :
  over s0 s -> cacheOk s0 s -> (exists ir, ivl s r = Some ir /\ valid ir) -> (ex = None \/ ex = Some child) ->
  (forall y, anc s0 r y -> ~ anc s0 x y -> ex <> Some y -> indexed s y) ->
  anc s0 r x -> ivl s x = Some i -> valid i -> sized s0 x n -> n <= width i ->
  exists s', propagateInterval fuel x s = (Ret tt, s') /\ nearly ex s' /\ (anc s0 x child -> nearly None s') /\
    forall y, ~ below s0 x y -> ivl s' y = ivl s y.
Proof.
  intros Hov Hca (ir & Hir & Hvr) Hex Hidx Hx Hi Hv Hn Hle.
  destruct (propagateInterval_run s0 r Ht fuel s x n) as (s' & Hrun & Hov' & Hca' & Hidx' & Hfr); try done.
  { by exists i, n. }
  { destruct (sized_anc _ _ _ _ HN Hx) as (m & Hm & ? & _). rewrite (sized_fun _ _ _ _ Hn Hm). lia. }
  assert (Hall : forall ex', (forall y, anc s0 r y -> ~ anc s0 x y -> ex' <> Some y -> ex <> Some y) ->
    (ex' = None \/ ex' = Some child) -> nearly ex' s').
  { intros ex' Hexy Hl. split; [done|done| | |done].
    - intros y Hy Hne. destruct (anc_or_not _ _ _ y Hn) as [Hxy|Hxy]; [by apply Hidx'|].
      apply (indexed_ext s0 s); [done|done|by apply Hfr; intros [? _]| |by apply Hidx; [..|apply Hexy]].
      intros c Hc. apply Hfr. intros [Hxc Hne']. by destruct (anc_child_inv s0 r Ht x y c).
    - exists ir. split; [|done]. rewrite Hfr; [done|]. intros [Hxr Hne]. apply Hne. by eapply (sized_antisym s0 x n). }
  exists s'. split_and!; [exact Hrun|by apply Hall| |done].
  intros Hcc. apply Hall; [|by left]. intros y _ Hy _. destruct Hex as [->| ->]; congruence.
Qed.

(** A child gets another interval, and its subtree follows. *)
Lemma replace_child ex s p c A B ip ilA ilB i' n :
  nearly ex s -> placed s p c A B ip ilA ilB -> fitsBetween ip ilA ilB i' -> sized s0 c n -> n <= width i' ->
  exists s', (stageInterval c i' ;;; propagateInterval fuel c) s = (Ret tt, s') /\ nearly ex s' /\
    (anc s0 c child -> nearly None s') /\ ivl s' c = Some i' /\ forall y, ~ anc s0 c y -> ivl s' y = ivl s y.
Proof.
  intros Hny Hpl Hfit Hn Hle. destruct (placed_child _ _ _ _ _ _ _ _ Hpl) as (Hc & Hrc & Hcr).
  pose proof (ny_over _ _ Hny) as Hov. pose proof (ivl_defined s c Hov Hrc) as Hci.
  rewrite (bind_Ret _ _ _ _ _ (stageInterval_run s c i' Hci)).
  assert (Hv : valid i').
  { destruct (ny_node _ _ p Hny (pl_parent _ _ _ _ _ _ _ _ Hpl)) as (ip' & Hip' & Hv & _).
    rewrite (pl_ivl _ _ _ _ _ _ _ _ Hpl) in Hip'. simplify_eq.
    destruct Hfit as (H1%fits_bounds & H2 & H3%fits_bounds). unfold valid in *. lia. }
  destruct (propagate_heals ex (withIvl c i' s) c i' n) as (s' & Hrun & Hny' & Hnone & Hfr); [|apply Hny| |apply Hny| |done| |done|done|done|].
  - etransitivity; [exact Hov|by apply withIvl_over].
  - destruct (ny_valid _ _ Hny) as (ir & Hir & ?). exists ir. by rewrite ivl_withIvl_ne.
  - intros y Hy Hcy Hex. eapply withIvl_outside; [done..|]. intros ->. by apply Hcy; constructor.
  - by apply ivl_withIvl_eq.
  - exists s'. split_and!; [done|done|done| |].
    + rewrite Hfr; [by apply ivl_withIvl_eq|]. by intros [_ ?].
    + intros y Hy. rewrite Hfr by (by intros [? _]). apply ivl_withIvl_ne. intros ->. by apply Hy; constructor.
Qed.

(** A child gets an interval in which its own children still fit. *)
Lemma narrow_child ex s p c A B ip ilA ilB i' ilc :
  nearly ex s -> placed s p c A B ip ilA ilB -> fitsBetween ip ilA ilB i' -> Start i' <= End i' ->
  Forall2 (fun c ic => ivl s c = Some ic) (kids s0 c) ilc -> fits (Start i') (End i' - 1) ilc ->
  nearly ex (withIvl c i' s).
Proof.
  intros Hny Hpl Hfit Hne Hf2 Hf. destruct (placed_child _ _ _ _ _ _ _ _ Hpl) as (Hc & Hrc & Hcr).
  pose proof (ny_over _ _ Hny) as Hov. pose proof (ivl_defined s c Hov Hrc) as Hci.
  destruct (under_sized c Hrc) as (n & Hn & _).
  assert (Hov' : over s0 (withIvl c i' s)) by (etransitivity; [exact Hov|by apply withIvl_over]).
  split; [done|apply Hny| | |apply Hny].
  - intros x Hx Hex. destruct (decide (x = c)) as [->|Hxc]; [|by eapply withIvl_outside].
    exists i', ilc. rewrite (over_kids s0), ivl_withIvl_eq by done. split_and!; [done|done| |done].
    assert (Hcc : c ∉ kids s0 c) by (intros Hin; by destruct (child_below _ _ _ _ Hn Hin)).
    clear -Hf2 Hcc. induction Hf2; constructor; [rewrite ivl_withIvl_ne; [done|set_solver]|apply IHHf2; set_solver].
  - destruct (ny_valid _ _ Hny) as (ir & Hir & ?). exists ir. by rewrite ivl_withIvl_ne.
Qed.

(** ** Siblings *)

Lemma sibling_not_anc p a c : anc s0 r p -> childOf s0 p a -> childOf s0 p c -> a <> c -> ~ anc s0 a c.
Proof.
  intros Hp Ha Hc Hne Hac. destruct (under_sized p Hp) as (n & Hn & _).
  destruct (anc_child_inv s0 r Ht a p c) as [|Hap]; [by eapply anc_snoc|done..|].
  destruct (child_below _ _ _ _ Hn Ha) as [Hpa Hpn]. apply Hpn. by eapply sized_antisym.
Qed.

Lemma child_not_anc p a : anc s0 r p -> childOf s0 p a -> ~ anc s0 a p.
Proof.
  intros Hp Ha Hap. destruct (under_sized p Hp) as (n & Hn & _).
  destruct (child_below _ _ _ _ Hn Ha) as [Hpa Hpn]. apply Hpn. by eapply sized_antisym.
Qed.

(** Two children have no common descendant. *)
Lemma siblings_disjoint p c c' y : anc s0 r p -> childOf s0 p c -> childOf s0 p c' -> c <> c' -> anc s0 c y -> ~ anc s0 c' y.
Proof.
  intros Hp Hc Hc' Hne Hy Hy'. destruct (anc_linear s0 r Ht c c' y) as [Hl|Hl]; [by eapply anc_snoc|by eapply anc_snoc|done|done| |].
  - by apply (sibling_not_anc p c c').
  - by apply (sibling_not_anc p c' c).
Qed.

(** Intervals of siblings outside the subtrees that changed. *)
Lemma siblings_kept s s' p (l m : list DomainHash) il :
  anc s0 r p -> (forall a, a ∈ m -> childOf s0 p a) -> (forall a, a ∈ l -> childOf s0 p a /\ a ∉ m) ->
  (forall y, (forall a, a ∈ m -> ~ anc s0 a y) -> ivl s' y = ivl s y) ->
  Forall2 (fun c ic => ivl s c = Some ic) l il -> Forall2 (fun c ic => ivl s' c = Some ic) l il.
Proof.
  intros Hp Hm Hl Hfr Hf2. induction Hf2 as [|c ic l il Hc Hf2 IH]; constructor; [|apply IH; set_solver].
  rewrite Hfr; [done|]. intros a Ha. destruct (Hl c) as [Hpc Hcm]; [set_solver|].
  apply (sibling_not_anc p); [done|by apply Hm|done|]. by intros ->.
Qed.

Lemma placed_moved s s' p c A B ip ilA ilB :
  placed s p c A B ip ilA ilB -> (forall y, ~ anc s0 c y -> ivl s' y = ivl s y) -> placed s' p c A B ip ilA ilB.
Proof.
  intros Hpl Hfr. destruct (placed_child _ _ _ _ _ _ _ _ Hpl) as (Hc & Hrc & Hcr). destruct Hpl as [Hp Hk Hip HA HB].
  pose proof (tree_NoDup _ _ Ht p Hp) as Hnd. rewrite Hk in Hnd. apply list.NoDup_app in Hnd as (_ & HcA & HcB).
  apply list.NoDup_cons in HcB as [HcB _].
  assert (Hfr' : forall y, (forall a, a ∈ [c] -> ~ anc s0 a y) -> ivl s' y = ivl s y) by (intros y Hy; apply Hfr, Hy; set_solver).
  split; [done|done| | |].
  - rewrite Hfr; [done|]. by apply child_not_anc.
  - eapply (siblings_kept s s' p A [c]); [done|set_solver| |done|done].
    intros a Ha. unfold childOf. rewrite Hk. set_solver.
  - eapply (siblings_kept s s' p B [c]); [done|set_solver| |done|done].
    intros a Ha. unfold childOf. rewrite Hk. set_solver.
Qed.

(** The nodes [A] just before [x] move up into the space that [x] has left. *)
Lemma offsetBackward_run ex A s p x A0 B ip ilA0 ilA ilB ix alloc o rest :
  nearly ex s -> placed s p x (A0 ++ A) B ip (ilA0 ++ ilA) ilB -> length ilA = length A -> ivl s x = Some ix ->
  0 <= o -> fits (Start ip) (Start ix - 1 - o) (ilA0 ++ ilA) ->
  alloc ∉ A -> (forall a, a ∈ A -> ex = None \/ ~ anc s0 a child) ->
  exists s', offsetBackward fuel (rev A ++ rest) alloc o s = offsetBackward fuel rest alloc o s' /\ nearly ex s' /\
    Forall2 (fun c ic => ivl s' c = Some ic) A (map (moved o) ilA) /\
    forall y, (forall a, a ∈ A -> ~ anc s0 a y) -> ivl s' y = ivl s y.
Proof.
  revert s x B ilA ilB ix. induction A as [|c A IH] using rev_ind; intros s x B ilA ilB ix Hny Hpl Hlen Hix Ho Hf Hal Hch.
  { destruct ilA; [|done]. exists s. by split_and!; [..|constructor|]. }
  destruct (exists_last (l := ilA)) as (ilA' & ic & ->); [by intros ->; rewrite length_app in Hlen; cbn in Hlen; lia|].
  rewrite !length_app in Hlen. cbn in Hlen. rewrite rev_app_distr. cbn [rev app offsetBackward].
  rewrite bool_decide_eq_false_2 by (intros ->; set_solver).
  destruct (placed_child _ _ _ _ _ _ _ _ Hpl) as (Hpx & _). destruct Hpl as [Hp Hk Hip HA HB].
  rewrite !app_assoc in HA. apply Forall2_app_inv in HA as [HA Hc]; [|].
  2: { apply Forall2_length in HA. rewrite !length_app in *. cbn in *. lia. }
  inversion Hc as [|? ? ? ? Hic _]; subst.
  assert (Hpl' : placed s p c (A0 ++ A) (x :: B) ip (ilA0 ++ ilA') (ix :: ilB)).
  { split; [done|by rewrite Hk, <- !app_assoc|done|done|by constructor]. }
  rewrite app_assoc in Hf. apply fits_app in Hf as (Hf1 & Hf2 & Hf3). cbn in Hf3.
  destruct (placed_child _ _ _ _ _ _ _ _ Hpl') as (Hpc & Hrc & _).
  destruct (ny_node _ _ c Hny Hrc) as (ic' & Hic' & Hvc & _). simplify_eq.
  destruct (ny_node _ _ x Hny (anc_snoc _ _ _ _ Hp Hpx)) as (ix' & Hix' & Hvx & _). simplify_eq.
  destruct (placed_fits _ _ _ _ _ _ _ _ _ _ Hny Hpl' Hic) as (_ & _ & Hfx).
  assert (Hmv : intervalIncrease ic o = moved o ic).
  { unfold intervalIncrease, moved. unfold valid in *. rewrite !u64_id; [done|lia|lia]. }
  destruct (under_sized c Hrc) as (n & Hn & _).
  pose proof (ny_room _ _ _ _ _ Hny Hrc ltac:(apply Hch; set_solver) Hn Hic) as Hroom.
  destruct (replace_child ex s p c (A0 ++ A) (x :: B) ip (ilA0 ++ ilA') (ix :: ilB) (moved o ic) n)
    as (s1 & Hrun & Hny1 & _ & Hc1 & Hfr1); [done|done| |done|unfold width, moved in *; cbn; lia|].
  { unfold fitsBetween, moved. cbn in Hfx |- *. split_and!; [eapply fits_upper; [|exact Hf1]; lia|lia|lia|lia|apply Hfx]. }
  rewrite (bind_Ret _ _ _ _ _ (interval_run s c ic Hic)), Hmv.
  pose proof (placed_moved _ _ _ _ _ _ _ _ _ Hpl' Hfr1) as Hpl1.
  destruct (IH s1 c (x :: B) ilA' (ix :: ilB) (moved o ic)) as (s' & Hrun' & Hny' & HA' & Hfr'); [done|done|lia|done|done| |set_solver|set_solver|].
  { unfold moved. cbn. eapply fits_upper; [|exact Hf1]. lia. }
  exists s'. split_and!; [|done| |].
  - rewrite <- Hrun'. unfold bind in Hrun |- *. destruct (stageInterval c (moved o ic) s) as [[] sa]; [|done..].
    by rewrite Hrun.
  - rewrite map_app. apply Forall2_app; [done|]. constructor; [|constructor]. rewrite Hfr'; [done|].
    intros a Ha. apply (sibling_not_anc p); [done|unfold childOf; rewrite Hk; set_solver|done|]. intros ->.
    pose proof (tree_NoDup _ _ Ht p Hp) as Hnd. rewrite Hk in Hnd. apply list.NoDup_app in Hnd as (Hnd & _ & _).
    rewrite app_assoc in Hnd. apply list.NoDup_app in Hnd as (_ & Hnd & _). apply (Hnd c); set_solver.
  - intros y Hy. rewrite Hfr', Hfr1; [done|apply Hy; set_solver|set_solver].
Qed.

(** The nodes [B] just after [x] move down into the space that [x] has left. *)
Lemma offsetForward_run ex B s p x A B0 ip ilA ilB ilB0 ix alloc o rest :
  nearly ex s -> placed s p x A (B ++ B0) ip ilA (ilB ++ ilB0) -> length ilB = length B -> ivl s x = Some ix ->
  0 <= o -> fits (End ix + 1 + o) (End ip - 1) (ilB ++ ilB0) ->
  alloc ∉ B -> (forall b, b ∈ B -> ex = None \/ ~ anc s0 b child) ->
  exists s', offsetForward fuel (B ++ rest) alloc o s = offsetForward fuel rest alloc o s' /\ nearly ex s' /\
    Forall2 (fun c ic => ivl s' c = Some ic) B (map (moved (- o)) ilB) /\
    forall y, (forall b, b ∈ B -> ~ anc s0 b y) -> ivl s' y = ivl s y.
Proof.
  revert s x A ilA ilB ix. induction B as [|c B IH]; intros s x A ilA ilB ix Hny Hpl Hlen Hix Ho Hf Hal Hch.
  { destruct ilB; [|done]. exists s. by split_and!; [..|constructor|]. }
  destruct ilB as [|ic ilB]; [done|]. cbn in Hlen. cbn [app offsetForward].
  rewrite bool_decide_eq_false_2 by (intros ->; set_solver).
  destruct (placed_child _ _ _ _ _ _ _ _ Hpl) as (Hpx & _). destruct Hpl as [Hp Hk Hip HA HB].
  cbn in HB. inversion HB as [|? ? ? ? Hic HB']; subst.
  assert (Hpl' : placed s p c (A ++ [x]) (B ++ B0) ip (ilA ++ [ix]) (ilB ++ ilB0)).
  { split; [done|by rewrite Hk, <- !app_assoc|done|apply Forall2_app; [done|by repeat constructor]|done]. }
  cbn in Hf. destruct Hf as (Hf1 & Hf2 & Hf3).
  destruct (placed_child _ _ _ _ _ _ _ _ Hpl') as (Hpc & Hrc & _).
  destruct (ny_node _ _ c Hny Hrc) as (ic' & Hic' & Hvc & _). simplify_eq.
  destruct (ny_node _ _ x Hny (anc_snoc _ _ _ _ Hp Hpx)) as (ix' & Hix' & Hvx & _). simplify_eq.
  destruct (placed_fits _ _ _ _ _ _ _ _ _ _ Hny Hpl' Hic) as (Hfx & _ & _). apply fits_app in Hfx as (Hx1 & Hx2 & Hx3).
  assert (Hmv : intervalDecrease ic o = moved (- o) ic).
  { unfold intervalDecrease, moved. unfold valid in *. rewrite !u64_id; [f_equal; lia|lia|lia]. }
  destruct (under_sized c Hrc) as (n & Hn & _).
  pose proof (ny_room _ _ _ _ _ Hny Hrc ltac:(apply Hch; set_solver) Hn Hic) as Hroom.
  destruct (replace_child ex s p c (A ++ [x]) (B ++ B0) ip (ilA ++ [ix]) (ilB ++ ilB0) (moved (- o) ic) n)
    as (s1 & Hrun & Hny1 & _ & Hc1 & Hfr1); [done|done| |done|unfold width, moved in *; cbn; lia|].
  { unfold fitsBetween, moved. cbn [Start End]. split_and!; [|lia|eapply fits_lower; [|exact Hf3]; lia].
    apply fits_app. split_and!; [done|done|cbn; lia]. }
  rewrite (bind_Ret _ _ _ _ _ (interval_run s c ic Hic)), Hmv.
  pose proof (placed_moved _ _ _ _ _ _ _ _ _ Hpl' Hfr1) as Hpl1.
  destruct (IH s1 c (A ++ [x]) (ilA ++ [ix]) ilB (moved (- o) ic)) as (s' & Hrun' & Hny' & HB'' & Hfr'); [done|done|lia|done|done| |set_solver|set_solver|].
  { unfold moved. cbn. eapply fits_lower; [|exact Hf3]. lia. }
  exists s'. split_and!; [|done| |].
  - rewrite <- Hrun'. unfold bind in Hrun |- *. destruct (stageInterval c (moved (- o) ic) s) as [[] sa]; [|done..].
    by rewrite Hrun.
  - cbn [map]. constructor; [|done]. rewrite Hfr'; [done|].
    intros a Ha. apply (sibling_not_anc p); [done|unfold childOf; rewrite Hk; set_solver|done|]. intros ->.
    pose proof (tree_NoDup _ _ Ht p Hp) as Hnd. rewrite Hk in Hnd. apply list.NoDup_app in Hnd as (_ & _ & Hnd).
    apply list.NoDup_cons in Hnd as [_ Hnd]. cbn in Hnd. apply list.NoDup_cons in Hnd as [Hnd _]. set_solver.
  - intros y Hy. rewrite Hfr', Hfr1; [done|apply Hy; set_solver|set_solver].
Qed.

(** ** The two sides of a node *)

Lemma slackBefore_run ex s q c K iq ic :
  nearly ex s -> anc s0 r q -> kids s0 q = c :: K -> ivl s q = Some iq -> ivl s c = Some ic ->
  remainingSlackBefore q s = (Ret (Start ic - Start iq), s) /\ 0 <= Start ic - Start iq < width iq.
Proof.
  intros Hny Hq Hk Hiq Hic. assert (Hc : childOf s0 q c) by (unfold childOf; rewrite Hk; set_solver).
  pose proof (ny_over _ _ Hny) as Hov. destruct (placed_exists _ _ _ _ Hny Hq Hc) as (A & B & ip & ilA & ilB & Hpl).
  pose proof (pl_ivl _ _ _ _ _ _ _ _ Hpl) as Hip. simplify_eq.
  destruct (placed_fits _ _ _ _ _ _ _ _ _ _ Hny Hpl Hic) as (Hf1%fits_bounds & Hf2 & Hf3%fits_bounds).
  destruct (ny_node _ _ q Hny Hq) as (iq' & Hiq' & Hv & _). simplify_eq.
  destruct (ny_node _ _ c Hny (anc_snoc _ _ _ _ Hq Hc)) as (ic' & Hic' & Hvc & _). simplify_eq.
  split; [|unfold width; lia]. unfold remainingSlackBefore, remainingIntervalBefore, intervalRangeForChildAllocation.
  rewrite !bind_assoc, (bind_Ret _ _ _ _ _ (interval_run s q _ Hiq)).
  erewrite bind_Ret by done. rewrite bind_assoc, (bind_Ret _ _ _ _ _ (over_children_run s0 s q Hov (tree_ivl _ _ Ht q Hq))), Hk.
  rewrite bind_assoc, (bind_Ret _ _ _ _ _ (interval_run s c ic Hic)). unfold bind, ret, intervalSize. cbn [Start End].
  unfold valid in *. rewrite (u64_id (Start ic - 1)), u64_id by lia. do 2 f_equal. lia.
Qed.

Lemma slackAfter_run ex s q c K iq ic :
  nearly ex s -> anc s0 r q -> kids s0 q = K ++ [c] -> ivl s q = Some iq -> ivl s c = Some ic ->
  remainingSlackAfter q s = (Ret (End iq - 1 - End ic), s) /\ 0 <= End iq - 1 - End ic < width iq.
Proof.
  intros Hny Hq Hk Hiq Hic. assert (Hc : childOf s0 q c) by (unfold childOf; rewrite Hk; set_solver).
  pose proof (ny_over _ _ Hny) as Hov. destruct (placed_exists _ _ _ _ Hny Hq Hc) as (A & B & ip & ilA & ilB & Hpl).
  pose proof (pl_ivl _ _ _ _ _ _ _ _ Hpl) as Hip. simplify_eq.
  destruct (placed_fits _ _ _ _ _ _ _ _ _ _ Hny Hpl Hic) as (Hf1%fits_bounds & Hf2 & Hf3%fits_bounds).
  destruct (ny_node _ _ q Hny Hq) as (iq' & Hiq' & Hv & _). simplify_eq.
  destruct (ny_node _ _ c Hny (anc_snoc _ _ _ _ Hq Hc)) as (ic' & Hic' & Hvc & _). simplify_eq.
  split; [|unfold width; lia]. unfold remainingSlackAfter, remainingIntervalAfter, intervalRangeForChildAllocation.
  rewrite !bind_assoc, (bind_Ret _ _ _ _ _ (interval_run s q _ Hiq)).
  erewrite bind_Ret by done. rewrite bind_assoc, (bind_Ret _ _ _ _ _ (over_children_run s0 s q Hov (tree_ivl _ _ Ht q Hq))), Hk.
  assert (Hidx : index (E:=reachError) (K ++ [c]) (len (K ++ [c]) - 1) s = (Ret c, s)).
  { apply index_middle. rewrite len_app, len_single. lia. }
  destruct (K ++ [c]) as [|a l] eqn:E; [by destruct K|].
  rewrite bind_assoc, (bind_Ret _ _ _ _ _ Hidx), bind_assoc, (bind_Ret _ _ _ _ _ (interval_run s c ic Hic)).
  unfold bind, ret, intervalSize. cbn [Start End]. unfold valid in *.
  rewrite (u64_id (End ic + 1)), (u64_id (End iq - 1)), u64_id by lia. do 2 f_equal. lia.
Qed.

(** A child among the intervals of the children. *)
Lemma kids_fit ex s q c iq ic :
  nearly ex s -> anc s0 r q -> childOf s0 q c -> ivl s q = Some iq -> ivl s c = Some ic ->
  exists il, Forall2 (fun c ic => ivl s c = Some ic) (kids s0 q) il /\ fits (Start iq) (End iq - 1) il /\ ic ∈ il.
Proof.
  intros Hny Hq Hc Hiq Hic. destruct (ny_parent _ _ _ _ Hny Hq Hc) as (iq' & il & Hiq' & _ & Hf2 & Hf). simplify_eq.
  rewrite (over_kids s0) in Hf2 by apply Hny. exists il. split_and!; [done|done|].
  apply list_elem_of_lookup in Hc as [k Hk]. destruct (Forall2_lookup_l _ _ _ _ _ Hf2 Hk) as (ic' & Hi & Hc). simplify_eq.
  by apply list_elem_of_lookup_2 in Hi.
Qed.

(** What [reclaimInterval] needs of a direction. *)
Class SideLaws (d : side) (onSide : DomainHash -> DomainHash -> DomainHash -> Prop) : Prop := {
  sl_distinct p alloc x : anc s0 r p -> onSide p alloc x -> alloc <> x;
  sl_slack ex s q c iq ic :
    nearly ex s -> anc s0 r q -> childOf s0 q c -> ivl s q = Some iq -> ivl s c = Some ic ->
    exists z, remainingSlack d q s = (Ret z, s) /\ 0 <= z /\ z + width ic < width iq;
  sl_ext ex s s' q c z :
    nearly ex s -> nearly ex s' -> anc s0 r q -> childOf s0 q c -> ivl s' q = ivl s q ->
    (forall c, childOf s0 q c -> ivl s' c = ivl s c) ->
    remainingSlack d q s = (Ret z, s) -> remainingSlack d q s' = (Ret z, s');
  sl_shrink i o :
    valid i -> 0 <= o <= width i ->
    Start i <= Start (shrink d i o) /\ End (shrink d i o) <= End i /\ width (shrink d i o) = width i - o;
  sl_kids ex s q c z i o il :
    nearly ex s -> anc s0 r q -> childOf s0 q c -> ivl s q = Some i ->
    Forall2 (fun c ic => ivl s c = Some ic) (kids s0 q) il -> fits (Start i) (End i - 1) il ->
    remainingSlack d q s = (Ret z, s) -> 0 <= o <= z -> fits (Start (shrink d i o)) (End (shrink d i o) - 1) il;
  sl_offset ex s s1 p x ix o alloc z :
    nearly ex s -> nearly ex s1 -> anc s0 r p -> childOf s0 p x -> ivl s x = Some ix -> 0 <= o <= width ix ->
    ivl s1 x = Some (shrink d ix o) -> (forall y, ~ anc s0 x y -> ivl s1 y = ivl s y) -> ~ childOf s0 p alloc ->
    (forall a, childOf s0 p a -> a <> x -> ~ anc s0 a child) -> remainingSlack d p s = (Ret z, s) ->
    exists s', offsetSiblings d alloc x o s1 = (Ret tt, s') /\ nearly ex s' /\
      remainingSlack d p s' = (Ret (z + o), s') /\ (forall y, ~ below s0 p y -> ivl s' y = ivl s y) /\
      forall y, anc s0 x y -> ivl s' y = ivl s1 y;
  sl_alloc ex s s1 p x ix o alloc ia n :
    nearly ex s -> nearly ex s1 -> anc s0 r p -> childOf s0 p x -> ivl s x = Some ix -> 0 <= o <= width ix ->
    ivl s1 x = Some (shrink d ix o) -> (forall y, ~ anc s0 x y -> ivl s1 y = ivl s y) -> onSide p alloc x ->
    anc s0 alloc child -> ivl s alloc = Some ia -> sized s0 alloc n -> n <= width ia + o ->
    exists s', offsetSiblings d alloc x o s1 = (Ret tt, s') /\ nearly None s' /\ forall y, anc s0 x y -> ivl s' y = ivl s1 y
}.

Definition isBefore (p alloc x : DomainHash) : Prop := exists A1 A2 B, kids s0 p = A1 ++ alloc :: A2 ++ x :: B.
Definition isAfter (p alloc x : DomainHash) : Prop := exists A B1 B2, kids s0 p = A ++ x :: B1 ++ alloc :: B2.

Lemma splitChildren_run ex s p x A B :
  nearly ex s -> anc s0 r p -> kids s0 p = A ++ x :: B -> splitChildren p x s = (Ret (A, B), s).
Proof.
  intros Hny Hp Hk. unfold splitChildren. erewrite bind_Ret by (apply (over_children_run s0); [apply Hny|by apply (tree_ivl _ _ Ht)]).
  pose proof (tree_NoDup _ _ Ht p Hp) as Hnd. rewrite Hk in Hnd |- *. apply list.NoDup_app in Hnd as (_ & Hx & _).
  assert (Hs : forall l, splitAt x l (A ++ x :: B) = Some (l ++ A, B)); [|by rewrite Hs].
  assert (HxA : x ∉ A) by set_solver. clear -HxA. induction A as [|a A IH]; intros l; cbn.
  - by rewrite bool_decide_eq_true_2, app_nil_r.
  - rewrite bool_decide_eq_false_2 by set_solver. rewrite IH by set_solver. by rewrite <- app_assoc.
Qed.

Lemma parent_child_run ex s p x : nearly ex s -> anc s0 r p -> childOf s0 p x -> parent x s = (Ret (Some p), s).
Proof.
  intros Hny Hp Hx. rewrite (over_parent_run s0); [by rewrite (tree_par _ _ Ht p x Hp Hx)|apply Hny|].
  apply (tree_ivl _ _ Ht). by eapply anc_snoc.
Qed.

(** The siblings around a node that has become narrower. *)
Lemma placed_narrower ex s s1 p x ix ix' :
  nearly ex s -> anc s0 r p -> childOf s0 p x -> ivl s x = Some ix -> ivl s1 x = Some ix' ->
  (forall y, ~ anc s0 x y -> ivl s1 y = ivl s y) ->
  exists A B ip ilA ilB, placed s p x A B ip ilA ilB /\ placed s1 p x A B ip ilA ilB /\ fitsBetween ip ilA ilB ix.
Proof.
  intros Hny Hp Hx Hix Hix' Hfr. destruct (placed_exists _ _ _ _ Hny Hp Hx) as (A & B & ip & ilA & ilB & Hpl).
  exists A, B, ip, ilA, ilB. split_and!; [done|by eapply placed_moved|by eapply placed_fits].
Qed.

Lemma not_below_child p a y : anc s0 r p -> childOf s0 p a -> ~ below s0 p y -> ~ anc s0 a y.
Proof.
  intros Hp Ha Hy Hay. apply Hy. split; [eapply rtc_l; [exact Ha|exact Hay]|]. intros <-. by eapply child_not_anc.
Qed.

Lemma incStart_id i o : valid i -> 0 <= o <= width i -> intervalIncreaseStart i o = newReachabilityInterval (Start i + o) (End i).
Proof. unfold valid, width, intervalIncreaseStart. intros. by rewrite u64_id by lia. Qed.

Lemma decEnd_id i o : valid i -> 0 <= o <= width i -> intervalDecreaseEnd i o = newReachabilityInterval (Start i) (End i - o).
Proof. unfold valid, width, intervalDecreaseEnd. intros. by rewrite u64_id by lia. Qed.

Lemma offsetBefore_run ex s s1 p x ix o alloc z :
  nearly ex s -> nearly ex s1 -> anc s0 r p -> childOf s0 p x -> ivl s x = Some ix -> 0 <= o <= width ix ->
  ivl s1 x = Some (intervalIncreaseStart ix o) -> (forall y, ~ anc s0 x y -> ivl s1 y = ivl s y) -> ~ childOf s0 p alloc ->
  (forall a, childOf s0 p a -> a <> x -> ~ anc s0 a child) -> remainingSlackBefore p s = (Ret z, s) ->
  exists s', offsetSiblingsBefore fuel alloc x o s1 = (Ret tt, s') /\ nearly ex s' /\
    remainingSlackBefore p s' = (Ret (z + o), s') /\ (forall y, ~ below s0 p y -> ivl s' y = ivl s y) /\
    forall y, anc s0 x y -> ivl s' y = ivl s1 y.
Proof.
  intros Hny Hny1 Hp Hx Hix Ho Hix1 Hfr Hal Hch Hz.
  destruct (ny_node _ _ x Hny (anc_snoc _ _ _ _ Hp Hx)) as (ix' & Hix' & Hvx & _). simplify_eq.
  rewrite incStart_id in Hix1 by done.
  destruct (placed_narrower _ _ _ _ _ _ _ Hny Hp Hx Hix Hix1 Hfr) as (A & B & ip & ilA & ilB & Hpl & Hpl1 & Hfit).
  pose proof (pl_kids _ _ _ _ _ _ _ _ Hpl) as Hk. pose proof (pl_ivl _ _ _ _ _ _ _ _ Hpl) as Hip.
  assert (HAx : forall a, a ∈ A -> childOf s0 p a /\ a <> x).
  { intros a Ha. split; [unfold childOf; rewrite Hk; set_solver|]. intros ->.
    pose proof (tree_NoDup _ _ Ht p Hp) as Hnd. rewrite Hk in Hnd. apply list.NoDup_app in Hnd as (_ & Hnd & _). apply (Hnd x); set_solver. }
  destruct (offsetBackward_run ex A s1 p x [] B ip [] ilA ilB (newReachabilityInterval (Start ix + o) (End ix)) alloc o [])
    as (s' & Hrun & Hny' & HA' & Hfr'); [done|done|by rewrite (Forall2_length (pl_before _ _ _ _ _ _ _ _ Hpl))|done|lia| | | |].
  { cbn. replace (Start ix + o - 1 - o) with (Start ix - 1) by lia. apply Hfit. }
  { intros Hin. by apply Hal, HAx. }
  { intros a Ha. right. apply Hch; by apply HAx. }
  assert (Hout : forall y, ~ below s0 p y -> ivl s' y = ivl s y).
  { intros y Hy. rewrite Hfr', Hfr; [done|by apply (not_below_child p)|]. intros a Ha. apply (not_below_child p); [done|by apply HAx|done]. }
  exists s'. split_and!; [|done| |done|intros y Hy; apply Hfr'; intros a Ha; apply (siblings_disjoint p x a); [done|done|apply HAx, Ha|apply not_eq_sym; apply HAx, Ha|done]].
  - unfold offsetSiblingsBefore. erewrite bind_Ret by by eapply parent_child_run.
    erewrite bind_Ret by done. erewrite bind_Ret by by eapply splitChildren_run.
    rewrite app_nil_r in Hrun. exact Hrun.
  - assert (Hip' : ivl s' p = Some ip) by (rewrite Hout; [done|intros [_ ?]; done]).
    destruct A as [|a A].
    + cbn in Hk. destruct (slackBefore_run _ s p x B ip ix Hny Hp Hk Hip Hix) as [Hz' _].
      assert (Hxs : ivl s' x = Some (newReachabilityInterval (Start ix + o) (End ix))) by (rewrite Hfr'; [done|set_solver]).
      destruct (slackBefore_run _ s' p x B ip _ Hny' Hp Hk Hip' Hxs) as [Hz2 _]. rewrite Hz2. cbn.
      rewrite Hz in Hz'. injection Hz' as ->. do 2 f_equal. lia.
    + pose proof (pl_before _ _ _ _ _ _ _ _ Hpl) as HA. inversion HA as [|? ia ? ilA0 Hia HA0]; subst.
      cbn in Hk. destruct (slackBefore_run _ s p a _ ip ia Hny Hp Hk Hip Hia) as [Hz' _].
      cbn in HA'. inversion HA' as [|? ? ? ? Hia' _]; subst.
      destruct (slackBefore_run _ s' p a _ ip _ Hny' Hp Hk Hip' Hia') as [Hz2 _]. rewrite Hz2. cbn.
      rewrite Hz in Hz'. injection Hz' as ->. do 2 f_equal. lia.
Qed.

Lemma allocBefore_run ex s s1 p x ix o alloc ia n :
  nearly ex s -> nearly ex s1 -> anc s0 r p -> childOf s0 p x -> ivl s x = Some ix -> 0 <= o <= width ix ->
  ivl s1 x = Some (intervalIncreaseStart ix o) -> (forall y, ~ anc s0 x y -> ivl s1 y = ivl s y) -> isBefore p alloc x ->
  anc s0 alloc child -> ivl s alloc = Some ia -> sized s0 alloc n -> n <= width ia + o ->
  exists s', offsetSiblingsBefore fuel alloc x o s1 = (Ret tt, s') /\ nearly None s' /\ forall y, anc s0 x y -> ivl s' y = ivl s1 y.
Proof.
  intros Hny Hny1 Hp Hx Hix Ho Hix1 Hfr (A1 & A2 & B & Hk) Hch Hia Hn Hroom.
  destruct (ny_node _ _ x Hny (anc_snoc _ _ _ _ Hp Hx)) as (ix' & Hix' & Hvx & _). simplify_eq.
  rewrite incStart_id in Hix1 by done.
  pose proof (tree_NoDup _ _ Ht p Hp) as Hnd. rewrite Hk in Hnd. apply list.NoDup_app in Hnd as (_ & HnA & Hnd).
  apply list.NoDup_cons in Hnd as (HnA2 & Hnd). apply list.NoDup_app in Hnd as (_ & HnA3 & _).
  assert (Hpa : childOf s0 p alloc) by (unfold childOf; rewrite Hk; set_solver).
  assert (Hkx : kids s0 p = (A1 ++ alloc :: A2) ++ x :: B) by by rewrite Hk, <- app_assoc.
  destruct (placed_split _ _ _ _ _ _ Hny Hp Hkx) as (ip & il & ilB & Hpl).
  pose proof (placed_fits _ _ _ _ _ _ _ _ _ _ Hny Hpl Hix) as Hfit.
  pose proof (placed_moved _ _ _ _ _ _ _ _ _ Hpl Hfr) as Hpl1. pose proof (pl_ivl _ _ _ _ _ _ _ _ Hpl1) as Hip1.
  pose proof (pl_before _ _ _ _ _ _ _ _ Hpl1) as Hb.
  apply Forall2_app_inv_l in Hb as (ilA1 & il2 & HA1 & Hb & ->). inversion Hb as [|? ia1 ? ilA2 Hia1 HA2]; subst.
  assert (Hxal : ~ anc s0 x alloc) by (apply (sibling_not_anc p); [done..|]; intros ->; set_solver).
  rewrite Hfr, Hia in Hia1 by done. injection Hia1 as <-.
  destruct Hfit as (Hf1 & Hf2 & Hf3). pose proof Hf1 as Hf. apply fits_app in Hf as (Hfa1 & Hfa2 & Hfa3).
  destruct (offsetBackward_run ex A2 s1 p x (A1 ++ [alloc]) B ip (ilA1 ++ [ia]) ilA2 ilB
    (newReachabilityInterval (Start ix + o) (End ix)) alloc o (alloc :: rev A1)) as (s2 & Hrun & Hny2 & HA2' & Hfr2).
  { done. }
  { by rewrite <- !app_assoc. }
  { by rewrite (Forall2_length HA2). }
  { done. }
  { lia. }
  { rewrite <- app_assoc. cbn. by replace (Start ix + o - 1 - o) with (Start ix - 1) by lia. }
  { set_solver. }
  { intros a Ha. right. apply (siblings_disjoint p alloc); [done|done|unfold childOf; rewrite Hk; set_solver| |done].
    intros <-. set_solver. }
  assert (HA2p : forall a, a ∈ A2 -> childOf s0 p a /\ a <> alloc /\ a <> x).
  { intros a Ha. split_and!; [unfold childOf; rewrite Hk; set_solver|intros ->; set_solver|intros ->; by apply (HnA3 x); set_solver]. }
  assert (Hout2 : forall c, childOf s0 p c -> c ∉ A2 -> ivl s2 c = ivl s1 c).
  { intros c Hc HcA. apply Hfr2. intros a Ha. apply (sibling_not_anc p); [done|by apply HA2p|done|]. by intros ->. }
  assert (Hial : ivl s2 alloc = Some ia).
  { rewrite Hout2, Hfr; [done|done|done|set_solver]. }
  assert (Hpl2 : placed s2 p alloc A1 (A2 ++ x :: B) ip ilA1
    (map (moved o) ilA2 ++ newReachabilityInterval (Start ix + o) (End ix) :: ilB)).
  { assert (Hk' : forall l il, (forall a, a ∈ l -> childOf s0 p a /\ a ∉ A2) -> Forall2 (fun c ic => ivl s1 c = Some ic) l il ->
      Forall2 (fun c ic => ivl s2 c = Some ic) l il).
    { intros l il Hl. apply (siblings_kept s1 s2 p l A2); [done|by intros a Ha; apply HA2p|done|done]. }
    split; [done|done| | |].
    - rewrite Hfr2; [done|]. intros a Ha. apply child_not_anc; [done|by apply HA2p].
    - apply Hk'; [|done]. intros a Ha. unfold childOf. rewrite Hk. split; [set_solver|]. intros Ha2. apply (HnA a); set_solver.
    - apply Forall2_app; [done|]. constructor.
      + rewrite Hout2; [done|done|]. intros Hin. by apply (HnA3 x); set_solver.
      + apply Hk'; [|by apply Hpl1]. intros a Ha. unfold childOf. rewrite Hk. split; [set_solver|]. intros Ha2. apply (HnA3 a); set_solver. }
  pose proof (fits_bounds _ _ _ Hf3) as Hb1. pose proof (fits_bounds _ _ _ Hfa3) as Hb2.
  destruct (ny_node _ _ p Hny2 Hp) as (ip' & Hip' & Hvp & _). rewrite (pl_ivl _ _ _ _ _ _ _ _ Hpl2) in Hip'. injection Hip' as <-.
  destruct (ny_node _ _ alloc Hny2 (anc_snoc _ _ _ _ Hp Hpa)) as (ia' & Hia' & Hva & _). simplify_eq.
  assert (Hinc : intervalIncreaseEnd ia o = newReachabilityInterval (Start ia) (End ia + o)).
  { unfold intervalIncreaseEnd, valid, width in *. by rewrite u64_id by lia. }
  destruct (replace_child ex s2 p alloc A1 (A2 ++ x :: B) ip ilA1
    (map (moved o) ilA2 ++ newReachabilityInterval (Start ix + o) (End ix) :: ilB) (intervalIncreaseEnd ia o) n)
    as (s3 & Hrun3 & _ & Hny3 & _ & Hfr3); [done|done| |done|rewrite Hinc; unfold width in *; cbn; lia|].
  { rewrite Hinc. split_and!; [done|cbn; lia|]. apply fits_app. cbn. split_and!; [|unfold width in *; lia|done].
    pose proof (fits_moved _ _ o _ Hfa3) as Hm. eapply fits_upper; [|eapply fits_lower; [|exact Hm]]; lia. }
  assert (Hframe : forall y, anc s0 x y -> ivl s3 y = ivl s1 y).
  { intros y Hy. rewrite Hfr3, Hfr2; [done|intros a Ha; apply (siblings_disjoint p x a)|apply (siblings_disjoint p x alloc)]; try done.
    - by apply HA2p.
    - apply not_eq_sym. by apply HA2p.
    - intros <-. apply Hxal. constructor. }
  exists s3. split_and!; [|by apply Hny3|done]. unfold offsetSiblingsBefore. erewrite bind_Ret by by eapply parent_child_run.
  erewrite bind_Ret by done. erewrite bind_Ret by by eapply splitChildren_run. cbn [fst].
  rewrite rev_app_distr. cbn [rev]. rewrite <- app_assoc. cbn [app]. rewrite Hrun. cbn [offsetBackward].
  rewrite bool_decide_eq_true_2 by done. by rewrite (bind_Ret _ _ _ _ _ (interval_run s2 alloc ia Hial)).
Qed.

Lemma offsetAfter_run ex s s1 p x ix o alloc z :
  nearly ex s -> nearly ex s1 -> anc s0 r p -> childOf s0 p x -> ivl s x = Some ix -> 0 <= o <= width ix ->
  ivl s1 x = Some (intervalDecreaseEnd ix o) -> (forall y, ~ anc s0 x y -> ivl s1 y = ivl s y) -> ~ childOf s0 p alloc ->
  (forall a, childOf s0 p a -> a <> x -> ~ anc s0 a child) -> remainingSlackAfter p s = (Ret z, s) ->
  exists s', offsetSiblingsAfter fuel alloc x o s1 = (Ret tt, s') /\ nearly ex s' /\
    remainingSlackAfter p s' = (Ret (z + o), s') /\ (forall y, ~ below s0 p y -> ivl s' y = ivl s y) /\
    forall y, anc s0 x y -> ivl s' y = ivl s1 y.
Proof.
  intros Hny Hny1 Hp Hx Hix Ho Hix1 Hfr Hal Hch Hz.
  destruct (ny_node _ _ x Hny (anc_snoc _ _ _ _ Hp Hx)) as (ix' & Hix' & Hvx & _). simplify_eq.
  rewrite decEnd_id in Hix1 by done.
  destruct (placed_narrower _ _ _ _ _ _ _ Hny Hp Hx Hix Hix1 Hfr) as (A & B & ip & ilA & ilB & Hpl & Hpl1 & Hfit).
  pose proof (pl_kids _ _ _ _ _ _ _ _ Hpl) as Hk. pose proof (pl_ivl _ _ _ _ _ _ _ _ Hpl) as Hip.
  assert (HBx : forall a, a ∈ B -> childOf s0 p a /\ a <> x).
  { intros a Ha. split; [unfold childOf; rewrite Hk; set_solver|]. intros ->.
    pose proof (tree_NoDup _ _ Ht p Hp) as Hnd. rewrite Hk in Hnd. apply list.NoDup_app in Hnd as (_ & _ & Hnd).
    apply list.NoDup_cons in Hnd as [Hnd _]. done. }
  destruct (offsetForward_run ex B s1 p x A [] ip ilA ilB [] (newReachabilityInterval (Start ix) (End ix - o)) alloc o [])
    as (s' & Hrun & Hny' & HB' & Hfr');
    [done|by rewrite !app_nil_r|by rewrite (Forall2_length (pl_after _ _ _ _ _ _ _ _ Hpl))|done|lia| | | |].
  { cbn. rewrite app_nil_r. replace (End ix - o + 1 + o) with (End ix + 1) by lia. apply Hfit. }
  { intros Hin. by apply Hal, HBx. }
  { intros a Ha. right. apply Hch; by apply HBx. }
  assert (Hout : forall y, ~ below s0 p y -> ivl s' y = ivl s y).
  { intros y Hy. rewrite Hfr', Hfr; [done|by apply (not_below_child p)|]. intros a Ha. apply (not_below_child p); [done|by apply HBx|done]. }
  exists s'. split_and!; [|done| |done|intros y Hy; apply Hfr'; intros a Ha; apply (siblings_disjoint p x a); [done|done|apply HBx, Ha|apply not_eq_sym; apply HBx, Ha|done]].
  - unfold offsetSiblingsAfter. erewrite bind_Ret by by eapply parent_child_run.
    erewrite bind_Ret by done. erewrite bind_Ret by by eapply splitChildren_run.
    rewrite app_nil_r in Hrun. exact Hrun.
  - assert (Hip' : ivl s' p = Some ip) by (rewrite Hout; [done|intros [_ ?]; done]).
    destruct B as [|b B _] using rev_ind.
    + destruct (slackAfter_run _ s p x A ip ix Hny Hp Hk Hip Hix) as [Hz' _].
      assert (Hxs : ivl s' x = Some (newReachabilityInterval (Start ix) (End ix - o))) by (rewrite Hfr'; [done|set_solver]).
      destruct (slackAfter_run _ s' p x A ip _ Hny' Hp Hk Hip' Hxs) as [Hz2 _]. rewrite Hz2. cbn.
      rewrite Hz in Hz'. injection Hz' as ->. do 2 f_equal. lia.
    + pose proof (pl_after _ _ _ _ _ _ _ _ Hpl) as HB. apply Forall2_app_inv_l in HB as (ilB0 & l & HB0 & Hb & ->).
      inversion Hb as [|? ib ? ? Hib Hnil]; subst. inversion Hnil; subst.
      assert (Hkb : kids s0 p = (A ++ x :: B) ++ [b]) by by rewrite Hk, <- app_assoc.
      destruct (slackAfter_run _ s p b _ ip ib Hny Hp Hkb Hip Hib) as [Hz' _].
      rewrite map_app in HB'. apply Forall2_app_inv in HB' as [_ Hb']; [|by rewrite length_map, (Forall2_length HB0)].
      inversion Hb' as [|? ? ? ? Hib' _]; subst.
      destruct (slackAfter_run _ s' p b _ ip _ Hny' Hp Hkb Hip' Hib') as [Hz2 _]. rewrite Hz2. cbn.
      rewrite Hz in Hz'. injection Hz' as ->. do 2 f_equal. lia.
Qed.

Lemma allocAfter_run ex s s1 p x ix o alloc ia n :
  nearly ex s -> nearly ex s1 -> anc s0 r p -> childOf s0 p x -> ivl s x = Some ix -> 0 <= o <= width ix ->
  ivl s1 x = Some (intervalDecreaseEnd ix o) -> (forall y, ~ anc s0 x y -> ivl s1 y = ivl s y) -> isAfter p alloc x ->
  anc s0 alloc child -> ivl s alloc = Some ia -> sized s0 alloc n -> n <= width ia + o ->
  exists s', offsetSiblingsAfter fuel alloc x o s1 = (Ret tt, s') /\ nearly None s' /\ forall y, anc s0 x y -> ivl s' y = ivl s1 y.
Proof.
  intros Hny Hny1 Hp Hx Hix Ho Hix1 Hfr (A & B1 & B2 & Hk) Hch Hia Hn Hroom.
  destruct (ny_node _ _ x Hny (anc_snoc _ _ _ _ Hp Hx)) as (ix' & Hix' & Hvx & _). simplify_eq.
  rewrite decEnd_id in Hix1 by done.
  pose proof (tree_NoDup _ _ Ht p Hp) as Hnd. rewrite Hk in Hnd. apply list.NoDup_app in Hnd as (_ & HnA & Hnd).
  apply list.NoDup_cons in Hnd as (HnB & Hnd). apply list.NoDup_app in Hnd as (_ & HnB1 & Hnd).
  apply list.NoDup_cons in Hnd as (HnB2 & _).
  assert (Hpa : childOf s0 p alloc) by (unfold childOf; rewrite Hk; set_solver).
  destruct (placed_split _ _ _ _ _ _ Hny Hp Hk) as (ip & ilA & il & Hpl).
  pose proof (placed_fits _ _ _ _ _ _ _ _ _ _ Hny Hpl Hix) as Hfit.
  pose proof (placed_moved _ _ _ _ _ _ _ _ _ Hpl Hfr) as Hpl1. pose proof (pl_ivl _ _ _ _ _ _ _ _ Hpl1) as Hip1.
  pose proof (pl_after _ _ _ _ _ _ _ _ Hpl1) as Hb.
  apply Forall2_app_inv_l in Hb as (ilB1 & il2 & HB1 & Hb & ->). inversion Hb as [|? ia1 ? ilB2 Hia1 HB2]; subst.
  assert (Hxal : ~ anc s0 x alloc) by (apply (sibling_not_anc p); [done..|]; intros ->; set_solver).
  rewrite Hfr, Hia in Hia1 by done. injection Hia1 as <-.
  destruct Hfit as (Hf1 & Hf2 & Hf3). pose proof Hf3 as Hf. apply fits_app in Hf as (Hfa1 & Hfa2 & Hfa3).
  destruct (offsetForward_run ex B1 s1 p x A (alloc :: B2) ip ilA ilB1 (ia :: ilB2)
    (newReachabilityInterval (Start ix) (End ix - o)) alloc o (alloc :: B2)) as (s2 & Hrun & Hny2 & HB1' & Hfr2).
  { done. }
  { done. }
  { by rewrite (Forall2_length HB1). }
  { done. }
  { lia. }
  { cbn. by replace (End ix - o + 1 + o) with (End ix + 1) by lia. }
  { intros Hin. apply (HnB1 alloc); set_solver. }
  { intros a Ha. right. apply (siblings_disjoint p alloc); [done|done|unfold childOf; rewrite Hk; set_solver| |done].
    intros <-. apply (HnB1 alloc); set_solver. }
  assert (HB1p : forall a, a ∈ B1 -> childOf s0 p a /\ a <> alloc /\ a <> x).
  { intros a Ha. split_and!; [unfold childOf; rewrite Hk; set_solver|intros ->; apply (HnB1 alloc); set_solver|intros ->; set_solver]. }
  assert (Hout2 : forall c, childOf s0 p c -> c ∉ B1 -> ivl s2 c = ivl s1 c).
  { intros c Hc HcA. apply Hfr2. intros a Ha. apply (sibling_not_anc p); [done|by apply HB1p|done|]. by intros ->. }
  assert (Hial : ivl s2 alloc = Some ia).
  { rewrite Hout2, Hfr; [done|done|done|]. intros Hin. by apply HB1p in Hin as (_ & ? & _). }
  assert (Hpl2 : placed s2 p alloc (A ++ x :: B1) B2 ip
    (ilA ++ newReachabilityInterval (Start ix) (End ix - o) :: map (moved (- o)) ilB1) ilB2).
  { assert (Hk' : forall l il, (forall a, a ∈ l -> childOf s0 p a /\ a ∉ B1) -> Forall2 (fun c ic => ivl s1 c = Some ic) l il ->
      Forall2 (fun c ic => ivl s2 c = Some ic) l il).
    { intros l il Hl. apply (siblings_kept s1 s2 p l B1); [done|by intros a Ha; apply HB1p|done|done]. }
    split; [done|by rewrite Hk, <- app_assoc| | |].
    - rewrite Hfr2; [done|]. intros a Ha. apply child_not_anc; [done|by apply HB1p].
    - apply Forall2_app; [|constructor; [|done]].
      + apply Hk'; [|by apply Hpl1]. intros a Ha. unfold childOf. rewrite Hk. split; [set_solver|]. intros Ha2. apply (HnA a); set_solver.
      + rewrite Hout2; [done|done|]. set_solver.
    - apply Hk'; [|done]. intros a Ha. unfold childOf. rewrite Hk. split; [set_solver|]. intros Ha2. apply (HnB1 a); set_solver. }
  pose proof (fits_bounds _ _ _ Hf1) as Hb1. pose proof (fits_bounds _ _ _ Hfa1) as Hb2.
  destruct (ny_node _ _ alloc Hny2 (anc_snoc _ _ _ _ Hp Hpa)) as (ia' & Hia' & Hva & _). simplify_eq.
  assert (Hdec : intervalDecreaseStart ia o = newReachabilityInterval (Start ia - o) (End ia)).
  { unfold intervalDecreaseStart, valid, width in *. by rewrite u64_id by lia. }
  destruct (replace_child ex s2 p alloc (A ++ x :: B1) B2 ip
    (ilA ++ newReachabilityInterval (Start ix) (End ix - o) :: map (moved (- o)) ilB1) ilB2 (intervalDecreaseStart ia o) n)
    as (s3 & Hrun3 & _ & Hny3 & _ & Hfr3); [done|done| |done|rewrite Hdec; unfold width in *; cbn; lia|].
  { rewrite Hdec. split_and!; [|cbn; lia|done]. apply fits_app. cbn. split_and!; [done|unfold width in *; lia|].
    pose proof (fits_moved _ _ (- o) _ Hfa1) as Hm. eapply fits_upper; [|eapply fits_lower; [|exact Hm]]; lia. }
  assert (Hframe : forall y, anc s0 x y -> ivl s3 y = ivl s1 y).
  { intros y Hy. rewrite Hfr3, Hfr2; [done|intros a Ha; apply (siblings_disjoint p x a)|apply (siblings_disjoint p x alloc)]; try done.
    - by apply HB1p.
    - apply not_eq_sym. by apply HB1p.
    - intros <-. apply Hxal. constructor. }
  exists s3. split_and!; [|by apply Hny3|done]. unfold offsetSiblingsAfter. erewrite bind_Ret by by eapply parent_child_run.
  erewrite bind_Ret by done. erewrite bind_Ret by by eapply splitChildren_run. cbn [snd].
  rewrite Hrun. cbn [offsetForward].
  rewrite bool_decide_eq_true_2 by done. by rewrite (bind_Ret _ _ _ _ _ (interval_run s2 alloc ia Hial)).
Qed.

#[local] Instance sideBefore_laws : SideLaws (sideBefore fuel) isBefore.
Proof.
  split; cbn [remainingSlack shrink offsetSiblings sideBefore].
  - intros p alloc x Hp (A1 & A2 & B & Hk) ->. pose proof (tree_NoDup _ _ Ht p Hp) as Hnd. rewrite Hk in Hnd.
    apply list.NoDup_app in Hnd as (_ & _ & Hnd). apply list.NoDup_cons in Hnd as [Hnd _]. set_solver.
  - intros ex s q c iq ic Hny Hq Hc Hiq Hic. destruct (kids_fit _ _ _ _ _ _ Hny Hq Hc Hiq Hic) as (il & Hf2 & Hf & Hin).
    destruct (kids s0 q) as [|a K] eqn:Hk; [unfold childOf in Hc; rewrite Hk in Hc; set_solver|].
    inversion Hf2 as [|? ia ? il' Hia Hf2']; subst.
    destruct (slackBefore_run _ _ _ _ _ _ _ Hny Hq Hk Hiq Hia) as [Hz Hb]. eexists. split_and!; [exact Hz|lia|].
    cbn in Hf. destruct Hf as (? & ? & Hf). unfold width. apply elem_of_cons in Hin as [->|Hin].
    + pose proof (fits_bounds _ _ _ Hf). lia.
    + pose proof (fits_elem _ _ _ _ Hf Hin). lia.
  - intros ex s s' q c z Hny Hny' Hq Hc Hiq' Hsame Hz.
    destruct (kids s0 q) as [|a K] eqn:Hk; [unfold childOf in Hc; rewrite Hk in Hc; set_solver|].
    assert (Ha : childOf s0 q a) by (unfold childOf; rewrite Hk; set_solver).
    destruct (ny_node _ _ q Hny Hq) as (iq & Hiq & _). destruct (ny_node _ _ a Hny (anc_snoc _ _ _ _ Hq Ha)) as (ia & Hia & _).
    destruct (slackBefore_run _ _ _ _ _ _ _ Hny Hq Hk Hiq Hia) as [Hz1 _]. rewrite Hz in Hz1. injection Hz1 as ->.
    apply (slackBefore_run _ _ _ _ _ _ _ Hny' Hq Hk); [by rewrite Hiq'|by rewrite Hsame].
  - intros i o Hv Ho. rewrite incStart_id by done. unfold width in *. cbn. lia.
  - intros ex s q c z i o il Hny Hq Hc Hi Hf2 Hf Hz Ho.
    destruct (kids s0 q) as [|a K] eqn:Hk; [unfold childOf in Hc; rewrite Hk in Hc; set_solver|].
    inversion Hf2 as [|? ia ? il' Hia Hf2']; subst.
    destruct (slackBefore_run _ _ _ _ _ _ _ Hny Hq Hk Hi Hia) as [Hz1 Hb]. rewrite Hz in Hz1. injection Hz1 as ->.
    destruct (ny_node _ _ q Hny Hq) as (i' & Hi' & Hv & _). simplify_eq. rewrite incStart_id by (done || lia).
    cbn in Hf |- *. destruct Hf as (? & ? & ?). split_and!; [lia|lia|done].
  - exact offsetBefore_run.
  - exact allocBefore_run.
Qed.

#[local] Instance sideAfter_laws : SideLaws (sideAfter fuel) isAfter.
Proof.
  split; cbn [remainingSlack shrink offsetSiblings sideAfter].
  - intros p alloc x Hp (A & B1 & B2 & Hk) ->. pose proof (tree_NoDup _ _ Ht p Hp) as Hnd. rewrite Hk in Hnd.
    apply list.NoDup_app in Hnd as (_ & _ & Hnd). apply list.NoDup_cons in Hnd as [Hnd _]. set_solver.
  - intros ex s q c iq ic Hny Hq Hc Hiq Hic. destruct (kids_fit _ _ _ _ _ _ Hny Hq Hc Hiq Hic) as (il & Hf2 & Hf & Hin).
    destruct (kids s0 q) as [|a K _] eqn:Hk using rev_ind; [unfold childOf in Hc; rewrite Hk in Hc; set_solver|].
    apply Forall2_app_inv_l in Hf2 as (il' & l & Hf2' & Ha & ->). inversion Ha as [|? ia ? ? Hia Hnil]; subst. inversion Hnil; subst.
    destruct (slackAfter_run _ _ _ _ _ _ _ Hny Hq Hk Hiq Hia) as [Hz Hb]. eexists. split_and!; [exact Hz|lia|].
    pose proof (fits_elem _ _ _ _ Hf Hin). apply fits_app in Hf as (Hf & ? & ?). unfold width.
    apply elem_of_app in Hin as [Hin|[->|?%elem_of_nil]%elem_of_cons]; [|lia|done]. pose proof (fits_elem _ _ _ _ Hf Hin). lia.
  - intros ex s s' q c z Hny Hny' Hq Hc Hiq' Hsame Hz.
    destruct (kids s0 q) as [|a K _] eqn:Hk using rev_ind; [unfold childOf in Hc; rewrite Hk in Hc; set_solver|].
    assert (Ha : childOf s0 q a) by (unfold childOf; rewrite Hk; set_solver).
    destruct (ny_node _ _ q Hny Hq) as (iq & Hiq & _). destruct (ny_node _ _ a Hny (anc_snoc _ _ _ _ Hq Ha)) as (ia & Hia & _).
    destruct (slackAfter_run _ _ _ _ _ _ _ Hny Hq Hk Hiq Hia) as [Hz1 _]. rewrite Hz in Hz1. injection Hz1 as ->.
    apply (slackAfter_run _ _ _ _ _ _ _ Hny' Hq Hk); [by rewrite Hiq'|by rewrite Hsame].
  - intros i o Hv Ho. rewrite decEnd_id by done. unfold width in *. cbn. lia.
  - intros ex s q c z i o il Hny Hq Hc Hi Hf2 Hf Hz Ho.
    destruct (kids s0 q) as [|a K _] eqn:Hk using rev_ind; [unfold childOf in Hc; rewrite Hk in Hc; set_solver|].
    apply Forall2_app_inv_l in Hf2 as (il' & l & Hf2' & Ha & ->). inversion Ha as [|? ia ? ? Hia Hnil]; subst. inversion Hnil; subst.
    destruct (slackAfter_run _ _ _ _ _ _ _ Hny Hq Hk Hi Hia) as [Hz1 Hb]. rewrite Hz in Hz1. injection Hz1 as ->.
    destruct (ny_node _ _ q Hny Hq) as (i' & Hi' & Hv & _). simplify_eq. rewrite decEnd_id by (done || lia).
    apply fits_app in Hf as (? & ? & Hl). apply fits_app. cbn in Hl |- *. split_and!; [done|done|lia].
  - exact offsetAfter_run.
  - exact allocAfter_run.
Qed.

Lemma fitsBetween_narrow ip ilA ilB i i' :
  fitsBetween ip ilA ilB i -> Start i <= Start i' -> End i' <= End i -> Start i' <= End i' + 1 -> fitsBetween ip ilA ilB i'.
Proof.
  intros (H1 & H2 & H3) Hs He Hn. split_and!; [eapply fits_upper; [|exact H1]; lia|done|eapply fits_lower; [|exact H3]; lia].
Qed.

(** ** Reclaiming space *)

Section Reclaim.
Context (rt : reachabilityManager) (d : side) (onSide : DomainHash -> DomainHash -> DomainHash -> Prop).
Context (Hsl : SideLaws d onSide) (root ca alloc : DomainHash) (required : Z).
Context (Hca : anc s0 r ca) (Halloc : childOf s0 ca alloc) (Hac : anc s0 alloc child) (Hreq : sized s0 alloc required).
Context (Hslack : 0 <= reindexSlack rt).

(** The way from the common ancestor to a node: the nodes above it, the nearest first,
    each with the slack it had before. *)
Fixpoint chain (cur : DomainHash) (pre : list (DomainHash * Z)) : Prop :=
  match pre with
  | [] => childOf s0 ca cur /\ onSide ca alloc cur
  | (q, _) :: pre => childOf s0 q cur /\ chain q pre
  end.

(** The move of a node that makes the chosen child move by [required]. *)
Definition offsetAt (a : Z) (pre : list (DomainHash * Z)) : Z := required + a * len pre - zsum (map snd pre).

Definition slacks (s : reachState) (pre : list (DomainHash * Z)) : Prop :=
  Forall (fun qz => remainingSlack d qz.1 s = (Ret qz.2, s)) pre.

(** The node below [pre] and its siblings have moved. *)
Definition atLevel (a : Z) (s : reachState) (pre : list (DomainHash * Z)) : Prop :=
  match pre with
  | [] => nearly None s
  | (q, z) :: pre' => nearly (Some child) s /\ remainingSlack d q s = (Ret (z + offsetAt a pre), s) /\ slacks s pre'
  end.

Lemma chain_under cur pre : chain cur pre -> anc s0 r cur /\ below s0 ca cur /\ ~ anc s0 cur child.
Proof.
  revert cur. induction pre as [|[q z] pre IH]; intros cur; cbn.
  - intros [Hc Hon]. assert (Hrc : anc s0 r cur) by by eapply anc_snoc. split_and!; [done| |].
    + destruct (under_sized ca Hca) as (n & Hn & _). by eapply child_below.
    + intros Hcc. revert Hac. apply (siblings_disjoint ca cur alloc); [done|done|done| |done]. intros ->. exact (sl_distinct _ _ _ Hca Hon eq_refl).
  - intros [Hc Hch]. destruct (IH q Hch) as (Hq & [Hb1 Hb2] & Hno). assert (Hrc : anc s0 r cur) by by eapply anc_snoc.
    destruct (under_sized ca Hca) as (n & Hn & _). split_and!; [done| |].
    + split; [by eapply anc_snoc|]. intros <-. apply Hb2. eapply sized_antisym; [exact Hn|done|by apply rtc_once].
    + intros Hcc. apply Hno. eapply rtc_l; [exact Hc|exact Hcc].
Qed.

Lemma chain_parent cur pre : chain cur pre -> exists p, anc s0 r p /\ childOf s0 p cur.
Proof.
  destruct pre as [|[p z] pre]; cbn; [intros [? _]; by exists ca|]. intros [Hpq Hcp].
  exists p. split; [|done]. by apply chain_under in Hcp as (? & _).
Qed.

Lemma chain_above cur pre q z : chain cur pre -> (q, z) ∈ pre -> below s0 q cur /\ anc s0 r q /\ exists c, childOf s0 q c.
Proof.
  revert cur. induction pre as [|[q' z'] pre IH]; intros cur; cbn; [set_solver|]. intros [Hc Hch] Hin.
  destruct (chain_under _ _ Hch) as (Hq' & _). destruct (under_sized q' Hq') as (n & Hn & _).
  destruct (child_below _ _ _ _ Hn Hc) as [Hqc Hne].
  apply elem_of_cons in Hin as [[= -> ->]|Hin]; [split_and!; [by split|done|eauto]|].
  destruct (IH q' Hch Hin) as ([Hb1 Hb2] & Hrq & Hex). split_and!; [|done|done].
  destruct (under_sized q Hrq) as (m & Hm & _).
  split; [by eapply anc_snoc|]. intros <-. apply Hb2. eapply sized_antisym; [exact Hm|done|by apply rtc_once].
Qed.

(** The siblings of a node that has become narrower follow. *)
Lemma level_run a s s1 cur pre ix :
  nearly (Some child) s -> nearly (Some child) s1 -> chain cur pre -> ivl s cur = Some ix ->
  0 <= offsetAt a pre <= width ix -> ivl s1 cur = Some (shrink d ix (offsetAt a pre)) ->
  (forall y, ~ anc s0 cur y -> ivl s1 y = ivl s y) -> slacks s pre ->
  exists s', offsetSiblings d alloc cur (offsetAt a pre) s1 = (Ret tt, s') /\ atLevel a s' pre /\
    forall y, anc s0 cur y -> ivl s' y = ivl s1 y.
Proof.
  intros Hny Hny1 Hch Hix Ho Hix1 Hfr Hsk. destruct pre as [|[q z] pre].
  - cbn in Hch. destruct Hch as [Hc Hon]. assert (Hoff : offsetAt a [] = required) by (unfold offsetAt, len; cbn; lia).
    destruct (ny_node _ _ alloc Hny (anc_snoc _ _ _ _ Hca Halloc)) as (ia & Hia & Hva & _).
    apply (sl_alloc (Some child) s s1 ca cur ix _ alloc ia required); try done.
    rewrite Hoff. unfold valid, width in *. lia.
  - pose proof (chain_under _ _ Hch) as (Hrc & _). destruct Hch as [Hc Hch]. apply list.Forall_cons in Hsk as [Hz Hsk].
    destruct (chain_under _ _ Hch) as (Hq & [Hb1 Hb2] & Hno).
    destruct (sl_offset (Some child) s s1 q cur ix (offsetAt a ((q, z) :: pre)) alloc z) as (s' & Hrun & Hny' & Hz' & Hout & Hin'); try done.
    + intros Hqa. apply Hb2. pose proof (tree_par _ _ Ht _ _ Hca Halloc). pose proof (tree_par _ _ Ht _ _ Hq Hqa). congruence.
    + intros b Hb _ Hbc. apply Hno. eapply rtc_l; [exact Hb|exact Hbc].
    + exists s'. split_and!; [done| |done]. cbn. split_and!; [done|done|]. unfold slacks in *. rewrite list.Forall_forall in *.
      intros [q' z'] Hin. cbn. destruct (chain_above _ _ _ _ Hch Hin) as ([Hq1 Hq2] & Hrq' & c & Hc').
      destruct (under_sized q' Hrq') as (m & Hm & _).
      assert (Hnq : ~ anc s0 q q') by (intros Hqq'; apply Hq2; by eapply sized_antisym).
      apply (sl_ext (Some child) s s' q' c z'); [done|done|done|done| | |by apply (Hsk (q', z'))].
      * apply Hout. by intros [? _].
      * intros c' Hc''. apply Hout. intros [Hqc Hne]. by destruct (anc_child_inv s0 r Ht q q' c').
Qed.

Lemma narrow_run ex s p x c ix z o :
  nearly ex s -> anc s0 r p -> childOf s0 p x -> childOf s0 x c -> ivl s x = Some ix ->
  remainingSlack d x s = (Ret z, s) -> 0 <= o <= z -> nearly ex (withIvl x (shrink d ix o) s) /\ o < width ix /\ valid ix.
Proof.
  intros Hny Hp Hx Hc Hix Hz Ho. assert (Hrx : anc s0 r x) by by eapply anc_snoc.
  destruct (ny_node _ _ x Hny Hrx) as (ix' & Hix' & Hvx & _). simplify_eq.
  destruct (ny_node _ _ c Hny (anc_snoc _ _ _ _ Hrx Hc)) as (ic & Hic & Hvc & _).
  destruct (sl_slack ex s x c ix ic) as (z' & Hz' & Hz0 & Hzw); try done. rewrite Hz in Hz'. injection Hz' as <-.
  assert (Hw : 0 <= width ic) by (unfold valid, width in *; lia).
  destruct (sl_shrink ix o Hvx) as (H1 & H2 & H3); [lia|].
  destruct (placed_exists _ _ _ _ Hny Hp Hx) as (A & B & ip & ilA & ilB & Hpl).
  destruct (kids_fit _ _ _ _ _ _ Hny Hrx Hc Hix Hic) as (il & Hf2 & Hf & _).
  split_and!; [|lia|done].
  eapply (narrow_child ex s p x A B ip ilA ilB _ il); [done|done| | |done|].
  - eapply fitsBetween_narrow; [by eapply placed_fits|done|done|]. unfold width in *. lia.
  - unfold width in *. lia.
  - by eapply (sl_kids ex s x c z ix o il).
Qed.

Record sane (pre : list (DomainHash * Z)) : Prop := {
  sane_nonneg : Forall (Z.le 0) (map snd pre);
  sane_sum : zsum (map snd pre) <= required
}.

Lemma offsetAt_nonneg a pre : 0 <= a -> sane pre -> 0 <= offsetAt a pre.
Proof. intros Ha [_ Hs]. unfold offsetAt, len. nia. Qed.

Lemma reclaimDown_run a pre cur s n :
  0 <= a -> chain cur pre -> sane pre -> atLevel a s pre -> (length pre < n)%nat ->
  exists s', reclaimDown d n alloc ca a cur s = (Ret tt, s') /\ nearly None s' /\
    forall y, anc s0 cur y -> ivl s' y = ivl s y.
Proof.
  intros Ha. revert cur s n. induction pre as [|[q z] pre IH]; intros cur s n Hch Hsane Hlev Hn;
    (destruct n as [|n]; [cbn in Hn; lia|]); cbn [reclaimDown].
  - cbn in Hch, Hlev. destruct Hch as [Hc _]. erewrite bind_Ret by (eapply (parent_child_run None); done).
    erewrite bind_Ret by done. rewrite bool_decide_eq_true_2 by done. by exists s.
  - pose proof Hch as [Hc Hch']. pose proof Hlev as (Hny & Hz & Hsk). pose proof Hsane as [Hnn Hsum]. cbn in Hnn, Hsum.
    apply list.Forall_cons in Hnn as [Hz0 Hnn].
    assert (Hsane' : sane pre) by (split; [done|lia]). pose proof (offsetAt_nonneg a pre Ha Hsane') as Hoff.
    destruct (chain_under _ _ Hch') as (Hq & [Hb1 Hb2] & _).
    erewrite bind_Ret by (eapply (parent_child_run (Some child)); done).
    erewrite bind_Ret by done. rewrite bool_decide_eq_false_2 by congruence.
    destruct (ny_node _ _ q Hny Hq) as (iq & Hiq & Hvq & _).
    rewrite (bind_Ret _ _ _ _ _ (interval_run s q iq Hiq)), (bind_Ret _ _ _ _ _ Hz).
    assert (Heq : z + offsetAt a ((q, z) :: pre) - a = offsetAt a pre).
    { unfold offsetAt, len. cbn [length map snd zsum]. rewrite Nat2Z.inj_succ. lia. }
    destruct (chain_parent _ _ Hch') as (p & Hp & Hpq).
    destruct (narrow_run (Some child) s p q cur iq (z + offsetAt a ((q, z) :: pre)) (offsetAt a pre)) as (Hny1 & Hlt & _);
      [done|done|done|done|done|done|lia|].
    rewrite Heq, u64_id by (unfold valid, width in *; lia).
    assert (Hqi : is_Some (ivl s q)) by eauto. rewrite (bind_Ret _ _ _ _ _ (stageInterval_run s q _ Hqi)).
    destruct (level_run a s (withIvl q (shrink d iq (offsetAt a pre)) s) q pre iq) as (s' & Hrun & Hlev' & Hin);
      [done|done|done|done|lia|by apply ivl_withIvl_eq| |done|].
    { intros y Hy. apply ivl_withIvl_ne. intros ->. apply Hy. constructor. }
    destruct (IH q s' n) as (s2 & Hrun2 & Hny2 & Hin2); [done|done|done|cbn in Hn; lia|].
    exists s2. rewrite (bind_Ret _ _ _ _ _ Hrun). split_and!; [done|done|]. intros y Hy.
    assert (Hqy : anc s0 q y) by (eapply rtc_l; [exact Hc|exact Hy]). rewrite Hin2, Hin by done. apply ivl_withIvl_ne.
    intros ->. exact (child_not_anc q cur Hq Hc Hy).
Qed.

(** The reindex root gives up space, and its siblings follow. *)
Lemma shrink_root s pre iroot nroot :
  nearly (Some child) s -> chain root pre -> slacks s pre -> sane pre -> ivl s root = Some iroot ->
  sized s0 root nroot -> nroot + offsetAt (reindexSlack rt) pre <= width iroot ->
  exists s', (stageInterval root (shrink d iroot (offsetAt (reindexSlack rt) pre)) ;;; propagateInterval fuel root ;;;
      offsetSiblings d alloc root (offsetAt (reindexSlack rt) pre)) s = (Ret tt, s') /\ atLevel (reindexSlack rt) s' pre /\
    ivl s' root = Some (shrink d iroot (offsetAt (reindexSlack rt) pre)).
Proof.
  intros Hny Hch Hsk Hsane Hir Hnr Hcap. pose proof (offsetAt_nonneg _ _ Hslack Hsane) as Hoff.
  set (o := offsetAt (reindexSlack rt) pre) in *. destruct (chain_under _ _ Hch) as (Hrr & _).
  destruct (ny_node _ _ root Hny Hrr) as (i' & Hi' & Hv & _). simplify_eq. pose proof (sized_pos _ _ _ Hnr).
  destruct (chain_parent _ _ Hch) as (p & Hp & Hpr). destruct (placed_exists _ _ _ _ Hny Hp Hpr) as (A & B & ip & ilA & ilB & Hpl).
  destruct (sl_shrink iroot o Hv) as (H1 & H2 & H3); [lia|].
  destruct (replace_child (Some child) s p root A B ip ilA ilB (shrink d iroot o) nroot) as (s1 & Hrun1 & Hny1 & _ & Hi1 & Hfr1);
    [done|done| |done|lia|].
  { eapply fitsBetween_narrow; [by eapply placed_fits|done|done|]. unfold width in *. lia. }
  destruct (level_run (reindexSlack rt) s s1 root pre iroot) as (s' & Hrun & Hlev & Hin); [done|done|done|done|lia|done|done|done|].
  exists s'. split_and!; [|done|by rewrite Hin by constructor]. rewrite <- bind_assoc. by rewrite (bind_Ret _ _ _ _ _ Hrun1).
Qed.

(** A node on the way gives up slack, and its siblings follow. *)
Lemma shrink_slack s cur c pre ix z :
  nearly (Some child) s -> chain cur pre -> slacks s pre -> childOf s0 cur c -> ivl s cur = Some ix ->
  remainingSlack d cur s = (Ret z, s) -> 0 <= offsetAt 0 pre <= z ->
  exists s', (stageInterval cur (shrink d ix (offsetAt 0 pre)) ;;; offsetSiblings d alloc cur (offsetAt 0 pre)) s = (Ret tt, s') /\
    atLevel 0 s' pre /\ forall y, below s0 cur y -> ivl s' y = ivl s y.
Proof.
  intros Hny Hch Hsk Hc Hix Hz Ho. destruct (chain_parent _ _ Hch) as (p & Hp & Hpr).
  destruct (narrow_run (Some child) s p cur c ix z (offsetAt 0 pre)) as (Hny1 & Hlt & _); try done.
  assert (Hxi : is_Some (ivl s cur)) by eauto. rewrite (bind_Ret _ _ _ _ _ (stageInterval_run s cur _ Hxi)).
  destruct (level_run 0 s (withIvl cur (shrink d ix (offsetAt 0 pre)) s) cur pre ix) as (s' & Hrun & Hlev & Hin);
    [done|done|done|done|lia|by apply ivl_withIvl_eq| |done|].
  { intros y Hy. apply ivl_withIvl_ne. intros ->. apply Hy. constructor. }
  exists s'. split_and!; [done|done|]. intros y [Hy Hne]. rewrite Hin by done. by apply ivl_withIvl_ne.
Qed.

Lemma reclaimUp_run n cur pre s m iroot nroot :
  anc s0 cur root -> root <> child -> nearly (Some child) s -> chain cur pre -> slacks s pre ->
  Forall (Z.le 0) (map snd pre) -> zsum (map snd pre) < required -> sized s0 cur m -> m <= Z.of_nat n -> len pre + m < 2 ^ 64 ->
  ivl s root = Some iroot -> sized s0 root nroot -> nroot + required + reindexSlack rt * (len pre + m) <= width iroot ->
  exists s' stop a pre', reclaimUp rt fuel d n alloc root required cur (zsum (map snd pre)) (len pre) s = (Ret (stop, a), s') /\
    chain stop pre' /\ sane pre' /\ atLevel a s' pre' /\ 0 <= a /\ len pre' < len pre + m /\ anc s0 stop root /\
    exists i', ivl s' root = Some i' /\ width iroot - (required + reindexSlack rt * (len pre + m)) <= width i'.
Proof.
  intros Hcr Hrc Hny. revert cur pre m Hcr.
  induction n as [|n IH]; intros cur pre m Hcr Hch Hsk Hnn Hsum Hm Hn H64 Hir Hnr Hcap; pose proof (sized_pos _ _ _ Hm) as Hpos; [lia|].
  cbn [reclaimUp]. pose proof (zsum_nonneg _ Hnn) as Hz0. pose proof (sized_pos _ _ _ Hnr). pose proof (sized_pos _ _ _ Hreq).
  destruct (chain_under _ _ Hch) as (Hrcur & _). assert (Hrr : anc s0 r root) by (eapply anc_trans; eassumption).
  destruct (ny_node _ _ root Hny Hrr) as (i' & Hi' & Hvr & Hner). simplify_eq.
  assert (Hw : width iroot < 2 ^ 64) by (unfold valid, width, MaxUint64 in *; lia).
  assert (Hlen : 0 <= len pre) by (unfold len; lia).
  assert (Hsane : sane pre) by (split; [done|lia]).
  destruct (decide (cur = root)) as [->|Hne].
  - rewrite bool_decide_eq_true_2 by done. rewrite (bind_Ret _ _ _ _ _ (interval_run s root _ Hir)).
    assert (Hoff : u64 (required + reindexSlack rt * len pre - zsum (map snd pre)) = offsetAt (reindexSlack rt) pre).
    { unfold offsetAt. rewrite u64_id; [done|]. unfold MaxUint64. nia. }
    rewrite Hoff. destruct (shrink_root s pre iroot nroot) as (s' & Hrun & Hlev & Hir'); try done.
    { unfold offsetAt. nia. }
    exists s', root, (reindexSlack rt), pre. split_and!; [|done|done|done|done|lia|constructor|eexists; split; [exact Hir'|]].
    2: { destruct (sl_shrink iroot (offsetAt (reindexSlack rt) pre) Hvr) as (_ & _ & ->); unfold offsetAt; nia. }
    rewrite <- bind_assoc3. by rewrite (bind_Ret _ _ _ _ _ Hrun).
  - rewrite bool_decide_eq_false_2 by done. apply rtc_inv in Hcr as [?|(c & Hc & Hcroot)]; [done|].
    pose proof (anc_snoc _ _ _ _ Hrcur Hc) as Hrc'.
    destruct (ny_node _ _ cur Hny Hrcur) as (ix & Hix & Hvx & _). destruct (ny_node _ _ c Hny Hrc') as (ic & Hic & Hvc & _).
    destruct (sl_slack (Some child) s cur c ix ic) as (z & Hz & Hzn & Hzw); try done.
    pose proof (ny_contains _ _ _ _ _ _ Hny Hrc' Hcroot Hic Hir) as Hcon. rewrite (bind_Ret _ _ _ _ _ Hz).
    assert (Hwr : required + reindexSlack rt * (len pre + m) < width ix - z) by (unfold width in *; nia).
    assert (Hwx : width ix < 2 ^ 64) by (unfold valid, width, MaxUint64 in *; lia).
    assert (Hsl0 : 0 <= reindexSlack rt * (len pre + m)) by nia.
    rewrite (u64_id (_ + z)) by (unfold MaxUint64; lia).
    destruct (Z.leb_spec required (zsum (map snd pre) + z)).
    + rewrite (bind_Ret _ _ _ _ _ (interval_run s cur _ Hix)).
      rewrite (u64_id (zsum (map snd pre) + z - required)) by (unfold MaxUint64; lia).
      assert (Hoff : z - (zsum (map snd pre) + z - required) = offsetAt 0 pre) by (unfold offsetAt; lia).
      rewrite Hoff, u64_id by (unfold MaxUint64, offsetAt in *; lia).
      destruct (shrink_slack s cur c pre ix z) as (s' & Hrun & Hlev & Hin); try done; [unfold offsetAt; lia|].
      exists s', cur, 0, pre. split_and!; [|done|done|done|lia|lia|by eapply rtc_l|exists iroot; split; [|lia]].
      2: { rewrite Hin; [done|]. split; [by eapply rtc_l|done]. }
      rewrite <- bind_assoc. by rewrite (bind_Ret _ _ _ _ _ Hrun).
    + assert (Hfind : FindNextAncestor root cur s = (Ret c, s)).
      { destruct (kids_fit _ _ _ _ _ _ Hny Hrcur Hc Hix Hic) as (il & Hf2 & Hf & _).
        eapply (FindNextAncestor_run s cur root c il); [done|eauto|by rewrite (over_kids s0) by apply Hny|done| |done|done|].
        - unfold childOf. by rewrite (over_kids s0) by apply Hny.
        - split; [|lia]. assert (Some child <> Some root) by congruence. specialize (Hner ltac:(done)). lia. }
      rewrite (bind_Ret _ _ _ _ _ Hfind). destruct (sized_child _ _ _ _ Hm Hc) as (k & Hk & Hkm).
      assert (Hlen' : len ((cur, z) :: pre) = len pre + 1) by (unfold len; cbn; lia).
      destruct (IH c ((cur, z) :: pre) k) as (s' & stop & a & pre' & Hrun & Hstop & Hsane' & Hlev & Ha & Hl & Hsr & i' & Hi' & Hw').
      * done.
      * by split.
      * by constructor.
      * by constructor.
      * cbn. lia.
      * done.
      * lia.
      * lia.
      * done.
      * done.
      * rewrite Hlen'. nia.
      * exists s', stop, a, pre'. split_and!; [|done|done|done|done|lia|done|exists i'; split; [done|nia]].
        rewrite <- Hrun. rewrite Hlen'. rewrite (u64_id (len pre + 1)).
        -- cbn [map snd zsum]. by rewrite (Z.add_comm z).
        -- unfold MaxUint64. lia.
Qed.

(** Space for the allocation node is reclaimed on the way to the reindex root. *)
Lemma reclaimInterval_run s chosen iroot nroot :
  nearly (Some child) s -> childOf s0 ca chosen -> onSide ca alloc chosen -> anc s0 chosen root -> root <> child ->
  N < 2 ^ 64 -> ivl s root = Some iroot -> sized s0 root nroot -> nroot + required + reindexSlack rt * N <= width iroot ->
  exists s', reclaimInterval rt fuel d alloc ca chosen root required s = (Ret tt, s') /\ nearly None s' /\
    exists i', ivl s' root = Some i' /\ width iroot - (required + reindexSlack rt * N) <= width i'.
Proof.
  intros Hny Hc Hon Hcr Hrc HN64 Hir Hnr Hcap. pose proof (anc_snoc _ _ _ _ Hca Hc) as Hrch.
  destruct (under_sized chosen Hrch) as (m & Hm & HmN). pose proof (sized_pos _ _ _ Hreq). pose proof (sized_pos _ _ _ Hm).
  destruct (reclaimUp_run fuel chosen [] s m iroot nroot) as (s1 & stop & a & pre & Hrun & Hch & Hsane & Hlev & Ha & Hlen & Hsr & i' & Hi' & Hw');
    [first [done|by apply list.Forall_nil|unfold len; cbn; nia]..|].
  unfold reclaimInterval. cbn [map zsum len length Z.of_nat] in Hrun. rewrite (bind_Ret _ _ _ _ _ Hrun). cbn [fst snd].
  destruct (reclaimDown_run a pre stop s1 fuel) as (s2 & Hrun2 & Hny2 & Hin); [done|done|done|done| |].
  { unfold len in Hlen. cbn in Hlen. lia. }
  exists s2. split_and!; [done|done|]. exists i'. rewrite Hin by done. split; [done|]. change (len []) with 0 in Hw'. nia.
Qed.
End Reclaim.

(** ** Reindexing *)

Section Loop.
Context (rt : reachabilityManager) (root : DomainHash) (iroot : ReachabilityInterval).
Context (Hslack : 0 <= reindexSlack rt) (HN64 : N < 2 ^ 64) (Hroot : anc s0 r root) (Hrc : root <> child).
Context (Hlast : forall p A B, anc s0 r p -> kids s0 p = A ++ child :: B -> B = []).
Context (Hcap : (reindexSlack rt + 2) * N <= width iroot).

(** What the reindex root is left with. *)
Definition keepsRoom (s : reachState) : Prop :=
  exists i, ivl s root = Some i /\ width iroot - (reindexSlack rt + 1) * N <= width i.

Lemma on_a_side p a x : childOf s0 p a -> childOf s0 p x -> a <> x -> isBefore p a x \/ isAfter p a x.
Proof.
  unfold childOf. intros Ha Hx Hne. apply list_elem_of_split in Hx as (A & B & Hk). rewrite Hk in Ha.
  apply elem_of_app in Ha as [Ha|[->|Ha]%elem_of_cons]; [left|done|right];
    apply list_elem_of_split in Ha as (C & D & ->).
  - exists C, D, B. by rewrite Hk, <- app_assoc.
  - by exists A, C, D.
Qed.

Lemma next_ancestor ex s a b c :
  nearly ex s -> anc s0 r a -> childOf s0 a c -> anc s0 c b -> ex <> Some b -> FindNextAncestor b a s = (Ret c, s).
Proof.
  intros Hny Ha Hc Hcb Hex. pose proof (anc_snoc _ _ _ _ Ha Hc) as Hrc'. pose proof (anc_trans _ _ _ _ Hrc' Hcb) as Hrb.
  destruct (ny_node _ _ a Hny Ha) as (ia & Hia & _). destruct (ny_node _ _ c Hny Hrc') as (ic & Hic & _).
  destruct (ny_node _ _ b Hny Hrb) as (ib & Hib & _ & Hne). specialize (Hne Hex).
  destruct (kids_fit _ _ _ _ _ _ Hny Ha Hc Hia Hic) as (il & Hf2 & Hf & _).
  pose proof (ny_contains _ _ _ _ _ _ Hny Hrc' Hcb Hic Hib).
  eapply (FindNextAncestor_run s a b c il); [|eauto|by rewrite (over_kids s0) by apply Hny|done| |done|done|lia].
  - intros <-. by eapply child_not_anc.
  - unfold childOf. by rewrite (over_kids s0) by apply Hny.
Qed.

Lemma earlierThanRoot_run s alloc ca n :
  nearly (Some child) s -> anc s0 r ca -> below s0 ca root -> childOf s0 ca alloc -> anc s0 alloc child ->
  ~ anc s0 alloc root -> sized s0 alloc n -> ivl s root = Some iroot ->
  exists s', reindexIntervalsEarlierThanRoot rt fuel alloc root ca n s = (Ret tt, s') /\ nearly None s' /\ keepsRoom s'.
Proof.
  intros Hny Hca [Hcr Hne] Hal Hac Har Hn Hir. unfold reindexIntervalsEarlierThanRoot.
  apply rtc_inv in Hcr as [?|(chosen & Hch & Hchr)]; [done|].
  rewrite (bind_Ret _ _ _ _ _ (next_ancestor _ _ _ _ _ Hny Hca Hch Hchr ltac:(congruence))).
  destruct (ny_node _ _ alloc Hny (anc_snoc _ _ _ _ Hca Hal)) as (ia & Hia & Hva & Hnea).
  destruct (ny_node _ _ chosen Hny (anc_snoc _ _ _ _ Hca Hch)) as (ic & Hic & Hvc & Hnec).
  rewrite (bind_Ret _ _ _ _ _ (interval_run s alloc _ Hia)), (bind_Ret _ _ _ _ _ (interval_run s chosen _ Hic)).
  assert (Hcc : chosen <> child).
  { intros ->. apply rtc_inv in Hchr as [<-|(c & Hc & _)]; [done|]. by apply has_child in Hc. }
  specialize (Hnec ltac:(congruence)).
  destruct (under_sized root Hroot) as (nroot & Hnr & HnrN). destruct (under_sized alloc (anc_snoc _ _ _ _ Hca Hal)) as (n' & Hn' & HnN).
  rewrite (sized_fun _ _ _ _ Hn' Hn) in HnN. clear n' Hn'.
  destruct (on_a_side ca alloc chosen Hal Hch) as [Hb|Ha]; [by intros ->| |].
  - assert (Hlt : Start ia < Start ic).
    { destruct Hb as (A1 & A2 & B & Hk). destruct (placed_split _ _ _ _ _ _ Hny Hca Hk) as (ip & ilA & il & Hpl).
      destruct (placed_fits _ _ _ _ _ _ _ _ _ _ Hny Hpl Hia) as (_ & _ & Hf).
      pose proof (pl_after _ _ _ _ _ _ _ _ Hpl) as HB. apply Forall2_app_inv_l in HB as (il1 & il2 & _ & HB & ->).
      inversion HB as [|? ic' ? ? Hic' _]; subst. simplify_eq. apply fits_app in Hf as (Hf%fits_bounds & _).
      assert (alloc <> child) by (intros ->; apply Hlast in Hk; [by destruct A2|done]). specialize (Hnea ltac:(congruence)). lia. }
    rewrite (proj2 (Z.ltb_lt _ _) Hlt).
    destruct (reclaimInterval_run rt (sideBefore fuel) isBefore sideBefore_laws root ca alloc n) with (s := s) (chosen := chosen) (iroot := iroot)
      (nroot := nroot) as (s' & Hrun & Hny' & i' & Hi' & Hw); try done; [lia|]. exists s'. split_and!; [done|done|]. exists i'. split; [done|lia].
  - assert (Hlt : Start ic <= Start ia).
    { destruct Ha as (A & B1 & B2 & Hk). destruct (placed_split _ _ _ _ _ _ Hny Hca Hk) as (ip & ilA & il & Hpl).
      destruct (placed_fits _ _ _ _ _ _ _ _ _ _ Hny Hpl Hic) as (_ & _ & Hf).
      pose proof (pl_after _ _ _ _ _ _ _ _ Hpl) as HB. apply Forall2_app_inv_l in HB as (il1 & il2 & _ & HB & ->).
      inversion HB as [|? ia' ? ? Hia' _]; subst. simplify_eq. apply fits_app in Hf as (Hf%fits_bounds & _). lia. }
    rewrite (proj2 (Z.ltb_ge _ _) Hlt).
    destruct (reclaimInterval_run rt (sideAfter fuel) isAfter sideAfter_laws root ca alloc n) with (s := s) (chosen := chosen) (iroot := iroot)
      (nroot := nroot) as (s' & Hrun & Hny' & i' & Hi' & Hw); try done; [lia|]. exists s'. split_and!; [done|done|]. exists i'. split; [done|lia].
Qed.

Lemma isStrict_run s p :
  nearly (Some child) s -> anc s0 r p -> p <> child ->
  exists b, isStrictAncestorOf p root s = (Ret b, s) /\ (b = true <-> below s0 p root).
Proof.
  intros Hny Hp Hpc. unfold isStrictAncestorOf. destruct (decide (p = root)) as [->|Hne].
  - rewrite bool_decide_eq_true_2 by done. exists false. split; [done|]. split; [done|]. by intros [_ ?].
  - rewrite bool_decide_eq_false_2 by done. destruct (ny_node _ _ p Hny Hp) as (ip & Hip & _).
    destruct (ny_node _ _ root Hny Hroot) as (ir & Hir & _ & Hner). specialize (Hner ltac:(congruence)).
    unfold IsReachabilityTreeAncestorOf. rewrite (bind_Ret _ _ _ _ _ (interval_run s p _ Hip)), (bind_Ret _ _ _ _ _ (interval_run s root _ Hir)).
    eexists. split; [done|]. pose proof (ny_over _ _ Hny) as Hov.
    rewrite (contains_iff_anc s r (fun x c => ny_inner _ s x c Hny) p root ip ir) by (by apply (over_anc s0 s Hov) || done).
    rewrite (over_anc s0 s Hov). unfold below. naive_solver.
Qed.

Lemma reindexLoop_run n cur s m :
  nearly (Some child) s -> anc s0 r cur -> anc s0 cur child -> ~ below s0 cur root -> sized s0 cur m -> N - m < Z.of_nat n ->
  ivl s root = Some iroot -> exists s', reindexLoop rt fuel n cur root s = (Ret tt, s') /\ nearly None s' /\ keepsRoom s'.
Proof.
  revert cur s m. induction n as [|n IH]; intros cur s m Hny Hcur Hcc Hside Hm Hn Hir.
  { destruct (under_sized cur Hcur) as (m' & Hm' & ?). rewrite (sized_fun _ _ _ _ Hm Hm') in Hn. lia. }
  cbn [reindexLoop]. destruct (ny_node _ _ cur Hny Hcur) as (i & Hi & Hv & _).
  rewrite (bind_Ret _ _ _ _ _ (interval_run s cur _ Hi)), intervalSize_width by done.
  assert (HmN : m <= N) by (destruct (under_sized cur Hcur) as (m' & Hm' & ?); by rewrite (sized_fun _ _ _ _ Hm Hm')).
  destruct (countSubtrees_run fuel s0 r cur m Ht Hcur Hm) with (s := s) as (s1 & Hrun1 & Hov1 & Hd1 & Hca1 & Hc1);
    [lia|lia|apply Hny|apply Hny|].
  rewrite (bind_Ret _ _ _ _ _ Hrun1). erewrite bind_Ret by done. unfold cached. rewrite Hc1. cbn [default from_option id].
  assert (Hi1 : forall y, ivl s1 y = ivl s y) by (intros y; unfold ivl; by rewrite Hd1).
  assert (Hny1 : nearly (Some child) s1).
  { split; [done|done| | |apply Hny].
    - intros x Hx Hex. apply (indexed_ext s0 s); [apply Hny|done|apply Hi1|intros; apply Hi1|by apply Hny].
    - rewrite Hi1. apply Hny. }
  rewrite <- (Hi1 cur) in Hi. rewrite <- (Hi1 root) in Hir.
  destruct (ny_node _ _ root Hny1 Hroot) as (ir & Hir' & Hvr & _). simplify_eq.
  assert (HNroot : N <= width iroot) by (pose proof (sized_pos _ _ _ HN); nia).
  destruct (Z.leb_spec m (width i)) as [Hle|Hgt].
  - destruct (propagate_heals (Some child) s1 cur i m) as (s' & Hrun & _ & Hnone & Hfr); [apply Hny1..| |done|done|done|done|done|].
    + intros y Hy _ Hex. by apply Hny1.
    + exists s'. split_and!; [done|by apply Hnone|]. exists iroot. rewrite Hfr by done. split; [done|pose proof (sized_pos _ _ _ HN); nia].
  - assert (Hcr : ~ anc s0 cur root).
    { intros Hcr. pose proof (ny_contains _ _ _ _ _ _ Hny1 Hcur Hcr Hi Hir). unfold width in *. lia. }
    assert (Hcurroot : cur <> root) by (intros ->; apply Hcr; constructor).
    pose proof Hcur as Hcur'. apply rtc_inv_r in Hcur' as [<-|(p & Hp & Hpc)]; [done|].
    rewrite (bind_Ret _ _ _ _ _ (parent_child_run _ _ _ _ Hny1 Hp Hpc)).
    erewrite bind_Ret by (unfold guard_err; by rewrite bool_decide_eq_false_2).
    destruct (isStrict_run s1 p Hny1 Hp (has_child _ _ Hpc)) as (b & Hrun & Hb). rewrite (bind_Ret _ _ _ _ _ Hrun).
    destruct b.
    + apply (earlierThanRoot_run s1 cur p m); try done. by apply Hb.
    + destruct (sized_anc _ _ _ _ HN Hp) as (k & Hk & HkN & _). destruct (sized_child _ _ _ _ Hk Hpc) as (m' & Hm' & ?).
      rewrite (sized_fun _ _ _ _ Hm' Hm) in *. apply (IH p s1 k); [done|done| |by rewrite <- Hb|done|lia|done].
      eapply rtc_l; [exact Hpc|exact Hcc].
Qed.

Lemma reindexIntervals_run s :
  nearly (Some child) s -> anc s0 r child -> ivl s root = Some iroot -> N < Z.of_nat fuel ->
  exists s', reindexIntervals rt fuel child root s = (Ret tt, s') /\ nearly None s' /\ keepsRoom s'.
Proof.
  intros Hny Hc Hir Hf. destruct (under_sized child Hc) as (m & Hm & _). pose proof (sized_pos _ _ _ Hm).
  apply (reindexLoop_run fuel child s m); [done|done|constructor| |done|lia|done].
  intros [Hcr Hne]. apply rtc_inv in Hcr as [?|(c & Hcc & _)]; [done|]. by apply has_child in Hcc.
Qed.
End Loop.
End Nearly.
