(* ===== verification/ReachAdd.v ===== *)
(** * Adding a child

    [addChild] of
    [src/domain/consensus/processes/reachabilitymanager/tree.go] keeps the tree
    indexed: the new child gets part of the interval its parent has left, and when
    nothing is left the reindexing makes room. *)

From S2P Require Import Prelude Float64 Interval Reachability ReachTree ReachCount ReachPropagate ReachReindex.

(** ** Linking the child *)

(** The data with a child, and with a parent. *)
Definition linked (node child : DomainHash) (s : reachState) : reachState :=
  MkReachState
    (alter (fun d => MkReach (rd_children d) (Some node) (rd_interval d) (rd_futureCoveringSet d)) child
       (alter (fun d => MkReach (rd_children d ++ [child]) (rd_parent d) (rd_interval d) (rd_futureCoveringSet d)) node
          (rs_data s)))
    (rs_reindexRoot s) (subTreeSizesCache s).

Lemma insert_alter {A} (m : gmap DomainHash A) k f a : m !! k = Some a -> <[k := f a]> m = alter f k m.
Proof.
  intros Ha. apply map_eq. intros j. destruct (decide (j = k)) as [->|Hne].
  - by rewrite lookup_insert_eq, lookup_alter_eq, Ha.
  - by rewrite lookup_insert_ne, lookup_alter_ne.
Qed.

Lemma link_run s node child :
  node <> child -> is_Some (ivl s node) -> is_Some (ivl s child) ->
  (stageAddChild node child ;;; stageParent child node) s = (Ret tt, linked node child s).
Proof.
  unfold ivl. intros Hne [i Hi] [j Hj]. destruct (rs_data s !! node) as [d|] eqn:Hd; [|done]. cbn in Hi.
  destruct (rs_data s !! child) as [e|] eqn:He; [|done]. cbn in Hj.
  unfold stageAddChild, stageParent, reachabilityDataForInsertion, bind, get, stageData, modify, linked. cbn.
  rewrite Hd, Hi. cbn. rewrite lookup_insert_ne, He by done. rewrite Hj. cbn. do 2 f_equal.
  rewrite (insert_alter _ node (fun d => MkReach (rd_children d ++ [child]) (rd_parent d) (rd_interval d) (rd_futureCoveringSet d)) d Hd).
  apply (insert_alter _ child (fun d => MkReach (rd_children d) (Some node) (rd_interval d) (rd_futureCoveringSet d)) e).
  by rewrite lookup_alter_ne.
Qed.

(** Lookups in the linked state. *)
Lemma linked_frame s node child x :
  node <> child ->
  rs_data (linked node child s) !! x =
  (fun d => MkReach (if decide (x = node) then rd_children d ++ [child] else rd_children d)
              (if decide (x = child) then Some node else rd_parent d) (rd_interval d) (rd_futureCoveringSet d)) <$> rs_data s !! x.
Proof.
  intros Hne. cbn. destruct (decide (x = child)) as [->|Hc].
  - rewrite lookup_alter_eq, lookup_alter_ne by done. destruct (rs_data s !! child); [|done]. cbn. by rewrite decide_False by congruence.
  - rewrite lookup_alter_ne by done. destruct (decide (x = node)) as [->|Hn].
    + rewrite lookup_alter_eq. by destruct (rs_data s !! node).
    + rewrite lookup_alter_ne by done. by destruct (rs_data s !! x) as [[]|].
Qed.

Section Link.
Context (s : reachState) (r node child : DomainHash).
Context (Ht : tree s r) (Hnode : anc s r node) (Hfresh : ~ anc s r child) (Hkids : kids s child = []) (Hivl : is_Some (ivl s child)).

Lemma fresh_ne x : anc s r x -> x <> child.
Proof. by intros Hx ->. Qed.

Lemma linked_ivl x : ivl (linked node child s) x = ivl s x.
Proof. unfold ivl. rewrite linked_frame by by apply fresh_ne. by destruct (rs_data s !! x). Qed.

Lemma linked_kids x : kids (linked node child s) x = if decide (x = node) then kids s x ++ [child] else kids s x.
Proof.
  unfold kids. rewrite linked_frame by by apply fresh_ne. pose proof (tree_ivl _ _ Ht node Hnode) as [i Hi].
  unfold ivl in Hi. destruct (rs_data s !! x) eqn:E; [done|]. cbn. destruct (decide (x = node)) as [->|]; [|done]. by rewrite E in Hi.
Qed.

Lemma linked_par x : anc s r x -> par (linked node child s) x = par s x.
Proof.
  intros Hx. unfold par. rewrite linked_frame by by apply fresh_ne. destruct (rs_data s !! x); [|done]. cbn.
  by rewrite decide_False by by apply fresh_ne.
Qed.

Lemma linked_par_child : par (linked node child s) child = Some node.
Proof.
  unfold par. rewrite linked_frame by by apply fresh_ne. destruct Hivl as [i Hi]. unfold ivl in Hi.
  destruct (rs_data s !! child); [|done]. cbn. by rewrite decide_True.
Qed.

Lemma linked_anc x : anc (linked node child s) r x <-> anc s r x \/ x = child.
Proof.
  split.
  - revert x. refine (rtc_ind_r (fun x => anc s r x \/ x = child) r _ _); [left; constructor|].
    intros y z _ Hyz [Hy| ->]; unfold childOf in Hyz; rewrite linked_kids in Hyz.
    + destruct (decide (y = node)) as [->|_]; [|left; by eapply anc_snoc].
      apply elem_of_app in Hyz as [Hyz|Hz]; [left; by eapply anc_snoc|right; set_solver].
    + rewrite decide_False, Hkids in Hyz by (symmetry; by apply fresh_ne). set_solver.
  - assert (Hmono : forall u v, anc s u v -> anc (linked node child s) u v).
    { induction 1 as [|u c v Hc _ IH]; [constructor|]. eapply rtc_l; [|exact IH]. unfold childOf. rewrite linked_kids.
      destruct (decide (u = node)); [apply elem_of_app; by left|done]. }
    intros [Hx| ->]; [by apply Hmono|]. eapply rtc_r; [apply Hmono, Hnode|]. unfold childOf.
    rewrite linked_kids, decide_True by done. set_solver.
Qed.

Lemma linked_tree : tree (linked node child s) r.
Proof.
  split.
  - rewrite linked_par by constructor. apply Ht.
  - intros x [Hx| ->]%linked_anc; rewrite linked_ivl; [by apply (tree_ivl _ _ Ht)|done].
  - intros x c Hx%linked_anc Hc. unfold childOf in Hc. rewrite linked_kids in Hc.
    assert (Hold : anc s r x -> c ∈ kids s x -> par (linked node child s) c = Some x).
    { intros Hx' Hc'. rewrite linked_par by by eapply anc_snoc. by apply (tree_par _ _ Ht). }
    destruct (decide (x = node)) as [->|Hn].
    + apply elem_of_app in Hc as [Hc|Hc]; [by apply Hold|]. assert (c = child) as -> by set_solver. apply linked_par_child.
    + destruct Hx as [Hx| ->]; [by apply Hold|]. rewrite Hkids in Hc. set_solver.
  - intros x Hx%linked_anc. rewrite linked_kids. destruct (decide (x = node)) as [->|Hn].
    + apply list.NoDup_app. split_and!; [by apply (tree_NoDup _ _ Ht)| |apply NoDup_singleton].
      intros y Hy Hyc. assert (y = child) as -> by set_solver. apply Hfresh. by eapply anc_snoc.
    + destruct Hx as [Hx| ->]; [by apply (tree_NoDup _ _ Ht)|rewrite Hkids; constructor].
Qed.

(** *** The sizes of subtrees *)

Lemma linked_same x n : sized s x n -> anc s r x -> ~ anc s x node -> sized (linked node child s) x n.
Proof.
  induction 1 as [x ns _ IH] using sized_nested. intros Hx Hno. constructor. rewrite linked_kids.
  rewrite decide_False by (intros ->; apply Hno; constructor).
  assert (Hk : forall c, c ∈ kids s x -> anc s r c /\ ~ anc s c node).
  { intros c Hc. split; [by eapply anc_snoc|]. intros Hcn. apply Hno. eapply rtc_l; [exact Hc|exact Hcn]. }
  induction IH as [|c m cs ms Hc _ IH]; constructor; [apply Hc; apply Hk; set_solver|apply IH; set_solver].
Qed.

Lemma linked_same_kids cs ns :
  Forall2 (sized s) cs ns -> (forall c, c ∈ cs -> anc s r c /\ ~ anc s c node) -> Forall2 (sized (linked node child s)) cs ns.
Proof.
  intros Hf2 Hk. induction Hf2; constructor; [apply linked_same; [done|apply Hk; set_solver..]|apply IHHf2; set_solver].
Qed.

Lemma zsum_app l l' : zsum (l ++ l') = zsum l + zsum l'.
Proof. induction l; cbn; lia. Qed.

Lemma linked_plus N x n :
  sized s r N -> sized s x n -> anc s r x -> anc s x node -> sized (linked node child s) x (n + 1).
Proof.
  intros HN. induction 1 as [x ns Hns IH] using sized_nested. intros Hx Hxn. apply rtc_inv in Hxn as [->|(c & Hc & Hcn)].
  - replace (1 + zsum ns + 1) with (1 + zsum (ns ++ [1])) by (rewrite zsum_app; cbn; lia). constructor.
    rewrite linked_kids, decide_True by done. apply Forall2_app.
    + apply linked_same_kids; [done|]. intros c Hc. split; [by eapply anc_snoc|by eapply (child_not_anc s r N)].
    + constructor; [|constructor]. change 1 with (1 + zsum []). constructor.
      rewrite linked_kids, decide_False, Hkids by (symmetry; by apply fresh_ne). constructor.
  - assert (Hxnode : x <> node) by (intros ->; by eapply (child_not_anc s r N)).
    assert (Hsib : forall a, a ∈ kids s x -> a <> c -> anc s r a /\ ~ anc s a node).
    { intros a Ha Hne. split; [by eapply anc_snoc|]. intros Han.
      destruct (anc_linear s r Ht a c node) as [Hl|Hl]; [by eapply anc_snoc|by eapply anc_snoc|done|done| |].
      - by apply (sibling_not_anc s r N Ht HN x a c).
      - by apply (sibling_not_anc s r N Ht HN x c a). }
    pose proof (tree_NoDup _ _ Ht x Hx) as Hnd. apply list_elem_of_split in Hc as (A & B & Hk). rewrite Hk in *.
    apply Forall2_app_inv_l in Hns as (nsA & ns' & HA & HB & ->). inversion HB as [|? m ? nsB Hm HB']; subst.
    apply Forall2_app_inv in IH as [_ IH]; [|by apply Forall2_length in HA]. inversion IH as [|? ? ? ? IHc _]; subst.
    apply list.NoDup_app in Hnd as (_ & HnA & Hnd). apply list.NoDup_cons in Hnd as [HnB _].
    replace (1 + zsum (nsA ++ m :: nsB) + 1) with (1 + zsum (nsA ++ (m + 1) :: nsB)) by (rewrite !zsum_app; cbn; lia).
    constructor. rewrite linked_kids, decide_False, Hk by done. apply Forall2_app; [|constructor].
    + apply linked_same_kids; [done|]. intros a Ha. apply Hsib; [set_solver|]. intros ->. apply (HnA c); set_solver.
    + apply IHc; [|done]. eapply anc_snoc; [exact Hx|]. unfold childOf. rewrite Hk. set_solver.
    + apply linked_same_kids; [done|]. intros a Ha. apply Hsib; [set_solver|]. by intros ->.
Qed.
End Link.

Lemma over_tree s0 s r : over s0 s -> tree s0 r -> tree s r.
Proof.
  intros Hov [Hr Hi Hp Hn]. split.
  - by rewrite (over_par s0).
  - intros x Hx. apply (over_ivl s0 s Hov), Hi. by apply (over_anc s0 s Hov).
  - intros x c Hx Hc. unfold childOf in Hc. rewrite (over_kids s0) in Hc by done. rewrite (over_par s0) by done.
    apply Hp; [by apply (over_anc s0 s Hov)|done].
  - intros x Hx. rewrite (over_kids s0) by done. apply Hn. by apply (over_anc s0 s Hov).
Qed.

Lemma nearly_indexedTree s0 r child s : tree s0 r -> nearly s0 r child None s -> indexedTree s r.
Proof.
  intros Ht Hny. pose proof (ny_over _ _ _ _ _ Hny) as Hov. split; [by eapply over_tree|apply Hny|].
  intros x Hx. apply Hny; [by apply (over_anc s0 s Hov)|done].
Qed.

(** What is left of the interval of a node after its children. *)
Lemma remainingIntervalAfter_run s r node i il :
  indexedTree s r -> anc s r node -> ivl s node = Some i ->
  Forall2 (fun c ic => ivl s c = Some ic) (kids s node) il -> fits (Start i) (End i - 1) il ->
  exists rem, remainingIntervalAfter node s = (Ret rem, s) /\ valid rem /\
    fits (Start i) (Start rem - 1) il /\ End rem = End i - 1.
Proof.
  intros Hit Hn Hi Hf2 Hf. destruct (node_interval s r Hit node Hn) as (i' & Hi' & Hne & Hv). simplify_eq.
  assert (Hend : u64 (End i - 1) = End i - 1) by (apply u64_id; unfold valid in *; lia).
  unfold remainingIntervalAfter, intervalRangeForChildAllocation.
  rewrite bind_assoc, (bind_Ret _ _ _ _ _ (interval_run s node i Hi)). erewrite bind_Ret by done.
  rewrite (bind_Ret _ _ _ _ _ (children_run s node ltac:(eauto))).
  destruct (kids s node) as [|c K _] eqn:Hk using rev_ind.
  - inversion Hf2; subst. eexists. split; [done|]. cbn. rewrite Hend. unfold valid in *. cbn in *. lia.
  - apply Forall2_app_inv_l in Hf2 as (ilK & l & HK & Hc & ->). inversion Hc as [|? ic ? ? Hic Hnil]; subst. inversion Hnil; subst.
    assert (Hidx : index (E:=reachError) (K ++ [c]) (len (K ++ [c]) - 1) s = (Ret c, s)).
    { apply index_middle. rewrite len_app, len_single. lia. }
    apply fits_app in Hf as (Hf1 & Hf2 & Hf3). cbn in Hf3. pose proof (fits_bounds _ _ _ Hf1) as Hb.
    destruct (K ++ [c]) as [|a l] eqn:E; [by destruct K|]. 
    rewrite (bind_Ret _ _ _ _ _ Hidx), (bind_Ret _ _ _ _ _ (interval_run s c ic Hic)).
    eexists. split; [done|]. cbn. rewrite Hend, u64_id by (unfold valid in *; lia). split_and!; [|apply fits_app|done].
    + unfold valid in *. cbn. lia.
    + split_and!; [done|done|cbn; lia].
Qed.

Section Place.
Context (s : reachState) (r node child : DomainHash) (i i' : ReachabilityInterval) (il : list ReachabilityInterval).
Context (Hit : indexedTree s r) (Hnode : anc s r node) (Hfresh : ~ anc s r child) (Hkids : kids s child = []).
Context (Hivl : is_Some (ivl s child)) (Hi : ivl s node = Some i).
Context (Hf2 : Forall2 (fun c ic => ivl s c = Some ic) (kids s node) il).
Context (Hf : fits (Start i) (Start i' - 1) il) (Hi' : Start i' <= End i' + 1) (Hend : End i' <= End i - 1).

Let s1 := linked node child s.
Let s2 := withIvl child i' s1.

Lemma place_over : over s1 s2.
Proof. apply withIvl_over. unfold s1. by rewrite (linked_ivl s r). Qed.

Lemma place_ivl_child : ivl s2 child = Some i'.
Proof. apply ivl_withIvl_eq. unfold s1. by rewrite (linked_ivl s r). Qed.

Lemma place_ivl x : anc s r x -> ivl s2 x = ivl s x.
Proof. intros Hx. unfold s2. rewrite ivl_withIvl_ne by by eapply fresh_ne. unfold s1. by rewrite (linked_ivl s r). Qed.

Lemma place_kids_ivl x ilx : anc s r x ->
  Forall2 (fun c ic => ivl s c = Some ic) (kids s x) ilx -> Forall2 (fun c ic => ivl s2 c = Some ic) (kids s x) ilx.
Proof.
  intros Hx Hx2. assert (Hk : forall c, c ∈ kids s x -> ivl s2 c = ivl s c) by (intros c Hc; apply place_ivl; by eapply anc_snoc).
  clear -Hx2 Hk. induction Hx2; constructor; [rewrite Hk; [done|set_solver]|apply IHHx2; set_solver].
Qed.

Lemma place_indexed x : anc s r x -> indexed s2 x.
Proof.
  intros Hx. destruct (it_indexed _ _ Hit x Hx) as (ix & ilx & Hix & Hne & Hx2 & Hxf).
  assert (Hks : kids s2 x = if decide (x = node) then kids s x ++ [child] else kids s x).
  { rewrite (over_kids s1) by apply place_over. unfold s1. by rewrite (linked_kids s r) by (done || apply Hit). }
  destruct (decide (x = node)) as [->|Hxn].
  - simplify_eq. exists i, (il ++ [i']). rewrite place_ivl, Hks by done. split_and!; [done|done| |].
    + apply Forall2_app; [by apply place_kids_ivl|]. constructor; [apply place_ivl_child|constructor].
    + apply fits_app. split_and!; [done|done|cbn; lia].
  - exists ix, ilx. rewrite place_ivl, Hks by done. split_and!; [done|done|by apply place_kids_ivl|done].
Qed.

Lemma place_valid : exists ir, ivl s2 r = Some ir /\ valid ir.
Proof. rewrite place_ivl by constructor. apply Hit. Qed.

Lemma place_leaf : kids s1 child = [].
Proof. unfold s1. rewrite (linked_kids s r), decide_False by (apply Hit || done || (symmetry; by eapply fresh_ne)). done. Qed.

Lemma place_last p A B : anc s1 r p -> kids s1 p = A ++ child :: B -> B = [].
Proof.
  clear Hend Hf Hf2 Hi Hi'. intros Hp Hk. apply (linked_anc s r) in Hp; [|apply Hit|done..].
  assert (Hno : anc s r p -> child ∉ kids s p) by (intros Hp' Hc; apply Hfresh; by eapply anc_snoc).
  destruct Hp as [Hp| ->]; [|by rewrite place_leaf in Hk; destruct A].
  unfold s1 in Hk. rewrite (linked_kids s r) in Hk by (apply Hit || done). destruct (decide (p = node)) as [->|Hpn].
  - destruct B as [|b B _] using rev_ind; [done|]. rewrite app_comm_cons, app_assoc in Hk. apply app_inj_tail in Hk as [Hk _].
    destruct (Hno Hp). rewrite Hk. set_solver.
  - destruct (Hno Hp). rewrite Hk. set_solver.
Qed.
End Place.

(** ** Adding *)

(** A node that is in the store but not in the tree yet. *)
Record freshLeaf (s : reachState) (r child : DomainHash) : Prop := {
  fl_out : ~ anc s r child;
  fl_kids : kids s child = [];
  fl_ivl : is_Some (ivl s child)
}.

(** [addChild] keeps the tree indexed: with enough fuel it always succeeds,
    whether the parent has space left, the space is found below the reindex root, or
    it has to be reclaimed along the way to the reindex root; afterwards the
    intervals index the tree with the new child as the last child of its parent.
    The reindex root has to have room for the slack reclaiming leaves behind: the
    code does not check that. *)
Lemma addChild_indexes `{GoArch} (rt : reachabilityManager) (fuel : nat) s r node child root iroot n :
  indexedTree s r -> anc s r node -> freshLeaf s r child -> anc s r root -> ivl s root = Some iroot ->
  sized s r n -> 0 <= reindexSlack rt -> (reindexSlack rt + 2) * (n + 1) <= width iroot -> n + 1 < Z.of_nat fuel ->
  exists s', addChild rt fuel node child root s = (Ret tt, s') /\ indexedTree s' r /\ over (linked node child s) s' /\
    keepsRoom (n + 1) rt root iroot s'.
Proof.
  intros Hit Hnode [Hout Hkids Hivl] Hroot Hir Hn Hsl Hcap Hfuel. pose proof (it_tree _ _ Hit) as Ht.
  destruct (it_indexed _ _ Hit node Hnode) as (i & il & Hi & Hne & Hf2 & Hf).
  destruct (remainingIntervalAfter_run s r node i il Hit Hnode Hi Hf2 Hf) as (rem & Hrem & Hvr & Hfr & Hend).
  unfold addChild. rewrite (bind_Ret _ _ _ _ _ Hrem), <- bind_assoc.
  rewrite (bind_Ret _ _ _ _ _ (link_run s node child (fresh_ne _ _ _ Hout _ Hnode) ltac:(eauto) Hivl)).
  rewrite intervalSize_width by done. pose proof (linked_tree s r node child Ht Hnode Hout Hkids Hivl) as Ht1.
  assert (Hci : is_Some (ivl (linked node child s) child)) by by rewrite (linked_ivl s r).
  assert (Hchild : anc (linked node child s) r child) by (apply (linked_anc s r); auto).
  destruct (Z.eqb_spec (width rem) 0) as [Hw|Hw].
  - rewrite (bind_Ret _ _ _ _ _ (stageInterval_run _ _ rem Hci)). unfold newReindexContext.
    rewrite (bind_Ret _ _ _ _ _ (setCache_run _ _)).
    assert (HN : sized (linked node child s) r (n + 1)) by by apply (linked_plus s r node child Ht Hnode Hout Hkids Hivl n).
    assert (Hvroot : width iroot < 2 ^ 64).
    { destruct (node_interval s r Hit root Hroot) as (j & Hj & _ & Hv). simplify_eq. unfold valid, width, MaxUint64 in *. lia. }
    pose proof (sized_pos _ _ _ Hn).
    assert (Hrc : root <> child) by by eapply fresh_ne.
    destruct (reindexIntervals_run fuel (linked node child s) r child (n + 1) Ht1 (place_leaf s r node child Hit Hnode Hout Hkids)
      HN ltac:(lia) rt root iroot Hsl ltac:(nia) ltac:(apply (linked_anc s r); auto) Hrc
      (place_last s r node child Hit Hnode Hout Hkids Hivl) Hcap (withCache (fun _ => ∅) (withIvl child rem (linked node child s))))
      as (s' & Hrun & Hny & Hroom); [split| done | | lia | ].
    + etransitivity; [by apply (place_over s r)|apply withCache_over].
    + by intros x m.
    + intros x Hx Hex. destruct (proj1 (linked_anc s r node child Ht Hnode Hout Hkids Hivl x) Hx) as [Hx'| ->]; [|done].
      apply (place_indexed s r node child i rem il); try done; unfold valid, width in *; lia.
    + by apply (place_valid s r).
    + by right.
    + change (ivl (withIvl child rem (linked node child s)) root = Some iroot). by rewrite (place_ivl s r).
    + exists s'. split_and!; [exact Hrun|by eapply nearly_indexedTree|apply Hny|done].
  - destruct (intervalSplitInHalf_spec rem Hvr) as (a & Ha & Hsp); [unfold valid, width in *; lia|].
    erewrite bind_Ret by (unfold fromInterval; by rewrite Hsp). cbn [fst].
    rewrite (stageInterval_run _ _ _ Hci). eexists. split_and!; [done| |by apply withIvl_over|].
    2: { exists iroot. rewrite (place_ivl s r) by done. split; [done|]. pose proof (sized_pos _ _ _ Hn). nia. }
    pose proof (withIvl_over _ child (newReachabilityInterval (Start rem) (Start rem + a - 1)) Hci) as Hov.
    split; [by eapply over_tree|by apply (place_valid s r)|].
    intros x Hx%(over_anc _ _ Hov). destruct (proj1 (linked_anc s r node child Ht Hnode Hout Hkids Hivl x) Hx) as [Hx'| ->].
    + apply (place_indexed s r node child i _ il); try done; cbn; unfold width in *; lia.
    + eexists _, []. rewrite ivl_withIvl_eq by done. split_and!; [done|cbn; lia| |cbn; lia].
      rewrite (over_kids _ _ Hov). rewrite (place_leaf s r node child) by done. constructor.
Qed.
