(* ===== verification/ReachDag.v ===== *)
(** * The reachability index of the DAG

    [IsDAGAncestorOf] answers from the tree and from the future covering sets
    ([src/domain/consensus/processes/reachabilitymanager/reachability.go],
    [future_covering_set.go]).  What it answers is the past of a block as its
    GHOSTDAG data say: the selected parent, the merge set, and the past of the
    selected parent.  [AddBlock] keeps it so. *)

From S2P Require Import Prelude Float64 Interval Reachability ReachTree ReachCount ReachPropagate ReachReindex ReachAdd.

Definition fcs (s : reachState) (x : DomainHash) : list DomainHash :=
  match rs_data s !! x with Some d => rd_futureCoveringSet d | None => [] end.

(** ** The order of the nodes *)

(** Two nodes in the subtrees of two children, the first to the left of the second. *)
Definition leftOf (s : reachState) (r f f' : DomainHash) : Prop :=
  exists p A c B c' D, anc s r p /\ kids s p = A ++ c :: B ++ c' :: D /\ anc s c f /\ anc s c' f'.

Section Order.
Context (s : reachState) (r : DomainHash) (Hit : indexedTree s r).

Lemma node_sized x : anc s r x -> exists n, sized s x n.
Proof.
  intros Hx. destruct (node_interval s r Hit x Hx) as (i & Hi & Hne & _).
  assert (Hgen : forall k x i, anc s r x -> ivl s x = Some i -> width i <= Z.of_nat k -> exists n, sized s x n).
  { clear -Hit. induction k as [|k IH]; intros x i Hx Hi Hw;
      destruct (it_indexed _ _ Hit x Hx) as (i' & il & Hi' & Hne & Hf2 & Hf); simplify_eq; [unfold width in Hw; lia|].
    assert (Hk : forall c, c ∈ kids s x -> exists n, sized s c n).
    { intros c Hc. destruct (indexed_child s x c) as (i1 & ic & Hi1 & Hic & ? & ?); [by apply Hit|done|]. simplify_eq.
      apply (IH c ic); [by eapply anc_snoc|done|]. unfold width in *. lia. }
    assert (Hns : exists ns, Forall2 (sized s) (kids s x) ns).
    { clear -Hk. induction (kids s x) as [|c cs IH]; [exists []; constructor|].
      destruct (Hk c) as (n & Hn); [set_solver|]. destruct IH as (ns & Hns); [set_solver|]. exists (n :: ns). by constructor. }
    destruct Hns as (ns & Hns). exists (1 + zsum ns). by constructor. }
  apply (Hgen (Z.to_nat (width i)) x i); [done|done|]. unfold width in *. lia.
Qed.

(** Any two nodes are related in the tree, or one is to the left of the other. *)
Lemma tree_order x y : anc s r x -> anc s r y -> anc s x y \/ anc s y x \/ leftOf s r x y \/ leftOf s r y x.
Proof.
  intros Hx Hy. assert (Hgen : forall t n, sized s t n -> anc s r t -> anc s t x -> anc s t y ->
    anc s x y \/ anc s y x \/ leftOf s r x y \/ leftOf s r y x).
  { induction 1 as [t ns _ IH] using sized_nested. intros Ht Htx Hty.
    apply rtc_inv in Htx as [->|(c & Hc & Hcx)]; [by left|]. apply rtc_inv in Hty as [->|(c' & Hc' & Hcy)].
    { right; left. eapply rtc_l; [exact Hc|exact Hcx]. }
    destruct (decide (c = c')) as [<-|Hne].
    - pose proof Hc as Hk. apply list_elem_of_lookup in Hk as [k Hk].
      destruct (Forall2_lookup_l _ _ _ _ _ IH Hk) as (m & _ & IHc). apply IHc; [by eapply anc_snoc|done|done].
    - destruct (on_a_side s t c c' Hc Hc' Hne) as [(A & B & D & Hk)|(A & B & D & Hk)]; right; right; [left|right].
      + by exists t, A, c, B, c', D.
      + by exists t, A, c', B, c, D. }
  destruct (node_sized r) as (n & Hn); [constructor|]. apply (Hgen r n Hn); [constructor|done|done].
Qed.

(** Intervals are in the order of the nodes. *)
Lemma leftOf_intervals x y ix iy : leftOf s r x y -> ivl s x = Some ix -> ivl s y = Some iy -> End ix < Start iy.
Proof.
  intros (p & A & c & B & c' & D & Hp & Hk & Hcx & Hcy) Hix Hiy.
  assert (Hc : childOf s p c) by (unfold childOf; rewrite Hk; set_solver).
  assert (Hc' : childOf s p c') by (unfold childOf; rewrite Hk; set_solver).
  destruct (it_indexed _ _ Hit p Hp) as (i & il & _ & _ & Hf2 & Hf). rewrite Hk in Hf2.
  apply Forall2_app_inv_l in Hf2 as (ilA & l & _ & Hf2 & ->). inversion Hf2 as [|? ic ? l' Hic Hf2']; subst.
  apply Forall2_app_inv_l in Hf2' as (ilB & l2 & _ & Hf2' & ->). inversion Hf2' as [|? ic' ? l2' Hic' _]; subst.
  apply fits_app in Hf as (_ & _ & Hf). apply fits_app in Hf as (Hf%fits_bounds & _).
  pose proof (anc_contains s r (it_inner s r Hit) c x ic ix (anc_snoc _ _ _ _ Hp Hc) Hcx Hic Hix) as H1.
  pose proof (anc_contains s r (it_inner s r Hit) c' y ic' iy (anc_snoc _ _ _ _ Hp Hc') Hcy Hic' Hiy) as H2.
  unfold intervalContains in *. zbool. lia.
Qed.
End Order.

(** ** Ordered lists of nodes *)

Fixpoint ordered {A} (R : A -> A -> Prop) (l : list A) : Prop :=
  match l with
  | [] => True
  | x :: l => (forall y, y ∈ l -> R x y) /\ ordered R l
  end.

Lemma ordered_app {A} (R : A -> A -> Prop) l l' :
  ordered R (l ++ l') <-> ordered R l /\ ordered R l' /\ forall x y, x ∈ l -> y ∈ l' -> R x y.
Proof. induction l as [|x l IH]; cbn; [set_solver|]. rewrite IH. set_solver. Qed.

Lemma ordered_mono {A} (R R' : A -> A -> Prop) l : (forall x y, R x y -> R' x y) -> ordered R l -> ordered R' l.
Proof. intros HR. induction l as [|x l IH]; cbn; [done|]. intros [Hx Hl]. split; [auto|auto]. Qed.

Section Lists.
Context (s : reachState) (r : DomainHash) (Hit : indexedTree s r).

Definition covers (l : list DomainHash) : Prop := ordered (leftOf s r) l /\ forall f, f ∈ l -> anc s r f.

Lemma covers_intervals l : covers l ->
  exists il, Forall2 (fun f i => ivl s f = Some i) l il /\ starts s l il.
Proof.
  intros [Hord Hun]. assert (Hex : exists il, Forall2 (fun f i => ivl s f = Some i) l il).
  { clear Hord. induction l as [|f l IH]; [exists []; constructor|].
    destruct (node_interval s r Hit f) as (i & Hi & _); [apply Hun; set_solver|].
    destruct IH as (il & Hil); [set_solver|]. exists (i :: il). by constructor. }
  destruct Hex as (il & Hf2). exists il. split; [done|split; [done|]]. intros k k' i i' Hlt Hi Hi'.
  destruct (Forall2_lookup_r _ _ _ _ _ Hf2 Hi) as (f & Hf & Hfi). destruct (Forall2_lookup_r _ _ _ _ _ Hf2 Hi') as (f' & Hf' & Hfi').
  destruct (node_interval s r Hit f) as (j & Hj & Hne & _); [apply Hun; by eapply list_elem_of_lookup_2|]. simplify_eq.
  assert (Hleft : leftOf s r f f').
  { rewrite <- (take_drop_middle l k f Hf) in Hord, Hf'. apply ordered_app in Hord as (_ & [Hord _] & _).
    apply Hord. apply lookup_lt_Some in Hf as Hlen. rewrite lookup_app_r in Hf' by (rewrite length_take; lia).
    rewrite length_take, Nat.min_l in Hf' by lia. destruct (k' - k)%nat as [|m] eqn:Em; [lia|]. cbn in Hf'.
    by eapply list_elem_of_lookup_2. }
  pose proof (leftOf_intervals s r Hit _ _ _ _ Hleft Hfi Hfi'). lia.
Qed.

(** The search splits an ordered list around the candidate. *)
Lemma find_split l e : covers l ->
  (findAncestorIndexOfNodeByIntervalEnd l e s = (Ret None, s) /\ forall f i, f ∈ l -> ivl s f = Some i -> e < Start i) \/
  (exists l1 c l2 ic, l = l1 ++ c :: l2 /\ ivl s c = Some ic /\ Start ic <= e /\
     findAncestorIndexOfNodeByIntervalEnd l e s = (Ret (Some (len l1)), s) /\
     forall f i, f ∈ l2 -> ivl s f = Some i -> e < Start i).
Proof.
  intros Hcov. destruct (covers_intervals l Hcov) as (il & Hf2 & Hst).
  destruct (findByEnd_spec s l il e Hst) as [[Hrun Hall]|(k & ic & Hrun & Hk & Hs & Hnext)]; [left|right].
  - split; [done|]. intros f i [j Hj]%list_elem_of_lookup Hi. destruct (Forall2_lookup_l _ _ _ _ _ Hf2 Hj) as (i' & Hi' & Hfi).
    simplify_eq. apply Hall. by eapply list_elem_of_lookup_2.
  - destruct (Forall2_lookup_r _ _ _ _ _ Hf2 Hk) as (c & Hc & Hci). apply lookup_lt_Some in Hc as Hlt.
    exists (take k l), c, (drop (S k) l), ic. split_and!; [by rewrite take_drop_middle|done|done| |].
    + rewrite Hrun. unfold len. rewrite length_take, Nat.min_l by lia. done.
    + intros f i [j Hj]%list_elem_of_lookup Hi. rewrite lookup_drop in Hj.
      destruct (Forall2_lookup_l _ _ _ _ _ Hf2 Hj) as (i' & Hi' & Hfi). simplify_eq. apply (Hnext (S k + j)%nat); [lia|done].
Qed.

Lemma contains_spec f b i j : anc s r f -> anc s r b -> ivl s f = Some i -> ivl s b = Some j ->
  intervalContains i j = true <-> anc s f b.
Proof.
  intros Hf Hb Hi Hj. destruct (node_interval s r Hit b Hb) as (j' & Hj' & Hne & _). simplify_eq.
  by apply (contains_iff_anc s r (it_inner s r Hit)).
Qed.

(** The query over a future covering set. *)
Lemma hasAncestorOf_run a b : anc s r a -> anc s r b -> covers (fcs s a) ->
  exists res, futureCoveringSetHasAncestorOf a b s = (Ret res, s) /\
    (res = true <-> exists f, f ∈ fcs s a /\ anc s f b).
Proof.
  intros Ha Hb Hcov. destruct (node_interval s r Hit b Hb) as (ib & Hib & Hneb & _).
  assert (Hfcs : futureCoveringSet a s = (Ret (fcs s a), s)).
  { destruct (node_interval s r Hit a Ha) as (ia & Hia & _). unfold ivl, fcs, futureCoveringSet, reachabilityDataOf, bind, get in *.
    by destruct (rs_data s !! a). }
  unfold futureCoveringSetHasAncestorOf. rewrite (bind_Ret _ _ _ _ _ Hfcs). unfold findAncestorIndexOfNode.
  rewrite bind_assoc, (bind_Ret _ _ _ _ _ (interval_run s b ib Hib)).
  destruct (find_split (fcs s a) (End ib) Hcov) as [[Hrun Hall]|(l1 & c & l2 & ic & Hl & Hic & Hs & Hrun & Hall)].
  - rewrite (bind_Ret _ _ _ _ _ Hrun). exists false. split; [done|]. split; [done|]. intros (f & Hf & Hfb).
    destruct (node_interval s r Hit f) as (i & Hi & _); [by apply Hcov|]. pose proof (Hall f i Hf Hi).
    apply (contains_spec f b i ib) in Hfb; [|by apply Hcov|done|done|done]. unfold intervalContains in Hfb. zbool. lia.
  - rewrite (bind_Ret _ _ _ _ _ Hrun), Hl, (bind_Ret _ _ _ _ _ (index_middle l1 l2 c _ s eq_refl)).
    assert (Hc : anc s r c) by (apply Hcov; rewrite Hl; set_solver).
    unfold IsReachabilityTreeAncestorOf. rewrite (bind_Ret _ _ _ _ _ (interval_run s c ic Hic)), (bind_Ret _ _ _ _ _ (interval_run s b ib Hib)).
    eexists. split; [done|]. rewrite (contains_spec c b) by done. split; [intros; exists c; set_solver|].
    intros (f & Hf & Hfb). destruct (node_interval s r Hit f) as (i & Hi & Hnef & _); [apply Hcov; by rewrite Hl|].
    assert (Hfr : anc s r f) by (apply Hcov; by rewrite Hl).
    pose proof (proj2 (contains_spec f b i ib Hfr Hb Hi Hib) Hfb) as Hcon. unfold intervalContains in Hcon. zbool.
    apply elem_of_app in Hf as [Hf|[->|Hf]%elem_of_cons]; [|done|pose proof (Hall f i Hf Hi); lia].
    destruct Hcov as [Hord _]. rewrite Hl in Hord. apply ordered_app in Hord as (_ & _ & Hord).
    pose proof (leftOf_intervals s r Hit f c i ic (Hord f c Hf ltac:(set_solver)) Hi Hic). lia.
Qed.
End Lists.

(** ** Changes of future covering sets *)

Definition sameNode (d : reachabilityData) : list DomainHash * option DomainHash * option ReachabilityInterval :=
  (rd_children d, rd_parent d, rd_interval d).

(** The same tree with the same intervals. *)
Definition sameTree (s s' : reachState) : Prop :=
  rs_reindexRoot s' = rs_reindexRoot s /\ forall x, sameNode <$> rs_data s' !! x = sameNode <$> rs_data s !! x.

#[export] Instance sameTree_equivalence : Equivalence sameTree.
Proof.
  split.
  - by split.
  - intros s s' [H1 H2]. split; [done|]. intros x. by rewrite H2.
  - intros s s' s'' [H1 H2] [H3 H4]. split; [congruence|]. intros x. by rewrite H4, H2.
Qed.

Lemma anc_kids s s' x y : (forall z, kids s' z = kids s z) -> anc s' x y <-> anc s x y.
Proof.
  intros Hk. split; (induction 1 as [|x c y Hc _ IH]; [constructor|]; eapply rtc_l; [|exact IH]); unfold childOf in *; congruence.
Qed.

Lemma leftOf_kids s s' r x y : (forall z, kids s' z = kids s z) -> leftOf s' r x y <-> leftOf s r x y.
Proof.
  intros Hk. unfold leftOf. by setoid_rewrite (anc_kids s s' _ _ Hk); setoid_rewrite Hk.
Qed.

Lemma covers_kids s s' r l : (forall z, kids s' z = kids s z) -> covers s r l -> covers s' r l.
Proof.
  intros Hk [Ho Hu]. split.
  - eapply ordered_mono; [|exact Ho]. intros x y. by apply leftOf_kids.
  - intros f Hf. by apply (anc_kids s s'), Hu.
Qed.

Section SameTree.
Context (s s' : reachState) (Hsame : sameTree s s').

Lemma same_kids x : kids s' x = kids s x.
Proof. pose proof (proj2 Hsame x) as H. unfold kids. destruct (rs_data s' !! x), (rs_data s !! x); cbn in H; by simplify_eq. Qed.

Lemma same_par x : par s' x = par s x.
Proof. pose proof (proj2 Hsame x) as H. unfold par. destruct (rs_data s' !! x), (rs_data s !! x); cbn in H; by simplify_eq. Qed.

Lemma same_ivl x : ivl s' x = ivl s x.
Proof. pose proof (proj2 Hsame x) as H. unfold ivl. destruct (rs_data s' !! x), (rs_data s !! x); cbn in H; by simplify_eq. Qed.

Lemma same_anc x y : anc s' x y <-> anc s x y.
Proof. apply anc_kids, same_kids. Qed.

Lemma same_indexedTree r : indexedTree s r -> indexedTree s' r.
Proof.
  intros [[H1 H2 H3 H4] (i & Hi & Hv) H6]. split; [split|..].
  - by rewrite same_par.
  - intros x Hx%same_anc. rewrite same_ivl. auto.
  - intros x c Hx%same_anc. unfold childOf. rewrite same_kids, same_par. auto.
  - intros x Hx%same_anc. rewrite same_kids. auto.
  - exists i. by rewrite same_ivl.
  - intros x Hx%same_anc. destruct (H6 x Hx) as (j & il & Hj & Hne & Hf2 & Hf). exists j, il. rewrite same_ivl, same_kids.
    split_and!; [done|done| |done]. eapply list.Forall2_impl; [exact Hf2|]. intros c ic. cbn. by rewrite same_ivl.
Qed.
End SameTree.

Lemma stageFcs_run s x d l : rs_data s !! x = Some d ->
  exists s', stageData x (withFutureCoveringSet d l) s = (Ret tt, s') /\ sameTree s s' /\ fcs s' x = l /\
    forall y, y <> x -> fcs s' y = fcs s y.
Proof.
  intros Hd. eexists. split; [done|]. split_and!.
  - split; [done|]. intros y. cbn. destruct (decide (y = x)) as [->|Hne]; [by rewrite lookup_insert_eq, Hd|by rewrite lookup_insert_ne].
  - unfold fcs. cbn. by rewrite lookup_insert_eq.
  - intros y Hne. unfold fcs. cbn. by rewrite lookup_insert_ne.
Qed.

Section Insert.
Context (s : reachState) (r : DomainHash) (Hit : indexedTree s r).

(** A leaf that is outside of the subtrees of a list is to the left or to the right of
    every node of it. *)
Lemma leaf_order b f : anc s r b -> kids s b = [] -> anc s r f -> ~ anc s f b -> leftOf s r f b \/ leftOf s r b f.
Proof.
  intros Hb Hk Hf Hno. destruct (tree_order s r Hit f b Hf Hb) as [?|[Hbf|?]]; [done| |done].
  apply rtc_inv in Hbf as [->|(c & Hc & _)]; [by destruct Hno; constructor|]. unfold childOf in Hc. rewrite Hk in Hc. set_solver.
Qed.

(** A leaf is inserted where the order demands it, unless a node of the set is an
    ancestor of it already. *)
Lemma insertToFcs_run a b : anc s r a -> anc s r b -> kids s b = [] -> covers s r (fcs s a) ->
  exists s', insertToFutureCoveringSet a b s = (Ret tt, s') /\ sameTree s s' /\ covers s r (fcs s' a) /\
    (forall f, f ∈ fcs s' a -> f ∈ fcs s a \/ f = b) /\ (forall f, f ∈ fcs s a -> f ∈ fcs s' a) /\
    (exists f, f ∈ fcs s' a /\ anc s f b) /\ forall y, y <> a -> fcs s' y = fcs s y.
Proof.
  intros Ha Hb Hkb Hcov. destruct (node_interval s r Hit b Hb) as (ib & Hib & Hneb & _).
  destruct (node_interval s r Hit a Ha) as (ia & Hia & _). unfold insertToFutureCoveringSet. erewrite bind_Ret by done.
  destruct (rs_data s !! a) as [d|] eqn:Hd; [|unfold ivl in Hia; by rewrite Hd in Hia]. cbn [default from_option id].
  assert (Hfcs : rd_futureCoveringSet d = fcs s a) by (unfold fcs; by rewrite Hd). rewrite Hfcs.
  rewrite (bind_Ret _ _ _ _ _ (interval_run s b ib Hib)).
  assert (Hright : forall f i, f ∈ fcs s a -> ivl s f = Some i -> End ib < Start i -> leftOf s r b f).
  { intros f i Hf Hi Hlt. assert (Hfr : anc s r f) by by apply Hcov.
    destruct (leaf_order b f Hb Hkb Hfr) as [Hl|?]; [|..|done].
    - intros Hfb. apply (proj2 (contains_spec s r Hit f b i ib Hfr Hb Hi Hib)) in Hfb. unfold intervalContains in Hfb. zbool. lia.
    - destruct (node_interval s r Hit f Hfr) as (j & Hj & Hnef & _). simplify_eq.
      pose proof (leftOf_intervals s r Hit f b _ _ Hl Hi Hib). lia. }
  destruct (find_split s r Hit (fcs s a) (End ib) Hcov) as [[Hrun Hall]|(l1 & c & l2 & ic & Hl & Hic & Hs & Hrun & Hall)];
    rewrite (bind_Ret _ _ _ _ _ Hrun).
  - destruct (stageFcs_run s a d (b :: fcs s a) Hd) as (s' & Hst & Hsame & Hf' & Hother). rewrite Hst. exists s'. rewrite Hf'.
    split_and!; [done|done| |set_solver|set_solver|exists b; split; [set_solver|constructor]|done].
    destruct Hcov as [Ho Hu]. split; [|set_solver]. cbn. split; [|done]. intros f Hf.
    destruct (node_interval s r Hit f (Hu f Hf)) as (i & Hi & _). eauto.
  - rewrite Hl, (bind_Ret _ _ _ _ _ (index_middle l1 l2 c _ s eq_refl)), (bind_Ret _ _ _ _ _ (interval_run s c ic Hic)).
    assert (Hcr : anc s r c) by (apply Hcov; rewrite Hl; set_solver).
    destruct (intervalContains ic ib) eqn:Hcb.
    { apply (contains_spec s r Hit c b) in Hcb; [|done..]. exists s. rewrite Hl.
      split_and!; [done|reflexivity|by rewrite <- Hl|set_solver|set_solver|exists c; split; [set_solver|done]|done]. }
    assert (Hnb : ~ anc s c b) by (intros Hc; apply (contains_spec s r Hit c b ic ib) in Hc; [congruence|done..]).
    destruct (intervalContains ib ic) eqn:Hbc.
    { apply (contains_spec s r Hit b c) in Hbc; [|done..]. apply rtc_inv in Hbc as [->|(e & He & _)]; [by destruct Hnb; constructor|].
      unfold childOf in He. rewrite Hkb in He. set_solver. }
    assert (Hins : Z.to_nat (len l1 + 1) = length (l1 ++ [c])) by (unfold len; rewrite length_app; cbn; lia).
    assert (Happ : l1 ++ c :: l2 = (l1 ++ [c]) ++ l2) by by rewrite <- app_assoc.
    rewrite Hins, Happ, take_app_length, drop_app_length.
    destruct (stageFcs_run s a d ((l1 ++ [c]) ++ b :: l2) Hd) as (s' & Hst & Hsame & Hf' & Hother). rewrite Hst. exists s'. rewrite Hf'.
    split_and!; [done|done| |set_solver|set_solver|exists b; split; [set_solver|constructor]|done].
    destruct Hcov as [Ho Hu]. rewrite Hl in Ho, Hu, Hright. split; [|set_solver]. rewrite Happ in Ho.
    apply ordered_app in Ho as (Ho1 & Ho2 & Ho3). apply ordered_app. split_and!; [done| |].
    + cbn. split; [|done]. intros f Hf. destruct (node_interval s r Hit f) as (i & Hi & _); [apply Hu; set_solver|].
      apply (Hright f i); [set_solver|done|by apply (Hall f)].
    + intros f y Hf [->|Hy]%elem_of_cons; [|by apply Ho3]. assert (Hfr : anc s r f) by (apply Hu; set_solver).
      destruct (node_interval s r Hit f Hfr) as (i & Hi & Hnef & _).
      assert (Hfe : Start i <= End ib /\ (f = c \/ End i < Start ic)).
      { apply elem_of_app in Hf as [Hf|Hf]; [|assert (f = c) as -> by set_solver; simplify_eq; auto].
        apply ordered_app in Ho1 as (_ & _ & Ho1). pose proof (leftOf_intervals s r Hit f c i ic (Ho1 f c Hf ltac:(set_solver)) Hi Hic). lia. }
      destruct (leaf_order b f Hb Hkb Hfr) as [?|Hl']; [|done|].
      * intros Hfb. destruct Hfe as [_ [->|Hfe]]; [done|].
        apply (proj2 (contains_spec s r Hit f b i ib Hfr Hb Hi Hib)) in Hfb. unfold intervalContains in Hfb. zbool. lia.
      * pose proof (leftOf_intervals s r Hit b f _ _ Hl' Hib Hi). lia.
Qed.
End Insert.

(** What inserting a leaf into the sets of several nodes does. *)
Record inserted (s : reachState) (r b : DomainHash) (ms : list DomainHash) (s' : reachState) : Prop := {
  in_same : sameTree s s';
  in_covers : forall a, anc s r a -> covers s r (fcs s' a);
  in_new : forall a f, f ∈ fcs s' a -> f ∈ fcs s a \/ (f = b /\ a ∈ ms);
  in_old : forall a f, f ∈ fcs s a -> f ∈ fcs s' a;
  in_hit : forall a, a ∈ ms -> exists f, f ∈ fcs s' a /\ anc s f b
}.

Lemma insertToAll_run r b ms s :
  indexedTree s r -> anc s r b -> kids s b = [] -> (forall a, anc s r a -> covers s r (fcs s a)) ->
  (forall a, a ∈ ms -> anc s r a) ->
  exists s', insertToAll ms b s = (Ret tt, s') /\ inserted s r b ms s'.
Proof.
  revert s. induction ms as [|m ms IH]; intros s Hit Hb Hkb Hcov Hms.
  { exists s. split; [done|]. split; [reflexivity|done|by left|done|set_solver]. }
  assert (Hm : anc s r m) by (apply Hms; set_solver).
  destruct (insertToFcs_run s r Hit m b Hm Hb Hkb (Hcov m Hm)) as (s1 & Hrun & Hsame & Hc1 & Hn1 & Ho1 & (f1 & Hf1 & Hfb1) & Hother).
  cbn [insertToAll]. rewrite (bind_Ret _ _ _ _ _ Hrun).
  assert (Hk : forall z, kids s1 z = kids s z) by by apply same_kids.
  destruct (IH s1) as (s' & Hrun' & [Hsame' Hcov' Hnew Hold Hhit]).
  - by eapply same_indexedTree.
  - by apply (same_anc s s1).
  - by rewrite Hk.
  - intros a Ha%(same_anc s s1 Hsame). apply (covers_kids s s1 r _ Hk). destruct (decide (a = m)) as [->|Hne]; [done|].
    rewrite Hother by done. by apply Hcov.
  - intros a Ha. apply (same_anc s s1 Hsame), Hms. set_solver.
  - exists s'. split; [exact Hrun'|]. split.
    + etransitivity; [exact Hsame|exact Hsame'].
    + intros a Ha. apply (covers_kids s1 s); [intros z; by rewrite Hk|]. apply Hcov'. by apply (same_anc s s1).
    + intros a f Hf. destruct (Hnew a f Hf) as [Hf'|[-> Ha]]; [|right; set_solver].
      destruct (decide (a = m)) as [->|Hne]; [destruct (Hn1 f Hf') as [?| ->]; [by left|right; set_solver]|].
      left. by rewrite Hother in Hf'.
    + intros a f Hf. apply Hold. destruct (decide (a = m)) as [->|Hne]; [by apply Ho1|by rewrite Hother].
    + intros a Ha. destruct (decide (a ∈ ms)) as [Hin|Hni].
      * destruct (Hhit a Hin) as (f & Hf & Hfb). exists f. split; [done|]. by apply (same_anc s s1).
      * assert (a = m) as -> by set_solver. exists f1. split; [by apply Hold|done].
Qed.

(** ** The past of a block *)

Section Past.
Context (g : DomainHash -> option BlockGHOSTDAGData).

Inductive inPast : DomainHash -> DomainHash -> Prop :=
| past_selected a b d : g b = Some d -> selectedParent d = Some a -> inPast a b
| past_merged a b d : g b = Some d -> a ∈ mergeSetBlues d ++ mergeSetReds d -> inPast a b
| past_chain a b d p : g b = Some d -> selectedParent d = Some p -> inPast a p -> inPast a b.

(** [b] is reached from [a]: in the tree, or through the future covering set. *)
Definition cover (s : reachState) (a b : DomainHash) : Prop := anc s a b \/ exists f, f ∈ fcs s a /\ anc s f b.

(** The index of the DAG: the tree is indexed, the future covering sets are ordered, and
    together they give the past of every block. *)
Record dagIndexed (s : reachState) (r : DomainHash) : Prop := {
  di_tree : indexedTree s r;
  di_covers : forall a, anc s r a -> covers s r (fcs s a);
  di_past : forall a b, anc s r a -> anc s r b -> cover s a b <-> a = b \/ inPast a b;
  di_closed : forall a b, anc s r b -> inPast a b -> anc s r a
}.
End Past.

(** [IsDAGAncestorOf] is exact: where the index is right, it succeeds for any two
    blocks and tells whether the first is the second or in its past. *)
Lemma IsDAGAncestorOf_run g s r a b :
  dagIndexed g s r -> anc s r a -> anc s r b ->
  exists res, IsDAGAncestorOf a b s = (Ret res, s) /\ (res = true <-> a = b \/ inPast g a b).
Proof.
  intros [Hit Hcov Hpast _] Ha Hb. unfold IsDAGAncestorOf.
  destruct (node_interval s r Hit a Ha) as (ia & Hia & _). destruct (node_interval s r Hit b Hb) as (ib & Hib & _).
  unfold IsReachabilityTreeAncestorOf. rewrite !bind_assoc, (bind_Ret _ _ _ _ _ (interval_run s a ia Hia)).
  rewrite bind_assoc, (bind_Ret _ _ _ _ _ (interval_run s b ib Hib)). erewrite bind_Ret by done.
  pose proof (contains_spec s r Hit a b ia ib Ha Hb Hia Hib) as Hspec. specialize (Hpast a b Ha Hb). unfold cover in Hpast.
  destruct (intervalContains ia ib) eqn:Hc.
  - exists true. split; [done|]. tauto.
  - destruct (hasAncestorOf_run s r Hit a b Ha Hb (Hcov a Ha)) as (res & Hrun & Hres). exists res. split; [done|].
    rewrite Hres, <- Hpast. split; [by right|]. intros [Hab|?]; [|done]. by apply Hspec in Hab.
Qed.

(** ** Adding a block *)

Lemma leaf_anc s b y : kids s b = [] -> anc s b y -> y = b.
Proof. intros Hk Hy. apply rtc_inv in Hy as [->|(c & Hc & _)]; [done|]. unfold childOf in Hc. rewrite Hk in Hc. set_solver. Qed.

(** The tree with one more leaf. *)
Section Grow.
Context (s s' : reachState) (r p b : DomainHash) (Ht : tree s r) (Hp : anc s r p) (Hb : ~ anc s r b).
Context (Hkb : kids s' b = []) (Hk : forall x, x <> b -> kids s' x = if decide (x = p) then kids s x ++ [b] else kids s x).

Lemma old_ne x : anc s r x -> x <> b.
Proof. by intros Hx ->. Qed.

Lemma grow_mono x y : anc s r x -> anc s x y -> anc s' x y.
Proof.
  intros Hx Hxy. induction Hxy as [|x c y Hc Hcy IH]; [constructor|].
  eapply rtc_l; [|apply IH; by eapply anc_snoc]. unfold childOf. rewrite Hk by by apply old_ne.
  destruct (decide (x = p)); [apply elem_of_app; by left|done].
Qed.

Lemma grow_anc x y : anc s r x -> y <> b -> anc s' x y <-> anc s x y.
Proof.
  intros Hx Hy. split; [|by apply grow_mono]. intros Hxy. induction Hxy as [|x c y Hc Hcy IH]; [constructor|].
  unfold childOf in Hc. rewrite Hk in Hc by by apply old_ne.
  assert (Hc' : c ∈ kids s x).
  { destruct (decide (x = p)); [|done]. apply elem_of_app in Hc as [?|Hcb]; [done|]. assert (c = b) as -> by set_solver.
    by apply (leaf_anc s') in Hcy. }
  eapply rtc_l; [exact Hc'|]. apply IH; [by eapply anc_snoc|done].
Qed.

Lemma grow_nodes x : anc s' r x <-> anc s r x \/ x = b.
Proof.
  destruct (decide (x = b)) as [->|Hne].
  - split; [by right|]. intros _. eapply rtc_r; [apply grow_mono; [constructor|exact Hp]|]. unfold childOf.
    rewrite Hk, decide_True by (done || by apply old_ne). set_solver.
  - rewrite grow_anc by (constructor || done). split; [by left|]. by intros [?|?].
Qed.

Lemma grow_anc_new x : anc s r x -> anc s' x b <-> anc s x p.
Proof.
  intros Hx. split.
  - intros Hxb. apply rtc_inv_r in Hxb as [->|(z & Hxz & Hz)]; [done|].
    assert (Hzr : anc s' r z) by (eapply anc_trans; [apply grow_mono; [constructor|exact Hx]|exact Hxz]).
    apply grow_nodes in Hzr as [Hzr| ->]; [|unfold childOf in Hz; rewrite Hkb in Hz; set_solver].
    unfold childOf in Hz. rewrite Hk in Hz by by apply old_ne. destruct (decide (z = p)) as [->|Hne].
    + by apply (grow_anc x p) in Hxz; [|done|apply old_ne].
    + destruct Hb. by eapply anc_snoc.
  - intros Hxp. eapply rtc_r; [apply grow_mono; [exact Hx|exact Hxp]|]. unfold childOf. rewrite Hk, decide_True by (done || by apply old_ne). set_solver.
Qed.

Lemma grow_leftOf x y : leftOf s r x y -> leftOf s' r x y.
Proof.
  intros (q & A & c & B & c' & D & Hq & Hkq & Hcx & Hcy).
  assert (Hc : anc s r c) by (eapply anc_snoc; [exact Hq|]; unfold childOf; rewrite Hkq; set_solver).
  assert (Hc' : anc s r c') by (eapply anc_snoc; [exact Hq|]; unfold childOf; rewrite Hkq; set_solver).
  assert (Hkids : exists D', kids s' q = A ++ c :: B ++ c' :: D').
  { rewrite Hk by by apply old_ne. rewrite Hkq. destruct (decide (q = p)); [|eauto]. exists (D ++ [b]). rewrite <- !app_assoc. cbn.
    by rewrite <- app_assoc. }
  destruct Hkids as (D' & HD). exists q, A, c, B, c', D'. split_and!; [by apply grow_nodes; left|done|by apply grow_mono|by apply grow_mono].
Qed.

Lemma grow_covers l : covers s r l -> covers s' r l.
Proof.
  intros [Ho Hu]. split; [by eapply ordered_mono; [apply grow_leftOf|]|]. intros f Hf. apply grow_nodes. left. auto.
Qed.
End Grow.

(** The data of a new block are those of a lone node. *)
Definition staged (b : DomainHash) (s : reachState) : reachState :=
  MkReachState (<[b := newReachabilityTreeData]> (rs_data s)) (rs_reindexRoot s) (subTreeSizesCache s).

Lemma staged_ne b s x : x <> b -> rs_data (staged b s) !! x = rs_data s !! x.
Proof. intros Hne. cbn. by rewrite lookup_insert_ne. Qed.

Section Staged.
Context (s : reachState) (r b : DomainHash) (Hb : ~ anc s r b).

Lemma staged_kids x : x <> b -> kids (staged b s) x = kids s x.
Proof. intros Hne. unfold kids. by rewrite staged_ne. Qed.

Lemma staged_kids_new : kids (staged b s) b = [].
Proof. unfold kids. cbn. by rewrite lookup_insert_eq. Qed.

Lemma staged_ivl x : x <> b -> ivl (staged b s) x = ivl s x.
Proof. intros Hne. unfold ivl. by rewrite staged_ne. Qed.

Lemma staged_ivl_new : ivl (staged b s) b = Some (newReachabilityInterval 1 (MaxUint64 - 1)).
Proof. unfold ivl. cbn. by rewrite lookup_insert_eq. Qed.

Lemma staged_anc x : anc (staged b s) r x <-> anc s r x.
Proof.
  split.
  - revert x. refine (rtc_ind_r (fun x => anc s r x) r _ _); [constructor|]. intros y z _ Hyz Hy.
    unfold childOf in Hyz. rewrite staged_kids in Hyz by (by intros ->). by eapply anc_snoc.
  - revert x. refine (rtc_ind_r (fun x => anc (staged b s) r x) r _ _); [constructor|]. intros y z Hy Hyz IH.
    eapply anc_snoc; [exact IH|]. unfold childOf. by rewrite staged_kids by (by intros ->).
Qed.

Lemma staged_indexedTree : indexedTree s r -> indexedTree (staged b s) r.
Proof.
  assert (Hne : forall x, anc s r x -> x <> b) by (by intros x Hx ->).
  intros [[H1 H2 H3 H4] (i & Hi & Hv) H6]. split; [split|..].
  - unfold par. rewrite staged_ne by (apply Hne; constructor). done.
  - intros x Hx%staged_anc. rewrite staged_ivl by auto. auto.
  - intros x c Hx%staged_anc Hc. unfold childOf in Hc. rewrite staged_kids in Hc by auto. unfold par.
    rewrite staged_ne by (apply Hne; by eapply anc_snoc). by apply H3.
  - intros x Hx%staged_anc. rewrite staged_kids by auto. auto.
  - exists i. rewrite staged_ivl by (apply Hne; constructor). done.
  - intros x Hx%staged_anc. destruct (H6 x Hx) as (j & il & Hj & Hn & Hf2 & Hf). exists j, il.
    rewrite staged_ivl, staged_kids by auto. split_and!; [done|done| |done].
    assert (Hc : forall c, c ∈ kids s x -> ivl (staged b s) c = ivl s c) by (intros c Hc; apply staged_ivl, Hne; by eapply anc_snoc).
    clear -Hf2 Hc. induction Hf2; constructor; [rewrite Hc; [done|set_solver]|apply IHHf2; set_solver].
Qed.
End Staged.

Lemma staged_sized s r b x n : ~ anc s r b -> sized s x n -> anc s r x -> sized (staged b s) x n.
Proof.
  intros Hb. induction 1 as [x ns _ IH] using sized_nested. intros Hx. constructor. rewrite staged_kids by (by intros ->).
  assert (Hk : forall c, c ∈ kids s x -> anc s r c) by (intros c Hc; by eapply anc_snoc).
  induction IH as [|c m cs ms Hc _ IH]; constructor; [apply Hc, Hk; set_solver|apply IH; set_solver].
Qed.

Lemma over_fcs s0 s x : over s0 s -> fcs s x = fcs s0 x.
Proof.
  intros Hov. pose proof (proj2 Hov x) as Hx. unfold fcs. destruct (rs_data s !! x), (rs_data s0 !! x); cbn in Hx; by simplify_eq.
Qed.

Lemma linked_fcs s node child x : node <> child -> fcs (linked node child s) x = fcs s x.
Proof. intros Hne. unfold fcs. rewrite linked_frame by done. by destruct (rs_data s !! x). Qed.

Lemma insertToAll_app l l' b s : insertToAll (l ++ l') b s = (insertToAll l b ;;; insertToAll l' b) s.
Proof.
  revert s. induction l as [|m l IH]; intros s; [done|]. cbn [app insertToAll]. rewrite bind_assoc.
  unfold bind at 1 2. destruct (insertToFutureCoveringSet m b s) as [[] t]; [apply IH|done..].
Qed.

Section Add.
Context (g : DomainHash -> option BlockGHOSTDAGData) (s t s' : reachState) (r p b : DomainHash) (d : BlockGHOSTDAGData).
Context (Hdi : dagIndexed g s r) (Hb : ~ anc s r b) (Hd : g b = Some d) (Hsp : selectedParent d = Some p) (Hp : anc s r p).
Context (Hms : forall a, a ∈ mergeSetBlues d ++ mergeSetReds d -> anc s r a).
Context (Hit : indexedTree t r) (Hkb : kids t b = []).
Context (Hk : forall x, x <> b -> kids t x = if decide (x = p) then kids s x ++ [b] else kids s x).
Context (Hfcs : forall x, x <> b -> fcs t x = fcs s x) (Hfcsb : fcs t b = []).
Context (Hins : inserted t r b (mergeSetBlues d ++ mergeSetReds d) s').

Lemma added_anc x y : anc s' x y <-> anc t x y.
Proof. apply same_anc, Hins. Qed.

Lemma added_nodes x : anc s' r x <-> anc s r x \/ x = b.
Proof. rewrite added_anc. by apply (grow_nodes s t r p b (it_tree _ _ (di_tree _ _ _ Hdi)) Hp Hb Hkb Hk). Qed.

(** Among the old blocks nothing has changed. *)
Lemma added_old x y : anc s r x -> anc s r y -> cover s' x y <-> cover s x y.
Proof.
  intros Hx Hy. assert (Hyb : y <> b) by (by intros ->). assert (Hxb : x <> b) by (by intros ->).
  assert (Ht : tree s r) by apply Hdi. unfold cover.
  rewrite added_anc, (grow_anc s t r p b Ht Hp Hb Hkb Hk x y Hx Hyb). split.
  - intros [?|(f & Hf & Hfy)]; [by left|]. right. rewrite added_anc in Hfy.
    destruct (in_new _ _ _ _ _ Hins x f Hf) as [Hf'|[-> _]].
    + rewrite Hfcs in Hf' by done. exists f. split; [done|].
      apply (grow_anc s t r p b Ht Hp Hb Hkb Hk f y); [by apply (di_covers _ _ _ Hdi x)|done|done].
    + by apply (leaf_anc t b _ Hkb) in Hfy.
  - intros [?|(f & Hf & Hfy)]; [by left|]. right. exists f. split.
    + apply (in_old _ _ _ _ _ Hins). by rewrite Hfcs.
    + apply added_anc, (grow_anc s t r p b Ht Hp Hb Hkb Hk f y); [by apply (di_covers _ _ _ Hdi x)|done|done].
Qed.

(** The past of the new block. *)
Lemma added_new x : anc s r x -> cover s' x b <-> inPast g x b.
Proof.
  intros Hx. assert (Hxb : x <> b) by (by intros ->). assert (Ht : tree s r) by apply Hdi.
  assert (Hpast : inPast g x b <-> cover s x p \/ x ∈ mergeSetBlues d ++ mergeSetReds d).
  { rewrite (di_past _ _ _ Hdi x p Hx Hp). split.
    - intros Hin. inversion Hin; simplify_eq; [by left; left|by right|by left; right].
    - intros [[->|Hxp]|Hm]; [by eapply past_selected|by eapply past_chain|by eapply past_merged]. }
  rewrite Hpast. unfold cover. rewrite added_anc, (grow_anc_new s t r p b Ht Hp Hb Hkb Hk x Hx). split.
  - intros [?|(f & Hf & Hfb)]; [by left; left|]. rewrite added_anc in Hfb.
    destruct (in_new _ _ _ _ _ Hins x f Hf) as [Hf'|[-> Hm]]; [|by right]. rewrite Hfcs in Hf' by done.
    left; right. exists f. split; [done|]. apply (grow_anc_new s t r p b Ht Hp Hb Hkb Hk f); [by apply (di_covers _ _ _ Hdi x)|done].
  - intros [[?|(f & Hf & Hfp)]|Hm]; [by left|..]; right.
    + exists f. split; [apply (in_old _ _ _ _ _ Hins); by rewrite Hfcs|].
      apply added_anc, (grow_anc_new s t r p b Ht Hp Hb Hkb Hk f); [by apply (di_covers _ _ _ Hdi x)|done].
    + destruct (in_hit _ _ _ _ _ Hins x Hm) as (f & Hf & Hfb). exists f. split; [done|by apply added_anc].
Qed.

Lemma added_dagIndexed : dagIndexed g s' r.
Proof.
  assert (Ht : tree s r) by apply Hdi.
  assert (Hclosed : forall a, inPast g a b -> anc s r a).
  { intros a Ha. inversion Ha; simplify_eq; [done|by apply Hms|by eapply (di_closed _ _ _ Hdi)]. }
  split.
  - eapply same_indexedTree; [apply Hins|done].
  - intros a Ha%added_anc. apply (covers_kids t s'); [apply same_kids, Hins|]. by apply Hins.
  - intros x y [Hx| ->]%added_nodes [Hy| ->]%added_nodes.
    + rewrite added_old by done. by apply Hdi.
    + rewrite added_new by done. split; [by right|]. by intros [->|?].
    + split.
      * intros [Hby|(f & Hf & _)]; [apply added_anc, (leaf_anc t b _ Hkb) in Hby; by left|].
        apply (in_new _ _ _ _ _ Hins) in Hf as [Hf|[_ Hm]]; [rewrite Hfcsb in Hf; set_solver|]. by apply Hms in Hm.
      * intros [->|Hin]; [done|]. by apply (di_closed _ _ _ Hdi) in Hin.
    + split; [by left|]. intros _. left. constructor.
  - intros a y [Hy| ->]%added_nodes Ha; apply added_nodes; left; [by eapply (di_closed _ _ _ Hdi)|by apply Hclosed].
Qed.
End Add.

(** [AddBlock] keeps the index of the DAG right: for a block whose selected parent
    and merge set are in the tree it succeeds, and afterwards the tree is indexed,
    the future covering sets are ordered, and together they give the past of every
    block, the new one included.  The new block is a leaf below its selected parent, and
    the reindex root keeps its room. *)
Lemma AddBlock_run `{GoArch} (rt : reachabilityManager) (fuel : nat) s r b d p root iroot n :
  dagIndexed (ghostdagDataStore rt) s r -> ~ anc s r b -> ghostdagDataStore rt b = Some d ->
  selectedParent d = Some p -> anc s r p -> (forall a, a ∈ mergeSetBlues d ++ mergeSetReds d -> anc s r a) ->
  rs_reindexRoot s = Some root -> anc s r root -> ivl s root = Some iroot -> sized s r n ->
  0 <= reindexSlack rt -> (reindexSlack rt + 2) * (n + 1) <= width iroot -> n + 1 < Z.of_nat fuel ->
  exists s', AddBlock rt fuel b s = (Ret tt, s') /\ dagIndexed (ghostdagDataStore rt) s' r /\
    (forall x, anc s' r x <-> anc s r x \/ x = b) /\ rs_reindexRoot s' = Some root /\ sized s' r (n + 1) /\
    (forall x, kids s' x = if decide (x = b) then [] else if decide (x = p) then kids s x ++ [b] else kids s x) /\
    keepsRoom (n + 1) rt root iroot s'.
Proof.
  intros Hdi Hb Hd Hsp Hp Hms Hroot Hrr Hir Hn Hsl Hcap Hfuel. pose proof (di_tree _ _ _ Hdi) as Hit.
  assert (Hpb : p <> b) by (by intros ->). assert (Hrb : root <> b) by (by intros ->).
  destruct (addChild_indexes rt fuel (staged b s) r p b root iroot n) as (t & Hrun & Hit' & Hov & Hroom); try done.
  - by apply staged_indexedTree.
  - by apply staged_anc.
  - split; [by rewrite staged_anc|apply staged_kids_new|]. unfold ivl. cbn. rewrite lookup_insert_eq. cbn. eauto.
  - by apply staged_anc.
  - by rewrite staged_ivl.
  - apply (staged_sized s r); [done|done|constructor].
  - assert (Hb' : ~ anc (staged b s) r b) by by rewrite staged_anc.
    assert (Ht' : tree (staged b s) r) by by apply staged_indexedTree.
    assert (Hp' : anc (staged b s) r p) by by apply staged_anc.
    assert (Hk : forall x, x <> b -> kids t x = if decide (x = p) then kids s x ++ [b] else kids s x).
    { intros x Hx. rewrite (over_kids _ _ Hov), (linked_kids _ r) by done. by rewrite staged_kids. }
    assert (Hkb : kids t b = []).
    { rewrite (over_kids _ _ Hov), (linked_kids _ r), decide_False by done. apply staged_kids_new. }
    assert (Hfcs : forall x, fcs t x = fcs (staged b s) x) by (intros x; rewrite (over_fcs _ _ _ Hov); by apply linked_fcs).
    assert (Hfcsb : fcs t b = []) by (rewrite Hfcs; unfold fcs; cbn; by rewrite lookup_insert_eq).
    assert (Hfcs' : forall x, x <> b -> fcs t x = fcs s x) by (intros x Hx; rewrite Hfcs; unfold fcs; by rewrite staged_ne).
    assert (Ht : tree s r) by apply Hdi.
    destruct (insertToAll_run r b (mergeSetBlues d ++ mergeSetReds d) t) as (s' & Hins & Hinserted); [done| |done| | |].
    + apply (grow_nodes s t r p b Ht Hp Hb Hkb Hk). by right.
    + intros a [Ha| ->]%(grow_nodes s t r p b Ht Hp Hb Hkb Hk).
      * rewrite Hfcs' by (by intros ->). apply (grow_covers s t r p b Ht Hp Hb Hkb Hk). by apply Hdi.
      * rewrite Hfcsb. split; [done|set_solver].
    + intros a Ha. apply (grow_nodes s t r p b Ht Hp Hb Hkb Hk). left. auto.
    + exists s'. split_and!.
      * unfold AddBlock. rewrite (bind_Ret (stageData b newReachabilityTreeData) _ s (staged b s) tt eq_refl).
        unfold ghostdagOf. rewrite Hd. rewrite (bind_Ret (ret d) _ _ (staged b s) d eq_refl).
        assert (Hri : reindexRoot (staged b s) = (Ret root, staged b s)).
        { unfold reindexRoot, bind, get. cbn [rs_reindexRoot staged]. by rewrite Hroot. }
        rewrite (bind_Ret _ _ _ _ _ Hri), Hsp. rewrite (bind_Ret (nonNil (Some p)) _ _ (staged b s) p eq_refl).
        rewrite (bind_Ret _ _ _ _ _ Hrun), <- insertToAll_app. exact Hins.
      * by apply (added_dagIndexed _ s t s' r p b d).
      * by apply (added_nodes (ghostdagDataStore rt) s t s' r p b d).
      * rewrite (proj1 (in_same _ _ _ _ _ Hinserted)), (proj1 Hov). done.
      * apply (sized_ext t); [apply same_kids, Hinserted|]. apply (over_sized _ _ _ _ Hov).
        assert (Hi : is_Some (ivl (staged b s) b)) by (rewrite staged_ivl_new; eauto).
        assert (Hn' : sized (staged b s) r n) by (apply (staged_sized s r); [done|done|constructor]).
        by apply (linked_plus (staged b s) r p b Ht' Hp' Hb' (staged_kids_new s b) Hi n); [..|constructor|].
      * intros x. rewrite (same_kids t s') by apply Hinserted. case_decide as Hx; [by subst|by apply Hk].
      * destruct Hroom as (i' & Hi' & Hw). exists i'. rewrite (same_ivl t s') by apply Hinserted. done.
Qed.
