(* ===== verification/ReachConcentrate.v ===== *)
(** * Moving the reindex root

    [updateReindexRoot] of
    [src/domain/consensus/processes/reachabilitymanager/tree.go] and
    [concentrateInterval] of [reindex_context.go]: the intervals of the siblings along
    the way to the new root shrink to the sizes of their subtrees, and the way gets
    what is left.  The tree stays indexed. *)

From S2P Require Import Prelude Float64 Interval Reachability ReachTree ReachCount ReachPropagate ReachReindex ReachAdd ReachDag.

Section Concentrate.
Context `{GoArch} (rt : reachabilityManager) (fuel : nat) (s0 : reachState) (r : DomainHash) (N : Z).
Context (Ht : tree s0 r) (HN : sized s0 r N) (Hfuel : N < Z.of_nat fuel) (HN64 : N < 2 ^ 64) (Hslack : 0 <= reindexSlack rt).

(** The subtree of a node is indexed. *)
Definition sub (s : reachState) (x : DomainHash) : Prop := forall y, anc s0 x y -> indexed s y.

Lemma node_size x : anc s0 r x -> exists n, sized s0 x n /\ 1 <= n <= N.
Proof.
  intros Hx. destruct (sized_anc _ _ _ _ HN Hx) as (n & Hn & Hle & _). exists n. pose proof (sized_pos _ _ _ Hn). auto.
Qed.

Lemma countEach_run nodes s :
  over s0 s -> cacheOk s0 s -> (forall x, x ∈ nodes -> anc s0 r x) ->
  exists s' ns, countEach fuel nodes s = (Ret (Some ns), s') /\ Forall2 (sized s0) nodes ns /\ over s0 s' /\ cacheOk s0 s' /\
    rs_data s' = rs_data s.
Proof.
  revert s. induction nodes as [|x nodes IH]; intros s Hov Hca Hx; cbn [countEach].
  { exists s, []. split_and!; [done|constructor|done|done|done]. }
  assert (Hrx : anc s0 r x) by (apply Hx; set_solver). destruct (node_size x Hrx) as (n & Hn & HnN).
  destruct (countSubtrees_run fuel s0 r x n Ht Hrx Hn) with (s := s) as (s1 & Hrun & Hov1 & Hd1 & Hca1 & Hc1); [lia|lia|done|done|].
  erewrite bind_Ret by (unfold try; by rewrite Hrun). cbn match. erewrite bind_Ret by done.
  destruct (IH s1 Hov1 Hca1) as (s2 & ns & Hrun2 & Hns & Hov2 & Hca2 & Hd2); [set_solver|].
  rewrite (bind_Ret _ _ _ _ _ Hrun2). exists s2, (n :: ns). split_and!; [|by constructor|done|done|by rewrite Hd2].
  unfold cached. rewrite Hc1. done.
Qed.

(** Different children of one node: subtrees apart from each other. *)
Record apart (p : DomainHash) (cs : list DomainHash) : Prop := {
  ap_parent : anc s0 r p;
  ap_NoDup : NoDup cs;
  ap_kids : forall c, c ∈ cs -> childOf s0 p c
}.

Lemma apart_under p cs c : apart p cs -> c ∈ cs -> anc s0 r c.
Proof. intros [Hp _ Hk] Hc. eapply anc_snoc; [exact Hp|auto]. Qed.

(** Two children have no common descendant. *)
Lemma apart_disjoint p c c' y : anc s0 r p -> childOf s0 p c -> childOf s0 p c' -> c <> c' -> anc s0 c y -> ~ anc s0 c' y.
Proof.
  intros Hp Hc Hc' Hne Hy Hy'. destruct (anc_linear s0 r Ht c c' y) as [Hl|Hl]; [by eapply anc_snoc|by eapply anc_snoc|done|done| |].
  - by apply (sibling_not_anc s0 r N Ht HN p c c').
  - by apply (sibling_not_anc s0 r N Ht HN p c' c).
Qed.

Lemma sub_kept s s' p c (cs : list DomainHash) :
  over s0 s -> over s0 s' -> anc s0 r p -> childOf s0 p c -> c ∉ cs -> (forall c', c' ∈ cs -> childOf s0 p c') ->
  (forall y, (forall c', c' ∈ cs -> ~ anc s0 c' y) -> ivl s' y = ivl s y) -> sub s c -> sub s' c.
Proof.
  intros Hov Hov' Hp Hc Hnc Hcs Hfr Hsub y Hy.
  assert (Hout : forall z, anc s0 c z -> ivl s' z = ivl s z).
  { intros z Hz. apply Hfr. intros c' Hc'. eapply (apart_disjoint p c c'); [done|done|auto| |done]. by intros ->. }
  apply (indexed_ext s0 s); [done|done|by apply Hout| |by apply Hsub].
  intros d Hd. apply Hout. eapply anc_snoc; [exact Hy|exact Hd].
Qed.

Lemma stageAndPropagate_run p cs il ns s :
  apart p cs -> over s0 s -> cacheOk s0 s -> Forall2 (sized s0) cs ns -> Forall2 (fun n i => n <= width i /\ valid i) ns il ->
  exists s', stageAndPropagate fuel cs il s = (Ret tt, s') /\ over s0 s' /\ cacheOk s0 s' /\
    Forall2 (fun c i => ivl s' c = Some i) cs il /\ (forall c, c ∈ cs -> sub s' c) /\
    forall y, (forall c, c ∈ cs -> ~ anc s0 c y) -> ivl s' y = ivl s y.
Proof.
  revert il ns s. induction cs as [|c cs IH]; intros il ns s Hap Hov Hca Hns Hil.
  { inversion Hns; subst. inversion Hil; subst. exists s. split_and!; [done|done|done|constructor|set_solver|done]. }
  inversion Hns as [|? n ? ns' Hn Hns']; subst. inversion Hil as [|? i ? il' [Hw Hv] Hil']; subst.
  pose proof Hap as [Hp Hnd Hk]. apply list.NoDup_cons in Hnd as [Hc Hnd].
  assert (Hrc : anc s0 r c) by (eapply apart_under; [exact Hap|set_solver]).
  assert (Hpc : childOf s0 p c) by (apply Hk; set_solver).
  assert (Hci : is_Some (ivl s c)) by by apply (ivl_defined s0 r Ht).
  cbn [stageAndPropagate]. rewrite (bind_Ret _ _ _ _ _ (stageInterval_run s c i Hci)).
  assert (Hov1 : over s0 (withIvl c i s)) by (etransitivity; [exact Hov|by apply withIvl_over]).
  destruct (node_size c Hrc) as (n' & Hn' & HnN). rewrite (sized_fun _ _ _ _ Hn' Hn) in HnN. clear n' Hn'.
  destruct (propagateInterval_run s0 r Ht fuel (withIvl c i s) c n) as (s2 & Hrun2 & Hov2 & Hca2 & Hsub2 & Hfr2); [done|done|done| |done|lia|].
  { exists i, n. by rewrite ivl_withIvl_eq. }
  rewrite (bind_Ret _ _ _ _ _ Hrun2).
  assert (Hfr2' : forall y, ~ anc s0 c y -> ivl s2 y = ivl s y).
  { intros y Hy. rewrite Hfr2 by (by intros [? _]). apply ivl_withIvl_ne. intros ->. by apply Hy; constructor. }
  destruct (IH il' ns' s2) as (s3 & Hrun3 & Hov3 & Hca3 & Hf3 & Hsub3 & Hfr3); [split; [done|done|set_solver]|done|done|done|done|].
  assert (Hcs : forall y, anc s0 c y -> forall c', c' ∈ cs -> ~ anc s0 c' y).
  { intros y Hy c' Hc'. eapply (apart_disjoint p c c'); [done|done|apply Hk; set_solver| |done]. by intros ->. }
  exists s3. split_and!; [exact Hrun3|done|done| | |].
  - constructor; [|done]. rewrite Hfr3 by (apply Hcs; constructor). rewrite Hfr2; [by apply ivl_withIvl_eq|]. by intros [_ ?].
  - intros c' [->|Hc']%elem_of_cons; [|auto]. eapply (sub_kept s2 s3 p c cs); [done|done|done|done|done|set_solver|done|done].
  - intros y Hy. rewrite Hfr3, Hfr2'; [done|apply Hy; set_solver|set_solver].
Qed.

Lemma layout_valid lo ns :
  1 <= lo -> Forall (Z.le 0) ns -> lo + zsum ns <= MaxUint64 -> Forall2 (fun n i => n <= width i /\ valid i) ns (layout lo ns).
Proof.
  intros Hlo Hns. revert lo Hlo. induction Hns as [|n ns Hn Hns IH]; intros lo Hlo Hle; cbn in *; [constructor|].
  pose proof (zsum_nonneg ns Hns). constructor; [|apply IH; lia]. unfold width, valid. cbn. lia.
Qed.

(** The siblings of the chosen child, with intervals just large enough. *)
Record tight (s : reachState) (cs : list DomainHash) (lo : Z) (ns : list Z) (s' : reachState) : Prop := {
  ti_over : over s0 s';
  ti_cache : cacheOk s0 s';
  ti_sizes : Forall2 (sized s0) cs ns;
  ti_ivl : Forall2 (fun c i => ivl s' c = Some i) cs (layout lo ns);
  ti_sub : forall c, c ∈ cs -> sub s' c;
  ti_frame : forall y, (forall c, c ∈ cs -> ~ anc s0 c y) -> ivl s' y = ivl s y
}.

Lemma propagateChildren_run p cs ns lo s :
  apart p cs -> over s0 s -> cacheOk s0 s -> Forall2 (sized s0) cs ns -> 1 <= lo -> lo + zsum ns <= MaxUint64 ->
  exists s', propagateChildrenIntervals fuel (newReachabilityInterval lo (lo + zsum ns - 1)) cs ns s = (Ret tt, s') /\ tight s cs lo ns s'.
Proof.
  intros Hap Hov Hca Hns Hlo Hle. pose proof (sizes_nonneg _ _ _ Hns) as Hnn. pose proof (zsum_nonneg _ Hnn).
  unfold propagateChildrenIntervals.
  erewrite bind_Ret by (unfold fromInterval; rewrite intervalSplitExact_layout; [done|unfold valid; cbn; lia|done|unfold width; cbn; lia]).
  cbn [Start].
  destruct (stageAndPropagate_run p cs (layout lo ns) ns s) as (s' & Hrun & ? & ? & ? & ? & ?); try done; [by apply layout_valid|].
  exists s'. by split.
Qed.

Lemma sizes_fun cs ns ms : Forall2 (sized s0) cs ns -> Forall2 (sized s0) cs ms -> ns = ms.
Proof.
  intros Hn. revert ms. induction Hn as [|c n cs ns Hc _ IH]; intros ms Hm; inversion Hm; subst; [done|].
  f_equal; [by eapply sized_fun|auto].
Qed.

Lemma countChildren_run p cs ns s :
  apart p cs -> over s0 s -> cacheOk s0 s -> Forall2 (sized s0) cs ns -> zsum ns < 2 ^ 64 ->
  exists s', countChildrenSubtrees fuel cs s = (Ret (ns, zsum ns), s') /\ over s0 s' /\ cacheOk s0 s' /\ rs_data s' = rs_data s.
Proof.
  intros Hap Hov Hca Hns Hlt. destruct (countEach_run cs s Hov Hca) as (s' & ms & Hrun & Hms & ? & ? & ?).
  { intros x Hx. by eapply apart_under. }
  rewrite (sizes_fun _ _ _ Hms Hns) in Hrun. exists s'. split_and!; try done. unfold countChildrenSubtrees.
  rewrite (bind_Ret _ _ _ _ _ Hrun). unfold ret. by rewrite sumU64_zsum by (done || by eapply sizes_nonneg).
Qed.

Lemma tight_data s s1 cs lo ns s' : rs_data s1 = rs_data s -> tight s1 cs lo ns s' -> tight s cs lo ns s'.
Proof.
  intros Hd [? ? ? ? ? Hfr]. split; try done. intros y Hy. rewrite Hfr by done. unfold ivl. by rewrite Hd.
Qed.

Lemma tightenBefore_run p cs ns s ip :
  apart p cs -> over s0 s -> cacheOk s0 s -> Forall2 (sized s0) cs ns -> ivl s p = Some ip -> valid ip ->
  reindexSlack rt + zsum ns <= width ip ->
  exists s', tightenIntervalsBefore rt fuel p cs s = (Ret (zsum ns), s') /\ tight s cs (Start ip + reindexSlack rt) ns s'.
Proof.
  intros Hap Hov Hca Hns Hip Hv Hw. pose proof (zsum_nonneg _ (sizes_nonneg _ _ _ Hns)). unfold valid, width in *.
  destruct (countChildren_run p cs ns s) as (s1 & Hrun1 & Hov1 & Hca1 & Hd1); try done; [unfold MaxUint64 in *; lia|].
  unfold tightenIntervalsBefore. rewrite (bind_Ret _ _ _ _ _ Hrun1).
  assert (Hip1 : ivl s1 p = Some ip) by (unfold ivl; by rewrite Hd1). rewrite (bind_Ret _ _ _ _ _ (interval_run s1 p ip Hip1)).
  rewrite !u64_id by lia.
  destruct (propagateChildren_run p cs ns (Start ip + reindexSlack rt) s1) as (s' & Hrun & Hti); try done; [lia|lia|].
  rewrite (bind_Ret _ _ _ _ _ Hrun). exists s'. split; [done|by eapply tight_data].
Qed.

Lemma tightenAfter_run p cs ns s ip :
  apart p cs -> over s0 s -> cacheOk s0 s -> Forall2 (sized s0) cs ns -> ivl s p = Some ip -> valid ip ->
  reindexSlack rt + zsum ns + 1 <= width ip ->
  exists s', tightenIntervalsAfter rt fuel p cs s = (Ret (zsum ns), s') /\ tight s cs (End ip - reindexSlack rt - zsum ns) ns s'.
Proof.
  intros Hap Hov Hca Hns Hip Hv Hw. pose proof (zsum_nonneg _ (sizes_nonneg _ _ _ Hns)). unfold valid, width in *.
  destruct (countChildren_run p cs ns s) as (s1 & Hrun1 & Hov1 & Hca1 & Hd1); try done; [unfold MaxUint64 in *; lia|].
  unfold tightenIntervalsAfter. rewrite (bind_Ret _ _ _ _ _ Hrun1).
  assert (Hip1 : ivl s1 p = Some ip) by (unfold ivl; by rewrite Hd1). rewrite (bind_Ret _ _ _ _ _ (interval_run s1 p ip Hip1)).
  rewrite !u64_id by lia.
  destruct (propagateChildren_run p cs ns (End ip - reindexSlack rt - zsum ns) s1) as (s' & Hrun & Hti); try done; [lia|lia|].
  replace (End ip - reindexSlack rt - zsum ns + zsum ns - 1) with (End ip - reindexSlack rt - 1) in Hrun by lia.
  rewrite (bind_Ret _ _ _ _ _ Hrun). exists s'. split; [done|by eapply tight_data].
Qed.

(** ** The chosen child *)

(** Everything is indexed except for one node, whose children are in order but need not
    lie in its interval. *)
Record hollow (s : reachState) (x : DomainHash) (ix : ReachabilityInterval) : Prop := {
  ho_over : over s0 s;
  ho_cache : cacheOk s0 s;
  ho_under : anc s0 r x;
  ho_ivl : ivl s x = Some ix;
  ho_valid : valid ix;
  ho_idx : forall y, anc s0 r y -> y <> x -> indexed s y;
  ho_kids : exists il lo hi, Forall2 (fun c ic => ivl s c = Some ic) (kids s0 x) il /\ fits lo hi il;
  ho_root : exists ir, ivl s r = Some ir /\ valid ir
}.

Lemma hollow_sub s x ix c : hollow s x ix -> childOf s0 x c -> sub s c.
Proof.
  intros Hh Hc y Hy. apply (ho_idx _ _ _ Hh).
  - eapply anc_trans; [eapply anc_snoc; [apply (ho_under _ _ _ Hh)|exact Hc]|exact Hy].
  - intros ->. eapply (child_not_anc s0 r N HN x c); [apply Hh|done|done].
Qed.

(** The intervals below the chosen child are inside of it. *)
Lemma sub_contains s x y ix iy : over s0 s -> sub s x -> anc s0 x y -> ivl s x = Some ix -> ivl s y = Some iy ->
  Start ix <= Start iy /\ End iy <= End ix /\ Start iy <= End iy.
Proof.
  intros Hov Hsub Hxy Hix Hiy. assert (Hc : intervalContains ix iy = true).
  { apply (anc_contains s x) with (a := x) (b := y); [|constructor|by apply (over_anc s0 s Hov)|done|done].
    intros z c Hz _. apply Hsub. by apply (over_anc s0 s Hov). }
  destruct (Hsub y Hxy) as (iy' & ? & Hiy' & Hne & _). simplify_eq. unfold intervalContains in Hc. zbool. lia.
Qed.

Lemma next_chosen s x ix c tip : hollow s x ix -> childOf s0 x c -> anc s0 c tip -> FindNextAncestor tip x s = (Ret c, s).
Proof.
  intros Hh Hc Htip. pose proof (ho_over _ _ _ Hh) as Hov. destruct (ho_kids _ _ _ Hh) as (il & lo & hi & Hf2 & Hf).
  pose proof (hollow_sub _ _ _ _ Hh Hc) as Hsub.
  assert (Hrc : anc s0 r c) by (eapply anc_snoc; [apply (ho_under _ _ _ Hh)|exact Hc]).
  destruct (ivl_defined s0 r Ht s c Hov Hrc) as [ic Hic].
  destruct (ivl_defined s0 r Ht s tip Hov (anc_trans _ _ _ _ Hrc Htip)) as [it Hit].
  pose proof (sub_contains s c tip ic it Hov Hsub Htip Hic Hit).
  eapply (FindNextAncestor_run s x tip c il lo hi ic it); [|rewrite (ho_ivl _ _ _ Hh); eauto|by rewrite (over_kids s0)|done| |done|done|lia].
  - intros <-. eapply (child_not_anc s0 r N HN x c); [apply Hh|done|done].
  - unfold childOf. by rewrite (over_kids s0).
Qed.

(** The interval the chosen child gets. *)
Definition chosenInterval (ix : ReachabilityInterval) (before after : Z) : ReachabilityInterval :=
  newReachabilityInterval (Start ix + before + reindexSlack rt) (End ix - after - reindexSlack rt - 1).

(** After the siblings have been tightened and the chosen child has got its interval,
    everything but the chosen child is indexed. *)
Lemma concentrated_others s s4 x ix A c B nsA nsB :
  hollow s x ix -> over s0 s4 -> kids s0 x = A ++ c :: B -> Forall (Z.le 0) nsA -> Forall (Z.le 0) nsB ->
  zsum nsA + zsum nsB + 2 * reindexSlack rt + 1 <= width ix ->
  Forall2 (fun c i => ivl s4 c = Some i) A (layout (Start ix + reindexSlack rt) nsA) ->
  Forall2 (fun c i => ivl s4 c = Some i) B (layout (End ix - reindexSlack rt - zsum nsB) nsB) ->
  ivl s4 c = Some (chosenInterval ix (zsum nsA) (zsum nsB)) ->
  (forall y, ~ below s0 x y -> ivl s4 y = ivl s y) ->
  (forall a, a ∈ A ++ B -> sub s4 a) -> (forall y, below s0 c y -> indexed s4 y) ->
  forall y, anc s0 r y -> y <> c -> indexed s4 y.
Proof.
  intros Hh Hov Hk HnA HnB Hw HA HB Hc Hout Hsub Hbel y Hy Hyc.
  pose proof (ho_under _ _ _ Hh) as Hx. destruct (node_size x Hx) as (n & Hn & _).
  destruct (anc_or_not _ _ _ y Hn) as [Hxy|Hxy].
  - apply rtc_inv in Hxy as [<-|(d & Hd & Hdy)].
    + exists ix, (layout (Start ix + reindexSlack rt) nsA ++ chosenInterval ix (zsum nsA) (zsum nsB) ::
        layout (End ix - reindexSlack rt - zsum nsB) nsB).
      pose proof (ho_valid _ _ _ Hh) as Hv. pose proof (zsum_nonneg _ HnA). pose proof (zsum_nonneg _ HnB).
      unfold valid, width in *. rewrite (over_kids s0), Hk by done. split_and!.
      * rewrite Hout; [apply Hh|]. by intros [_ ?].
      * lia.
      * apply Forall2_app; [done|]. by constructor.
      * apply fits_app. unfold chosenInterval. cbn. split_and!; [|lia|].
        -- eapply fits_lower; [|apply (fits_layout (Start ix + reindexSlack rt)); [done|]]; lia.
        -- eapply fits_lower; [|apply (fits_layout (End ix - reindexSlack rt - zsum nsB)); [done|]]; lia.
    + unfold childOf in Hd. rewrite Hk in Hd. apply elem_of_app in Hd as [Hd|[->|Hd]%elem_of_cons].
      * apply (Hsub d); [set_solver|done].
      * apply Hbel. by split.
      * apply (Hsub d); [set_solver|done].
  - assert (Hyx : y <> x) by (intros ->; by apply Hxy; constructor).
    apply (indexed_ext s0 s); [apply Hh|done|by apply Hout; intros [? _]| |by apply (ho_idx _ _ _ Hh)].
    intros d Hd. apply Hout. intros [Hxd Hne]. destruct (anc_child_inv s0 r Ht x y d) as [|]; done.
Qed.

(** A node of an indexed subtree gets another interval. *)
Lemma restage s c ic new nc :
  over s0 s -> anc s0 r c -> sub s c -> sized s0 c nc -> ivl s c = Some ic ->
  let s' := withIvl c new s in
  stageInterval c new s = (Ret tt, s') /\ over s0 s' /\ ivl s' c = Some new /\ (forall y, ~ anc s0 c y -> ivl s' y = ivl s y) /\
  (forall y, below s0 c y -> indexed s' y) /\ (Start new <= Start ic /\ End ic <= End new -> indexed s' c) /\
  exists il lo hi, Forall2 (fun d i => ivl s' d = Some i) (kids s0 c) il /\ fits lo hi il.
Proof.
  intros Hov Hrc Hsub Hnc Hic s'. assert (Hci : is_Some (ivl s c)) by eauto.
  assert (Hov' : over s0 s') by (etransitivity; [exact Hov|by apply withIvl_over]).
  destruct (Hsub c ltac:(constructor)) as (i & il & Hi & Hne & Hf2 & Hf). rewrite (over_kids s0) in Hf2 by done. simplify_eq.
  assert (Hkn : forall d, childOf s0 c d -> d <> c) by (intros d Hd ->; by destruct (child_below _ _ _ _ Hnc Hd)).
  assert (Hf3 : Forall2 (fun d i => ivl s' d = Some i) (kids s0 c) il).
  { unfold childOf in Hkn. unfold s'. clear -Hf2 Hkn.
    induction Hf2; constructor; [rewrite ivl_withIvl_ne; [done|apply Hkn; set_solver]|apply IHHf2; set_solver]. }
  split_and!; [by apply stageInterval_run|done|by apply ivl_withIvl_eq| | | |by eexists il, _, _].
  - intros y Hy. apply ivl_withIvl_ne. intros ->. by apply Hy; constructor.
  - intros y [Hcy Hyc]. apply (indexed_ext s0 s); [done|done|by apply ivl_withIvl_ne| |by apply Hsub].
    intros d Hd. apply ivl_withIvl_ne. intros ->. eapply (child_not_anc s0 r N HN y c); [by eapply anc_trans|done|done].
  - intros [H1 H2]. exists new, il. unfold s'. rewrite (over_kids s0), ivl_withIvl_eq by done. split_and!; [done|lia|done|].
    eapply fits_lower; [|eapply fits_upper; [|exact Hf]]; lia.
Qed.

(** The chosen child gets its interval; as the last one it is propagated unless the
    interval has only grown. *)
Lemma expand_run s x ix c nc before after (final : bool) :
  over s0 s -> cacheOk s0 s -> anc s0 r x -> ivl s x = Some ix -> valid ix -> childOf s0 x c -> sub s c -> sized s0 c nc ->
  0 <= before -> 0 <= after -> 1 + before + after + 4 * reindexSlack rt + nc <= width ix ->
  exists s', expandIntervalToChosen rt fuel x c before after final s = (Ret tt, s') /\ over s0 s' /\ cacheOk s0 s' /\
    ivl s' c = Some (chosenInterval ix before after) /\ (forall y, ~ anc s0 c y -> ivl s' y = ivl s y) /\
    (forall y, below s0 c y -> indexed s' y) /\ (final = true -> indexed s' c) /\
    exists il lo hi, Forall2 (fun d i => ivl s' d = Some i) (kids s0 c) il /\ fits lo hi il.
Proof.
  intros Hov Hca Hx Hix Hv Hc Hsub Hnc Hb Ha Hw. unfold expandIntervalToChosen.
  rewrite (bind_Ret _ _ _ _ _ (interval_run s x ix Hix)). pose proof (anc_snoc _ _ _ _ Hx Hc) as Hrc.
  pose proof (sized_pos _ _ _ Hnc). destruct (ivl_defined s0 r Ht s c Hov Hrc) as [ic Hic].
  assert (Hnew : newReachabilityInterval (u64 (Start ix + before + reindexSlack rt)) (u64 (End ix - after - reindexSlack rt - 1)) =
    chosenInterval ix before after).
  { unfold chosenInterval. unfold valid, width in *. by rewrite !u64_id by lia. }
  rewrite Hnew, (bind_Ret _ _ _ _ _ (interval_run s c ic Hic)).
  set (new := chosenInterval ix before after). destruct (node_size c Hrc) as (n' & Hn' & HnN). rewrite (sized_fun _ _ _ _ Hn' Hnc) in HnN. clear n' Hn'.
  destruct (final && negb (intervalContains new ic)) eqn:Hbr.
  - assert (Hshr : newReachabilityInterval (u64 (Start new + reindexSlack rt)) (u64 (End new - reindexSlack rt)) =
      newReachabilityInterval (Start new + reindexSlack rt) (End new - reindexSlack rt)).
    { unfold new, chosenInterval, valid, width in *. cbn. by rewrite !u64_id by lia. }
    rewrite Hshr. set (shr := newReachabilityInterval _ _).
    assert (Hci : is_Some (ivl s c)) by eauto. rewrite bind_assoc, (bind_Ret _ _ _ _ _ (stageInterval_run s c shr Hci)).
    destruct (propagateInterval_run s0 r Ht fuel (withIvl c shr s) c nc) as (s2 & Hrun2 & Hov2 & Hca2 & Hsub2 & Hfr2); [done| |done| |done|lia|].
    { etransitivity; [exact Hov|by apply withIvl_over]. }
    { exists shr, nc. rewrite ivl_withIvl_eq by done. split_and!; [done| |done|]; unfold shr, new, chosenInterval, valid, width in *; cbn in *; lia. }
    rewrite (bind_Ret _ _ _ _ _ Hrun2).
    assert (Hi2 : ivl s2 c = Some shr) by (rewrite Hfr2; [by apply ivl_withIvl_eq|by intros [_ ?]]).
    destruct (restage s2 c shr new nc) as (Hrun & Hov3 & Hi3 & Hfr3 & Hbel & Hself & Hkids); try done.
    eexists. split_and!; [exact Hrun|done|done|done| |done| |done].
    + intros y Hy. rewrite Hfr3, Hfr2 by (done || by intros [? _]). apply ivl_withIvl_ne. intros ->. by apply Hy; constructor.
    + intros _. apply Hself. unfold shr. cbn. lia.
  - erewrite bind_Ret by done. destruct (restage s c ic new nc) as (Hrun & Hov3 & Hi3 & Hfr3 & Hbel & Hself & Hkids); try done.
    eexists. split_and!; [exact Hrun|done|done|done|done|done| |done].
    intros ->. apply Hself. cbn in Hbr. unfold intervalContains in Hbr. zbool. lia.
Qed.

Lemma splitChildren_run' s x c A B :
  over s0 s -> anc s0 r x -> kids s0 x = A ++ c :: B -> splitChildren x c s = (Ret (A, B), s).
Proof.
  intros Hov Hp Hk. unfold splitChildren. erewrite bind_Ret by (apply (over_children_run s0); [done|by apply (tree_ivl _ _ Ht)]).
  pose proof (tree_NoDup _ _ Ht x Hp) as Hnd. rewrite Hk in Hnd |- *. apply list.NoDup_app in Hnd as (_ & Hx & _).
  assert (Hs : forall l, splitAt c l (A ++ c :: B) = Some (l ++ A, B)); [|by rewrite Hs].
  assert (HcA : c ∉ A) by set_solver. clear -HcA. induction A as [|a A IH]; intros l; cbn.
  - by rewrite bool_decide_eq_true_2, app_nil_r.
  - rewrite bool_decide_eq_false_2 by set_solver. rewrite IH by set_solver. by rewrite <- app_assoc.
Qed.

Lemma concentrateInterval_run s x ix c n nc (final : bool) :
  hollow s x ix -> childOf s0 x c -> sized s0 x n -> sized s0 c nc -> n + 4 * reindexSlack rt <= width ix ->
  exists s' ic', concentrateInterval rt fuel x c final s = (Ret tt, s') /\ hollow s' c ic' /\ (final = true -> indexed s' c) /\
    width ic' = width ix - n + nc - 2 * reindexSlack rt.
Proof.
  intros Hh Hc Hn Hnc Hw. pose proof Hh as [Hov Hca Hx Hix Hv Hidx Hkx Hroot].
  pose proof Hc as Hc'. apply list_elem_of_split in Hc' as (A & B & Hk).
  inversion Hn as [? ns Hns]; subst. rewrite Hk in Hns. apply Forall2_app_inv_l in Hns as (nsA & l & HnA & Hns & ->).
  inversion Hns as [|? nc' ? nsB Hnc' HnB]; subst. rewrite (sized_fun _ _ _ _ Hnc' Hnc) in *. clear Hns Hnc' nc'.
  pose proof (sizes_nonneg _ _ _ HnA) as HA0. pose proof (sizes_nonneg _ _ _ HnB) as HB0.
  pose proof (zsum_nonneg _ HA0). pose proof (zsum_nonneg _ HB0). pose proof (sized_pos _ _ _ Hnc).
  rewrite zsum_app in Hw |- *. cbn [zsum] in Hw |- *.
  pose proof (tree_NoDup _ _ Ht x Hx) as Hnd. rewrite Hk in Hnd. apply list.NoDup_app in Hnd as (HndA & HAB & Hnd).
  apply list.NoDup_cons in Hnd as (HcB & HndB).
  assert (HapA : apart x A) by (split; [done|done|intros a Ha; unfold childOf; rewrite Hk; set_solver]).
  assert (HapB : apart x B) by (split; [done|done|intros a Ha; unfold childOf; rewrite Hk; set_solver]).
  assert (Hxout : forall a, childOf s0 x a -> ~ anc s0 a x) by (intros a Ha; by apply (child_not_anc s0 r N HN)).
  unfold concentrateInterval. rewrite (bind_Ret _ _ _ _ _ (splitChildren_run' s x c A B Hov Hx Hk)). cbn [fst snd].
  destruct (tightenBefore_run x A nsA s ix) as (s1 & Hrun1 & [Hov1 Hca1 _ HiA HsubA Hfr1]); try done; [lia|].
  rewrite (bind_Ret _ _ _ _ _ Hrun1).
  assert (Hix1 : ivl s1 x = Some ix) by (rewrite Hfr1; [done|]; intros a Ha; apply Hxout; by apply HapA).
  destruct (tightenAfter_run x B nsB s1 ix) as (s2 & Hrun2 & [Hov2 Hca2 _ HiB HsubB Hfr2]); try done; [lia|].
  rewrite (bind_Ret _ _ _ _ _ Hrun2).
  assert (Hix2 : ivl s2 x = Some ix) by (rewrite Hfr2; [done|]; intros a Ha; apply Hxout; by apply HapB).
  assert (Hfr12 : forall y, (forall a, a ∈ A ++ B -> ~ anc s0 a y) -> ivl s2 y = ivl s y).
  { intros y Hy. rewrite Hfr2, Hfr1; [done|intros a Ha; apply Hy; set_solver|intros a Ha; apply Hy; set_solver]. }
  assert (HkAB : forall a, a ∈ A ++ B -> childOf s0 x a) by (intros a Ha; unfold childOf; rewrite Hk; set_solver).
  assert (Hsubc : sub s2 c).
  { eapply (sub_kept s s2 x c (A ++ B)); [done|done|done|done|set_solver|done|done|by eapply hollow_sub]. }
  destruct (expand_run s2 x ix c nc (zsum nsA) (zsum nsB) final) as (s3 & Hrun3 & Hov3 & Hca3 & Hic3 & Hfr3 & Hbel & Hfin & Hkids); try done; [lia|].
  assert (HABc : forall a y, a ∈ A ++ B -> anc s0 a y -> ivl s3 y = ivl s2 y).
  { intros a y Ha Hay. apply Hfr3. eapply (apart_disjoint x a c); [done|by apply HkAB|done| |done]. intros ->. set_solver. }
  assert (Hsub3 : forall a, a ∈ A ++ B -> sub s3 a).
  { intros a Ha. assert (Hs2 : sub s2 a).
    { apply elem_of_app in Ha as [Ha|Ha]; [|by apply HsubB].
      eapply (sub_kept s1 s2 x a B); [done|done|done|by apply HapA| |by apply HapB|done|by apply HsubA]. intros HaB. apply (HAB a); set_solver. }
    eapply (sub_kept s2 s3 x a [c]); [done|done|done|by apply HkAB|intros Hac; assert (a = c) as -> by set_solver; set_solver| | |done].
    - intros c' Hc'. by assert (c' = c) as -> by set_solver.
    - intros y Hy. apply Hfr3, Hy. set_solver. }
  assert (Hout3 : forall y, ~ below s0 x y -> ivl s3 y = ivl s y).
  { intros y Hy. assert (Hkid : forall a, childOf s0 x a -> ~ anc s0 a y) by (intros a Ha; by apply (not_below_child s0 r N HN x)).
    rewrite Hfr3, Hfr12; [done| |by apply Hkid]. intros a Ha. by apply Hkid, HkAB. }
  exists s3, (chosenInterval ix (zsum nsA) (zsum nsB)). split_and!; [exact Hrun3| |done|].
  - split; [done|done|by eapply anc_snoc|done| | |done|].
    + unfold chosenInterval, valid, width in *. cbn. lia.
    + apply (concentrated_others s s3 x ix A c B nsA nsB); try done; [lia| |].
      * eapply (ivls_ext s1); [|done]. intros a Ha. rewrite (HABc a) by (constructor || set_solver). apply Hfr2. intros b Hb.
        apply (sibling_not_anc s0 r N Ht HN x); [done|by apply HapB|by apply HapA|]. intros ->. apply (HAB a); set_solver.
      * eapply (ivls_ext s2); [|done]. intros b Hb. apply (HABc b); [set_solver|constructor].
    + destruct Hroot as (ir & Hir & Hvr). exists ir. split; [|done]. rewrite Hout3; [done|]. intros [Hxr Hne]. apply Hne.
      by eapply sized_antisym.
  - unfold chosenInterval, width. cbn. lia.
Qed.

(** The way down to the new root. *)
Lemma concentrateLoop_run k tip newRoot s x ix n :
  hollow s x ix -> below s0 x newRoot -> anc s0 newRoot tip -> sized s0 x n -> n + 2 * reindexSlack rt * (n + 1) <= width ix ->
  n <= Z.of_nat k ->
  exists s', concentrateLoop rt fuel k tip newRoot x s = (Ret tt, s') /\ over s0 s' /\
    (forall y, anc s0 r y -> indexed s' y) /\ (exists ir, ivl s' r = Some ir /\ valid ir) /\
    exists i', ivl s' newRoot = Some i' /\ width ix - (2 * reindexSlack rt + 1) * n <= width i'.
Proof.
  revert s x ix n. induction k as [|k IH]; intros s x ix n Hh [Hxr Hne] Hnt Hn Hw Hk; pose proof (sized_pos _ _ _ Hn); [lia|].
  cbn [concentrateLoop]. apply rtc_inv in Hxr as [?|(c & Hc & Hcr)]; [done|].
  rewrite (bind_Ret _ _ _ _ _ (next_chosen s x ix c tip Hh Hc (anc_trans _ _ _ _ Hcr Hnt))).
  destruct (sized_child _ _ _ _ Hn Hc) as (nc & Hnc & Hlt). pose proof (sized_pos _ _ _ Hnc).
  destruct (concentrateInterval_run s x ix c n nc (bool_decide (c = newRoot))) as (s1 & ic & Hrun & Hh1 & Hfin & Hwc); try done; [nia|].
  rewrite (bind_Ret _ _ _ _ _ Hrun). case_bool_decide as Hcn.
  - exists s1. split_and!; [done|apply Hh1| |apply Hh1|exists ic; subst; split; [apply Hh1|nia]]. intros y Hy. destruct (decide (y = c)) as [->|]; [by apply Hfin|by apply Hh1].
  - destruct (IH s1 c ic nc) as (s' & ? & ? & ? & ? & i' & Hi' & Hw'); [done|done|done|done|nia|lia|].
    exists s'. split_and!; try done. exists i'. split; [done|nia].
Qed.
End Concentrate.

(** ** The index after the root has moved *)

Lemma over_dagIndexed g s s' r : over s s' -> indexedTree s' r -> dagIndexed g s r -> dagIndexed g s' r.
Proof.
  intros Hov Hit [_ Hcov Hpast Hcl]. pose proof (over_kids _ _ Hov) as Hk. pose proof (over_anc _ _ Hov) as Ha.
  assert (Hf : forall x, fcs s' x = fcs s x) by (intros x; by apply over_fcs). split; [done|..].
  - intros a Ha'%Ha. rewrite Hf. apply (covers_kids s s'); [done|auto].
  - intros a b Ha'%Ha Hb%Ha. rewrite <- Hpast by done. unfold cover. rewrite Ha, Hf. by setoid_rewrite Ha.
  - intros a b Hb%Ha Hin. apply Ha. eauto.
Qed.

Lemma dagIndexed_data g s s' r : rs_data s' = rs_data s -> dagIndexed g s r -> dagIndexed g s' r.
Proof.
  destruct s as [d r1 c1], s' as [d' r2 c2]. cbn. intros -> [[[H1 H2 H3 H4] H5 H6] Hcov Hpast Hcl].
  split; [split; [split|..]|..]; done.
Qed.

(** The descent of blue scores along the tree, which GHOSTDAG gives: a descendant has at
    least the blue score of its ancestor. *)
Definition blueMonotone (g : DomainHash -> option BlockGHOSTDAGData) (s : reachState) (r : DomainHash) : Prop :=
  forall a b da db, anc s r a -> anc s a b -> g a = Some da -> g b = Some db -> 0 <= blueScore da <= blueScore db.

Section Root.
Context (rt : reachabilityManager) (fuel : nat) (s : reachState) (r : DomainHash) (N : Z).
Context (Hit : indexedTree s r) (HN : sized s r N) (Hfuel : N < Z.of_nat fuel).

(** The climb from a block to the first ancestor of another one. *)
Lemma findCommonAncestor_run n cur y m :
  anc s r cur -> anc s r y -> sized s cur m -> N - m < Z.of_nat n ->
  exists a, findCommonAncestor n cur y s = (Ret a, s) /\ anc s r a /\ anc s a cur /\ anc s a y /\
    forall z, anc s r z -> anc s z cur -> anc s z y -> anc s z a.
Proof.
  revert cur m. induction n as [|n IH]; intros cur m Hc Hy Hm Hn.
  { destruct (sized_anc _ _ _ _ HN Hc) as (m' & Hm' & ? & _). rewrite (sized_fun _ _ _ _ Hm Hm') in Hn. lia. }
  cbn [findCommonAncestor]. destruct (tree_query_exact s r cur y Hit Hc Hy) as (res & Hrun & Hres). rewrite (bind_Ret _ _ _ _ _ Hrun).
  destruct res; [exists cur; split_and!; [done|done|constructor|by apply Hres|done]|].
  pose proof Hc as Hc'. apply rtc_inv_r in Hc' as [<-|(p & Hp & Hpc)]; [by destruct Hres as [_ Hres]; discriminate Hres|].
  destruct (node_interval s r Hit cur Hc) as (ic & Hic & _).
  rewrite (bind_Ret _ _ _ _ _ (parent_run s cur ltac:(eauto))), (tree_par _ _ (it_tree _ _ Hit) p cur Hp Hpc). erewrite bind_Ret by done.
  destruct (sized_anc _ _ _ _ HN Hp) as (k & Hk & _ & _). destruct (sized_child _ _ _ _ Hk Hpc) as (m' & Hm' & Hlt).
  rewrite (sized_fun _ _ _ _ Hm' Hm) in Hlt. destruct (IH p k) as (a & Hrun' & Hra & Hap & Hay & Hlow); [done|done|done|lia|].
  exists a. split_and!; [done|done|exact (anc_snoc _ _ _ _ Hap Hpc)|done|]. intros z Hz Hzc Hzy. apply Hlow; [done| |done].
  destruct (anc_child_inv s r (it_tree _ _ Hit) z p cur) as [->|]; try done. destruct Hres as [_ Hres]. by discriminate Hres.
Qed.

Context (tip : DomainHash) (dt : BlockGHOSTDAGData).
Context (Htip : anc s r tip) (Hdt : ghostdagDataStore rt tip = Some dt) (Hmono : blueMonotone (ghostdagDataStore rt) s r).
Context (Hwin : 0 < reindexWindow rt) (Hsl : 0 < reindexSlack rt) (H64 : forall a da, ghostdagDataStore rt a = Some da -> is_u64 (blueScore da)).

Lemma descendToRoot_run n cur m :
  anc s r cur -> below s cur tip -> sized s cur m -> m <= Z.of_nat n ->
  exists a, descendToRoot rt n tip (blueScore dt) cur s = (Ret a, s) /\ anc s cur a /\ anc s a tip.
Proof.
  revert cur m. induction n as [|n IH]; intros cur m Hc [Hct Hne] Hm Hn; pose proof (sized_pos _ _ _ Hm); [lia|].
  cbn [descendToRoot]. destruct (FindNextAncestor_exact s r cur tip Hit Hc Hct Hne) as (c & Hrun & Hcc & Hctip).
  rewrite (bind_Ret _ _ _ _ _ Hrun). destruct (sized_child _ _ _ _ Hm Hcc) as (k & Hk & Hlt).
  assert (Hrc : anc s r c) by by eapply anc_snoc.
  assert (Hrec : c <> tip -> exists a, descendToRoot rt n tip (blueScore dt) c s = (Ret a, s) /\ anc s cur a /\ anc s a tip).
  { intros Hcn. destruct (IH c k) as (a & Hrun' & Ha & Hat); [done|by split|done|lia|]. exists a. split_and!; [done| |done].
    eapply rtc_l; [exact Hcc|exact Ha]. }
  destruct (ghostdagDataStore rt c) as [dc|] eqn:Hdc.
  - pose proof (Hmono c tip dc dt Hrc Hctip Hdc Hdt) as Hle. pose proof (H64 _ _ Hdt) as Hu. unfold is_u64, MaxUint64 in Hu.
    erewrite bind_Ret by (unfold guard_err; by rewrite (proj2 (Z.ltb_ge _ _)) by lia).
    unfold u64. rewrite Z.mod_small by lia. destruct (Z.ltb_spec (blueScore dt - blueScore dc) (reindexWindow rt)).
    + exists cur. split_and!; [done|constructor|done].
    + apply Hrec. intros ->. rewrite Hdt in Hdc. injection Hdc as <-. lia.
  - case_bool_decide as Hctip'; [|by apply Hrec]. exists cur. split_and!; [done|constructor|done].
Qed.

(** Where the reindex root moves to: an ancestor of the tip, or nowhere. *)
Lemma findNextReindexRoot_run root droot :
  anc s r root -> root <> tip -> ghostdagDataStore rt root = Some droot ->
  exists a b, findNextReindexRoot rt fuel root tip s = (Ret (a, b), s) /\
    ((a = root /\ b = root) \/ (anc s r a /\ anc s a root /\ anc s a b /\ anc s b tip)).
Proof.
  intros Hroot Hne Hdr. unfold findNextReindexRoot, ghostdagOf. rewrite Hdt. erewrite bind_Ret by done.
  destruct (tree_query_exact s r root tip Hit Hroot Htip) as (res & Hrun & Hres). rewrite (bind_Ret _ _ _ _ _ Hrun). destruct res; cbn [negb].
  - erewrite bind_Ret by done. cbn match. destruct (sized_anc _ _ _ _ HN Hroot) as (m & Hm & HmN & _).
    destruct (descendToRoot_run fuel root m Hroot) as (a & Hrun' & Ha & Hat); [split; [by apply Hres|done]|done|lia|].
    rewrite (bind_Ret _ _ _ _ _ Hrun'). exists root, a. split; [done|]. right. split_and!; [done|constructor|done|done].
  - rewrite Hdr, bind_assoc. erewrite bind_Ret by done.
    destruct ((blueScore dt <? blueScore droot) || (u64 (blueScore dt - blueScore droot) <? reindexSlack rt)) eqn:Hb.
    { erewrite bind_Ret by done. exists root, root. by split; [|left]. }
    destruct (sized_anc _ _ _ _ HN Htip) as (m & Hm & HmN & _). pose proof (sized_pos _ _ _ Hm).
    destruct (findCommonAncestor_run fuel tip root m) as (a & Hca & Hra & Hat & Har & _); [done|done|done|lia|].
    rewrite bind_assoc, (bind_Ret _ _ _ _ _ Hca). erewrite bind_Ret by done. cbn match.
    destruct (sized_anc _ _ _ _ HN Hra) as (k & Hk & HkN & _).
    destruct (descendToRoot_run fuel a k Hra) as (b & Hrun' & Hab & Hbt); [|done|lia|].
    + split; [done|]. intros ->. pose proof (Hmono tip root dt droot Htip Har Hdt Hdr) as Hle.
      apply orb_false_iff in Hb as [Hb1 Hb2]. zbool.
      assert (blueScore dt = blueScore droot) as Heq by lia. rewrite Heq, Z.sub_diag in Hb2. change (u64 0) with 0 in Hb2. lia.
    + rewrite (bind_Ret _ _ _ _ _ Hrun'). exists a, b. split; [done|]. right. by split_and!.
Qed.
End Root.

(** [updateReindexRoot] keeps the index: for any tip it succeeds, the tree stays
    indexed and the index right, and the reindex root is what it was, or an ancestor
    of the tip.  The old root has to have room for the slack that is left on the way
    down; the new one has what is left of it, where the GHOSTDAG data of the old one is known. *)
Lemma updateReindexRoot_run `{GoArch} (rt : reachabilityManager) (fuel : nat) s r tip dt root iroot n :
  dagIndexed (ghostdagDataStore rt) s r -> anc s r tip -> ghostdagDataStore rt tip = Some dt ->
  rs_reindexRoot s = Some root -> anc s r root -> ivl s root = Some iroot -> sized s r n -> n < Z.of_nat fuel ->
  blueMonotone (ghostdagDataStore rt) s r -> (forall a da, ghostdagDataStore rt a = Some da -> is_u64 (blueScore da)) ->
  0 < reindexSlack rt -> 0 < reindexWindow rt -> n + 2 * reindexSlack rt * (n + 1) <= width iroot ->
  exists s' root', updateReindexRoot rt fuel tip s = (Ret tt, s') /\ dagIndexed (ghostdagDataStore rt) s' r /\
    (forall x, kids s' x = kids s x) /\ rs_reindexRoot s' = Some root' /\ anc s r root' /\ (root' = root \/ anc s root' tip) /\
    (is_Some (ghostdagDataStore rt root) ->
     exists i', ivl s' root' = Some i' /\ width iroot - (2 * reindexSlack rt + 1) * n <= width i').
Proof.
  intros Hdi Htip Hdt Hroot Hrr Hir Hn Hfuel Hmono H64 Hsl Hwin Hcap. pose proof (di_tree _ _ _ Hdi) as Hit.
  unfold updateReindexRoot.
  assert (Hri : reindexRoot s = (Ret root, s)) by (unfold reindexRoot, bind, get; by rewrite Hroot).
  rewrite (bind_Ret _ _ _ _ _ Hri). pose proof (sized_pos _ _ _ Hn).
  assert (Hkeep : exists i', ivl s root = Some i' /\ width iroot - (2 * reindexSlack rt + 1) * n <= width i') by (exists iroot; split; [done|nia]).
  case_bool_decide as Hrt; [exists s, root; split_and!; auto|].
  destruct (ghostdagDataStore rt root) as [droot|] eqn:Hdr.
  2: { eexists _, tip. split_and!; [done|by eapply dagIndexed_data; [|exact Hdi]|done|done|done|right; constructor|by intros []]. }
  destruct (findNextReindexRoot_run rt fuel s r n Hit Hn Hfuel tip dt Htip Hdt Hmono Hwin Hsl H64 root droot Hrr Hrt Hdr)
    as (a & b & Hrun & Hab). rewrite (bind_Ret _ _ _ _ _ Hrun). cbn match.
  case_bool_decide as Hrb; [exists s, root; split_and!; auto|].
  destruct Hab as [[-> ->]|(Hra & Har & Hab & Hbt)]; [done|].
  unfold newReindexContext. rewrite (bind_Ret _ _ _ _ _ (setCache_run _ s)). set (s1 := withCache _ s).
  assert (Hdone : forall s2, over s s2 -> indexedTree s2 r ->
    (exists i', ivl s2 b = Some i' /\ width iroot - (2 * reindexSlack rt + 1) * n <= width i') ->
    exists s' root', stageReindexRoot b s2 = (Ret tt, s') /\ dagIndexed (ghostdagDataStore rt) s' r /\
      (forall x, kids s' x = kids s x) /\ rs_reindexRoot s' = Some root' /\ anc s r root' /\ (root' = root \/ anc s root' tip) /\
      (is_Some (Some droot) -> exists i', ivl s' root' = Some i' /\ width iroot - (2 * reindexSlack rt + 1) * n <= width i')).
  { intros s2 Hov Hit2 Hroom. eexists _, b. split_and!; [done|..|done|exact (anc_trans _ _ _ _ Hra Hab)|by right|done].
    - eapply (dagIndexed_data _ s2); [done|]. by eapply over_dagIndexed.
    - intros x. rewrite <- (over_kids s s2 Hov). done. }
  assert (Hov1 : over s s1) by apply withCache_over.
  assert (Hit1 : indexedTree s1 r) by (eapply (di_tree (ghostdagDataStore rt)), dagIndexed_data; [|exact Hdi]; done).
  destruct (node_interval s r Hit a Hra) as (ia & Hia & _ & Hva).
  assert (Hw : width iroot <= width ia).
  { pose proof (anc_contains s r (it_inner s r Hit) a root ia iroot Hra Har Hia Hir) as Hc. unfold intervalContains, width in *. zbool. lia. }
  case_bool_decide as Hba; cbn [negb].
  - erewrite bind_Ret by done. apply Hdone; [done|done|]. exists ia. rewrite Hba. split; [done|nia].
  - destruct (sized_anc _ _ _ _ Hn Hra) as (m & Hm & Hmn & _).
    pose proof (sized_pos _ _ _ Hm).
    destruct (concentrateLoop_run rt fuel s r n (it_tree _ _ Hit) Hn ltac:(lia)) with (k := fuel) (tip := tip) (newRoot := b) (s := s1) (x := a) (ix := ia) (n := m)
      as (s2 & Hrun2 & Hov2 & Hidx2 & Hir2 & i' & Hi' & Hw').
    + unfold valid, width, MaxUint64 in *. nia.
    + lia.
    + split; [done|by intros x k|done|done|done| | |].
      * intros y Hy _. apply Hit1. by apply (over_anc s s1 Hov1).
      * destruct (it_indexed _ _ Hit1 a) as (i & il & Hi & _ & Hf2 & Hf); [by apply (over_anc s s1 Hov1)|].
        exists il, (Start i), (End i - 1). rewrite (over_kids s s1 Hov1) in Hf2. done.
      * apply Hit1.
    + by split.
    + done.
    + done.
    + nia.
    + lia.
    + rewrite (bind_Ret _ _ _ _ _ Hrun2). apply Hdone; [done| |exists i'; split; [done|nia]]. split; [by eapply over_tree; [|apply Hit]|done|].
      intros x Hx. apply Hidx2. by apply (over_anc s s2 Hov2).
Qed.
