(* ===== verification/ReachHistory.v ===== *)
(** * The reachability manager from its start

    The theorems of the other files are about one call in a state that is indexed.  Here
    they are put together: the calls that consensus makes, from [Init] on, in any order in
    which a block comes after its selected parent and its merge set.  No call fails, the
    capacity of the reindex root is used up slowly enough for the bound that is stated,
    and the queries answer what the GHOSTDAG data of the blocks says. *)

From S2P Require Import Prelude Float64 Interval Reachability ReachTree ReachCount ReachPropagate ReachReindex ReachAdd ReachDag ReachConcentrate.

(** ** The calls *)

Inductive call :=
| CallAddBlock (blockHash : DomainHash)
| CallUpdateReindexRoot (selectedTip : DomainHash).

Section Calls.
Context `{GoArch} (rt : reachabilityManager) (fuel : nat).

Definition runCall (c : call) : reachM unit :=
  match c with
  | CallAddBlock b => AddBlock rt fuel b
  | CallUpdateReindexRoot tip => updateReindexRoot rt fuel tip
  end.

Fixpoint runCalls (cs : list call) : reachM unit :=
  match cs with
  | [] => ret tt
  | c :: cs => runCall c ;;; runCalls cs
  end.
End Calls.

(** The blocks that are known after a call, and the calls that are made: a block is new and
    comes after its selected parent and its merge set, a tip is a block. *)
Definition learn (known : list DomainHash) (c : call) : list DomainHash :=
  match c with CallAddBlock b => b :: known | CallUpdateReindexRoot _ => known end.

Section History.
Context (g : DomainHash -> option BlockGHOSTDAGData).

Definition admissible (known : list DomainHash) (c : call) : Prop :=
  match c with
  | CallAddBlock b => b ∉ known /\ exists d p, g b = Some d /\ selectedParent d = Some p /\ p ∈ known /\
      forall a, a ∈ mergeSetBlues d ++ mergeSetReds d -> a ∈ known
  | CallUpdateReindexRoot tip => tip ∈ known
  end.

Fixpoint history (known : list DomainHash) (cs : list call) : Prop :=
  match cs with
  | [] => True
  | c :: cs => admissible known c /\ history (learn known c) cs
  end.

(** What every call keeps, with the room [w] that the reindex root has. *)
Record kept (s : reachState) (r : DomainHash) (known : list DomainHash) (w : Z) : Prop := {
  kp_index : dagIndexed g s r;
  kp_nodes : forall x, anc s r x <-> x ∈ known;
  kp_size : sized s r (len known);
  kp_edges : forall p c, anc s r p -> childOf s p c -> exists d, g c = Some d /\ selectedParent d = Some p;
  kp_data : forall x, x ∈ known -> is_Some (g x);
  kp_root : exists root i, rs_reindexRoot s = Some root /\ anc s r root /\ ivl s root = Some i /\ w <= width i
}.

(** What GHOSTDAG gives: blue scores are 64-bit and do not fall from a selected parent to
    its child. *)
Record scored : Prop := {
  sc_u64 : forall a d, g a = Some d -> is_u64 (blueScore d);
  sc_parent : forall b d p dp, g b = Some d -> selectedParent d = Some p -> g p = Some dp -> blueScore dp <= blueScore d
}.

Lemma kept_monotone s r known w : scored -> kept s r known w -> blueMonotone g s r.
Proof.
  intros [H64 Hsc] [Hdi Hnodes Hn Hedge Hdata Hroot] a b da db Ha Hab Hda. revert db.
  refine (rtc_ind_r (fun b => forall db, g b = Some db -> _) a _ _ b Hab).
  - intros db Hdb. simplify_eq. pose proof (H64 _ _ Hda) as Hu. unfold is_u64 in Hu. lia.
  - intros p c Hap Hpc IH db Hdb. pose proof (anc_trans _ _ _ _ Ha Hap) as Hp.
    destruct (Hdata p) as [dp Hdp]; [by apply Hnodes|]. destruct (Hedge p c Hp Hpc) as (d & Hd & Hsp). simplify_eq.
    specialize (IH _ Hdp). specialize (Hsc _ _ _ _ Hdb Hsp Hdp). lia.
Qed.
End History.

(** ** One call *)

Section Step.
Context `{GoArch} (rt : reachabilityManager) (fuel : nat) (r : DomainHash).
Context (Hsl : 0 < reindexSlack rt).

(** The room that one call can take in a tree of at most [m] blocks. *)
Definition callRoom (m : Z) : Z := (2 * reindexSlack rt + 2) * m.

Lemma add_kept s known w b :
  kept (ghostdagDataStore rt) s r known w -> admissible (ghostdagDataStore rt) known (CallAddBlock b) ->
  callRoom (len known + 1) <= w -> len known + 1 < Z.of_nat fuel ->
  exists s', AddBlock rt fuel b s = (Ret tt, s') /\ kept (ghostdagDataStore rt) s' r (b :: known) (w - callRoom (len known + 1)).
Proof.
  intros [Hdi Hnodes Hn Hedge Hdata (root & i & Hroot & Hrr & Hi & Hw)] (Hnew & d & p & Hd & Hsp & Hp & Hms) Hroom Hfuel.
  unfold callRoom in *. assert (Hb : ~ anc s r b) by by rewrite Hnodes. pose proof (sized_pos _ _ _ Hn).
  destruct (AddBlock_run rt fuel s r b d p root i (len known)) as (s' & Hrun & Hdi' & Hnodes' & Hroot' & Hn' & Hk & i' & Hi' & Hw');
    [done|done|done|done|by apply Hnodes|intros a Ha; apply Hnodes; auto|done|done|done|done|lia|nia|lia|].
  exists s'. split; [done|]. split; [done|..].
  - intros x. rewrite Hnodes', Hnodes. set_solver.
  - replace (len (b :: known)) with (len known + 1) by (unfold len; cbn; lia). done.
  - intros q c Hq Hc. unfold childOf in Hc. rewrite Hk in Hc. case_decide as Hqb; [set_solver|].
    apply Hnodes' in Hq as [Hq|]; [|done]. case_decide as Hqp; [|by eapply Hedge].
    apply elem_of_app in Hc as [Hc| ->%list_elem_of_singleton]; [by eapply Hedge|]. subst. eauto.
  - intros x [->|Hx]%elem_of_cons; eauto.
  - exists root, i'. split_and!; [done|by apply Hnodes'; left|done|nia].
Qed.

Context (Hsc : scored (ghostdagDataStore rt)) (Hwin : 0 < reindexWindow rt).

Lemma update_kept s known w tip :
  kept (ghostdagDataStore rt) s r known w -> tip ∈ known -> callRoom (len known + 1) <= w -> len known + 1 < Z.of_nat fuel ->
  exists s', updateReindexRoot rt fuel tip s = (Ret tt, s') /\ kept (ghostdagDataStore rt) s' r known (w - callRoom (len known + 1)).
Proof.
  intros Hkept Htip Hroom Hfuel. pose proof (kept_monotone _ _ _ _ _ Hsc Hkept) as Hmono.
  destruct Hkept as [Hdi Hnodes Hn Hedge Hdata (root & i & Hroot & Hrr & Hi & Hw)].
  unfold callRoom in *. pose proof (sized_pos _ _ _ Hn). destruct (Hdata tip Htip) as [dt Hdt].
  destruct (updateReindexRoot_run rt fuel s r tip dt root i (len known)) as (s' & root' & Hrun & Hdi' & Hk & Hroot' & Hrr' & _ & Hroom');
    [done|by apply Hnodes|done|done|done|done|done|lia|done|apply Hsc|done|done|nia|].
  assert (Ha : forall x y, anc s' x y <-> anc s x y) by (intros x y; by apply anc_kids).
  destruct Hroom' as (i' & Hi' & Hw'); [by apply Hdata, Hnodes|].
  exists s'. split; [done|]. split; [done|..].
  - intros x. by rewrite Ha.
  - by apply (sized_ext s).
  - intros q c Hq Hc. apply Hedge; [by apply Ha|]. unfold childOf in *. by rewrite <- Hk.
  - done.
  - exists root', i'. split_and!; [done|by apply Ha|done|nia].
Qed.

(** Any number of calls. *)
Lemma runCalls_kept cs s known w m :
  kept (ghostdagDataStore rt) s r known w -> history (ghostdagDataStore rt) known cs ->
  len known + len cs + 1 <= m -> len cs * callRoom m <= w -> m < Z.of_nat fuel ->
  exists s', runCalls rt fuel cs s = (Ret tt, s') /\
    kept (ghostdagDataStore rt) s' r (foldl learn known cs) (w - len cs * callRoom m).
Proof.
  revert s known w. induction cs as [|c cs IH]; intros s known w Hkept Hh Hm Hroom Hfuel.
  { exists s. split; [done|]. replace (len [] * callRoom m) with 0 by (unfold len; cbn; lia). by rewrite Z.sub_0_r. }
  destruct Hh as [Hc Hh]. assert (Hlen : len (c :: cs) = len cs + 1) by (unfold len; cbn; lia). rewrite Hlen in *.
  assert (Hl0 : 0 <= len cs) by (unfold len; lia). assert (Hk0 : 0 <= len known) by (unfold len; lia).
  assert (Hcall : callRoom (len known + 1) <= callRoom m) by (unfold callRoom; nia).
  assert (Hpos : 0 <= callRoom (len known + 1)) by (unfold callRoom; nia).
  assert (Hstep : exists s1, runCall rt fuel c s = (Ret tt, s1) /\
    kept (ghostdagDataStore rt) s1 r (learn known c) (w - callRoom (len known + 1)) /\ len (learn known c) <= len known + 1).
  { destruct c as [b|tip]; cbn [learn runCall].
    - destruct (add_kept s known w b) as (s1 & ? & ?); [done|done|nia|lia|]. exists s1. split_and!; [done|done|unfold len; cbn; lia].
    - destruct (update_kept s known w tip) as (s1 & ? & ?); [done|done|nia|lia|]. exists s1. split_and!; [done|done|lia]. }
  destruct Hstep as (s1 & Hrun & Hkept1 & Hlearn). cbn [runCalls foldl]. rewrite (bind_Ret _ _ _ _ _ Hrun).
  destruct (IH s1 (learn known c) (w - callRoom (len known + 1))) as (s' & Hrun' & Hkept'); [done|done|lia|nia|done|].
  exists s'. split; [done|]. destruct Hkept' as [? ? ? ? ? (root & i & ? & ? & ? & ?)]. split; try done.
  exists root, i. split_and!; [done|done|done|nia].
Qed.
End Step.

(** ** From the start *)

(** The GHOSTDAG data of the virtual genesis, which has no parents. *)
Definition noParents (d : BlockGHOSTDAGData) : Prop :=
  selectedParent d = None /\ mergeSetBlues d = [] /\ mergeSetReds d = [].

Lemma Init_kept g s vg d :
  rs_data s !! vg = None -> g vg = Some d -> noParents d ->
  exists s', Init vg s = (Ret tt, s') /\ kept g s' vg [vg] (MaxUint64 - 1).
Proof.
  intros Hnew Hd (Hsp & Hb & Hr). unfold Init. erewrite bind_Ret by done. rewrite bool_decide_eq_false_2 by (rewrite Hnew; by intros []).
  eexists. split; [done|]. set (s' := MkReachState _ _ _).
  assert (Hl : rs_data s' !! vg = Some newReachabilityTreeData) by apply lookup_insert_eq.
  assert (Hk : kids s' vg = []) by (unfold kids; by rewrite Hl).
  assert (Hi : ivl s' vg = Some (newReachabilityInterval 1 (MaxUint64 - 1))) by (unfold ivl; by rewrite Hl).
  assert (Ha : forall x, anc s' vg x <-> x ∈ [vg]).
  { intros x. rewrite list_elem_of_singleton. split; [by apply leaf_anc|intros ->; constructor]. }
  assert (Hpast : forall a, ~ inPast g a vg).
  { intros a Hp. inversion Hp as [? ? d' Hd'|? ? d' Hd' Hin|? ? d' ? Hd']; subst; simplify_eq. rewrite Hb, Hr in Hin. set_solver. }
  split.
  - split.
    + apply (indexedTree_of_nodes _ _ [vg]); [set_solver|unfold par; by rewrite Hl|eexists; split; [done|by unfold valid; cbn]|].
      constructor; [|constructor]. rewrite Hk. split_and!; [constructor|constructor|].
      exists (newReachabilityInterval 1 (MaxUint64 - 1)), []. rewrite Hk. split_and!; [done|done|constructor|done].
    + intros a ->%Ha%list_elem_of_singleton. unfold fcs. rewrite Hl. split; [constructor|set_solver].
    + intros a b ->%Ha%list_elem_of_singleton ->%Ha%list_elem_of_singleton. split; [by left|]. intros _. left. constructor.
    + intros a b ->%Ha%list_elem_of_singleton Hp. by apply Hpast in Hp.
  - done.
  - change (len [vg]) with (1 + zsum []). constructor. rewrite Hk. constructor.
  - intros p c ->%Ha%list_elem_of_singleton. unfold childOf. rewrite Hk. set_solver.
  - intros x ->%list_elem_of_singleton. eauto.
  - exists vg, (newReachabilityInterval 1 (MaxUint64 - 1)). split_and!; [done|constructor|done|done].
Qed.

(** C13. The reachability manager keeps its promise over any history: from an empty
    store, after [Init] and any calls of [AddBlock] and [UpdateReindexRoot] in which a
    block comes after its selected parent and its merge set, no call has failed, and
    [IsDAGAncestorOf] tells of any two blocks whether the first is the second or in its
    past.  The number [k] of calls is bounded by [k * (2 * slack + 2) * (k + 2) < 2 ^ 64 - 1];
    for the slack of the code that is more than forty million calls. *)
Theorem reachability_history `{GoArch} (rt : reachabilityManager) (fuel : nat) s vg dg cs :
  rs_data s !! vg = None -> ghostdagDataStore rt vg = Some dg -> noParents dg -> scored (ghostdagDataStore rt) ->
  0 < reindexSlack rt -> 0 < reindexWindow rt -> history (ghostdagDataStore rt) [vg] cs ->
  len cs * ((2 * reindexSlack rt + 2) * (len cs + 2)) < MaxUint64 -> len cs + 2 < Z.of_nat fuel ->
  exists s', (Init vg ;;; runCalls rt fuel cs) s = (Ret tt, s') /\
    forall a b, a ∈ foldl learn [vg] cs -> b ∈ foldl learn [vg] cs ->
      exists res, IsDAGAncestorOf a b s' = (Ret res, s') /\ (res = true <-> a = b \/ inPast (ghostdagDataStore rt) a b).
Proof.
  intros Hnew Hdg Hno Hsc Hsl Hwin Hh Hcap Hfuel.
  destruct (Init_kept (ghostdagDataStore rt) s vg dg) as (s1 & Hrun1 & Hk1); [done..|].
  destruct (runCalls_kept rt fuel vg Hsl Hsc Hwin cs s1 [vg] (MaxUint64 - 1) (len cs + 2)) as (s' & Hrun & Hk);
    [done|done|unfold len; cbn; lia|unfold callRoom; lia|done|].
  exists s'. split; [by rewrite (bind_Ret _ _ _ _ _ Hrun1)|].
  intros a b Ha Hb. apply (IsDAGAncestorOf_run _ s' vg); [apply Hk|by apply Hk..].
Qed.

(** A DAG of four blocks: two above the virtual genesis, and one that merges them. *)
Definition diamond (b : DomainHash) : option BlockGHOSTDAGData :=
  if bool_decide (b = hashOf 0) then Some (MkGHOSTDAGData 0 0 0 None [] [] ∅)
  else if bool_decide (b = hashOf 1) then Some (MkGHOSTDAGData 1 0 0 (Some (hashOf 0)) [hashOf 0] [] ∅)
  else if bool_decide (b = hashOf 2) then Some (MkGHOSTDAGData 1 0 0 (Some (hashOf 0)) [hashOf 0] [] ∅)
  else if bool_decide (b = hashOf 3) then Some (MkGHOSTDAGData 3 0 0 (Some (hashOf 1)) [hashOf 1; hashOf 2] [] ∅)
  else None.

Definition diamondManager : reachabilityManager := MkManager diamond defaultReindexSlack defaultReindexWindow.

Definition diamondCalls : list call :=
  [CallAddBlock (hashOf 1); CallUpdateReindexRoot (hashOf 1); CallAddBlock (hashOf 2); CallAddBlock (hashOf 3);
   CallUpdateReindexRoot (hashOf 3)].

Lemma diamond_scored : scored diamond.
Proof.
  split.
  - intros a d. unfold diamond. repeat case_bool_decide; intros [= <-]; by vm_compute.
  - intros b d p dp. unfold diamond at 1. repeat case_bool_decide; intros [= <-]; cbn; intros [= <-]; vm_compute; by intros [= <-].
Qed.

Lemma reachability_history_witness :
  exists s', (Init (hashOf 0) ;;; @runCalls (Build_GoArch (fun _ => 0)) diamondManager 10 diamondCalls) (MkReachState ∅ None ∅) = (Ret tt, s') /\
    forall a b, a ∈ foldl learn [hashOf 0] diamondCalls -> b ∈ foldl learn [hashOf 0] diamondCalls ->
      exists res, IsDAGAncestorOf a b s' = (Ret res, s') /\ (res = true <-> a = b \/ inPast diamond a b).
Proof.
  apply (reachability_history diamondManager 10 (MkReachState ∅ None ∅) (hashOf 0) (MkGHOSTDAGData 0 0 0 None [] [] ∅) diamondCalls).
  - done.
  - done.
  - done.
  - exact diamond_scored.
  - done.
  - done.
  - cbn. split_and!; try (by apply (bool_decide_unpack _); vm_compute); try done.
    all: eexists _, _; split_and!; [vm_compute; reflexivity|reflexivity|..]; cbn; set_solver.
  - by vm_compute.
  - by vm_compute.
Defined.

(** C14. [AddBlock] keeps the index of the DAG, whatever the layout of its intervals: for a
    block whose selected parent and merge set are in the tree it succeeds, by whichever
    way of reindexing, and afterwards the tree is indexed, the future covering sets are
    ordered, and together they give the past of every block, the new one included.  The
    new block is the last child of its selected parent. *)
Theorem AddBlock_indexes `{GoArch} (rt : reachabilityManager) (fuel : nat) s r b d p root iroot n :
  dagIndexed (ghostdagDataStore rt) s r -> ~ anc s r b -> ghostdagDataStore rt b = Some d ->
  selectedParent d = Some p -> anc s r p -> (forall a, a ∈ mergeSetBlues d ++ mergeSetReds d -> anc s r a) ->
  rs_reindexRoot s = Some root -> anc s r root -> ivl s root = Some iroot -> sized s r n ->
  0 <= reindexSlack rt -> (reindexSlack rt + 2) * (n + 1) <= width iroot -> n + 1 < Z.of_nat fuel ->
  exists s', AddBlock rt fuel b s = (Ret tt, s') /\ dagIndexed (ghostdagDataStore rt) s' r /\ sized s' r (n + 1) /\
    forall x, kids s' x = if decide (x = b) then [] else if decide (x = p) then kids s x ++ [b] else kids s x.
Proof.
  intros. destruct (AddBlock_run rt fuel s r b d p root iroot n) as (s' & Hrun & Hdi & _ & _ & Hn & Hk & _); [done..|].
  by exists s'.
Qed.

Lemma AddBlock_indexes_witness :
  exists s s', Init (hashOf 0) (MkReachState ∅ None ∅) = (Ret tt, s) /\
    @AddBlock (Build_GoArch (fun _ => 0)) diamondManager 10 (hashOf 1) s = (Ret tt, s') /\ dagIndexed diamond s' (hashOf 0).
Proof.
  destruct (Init_kept diamond (MkReachState ∅ None ∅) (hashOf 0) (MkGHOSTDAGData 0 0 0 None [] [] ∅)) as (s & Hrun & Hk); [done..|].
  destruct Hk as [Hdi Hnodes Hn _ _ (root & i & Hroot & Hrr & Hi & Hw)].
  destruct (@AddBlock_indexes (Build_GoArch (fun _ => 0)) diamondManager 10 s (hashOf 0) (hashOf 1)
    (MkGHOSTDAGData 1 0 0 (Some (hashOf 0)) [hashOf 0] [] ∅) (hashOf 0) root i 1) as (s' & Hadd & Hdi' & _).
  - exact Hdi.
  - rewrite Hnodes. by apply (bool_decide_unpack _); vm_compute.
  - done.
  - done.
  - constructor.
  - intros a ->%list_elem_of_singleton. constructor.
  - done.
  - done.
  - done.
  - exact Hn.
  - done.
  - etransitivity; [|exact Hw]. by vm_compute.
  - done.
  - exists s, s'. done.
Defined.

(** C15. [updateReindexRoot] keeps the index, whatever its layout: for any tip it succeeds,
    the tree is the same and still indexed, and the reindex root is what it was or an
    ancestor of the tip.  The old root has to have room for the slack that is left on the
    way down. *)
Theorem updateReindexRoot_indexes `{GoArch} (rt : reachabilityManager) (fuel : nat) s r tip dt root iroot n :
  dagIndexed (ghostdagDataStore rt) s r -> anc s r tip -> ghostdagDataStore rt tip = Some dt ->
  rs_reindexRoot s = Some root -> anc s r root -> ivl s root = Some iroot -> sized s r n -> n < Z.of_nat fuel ->
  blueMonotone (ghostdagDataStore rt) s r -> (forall a da, ghostdagDataStore rt a = Some da -> is_u64 (blueScore da)) ->
  0 < reindexSlack rt -> 0 < reindexWindow rt -> n + 2 * reindexSlack rt * (n + 1) <= width iroot ->
  exists s' root', updateReindexRoot rt fuel tip s = (Ret tt, s') /\ dagIndexed (ghostdagDataStore rt) s' r /\
    (forall x, kids s' x = kids s x) /\ rs_reindexRoot s' = Some root' /\ anc s r root' /\ (root' = root \/ anc s root' tip).
Proof.
  intros. destruct (updateReindexRoot_run rt fuel s r tip dt root iroot n) as (s' & root' & ? & ? & ? & ? & ? & ? & _); [done..|].
  by exists s', root'.
Qed.

Lemma updateReindexRoot_indexes_witness :
  exists s s', runCalls (H := Build_GoArch (fun _ => 0)) diamondManager 10 [CallAddBlock (hashOf 1)] s = (Ret tt, s') /\
    exists s2, @updateReindexRoot (Build_GoArch (fun _ => 0)) diamondManager 10 (hashOf 1) s' = (Ret tt, s2) /\ dagIndexed diamond s2 (hashOf 0).
Proof.
  destruct (Init_kept diamond (MkReachState ∅ None ∅) (hashOf 0) (MkGHOSTDAGData 0 0 0 None [] [] ∅)) as (s & _ & Hk); [done..|].
  destruct (@runCalls_kept (Build_GoArch (fun _ => 0)) diamondManager 10 (hashOf 0) eq_refl diamond_scored eq_refl [CallAddBlock (hashOf 1)]
    s [hashOf 0] (MaxUint64 - 1) 3) as (s' & Hrun & Hk').
  - exact Hk.
  - split; [|done]. split; [by apply (bool_decide_unpack _); vm_compute|].
    exists (MkGHOSTDAGData 1 0 0 (Some (hashOf 0)) [hashOf 0] [] ∅), (hashOf 0). split_and!; [done|done|set_solver|cbn; set_solver].
  - done.
  - by vm_compute.
  - done.
  - pose proof (kept_monotone _ _ _ _ _ diamond_scored Hk') as Hmono.
    destruct Hk' as [Hdi Hnodes Hn _ _ (root & i & Hroot & Hrr & Hi & Hw)].
    destruct (@updateReindexRoot_indexes (Build_GoArch (fun _ => 0)) diamondManager 10 s' (hashOf 0) (hashOf 1)
      (MkGHOSTDAGData 1 0 0 (Some (hashOf 0)) [hashOf 0] [] ∅) root i 2) as (s2 & root' & Hup & Hdi2 & _).
    + exact Hdi.
    + apply Hnodes. cbn. set_solver.
    + done.
    + done.
    + done.
    + done.
    + exact Hn.
    + done.
    + exact Hmono.
    + apply diamond_scored.
    + done.
    + done.
    + etransitivity; [|exact Hw]. by vm_compute.
    + exists s, s'. split; [done|]. by exists s2.
Defined.
