(* ===== verification/Difficulty.v ===== *)
(** * Difficulty bits and work

    [src/util/difficulty/difficulty.go]: the compact form of proof-of-work targets
    and the work of a block.  A [big.Int] is an integer; the pool of scratch integers
    only saves allocations.  [bitLen] of [Float64] is the bit length. *)

From S2P Require Import Prelude Float64.

Definition oneLsh256 : Z := Z.shiftl 1 256.

Definition CompactToBig (compact : Z) : Z :=
  let mantissa := Z.land compact 0x007fffff in
  let isNegative := negb (Z.land compact 0x00800000 =? 0) in
  let exponent := Z.shiftr compact 24 in
  let destination :=
    if exponent <=? 3 then Z.shiftr mantissa (8 * (3 - exponent))
    else Z.shiftl mantissa (8 * (exponent - 3)) in
  if isNegative then - destination else destination.

(** [uint32(bits[0])] of the absolute value, capped. *)
Definition lowWord (n : Z) : Z :=
  let word := u64 (Z.abs n) in
  if word <=? MaxUint32 then word else MaxUint32.

Definition BigToCompact (n : Z) : Z :=
  if n =? 0 then 0
  else
    let exponent := (bitLen (Z.abs n) + 7) / 8 in
    let mantissa :=
      if exponent <=? 3 then u32 (Z.shiftl (lowWord n) (8 * (3 - exponent)))
      else lowWord (Z.shiftr n (8 * (exponent - 3))) in
    let '(mantissa, exponent) :=
      if negb (Z.land mantissa 0x00800000 =? 0) then (Z.shiftr mantissa 8, exponent + 1)
      else (mantissa, exponent) in
    let exponentUint32 := if exponent <=? MaxUint32 then exponent else MaxUint32 in
    let compact := Z.lor (u32 (Z.shiftl exponentUint32 24)) mantissa in
    if n <? 0 then Z.lor compact 0x00800000 else compact.

Definition CalcWork (bits : Z) : Z :=
  let difficultyNum := CompactToBig bits in
  if difficultyNum <=? 0 then 0 else oneLsh256 / (difficultyNum + 1).

(** ** The compact form *)

Lemma bitLen_pos n : 0 < n -> 0 < bitLen n.
Proof. intros Hn. unfold bitLen. destruct (Z.leb_spec n 0); [lia|]. pose proof (Z.log2_nonneg n). lia. Qed.

(** The number of bytes of a number. *)
Lemma byteLen_bounds n e : 0 < n -> e = (bitLen n + 7) / 8 -> 1 <= e /\ 2 ^ (8 * (e - 1)) <= n < 2 ^ (8 * e).
Proof.
  intros Hn ->. pose proof (bitLen_pos n Hn) as Hl. destruct (bitLen_bounds n Hn) as (Hlo & Hhi).
  pose proof (Z.div_mod (bitLen n + 7) 8 ltac:(lia)). pose proof (Z.mod_pos_bound (bitLen n + 7) 8 ltac:(lia)).
  set (e := (bitLen n + 7) / 8) in *. split; [lia|]. split.
  - etransitivity; [|exact Hlo]. apply Z.pow_le_mono_r; lia.
  - eapply Z.lt_le_trans; [exact Hhi|]. apply Z.pow_le_mono_r; lia.
Qed.

Lemma lowWord_id n : 0 <= n <= MaxUint32 -> lowWord n = n.
Proof.
  intros Hn. unfold lowWord, u64. unfold MaxUint32 in *. rewrite Z.abs_eq, Z.mod_small by lia.
  by rewrite (proj2 (Z.leb_le _ _)) by lia.
Qed.

Lemma pow2_split a b : 0 <= b <= a -> 2 ^ a = 2 ^ (a - b) * 2 ^ b.
Proof. intros. rewrite <- Z.pow_add_r by lia. f_equal. lia. Qed.

(** A compact number from its exponent and its mantissa. *)
Definition compactOf (e m : Z) : Z := e * 2 ^ 24 + m.

Lemma compactOf_lor e m : 0 <= e < 256 -> 0 <= m < 2 ^ 24 -> Z.lor (u32 (Z.shiftl e 24)) m = compactOf e m.
Proof.
  intros He Hm. unfold u32, compactOf. rewrite Z.shiftl_mul_pow2, Z.mod_small by lia.
  rewrite Z.lor_comm, lor_add_low by lia. lia.
Qed.

Lemma CompactToBig_compactOf e m : 0 <= e -> 0 <= m < 2 ^ 23 ->
  CompactToBig (compactOf e m) = if e <=? 3 then m / 2 ^ (8 * (3 - e)) else m * 2 ^ (8 * (e - 3)).
Proof.
  intros He Hm. unfold CompactToBig, compactOf.
  assert (Hland : Z.land (e * 2 ^ 24 + m) 0x007fffff = m).
  { change 0x007fffff with (Z.ones 23). rewrite Z.land_ones by lia.
    replace (e * 2 ^ 24 + m) with (m + (e * 2) * 2 ^ 23) by lia. rewrite Z.mod_add by lia. by apply Z.mod_small. }
  assert (Hsign : Z.land (e * 2 ^ 24 + m) 0x00800000 = 0).
  { apply Z.bits_inj_0. intros i. rewrite Z.land_spec. change 0x00800000 with (2 ^ 23).
    destruct (Z.eqb_spec i 23) as [->|Hi]; [|rewrite Z.pow2_bits_false by done; apply andb_false_r].
    rewrite Z.testbit_eqb by lia. replace (e * 2 ^ 24 + m) with (m + (e * 2) * 2 ^ 23) by lia.
    rewrite Z.div_add, Z.div_small by lia. rewrite Z.add_0_l, Z.mod_mul by lia. done. }
  assert (Hexp : Z.shiftr (e * 2 ^ 24 + m) 24 = e).
  { rewrite Z.shiftr_div_pow2, Z.add_comm, Z.div_add, Z.div_small by lia. lia. }
  rewrite Hland, Hsign, Hexp. cbn [negb Z.eqb]. destruct (Z.leb_spec e 3).
  - apply Z.shiftr_div_pow2. lia.
  - apply Z.shiftl_mul_pow2. lia.
Qed.

(** The three leading bytes of a number of [e] bytes. *)
Definition leading (n e : Z) : Z := if e <=? 3 then n * 2 ^ (8 * (3 - e)) else n / 2 ^ (8 * (e - 3)).

Lemma leading_bounds n e : 1 <= e -> 2 ^ (8 * (e - 1)) <= n < 2 ^ (8 * e) -> 2 ^ 16 <= leading n e < 2 ^ 24.
Proof.
  intros He Hn. unfold leading. destruct (Z.leb_spec e 3).
  - pose proof (pow2_split 24 (8 * (3 - e)) ltac:(lia)) as H1. pose proof (pow2_split 16 (8 * (3 - e)) ltac:(lia)) as H2.
    replace (24 - 8 * (3 - e)) with (8 * e) in H1 by lia. replace (16 - 8 * (3 - e)) with (8 * (e - 1)) in H2 by lia.
    pose proof (Z.pow_pos_nonneg 2 (8 * (3 - e)) ltac:(lia) ltac:(lia)). nia.
  - pose proof (pow2_split (8 * e) (8 * (e - 3)) ltac:(lia)) as H1. pose proof (pow2_split (8 * (e - 1)) (8 * (e - 3)) ltac:(lia)) as H2.
    replace (8 * e - 8 * (e - 3)) with 24 in H1 by lia. replace (8 * (e - 1) - 8 * (e - 3)) with 16 in H2 by lia.
    pose proof (Z.pow_pos_nonneg 2 (8 * (e - 3)) ltac:(lia) ltac:(lia)).
    split; [apply Z.div_le_lower_bound; lia|apply Z.div_lt_upper_bound; lia].
Qed.

Lemma BigToCompact_pos n e :
  0 < n -> e = (bitLen n + 7) / 8 -> e < 255 ->
  BigToCompact n = if 2 ^ 23 <=? leading n e then compactOf (e + 1) (leading n e / 2 ^ 8) else compactOf e (leading n e).
Proof.
  intros Hn He He255. destruct (byteLen_bounds n e Hn He) as (He1 & Hb). pose proof (leading_bounds n e He1 Hb) as Hl.
  unfold BigToCompact. rewrite (proj2 (Z.eqb_neq n 0)), Z.abs_eq, <- He by lia.
  assert (Hm : (if e <=? 3 then u32 (Z.shiftl (lowWord n) (8 * (3 - e))) else lowWord (Z.shiftr n (8 * (e - 3)))) = leading n e).
  { unfold leading in *. destruct (Z.leb_spec e 3).
    - assert (n < 2 ^ 24) by (eapply Z.lt_le_trans; [apply Hb|apply Z.pow_le_mono_r; lia]).
      rewrite lowWord_id by (unfold MaxUint32; lia). rewrite Z.shiftl_mul_pow2 by lia. unfold u32. apply Z.mod_small. lia.
    - rewrite Z.shiftr_div_pow2 by lia. apply lowWord_id. unfold MaxUint32. lia. }
  rewrite Hm. set (m := leading n e) in *. rewrite (proj2 (Z.ltb_ge n 0)) by lia.
  assert (Hbit : negb (Z.land m 0x00800000 =? 0) = (2 ^ 23 <=? m)).
  { change 0x00800000 with (2 ^ 23). assert (Htb : Z.testbit m 23 = (2 ^ 23 <=? m)).
    { rewrite Z.testbit_eqb by lia. destruct (Z.leb_spec (2 ^ 23) m).
      - replace (m / 2 ^ 23) with 1; [done|]. apply (Z.div_unique _ _ _ (m - 2 ^ 23)); lia.
      - by rewrite Z.div_small by lia. }
    rewrite <- Htb. destruct (Z.eqb_spec (Z.land m (2 ^ 23)) 0) as [H0|H0]; cbn.
    - assert (Hz : Z.testbit (Z.land m (2 ^ 23)) 23 = false) by (rewrite H0; apply Z.bits_0).
      rewrite Z.land_spec, Z.pow2_bits_true, andb_true_r in Hz by lia. done.
    - destruct (Z.testbit m 23) eqn:Ht; [done|]. exfalso. apply H0. apply Z.bits_inj_0. intros i. rewrite Z.land_spec.
      destruct (Z.eqb_spec i 23) as [->|]; [by rewrite Ht|]. rewrite Z.pow2_bits_false by done. apply andb_false_r. }
  rewrite Hbit. destruct (Z.leb_spec (2 ^ 23) m).
  - rewrite Z.shiftr_div_pow2 by lia. rewrite (proj2 (Z.leb_le _ _)) by (unfold MaxUint32; lia).
    apply compactOf_lor; [lia|]. split; [apply Z.div_pos; lia|apply Z.div_lt_upper_bound; lia].
  - rewrite (proj2 (Z.leb_le _ _)) by (unfold MaxUint32; lia). apply compactOf_lor; lia.
Qed.

(** The number that the compact form keeps. *)
Definition truncated (n e : Z) : Z :=
  if 2 ^ 23 <=? leading n e then (if e <=? 2 then n else n / 2 ^ (8 * (e - 2)) * 2 ^ (8 * (e - 2)))
  else if e <=? 3 then n else n / 2 ^ (8 * (e - 3)) * 2 ^ (8 * (e - 3)).

Lemma CompactToBig_BigToCompact n e :
  0 < n -> e = (bitLen n + 7) / 8 -> e < 255 -> CompactToBig (BigToCompact n) = truncated n e.
Proof.
  intros Hn He He255. destruct (byteLen_bounds n e Hn He) as (He1 & Hb). pose proof (leading_bounds n e He1 Hb) as Hl.
  rewrite (BigToCompact_pos n e Hn He He255). unfold truncated. destruct (Z.leb_spec (2 ^ 23) (leading n e)) as [Hc|Hc].
  - rewrite CompactToBig_compactOf by (lia || (split; [apply Z.div_pos; lia|apply Z.div_lt_upper_bound; lia])).
    unfold leading. destruct (Z.leb_spec e 2), (Z.leb_spec (e + 1) 3), (Z.leb_spec e 3); try lia.
    + replace (8 * (3 - e)) with (8 + 8 * (3 - (e + 1))) by lia. rewrite Z.pow_add_r by lia.
      rewrite (Z.mul_comm (2 ^ 8)), Z.mul_assoc, Z.div_mul by lia. apply Z.div_mul. apply Z.pow_nonzero; lia.
    + assert (e = 3) as -> by lia. cbn [Z.sub Z.mul Z.add]. by rewrite Z.mul_1_r.
    + rewrite Z.div_div by lia. rewrite <- Z.pow_add_r by lia.
      replace (8 * (e - 3) + 8) with (8 * (e - 2)) by lia. by replace (8 * (e + 1 - 3)) with (8 * (e - 2)) by lia.
  - rewrite CompactToBig_compactOf by lia. unfold leading. destruct (Z.leb_spec e 3); [|done]. apply Z.div_mul. apply Z.pow_nonzero; lia.
Qed.

Lemma trunc_bounds n s : 0 <= s -> 2 ^ s <= n -> let t := n / 2 ^ s * 2 ^ s in 0 < t <= n /\ n - t < 2 ^ s.
Proof.
  intros Hs Hn. pose proof (Z.pow_pos_nonneg 2 s ltac:(lia) Hs). cbn zeta.
  pose proof (Z.div_mod n (2 ^ s) ltac:(lia)). pose proof (Z.mod_pos_bound n (2 ^ s) ltac:(lia)).
  assert (1 <= n / 2 ^ s) by (apply Z.div_le_lower_bound; lia). nia.
Qed.

Lemma truncated_bounds n e : 1 <= e -> 2 ^ (8 * (e - 1)) <= n < 2 ^ (8 * e) -> 0 < truncated n e <= n /\ (n - truncated n e) * 2 ^ 15 <= n.
Proof.
  intros He Hn. pose proof (Z.pow_pos_nonneg 2 (8 * (e - 1)) ltac:(lia) ltac:(lia)). unfold truncated.
  destruct (Z.leb_spec (2 ^ 23) (leading n e)) as [Hc|Hc].
  - destruct (Z.leb_spec e 2); [lia|].
    assert (Hbig : 2 ^ 15 * 2 ^ (8 * (e - 2)) <= n).
    { unfold leading in Hc. rewrite <- Z.pow_add_r by lia. destruct (Z.leb_spec e 3).
      - assert (e = 3) as -> by lia. cbn [Z.sub Z.mul Z.add] in *. lia.
      - pose proof (Z.mul_div_le n (2 ^ (8 * (e - 3))) ltac:(apply Z.pow_pos_nonneg; lia)).
        replace (15 + 8 * (e - 2)) with (23 + 8 * (e - 3)) by lia. rewrite Z.pow_add_r by lia. nia. }
    destruct (trunc_bounds n (8 * (e - 2))) as [? ?]; [lia|lia|]. cbn zeta in *. lia.
  - destruct (Z.leb_spec e 3); [lia|].
    assert (Hbig : 2 ^ 16 * 2 ^ (8 * (e - 3)) <= n).
    { rewrite <- Z.pow_add_r by lia. replace (16 + 8 * (e - 3)) with (8 * (e - 1)) by lia. lia. }
    destruct (trunc_bounds n (8 * (e - 3))) as [? ?]; [lia|lia|]. cbn zeta in *. lia.
Qed.

Lemma byteLen_unique t e : 1 <= e -> 2 ^ (8 * (e - 1)) <= t < 2 ^ (8 * e) -> e = (bitLen t + 7) / 8.
Proof.
  intros He Ht. pose proof (Z.pow_pos_nonneg 2 (8 * (e - 1)) ltac:(lia) ltac:(lia)).
  destruct (byteLen_bounds t _ ltac:(lia) eq_refl) as (He' & Ht'). set (e' := (bitLen t + 7) / 8) in *.
  destruct (Z.lt_trichotomy e e') as [Hlt|[?|Hlt]]; [exfalso|done|exfalso].
  - pose proof (Z.pow_le_mono_r 2 (8 * e) (8 * (e' - 1)) ltac:(lia) ltac:(lia)). lia.
  - pose proof (Z.pow_le_mono_r 2 (8 * e') (8 * (e - 1)) ltac:(lia) ltac:(lia)). lia.
Qed.

Lemma trunc_lower n s k : 0 <= s <= k -> 2 ^ k <= n -> 2 ^ k <= n / 2 ^ s * 2 ^ s.
Proof.
  intros Hs Hn. pose proof (Z.pow_pos_nonneg 2 s ltac:(lia) ltac:(lia)). pose proof (pow2_split k s ltac:(lia)) as Hk.
  rewrite Hk. apply Z.mul_le_mono_nonneg_r; [lia|]. apply Z.div_le_lower_bound; lia.
Qed.

Lemma leading_kept n e : 1 <= e ->
  leading (truncated n e) e = leading n e \/ (2 ^ 23 <= leading n e /\ leading (truncated n e) e = leading n e / 2 ^ 8 * 2 ^ 8).
Proof.
  intros He. unfold truncated. destruct (Z.leb_spec (2 ^ 23) (leading n e)) as [Hc|Hc].
  - destruct (Z.leb_spec e 2) as [H2|H2]; [by left|]. right. split; [done|]. unfold leading. destruct (Z.leb_spec e 3).
    + assert (e = 3) as -> by lia. cbn [Z.sub Z.mul Z.add]. by rewrite !Z.mul_1_r.
    + rewrite Z.div_div by (apply Z.pow_nonzero || apply Z.pow_pos_nonneg; lia).
      rewrite <- Z.pow_add_r by lia. replace (8 * (e - 3) + 8) with (8 * (e - 2)) by lia.
      replace (8 * (e - 2)) with (8 + 8 * (e - 3)) at 2 by lia. rewrite Z.pow_add_r, Z.mul_assoc by lia.
      apply Z.div_mul. apply Z.pow_nonzero; lia.
  - left. destruct (Z.leb_spec e 3) as [H3|H3]; [done|]. unfold leading. rewrite (proj2 (Z.leb_gt _ _)) by lia.
    apply Z.div_mul. apply Z.pow_nonzero; lia.
Qed.

Lemma truncated_idempotent n e :
  0 < n -> e = (bitLen n + 7) / 8 -> e < 255 -> BigToCompact (truncated n e) = BigToCompact n.
Proof.
  intros Hn He He255. destruct (byteLen_bounds n e Hn He) as (He1 & Hb). destruct (truncated_bounds n e He1 Hb) as [Hk _].
  assert (Hlow : 2 ^ (8 * (e - 1)) <= truncated n e).
  { unfold truncated. destruct (2 ^ 23 <=? leading n e); [destruct (Z.leb_spec e 2)|destruct (Z.leb_spec e 3)];
      [lia|apply trunc_lower; lia|lia|apply trunc_lower; lia]. }
  pose proof (byteLen_unique (truncated n e) e He1 ltac:(lia)) as He'.
  rewrite (BigToCompact_pos (truncated n e) e ltac:(lia) He' He255), (BigToCompact_pos n e Hn He He255).
  destruct (leading_kept n e He1) as [->|[Hc ->]]; [done|]. rewrite Z.div_mul by lia.
  rewrite !(proj2 (Z.leb_le _ _)); [done|done|]. pose proof (trunc_lower (leading n e) 8 23 ltac:(lia) Hc). lia.
Qed.

(** C18. The compact form of a target keeps its leading bits: for every positive number of up
    to 2032 bits, decoding the encoding never gives more than the number and loses less
    than one part in [2 ^ 15] of it, and encoding that again gives the same bits.  So a
    target that came from bits is not changed by writing it back. *)
Theorem BigToCompact_rounds n :
  0 < n < 2 ^ 2032 ->
  let target := CompactToBig (BigToCompact n) in
  0 < target <= n /\ (n - target) * 2 ^ 15 <= n /\ BigToCompact target = BigToCompact n.
Proof.
  intros [Hn Hmax]. destruct (byteLen_bounds n _ Hn eq_refl) as (He1 & Hb). set (e := (bitLen n + 7) / 8) in *.
  assert (He : e < 255).
  { destruct (Z.lt_ge_cases e 255); [done|]. pose proof (Z.pow_le_mono_r 2 2032 (8 * (e - 1)) ltac:(lia) ltac:(lia)). lia. }
  cbn zeta. rewrite (CompactToBig_BigToCompact n e Hn eq_refl He). destruct (truncated_bounds n e He1 Hb).
  split_and!; [lia|lia|lia|]. by apply truncated_idempotent.
Qed.

Lemma BigToCompact_rounds_witness :
  let target := CompactToBig (BigToCompact (2 ^ 255 - 1)) in
  0 < target <= 2 ^ 255 - 1 /\ (2 ^ 255 - 1 - target) * 2 ^ 15 <= 2 ^ 255 - 1 /\ BigToCompact target = BigToCompact (2 ^ 255 - 1).
Proof. apply (BigToCompact_rounds (2 ^ 255 - 1)). split; by vm_compute. Defined.

(** The work of a block is positive just when its bits are a target below [2 ^ 256]. *)
Lemma CalcWork_pos bits : 0 < CalcWork bits <-> 0 < CompactToBig bits < 2 ^ 256.
Proof.
  unfold CalcWork, oneLsh256. change (Z.shiftl 1 256) with (2 ^ 256). destruct (Z.leb_spec (CompactToBig bits) 0); [lia|].
  split.
  - intros Hpos. split; [done|]. destruct (Z.lt_ge_cases (CompactToBig bits) (2 ^ 256)); [done|].
    rewrite Z.div_small in Hpos by lia. lia.
  - intros [_ Hlt]. apply Z.div_str_pos. lia.
Qed.

(** A smaller target is more work. *)
Lemma CalcWork_antitone a b : 0 < CompactToBig a <= CompactToBig b -> CalcWork b <= CalcWork a.
Proof.
  intros [Ha Hab]. unfold CalcWork. rewrite !(proj2 (Z.leb_gt _ _)) by lia.
  apply Z.div_le_compat_l; [by vm_compute|lia].
Qed.

(** A number whose three leading bytes are all ones is lost when it is negative: the shift
    rounds away from zero and the carry leaves the mantissa. *)
Lemma BigToCompact_negative : CompactToBig (BigToCompact (- (2 ^ 32 - 1))) = 0.
Proof. by vm_compute. Qed.
