(* ===== verification/DagTopology.v ===== *)
(** * DAG topology

    [src/domain/consensus/processes/dagtopologymanager/dagtopologymanager.go]: parents
    and children of blocks, and the queries on their past, which the reachability
    manager answers.

    The state has the stores that the managers of the DAG share: the relations of
    blocks, their GHOSTDAG data, what is read of their headers, their DAA scores, and
    the reachability data.  A store gives copies of what it holds, so values are enough.
    Hashes are compared by value; where the code compares the pointer of a hash with the
    one of the virtual block, the two agree for a caller that passes that pointer. *)

From S2P Require Import Prelude Float64 Interval Reachability ReachTree.

Record BlockRelations : Type := MkRelations {
  Parents : list DomainHash;
  Children : list DomainHash
}.

(** What is read of a block header. *)
Record blockHeader : Type := MkHeader {
  Bits : Z;
  DAAScore : Z
}.

Record dagState : Type := MkDagState {
  ds_relations : gmap DomainHash BlockRelations;
  ds_ghostdag : gmap DomainHash BlockGHOSTDAGData;
  ds_headers : gmap DomainHash blockHeader;
  ds_daaScores : gmap DomainHash Z;
  ds_reach : reachState
}.

Inductive dagError : Type :=
| ErrItemNotFound
| ErrReachability (e : reachError)
| ErrNotInSelectedParentChain
| ErrNoBlockHashes
| ErrNilSelectedParent.

Definition dagM (A : Type) : Type := M dagState dagError A.

(** A call of the reachability manager. *)
Definition reach {A} (m : reachM A) : dagM A := fun s =>
  match m (ds_reach s) with
  | (Ret a, r) => (Ret a, MkDagState (ds_relations s) (ds_ghostdag s) (ds_headers s) (ds_daaScores s) r)
  | (Err e, r) => (Err (ErrReachability e), MkDagState (ds_relations s) (ds_ghostdag s) (ds_headers s) (ds_daaScores s) r)
  | (Panic, r) => (Panic, MkDagState (ds_relations s) (ds_ghostdag s) (ds_headers s) (ds_daaScores s) r)
  end.

(** A look into a store. *)
Definition fetch {A} (f : dagState -> gmap DomainHash A) (blockHash : DomainHash) : dagM A :=
  s <- get ;;
  match f s !! blockHash with
  | Some a => ret a
  | None => throw ErrItemNotFound
  end.

Definition BlockRelation : DomainHash -> dagM BlockRelations := fetch ds_relations.
Definition ghostdagData : DomainHash -> dagM BlockGHOSTDAGData := fetch ds_ghostdag.

Definition StageBlockRelation (blockHash : DomainHash) (r : BlockRelations) : dagM unit :=
  modify (fun s => MkDagState (<[blockHash := r]> (ds_relations s)) (ds_ghostdag s) (ds_headers s) (ds_daaScores s) (ds_reach s)).

Definition deref {A} (o : option A) : dagM A :=
  match o with
  | Some a => ret a
  | None => panic
  end.

Definition ParentsOf (blockHash : DomainHash) : dagM (list DomainHash) :=
  r <- BlockRelation blockHash ;;
  ret (Parents r).
Definition ChildrenOf (blockHash : DomainHash) : dagM (list DomainHash) :=
  r <- BlockRelation blockHash ;;
  ret (Children r).

Definition isHashInSlice (hash : DomainHash) (hashes : list DomainHash) : bool :=
  existsb (fun h => bool_decide (h = hash)) hashes.

Definition IsParentOf (blockHashA blockHashB : DomainHash) : dagM bool :=
  r <- BlockRelation blockHashB ;;
  ret (isHashInSlice blockHashA (Parents r)).
Definition IsChildOf (blockHashA blockHashB : DomainHash) : dagM bool :=
  r <- BlockRelation blockHashB ;;
  ret (isHashInSlice blockHashA (Children r)).

Definition IsAncestorOf (blockHashA blockHashB : DomainHash) : dagM bool := reach (IsDAGAncestorOf blockHashA blockHashB).

Fixpoint IsAncestorOfAny (blockHash : DomainHash) (potentialDescendants : list DomainHash) : dagM bool :=
  match potentialDescendants with
  | [] => ret false
  | descendant :: rest =>
      isAncestorOf <- IsAncestorOf blockHash descendant ;;
      if (isAncestorOf : bool) then ret true else IsAncestorOfAny blockHash rest
  end.

Fixpoint IsAnyAncestorOf (potentialAncestors : list DomainHash) (blockHash : DomainHash) : dagM bool :=
  match potentialAncestors with
  | [] => ret false
  | ancestor :: rest =>
      isAncestorOf <- IsAncestorOf ancestor blockHash ;;
      if (isAncestorOf : bool) then ret true else IsAnyAncestorOf rest blockHash
  end.

Section Virtual.
Context (VirtualBlockHash : DomainHash).

Definition IsInSelectedParentChainOf (blockHashA blockHashB : DomainHash) : dagM bool :=
  blockHashB <- (if bool_decide (blockHashB = VirtualBlockHash) then
      d <- ghostdagData blockHashB ;;
      deref (selectedParent d)
    else ret blockHashB) ;;
  reach (IsReachabilityTreeAncestorOf blockHashA blockHashB).

Definition ChildInSelectedParentChainOf (lowHash highHash : DomainHash) : dagM DomainHash :=
  selected <- (if bool_decide (highHash = VirtualBlockHash) then
      d <- ghostdagData highHash ;;
      ret (selectedParent d)
    else ret (Some highHash)) ;;
  if bool_decide (highHash = VirtualBlockHash) && bool_decide (selected = Some lowHash) then ret highHash
  else
    high <- deref selected ;;
    isInSelectedParentChain <- IsInSelectedParentChainOf lowHash high ;;
    guard_err (negb isInSelectedParentChain) ErrNotInSelectedParentChain ;;;
    reach (FindNextAncestor high lowHash).
End Virtual.

(** ** Setting the parents of a block *)

(** [append(children[:i], children[i+1:]...)] for the first [i] with the hash. *)
Fixpoint removeFirst (hash : DomainHash) (l : list DomainHash) : list DomainHash :=
  match l with
  | [] => []
  | h :: l => if bool_decide (h = hash) then l else h :: removeFirst hash l
  end.

Fixpoint removeFromParents (blockHash : DomainHash) (currentParents : list DomainHash) : dagM unit :=
  match currentParents with
  | [] => ret tt
  | currentParent :: rest =>
      r <- BlockRelation currentParent ;;
      (if isHashInSlice blockHash (Children r)
       then StageBlockRelation currentParent (MkRelations (Parents r) (removeFirst blockHash (Children r)))
       else ret tt) ;;;
      removeFromParents blockHash rest
  end.

Fixpoint addToParents (blockHash : DomainHash) (parentHashes : list DomainHash) : dagM unit :=
  match parentHashes with
  | [] => ret tt
  | parent :: rest =>
      r <- BlockRelation parent ;;
      (if isHashInSlice blockHash (Children r) then ret tt
       else StageBlockRelation parent (MkRelations (Parents r) (Children r ++ [blockHash]))) ;;;
      addToParents blockHash rest
  end.

Definition SetParents (blockHash : DomainHash) (parentHashes : list DomainHash) : dagM unit :=
  s <- get ;;
  (if bool_decide (is_Some (ds_relations s !! blockHash)) then
     currentRelations <- BlockRelation blockHash ;;
     removeFromParents blockHash (Parents currentRelations)
   else ret tt) ;;;
  addToParents blockHash parentHashes ;;;
  StageBlockRelation blockHash (MkRelations parentHashes []).

(** ** What setting parents does *)

Definition withRelations (m : gmap DomainHash BlockRelations) (s : dagState) : dagState :=
  MkDagState m (ds_ghostdag s) (ds_headers s) (ds_daaScores s) (ds_reach s).

Definition parentsIn (s : dagState) (b : DomainHash) : list DomainHash :=
  match ds_relations s !! b with Some r => Parents r | None => [] end.
Definition childrenIn (s : dagState) (b : DomainHash) : list DomainHash :=
  match ds_relations s !! b with Some r => Children r | None => [] end.

Lemma isHashInSlice_spec h l : isHashInSlice h l = true <-> h ∈ l.
Proof.
  unfold isHashInSlice. rewrite existsb_exists. setoid_rewrite bool_decide_eq_true. setoid_rewrite <- list_elem_of_In.
  split; [by intros (x & Hx & ->)|eauto].
Qed.

Lemma BlockRelation_run s b r : ds_relations s !! b = Some r -> BlockRelation b s = (Ret r, s).
Proof. intros Hr. unfold BlockRelation, fetch, bind, get. by rewrite Hr. Qed.

(** Children are added at the parents, and nothing else changes. *)
Lemma addToParents_run b ps s :
  (forall p, p ∈ ps -> is_Some (ds_relations s !! p)) ->
  exists m, addToParents b ps s = (Ret tt, withRelations m s) /\
    (forall x, is_Some (m !! x) <-> is_Some (ds_relations s !! x)) /\
    (forall x, parentsIn (withRelations m s) x = parentsIn s x) /\
    (forall x c, c ∈ childrenIn (withRelations m s) x <-> c ∈ childrenIn s x \/ (c = b /\ x ∈ ps)) /\
    forall x, NoDup (childrenIn s x) -> NoDup (childrenIn (withRelations m s) x).
Proof.
  revert s. induction ps as [|p ps IH]; intros s Hps; cbn [addToParents].
  { exists (ds_relations s). destruct s. split_and!; [done|done|done|set_solver|done]. }
  destruct (Hps p ltac:(set_solver)) as [rel Hrel]. rewrite (bind_Ret _ _ _ _ _ (BlockRelation_run s p rel Hrel)).
  assert (Hc : childrenIn s p = Children rel) by (unfold childrenIn; by rewrite Hrel).
  destruct (isHashInSlice b (Children rel)) eqn:Hin.
  - apply isHashInSlice_spec in Hin. erewrite bind_Ret by done. destruct (IH s) as (m & Hrun & Hdom & Hpar & Hch & Hnd); [set_solver|].
    exists m. split_and!; [done|done|done| |done]. intros x c. rewrite Hch. rewrite elem_of_cons. split; [tauto|].
    intros [?|[-> [->|?]]]; [tauto| |tauto]. left. by rewrite Hc.
  - assert (Hni : b ∉ Children rel) by (rewrite <- isHashInSlice_spec; congruence).
    set (s1 := withRelations (<[p := MkRelations (Parents rel) (Children rel ++ [b])]> (ds_relations s)) s).
    rewrite (bind_Ret (StageBlockRelation _ _) _ s s1 tt eq_refl).
    assert (Hdom1 : forall x, is_Some (ds_relations s1 !! x) <-> is_Some (ds_relations s !! x)).
    { intros x. cbn. destruct (decide (x = p)) as [->|Hx]; [rewrite lookup_insert_eq, Hrel|rewrite lookup_insert_ne by done]; done. }
    destruct (IH s1) as (m & Hrun & Hdom & Hpar & Hch & Hnd); [intros q Hq; apply Hdom1, Hps; set_solver|].
    exists m. split_and!; [done|by intros x; rewrite Hdom| | |].
    + intros x. rewrite Hpar. unfold parentsIn. cbn. destruct (decide (x = p)) as [->|Hx]; [by rewrite lookup_insert_eq, Hrel|by rewrite lookup_insert_ne].
    + intros x c. change (withRelations m s) with (withRelations m s1). rewrite Hch, elem_of_cons. unfold childrenIn. cbn. destruct (decide (x = p)) as [->|Hx];
        [rewrite lookup_insert_eq, Hrel; cbn; set_solver|rewrite lookup_insert_ne by done; tauto].
    + intros x Hx. apply Hnd. revert Hx. unfold childrenIn. cbn. destruct (decide (x = p)) as [->|Hne];
        [rewrite lookup_insert_eq, Hrel; cbn|by rewrite lookup_insert_ne].
      intros Hx. apply list.NoDup_app. split_and!; [done|set_solver|apply NoDup_singleton].
Qed.

Lemma removeFirst_spec h l c : NoDup l -> c ∈ removeFirst h l <-> c ∈ l /\ c <> h.
Proof.
  induction 1 as [|x l Hx Hl IH]; cbn; [set_solver|]. case_bool_decide; subst; [set_solver|]. rewrite !elem_of_cons, IH. set_solver.
Qed.

Lemma removeFirst_NoDup h l : NoDup l -> NoDup (removeFirst h l).
Proof.
  induction 1 as [|x l Hx Hl IH]; cbn; [constructor|]. case_bool_decide; [done|]. constructor; [|done].
  rewrite removeFirst_spec by done. tauto.
Qed.

(** The block is taken from the children of its parents, and nothing else changes. *)
Lemma removeFromParents_run b ps s :
  (forall p, p ∈ ps -> is_Some (ds_relations s !! p)) -> (forall x, NoDup (childrenIn s x)) ->
  exists m, removeFromParents b ps s = (Ret tt, withRelations m s) /\
    (forall x, is_Some (m !! x) <-> is_Some (ds_relations s !! x)) /\
    (forall x, parentsIn (withRelations m s) x = parentsIn s x) /\
    (forall x c, c ∈ childrenIn (withRelations m s) x <-> c ∈ childrenIn s x /\ ~ (c = b /\ x ∈ ps)) /\
    forall x, NoDup (childrenIn (withRelations m s) x).
Proof.
  revert s. induction ps as [|p ps IH]; intros s Hps Hnd; cbn [removeFromParents].
  { exists (ds_relations s). destruct s. split_and!; [done|done|done|set_solver|done]. }
  destruct (Hps p ltac:(set_solver)) as [rel Hrel]. rewrite (bind_Ret _ _ _ _ _ (BlockRelation_run s p rel Hrel)).
  assert (Hc : childrenIn s p = Children rel) by (unfold childrenIn; by rewrite Hrel).
  destruct (isHashInSlice b (Children rel)) eqn:Hin.
  - set (s1 := withRelations (<[p := MkRelations (Parents rel) (removeFirst b (Children rel))]> (ds_relations s)) s).
    rewrite (bind_Ret (StageBlockRelation _ _) _ s s1 tt eq_refl).
    assert (Hdom1 : forall x, is_Some (ds_relations s1 !! x) <-> is_Some (ds_relations s !! x)).
    { intros x. cbn. destruct (decide (x = p)) as [->|Hx]; [rewrite lookup_insert_eq, Hrel|rewrite lookup_insert_ne by done]; done. }
    assert (Hch1 : forall x, childrenIn s1 x = if decide (x = p) then removeFirst b (Children rel) else childrenIn s x).
    { intros x. unfold childrenIn. cbn. case_decide as Hx; [subst; by rewrite lookup_insert_eq|by rewrite lookup_insert_ne]. }
    pose proof (Hnd p) as Hndp. rewrite Hc in Hndp.
    destruct (IH s1) as (m & Hrun & Hdom & Hpar & Hch & Hnd').
    { intros q Hq. apply Hdom1, Hps. set_solver. }
    { intros x. rewrite Hch1. case_decide; [by apply removeFirst_NoDup|done]. }
    exists m. split_and!; [done|by intros x; rewrite Hdom| | |done].
    + intros x. rewrite Hpar. unfold parentsIn. cbn. destruct (decide (x = p)) as [->|Hx]; [by rewrite lookup_insert_eq, Hrel|by rewrite lookup_insert_ne].
    + intros x c. change (withRelations m s) with (withRelations m s1). rewrite Hch, Hch1, elem_of_cons.
      case_decide as Hx; [subst; rewrite removeFirst_spec, <- Hc by done|]; tauto.
  - assert (Hni : b ∉ Children rel) by (rewrite <- isHashInSlice_spec; congruence). erewrite bind_Ret by done.
    destruct (IH s) as (m & Hrun & Hdom & Hpar & Hch & Hnd'); [set_solver|done|]. exists m. split_and!; [done|done|done| |done].
    intros x c. rewrite Hch, elem_of_cons. split; [|tauto]. intros [H1 H2]. split; [done|]. intros [-> [->|?]]; [|tauto]. by rewrite Hc in H1.
Qed.

(** Relations that are well formed: parents and children agree, and no child is listed twice. *)
Record wellRelated (s : dagState) : Prop := {
  wr_symmetric : forall a b, a ∈ parentsIn s b <-> b ∈ childrenIn s a;
  wr_NoDup : forall x, NoDup (childrenIn s x)
}.

(** The parents of a new block. *)
Lemma SetParents_run b ps s :
  ds_relations s !! b = None -> (forall p, p ∈ ps -> is_Some (ds_relations s !! p)) ->
  exists m, SetParents b ps s = (Ret tt, withRelations m s) /\
    (forall x, is_Some (m !! x) <-> x = b \/ is_Some (ds_relations s !! x)) /\
    (forall x, parentsIn (withRelations m s) x = if decide (x = b) then ps else parentsIn s x) /\
    (forall x c, c ∈ childrenIn (withRelations m s) x <-> x <> b /\ (c ∈ childrenIn s x \/ (c = b /\ x ∈ ps))).
Proof.
  intros Hnew Hps. unfold SetParents. erewrite bind_Ret by done. rewrite bool_decide_eq_false_2 by (rewrite Hnew; by intros []).
  erewrite bind_Ret by done. destruct (addToParents_run b ps s Hps) as (m & Hrun & Hdom & Hpar & Hch & _).
  rewrite (bind_Ret _ _ _ _ _ Hrun). exists (<[b := MkRelations ps []]> m). split_and!; [done|..].
  - intros x. rewrite lookup_insert_is_Some, Hdom. destruct (decide (x = b)) as [->|]; naive_solver.
  - intros x. unfold parentsIn at 1. cbn. case_decide as Hx; [subst; by rewrite lookup_insert_eq|].
    rewrite lookup_insert_ne by done. apply Hpar.
  - intros x c. unfold childrenIn at 1. cbn. destruct (decide (x = b)) as [->|Hx]; [rewrite lookup_insert_eq; set_solver|].
    rewrite lookup_insert_ne by done. rewrite <- Hch. unfold childrenIn. cbn. tauto.
Qed.

Lemma removeCurrent_run b s : wellRelated s ->
  exists m, (if bool_decide (is_Some (ds_relations s !! b)) then
      currentRelations <- BlockRelation b ;; removeFromParents b (Parents currentRelations) else ret tt) s = (Ret tt, withRelations m s) /\
    (forall x, is_Some (m !! x) <-> is_Some (ds_relations s !! x)) /\
    (forall x, parentsIn (withRelations m s) x = parentsIn s x) /\
    (forall x c, c ∈ childrenIn (withRelations m s) x <-> c ∈ childrenIn s x /\ ~ (c = b /\ x ∈ parentsIn s b)) /\
    forall x, NoDup (childrenIn (withRelations m s) x).
Proof.
  intros [Hsym Hnd]. assert (Hpar : forall p, p ∈ parentsIn s b -> is_Some (ds_relations s !! p)).
  { intros p Hp%Hsym. unfold childrenIn in Hp. destruct (ds_relations s !! p); [done|set_solver]. }
  destruct (ds_relations s !! b) as [rel|] eqn:Hrel.
  - assert (Heq : parentsIn s b = Parents rel) by (unfold parentsIn; by rewrite Hrel). rewrite Heq in *.
    rewrite bool_decide_eq_true_2, (bind_Ret _ _ _ _ _ (BlockRelation_run s b rel Hrel)) by done. by apply removeFromParents_run.
  - assert (Heq : parentsIn s b = []) by (unfold parentsIn; by rewrite Hrel). rewrite Heq.
    rewrite bool_decide_eq_false_2 by (by intros []). exists (ds_relations s). destruct s. split_and!; [done|done|done|set_solver|done].
Qed.

(** C17. [SetParents] keeps the relations of the DAG well formed, for a new block and for one
    whose parents are replaced, as those of the virtual block are: with parents that are
    known it succeeds, afterwards the block has just these parents, every other block has
    the parents it had, and a block is among the children of another just when that one is
    among its parents.  The block has no children, as the code relies on. *)
Theorem SetParents_wellRelated b ps s :
  wellRelated s -> childrenIn s b = [] -> (forall p, p ∈ ps -> is_Some (ds_relations s !! p)) -> b ∉ ps ->
  exists m, SetParents b ps s = (Ret tt, withRelations m s) /\ wellRelated (withRelations m s) /\
    forall x, parentsIn (withRelations m s) x = if decide (x = b) then ps else parentsIn s x.
Proof.
  intros Hwr Hb Hps Hbps. pose proof Hwr as [Hsym Hnd].
  destruct (removeCurrent_run b s Hwr) as (m0 & Hrun0 & Hdom0 & Hpar0 & Hch0 & Hnd0). unfold SetParents. erewrite bind_Ret by done.
  rewrite (bind_Ret _ _ _ _ _ Hrun0).
  destruct (addToParents_run b ps (withRelations m0 s)) as (m & Hrun & Hdom & Hpar & Hch & Hnd').
  { intros p Hp. apply Hdom0. auto. }
  rewrite (bind_Ret _ _ _ _ _ Hrun). exists (<[b := MkRelations ps []]> m).
  assert (Hp' : forall x, parentsIn (withRelations (<[b := MkRelations ps []]> m) s) x = if decide (x = b) then ps else parentsIn s x).
  { intros x. unfold parentsIn at 1. cbn. case_decide as Hx; [subst; by rewrite lookup_insert_eq|].
    rewrite lookup_insert_ne by done. rewrite <- Hpar0. exact (Hpar x). }
  assert (Hc' : forall x, childrenIn (withRelations (<[b := MkRelations ps []]> m) s) x =
    if decide (x = b) then [] else childrenIn (withRelations m s) x).
  { intros x. unfold childrenIn. cbn. case_decide as Hx; [subst; by rewrite lookup_insert_eq|by rewrite lookup_insert_ne]. }
  split_and!; [done| |done]. split.
  - intros a x. rewrite Hp', Hc'. assert (Hchm : x ∈ childrenIn (withRelations m s) a <-> (x ∈ childrenIn s a /\ ~ (x = b /\ a ∈ parentsIn s b)) \/ (x = b /\ a ∈ ps)).
    { rewrite <- Hch0. exact (Hch a x). }
    destruct (decide (x = b)) as [->|Hx], (decide (a = b)) as [->|Ha].
    + set_solver.
    + rewrite Hchm, <- Hsym. tauto.
    + rewrite Hsym, Hb. set_solver.
    + rewrite Hchm, Hsym. tauto.
  - intros x. rewrite Hc'. case_decide; [constructor|]. exact (Hnd' x (Hnd0 x)).
Qed.

Definition relatedExample : dagState :=
  MkDagState (<[hashOf 1 := MkRelations [] [hashOf 2]]> (<[hashOf 2 := MkRelations [hashOf 1] []]> ∅)) ∅ ∅ ∅ (MkReachState ∅ None ∅).

Lemma SetParents_wellRelated_witness :
  exists m, SetParents (hashOf 3) [hashOf 1; hashOf 2] relatedExample = (Ret tt, withRelations m relatedExample) /\ wellRelated (withRelations m relatedExample).
Proof.
  destruct (SetParents_wellRelated (hashOf 3) [hashOf 1; hashOf 2] relatedExample) as (m & Hrun & Hwr & _).
  - split.
    + intros a b. unfold parentsIn, childrenIn, relatedExample. cbn. rewrite !lookup_insert. repeat case_decide; subst; cbn; set_solver.
    + intros x. unfold childrenIn, relatedExample. cbn. rewrite !lookup_insert. repeat case_decide; cbn; try constructor; [set_solver|constructor].
  - reflexivity.
  - intros p Hp. repeat (apply elem_of_cons in Hp as [->|Hp]); [..|by apply elem_of_nil in Hp]; by apply (bool_decide_unpack _); vm_compute.
  - by apply (bool_decide_unpack _); vm_compute.
  - exists m. split; [exact Hrun|exact Hwr].
Defined.
