(* ===== verification/Ghostdag.v ===== *)
(** * GHOSTDAG

    [src/domain/consensus/processes/ghostdagmanager]: the choice of the selected parent
    ([compare.go]), the merge set ([mergeset.go]) and the coloring of its blocks
    ([ghostdag.go]), with the version tables of
    [src/domain/consensus/utils/constants/constants.go].

    The K of blocks from version 6 on is computed by the ranking of [dagknight.go],
    which is not modelled: [CalculateRank] is a parameter.  [KType] is a byte.

    [sort.Slice] looks at every element of a slice of two or more and at none of a
    shorter one, so the GHOSTDAG data of the blocks are read for the former only; the
    order of the result is that of an insertion sort, which is the only sorted order
    where the blocks differ. *)

From S2P Require Import Prelude Float64 Interval Reachability Difficulty DagTopology.

Record ghostdagManager : Type := MkGhostdag {
  gm_k : list Z;
  gm_genesisHash : DomainHash;
  gm_powScores : list Z;
  gm_VirtualBlockHash : DomainHash;
  gm_VirtualGenesisBlockHash : DomainHash;
  gm_blockVersion : Z
}.

(** ** The order of blocks *)

(** [bytes.Compare] *)
Fixpoint bytesCompare (a b : bytes) : comparison :=
  match a, b with
  | [], [] => Eq
  | [], _ :: _ => Lt
  | _ :: _, [] => Gt
  | x :: a, y :: b =>
      match bz x ?= bz y with
      | Eq => bytesCompare a b
      | c => c
      end
  end.

Definition hashLess (hash other : DomainHash) : bool :=
  match bytesCompare hash other with Lt => true | _ => false end.

Definition Less (blockHashA : DomainHash) (ghostdagDataA : BlockGHOSTDAGData)
    (blockHashB : DomainHash) (ghostdagDataB : BlockGHOSTDAGData) : bool :=
  match blueWork ghostdagDataA ?= blueWork ghostdagDataB with
  | Lt => true
  | Gt => false
  | Eq => hashLess blockHashA blockHashB
  end.

Fixpoint chooseLoop (selected : DomainHash) (selectedData : BlockGHOSTDAGData) (blockHashes : list DomainHash)
  : dagM DomainHash :=
  match blockHashes with
  | [] => ret selected
  | blockHash :: rest =>
      d <- ghostdagData blockHash ;;
      if Less selected selectedData blockHash d then chooseLoop blockHash d rest
      else chooseLoop selected selectedData rest
  end.

Definition ChooseSelectedParent (blockHashes : list DomainHash) : dagM DomainHash :=
  match blockHashes with
  | [] => throw ErrNoBlockHashes
  | selectedParent :: _ =>
      d <- ghostdagData selectedParent ;;
      chooseLoop selectedParent d blockHashes
  end.

Definition less (blockHashA blockHashB : DomainHash) : dagM bool :=
  chosen <- ChooseSelectedParent [blockHashA; blockHashB] ;;
  ret (bool_decide (chosen = blockHashB)).

Fixpoint findSelectedParent (selectedParent : option DomainHash) (parentHashes : list DomainHash)
  : dagM (option DomainHash) :=
  match parentHashes with
  | [] => ret selectedParent
  | hash :: rest =>
      match selectedParent with
      | None => findSelectedParent (Some hash) rest
      | Some sp =>
          isHashBigger <- less sp hash ;;
          findSelectedParent (Some (if (isHashBigger : bool) then hash else sp)) rest
      end
  end.

(** ** The merge set *)

Definition sortMergeSet (mergeSetSlice : list DomainHash) : dagM (list DomainHash) :=
  match mergeSetSlice with
  | _ :: _ :: _ =>
      l <- traverse (fun h => d <- ghostdagData h ;; ret (h, d)) mergeSetSlice ;;
      ret (map fst (sortSlice (fun a b => Less a.1 a.2 b.1 b.2) l))
  | _ => ret mergeSetSlice
  end.

(** The scan of the parents of one block: the merge set, the known past of the selected
    parent and the queue after it. *)
Fixpoint scanParents (selectedParent : option DomainHash) (parents : list DomainHash)
    (mergeSet : list DomainHash) (selectedParentPast : gset DomainHash) (queue : list DomainHash)
  : dagM (list DomainHash * gset DomainHash * list DomainHash) :=
  match parents with
  | [] => ret (mergeSet, selectedParentPast, queue)
  | parent :: rest =>
      if bool_decide (parent ∈ mergeSet) then scanParents selectedParent rest mergeSet selectedParentPast queue
      else if bool_decide (parent ∈ selectedParentPast) then scanParents selectedParent rest mergeSet selectedParentPast queue
      else
        sp <- deref selectedParent ;;
        isAncestor <- IsAncestorOf parent sp ;;
        if (isAncestor : bool)
        then scanParents selectedParent rest mergeSet ({[parent]} ∪ selectedParentPast) queue
        else scanParents selectedParent rest (mergeSet ++ [parent]) selectedParentPast (queue ++ [parent])
  end.

Fixpoint mergeLoop (n : nat) (selectedParent : option DomainHash) (mergeSet : list DomainHash)
    (selectedParentPast : gset DomainHash) (queue : list DomainHash) : dagM (list DomainHash) :=
  match queue with
  | [] => ret mergeSet
  | current :: queue =>
      match n with
      | O => panic
      | S n =>
          currentParents <- ParentsOf current ;;
          r <- scanParents selectedParent currentParents mergeSet selectedParentPast queue ;;
          mergeLoop n selectedParent r.1.1 r.1.2 r.2
      end
  end.

Definition mergeSetWithoutSelectedParent (fuel : nat) (selectedParent : option DomainHash) (blockParents : list DomainHash)
  : dagM (list DomainHash) :=
  let queue := filter (fun parent => Some parent <> selectedParent) blockParents in
  mergeSet <- mergeLoop fuel selectedParent queue ∅ queue ;;
  sortMergeSet mergeSet.

(** The merge of the blues and the reds, which are sorted. *)
Fixpoint mergeSorted (n : nat) (blues reds : list DomainHash) : dagM (list DomainHash) :=
  match n, blues, reds with
  | S n, blue :: blues', red :: reds' =>
      blueData <- ghostdagData blue ;;
      redData <- ghostdagData red ;;
      if Less blue blueData red redData
      then l <- mergeSorted n blues' reds ;; ret (blue :: l)
      else l <- mergeSorted n blues reds' ;; ret (red :: l)
  | _, _, _ => ret (blues ++ reds)
  end.

(** A block with blues has a selected parent; without one the code would list a nil hash. *)
Definition GetSortedMergeSet (current : DomainHash) : dagM (list DomainHash) :=
  d <- ghostdagData current ;;
  match mergeSetBlues d with
  | [] => ret []
  | _ =>
      let blues := filter (fun hash => Some hash <> selectedParent d) (mergeSetBlues d) in
      sp <- deref (selectedParent d) ;;
      l <- mergeSorted (length blues + length (mergeSetReds d)) blues (mergeSetReds d) ;;
      ret (sp :: l)
  end.

(** ** Coloring *)

(** The anticone size of a blue block, searched along the selected chain of [current] for
    at most [steps] more blocks. *)
Fixpoint blueAnticoneWalk (gm : ghostdagManager) (steps : nat) (block : DomainHash) (current : BlockGHOSTDAGData) : dagM Z :=
  match bluesAnticoneSizes current !! block with
  | Some size => ret size
  | None =>
      match steps, selectedParent current with
      | O, _ => ret 0
      | S _, None => ret 0
      | S steps, Some sp =>
          if bool_decide (sp = gm_genesisHash gm) || bool_decide (sp = gm_VirtualGenesisBlockHash gm) then ret 0
          else
            next <- ghostdagData sp ;;
            blueAnticoneWalk gm steps block next
      end
  end.

(** [maxWalk] is a byte product, and the walk stops when [steps > maxWalk]. *)
Definition blueAnticoneSize (gm : ghostdagManager) (block : DomainHash) (context : BlockGHOSTDAGData) (k : Z) : dagM Z :=
  blueAnticoneWalk gm (Z.to_nat (u8 (4 * k) + 1)) block context.

(** What a chain block says of a candidate. *)
Inductive verdict : Type := IsBlue | IsRed | Undecided.

(** The blues of a chain block, with the sizes and the count found so far. *)
Fixpoint checkBlues (gm : ghostdagManager) (k blockVersion : Z) (context : BlockGHOSTDAGData) (blueCandidate : DomainHash)
    (blues : list DomainHash) (sizes : gmap DomainHash Z) (count : Z) : dagM (verdict * gmap DomainHash Z * Z) :=
  match blues with
  | [] => ret (Undecided, sizes, count)
  | block :: rest =>
      isAncestor <- IsAncestorOf block blueCandidate ;;
      if (isAncestor : bool) then checkBlues gm k blockVersion context blueCandidate rest sizes count
      else
        size <- blueAnticoneSize gm block context k ;;
        let sizes := <[block := size]> sizes in
        let count := u8 (count + 1) in
        let maxAnticoneSize := if 7 <=? blockVersion then u8 (k + 1) else k in
        if maxAnticoneSize <? count then ret (IsRed, sizes, count)
        else if maxAnticoneSize <=? size then ret (IsRed, sizes, count)
        else checkBlues gm k blockVersion context blueCandidate rest sizes count
  end.

Definition checkBlueCandidateWithChainBlock (gm : ghostdagManager) (k blockVersion : Z) (chainHash : DomainHash)
    (chainData : BlockGHOSTDAGData) (blueCandidate : DomainHash) (sizes : gmap DomainHash Z) (count : Z)
  : dagM (verdict * gmap DomainHash Z * Z) :=
  isAncestor <- IsAncestorOf chainHash blueCandidate ;;
  if (isAncestor : bool) then ret (IsBlue, sizes, count)
  else checkBlues gm k blockVersion chainData blueCandidate (mergeSetBlues chainData) sizes count.

(** The walk along the selected chain. *)
Fixpoint candidateLoop (gm : ghostdagManager) (n : nat) (k blockVersion : Z) (chainHash : DomainHash)
    (chainData : BlockGHOSTDAGData) (blueCandidate : DomainHash) (sizes : gmap DomainHash Z) (count : Z)
  : dagM (option (Z * gmap DomainHash Z)) :=
  match n with
  | O => panic
  | S n =>
      r <- checkBlueCandidateWithChainBlock gm k blockVersion chainHash chainData blueCandidate sizes count ;;
      let '(v, sizes, count) := r in
      match v with
      | IsBlue => ret (Some (count, sizes))
      | IsRed => ret None
      | Undecided =>
          sp <- deref (selectedParent chainData) ;;
          d <- ghostdagData sp ;;
          candidateLoop gm n k blockVersion sp d blueCandidate sizes count
      end
  end.

(** The anticone size of the candidate and those of the blues it adds to, if it is blue. *)
Definition checkBlueCandidate (gm : ghostdagManager) (fuel : nat) (newBlockData : BlockGHOSTDAGData) (blueCandidate : DomainHash)
    (k blockVersion : Z) : dagM (option (Z * gmap DomainHash Z)) :=
  if u8 (len (mergeSetBlues newBlockData)) =? u8 (k + 1) then ret None
  else
    sp <- deref (selectedParent newBlockData) ;;
    d <- ghostdagData sp ;;
    candidateLoop gm fuel k blockVersion sp d blueCandidate ∅ 0.

(** ** The GHOSTDAG data of a block *)

Definition BlockVersionForDAAScore (powScores : list Z) (daaScore : Z) : Z :=
  fold_left (fun version powScore => if powScore <=? daaScore then u16 (version + 1) else version) powScores 1.

(** The stores of DAA scores and headers hold nothing where the manager has none. *)
Definition blockVersion (gm : ghostdagManager) (selectedParent : option DomainHash) : dagM Z :=
  match gm_powScores gm, selectedParent with
  | [], _ => ret (gm_blockVersion gm)
  | _, None => ret 1
  | _, Some sp =>
      s <- get ;;
      match ds_daaScores s !! sp, ds_headers s !! sp with
      | Some daaScore, _ => ret (BlockVersionForDAAScore (gm_powScores gm) daaScore)
      | None, Some header => ret (BlockVersionForDAAScore (gm_powScores gm) (DAAScore header))
      | None, None => ret (gm_blockVersion gm)
      end
  end.

Definition kForBlockVersion (gm : ghostdagManager) (blockVersion : Z) : dagM Z :=
  let index_ := Z.max (blockVersion - 1) 0 in
  index (gm_k gm) (if len (gm_k gm) <=? index_ then len (gm_k gm) - 1 else index_).

Definition addBlue (d : BlockGHOSTDAGData) (blue : DomainHash) (size : Z) (sizes : gmap DomainHash Z) : BlockGHOSTDAGData :=
  MkGHOSTDAGData (blueScore d) (blueWork d) (dynamicK d) (selectedParent d) (mergeSetBlues d ++ [blue]) (mergeSetReds d)
    (((fun size => u8 (size + 1)) <$> sizes) ∪ <[blue := size]> (bluesAnticoneSizes d)).

Definition addRed (d : BlockGHOSTDAGData) (red : DomainHash) : BlockGHOSTDAGData :=
  MkGHOSTDAGData (blueScore d) (blueWork d) (dynamicK d) (selectedParent d) (mergeSetBlues d) (mergeSetReds d ++ [red])
    (bluesAnticoneSizes d).

Fixpoint colorLoop (gm : ghostdagManager) (fuel : nat) (k blockVersion : Z) (mergeSet : list DomainHash)
    (newBlockData : BlockGHOSTDAGData) : dagM BlockGHOSTDAGData :=
  match mergeSet with
  | [] => ret newBlockData
  | blueCandidate :: rest =>
      r <- checkBlueCandidate gm fuel newBlockData blueCandidate k blockVersion ;;
      match r with
      | Some (size, sizes) => colorLoop gm fuel k blockVersion rest (addBlue newBlockData blueCandidate size sizes)
      | None => colorLoop gm fuel k blockVersion rest (addRed newBlockData blueCandidate)
      end
  end.

(** The work of the blues, without the virtual genesis. *)
Fixpoint addWork (gm : ghostdagManager) (work : Z) (blues : list DomainHash) : dagM Z :=
  match blues with
  | [] => ret work
  | blue :: rest =>
      if bool_decide (blue = gm_VirtualGenesisBlockHash gm) then addWork gm work rest
      else
        header <- fetch ds_headers blue ;;
        addWork gm (work + CalcWork (Bits header)) rest
  end.

Definition stageGhostdag (blockHash : DomainHash) (d : BlockGHOSTDAGData) : dagM unit :=
  modify (fun s => MkDagState (ds_relations s) (<[blockHash := d]> (ds_ghostdag s)) (ds_headers s) (ds_daaScores s) (ds_reach s)).

Section GHOSTDAG.
Context (CalculateRank : list DomainHash -> dagM Z) (gm : ghostdagManager) (fuel : nat).

Definition dynamicKForBlock (blockHash : DomainHash) (blockParents : list DomainHash) : dagM Z :=
  s <- get ;;
  let stored := if bool_decide (blockHash = gm_VirtualBlockHash gm) then 0
                else match ds_ghostdag s !! blockHash with Some d => dynamicK d | None => 0 end in
  if stored =? 0 then rank <- CalculateRank blockParents ;; ret (u8 rank)
  else ret stored.

(** The part of [GHOSTDAG] that follows the lookup of the parents. *)
Definition ghostdagFromParents (blockHash : DomainHash) (blockParents : list DomainHash) : dagM unit :=
  let isGenesis := bool_decide (blockParents = []) in
  sp <- (if isGenesis then ret None
         else
           found <- findSelectedParent None blockParents ;;
           guard_err (bool_decide (found = None)) ErrNilSelectedParent ;;;
           ret found) ;;
  version <- blockVersion gm sp ;;
  k <- (if (6 <=? version) && negb isGenesis then dynamicKForBlock blockHash blockParents
        else kForBlockVersion gm version) ;;
  let newBlockData :=
    match sp with
    | Some selected => MkGHOSTDAGData 0 0 k sp [selected] [] {[selected := 0]}
    | None => MkGHOSTDAGData 0 0 k None [] [] ∅
    end in
  mergeSet <- mergeSetWithoutSelectedParent fuel sp blockParents ;;
  newBlockData <- colorLoop gm fuel k version mergeSet newBlockData ;;
  newBlockData <- (match sp with
    | None => ret newBlockData
    | Some selected =>
        d <- ghostdagData selected ;;
        work <- addWork gm (blueWork d) (mergeSetBlues newBlockData) ;;
        ret (MkGHOSTDAGData (u64 (blueScore d + len (mergeSetBlues newBlockData))) work k sp
               (mergeSetBlues newBlockData) (mergeSetReds newBlockData) (bluesAnticoneSizes newBlockData))
    end) ;;
  stageGhostdag blockHash newBlockData.

Definition GHOSTDAG (blockHash : DomainHash) : dagM unit :=
  blockParents <- ParentsOf blockHash ;;
  ghostdagFromParents blockHash blockParents.
End GHOSTDAG.
