(* ===== verification/GhostdagOrder.v ===== *)
(** * The order of blocks

    The order of [compare.go] by blue work and hash is a strict total order on the blocks
    of a store, so the selected parent of a set of parents and the sorted merge set do
    not depend on the order in which the blocks are listed. *)

From stdpp Require Import sorting.
From S2P Require Import Prelude Float64 Interval Reachability Difficulty DagTopology Ghostdag.

(** ** Hashes *)

Lemma bytesCompare_eq a b : bytesCompare a b = Eq <-> a = b.
Proof.
  revert b. induction a as [|x a IH]; intros [|y b]; cbn; try done. destruct (Z.compare_spec (bz x) (bz y)) as [He|Hl|Hl].
  - rewrite IH. split; [intros ->|by intros [= _ ->]]. f_equal. apply (f_equal zb) in He. by rewrite !zb_bz in He.
  - split; [done|]. intros [= -> _]. lia.
  - split; [done|]. intros [= -> _]. lia.
Qed.

Lemma bytesCompare_antisym a b : bytesCompare b a = CompOpp (bytesCompare a b).
Proof.
  revert b. induction a as [|x a IH]; intros [|y b]; cbn; try done. rewrite (Z.compare_antisym (bz x)).
  destruct (bz x ?= bz y); cbn; [apply IH|done|done].
Qed.

Lemma bytesCompare_trans a b c : bytesCompare a b = Lt -> bytesCompare b c = Lt -> bytesCompare a c = Lt.
Proof.
  revert b c. induction a as [|x a IH]; intros [|y b] [|z c]; cbn; try done.
  destruct (Z.compare_spec (bz x) (bz y)) as [Hxy|Hxy|Hxy], (Z.compare_spec (bz y) (bz z)) as [Hyz|Hyz|Hyz]; try done.
  - rewrite Hxy, Hyz, Z.compare_refl. apply IH.
  - by rewrite Hxy, (proj2 (Z.compare_lt_iff _ _)).
  - by rewrite <- Hyz, (proj2 (Z.compare_lt_iff _ _)).
  - by rewrite (proj2 (Z.compare_lt_iff _ _)) by lia.
Qed.

(** ** Blocks of a store *)

Section Order.
Context (g : gmap DomainHash BlockGHOSTDAGData).

(** [a] comes before [b]. *)
Definition precedes (a b : DomainHash) : Prop :=
  exists da db, g !! a = Some da /\ g !! b = Some db /\ Less a da b db = true.

#[export] Instance precedes_dec a b : Decision (precedes a b).
Proof.
  destruct (g !! a) as [da|] eqn:Ha; [|right; intros (? & ? & ? & ?); congruence].
  destruct (g !! b) as [db|] eqn:Hb; [|right; intros (? & ? & ? & ? & ?); congruence].
  destruct (Less a da b db) eqn:Hl; [left; by exists da, db|]. right. intros (? & ? & ? & ? & ?). congruence.
Defined.

Lemma Less_irrefl a d : Less a d a d = false.
Proof. unfold Less, hashLess. by rewrite Z.compare_refl, (proj2 (bytesCompare_eq a a)). Qed.

Lemma Less_trans a da b db c dc : Less a da b db = true -> Less b db c dc = true -> Less a da c dc = true.
Proof.
  unfold Less, hashLess. destruct (Z.compare_spec (blueWork da) (blueWork db)) as [E1|E1|E1],
    (Z.compare_spec (blueWork db) (blueWork dc)) as [E2|E2|E2]; try done.
  - rewrite E1, E2, Z.compare_refl. destruct (bytesCompare a b) eqn:H1, (bytesCompare b c) eqn:H2; try done.
    by rewrite (bytesCompare_trans a b c).
  - by rewrite E1, (proj2 (Z.compare_lt_iff _ _)).
  - by rewrite <- E2, (proj2 (Z.compare_lt_iff _ _)).
  - by rewrite (proj2 (Z.compare_lt_iff _ _)) by lia.
Qed.

#[export] Instance precedes_irrefl : Irreflexive precedes.
Proof. intros a (da & db & Ha & Hb & Hl). simplify_eq. by rewrite Less_irrefl in Hl. Qed.

#[export] Instance precedes_trans : Transitive precedes.
Proof.
  intros a b c (da & db & Ha & Hb & Hab) (db' & dc & Hb' & Hc & Hbc). simplify_eq. exists da, dc. split_and!; [done|done|].
  by eapply Less_trans.
Qed.

#[export] Instance precedes_antisym : AntiSymm (=) precedes.
Proof. intros a b Hab Hba. destruct (precedes_irrefl a). by etransitivity. Qed.

Lemma precedes_total a b : is_Some (g !! a) -> is_Some (g !! b) -> a = b \/ precedes a b \/ precedes b a.
Proof.
  intros [da Ha] [db Hb]. destruct (decide (a = b)) as [|Hne]; [by left|right].
  destruct (Less a da b db) eqn:Hl; [left; by exists da, db|right; exists db, da]. split_and!; [done|done|].
  unfold Less, hashLess in *. rewrite (Z.compare_antisym (blueWork da)), (bytesCompare_antisym a).
  destruct (blueWork da ?= blueWork db); [|done|done]. destruct (bytesCompare a b) eqn:Hc; [|done|done].
  by apply bytesCompare_eq in Hc.
Qed.
End Order.

(** ** The selected parent *)

Section Select.
Context (s : dagState).
Notation g := (ds_ghostdag s).

Lemma ghostdagData_run a d : g !! a = Some d -> ghostdagData a s = (Ret d, s).
Proof. intros Ha. unfold ghostdagData, fetch, bind, get. by rewrite Ha. Qed.

Lemma less_run a b : is_Some (g !! a) -> is_Some (g !! b) -> less a b s = (Ret (bool_decide (a = b \/ precedes g a b)), s).
Proof.
  intros [da Ha] [db Hb]. unfold less, ChooseSelectedParent. rewrite !bind_assoc, (bind_Ret _ _ _ _ _ (ghostdagData_run a da Ha)).
  cbn [chooseLoop]. rewrite bind_assoc, (bind_Ret _ _ _ _ _ (ghostdagData_run a da Ha)), Less_irrefl.
  rewrite bind_assoc, (bind_Ret _ _ _ _ _ (ghostdagData_run b db Hb)). destruct (Less a da b db) eqn:Hl.
  - erewrite bind_Ret by done. rewrite !bool_decide_eq_true_2; [done| |done]. right. by exists da, db.
  - erewrite bind_Ret by done. unfold ret. do 2 f_equal. apply bool_decide_ext. split; [by left|].
    intros [?|(da' & db' & ? & ? & ?)]; [done|]. congruence.
Qed.

(** The greatest of the blocks. *)
Definition greatest (l : list DomainHash) (b : DomainHash) : Prop := b ∈ l /\ forall a, a ∈ l -> a = b \/ precedes g a b.

Lemma greatest_unique l l' b b' : l ≡ₚ l' -> greatest l b -> greatest l' b' -> b = b'.
Proof.
  intros Hp [Hb Hmax] [Hb' Hmax']. destruct (Hmax b') as [?|H1]; [by rewrite Hp|done|].
  destruct (Hmax' b) as [?|H2]; [by rewrite <- Hp|done|]. by apply (anti_symm (precedes g)).
Qed.

Lemma findSelectedParent_from l sp :
  Forall (fun a => is_Some (g !! a)) (sp :: l) ->
  exists b, findSelectedParent (Some sp) l s = (Ret (Some b), s) /\ greatest (sp :: l) b.
Proof.
  revert sp. induction l as [|a l IH]; intros sp Hl.
  { exists sp. split; [done|]. split; [set_solver|]. intros x ->%list_elem_of_singleton. by left. }
  apply list.Forall_cons in Hl as [Hsp Hl]. pose proof Hl as Hl'. apply list.Forall_cons in Hl' as [Ha Hl']. cbn [findSelectedParent].
  rewrite (bind_Ret _ _ _ _ _ (less_run sp a Hsp Ha)). case_bool_decide as Hlt.
  - destruct (IH a Hl) as (b & Hrun & Hb & Hmax). exists b. split; [done|]. split; [set_solver|].
    intros x [->|Hx]%elem_of_cons; [|by apply Hmax]. destruct Hlt as [->|Hlt]; [by apply Hmax; left|].
    destruct (Hmax a) as [<-|Hab]; [by left|by right|]. right. by etransitivity.
  - destruct (IH sp) as (b & Hrun & Hb & Hmax); [by constructor|]. exists b. split; [done|]. split; [set_solver|].
    intros x [->|[->|Hx]%elem_of_cons]%elem_of_cons; [by apply Hmax; left| |by apply Hmax; right].
    destruct (precedes_total g sp a Hsp Ha) as [?|[?|Has]]; [tauto|tauto|].
    destruct (Hmax sp) as [<-|Hsb]; [by left|by right|]. right. by etransitivity.
Qed.

Lemma findSelectedParent_run l :
  l <> [] -> Forall (fun a => is_Some (g !! a)) l -> exists b, findSelectedParent None l s = (Ret (Some b), s) /\ greatest l b.
Proof. destruct l as [|a l]; [done|]. intros _ Hl. by apply findSelectedParent_from. Qed.
End Select.

(** ** Sorted merge sets *)

Section Sort.
Context {A : Type} (lt : A -> A -> bool).

Lemma insertSorted_perm x l : insertSorted lt x l ≡ₚ x :: l.
Proof. induction l as [|y l IH]; cbn; [done|]. destruct (lt x y); [done|]. rewrite IH. apply Permutation_swap. Qed.

Lemma sortSlice_perm l : sortSlice lt l ≡ₚ l.
Proof.
  unfold sortSlice. assert (Hgen : forall acc, foldl (fun sorted x => insertSorted lt x sorted) acc l ≡ₚ l ++ acc).
  { induction l as [|x l IH]; intros acc; cbn; [done|]. rewrite IH, insertSorted_perm. by rewrite Permutation_middle. }
  by rewrite Hgen, app_nil_r.
Qed.

Context (Htrans : forall x y z, lt x y = true -> lt y z = true -> lt x z = true).

Lemma insertSorted_sorted x l :
  (forall y, y ∈ l -> lt x y = false -> lt y x = true) -> StronglySorted (fun a b => lt a b = true) l ->
  StronglySorted (fun a b => lt a b = true) (insertSorted lt x l).
Proof.
  intros Htot. induction 1 as [|y l Hl IH Hy]; cbn; [repeat constructor|]. destruct (lt x y) eqn:Hxy.
  - constructor; [by constructor|]. constructor; [done|]. eapply list.Forall_impl; [exact Hy|]. cbn. intros z Hz. by eapply Htrans.
  - constructor; [apply IH; intros z Hz; apply Htot; by right|]. rewrite insertSorted_perm. constructor; [|done].
    apply Htot; [left|done].
Qed.

Lemma sortSlice_sorted l :
  NoDup l -> (forall x y, x ∈ l -> y ∈ l -> x <> y -> lt x y = false -> lt y x = true) ->
  StronglySorted (fun a b => lt a b = true) (sortSlice lt l).
Proof.
  unfold sortSlice. intros Hnd Htot.
  assert (Hgen : forall acc, NoDup (acc ++ l) -> (forall x y, x ∈ acc ++ l -> y ∈ acc ++ l -> x <> y -> lt x y = false -> lt y x = true) ->
    StronglySorted (fun a b => lt a b = true) acc ->
    StronglySorted (fun a b => lt a b = true) (foldl (fun sorted x => insertSorted lt x sorted) acc l)).
  { clear Hnd Htot. induction l as [|x l IH]; intros acc Hnd Htot Hs; cbn; [done|].
    assert (Hp : insertSorted lt x acc ++ l ≡ₚ acc ++ x :: l) by (rewrite insertSorted_perm; cbn; by rewrite Permutation_middle).
    apply IH; [by rewrite Hp|intros a b; rewrite Hp; apply Htot|]. apply insertSorted_sorted; [|done].
    intros y Hy. apply Htot; [set_solver|set_solver|]. intros <-. apply list.NoDup_app in Hnd as (_ & Hd & _). apply (Hd x); set_solver. }
  apply Hgen; [done|done|constructor].
Qed.
End Sort.

Lemma StronglySorted_map {A B} (R : A -> A -> Prop) (R' : B -> B -> Prop) (f : A -> B) l :
  (forall x y, x ∈ l -> y ∈ l -> R x y -> R' (f x) (f y)) -> StronglySorted R l -> StronglySorted R' (map f l).
Proof.
  intros Hf. induction 1 as [|x l Hl IH Hx]; cbn; [constructor|]. constructor; [apply IH; intros y z Hy Hz; apply Hf; by right|].
  apply list.Forall_forall. intros y (z & -> & Hz)%list_elem_of_fmap. apply Hf; [by left|by right|].
  by apply (proj1 (list.Forall_forall _ _) Hx).
Qed.

Section SortMergeSet.
Context (s : dagState).
Notation g := (ds_ghostdag s).

Lemma traverse_data l :
  Forall (fun a => is_Some (g !! a)) l ->
  exists ds, traverse (fun h => d <- ghostdagData h ;; ret (h, d)) l s = (Ret ds, s) /\ ds.*1 = l /\
    forall h d, (h, d) ∈ ds -> g !! h = Some d.
Proof.
  induction 1 as [|a l [d Ha] Hl IH]; [exists []; split_and!; [done|done|set_solver]|]. destruct IH as (ds & Hrun & Hfst & Hin).
  exists ((a, d) :: ds). cbn [traverse]. rewrite bind_assoc, (bind_Ret _ _ _ _ _ (ghostdagData_run s a d Ha)).
  erewrite bind_Ret by done. rewrite (bind_Ret _ _ _ _ _ Hrun). split_and!; [done|cbn; by rewrite Hfst|].
  intros h d' [[= -> ->]|?]%elem_of_cons; [done|auto].
Qed.

(** A merge set of blocks with data is sorted by blue work and hash. *)
Lemma sortMergeSet_run l :
  NoDup l -> Forall (fun a => is_Some (g !! a)) l ->
  exists l', sortMergeSet l s = (Ret l', s) /\ l' ≡ₚ l /\ StronglySorted (precedes g) l'.
Proof.
  intros Hnd Hl. destruct l as [|a [|b l]]; [by exists []; split_and!; [| |constructor]|by exists [a]; split_and!; [| |repeat constructor]|].
  destruct (traverse_data _ Hl) as (ds & Hrun & Hfst & Hin). unfold sortMergeSet. rewrite (bind_Ret _ _ _ _ _ Hrun).
  eexists. split; [done|]. set (lt := fun a b => Less a.1 a.2 b.1 b.2). pose proof (sortSlice_perm lt ds) as Hp.
  assert (Hlt : forall x y, x ∈ ds -> y ∈ ds -> lt x y = true <-> precedes g x.1 y.1).
  { intros [h d] [h' d'] Hx%Hin Hy%Hin. unfold lt, precedes. cbn. split; [by exists d, d'|].
    intros (d1 & d2 & ? & ? & ?). congruence. }
  split; [rewrite <- Hfst; by apply Permutation_map|].
  assert (Hs : StronglySorted (fun a b => lt a b = true) (sortSlice lt ds)).
  { apply sortSlice_sorted.
    - intros [x dx] [y dy] [z dz]. unfold lt. cbn. apply Less_trans.
    - apply (NoDup_fmap_1 fst). by rewrite Hfst.
    - intros x y Hx Hy Hne Hf. apply Hlt; [done|done|]. destruct x as [x dx], y as [y dy]. pose proof (Hin _ _ Hx). pose proof (Hin _ _ Hy).
      destruct (precedes_total g x y) as [->|[H1|H1]]; [eauto|eauto|congruence| |done].
      apply (Hlt (x, dx) (y, dy)) in H1; [congruence|done|done]. }
  eapply StronglySorted_map; [|exact Hs]. intros x y Hx Hy. apply Hlt; by rewrite <- Hp.
Qed.
End SortMergeSet.
