(* ===== verification/GhostdagMerge.v ===== *)
(** * Merge sets

    The search of [mergeset.go] finds the blocks in the past of a new block that are
    neither its selected parent nor in the past of the selected parent, and it ends. *)

From stdpp Require Import sorting.
From S2P Require Import Prelude Float64 Interval Reachability Difficulty DagTopology Ghostdag GhostdagOrder.

(** [a] is in the past of [b]. *)
Definition past (s : dagState) : DomainHash -> DomainHash -> Prop := tc (fun a b => a ∈ parentsIn s b).

(** What the topology manager promises of the blocks it knows: their parents are known, and
    its answers about their past are right. *)
Class Topology (s : dagState) (known : list DomainHash) : Prop := {
  tp_relations : forall b, b ∈ known -> is_Some (ds_relations s !! b);
  tp_parents : forall b p, b ∈ known -> p ∈ parentsIn s b -> p ∈ known;
  tp_ancestor : forall a b, a ∈ known -> b ∈ known ->
    exists res, IsAncestorOf a b s = (Ret res, s) /\ (res = true <-> a = b \/ past s a b)
}.

Lemma past_parent s a b : past s a b <-> exists p, p ∈ parentsIn s b /\ (a = p \/ past s a p).
Proof.
  split.
  - induction 1 as [a b Hab|a c b Hac Hcb IH]; [exists a; auto|]. destruct IH as (p & Hp & [->|Hcp]).
    + exists p. split; [done|]. right. by apply tc_once.
    + exists p. split; [done|]. right. by eapply tc_l.
  - intros (p & Hp & [->|Hap]); [by apply tc_once|]. by eapply tc_r.
Qed.

Section Merge.
Context (s : dagState) (known : list DomainHash) `{Htop : !Topology s known} (sp : DomainHash) (Hsp : sp ∈ known).

Lemma ParentsOf_run b : b ∈ known -> ParentsOf b s = (Ret (parentsIn s b), s).
Proof.
  intros Hb. destruct (tp_relations b Hb) as [r Hr]. unfold ParentsOf, BlockRelation, fetch, bind, get, parentsIn. by rewrite Hr.
Qed.

(** The selected parent or its past. *)
Definition behind (a : DomainHash) : Prop := a = sp \/ past s a sp.

Lemma behind_parent a b : behind b -> a ∈ parentsIn s b -> behind a.
Proof. intros [->|Hb] Ha; right; [by apply tc_once|by eapply tc_l]. Qed.

Lemma scanParents_run ps ms sps queue :
  Forall (fun p => p ∈ known) ps -> NoDup ms -> (forall a, a ∈ sps -> behind a) ->
  exists new sps', scanParents (Some sp) ps ms sps queue s = (Ret (ms ++ new, sps', queue ++ new), s) /\
    NoDup (ms ++ new) /\ (forall a, a ∈ sps' -> behind a) /\
    (forall a, a ∈ new -> a ∈ ps /\ ~ behind a) /\ forall p, p ∈ ps -> p ∈ ms ++ new \/ behind p.
Proof.
  revert ms sps queue. induction ps as [|p ps IH]; intros ms sps queue Hps Hnd Hpast; cbn [scanParents].
  { exists [], sps. rewrite !app_nil_r. split_and!; [done|done|done|set_solver|set_solver]. }
  apply list.Forall_cons in Hps as [Hp Hps]. case_bool_decide as Hin.
  { destruct (IH ms sps queue) as (new & sps' & Hrun & Hnd' & Hpast' & Hnew & Hcov); [done..|].
    exists new, sps'. split_and!; [done|done|done|intros a Ha; destruct (Hnew a Ha); set_solver|].
    intros q [->|Hq]%elem_of_cons; [set_solver|auto]. }
  case_bool_decide as Hin2.
  { destruct (IH ms sps queue) as (new & sps' & Hrun & Hnd' & Hpast' & Hnew & Hcov); [done..|].
    exists new, sps'. split_and!; [done|done|done|intros a Ha; destruct (Hnew a Ha); set_solver|].
    intros q [->|Hq]%elem_of_cons; [right; auto|auto]. }
  erewrite bind_Ret by done. destruct (tp_ancestor p sp Hp Hsp) as (res & Hrun & Hres). rewrite (bind_Ret _ _ _ _ _ Hrun). destruct res.
  - assert (Hb : behind p) by by apply Hres.
    destruct (IH ms ({[p]} ∪ sps) queue) as (new & sps' & Hrun' & Hnd' & Hpast' & Hnew & Hcov); [done|done|set_solver|].
    exists new, sps'. split_and!; [done|done|done|intros a Ha; destruct (Hnew a Ha); set_solver|].
    intros q [->|Hq]%elem_of_cons; [by right|auto].
  - assert (Hb : ~ behind p) by (intros Hb; by apply Hres in Hb).
    destruct (IH (ms ++ [p]) sps (queue ++ [p])) as (new & sps' & Hrun' & Hnd' & Hpast' & Hnew & Hcov); [done| |done|].
    { apply list.NoDup_app. split_and!; [done|set_solver|apply NoDup_singleton]. }
    exists (p :: new), sps'. rewrite <- !app_assoc in *. cbn in *. split_and!; [done|done|done| |].
    + intros a [->|Ha]%elem_of_cons; [split; [by left|done]|]. destruct (Hnew a Ha). set_solver.
    + intros q [->|Hq]%elem_of_cons; [set_solver|]. auto.
Qed.

(** [ms] has the blocks reached so far, [done_] those whose parents have been scanned. *)
Lemma mergeLoop_run n done_ queue sps :
  NoDup known -> (forall a, a ∈ done_ ++ queue -> a ∈ known) -> NoDup (done_ ++ queue) -> (forall a, a ∈ sps -> behind a) ->
  (forall b p, b ∈ done_ -> p ∈ parentsIn s b -> p ∈ done_ ++ queue \/ behind p) -> (length known < n + length done_)%nat ->
  exists new, mergeLoop n (Some sp) (done_ ++ queue) sps queue s = (Ret (done_ ++ queue ++ new), s) /\
    NoDup (done_ ++ queue ++ new) /\ (forall a, a ∈ new -> ~ behind a /\ exists b, b ∈ done_ ++ queue /\ past s a b) /\
    (forall b p, b ∈ done_ ++ queue ++ new -> p ∈ parentsIn s b -> p ∈ done_ ++ queue ++ new \/ behind p).
Proof.
  intros Hk. revert done_ queue sps. induction n as [|n IH]; intros done_ queue sps Hin Hnd Hpast Hcl Hn.
  { assert (length done_ <= length known)%nat; [|lia]. apply (submseteq_length), NoDup_submseteq; [by apply list.NoDup_app in Hnd as (? & _)|].
    intros a Ha. apply Hin. set_solver. }
  destruct queue as [|b queue]; cbn [mergeLoop].
  { exists []. rewrite !app_nil_r in *. split_and!; [done|done|set_solver|done]. }
  assert (Hb : b ∈ known) by (apply Hin; set_solver). rewrite (bind_Ret _ _ _ _ _ (ParentsOf_run b Hb)).
  destruct (scanParents_run (parentsIn s b) (done_ ++ b :: queue) sps queue) as (new & sps' & Hrun & Hnd' & Hpast' & Hnew & Hcov).
  { apply list.Forall_forall. intros p Hp. by eapply tp_parents. }
  { done. }
  { done. }
  rewrite (bind_Ret _ _ _ _ _ Hrun). cbn [fst snd].
  assert (Heq : (done_ ++ b :: queue) ++ new = (done_ ++ [b]) ++ queue ++ new) by (by rewrite <- !app_assoc).
  rewrite Heq in *. destruct (IH (done_ ++ [b]) (queue ++ new) sps') as (new' & Hrun' & Hnd2 & Hnew2 & Hcl2).
  - intros a Ha. rewrite <- Heq in Ha. apply elem_of_app in Ha as [Ha|Ha]; [by apply Hin|].
    destruct (Hnew a Ha) as [Hpa _]. by eapply tp_parents.
  - done.
  - done.
  - intros c p [Hc| ->%list_elem_of_singleton]%elem_of_app Hp; [|by apply Hcov].
    destruct (Hcl c p Hc Hp) as [?|?]; [|by right]. left. rewrite <- Heq. set_solver.
  - rewrite length_app. cbn. lia.
  - exists (new ++ new'). rewrite Hrun'. replace (done_ ++ (b :: queue) ++ new ++ new') with ((done_ ++ [b]) ++ (queue ++ new) ++ new')
      by (by rewrite <- !app_assoc). split_and!; [done|done| |done].
    assert (Hnew1 : forall a, a ∈ new -> past s a b) by (intros a Ha; apply tc_once; by apply Hnew).
    intros a [Ha|Ha]%elem_of_app.
    + split; [by apply Hnew|]. exists b. split; [set_solver|auto].
    + destruct (Hnew2 a Ha) as (Hb2 & c & Hc & Hac). split; [done|]. rewrite <- Heq in Hc. apply elem_of_app in Hc as [Hc|Hc]; [by exists c|].
      exists b. split; [set_solver|]. etransitivity; [exact Hac|auto].
Qed.

(** A block of the merge set: a parent, or in the past of one and not behind the selected parent. *)
Definition merged (ps : list DomainHash) (a : DomainHash) : Prop :=
  a <> sp /\ (a ∈ ps \/ (exists p, p ∈ ps /\ past s a p) /\ ~ past s a sp).

Lemma mergeSet_run fuel ps :
  NoDup known -> NoDup ps -> (forall p, p ∈ ps -> p ∈ known) -> sp ∈ ps -> (forall a, a ∈ known -> is_Some (ds_ghostdag s !! a)) ->
  (length known < fuel)%nat ->
  exists ms, mergeSetWithoutSelectedParent fuel (Some sp) ps s = (Ret ms, s) /\ NoDup ms /\
    StronglySorted (precedes (ds_ghostdag s)) ms /\ (forall a, a ∈ ms <-> merged ps a) /\ forall a, a ∈ ms -> a ∈ known.
Proof.
  intros Hk Hnd Hps Hspin Hdata Hfuel. unfold mergeSetWithoutSelectedParent.
  set (queue := filter (fun p => Some p <> Some sp) ps).
  assert (Hq : forall a, a ∈ queue <-> a ∈ ps /\ a <> sp).
  { intros a. unfold queue. rewrite list_elem_of_filter. split; intros [H1 H2]; split; congruence. }
  destruct (mergeLoop_run fuel [] queue ∅) as (new & Hrun & Hnd' & Hnew & Hcl); [done| | |set_solver|set_solver|cbn; lia|].
  { intros a Ha. apply Hps. by apply Hq. }
  { by apply list.NoDup_filter. }
  cbn [app] in *. rewrite (bind_Ret _ _ _ _ _ Hrun).
  assert (Hknown : forall a b, b ∈ known -> past s a b -> a ∈ known).
  { intros a b Hb Hab. revert Hb. induction Hab as [a b Hab|a c b Hac Hcb IH]; intros Hb; [by eapply tp_parents|].
    eapply tp_parents; [by apply IH|done]. }
  assert (Hin : forall a, a ∈ queue ++ new -> a ∈ known).
  { intros a [Ha|Ha]%elem_of_app; [by apply Hps, Hq|]. destruct (Hnew a Ha) as (_ & b & Hb & Hab).
    eapply Hknown; [|exact Hab]. by apply Hps, Hq. }
  destruct (sortMergeSet_run s (queue ++ new)) as (ms & Hsort & Hp & Hsorted); [done| |].
  { apply list.Forall_forall. auto. }
  exists ms. split_and!; [done|by rewrite Hp|done| |intros a Ha; apply Hin; by rewrite <- Hp].
  assert (Hreach : forall a b, past s a b -> b ∈ queue ++ new -> ~ behind a -> a ∈ queue ++ new).
  { intros a b Hab Hb. revert Hb. induction Hab as [a b Hab|a c b Hac Hcb IH]; intros Hb Hna.
    - by destruct (Hcl b a Hb Hab).
    - destruct (Hcl c a) as [?|?]; [apply IH; [done|]|done|done|done]. intros Hbc. apply Hna. by eapply behind_parent. }
  intros a. rewrite Hp. unfold merged. split.
  - intros [Ha|Ha]%elem_of_app; [apply Hq in Ha as [? ?]; auto|]. destruct (Hnew a Ha) as (Hna & b & Hb & Hab).
    split; [intros ->; apply Hna; by left|]. right. split; [exists b; split; [by apply Hq|done]|]. intros Hsp'. apply Hna. by right.
  - intros (Hne & [Ha|((p & Hpin & Hap) & Hna)]); [apply elem_of_app; left; by apply Hq|].
    assert (Hpsp : p <> sp) by (by intros ->). apply (Hreach a p); [done|apply elem_of_app; left; by apply Hq|].
    intros [?|?]; done.
Qed.
End Merge.

(** The merge set does not depend on the order of the parents. *)
Lemma mergeSet_perm s known sp fuel ps ps' :
  Topology s known -> sp ∈ known -> NoDup known -> NoDup ps -> (forall p, p ∈ ps -> p ∈ known) -> sp ∈ ps ->
  (forall a, a ∈ known -> is_Some (ds_ghostdag s !! a)) -> (length known < fuel)%nat -> ps ≡ₚ ps' ->
  mergeSetWithoutSelectedParent fuel (Some sp) ps s = mergeSetWithoutSelectedParent fuel (Some sp) ps' s.
Proof.
  intros Htop Hsp Hk Hnd Hps Hin Hdata Hfuel Hp.
  destruct (mergeSet_run s known sp Hsp fuel ps) as (ms & Hrun & Hn & Hs & Hm & _); [done..|].
  destruct (mergeSet_run s known sp Hsp fuel ps') as (ms' & Hrun' & Hn' & Hs' & Hm' & _);
    [done|by rewrite <- Hp|intros p; rewrite <- Hp; auto|by rewrite <- Hp|done|done|].
  rewrite Hrun, Hrun'. do 2 f_equal. apply (StronglySorted_unique (precedes (ds_ghostdag s))); [done|done|].
  apply NoDup_Permutation; [done|done|]. intros a. rewrite Hm, Hm'. unfold merged. by setoid_rewrite Hp.
Qed.
