(* ===== verification/GhostdagColor.v ===== *)
(** * Coloring

    The coloring of [ghostdag.go] ends for every block of a DAG with one root, splits the
    merge set into blues and reds in its order, and keeps the number of blues and their
    anticones in bounds. *)

From stdpp Require Import sorting.
From S2P Require Import Prelude Float64 Interval Reachability Difficulty DagTopology Ghostdag GhostdagOrder GhostdagMerge.

Definition inPastOrSame (s : dagState) (a b : DomainHash) : Prop := a = b \/ past s a b.

(** [p] is the selected parent of [b]. *)
Definition selected (s : dagState) (p b : DomainHash) : Prop :=
  exists d, ds_ghostdag s !! b = Some d /\ selectedParent d = Some p.

(** [x] is in the blue set of [b]: a merge set blue of a block of its selected chain. *)
Definition inBlueSet (s : dagState) (x b : DomainHash) : Prop :=
  exists c d, rtc (selected s) c b /\ ds_ghostdag s !! c = Some d /\ x ∈ mergeSetBlues d.

(** Stored GHOSTDAG data of the known blocks, with the root [r] of the DAG; [rank] numbers the
    blocks so that parents come first. *)
Record colored (s : dagState) (known : list DomainHash) (r : DomainHash) (rank : DomainHash -> nat) : Prop := {
  co_root : r ∈ known;
  co_data : forall b, b ∈ known -> is_Some (ds_ghostdag s !! b);
  co_past : forall b, b ∈ known -> inPastOrSame s r b;
  co_selected : forall b p, b ∈ known -> selected s p b -> p ∈ parentsIn s b;
  co_chain : forall b, b ∈ known -> b <> r -> exists p, selected s p b;
  co_blues : forall b d x, b ∈ known -> ds_ghostdag s !! b = Some d -> x ∈ mergeSetBlues d -> past s x b;
  co_rank : forall b p, b ∈ known -> p ∈ parentsIn s b -> (rank p < rank b)%nat
}.

Section Color.
Context (gm : ghostdagManager) (s : dagState) (known : list DomainHash) (r : DomainHash) (rank : DomainHash -> nat).
Context `{Htop : !Topology s known} (Hco : colored s known r rank).

Lemma past_known a b : b ∈ known -> past s a b -> a ∈ known.
Proof.
  intros Hb Hab. revert Hb. induction Hab as [a b Hab|a c b Hac Hcb IH]; intros Hb; [by eapply tp_parents|].
  eapply tp_parents; [by apply IH|done].
Qed.

Lemma past_trans a b c : past s a b -> inPastOrSame s b c -> past s a c.
Proof. intros Hab [<-|Hbc]; [done|]. by etransitivity. Qed.

Lemma same_trans a b c : inPastOrSame s a b -> inPastOrSame s b c -> inPastOrSame s a c.
Proof. intros [<-|Hab] Hbc; [done|]. right. by eapply past_trans. Qed.

Lemma selected_known b p : b ∈ known -> selected s p b -> p ∈ known /\ (rank p < rank b)%nat.
Proof. intros Hb Hp. pose proof (co_selected _ _ _ _ Hco b p Hb Hp). split; [by eapply tp_parents|by eapply co_rank]. Qed.

Lemma chain_known a b : b ∈ known -> rtc (selected s) a b -> a ∈ known /\ inPastOrSame s a b.
Proof.
  intros Hb. induction 1 as [|a c b Hac Hcb IH]; [split; [done|by left]|]. destruct (IH Hb) as [Hc Hcb'].
  split; [by eapply selected_known|]. right. eapply past_trans; [|exact Hcb']. apply tc_once. by eapply co_selected.
Qed.

Lemma inBlueSet_cons c d p x :
  ds_ghostdag s !! c = Some d -> selectedParent d = Some p -> inBlueSet s x c -> x ∈ mergeSetBlues d \/ inBlueSet s x p.
Proof.
  intros Hd Hp (c' & d' & Hch & Hd' & Hx). apply rtc_inv_r in Hch as [->|(q & Hcq & (d2 & Hd2 & Hq))]; simplify_eq; [by left|].
  right. by exists c', d'.
Qed.

(** Data whose selected parent is known. *)
Definition anchored (d : BlockGHOSTDAGData) : Prop := forall p, selectedParent d = Some p -> p ∈ known.

Lemma anchored_known b d : b ∈ known -> ds_ghostdag s !! b = Some d -> anchored d.
Proof. intros Hb Hd p Hp. apply (selected_known b p Hb). by exists d. Qed.

Lemma blueAnticoneWalk_run steps block d : anchored d -> exists size, blueAnticoneWalk gm steps block d s = (Ret size, s).
Proof.
  revert d. induction steps as [|steps IH]; intros d Hd; cbn [blueAnticoneWalk].
  { destruct (bluesAnticoneSizes d !! block); eexists; done. }
  destruct (bluesAnticoneSizes d !! block); [eexists; done|]. destruct (selectedParent d) as [p|] eqn:Hp; [|eexists; done].
  destruct (bool_decide _ || bool_decide _); [eexists; done|].
  assert (Hpk : p ∈ known) by auto. destruct (co_data _ _ _ _ Hco p Hpk) as [d' Hd'].
  rewrite (bind_Ret _ _ _ _ _ (ghostdagData_run s p d' Hd')). apply IH. by eapply anchored_known.
Qed.

Context (k version : Z) (cand : DomainHash) (Hcand : cand ∈ known).

(** The bound on anticones. *)
Definition maxAnticoneSize : Z := if 7 <=? version then u8 (k + 1) else k.

(** [counted] are the blues that have been counted: [count] is their number, in bounds. *)
Definition counts (counted : list DomainHash) (count : Z) : Prop := count = len counted /\ len counted <= maxAnticoneSize.

Lemma checkBlues_run d blues sizes count :
  anchored d -> (forall x, x ∈ blues -> x ∈ known) ->
  exists v sizes' count', checkBlues gm k version d cand blues sizes count s = (Ret (v, sizes', count'), s) /\ v <> IsBlue /\
    (maxAnticoneSize < 255 -> v = Undecided -> forall counted, counts counted count ->
     exists counted', counts counted' count' /\ counted ⊆ counted' /\
       forall x, x ∈ blues -> ~ inPastOrSame s x cand -> x ∈ counted').
Proof.
  intros Hd. revert sizes count. induction blues as [|b blues IH]; intros sizes count Hb; cbn [checkBlues].
  { exists Undecided, sizes, count. split_and!; [done|done|]. intros _ _ counted Hc. exists counted. set_solver. }
  assert (Hb' : forall x, x ∈ blues -> x ∈ known) by set_solver. assert (Hbk : b ∈ known) by set_solver.
  destruct (tp_ancestor b cand Hbk Hcand) as (res & Hrun & Hres). rewrite (bind_Ret _ _ _ _ _ Hrun). destruct res.
  - destruct (IH sizes count Hb') as (v & sizes' & count' & Hrun' & Hv & Hc). exists v, sizes', count'. split_and!; [done|done|].
    intros Hmax Hund counted Hcnt. destruct (Hc Hmax Hund counted Hcnt) as (counted' & H1 & H2 & H3). exists counted'. split_and!; [done|done|].
    intros x [->|Hx]%elem_of_cons Hn; [|auto]. destruct Hn. by apply Hres.
  - destruct (blueAnticoneWalk_run (Z.to_nat (u8 (4 * k) + 1)) b d Hd) as (size & Hsize). unfold blueAnticoneSize.
    rewrite (bind_Ret _ _ _ _ _ Hsize). fold maxAnticoneSize.
    destruct (Z.ltb_spec maxAnticoneSize (u8 (count + 1))) as [Hlt|Hge]; [eexists _, _, _; by split_and!|].
    destruct (maxAnticoneSize <=? size); [eexists _, _, _; by split_and!|].
    destruct (IH (<[b := size]> sizes) (u8 (count + 1)) Hb') as (v & sizes' & count' & Hrun' & Hv & Hc).
    exists v, sizes', count'. split_and!; [done|done|]. intros Hmax Hund counted [-> Hle].
    assert (Hlen : 0 <= len counted) by (unfold len; lia). unfold u8 in *. rewrite Z.mod_small in Hge by lia.
    destruct (Hc Hmax Hund (b :: counted)) as (counted' & H1 & H2 & H3).
    { rewrite Z.mod_small by lia. unfold counts, len in *. cbn [length]. lia. }
    exists counted'. split_and!; [done|set_solver|]. intros x [->|Hx]%elem_of_cons Hn; [set_solver|auto].
Qed.

(** The walk along the selected chain ends, and a candidate that is found blue has few blues
    of the chain outside its past. *)
Lemma candidateLoop_run n c d sizes count :
  c ∈ known -> ds_ghostdag s !! c = Some d -> (rank c < n)%nat ->
  exists res, candidateLoop gm n k version c d cand sizes count s = (Ret res, s) /\
    (maxAnticoneSize < 255 -> forall size sizes', res = Some (size, sizes') -> forall counted, counts counted count ->
     exists counted', counts counted' size /\ counted ⊆ counted' /\
       forall x, inBlueSet s x c -> ~ inPastOrSame s x cand -> x ∈ counted').
Proof.
  revert c d sizes count. induction n as [|n IH]; intros c d sizes count Hc Hd Hn; [lia|]. cbn [candidateLoop].
  unfold checkBlueCandidateWithChainBlock. destruct (tp_ancestor c cand Hc Hcand) as (res & Hrun & Hres).
  rewrite bind_assoc, (bind_Ret _ _ _ _ _ Hrun). destruct res.
  - erewrite bind_Ret by done. eexists. split; [done|]. intros _ size sizes' [= -> ->] counted Hcnt.
    exists counted. split_and!; [done|done|]. intros x (c' & d' & Hch & Hd' & Hx) Hn'. exfalso. apply Hn'.
    destruct (chain_known c' c Hc Hch) as (Hc' & Hcc'). right. eapply past_trans; [by eapply co_blues|].
    eapply same_trans; [exact Hcc'|by apply Hres].
  - destruct (checkBlues_run d (mergeSetBlues d) sizes count) as (v & sizes1 & count1 & Hrun1 & Hv & Hc1).
    { by eapply anchored_known. }
    { intros x Hx. eapply past_known; [exact Hc|]. by eapply co_blues. }
    rewrite (bind_Ret _ _ _ _ _ Hrun1). destruct v; [done|eexists; split; [done|]; done|].
    assert (Hcr : c <> r) by (intros ->; destruct Hres as [_ Hres]; by discriminate Hres; apply (co_past _ _ _ _ Hco)).
    destruct (co_chain _ _ _ _ Hco c Hc Hcr) as (p & Hp). pose proof Hp as (d' & Hd' & Hpd). rewrite Hd in Hd'. injection Hd' as <-.
    destruct (selected_known c p Hc Hp) as [Hpk Hrank]. destruct (co_data _ _ _ _ Hco p Hpk) as [dp Hdp].
    rewrite Hpd. erewrite bind_Ret by done. rewrite (bind_Ret _ _ _ _ _ (ghostdagData_run s p dp Hdp)).
    destruct (IH p dp sizes1 count1 Hpk Hdp ltac:(lia)) as (res & Hrun2 & Hc2). exists res. split; [done|].
    intros Hmax size sizes' Hsome counted Hcnt. destruct (Hc1 Hmax eq_refl counted Hcnt) as (cnt1 & Hcnt1 & Hsub1 & Hb1).
    destruct (Hc2 Hmax size sizes' Hsome cnt1 Hcnt1) as (cnt2 & Hcnt2 & Hsub2 & Hb2). exists cnt2. split_and!; [done|set_solver|].
    intros x Hx Hnx. destruct (inBlueSet_cons c d p x Hd Hpd Hx) as [Hx'|Hx']; [by apply Hsub2, Hb1|by apply Hb2].
Qed.

(** The candidate is decided; if it is blue, at most [maxAnticoneSize] blocks of the blue set
    of the selected parent are outside its past. *)
Lemma checkBlueCandidate_run n d sp :
  selectedParent d = Some sp -> sp ∈ known -> (rank sp < n)%nat ->
  exists res, checkBlueCandidate gm n d cand k version s = (Ret res, s) /\
    (u8 (len (mergeSetBlues d)) = u8 (k + 1) -> res = None) /\
    (0 <= maxAnticoneSize < 255 -> is_Some res ->
     forall l, NoDup l -> (forall x, x ∈ l -> inBlueSet s x sp /\ ~ inPastOrSame s x cand) -> len l <= maxAnticoneSize).
Proof.
  intros Hsp Hspk Hn. unfold checkBlueCandidate. destruct (Z.eqb_spec (u8 (len (mergeSetBlues d))) (u8 (k + 1))).
  { exists None. split_and!; [done|done|]. by intros _ []. }
  rewrite Hsp. erewrite bind_Ret by done. destruct (co_data _ _ _ _ Hco sp Hspk) as [dsp Hdsp].
  rewrite (bind_Ret _ _ _ _ _ (ghostdagData_run s sp dsp Hdsp)).
  destruct (candidateLoop_run n sp dsp ∅ 0 Hspk Hdsp Hn) as (res & Hrun & Hb). exists res. split_and!; [done|done|].
  intros Hmax [[size sizes'] ->] l Hnd Hl.
  destruct (Hb ltac:(lia) size sizes' eq_refl []) as (counted & [-> Hle] & _ & Hall); [split; [done|unfold len; cbn; lia]|].
  etransitivity; [|exact Hle]. unfold len. apply inj_le. apply submseteq_length, NoDup_submseteq; [done|].
  intros x Hx. destruct (Hl x Hx). auto.
Qed.
End Color.

Section ColorAll.
Context (gm : ghostdagManager) (s : dagState) (known : list DomainHash) (r : DomainHash) (rank : DomainHash -> nat).
Context `{Htop : !Topology s known} (Hco : colored s known r rank) (fuel : nat) (Hrank : forall b, b ∈ known -> (rank b < fuel)%nat).

(** At most as many blocks of the blue set of [sp] as the bound allows are outside the past of [b]. *)
Definition smallAnticone (k version : Z) (sp b : DomainHash) : Prop :=
  0 <= maxAnticoneSize k version < 255 ->
  forall l, NoDup l -> (forall x, x ∈ l -> inBlueSet s x sp /\ ~ inPastOrSame s x b) -> len l <= maxAnticoneSize k version.

(** The candidates become blues and reds, in their order. *)
Lemma colorLoop_run k version ms d sp :
  selectedParent d = Some sp -> sp ∈ known -> (forall a, a ∈ ms -> a ∈ known) ->
  exists d' blues reds, colorLoop gm fuel k version ms d s = (Ret d', s) /\ selectedParent d' = Some sp /\
    mergeSetBlues d' = mergeSetBlues d ++ blues /\ mergeSetReds d' = mergeSetReds d ++ reds /\
    blues ++ reds ≡ₚ ms /\ blues `sublist_of` ms /\ reds `sublist_of` ms /\
    (0 <= k < 255 -> len (mergeSetBlues d) <= k + 1 -> len (mergeSetBlues d') <= k + 1) /\
    forall b, b ∈ blues -> smallAnticone k version sp b.
Proof.
  intros Hsp Hspk. revert d Hsp. induction ms as [|a ms IH]; intros d Hsp Hms; cbn [colorLoop].
  { exists d, [], []. rewrite !app_nil_r. split_and!; try done. set_solver. }
  destruct (checkBlueCandidate_run gm s known r rank Hco k version a ltac:(set_solver) fuel d sp Hsp Hspk (Hrank _ Hspk))
    as (res & Hrun & Hfull & Hsmall). rewrite (bind_Ret _ _ _ _ _ Hrun).
  assert (Hms' : forall b, b ∈ ms -> b ∈ known) by set_solver. destruct res as [[size sizes]|].
  - destruct (IH (addBlue d a size sizes) Hsp Hms') as (d' & blues & reds & Hrun' & Hsp' & Hb & Hr & Hp & Hsb & Hsr & Hlen & Hsm).
    exists d', (a :: blues), reds. cbn [mergeSetBlues mergeSetReds addBlue] in *. rewrite <- app_assoc in Hb.
    split_and!; [done|done|done|done|by cbn; rewrite Hp|by constructor|by constructor| |].
    + intros Hk Hle. apply Hlen; [done|]. rewrite len_app, len_single.
      assert (Hne : len (mergeSetBlues d) <> k + 1); [|lia]. intros Heq. rewrite Heq in Hfull. by specialize (Hfull eq_refl).
    + intros b [->|Hin]%elem_of_cons; [|auto]. intros Hmax. apply Hsmall; [done|eauto].
  - destruct (IH (addRed d a) Hsp Hms') as (d' & blues & reds & Hrun' & Hsp' & Hb & Hr & Hp & Hsb & Hsr & Hlen & Hsm).
    exists d', blues, (a :: reds). cbn [mergeSetBlues mergeSetReds addRed] in *. rewrite <- app_assoc in Hr.
    split_and!; [done|done|done|done|by rewrite <- Hp, Permutation_middle|by constructor|by constructor|done|done].
Qed.
End ColorAll.

Section Work.
Context (gm : ghostdagManager) (s : dagState).

(** The work of a block, which the virtual genesis has none of. *)
Definition workOf (b : DomainHash) : Z :=
  if decide (b = gm_VirtualGenesisBlockHash gm) then 0
  else match ds_headers s !! b with Some h => CalcWork (Bits h) | None => 0 end.

Lemma addWork_run work blues :
  (forall b, b ∈ blues -> b = gm_VirtualGenesisBlockHash gm \/ is_Some (ds_headers s !! b)) ->
  addWork gm work blues s = (Ret (work + zsum (map workOf blues)), s).
Proof.
  revert work. induction blues as [|b blues IH]; intros work Hh; cbn [addWork map zsum]; [by rewrite Z.add_0_r|].
  assert (Hh' : forall x, x ∈ blues -> x = gm_VirtualGenesisBlockHash gm \/ is_Some (ds_headers s !! x)) by set_solver.
  unfold workOf at 1. case_bool_decide as Hb.
  - rewrite decide_True, IH by done. do 2 f_equal.
  - rewrite decide_False by done. destruct (Hh b) as [?|[h Hbh]]; [by left|done|].
    erewrite bind_Ret by (unfold fetch, bind, get; by rewrite Hbh). rewrite Hbh, IH by done. do 2 f_equal. lia.
Qed.
End Work.
