(* ===== verification/GhostdagProps.v ===== *)
(** * The GHOSTDAG data of a block

    What [GHOSTDAG] stores for a new block whose parents are blocks of a DAG that is
    colored already. *)

From stdpp Require Import sorting.
From S2P Require Import Prelude Float64 Interval Reachability Difficulty DagTopology Ghostdag GhostdagOrder GhostdagMerge GhostdagColor.

(** The data [d] of a block with the parents [ps], colored by the rules of [version]. *)
Record ghostdagOk (gm : ghostdagManager) (s : dagState) (ps : list DomainHash) (version : Z) (d : BlockGHOSTDAGData)
    (sp : DomainHash) (blues : list DomainHash) : Prop := {
  gk_selected : selectedParent d = Some sp;
  gk_greatest : greatest s ps sp;
  gk_blues : mergeSetBlues d = sp :: blues;
  gk_NoDup : NoDup (blues ++ mergeSetReds d);
  gk_merged : forall a, a ∈ blues ++ mergeSetReds d <-> merged s sp ps a;
  gk_sorted_blues : StronglySorted (precedes (ds_ghostdag s)) blues;
  gk_sorted_reds : StronglySorted (precedes (ds_ghostdag s)) (mergeSetReds d);
  gk_size : 0 <= dynamicK d < 255 -> len (mergeSetBlues d) <= dynamicK d + 1;
  gk_anticone : forall b, b ∈ blues -> smallAnticone s (dynamicK d) version sp b;
  gk_score : forall dsp, ds_ghostdag s !! sp = Some dsp -> blueScore d = u64 (blueScore dsp + len (mergeSetBlues d));
  gk_work : forall dsp, ds_ghostdag s !! sp = Some dsp -> blueWork d = blueWork dsp + zsum (map (workOf gm s) (mergeSetBlues d))
}.

Lemma StronglySorted_sublist {A} (R : A -> A -> Prop) l l' : l `sublist_of` l' -> StronglySorted R l' -> StronglySorted R l.
Proof.
  induction 1 as [|x l l' Hl IH|x l l' Hl IH]; intros Hs; [done| |]; apply StronglySorted_inv in Hs as [Hs Hx].
  - constructor; [auto|]. apply list.Forall_forall. intros y Hy. apply (proj1 (list.Forall_forall _ _) Hx).
    eapply elem_of_submseteq; [done|by apply sublist_submseteq].
  - auto.
Qed.

Definition stagedGhostdag (b : DomainHash) (d : BlockGHOSTDAGData) (s : dagState) : dagState :=
  MkDagState (ds_relations s) (<[b := d]> (ds_ghostdag s)) (ds_headers s) (ds_daaScores s) (ds_reach s).

Section Version.
Context (gm : ghostdagManager) (s : dagState).

Lemma blockVersion_run sp : exists v, blockVersion gm sp s = (Ret v, s).
Proof.
  unfold blockVersion. destruct (gm_powScores gm); [by eexists|]. destruct sp as [sp|]; [|by eexists].
  unfold bind, get. destruct (ds_daaScores s !! sp); [by eexists|]. destruct (ds_headers s !! sp); by eexists.
Qed.

Lemma kForBlockVersion_run v : gm_k gm <> [] -> exists k, kForBlockVersion gm v s = (Ret k, s).
Proof.
  intros Hk. unfold kForBlockVersion. set (i := if _ <=? _ then _ else _).
  assert (Hlen : 0 < len (gm_k gm)) by (destruct (gm_k gm); [done|unfold len; cbn; lia]).
  assert (Hi : 0 <= i < len (gm_k gm)) by (unfold i; destruct (Z.leb_spec (len (gm_k gm)) (Z.max (v - 1) 0)); lia).
  destruct (gm_k gm !! Z.to_nat i) as [k|] eqn:Hki.
  - exists k. rewrite <- (Z2Nat.id i) by lia. by apply index_run.
  - apply lookup_ge_None in Hki. unfold len in *. lia.
Qed.
End Version.

Section Data.
Context (CalculateRank : list DomainHash -> dagM Z) (gm : ghostdagManager) (fuel : nat).
Context (s : dagState) (known : list DomainHash) (r : DomainHash) (rank : DomainHash -> nat).
Context `{Htop : !Topology s known} (Hco : colored s known r rank) (Hnd : NoDup known) (Hfuel : (length known < fuel)%nat).
Context (Hrank : forall b, b ∈ known -> (rank b < fuel)%nat) (Hk : gm_k gm <> []).
Context (Hheaders : forall b, b ∈ known -> b = gm_VirtualGenesisBlockHash gm \/ is_Some (ds_headers s !! b)).

(** [GHOSTDAG] succeeds, and what it stores is as specified. *)
Lemma ghostdagFromParents_run b ps :
  ps <> [] -> NoDup ps -> (forall p, p ∈ ps -> p ∈ known) -> (exists rk, CalculateRank ps s = (Ret rk, s)) ->
  exists d sp blues version, ghostdagFromParents CalculateRank gm fuel b ps s = (Ret tt, stagedGhostdag b d s) /\
    blockVersion gm (Some sp) s = (Ret version, s) /\ ghostdagOk gm s ps version d sp blues.
Proof.
  intros Hps Hndps Hin [rk Hrk]. unfold ghostdagFromParents. rewrite bool_decide_eq_false_2 by done.
  destruct (findSelectedParent_run s ps Hps) as (sp & Hsp & Hgr).
  { apply list.Forall_forall. intros a Ha. by apply (co_data _ _ _ _ Hco), Hin. }
  pose proof (proj1 Hgr) as Hspps. assert (Hspk : sp ∈ known) by auto.
  rewrite bind_assoc, (bind_Ret _ _ _ _ _ Hsp), bind_assoc. erewrite bind_Ret by done. erewrite bind_Ret by done.
  destruct (blockVersion_run gm s (Some sp)) as (v & Hv). rewrite (bind_Ret _ _ _ _ _ Hv).
  assert (Hkrun : exists k, (if (6 <=? v) && negb false then dynamicKForBlock CalculateRank gm b ps else kForBlockVersion gm v) s = (Ret k, s)).
  { destruct (6 <=? v); cbn [andb negb]; [|by apply kForBlockVersion_run]. unfold dynamicKForBlock. erewrite bind_Ret by done. cbn zeta.
    destruct (_ =? 0); [|by eexists]. rewrite (bind_Ret _ _ _ _ _ Hrk). by eexists. }
  destruct Hkrun as (k & Hkrun). rewrite (bind_Ret _ _ _ _ _ Hkrun).
  destruct (mergeSet_run s known sp Hspk fuel ps) as (ms & Hms & Hndms & Hsorted & Hmerged & Hmsk);
    [done|done|done|done|apply Hco|done|]. rewrite (bind_Ret _ _ _ _ _ Hms).
  destruct (colorLoop_run gm s known r rank Hco fuel Hrank k v ms (MkGHOSTDAGData 0 0 k (Some sp) [sp] [] {[sp := 0]}) sp)
    as (d & blues & reds & Hcol & Hdsp & Hblues & Hreds & Hperm & Hsb & Hsr & Hlen & Hsmall); [done|done|done|].
  rewrite (bind_Ret _ _ _ _ _ Hcol). destruct (co_data _ _ _ _ Hco sp Hspk) as [dsp Hdsp'].
  rewrite bind_assoc, (bind_Ret _ _ _ _ _ (ghostdagData_run s sp dsp Hdsp')). cbn [mergeSetBlues mergeSetReds app] in *.
  assert (Hwork : addWork gm (blueWork dsp) (mergeSetBlues d) s = (Ret (blueWork dsp + zsum (map (workOf gm s) (mergeSetBlues d))), s)).
  { apply addWork_run. intros x. rewrite Hblues. intros [->|Hx]%elem_of_cons; apply Hheaders; [done|].
    apply Hmsk. rewrite <- Hperm. set_solver. }
  rewrite bind_assoc, (bind_Ret _ _ _ _ _ Hwork). erewrite bind_Ret by done.
  eexists _, sp, blues, v. split_and!; [done|done|]. split; cbn [selectedParent mergeSetBlues mergeSetReds dynamicK blueScore blueWork];
    rewrite ?Hreds; try done.
  - by rewrite Hperm.
  - intros a. by rewrite Hperm, Hmerged.
  - by eapply StronglySorted_sublist.
  - by eapply StronglySorted_sublist.
  - intros Hk255. apply Hlen; [done|unfold len; cbn; lia].
  - intros dsp' Hd'. by simplify_eq.
  - intros dsp' Hd'. by simplify_eq.
Qed.
End Data.


(** ** The sorted merge set *)

Lemma filter_keep {A} (P : A -> Prop) `{!forall x, Decision (P x)} (l : list A) : (forall a, a ∈ l -> P a) -> filter P l = l.
Proof.
  induction l as [|a l IH]; intros Hl; [done|]. rewrite filter_cons_True by (apply Hl; by left). f_equal. apply IH.
  intros x Hx. apply Hl. by right.
Qed.

Section Sorted.
Context (s : dagState).
Notation g := (ds_ghostdag s).

Lemma mergeSorted_run n blues reds :
  (length blues + length reds <= n)%nat -> Forall (fun a => is_Some (g !! a)) (blues ++ reds) -> NoDup (blues ++ reds) ->
  StronglySorted (precedes g) blues -> StronglySorted (precedes g) reds ->
  exists l, mergeSorted n blues reds s = (Ret l, s) /\ l ≡ₚ blues ++ reds /\ StronglySorted (precedes g) l.
Proof.
  revert blues reds. induction n as [|n IH]; intros blues reds Hn Hd Hnd Hb Hr.
  { destruct blues; [|cbn in Hn; lia]. destruct reds; [|cbn in Hn; lia]. by exists []. }
  destruct blues as [|b blues]; [by exists reds|]. destruct reds as [|r reds]; [exists (b :: blues); cbn [mergeSorted]; by rewrite !app_nil_r|].
  cbn [mergeSorted]. pose proof (proj1 (list.Forall_forall _ _) Hd) as Hdata.
  destruct (Hdata b) as [db Hdb]; [set_solver|]. destruct (Hdata r) as [dr Hdr]; [set_solver|].
  rewrite (bind_Ret _ _ _ _ _ (ghostdagData_run s b db Hdb)), (bind_Ret _ _ _ _ _ (ghostdagData_run s r dr Hdr)).
  apply StronglySorted_inv in Hb as Hb2. destruct Hb2 as [Hb1 Hb2]. apply StronglySorted_inv in Hr as Hr2. destruct Hr2 as [Hr1 Hr2].
  assert (Hmove : b :: blues ++ r :: reds ≡ₚ r :: (b :: blues) ++ reds) by (cbn; by rewrite <- Permutation_middle, Permutation_swap).
  destruct (Less b db r dr) eqn:Hless.
  - assert (Hbr : precedes g b r) by by exists db, dr.
    destruct (IH blues (r :: reds)) as (l & Hrun & Hp & Hs); [cbn in *; lia|by apply list.Forall_cons in Hd as [_ Hd]|by apply list.NoDup_cons in Hnd as [_ Hnd]|done|done|].
    exists (b :: l). rewrite (bind_Ret _ _ _ _ _ Hrun). split_and!; [done|by rewrite Hp|]. constructor; [done|]. rewrite Hp.
    apply list.Forall_app. split; [done|]. constructor; [done|]. eapply list.Forall_impl; [exact Hr2|]. intros x Hx. by etransitivity.
  - assert (Hrb : precedes g r b).
    { destruct (precedes_total g b r) as [->|[(d1 & d2 & ? & ? & ?)|?]]; [eauto|eauto| |congruence|done].
      apply list.NoDup_cons in Hnd as [Hnd _]. set_solver. }
    destruct (IH (b :: blues) reds) as (l & Hrun & Hp & Hs);
      [cbn in *; lia|cbn in Hd; rewrite Hmove in Hd; by apply list.Forall_cons in Hd as [_ Hd]
      |cbn in Hnd; rewrite Hmove in Hnd; by apply list.NoDup_cons in Hnd as [_ Hnd]|done|done|].
    exists (r :: l). rewrite (bind_Ret _ _ _ _ _ Hrun). split_and!; [done|cbn; by rewrite Hp, Hmove|]. constructor; [done|]. rewrite Hp.
    cbn. constructor; [done|]. apply list.Forall_app. split; [|done]. eapply list.Forall_impl; [exact Hb2|]. intros x Hx. by etransitivity.
Qed.

(** The merge set of a block, sorted, after its selected parent. *)
Lemma GetSortedMergeSet_run gm b ps version d sp blues :
  g !! b = Some d -> ghostdagOk gm s ps version d sp blues -> (forall a, a ∈ blues ++ mergeSetReds d -> is_Some (g !! a)) ->
  exists l, GetSortedMergeSet b s = (Ret (sp :: l), s) /\ l ≡ₚ blues ++ mergeSetReds d /\ StronglySorted (precedes g) l.
Proof.
  intros Hd [Hsp _ Hblues Hnd Hm Hsb Hsr _ _ _ _] Hdata. unfold GetSortedMergeSet. rewrite (bind_Ret _ _ _ _ _ (ghostdagData_run s b d Hd)).
  rewrite Hblues, Hsp.
  assert (Hf : filter (fun hash => Some hash <> Some sp) (sp :: blues) = blues).
  { rewrite filter_cons_False by (intros Hn; by apply Hn). apply filter_keep. intros a Ha [= ->].
    assert (Hms : merged s sp ps sp) by (apply Hm; set_solver). by destruct Hms. }
  rewrite Hf. erewrite bind_Ret by done.
  destruct (mergeSorted_run (length blues + length (mergeSetReds d)) blues (mergeSetReds d)) as (l & Hrun & Hp & Hs); [lia| |done|done|done|].
  { apply list.Forall_forall. auto. }
  exists l. by rewrite (bind_Ret _ _ _ _ _ Hrun).
Qed.
End Sorted.

(** ** Blue work *)

Lemma CalcWork_nonneg bits : 0 <= CalcWork bits.
Proof. unfold CalcWork. destruct (Z.leb_spec (CompactToBig bits) 0); [done|]. apply Z.div_pos; [by vm_compute|lia]. Qed.

Lemma workOf_nonneg gm s b : 0 <= workOf gm s b.
Proof. unfold workOf. case_decide; [done|]. destruct (ds_headers s !! b); [apply CalcWork_nonneg|done]. Qed.

(** A block is heavier than its parents if its selected parent has work. *)
Lemma ghostdagOk_heavier gm s ps version d sp blues p dp :
  ghostdagOk gm s ps version d sp blues -> 0 < workOf gm s sp -> p ∈ ps -> ds_ghostdag s !! p = Some dp -> blueWork dp < blueWork d.
Proof.
  intros [_ [_ Hmax] Hblues _ _ _ _ _ _ _ Hwork] Hpos Hp Hdp.
  assert (Hle : exists dsp, ds_ghostdag s !! sp = Some dsp /\ blueWork dp <= blueWork dsp).
  { destruct (Hmax p Hp) as [->|(d1 & d2 & H1 & H2 & Hl)]; [by exists dp|]. exists d2. split; [done|]. rewrite Hdp in H1. injection H1 as <-.
    unfold Less in Hl. destruct (Z.compare_spec (blueWork dp) (blueWork d2)); [lia|lia|done]. }
  destruct Hle as (dsp & Hdsp & Hle). rewrite (Hwork dsp Hdsp), Hblues. cbn [map zsum].
  assert (0 <= zsum (map (workOf gm s) blues)); [|lia]. apply zsum_nonneg. apply list.Forall_forall.
  intros z (b & -> & _)%list_elem_of_fmap. apply workOf_nonneg.
Qed.
