(* ===== verification/DagHistory.v ===== *)
(** * Building a DAG

    The managers of the DAG together, as
    [src/domain/consensus/processes/pruningproofmanager/pruningproofmanager.go] and the
    validation of headers drive them: for every block the parents are set, GHOSTDAG colors
    it, and the reachability manager adds it; now and then the reindex root is moved.  The
    reachability manager answers from the GHOSTDAG data, GHOSTDAG from the answers of the
    reachability manager; here the circle is closed, and the answers are about the parents
    of the blocks. *)

From stdpp Require Import sorting.
From S2P Require Import Prelude Float64 Interval Reachability ReachTree ReachCount ReachPropagate ReachReindex ReachAdd ReachDag ReachConcentrate ReachHistory Difficulty DagTopology Ghostdag GhostdagOrder GhostdagMerge GhostdagColor GhostdagProps.

Definition stageHeader (b : DomainHash) (h : blockHeader) : dagM unit :=
  modify (fun s => MkDagState (ds_relations s) (ds_ghostdag s) (<[b := h]> (ds_headers s)) (ds_daaScores s) (ds_reach s)).

(** The GHOSTDAG data that the reachability manager reads. *)
Definition stored (s : dagState) (b : DomainHash) : option BlockGHOSTDAGData := ds_ghostdag s !! b.

Section Build.
Context `{GoArch} (CalculateRank : list DomainHash -> dagM Z) (gm : ghostdagManager) (slack window : Z) (fuel : nat).

Definition manager (s : dagState) : reachabilityManager := MkManager (stored s) slack window.

Definition startDag : dagM unit :=
  reach (Init (gm_VirtualGenesisBlockHash gm)) ;;;
  SetParents (gm_VirtualGenesisBlockHash gm) [] ;;;
  stageGhostdag (gm_VirtualGenesisBlockHash gm) (MkGHOSTDAGData 0 0 1 None [] [] ∅).

Definition insertBlock (b : DomainHash) (header : blockHeader) (parents : list DomainHash) : dagM unit :=
  stageHeader b header ;;;
  SetParents b parents ;;;
  GHOSTDAG CalculateRank gm fuel b ;;;
  s <- get ;;
  reach (AddBlock (manager s) fuel b).

Definition moveReindexRoot (tip : DomainHash) : dagM unit :=
  s <- get ;;
  reach (updateReindexRoot (manager s) fuel tip).

Inductive event :=
| BlockAdded (b : DomainHash) (header : blockHeader) (parents : list DomainHash)
| TipChanged (tip : DomainHash).

Definition runEvent (e : event) : dagM unit :=
  match e with
  | BlockAdded b header parents => insertBlock b header parents
  | TipChanged tip => moveReindexRoot tip
  end.

Fixpoint runEvents (es : list event) : dagM unit :=
  match es with
  | [] => ret tt
  | e :: es => runEvent e ;;; runEvents es
  end.
End Build.

(** A block is new and has parents, all of them known and different; a tip is known. *)
Definition allowed (known : list DomainHash) (e : event) : Prop :=
  match e with
  | BlockAdded b _ parents => b ∉ known /\ parents <> [] /\ NoDup parents /\ forall p, p ∈ parents -> p ∈ known
  | TipChanged tip => tip ∈ known
  end.

Definition knownAfter (known : list DomainHash) (e : event) : list DomainHash :=
  match e with BlockAdded b _ _ => b :: known | TipChanged _ => known end.

Fixpoint possible (known : list DomainHash) (es : list event) : Prop :=
  match es with
  | [] => True
  | e :: es => allowed known e /\ possible (knownAfter known e) es
  end.

(** The state of a DAG of the blocks [known] with the root [r], [M] a bound on their number. *)
Record dagOk (gm : ghostdagManager) (M : Z) (s : dagState) (r : DomainHash) (known : list DomainHash) (w : Z) : Prop := {
  dk_kept : kept (stored s) (ds_reach s) r known w;
  dk_NoDup : NoDup known;
  dk_ghostdag : forall b, is_Some (ds_ghostdag s !! b) -> b ∈ known;
  dk_relations : forall b, is_Some (ds_relations s !! b) <-> b ∈ known;
  dk_parents : forall b p, b ∈ known -> p ∈ parentsIn s b -> p ∈ known;
  dk_past : forall a b, b ∈ known -> inPast (stored s) a b <-> past s a b;
  dk_scored : scored (stored s);
  dk_colored : exists rank, colored s known r rank /\ (forall b, b ∈ known -> (rank b < length known)%nat) /\
    forall b d, stored s b = Some d -> blueScore d <= Z.of_nat (rank b) * M;
  dk_headers : forall b, b ∈ known -> b = gm_VirtualGenesisBlockHash gm \/ is_Some (ds_headers s !! b);
  dk_data : forall b, b ∈ known -> b = r \/
    exists d sp blues version, stored s b = Some d /\ ghostdagOk gm s (parentsIn s b) version d sp blues
}.

Lemma reach_run {A} (m : reachM A) s a t :
  m (ds_reach s) = (Ret a, t) ->
  reach m s = (Ret a, MkDagState (ds_relations s) (ds_ghostdag s) (ds_headers s) (ds_daaScores s) t).
Proof. intros Hm. unfold reach. by rewrite Hm. Qed.

(** The topology manager keeps its promise in such a state. *)
Lemma dagOk_topology gm M s r known w : dagOk gm M s r known w -> Topology s known.
Proof.
  intros Hok. pose proof (dk_kept _ _ _ _ _ _ Hok) as Hk. split.
  - intros b. apply Hok.
  - apply Hok.
  - intros a b Ha Hb. destruct (IsDAGAncestorOf_run (stored s) (ds_reach s) r a b) as (res & Hrun & Hres);
      [apply Hk|by apply Hk|by apply Hk|]. exists res. split.
    + unfold IsAncestorOf. rewrite (reach_run _ _ _ _ Hrun). by destruct s.
    + rewrite Hres. by rewrite (dk_past _ _ _ _ _ _ Hok).
Qed.

(** ** Ignoring what does not matter *)

(** The past of known blocks depends on their parents only. *)
Lemma past_ext s s' (known : list DomainHash) :
  (forall b p, b ∈ known -> p ∈ parentsIn s b -> p ∈ known) -> (forall b, b ∈ known -> parentsIn s' b = parentsIn s b) ->
  forall a b, b ∈ known -> past s' a b <-> past s a b.
Proof.
  intros Hcl Heq. assert (Hgen : forall t t', (forall b p, b ∈ known -> p ∈ parentsIn t b -> p ∈ known) ->
    (forall b, b ∈ known -> parentsIn t' b = parentsIn t b) -> forall a b, past t a b -> b ∈ known -> a ∈ known /\ past t' a b).
  { intros t t' Hcl' Heq' a b. induction 1 as [a b Hab|a c b Hac Hcb IH]; intros Hb.
    - split; [by eapply Hcl'|]. apply tc_once. by rewrite Heq'.
    - destruct (IH Hb) as [Hc Hcb']. split; [by eapply Hcl'|]. eapply tc_l; [|exact Hcb']. by rewrite Heq'. }
  intros a b Hb. split; intros Hab.
  - apply (Hgen s' s); [|intros; symmetry; auto|done|done]. intros c p Hc Hp. rewrite Heq in Hp by done. eauto.
  - by apply (Hgen s s').
Qed.

(** The index depends on the GHOSTDAG data of the blocks it has. *)
Lemma inPast_ext g g' P :
  (forall b, P b -> g' b = g b) -> (forall a b, P b -> inPast g a b -> P a) -> forall a b, P b -> inPast g a b -> inPast g' a b.
Proof.
  intros Heq Hcl a b Hb. induction 1 as [a b d Hd Hsp|a b d Hd Hin|a b d p Hd Hsp Hap IH]; rewrite <- (Heq b Hb) in Hd.
  - by eapply past_selected.
  - by eapply past_merged.
  - eapply past_chain; [done|done|]. apply IH. eapply Hcl; [exact Hb|]. rewrite Heq in Hd by done. by eapply past_selected.
Qed.

Lemma inPast_agree g g' P :
  (forall b, P b -> g' b = g b) -> (forall a b, P b -> inPast g a b -> P a) -> forall a b, P b -> inPast g' a b <-> inPast g a b.
Proof.
  intros Heq Hcl a b Hb. split; [|by apply (inPast_ext g g' P)]. intros Hab. revert Hb.
  induction Hab as [a b d Hd Hsp|a b d Hd Hin|a b d p Hd Hsp Hap IH]; intros Hb; rewrite (Heq b Hb) in Hd.
  - by eapply past_selected.
  - by eapply past_merged.
  - eapply past_chain; [done|done|]. apply IH. eapply Hcl; [exact Hb|]. by eapply past_selected.
Qed.

Lemma inPast_inv g a b d :
  g b = Some d -> inPast g a b ->
  selectedParent d = Some a \/ a ∈ mergeSetBlues d ++ mergeSetReds d \/ exists p, selectedParent d = Some p /\ inPast g a p.
Proof.
  intros Hd Ha. inversion Ha as [? ? d' Hd' Hsp|? ? d' Hd' Hin|? ? d' p Hd' Hsp Hap]; subst;
    rewrite Hd in Hd'; injection Hd' as <-; eauto.
Qed.

Lemma kept_ext g g' s r known w :
  (forall b, b ∈ known -> g' b = g b) -> kept g s r known w -> kept g' s r known w.
Proof.
  intros Heq [[Hit Hcov Hpast Hcl] Hnodes Hn Hedge Hdata Hroot].
  assert (Hag : forall a b, anc s r b -> inPast g' a b <-> inPast g a b).
  { apply inPast_agree; [intros b Hb; by apply Heq, Hnodes|done]. }
  split; [split|..]; try done.
  - intros a b Ha Hb. rewrite (Hag a b Hb). auto.
  - intros a b Hb Hin. apply (Hag a b Hb) in Hin. eauto.
  - intros p c Hp Hc. rewrite Heq; [by apply Hedge|]. apply Hnodes. by eapply anc_snoc.
  - intros x Hx. rewrite Heq by done. auto.
Qed.

Lemma colored_ext s s' known r rank :
  (forall b p, b ∈ known -> p ∈ parentsIn s b -> p ∈ known) -> (forall b, b ∈ known -> parentsIn s' b = parentsIn s b) ->
  (forall b, b ∈ known -> ds_ghostdag s' !! b = ds_ghostdag s !! b) -> colored s known r rank -> colored s' known r rank.
Proof.
  intros Hcl Hpar Hg [Hr Hd Hp Hsel Hch Hb Hrk]. pose proof (past_ext s s' known Hcl Hpar) as Hpast.
  assert (Hsel' : forall b p, b ∈ known -> selected s' p b <-> selected s p b).
  { intros b p Hbk. unfold selected. by rewrite Hg. }
  split.
  - done.
  - intros b Hbk. rewrite Hg by done. auto.
  - intros b Hbk. unfold inPastOrSame. rewrite Hpast by done. by apply Hp.
  - intros b p Hbk. rewrite Hsel', Hpar by done. auto.
  - intros b Hbk Hne. setoid_rewrite Hsel'; [|done]. auto.
  - intros b d x Hbk. rewrite Hg, Hpast by done. eauto.
  - intros b p Hbk. rewrite Hpar by done. eauto.
Qed.

(** So does the specification of the GHOSTDAG data of a block. *)
Lemma ghostdagOk_ext gm s s' known r rank ps version d sp blues :
  (forall b p, b ∈ known -> p ∈ parentsIn s b -> p ∈ known) -> (forall b, b ∈ known -> parentsIn s' b = parentsIn s b) ->
  (forall b, b ∈ known -> ds_ghostdag s' !! b = ds_ghostdag s !! b) ->
  (forall b, b ∈ known -> ds_headers s' !! b = ds_headers s !! b) -> colored s known r rank -> (forall p, p ∈ ps -> p ∈ known) ->
  ghostdagOk gm s ps version d sp blues -> ghostdagOk gm s' ps version d sp blues.
Proof.
  intros Hcl Hpar Hg Hh Hco Hps [H1 [Hgin Hgmax] H3 H4 H5 H6 H7 H8 H9 H10 H11]. pose proof (past_ext s s' known Hcl Hpar) as Hpast.
  assert (Hspk : sp ∈ known) by auto.
  assert (Hpk : forall a b, b ∈ known -> past s a b -> a ∈ known).
  { intros a b Hb Hab. revert Hb. induction Hab as [a b Hab|a c b Hac Hcb IH]; intros Hb; [by eapply Hcl|]. eapply Hcl; [by apply IH|done]. }
  assert (Hmk : forall a, a ∈ blues ++ mergeSetReds d -> a ∈ known).
  { intros a (_ & [Ha|((p & Hp & Hap) & _)])%H5; [auto|]. eapply Hpk; [|exact Hap]. auto. }
  assert (Hprec : forall a b, a ∈ known -> b ∈ known -> precedes (ds_ghostdag s) a b -> precedes (ds_ghostdag s') a b).
  { intros a b Ha Hb. unfold precedes. by rewrite !Hg. }
  assert (Hsorted : forall l, (forall a, a ∈ l -> a ∈ known) -> StronglySorted (precedes (ds_ghostdag s)) l -> StronglySorted (precedes (ds_ghostdag s')) l).
  { intros l Hl Hs. rewrite <- (map_id l). eapply StronglySorted_map; [|exact Hs]. cbn. auto. }
  assert (Hwork : map (workOf gm s') (mergeSetBlues d) = map (workOf gm s) (mergeSetBlues d)).
  { apply map_ext_in. intros a Ha%list_elem_of_In. unfold workOf. rewrite Hh; [done|].
    rewrite H3 in Ha. apply elem_of_cons in Ha as [->|Ha]; [done|]. apply Hmk. set_solver. }
  assert (Hblue : forall x c, rtc (selected s') x c -> c ∈ known -> x ∈ known /\ rtc (selected s) x c).
  { intros x c. induction 1 as [c|x y c Hxy Hyc IH]; intros Hc; [by split|]. destruct (IH Hc) as [Hy Hyc'].
    assert (Hxy' : selected s x y) by (unfold selected in *; by rewrite Hg in Hxy).
    split; [eapply Hcl; [exact Hy|by eapply co_selected]|]. by eapply rtc_l. }
  split; try done.
  - split; [done|]. intros a Ha. destruct (Hgmax a Ha) as [?|?]; [by left|right]. apply Hprec; auto.
  - intros a. rewrite H5. unfold merged. rewrite (Hpast a sp Hspk). split; intros (Ha & Hb); (split; [done|]);
      (destruct Hb as [?|((p & Hp & Hap) & ?)]; [by left|right]); (split; [exists p; split; [done|]|done]); apply (Hpast a p); auto.
  - apply Hsorted; [|done]. intros a Ha. apply Hmk. set_solver.
  - apply Hsorted; [|done]. intros a Ha. apply Hmk. set_solver.
  - intros b Hb Hmax l Hnd Hl. apply (H9 b Hb Hmax l Hnd). intros x Hx. destruct (Hl x Hx) as [(c & dc & Hc & Hdc & Hxc) Hnot].
    destruct (Hblue c sp Hc Hspk) as [Hck Hc']. split; [exists c, dc; rewrite Hg in Hdc by done; done|].
    unfold inPastOrSame in *. rewrite Hpast in Hnot; [done|]. apply Hmk. set_solver.
  - intros dsp. rewrite Hg by done. auto.
  - intros dsp. rewrite Hg, Hwork by done. auto.
Qed.

Lemma topology_ext s s' known :
  ds_reach s' = ds_reach s -> (forall b, b ∈ known -> is_Some (ds_relations s' !! b)) ->
  (forall b, b ∈ known -> parentsIn s' b = parentsIn s b) -> Topology s known -> Topology s' known.
Proof.
  intros Hreach Hdom Hpar [Hrel Hcl Hanc]. pose proof (past_ext s s' known Hcl Hpar) as Hpast. split.
  - done.
  - intros b p Hb. rewrite Hpar by done. eauto.
  - intros a b Ha Hb. destruct (Hanc a b Ha Hb) as (res & Hrun & Hres). exists res. split; [|by rewrite Hpast].
    unfold IsAncestorOf, reach in *. rewrite Hreach. destruct (IsDAGAncestorOf a b (ds_reach s)) as [[| |] t]; try done.
    injection Hrun as -> Hs. destruct s, s'. cbn in *. simplify_eq. done.
Qed.

Lemma merged_ext s s' (known : list DomainHash) sp ps a :
  (forall b p, b ∈ known -> p ∈ parentsIn s b -> p ∈ known) -> (forall b, b ∈ known -> parentsIn s' b = parentsIn s b) ->
  (forall p, p ∈ ps -> p ∈ known) -> sp ∈ ps -> merged s' sp ps a <-> merged s sp ps a.
Proof.
  intros Hcl Hpar Hps Hsp. pose proof (past_ext s s' known Hcl Hpar) as Hpast. unfold merged. rewrite (Hpast a sp) by auto.
  split; intros (H1 & H2); (split; [done|]); (destruct H2 as [?|((p & Hp & Hap) & ?)]; [by left|right]);
    (split; [exists p; split; [done|]|done]); apply (Hpast a p); auto.
Qed.

(** ** One more block *)

Section NewBlock.
Context (gm : ghostdagManager) (M : Z) (s s' : dagState) (r : DomainHash) (known : list DomainHash) (w : Z).
Context (b sp : DomainHash) (ps blues : list DomainHash) (d : BlockGHOSTDAGData).
Context (Hok : dagOk gm M s r known w) (Hnew : b ∉ known) (Hps : forall p, p ∈ ps -> p ∈ known).
Context (Hpar : forall x, parentsIn s' x = if decide (x = b) then ps else parentsIn s x).
Context (Hghost : ds_ghostdag s' = <[b := d]> (ds_ghostdag s)).
Context (Hsel : selectedParent d = Some sp) (Hspps : sp ∈ ps) (Hblues : mergeSetBlues d = sp :: blues).
Context (Hnd : NoDup (blues ++ mergeSetReds d)).
Context (Hmerged : forall a, a ∈ blues ++ mergeSetReds d <-> merged s sp ps a).
Context (Hscore : forall dsp, ds_ghostdag s !! sp = Some dsp -> blueScore d = u64 (blueScore dsp + len (mergeSetBlues d))).

Lemma known_ne x : x ∈ known -> x <> b.
Proof. by intros Hx ->. Qed.

Lemma sp_known : sp ∈ known.
Proof. auto. Qed.

Lemma old_parents x : x ∈ known -> parentsIn s' x = parentsIn s x.
Proof. intros Hx. rewrite Hpar. by rewrite decide_False by by apply known_ne. Qed.

Lemma old_data x : x ∈ known -> ds_ghostdag s' !! x = ds_ghostdag s !! x.
Proof. intros Hx. rewrite Hghost. rewrite lookup_insert_ne; [done|]. apply not_eq_sym. by apply known_ne. Qed.

Lemma new_data : stored s' b = Some d.
Proof. unfold stored. rewrite Hghost. apply lookup_insert_eq. Qed.

Lemma old_past a x : x ∈ known -> past s' a x <-> past s a x.
Proof. apply past_ext; [apply Hok|apply old_parents]. Qed.

Lemma new_past a : past s' a b <-> exists p, p ∈ ps /\ (a = p \/ past s a p).
Proof.
  rewrite past_parent, Hpar, decide_True by done. split; intros (p & Hp & Ha); exists p; (split; [done|]);
    destruct Ha as [->|Ha]; [by left|right; by apply old_past; auto|by left|right; apply old_past; auto].
Qed.

Lemma merged_known a : merged s sp ps a -> a ∈ known.
Proof.
  intros (_ & [Ha|((p & Hp & Hap) & _)]); [auto|]. pose proof (dagOk_topology _ _ _ _ _ _ Hok) as Htop.
  eapply past_known; [exact Htop| |exact Hap]. auto.
Qed.

Lemma mergeSet_known a : a ∈ mergeSetBlues d ++ mergeSetReds d -> a ∈ known.
Proof.
  rewrite Hblues. cbn. intros [->|Ha]%elem_of_cons; [apply sp_known|]. by apply merged_known, Hmerged.
Qed.

Lemma mergeSet_past a : a ∈ mergeSetBlues d ++ mergeSetReds d -> past s' a b.
Proof.
  rewrite Hblues. cbn. intros [->|Ha]%elem_of_cons; apply new_past; [exists sp; auto|].
  apply Hmerged in Ha as (_ & [Ha|((p & Hp & Hap) & _)]); [exists a; auto|exists p; auto].
Qed.

(** What the GHOSTDAG data says of the past is right for the new block. *)
Lemma new_inPast a : inPast (stored s') a b <-> past s' a b.
Proof.
  assert (Hold : forall x, inPast (stored s') x sp <-> past s x sp).
  { intros x. rewrite <- (dk_past _ _ _ _ _ _ Hok) by apply sp_known.
    apply (inPast_agree _ _ (fun x => x ∈ known)); [apply old_data| |apply sp_known].
    intros y z Hz Hyz. apply (dk_past _ _ _ _ _ _ Hok) in Hyz; [|done]. pose proof (dagOk_topology _ _ _ _ _ _ Hok).
    by eapply past_known. }
  split.
  - intros Ha. destruct (inPast_inv _ _ _ _ new_data Ha) as [Hsp'|[Hin|(p & Hsp' & Hap)]]; [|by apply mergeSet_past|];
      rewrite Hsel in Hsp'; injection Hsp' as <-; apply new_past; exists sp; [auto|]. split; [done|right]. by apply Hold.
  - intros (p & Hp & Ha)%new_past. destruct (decide (a = sp)) as [->|Hne]; [by eapply past_selected; [apply new_data|]|].
    pose proof (dagOk_topology _ _ _ _ _ _ Hok) as Htop.
    assert (Hak : a ∈ known) by (destruct Ha as [->|Ha]; [auto|eapply past_known; [exact Htop| |exact Ha]; auto]).
    destruct (tp_ancestor a sp Hak sp_known) as (res & _ & Hres). destruct res.
    + eapply past_chain; [apply new_data|done|]. apply Hold. by destruct (proj1 Hres eq_refl).
    + eapply past_merged; [apply new_data|]. rewrite Hblues. cbn. apply elem_of_cons. right. apply Hmerged. split; [done|].
      destruct Ha as [->|Ha]; [by left|right]. split; [by exists p|]. intros Hsp'. by destruct Hres as [_ Hres]; discriminate Hres; right.
Qed.

Lemma old_inPast a x : x ∈ known -> inPast (stored s') a x <-> past s' a x.
Proof.
  intros Hx. rewrite old_past, <- (dk_past _ _ _ _ _ _ Hok) by done.
  apply (inPast_agree _ _ (fun x => x ∈ known)); [apply old_data| |done].
  intros y z Hz Hyz. apply (dk_past _ _ _ _ _ _ Hok) in Hyz; [|done]. pose proof (dagOk_topology _ _ _ _ _ _ Hok).
  by eapply past_known.
Qed.

Lemma blues_few : len (mergeSetBlues d) <= len known.
Proof.
  rewrite Hblues. assert (Hsub : sp :: blues ⊆+ known).
  { apply NoDup_submseteq.
    - apply list.NoDup_cons. split; [|by apply list.NoDup_app in Hnd as (? & _)]. intros Hin.
      assert (Hm : merged s sp ps sp) by (apply Hmerged; set_solver). by destruct Hm.
    - intros a Ha. apply mergeSet_known. rewrite Hblues. set_solver. }
  apply submseteq_length in Hsub. unfold len. lia.
Qed.

Context (HM : len known + 1 <= M) (HM64 : M * M <= MaxUint64).

Lemma new_score rank dsp :
  (forall x, x ∈ known -> (rank x < length known)%nat) -> (forall x dx, stored s x = Some dx -> blueScore dx <= Z.of_nat (rank x) * M) ->
  ds_ghostdag s !! sp = Some dsp ->
  blueScore d = blueScore dsp + len (mergeSetBlues d) /\ 0 <= blueScore dsp /\ blueScore d <= len known * M.
Proof.
  intros Hrank Hbound Hdsp. pose proof blues_few as Hfew. pose proof (Hbound sp dsp Hdsp) as Hb.
  pose proof (sc_u64 _ (dk_scored _ _ _ _ _ _ Hok) sp dsp Hdsp) as Hu. unfold is_u64 in Hu.
  pose proof (Hrank sp sp_known) as Hr. assert (0 <= len (mergeSetBlues d)) by (unfold len; lia).
  assert (Hle : blueScore dsp + len (mergeSetBlues d) <= len known * M) by (unfold len in *; nia).
  rewrite (Hscore dsp Hdsp), u64_id; [lia|]. unfold len in *. nia.
Qed.

Lemma new_scored : scored (stored s').
Proof.
  destruct (dk_colored _ _ _ _ _ _ Hok) as (rank & Hco & Hrank & Hbound). destruct (dk_scored _ _ _ _ _ _ Hok) as [H64 Hsc].
  destruct (co_data _ _ _ _ Hco sp sp_known) as [dsp Hdsp]. destruct (new_score rank dsp Hrank Hbound Hdsp) as (Heq & Hpos & Hle).
  assert (0 <= len (mergeSetBlues d)) by (unfold len; lia).
  assert (Hcases : forall x dx, stored s' x = Some dx -> (x = b /\ dx = d) \/ (x ∈ known /\ stored s x = Some dx)).
  { intros x dx Hx. unfold stored in *. rewrite Hghost in Hx. apply lookup_insert_Some in Hx as [[-> ->]|[_ Hx]]; [by left|right].
    split; [|done]. apply (dk_ghostdag _ _ _ _ _ _ Hok). eauto. }
  split.
  - intros x dx [[-> ->]|[_ Hx]]%Hcases; [|by eapply H64]. unfold is_u64. unfold len in *. nia.
  - intros x dx p dp [[-> ->]|[Hxk Hx]]%Hcases Hp Hdp.
    + rewrite Hsel in Hp. injection Hp as <-. unfold stored in Hdp. rewrite old_data in Hdp by apply sp_known. simplify_eq. lia.
    + assert (Hpk : p ∈ known). { eapply (dk_parents _ _ _ _ _ _ Hok); [exact Hxk|]. eapply co_selected; [exact Hco|done|]. by exists dx. }
      unfold stored in Hdp. rewrite old_data in Hdp by done. by eapply Hsc.
Qed.

Lemma new_colored : exists rank, colored s' (b :: known) r rank /\ (forall x, x ∈ b :: known -> (rank x < length (b :: known))%nat) /\
  forall x dx, stored s' x = Some dx -> blueScore dx <= Z.of_nat (rank x) * M.
Proof.
  destruct (dk_colored _ _ _ _ _ _ Hok) as (rank & Hco & Hrank & Hbound).
  destruct (co_data _ _ _ _ Hco sp sp_known) as [dsp Hdsp]. destruct (new_score rank dsp Hrank Hbound Hdsp) as (_ & _ & Hle).
  pose proof (colored_ext s s' known r rank (dk_parents _ _ _ _ _ _ Hok) old_parents old_data Hco) as [Hr Hd Hp Hse Hch Hbl Hrk].
  exists (fun x => if decide (x = b) then length known else rank x). split_and!; [split|..].
  - by right.
  - intros x [->|Hx]%elem_of_cons; [exists d; exact new_data|by apply Hd].
  - intros x [->|Hx]%elem_of_cons; [|by apply Hp]. right. apply new_past. exists sp. split; [done|].
    destruct (Hp sp sp_known) as [->|Hpast]; [by left|right]. by apply old_past; [apply sp_known|].
  - intros x p [->|Hx]%elem_of_cons Hxp; [|by apply Hse]. rewrite Hpar, decide_True by done.
    destruct Hxp as (d' & Hd' & Hp'). pose proof new_data as Hnd'. unfold stored in Hnd'. rewrite Hd' in Hnd'. injection Hnd' as ->.
    rewrite Hsel in Hp'. by injection Hp' as <-.
  - intros x [->|Hx]%elem_of_cons Hne; [exists sp, d; split; [apply new_data|done]|by apply Hch].
  - intros x d' y [->|Hx]%elem_of_cons Hd' Hy; [|by eapply Hbl]. pose proof new_data as Hnd'. unfold stored in Hnd'.
    rewrite Hd' in Hnd'. injection Hnd' as ->. apply mergeSet_past. set_solver.
  - intros x p [->|Hx]%elem_of_cons Hxp.
    + rewrite Hpar, decide_True in Hxp by done. rewrite decide_False by (apply known_ne; auto). rewrite decide_True by done. auto.
    + assert (Hpk : p ∈ known) by (rewrite old_parents in Hxp by done; by eapply (dk_parents _ _ _ _ _ _ Hok)).
      rewrite !decide_False by by apply known_ne. by eapply Hrk.
  - intros x [->|Hx]%elem_of_cons; [rewrite decide_True by done; cbn; lia|]. rewrite decide_False by by apply known_ne.
    pose proof (Hrank x Hx). cbn. lia.
  - intros x dx Hx. unfold stored in Hx. rewrite Hghost in Hx. apply lookup_insert_Some in Hx as [[<- <-]|[Hxb Hx]].
    + rewrite decide_True by done. unfold len in Hle. lia.
    + rewrite decide_False by done. by apply Hbound.
Qed.
(** The state with the new block. *)
Lemma newBlock_ok header version w' :
  (forall x, is_Some (ds_relations s' !! x) <-> x = b \/ is_Some (ds_relations s !! x)) -> ds_headers s' = <[b := header]> (ds_headers s) ->
  ghostdagOk gm s' ps version d sp blues -> kept (stored s') (ds_reach s') r (b :: known) w' -> dagOk gm M s' r (b :: known) w'.
Proof.
  intros Hdom Hheaders Hgok Hkept. destruct (dk_colored _ _ _ _ _ _ Hok) as (rank & Hco & _).
  assert (Hold : forall x, x ∈ known -> ds_headers s' !! x = ds_headers s !! x).
  { intros x Hx. rewrite Hheaders, lookup_insert_ne; [done|]. apply not_eq_sym. by apply known_ne. }
  split.
  - exact Hkept.
  - apply list.NoDup_cons. split; [done|apply Hok].
  - intros x [y Hy]. rewrite Hghost in Hy. apply lookup_insert_Some in Hy as [[-> _]|[_ Hy]]; [by left|right].
    apply (dk_ghostdag _ _ _ _ _ _ Hok). eauto.
  - intros x. by rewrite Hdom, elem_of_cons, (dk_relations _ _ _ _ _ _ Hok).
  - intros x p [->|Hx]%elem_of_cons; rewrite Hpar.
    + rewrite decide_True by done. right. auto.
    + rewrite decide_False by by apply known_ne. right. by eapply (dk_parents _ _ _ _ _ _ Hok).
  - intros a x [->|Hx]%elem_of_cons; [apply new_inPast|by apply old_inPast].
  - apply new_scored.
  - apply new_colored.
  - intros x [->|Hx]%elem_of_cons; [right; rewrite Hheaders, lookup_insert_eq; eauto|]. rewrite Hold by done. by apply Hok.
  - intros x [->|Hx]%elem_of_cons.
    + right. exists d, sp, blues, version. split; [apply new_data|]. by rewrite Hpar, decide_True by done.
    + destruct (dk_data _ _ _ _ _ _ Hok x Hx) as [?|(dx & spx & bx & vx & Hdx & Hgx)]; [by left|right]. exists dx, spx, bx, vx.
      split; [unfold stored in *; by rewrite old_data|]. rewrite old_parents by done.
      eapply (ghostdagOk_ext gm s s' known r rank); [apply Hok|apply old_parents|apply old_data|done|done| |done].
      intros p Hp. by eapply (dk_parents _ _ _ _ _ _ Hok).
Qed.
End NewBlock.

(** ** The steps *)

Section Steps.
Context `{GoArch} (CalculateRank : list DomainHash -> dagM Z) (gm : ghostdagManager) (slack window : Z) (fuel : nat).
Context (Hrank : forall s ps, exists rk, CalculateRank ps s = (Ret rk, s)) (Hslack : 0 < slack) (Hwindow : 0 < window).
Context (Hgk : gm_k gm <> []) (M : Z) (HM64 : M * M <= MaxUint64) (r : DomainHash).

(** The room one step can take. *)
Definition stepRoom (m : Z) : Z := (2 * slack + 2) * m.

(** The parents and headers of [s'] are those of [s] and the new ones. *)
Definition extends (s s' : dagState) (e : event) : Prop :=
  match e with
  | BlockAdded b h ps =>
      (forall x, parentsIn s' x = if decide (x = b) then ps else parentsIn s x) /\ ds_headers s' = <[b := h]> (ds_headers s)
  | TipChanged _ => (forall x, parentsIn s' x = parentsIn s x) /\ ds_headers s' = ds_headers s
  end.

Lemma GHOSTDAG_fromParents m n b s :
  is_Some (ds_relations s !! b) -> GHOSTDAG CalculateRank m n b s = ghostdagFromParents CalculateRank m n b (parentsIn s b) s.
Proof.
  intros [rb Hrb]. unfold GHOSTDAG, ParentsOf. rewrite bind_assoc, (bind_Ret _ _ _ _ _ (BlockRelation_run s b rb Hrb)).
  erewrite bind_Ret by done. unfold parentsIn. by rewrite Hrb.
Qed.

Lemma insertBlock_ok s known w b header ps :
  dagOk gm M s r known w -> allowed known (BlockAdded b header ps) -> len known + 1 <= M ->
  stepRoom (len known + 1) <= w -> len known + 1 < Z.of_nat fuel ->
  exists s', insertBlock CalculateRank gm slack window fuel b header ps s = (Ret tt, s') /\
    dagOk gm M s' r (b :: known) (w - stepRoom (len known + 1)) /\ extends s s' (BlockAdded b header ps).
Proof.
  intros Hok (Hnew & Hne & Hndps & Hps) HM Hroom Hfuel. unfold insertBlock.
  pose proof (dagOk_topology _ _ _ _ _ _ Hok) as Htop.
  set (sh := MkDagState (ds_relations s) (ds_ghostdag s) (<[b := header]> (ds_headers s)) (ds_daaScores s) (ds_reach s)).
  rewrite (bind_Ret (stageHeader b header) _ s sh tt eq_refl).
  destruct (SetParents_run b ps sh) as (m & Hset & Hdom & Hpar & _).
  { cbn. destruct (ds_relations s !! b) eqn:Hb; [|done]. destruct Hnew. apply (dk_relations _ _ _ _ _ _ Hok). by rewrite Hb. }
  { intros p Hp. apply (dk_relations _ _ _ _ _ _ Hok). auto. }
  rewrite (bind_Ret _ _ _ _ _ Hset). set (s1 := withRelations m sh) in *.
  assert (Hpar1 : forall x, x ∈ known -> parentsIn s1 x = parentsIn s x).
  { intros x Hx. rewrite Hpar, decide_False by (by intros ->). done. }
  assert (Hdom1 : forall x, x ∈ known -> is_Some (ds_relations s1 !! x)).
  { intros x Hx. apply Hdom. right. by apply (dk_relations _ _ _ _ _ _ Hok). }
  assert (Htop1 : Topology s1 known) by by apply (topology_ext s).
  destruct (dk_colored _ _ _ _ _ _ Hok) as (rank & Hco & Hrk & Hbound).
  assert (Hco1 : colored s1 known r rank) by (apply (colored_ext s); [apply Hok|done|done|done]).
  pose proof (past_ext s s1 known (dk_parents _ _ _ _ _ _ Hok) Hpar1) as Hpast1.
  destruct (ghostdagFromParents_run CalculateRank gm fuel s1 known r rank Hco1 (dk_NoDup _ _ _ _ _ _ Hok) ltac:(unfold len in *; lia)
    ltac:(intros x Hx; pose proof (Hrk x Hx); unfold len in *; lia) Hgk) with (b := b) (ps := ps) as (d & sp & blues & v & Hrun & _ & Hgok); try done.
  { intros x Hx. destruct (dk_headers _ _ _ _ _ _ Hok x Hx) as [?|?]; [by left|right]. cbn. rewrite lookup_insert_ne by (by intros <-). done. }
  set (s2 := stagedGhostdag b d s1) in *.
  assert (HG : GHOSTDAG CalculateRank gm fuel b s1 = (Ret tt, s2)).
  { rewrite (GHOSTDAG_fromParents gm fuel b s1) by (apply Hdom; by left).
    rewrite Hpar, decide_True by done. done. }
  rewrite (bind_Ret _ _ _ _ _ HG). erewrite bind_Ret by done.
  assert (Hmerged : forall a, a ∈ blues ++ mergeSetReds d <-> merged s sp ps a).
  { intros a. rewrite (gk_merged _ _ _ _ _ _ _ Hgok). apply (merged_ext s s1 known); try done; [apply Hok|]. apply Hgok. }
  pose proof (proj1 (gk_greatest _ _ _ _ _ _ _ Hgok)) as Hspps. pose proof (gk_selected _ _ _ _ _ _ _ Hgok) as Hsel.
  pose proof (gk_blues _ _ _ _ _ _ _ Hgok) as Hblues.
  assert (Hstored : forall x, x ∈ known -> stored s2 x = stored s x).
  { intros x Hx. unfold stored. cbn. rewrite lookup_insert_ne; [done|]. by intros <-. }
  destruct (add_kept (manager slack window s2) fuel r Hslack (ds_reach s) known w b) as (t & Hadd & Hkept).
  { apply (kept_ext (stored s)); [done|apply Hok]. }
  { split; [done|]. exists d, sp. split_and!; [unfold stored; cbn; apply lookup_insert_eq|done|auto|].
    by apply (mergeSet_known gm M s r known w sp ps blues d Hok Hps Hspps Hblues Hmerged). }
  { done. }
  { done. }
  eexists. split; [exact (reach_run (AddBlock (manager slack window s2) fuel b) s2 tt t Hadd)|].
  set (s' := MkDagState _ _ _ _ t).
  assert (Hpar' : forall x, parentsIn s' x = if decide (x = b) then ps else parentsIn s x) by apply Hpar.
  split; [|split; [exact Hpar'|done]].
  eapply (newBlock_ok gm M s s' r known w b sp ps blues d); try done; [apply Hgok|apply Hgok|].
  eapply (ghostdagOk_ext gm s1 s' known r rank); try done. apply Htop1.
Qed.

Lemma moveReindexRoot_ok s known w tip :
  dagOk gm M s r known w -> tip ∈ known -> stepRoom (len known + 1) <= w -> len known + 1 < Z.of_nat fuel ->
  exists s', moveReindexRoot slack window fuel tip s = (Ret tt, s') /\
    dagOk gm M s' r known (w - stepRoom (len known + 1)) /\ extends s s' (TipChanged tip).
Proof.
  intros Hok Htip Hroom Hfuel. unfold moveReindexRoot. erewrite bind_Ret by done.
  destruct (update_kept (manager slack window s) fuel r Hslack (dk_scored _ _ _ _ _ _ Hok) Hwindow (ds_reach s) known w tip)
    as (t & Hrun & Hkept); [apply Hok|done|done|done|].
  eexists. split; [exact (reach_run (updateReindexRoot (manager slack window s) fuel tip) s tt t Hrun)|].
  split; [|done]. destruct Hok as [_ H2 H3 H4 H5 H6 H7 H8 H9 H10]. destruct H8 as (rank & Hco & Hrk & Hb).
  split; [exact Hkept|exact H2|exact H3|exact H4|exact H5|exact H6|exact H7| |exact H9|].
  - exists rank. split_and!; [|exact Hrk|exact Hb]. by apply (colored_ext s).
  - intros b Hbk. destruct (H10 b Hbk) as [?|(d & sp & blues & v & Hd & Hgok)]; [by left|right]. exists d, sp, blues, v. split; [done|].
    eapply (ghostdagOk_ext gm s _ known r rank); try done. eauto.
Qed.

Lemma runEvents_ok es s known w :
  dagOk gm M s r known w -> possible known es -> len known + len es + 1 <= M -> len es * stepRoom M <= w -> M < Z.of_nat fuel ->
  exists s' w', runEvents CalculateRank gm slack window fuel es s = (Ret tt, s') /\ dagOk gm M s' r (foldl knownAfter known es) w' /\
    (forall x, x ∈ known -> parentsIn s' x = parentsIn s x /\ ds_headers s' !! x = ds_headers s !! x) /\
    forall b h ps, BlockAdded b h ps ∈ es -> parentsIn s' b = ps /\ ds_headers s' !! b = Some h.
Proof.
  revert s known w. induction es as [|e es IH]; intros s known w Hok Hpos HM Hroom Hfuel; cbn [runEvents foldl].
  { exists s, w. split_and!; [done|done|done|set_solver]. }
  destruct Hpos as [He Hpos]. assert (Hlen : len (e :: es) = len es + 1) by (unfold len; cbn; lia). rewrite Hlen in *.
  assert (Hl0 : 0 <= len es) by (unfold len; lia). assert (Hk0 : 0 <= len known) by (unfold len; lia).
  assert (Hcall : stepRoom (len known + 1) <= stepRoom M) by (unfold stepRoom; nia).
  assert (Hpos0 : 0 <= stepRoom (len known + 1)) by (unfold stepRoom; nia).
  assert (Hstep : exists s1, runEvent CalculateRank gm slack window fuel e s = (Ret tt, s1) /\
    dagOk gm M s1 r (knownAfter known e) (w - stepRoom (len known + 1)) /\ extends s s1 e /\ len (knownAfter known e) <= len known + 1).
  { destruct e as [b h ps|tip]; cbn [knownAfter runEvent].
    - destruct (insertBlock_ok s known w b h ps) as (s1 & ? & ? & ?); [done|done|lia|nia|lia|].
      exists s1. split_and!; [done|done|done|unfold len; cbn; lia].
    - destruct (moveReindexRoot_ok s known w tip) as (s1 & ? & ? & ?); [done|done|nia|lia|]. exists s1. split_and!; [done|done|done|lia]. }
  destruct Hstep as (s1 & Hrun1 & Hok1 & Hext & Hlen1). rewrite (bind_Ret _ _ _ _ _ Hrun1).
  destruct (IH s1 (knownAfter known e) (w - stepRoom (len known + 1))) as (s' & w' & Hrun & Hok' & Hold & Hnew); [done|done|lia|nia|done|].
  exists s', w'. split_and!; [done|done|..].
  - intros x Hx. destruct (Hold x) as [-> ->]; [destruct e; [by right|done]|]. destruct e as [b h ps|]; destruct Hext as [-> ->]; [|done].
    destruct He as [Hb _]. assert (b <> x) by (by intros <-). by rewrite decide_False, lookup_insert_ne by congruence.
  - intros b h ps [<-|Hin]%elem_of_cons; [|by eapply Hnew]. destruct (Hold b) as [-> ->]; [by left|]. destruct Hext as [-> ->].
    by rewrite decide_True, lookup_insert_eq.
Qed.
End Steps.

(** The start of a DAG. *)
Lemma startDag_ok gm M s :
  ds_relations s = ∅ -> ds_ghostdag s = ∅ -> rs_data (ds_reach s) !! gm_VirtualGenesisBlockHash gm = None -> 0 <= M ->
  exists s', startDag gm s = (Ret tt, s') /\
    dagOk gm M s' (gm_VirtualGenesisBlockHash gm) [gm_VirtualGenesisBlockHash gm] (MaxUint64 - 1) /\
    parentsIn s' (gm_VirtualGenesisBlockHash gm) = [].
Proof.
  intros Hrel Hgd Hnew HM. set (vg := gm_VirtualGenesisBlockHash gm) in *. set (d := MkGHOSTDAGData 0 0 1 None [] [] ∅).
  set (g := fun b => (<[vg := d]> ∅ : gmap DomainHash BlockGHOSTDAGData) !! b).
  destruct (Init_kept g (ds_reach s) vg d) as (t & Hinit & Hkept); [done|apply lookup_insert_eq|done|].
  unfold startDag. fold vg. rewrite (bind_Ret _ _ _ _ _ (reach_run (Init vg) s tt t Hinit)).
  set (s1 := MkDagState _ _ _ _ t). destruct (SetParents_run vg [] s1) as (m & Hset & Hdom & Hpar & _); [cbn; by rewrite Hrel|set_solver|].
  rewrite (bind_Ret _ _ _ _ _ Hset). eexists. split; [done|]. set (s' := MkDagState _ _ _ _ _).
  assert (Hst : forall b, stored s' b = g b) by (intros b; unfold stored, g; cbn; by rewrite Hgd).
  assert (Hvg : forall b d', stored s' b = Some d' -> b = vg /\ d' = d).
  { intros b d'. rewrite Hst. intros [[-> ->]|[_ ?]]%lookup_insert_Some; [done|by rewrite lookup_empty in *]. }
  assert (Hp : forall x, parentsIn s' x = []).
  { intros x. change (parentsIn s' x) with (parentsIn (withRelations m s1) x). rewrite Hpar. case_decide; [done|].
    unfold parentsIn. cbn. by rewrite Hrel. }
  assert (Hpast : forall a b, ~ past s' a b).
  { intros a b (p & Hpb & _)%past_parent. rewrite Hp in Hpb. set_solver. }
  split; [|apply Hp]. split.
  - apply (kept_ext g); [auto|done].
  - apply NoDup_singleton.
  - intros b [d' Hd']. apply (Hvg b d') in Hd' as [-> _]. set_solver.
  - intros b. change (ds_relations s' !! b) with (m !! b). rewrite Hdom, list_elem_of_singleton. cbn. rewrite Hrel, lookup_empty.
    split; [intros [?|[]]; done|by left].
  - intros b p _. rewrite Hp. set_solver.
  - intros a b ->%list_elem_of_singleton. split; [|by intros ?%Hpast]. intros Hin. exfalso.
    assert (Hd : stored s' vg = Some d) by (rewrite Hst; apply lookup_insert_eq).
    destruct (inPast_inv _ _ _ _ Hd Hin) as [?|[?|(p & ? & _)]]; [done|set_solver|done].
  - split; [intros a d' [_ ->]%Hvg; by vm_compute|]. by intros b d' p dp [_ ->]%Hvg.
  - exists (fun _ => 0%nat). split_and!; [split|..].
    + set_solver.
    + intros b ->%list_elem_of_singleton. exists d. change (ds_ghostdag s' !! vg) with (stored s' vg). rewrite Hst. apply lookup_insert_eq.
    + intros b ->%list_elem_of_singleton. by left.
    + intros b p _ (d' & Hd' & Hsp). apply (Hvg b d') in Hd' as [_ ->]. done.
    + by intros b ->%list_elem_of_singleton.
    + intros b d' x _ Hd' Hx. apply (Hvg b d') in Hd' as [_ ->]. set_solver.
    + intros b p _. rewrite Hp. set_solver.
    + intros b _. cbn. lia.
    + intros b d' [_ ->]%Hvg. done.
  - intros b ->%list_elem_of_singleton. by left.
  - intros b ->%list_elem_of_singleton. by left.
Qed.

Section Whole.
Context `{GoArch} (CalculateRank : list DomainHash -> dagM Z) (gm : ghostdagManager) (slack window : Z) (fuel : nat).
Context (s : dagState) (es : list event).

(** A history from empty stores: the events are possible, and there is room for them. *)
Record startable : Prop := {
  st_rank : forall t ps, exists rk, CalculateRank ps t = (Ret rk, t);
  st_k : gm_k gm <> [];
  st_slack : 0 < slack;
  st_window : 0 < window;
  st_relations : ds_relations s = ∅;
  st_ghostdag : ds_ghostdag s = ∅;
  st_reach : rs_data (ds_reach s) !! gm_VirtualGenesisBlockHash gm = None;
  st_events : possible [gm_VirtualGenesisBlockHash gm] es;
  st_room : len es * ((2 * slack + 2) * (len es + 2)) < MaxUint64;
  st_fuel : len es + 2 < Z.of_nat fuel
}.

Lemma history_ok : startable ->
  exists s' w', (startDag gm ;;; runEvents CalculateRank gm slack window fuel es) s = (Ret tt, s') /\
    dagOk gm (len es + 2) s' (gm_VirtualGenesisBlockHash gm) (foldl knownAfter [gm_VirtualGenesisBlockHash gm] es) w' /\
    parentsIn s' (gm_VirtualGenesisBlockHash gm) = [] /\
    forall b h ps, BlockAdded b h ps ∈ es -> parentsIn s' b = ps /\ ds_headers s' !! b = Some h.
Proof.
  intros [Hrank Hk Hsl Hwin Hrel Hgd Hreach Hpos Hcap Hfuel]. assert (Hlen : 0 <= len es) by (unfold len; lia).
  destruct (startDag_ok gm (len es + 2) s) as (s1 & Hrun1 & Hok1 & Hp1); [done|done|done|lia|].
  destruct (runEvents_ok CalculateRank gm slack window fuel Hrank Hsl Hwin Hk (len es + 2)) with (es := es) (s := s1)
    (r := gm_VirtualGenesisBlockHash gm) (known := [gm_VirtualGenesisBlockHash gm]) (w := MaxUint64 - 1)
    as (s' & w' & Hrun & Hok & Hold & Hnew).
  - unfold MaxUint64 in *. nia.
  - done.
  - done.
  - rewrite len_single. lia.
  - unfold stepRoom. lia.
  - done.
  - exists s', w'. split_and!; [by rewrite (bind_Ret _ _ _ _ _ Hrun1)|done| |done].
    destruct (Hold (gm_VirtualGenesisBlockHash gm)) as [-> _]; [set_solver|done].
Qed.
End Whole.

(** C10. The managers of the DAG agree on it, over any history: from empty stores, after the
    start and any events in which a block comes after its parents, nothing has failed, the
    stored parents are those given, and [IsAncestorOf] tells of any two blocks whether the
    first is the second or is reached from it over parents, although it is answered from
    intervals and future covering sets that are built from the GHOSTDAG data, which in turn
    is computed with these answers.  The number of events is bounded as for the
    reachability manager alone. *)
Theorem dag_history `{GoArch} CalculateRank gm slack window fuel s es :
  startable CalculateRank gm slack window fuel s es ->
  exists s', (startDag gm ;;; runEvents CalculateRank gm slack window fuel es) s = (Ret tt, s') /\
    parentsIn s' (gm_VirtualGenesisBlockHash gm) = [] /\ (forall b h ps, BlockAdded b h ps ∈ es -> parentsIn s' b = ps) /\
    forall a b, a ∈ foldl knownAfter [gm_VirtualGenesisBlockHash gm] es -> b ∈ foldl knownAfter [gm_VirtualGenesisBlockHash gm] es ->
      exists res, IsAncestorOf a b s' = (Ret res, s') /\ (res = true <-> a = b \/ past s' a b).
Proof.
  intros Hst. destruct (history_ok _ _ _ _ _ _ _ Hst) as (s' & w' & Hrun & Hok & Hp & Hnew).
  exists s'. split_and!; [done|done|intros b h ps Hin; by eapply Hnew|].
  pose proof (dagOk_topology _ _ _ _ _ _ Hok) as Htop. apply Htop.
Qed.

(** Every block has work, and the virtual genesis is a parent only where it is the only one. *)
Definition worked (vg : DomainHash) (e : event) : Prop :=
  match e with
  | BlockAdded _ h ps => 0 < CompactToBig (Bits h) < 2 ^ 256 /\ (vg ∈ ps -> ps = [vg])
  | TipChanged _ => True
  end.

Lemma added_known l es b h ps : BlockAdded b h ps ∈ es -> b ∈ foldl knownAfter l es.
Proof.
  assert (Hmono : forall es' l', b ∈ l' -> b ∈ foldl knownAfter l' es').
  { induction es' as [|e es' IH]; intros l' Hb; [done|]. cbn. apply IH. destruct e; [by right|done]. }
  revert l. induction es as [|e es IH]; intros l Hin; [set_solver|]. cbn. apply elem_of_cons in Hin as [<-|Hin]; [|by apply IH].
  apply Hmono. by left.
Qed.

Lemma possible_fresh l es b h ps : possible l es -> BlockAdded b h ps ∈ es -> b ∉ l.
Proof.
  revert l. induction es as [|e es IH]; intros l Hpos Hin; [set_solver|]. destruct Hpos as [He Hpos].
  apply elem_of_cons in Hin as [<-|Hin]; [apply He|]. intros Hb. apply (IH _ Hpos Hin). destruct e; [by right|done].
Qed.

Section Heavier.
Context (gm : ghostdagManager) (M : Z) (s : dagState) (es : list event) (w : Z).
Notation vg := (gm_VirtualGenesisBlockHash gm).
Notation known := (foldl knownAfter [vg] es).
Context (Hok : dagOk gm M s vg known w) (Hvg : parentsIn s vg = []).
Context (Hnew : forall b h ps, BlockAdded b h ps ∈ es -> parentsIn s b = ps /\ ds_headers s !! b = Some h).
Context (Hwork : forall e, e ∈ es -> worked vg e).

Lemma known_added l b : b ∈ foldl knownAfter l es -> b ∈ l \/ exists h ps, BlockAdded b h ps ∈ es.
Proof.
  clear. revert l. induction es as [|e es' IH]; intros l Hb; cbn in Hb; [by left|]. destruct (IH _ Hb) as [Hin|(h & ps & Hin)];
    [|right; exists h, ps; by right]. destruct e as [c h ps|tip]; [|by left].
  apply elem_of_cons in Hin as [->|?]; [right; exists h, ps; by left|by left].
Qed.

Lemma parent_lighter b p d dp :
  b ∈ known -> p ∈ parentsIn s b -> p <> vg -> stored s b = Some d -> stored s p = Some dp -> blueWork dp < blueWork d.
Proof.
  intros Hb Hp Hpv Hd Hdp. destruct (dk_data _ _ _ _ _ _ Hok b Hb) as [->|(d' & sp & blues & v & Hd' & Hgok)].
  { rewrite Hvg in Hp. set_solver. }
  rewrite Hd in Hd'. injection Hd' as <-. pose proof (proj1 (gk_greatest _ _ _ _ _ _ _ Hgok)) as Hsp.
  assert (Hspv : sp <> vg).
  { intros ->. destruct (known_added [vg] b Hb) as [->%list_elem_of_singleton|(h & ps & Hin)]; [rewrite Hvg in Hp; set_solver|].
    destruct (Hnew b h ps Hin) as [Heq _]. rewrite Heq in *. destruct (Hwork _ Hin) as [_ Honly]. rewrite Honly in Hp by done. set_solver. }
  assert (Hspk : sp ∈ known) by by eapply (dk_parents _ _ _ _ _ _ Hok).
  eapply ghostdagOk_heavier; [exact Hgok| |exact Hp|exact Hdp].
  destruct (known_added [vg] sp Hspk) as [->%list_elem_of_singleton|(h & ps & Hin)]; [done|].
  destruct (Hnew sp h ps Hin) as [_ Hh]. destruct (Hwork _ Hin) as [Hpos _]. unfold workOf. rewrite decide_False, Hh by done. by apply CalcWork_pos.
Qed.

(** The past of a block comes before it. *)
Lemma past_precedes a b : b ∈ known -> past s a b -> a <> vg -> precedes (ds_ghostdag s) a b.
Proof.
  intros Hb Hab Hne. pose proof (dagOk_topology _ _ _ _ _ _ Hok) as Htop. destruct (dk_colored _ _ _ _ _ _ Hok) as (rank & Hco & _).
  assert (Hlt : forall x y, y ∈ known -> x ∈ parentsIn s y -> x <> vg -> precedes (ds_ghostdag s) x y).
  { intros x y Hy Hxy Hx. destruct (co_data _ _ _ _ Hco y Hy) as [dy Hdy].
    destruct (co_data _ _ _ _ Hco x) as [dx Hdx]; [by eapply (dk_parents _ _ _ _ _ _ Hok)|]. exists dx, dy. split_and!; [done|done|].
    pose proof (parent_lighter y x dy dx Hy Hxy Hx Hdy Hdx). unfold Less. by rewrite (proj2 (Z.compare_lt_iff _ _)). }
  revert Hb Hne. induction Hab as [a b Hab|a c b Hac Hcb IH]; intros Hb Hne; [by apply Hlt|].
  assert (Hc : c ∈ known) by by eapply past_known. transitivity c; [by apply Hlt|]. apply IH; [done|]. intros ->. rewrite Hvg in Hac. set_solver.
Qed.
End Heavier.

Lemma sorted_before {A} (R : A -> A -> Prop) `{!Irreflexive R, !Transitive R} l x y :
  StronglySorted R l -> x ∈ l -> y ∈ l -> R x y -> exists l1 l2 l3, l = l1 ++ x :: l2 ++ y :: l3.
Proof.
  intros Hs Hx Hy Hxy. apply list_elem_of_split in Hx as (l1 & l2 & ->). apply elem_of_app in Hy as [Hy|[->|Hy]%elem_of_cons].
  - exfalso. apply list_elem_of_split in Hy as (k1 & k2 & ->). rewrite <- app_assoc in Hs. cbn in Hs.
    assert (Hyx : R y x); [|destruct (irreflexivity R x); by transitivity y]. clear -Hs. induction k1 as [|a k1 IH]; cbn in Hs.
    + apply StronglySorted_inv in Hs as [_ Hs]. apply (proj1 (list.Forall_forall _ _) Hs). set_solver.
    + apply StronglySorted_inv in Hs as [Hs _]. auto.
  - by destruct (irreflexivity R x).
  - apply list_elem_of_split in Hy as (k1 & k2 & ->). by exists l1, k1, k2.
Qed.

(** C11. The GHOSTDAG data of every block of a history are as specified: its selected parent is
    the greatest of its parents by blue work and hash; its blues and reds are exactly the
    blocks of its past that the selected parent does not have, each once and sorted; there
    are at most K + 1 blues, and each has at most K blocks of the blue set of the selected
    parent outside its past (K + 1 from version 7 on); blue score and blue work add up.
    [GetSortedMergeSet] lists the merge set so that no block comes before one of its past. *)
Theorem ghostdag_history `{GoArch} CalculateRank gm slack window fuel s es :
  startable CalculateRank gm slack window fuel s es -> (forall e, e ∈ es -> worked (gm_VirtualGenesisBlockHash gm) e) ->
  exists s', (startDag gm ;;; runEvents CalculateRank gm slack window fuel es) s = (Ret tt, s') /\
    forall b h ps, BlockAdded b h ps ∈ es -> exists d sp blues version l,
      ds_ghostdag s' !! b = Some d /\ ghostdagOk gm s' ps version d sp blues /\
      GetSortedMergeSet b s' = (Ret (sp :: l), s') /\ l ≡ₚ blues ++ mergeSetReds d /\
      forall x y, x ∈ l -> y ∈ l -> x <> gm_VirtualGenesisBlockHash gm -> past s' x y -> exists l1 l2 l3, l = l1 ++ x :: l2 ++ y :: l3.
Proof.
  intros Hst Hwork. destruct (history_ok _ _ _ _ _ _ _ Hst) as (s' & w' & Hrun & Hok & Hvg & Hnew).
  exists s'. split; [done|]. intros b h ps Hin. destruct (Hnew b h ps Hin) as [Hps _].
  pose proof (added_known [gm_VirtualGenesisBlockHash gm] es b h ps Hin) as Hb.
  pose proof (possible_fresh _ _ _ _ _ (st_events _ _ _ _ _ _ _ Hst) Hin) as Hfresh.
  destruct (dk_data _ _ _ _ _ _ Hok b Hb) as [->|(d & sp & blues & v & Hd & Hgok)]; [set_solver|]. rewrite Hps in Hgok.
  assert (Hknown : forall a, a ∈ blues ++ mergeSetReds d -> a ∈ foldl knownAfter [gm_VirtualGenesisBlockHash gm] es).
  { intros a Ha. apply (merged_known gm _ s' _ _ _ sp ps Hok); [|by apply (gk_merged _ _ _ _ _ _ _ Hgok)].
    intros p Hp. eapply (dk_parents _ _ _ _ _ _ Hok); [exact Hb|]. by rewrite Hps. }
  destruct (dk_colored _ _ _ _ _ _ Hok) as (rank & Hco & _).
  destruct (GetSortedMergeSet_run s' gm b ps v d sp blues Hd Hgok) as (l & Hl & Hp & Hs); [intros a Ha; apply Hco; auto|].
  exists d, sp, blues, v, l. split_and!; [done|done|done|done|]. intros x y Hx Hy Hxv Hxy.
  apply (sorted_before (precedes (ds_ghostdag s'))); [done|done|done|].
  eapply past_precedes; [done|done|done|done| |done|done]. apply Hknown. by rewrite <- Hp.
Qed.

(** A DAG of a block, two children and a block that merges them. *)
Definition exampleManager : ghostdagManager := MkGhostdag [2] (hashOf 1) [] (hashOf 254) (hashOf 0) 1.
Definition exampleHeader : blockHeader := MkHeader 0x207fffff 0.
Definition exampleStart : dagState := MkDagState ∅ ∅ ∅ ∅ (MkReachState ∅ None ∅).
Definition exampleRank (_ : list DomainHash) : dagM Z := ret 2.
Definition exampleEvents : list event :=
  [BlockAdded (hashOf 1) exampleHeader [hashOf 0]; BlockAdded (hashOf 2) exampleHeader [hashOf 1];
   TipChanged (hashOf 2); BlockAdded (hashOf 3) exampleHeader [hashOf 1]; BlockAdded (hashOf 4) exampleHeader [hashOf 2; hashOf 3]].

Lemma example_startable : startable exampleRank exampleManager 4096 200 10 exampleStart exampleEvents.
Proof.
  split; try done; [by exists 2|].
  cbn. split_and!; try done; try set_solver; by apply (bool_decide_unpack _); vm_compute.
Qed.

Lemma dag_history_witness :
  exists s', (startDag exampleManager ;;; runEvents (H := Build_GoArch (fun _ => 0)) exampleRank exampleManager 4096 200 10 exampleEvents) exampleStart = (Ret tt, s') /\
    parentsIn s' (hashOf 0) = [] /\ (forall b h ps, BlockAdded b h ps ∈ exampleEvents -> parentsIn s' b = ps) /\
    forall a b, a ∈ foldl knownAfter [hashOf 0] exampleEvents -> b ∈ foldl knownAfter [hashOf 0] exampleEvents ->
      exists res, IsAncestorOf a b s' = (Ret res, s') /\ (res = true <-> a = b \/ past s' a b).
Proof. exact (dag_history exampleRank exampleManager 4096 200 10 exampleStart exampleEvents example_startable). Defined.

Lemma example_worked e : e ∈ exampleEvents -> worked (hashOf 0) e.
Proof.
  intros He. repeat (apply elem_of_cons in He as [->|He]); [..|by apply elem_of_nil in He]; try done;
    (split; [by vm_compute|]); intros Hin; try done; exfalso; revert Hin; by apply (bool_decide_unpack _); vm_compute.
Qed.

Lemma ghostdag_history_witness :
  exists s', (startDag exampleManager ;;; runEvents (H := Build_GoArch (fun _ => 0)) exampleRank exampleManager 4096 200 10 exampleEvents) exampleStart = (Ret tt, s') /\
    forall b h ps, BlockAdded b h ps ∈ exampleEvents -> exists d sp blues version l,
      ds_ghostdag s' !! b = Some d /\ ghostdagOk exampleManager s' ps version d sp blues /\
      GetSortedMergeSet b s' = (Ret (sp :: l), s') /\ l ≡ₚ blues ++ mergeSetReds d /\
      forall x y, x ∈ l -> y ∈ l -> x <> hashOf 0 -> past s' x y -> exists l1 l2 l3, l = l1 ++ x :: l2 ++ y :: l3.
Proof. exact (ghostdag_history exampleRank exampleManager 4096 200 10 exampleStart exampleEvents example_startable example_worked). Defined.

Lemma example_parents p : p ∈ [hashOf 2; hashOf 3] -> p ∈ foldl knownAfter [hashOf 0] exampleEvents.
Proof.
  intros [->| ->%list_elem_of_singleton]%elem_of_cons; by apply (bool_decide_unpack _); vm_compute.
Qed.


(** ** A coloring that is not a K-cluster

    With K = 2 the blocks 5 and 6 above block 2 are both blue for a block that merges them
    into the chain 2, 3, 4, although 6 then has the blues 3, 4 and 5 in its anticone: the
    walk starts at the selected parent, whose own blues do not have the new ones, nor the
    selected parent itself. *)
Definition clusterEvents : list event :=
  [BlockAdded (hashOf 1) exampleHeader [hashOf 0]; BlockAdded (hashOf 2) exampleHeader [hashOf 1];
   BlockAdded (hashOf 3) exampleHeader [hashOf 2]; BlockAdded (hashOf 4) exampleHeader [hashOf 3];
   BlockAdded (hashOf 5) exampleHeader [hashOf 2]; BlockAdded (hashOf 6) exampleHeader [hashOf 2];
   BlockAdded (hashOf 7) exampleHeader [hashOf 4; hashOf 5; hashOf 6]].

Definition clusterState : dagState :=
  snd ((startDag exampleManager ;;; runEvents (H := Build_GoArch (fun _ => 0)) exampleRank exampleManager 4096 200 12 clusterEvents) exampleStart).

(** Neither of two blocks is in the past of the other. *)
Definition inAnticone (s : dagState) (a b : DomainHash) : Prop :=
  fst (IsAncestorOf a b s) = Ret false /\ fst (IsAncestorOf b a s) = Ret false.

Lemma blue_anticone_above_k :
  gm_k exampleManager = [2] /\
  mergeSetBlues <$> ds_ghostdag clusterState !! hashOf 7 = Some [hashOf 4; hashOf 5; hashOf 6] /\
  mergeSetBlues <$> ds_ghostdag clusterState !! hashOf 4 = Some [hashOf 3] /\
  inAnticone clusterState (hashOf 3) (hashOf 6) /\ inAnticone clusterState (hashOf 4) (hashOf 6) /\ inAnticone clusterState (hashOf 5) (hashOf 6).
Proof. unfold inAnticone. repeat apply conj; vm_compute; reflexivity. Qed.
